(* ===== verification/_CoqProject ===== *)
-Q . S2P
Prelude.v
Json.v
Images.v
Targeting.v
Deployments.v
DeploymentService.v
DeploymentApi.v
Download.v
Rollouts.v
Permissions.v
ControlLock.v
Audio.v
Telemetry.v
MediaCodec.v
Metrics.v
Thresholds.v
AlertEvents.v
Scanner.v
FirmwareModel.v
FirmwareApi.v
FirmwareStatus.v
Mcuboot.v
ModuleIngest.v
Capabilities.v
Registry.v
PttSafety.v
AgentBroker.v
ModuleOta.v
AgentDownload.v
BootMarkers.v
Bootloader.v
AgentOta.v
Repeaters.v
ScanControl.v
ControlConsumer.v
AgentConsumer.v
History.v
Jobs.v
Auth.v
Directory.v
AudioUplink.v
