(* ===== verification/Prelude.v ===== *)
(** * Station manager: verification library

    The station manager runs a fleet of amateur-radio stations.  A Django
    server ([apps/]) keeps releases, deployments, permissions, the control lock
    of each station, live audio and telemetry demand, metrics and alerts; an
    agent on every station ([station_agent/]) polls the server over HTTP, keeps
    a control and an audio WebSocket open and drives the radio modules.  This
    library models the parts that carry the system's own decisions and proves
    what makes them correct.  Every definition translates the lines of the
    source it is mapped to; everything is executable, so the examples and
    witnesses evaluate.

    ** Conventions

    - A Python function that may raise is a function into [outcome] (this
      file); [obind] and [ofold] are its sequencing and its [for] loop.
    - A database table is the list of its rows in arbitrary order, or a map from
      a unique column; a transaction that holds the row locks it needs is one
      step.  Where the code reads before it locks, what happens in between is an
      explicit argument or a separate step.
    - Times are integers (seconds or microseconds, as the file says); [now] is an
      argument.  Floats are IEEE binary64, by [SpecFloat] ([Json]).  JSON from
      agents and browsers is the type [Json], with every type the code tests for.
    - Recursion is structural except in loops with fuel, each with a lemma that the
      fuel is enough: the chunk loop of [Download] (one more than the bytes left in
      the file; [iterator_spec]), the entry loop of the image parser in [Mcuboot]
      (the length of the area: an entry has at least four bytes), the polling loop
      of [ModuleOta] ([verify_fuel]: every round sleeps at least a millisecond of a
      bounded window; [verify_confirms_stable]), the argument loop of [BootMarkers]
      (the length of the text: a round consumes a character; [args_loop_fuel]), and
      in [History] the search for a month from an estimate that is at most eight
      months early ([month_of_spec]), the chunks of a compaction ([compact_fuel]: a
      chunk covers an hour or the rest; [compact_catches_up]) and the months before
      a cutoff (a month has at least a day; [months_with_rows_complete]).
    - What runs concurrently is written as interleaving.  A coroutine of the server
      is a tree of atomic steps that other handlers may interleave with
      ([ControlConsumer]); the agent's broker, scanner and re-apply tasks are step
      relations whose labels choose who runs next.  A power loss is a cut: an update
      cycle of [AgentOta] has one state after each lasting effect, and a statement
      about all of them covers every crash.
    - Means of samples are exact rationals ([History]); the rounding of binary64 is
      not modelled there.
    - Code outside the repository is a parameter: digests, the laws of the signature
      scheme ([DeviceCrypto]), the boot script ([BootScriptLaws]), the file system
      label tool and the decompressor, seekable file objects ([FileLikeLaws]), the
      device at the end of a serial line, the flash backends, the work on disk
      images, great-circle distances, Python's [repr] of a float, [str] of a JSON
      value and [fromisoformat].  Where a theorem needs more than the type, it names
      the law, and its witness instantiates it.

    ** Files

    - [Prelude] (this file): outcomes, tables, sorting, shared automation.
    - [Json]: JSON values, numbers, [int(str)].
    - [Images] ([apps/images/models.py]): the release rows; one latest release
      per machine and channel.
    - [Targeting] ([apps/rollouts/targeting.py]): tag order and [resolve_upgrade].
      An offered upgrade is the newest installable release and never a
      downgrade, and installing it ends the offers.
    - [Deployments] ([apps/deployments/models.py], [supersession.py]): rows,
      progress, supersession and the two roll-ups of a parent, which disagree.
    - [DeploymentService] ([services.py]): planning and creation; every station
      of the target is either served once or listed as skipped.
    - [DeploymentApi] ([api_views.py], [views.py]): the status, commit and cancel
      handlers as steps; the table invariant over every sequence of them, the
      finality of terminal results, the release pointer, and the race of commit
      with cancel.
    - [Download] ([api_views.py]): range requests of a station with an open result
      on an object stream.
    - [Rollouts] ([apps/rollouts/]): the rollout sequence under a unique
      constraint, as a refinement of an abstract list.
    - [Permissions] ([apps/accounts/permissions.py]): areas, levels, [can], its
      queryset twin, the gates and the passive re-check.
    - [ControlLock] ([apps/control/lock.py]): who holds a station, and the only
      ways to lose it.
    - [Audio] ([apps/audio/]): the transmit gate (dead man), reference-counted
      stream demand, the meter sanitiser; and the capability write policy
      ([apps/control/capability_policy.py]).
    - [Telemetry] ([apps/control/telemetry_subscriptions.py] and the subscription
      table of [station_agent/broker.py]): the frames relayed to the agent keep
      its polling equal to the browsers' demand, within the intervals its
      descriptors allow, by a refinement.
    - [MediaCodec] ([station_agent/audio/frame.py], [rtp.py], [streams.py]): wire
      formats with round trips in both directions, and the stream registry.
    - [Metrics] ([station_agent/metrics_contract.py],
      [apps/monitoring/metrics_ingest.py]): keys, patterns, values, descriptors
      and what a heartbeat may write.
    - [Thresholds] ([apps/monitoring/engine.py], [rules.py], [signals.py]):
      threshold rules as a timer machine over the tables; it refines a
      specification on observation histories, and no interleaving with rule
      edits, blocks and heartbeats (the ingest of [Metrics]) leaves an orphaned
      alert.
    - [AlertEvents] ([engine.py], [apps/stations/tasks.py]): the event checks over
      the alerts of [Thresholds] and the results of [Deployments], [check_alerts]
      and the offline sweep.
    - [Scanner] ([station_agent/scanner.py]): the carrier scanner as two coroutines
      and a lock, every interleaving.
    - [FirmwareModel] ([apps/module_firmware/models.py], [reconciler.py],
      [drain.py]): module firmware targets, the reconciler's decision on a
      convergence row, the error policy and the drain predicate.
    - [FirmwareApi] ([reconcile_api_views.py], [services.py]): the check, status and
      commit handlers and the operator's release and retry as steps; composed with
      [ControlLock] through the drain.
    - [FirmwareStatus] ([update_status.py]): the displayed status against the
      reconciler it mirrors.
    - [Mcuboot] ([mcuboot.py]): the signing-key prefix of a firmware image.
    - [ModuleIngest] ([ingest.py], [services.py]): modules, assignments and
      lifecycle from self-reported identities.
    - [Capabilities] ([station_agent/descriptor.py], [protocol.py],
      [slot_control.py], [apps/control/persistence.py]): capability descriptors,
      command validation on both sides, the line written to a module.
    - [Registry] ([apps/control/registry.py], [persistence.py],
      [agent_presence.py]): inventory snapshots over the ingestion of
      [ModuleIngest], re-plugged modules, persisted calibration, the claim of an
      agent connection.
    - [PttSafety] ([station_agent/broker.py], [module_ota.py]): the PTT dead-man,
      the disconnect handler and the flasher's pause as one step relation.
    - [AgentBroker] ([station_agent/broker.py], [control_client.py]): command and
      preset handling, inventory frames and the inventory debouncer.
    - [ModuleOta] ([station_agent/module_ota.py], [module_ota_marker.py]): the
      agent's firmware cycle with every step that may fail, crash recovery and the
      verification loop.
    - [AgentDownload] ([station_agent/ota.py]): the resumable download, against the
      endpoint of [Download].
    - [BootMarkers] ([station_agent/boot_markers.py], [health_check.py]): the kernel
      command line and the gate before a commit.
    - [Bootloader] ([station_agent/bootloader.py], [bootinfo.py]): slots, the boot
      variables, what a boot is explained by.
    - [AgentOta] ([station_agent/agent.py], [ota.py]): the A/B update cycle, built
      from the three files before it.
    - [Repeaters] ([apps/repeaters/]): bands, visible repeaters, the scan list.
    - [ScanControl] ([apps/control/scan.py]): starting a scan, its row, its pushes.
    - [ControlConsumer] ([apps/control/consumers.py]): the browser's handlers over
      the lock, the gate, the policy, the registry, the scan and telemetry.
    - [AgentConsumer] (the same file): the agent's socket on the server, its
      teardown, and the re-apply of calibration.
    - [History] ([apps/history/]): samples, compaction, retention, charts.
    - [Jobs] ([apps/provisioning/], [apps/images/storage.py]): the background
      workers, the clean-up and the download of a bundle.
    - [Auth] ([apps/api/authentication.py], [station_agent/signing.py], tokens):
      who is calling, on both transports.
    - [Directory] ([apps/accounts/visibility.py], [apps/monitoring/recipients.py],
      [apps/sso/permissions.py]): who sees, hears of and may use what.
    - [AudioUplink] ([apps/audio/consumers.py]): which microphone frames pass.

    ** Theorems

    - Invariants by rule induction over every operation: [deployments_invariant],
      [no_orphan_alerts], [firmware_rows_well_formed], [inventory_consistent],
      [history_lossless], [bundle_downloadable], [sequence_always_gap_free].
    - Refinements of a specification stated without the code's functions:
      [telemetry_refines_demand] (the agent's polling is the demand of the rows),
      [threshold_refines_streaks] (timers are observation histories),
      [attempts_policy] (counters are report histories), [move_entry_refines] and
      [remove_entry_refines] (a list), [scan_list_correct],
      [audio_sources_match_demand].
    - Safety under every interleaving: [relays_authorised], [hold_quiesces],
      [ptt_dead_man], [no_flash_while_keyed], [uplink_dead_man],
      [reapply_exactly_once], [lock_lost_only_with_cause], [given_up_needs_operator],
      [instruction_sound].
    - Safety of the agent's updates under failures and power loss: [ab_safe],
      [armed_slot_holds_image], [cycle_cleans_up], [boot_gate_exact],
      [instruction_checked]; of commands: [command_validated].
    - Progress and termination: [drain_progress] (a station does not drain for an
      update it is not handed), [download_converges], [verify_confirms_stable].
    - Functional behaviour: [inventory_snapshot], [calibration_follows_module].
    - Two implementations that agree: [users_with_is_can], [status_mirrors_reconcile],
      [device_auth] (two transports), [charts_exact] (raw and aggregated),
      [progress_partitions_results].
    - Round trips and bounds: [parse_frame_exact], [rtp_roundtrip],
      [boot_key_parsed], [device_auth], [sanitize_bounds],
      [telemetry_demand_bounded], [scan_index_valid].
    - Where the code does not do what it is documented to do, a theorem or an example
      shows it: [offline_alert_needs_late_sweep], [disconnect_can_leave_keyed],
      [server_check_weaker], [sanitize_bounds], [route_moves_under_keyed_ptt],
      [rollups_disagree], [power_alert_recreated], [commit_race_reopens_cancelled],
      [flash_after_disconnect], [recovery_while_keyed], [install_over_the_fallback],
      [torn_snapshot_admits_former_holder], [take_over_during_key_up],
      [huge_value_escapes], [newline_token_accepted] and others.

    ** Bounds of the statements

    The PTT theorems hold where at most one module is keyed when the link drops;
    with two, [disconnect_can_leave_keyed] shows the opposite.  [ab_safe] assumes
    that nothing is installed while an uncommitted trial runs; what happens
    otherwise is [install_over_the_fallback].  A heartbeat of [Metrics] counts and
    inserts its definitions in one step, which the code does without a lock.  The
    check of [FirmwareApi] makes its reconciles in one step; what commits before its
    mark is arbitrary.

    ** Not modelled

    Templates, forms, serializers and view plumbing that delegate to the services
    above; the pages of accounts and the SSO protocol (plumbing on third-party
    packages); the terminal, the tunnel and web push (transport); alert texts and
    the delivery of mail; the audio signal processing and the device drivers; the
    agent's heartbeat, self-update and main loop; the import of firmware bundles and
    the operator's pages around it. *)

From Stdlib Require Import ZArith Lia.
From stdpp Require Import sorting.
From stdpp Require Import base gmap list strings numbers.

Local Open Scope Z_scope.

(** ** Outcomes of fallible code

    A Python function that returns a value or raises is a function into
    [outcome]: [Ok v] is a normal return, [Raise e] the exception [e]. *)

Inductive outcome (E A : Type) : Type :=
| Ok (a : A)
| Raise (e : E).

Arguments Ok {E A} a.
Arguments Raise {E A} e.

Definition obind {E A B} (m : outcome E A) (k : A → outcome E B) : outcome E B :=
  match m with
  | Ok a => k a
  | Raise e => Raise e
  end.

Declare Scope outcome_scope.
Delimit Scope outcome_scope with outcome.
Notation "'let!' x := m 'in' k" := (obind m (λ x, k))
  (at level 10, x pattern, m at level 100, k at level 200) : outcome_scope.

Lemma obind_Ok {E A B} (m : outcome E A) (k : A → outcome E B) b :
  obind m k = Ok b ↔ ∃ a, m = Ok a ∧ k a = Ok b.
Proof. destruct m; naive_solver. Qed.

Lemma obind_Raise {E A B} (m : outcome E A) (k : A → outcome E B) e :
  obind m k = Raise e ↔ m = Raise e ∨ ∃ a, m = Ok a ∧ k a = Raise e.
Proof. destruct m; naive_solver. Qed.

(** [for x in xs: st = body(x, st)] where the body may raise. *)
Fixpoint ofold {E A S} (body : S → A → outcome E S) (st : S) (xs : list A) : outcome E S :=
  match xs with
  | [] => Ok st
  | x :: xs' => obind (body st x) (λ st', ofold body st' xs')
  end.

(** The loop rule: an invariant that every iteration keeps holds at the end.
    The invariant sees the elements done so far and those still to come. *)
Lemma ofold_invariant {E A S} (I : list A → list A → S → Prop) (body : S → A → outcome E S) xs :
  (∀ done x rest st st', xs = done ++ x :: rest →
    I done (x :: rest) st → body st x = Ok st' → I (done ++ [x]) rest st') →
  ∀ st st', I [] xs st → ofold body st xs = Ok st' → I xs [] st'.
Proof.
  intros Hstep.
  assert (∀ rest done st st', xs = done ++ rest → I done rest st →
    ofold body st rest = Ok st' → I xs [] st') as Hgen.
  { intros rest. induction rest as [|x rest IH]; intros done st st' Heq HI Hrun; simpl in Hrun.
    - simplify_eq. by rewrite app_nil_r.
    - apply obind_Ok in Hrun as (st1 & Hb & Hrun).
      eapply (IH (done ++ [x])); [by rewrite Heq, <-app_assoc|by eapply Hstep|done]. }
  intros st st' HI Hrun. by eapply (Hgen xs []).
Qed.

(** ** Tables

    A database table is the list of its rows, in the arbitrary order in which
    the database returns them; statements quantify over the list, hence over
    every order. [update_where]/[delete_where] are the bulk [UPDATE]/[DELETE]
    of a queryset filtered by [P]. *)

Section tables.
Context {A : Type}.
Implicit Types (P : A → Prop) (f : A → A) (l : list A) (x : A).

Definition update_where P `{∀ x, Decision (P x)} f l : list A :=
  (λ x, if decide (P x) then f x else x) <$> l.

Definition delete_where P `{∀ x, Decision (P x)} l : list A :=
  filter (λ x, ¬ P x) l.

Lemma elem_of_update_where P `{∀ x, Decision (P x)} f l y :
  y ∈ update_where P f l ↔ ∃ x, x ∈ l ∧ ((P x ∧ y = f x) ∨ (¬ P x ∧ y = x)).
Proof.
  unfold update_where. rewrite list_elem_of_fmap. split.
  - intros (x & -> & Hx). exists x. split; [done|]. case_decide; auto.
  - intros (x & Hx & Hy). exists x. split; [|done]. case_decide; naive_solver.
Qed.

Lemma elem_of_delete_where P `{∀ x, Decision (P x)} l y :
  y ∈ delete_where P l ↔ ¬ P y ∧ y ∈ l.
Proof. unfold delete_where. by rewrite list_elem_of_filter. Qed.

Lemma length_update_where P `{∀ x, Decision (P x)} f l :
  length (update_where P f l) = length l.
Proof. apply length_fmap. Qed.

(** A column the update does not write keeps its values. *)
Lemma fmap_update_where {B} (g : A → B) P `{∀ x, Decision (P x)} f l :
  (∀ x, P x → g (f x) = g x) → g <$> update_where P f l = g <$> l.
Proof.
  intros Hg. unfold update_where. rewrite <-list_fmap_compose.
  apply list_fmap_ext. intros i x _; simpl. case_decide; auto.
Qed.

(** An update that matches no row is the identity. *)
Lemma update_where_none P `{∀ x, Decision (P x)} f l :
  (∀ x, x ∈ l → ¬ P x) → update_where P f l = l.
Proof.
  intros Hno. unfold update_where. rewrite <-(list_fmap_id l) at 2.
  apply list_fmap_ext. intros i x Hx; simpl.
  rewrite decide_False; [done|]. apply Hno. by eapply list_elem_of_lookup_2.
Qed.

(** Deleting the row just appended restores the table. *)
Lemma delete_where_snoc P `{∀ x, Decision (P x)} l x :
  (∀ y, y ∈ l → ¬ P y) → P x → delete_where P (l ++ [x]) = l.
Proof.
  intros Hl Hx. unfold delete_where. induction l as [|y l IH]; simpl.
  - rewrite filter_cons_False; [done|]. auto.
  - rewrite filter_cons_True by (apply Hl; set_solver). f_equal. apply IH. set_solver.
Qed.

(** Rows selected by a predicate the update leaves alone and does not feed. *)
Lemma filter_update_where_disjoint P Q `{∀ x, Decision (P x)} `{∀ x, Decision (Q x)} f l :
  (∀ x, P x → ¬ Q x) → (∀ x, P x → ¬ Q (f x)) →
  filter Q (update_where P f l) = filter Q l.
Proof.
  intros H1 H2. induction l as [|x l IH]; [done|].
  unfold update_where in *. rewrite fmap_cons, !filter_cons, IH.
  destruct (decide (P x)) as [HP|HP]; [|done].
  by rewrite !decide_False by auto.
Qed.

End tables.

(** ** Sorting by a key *)

Definition key_le {A} (key : A → Z) : relation A := λ x y, key x ≤ key y.

#[export] Instance key_le_dec {A} (key : A → Z) : RelDecision (key_le key).
Proof. intros x y. unfold key_le. apply _. Defined.

#[export] Instance key_le_total {A} (key : A → Z) : Total (key_le key).
Proof. intros x y. unfold key_le. lia. Qed.

#[export] Instance key_le_trans {A} (key : A → Z) : Transitive (key_le key).
Proof. intros x y z. unfold key_le. lia. Qed.

(** [sorted(xs, key=key)] (ascending). *)
Definition sort_by {A} (key : A → Z) (l : list A) : list A := merge_sort (key_le key) l.

Lemma sort_by_Permutation {A} (key : A → Z) (l : list A) : sort_by key l ≡ₚ l.
Proof. apply merge_sort_Permutation. Qed.

Lemma elem_of_sort_by {A} (key : A → Z) (l : list A) x : x ∈ sort_by key l ↔ x ∈ l.
Proof. by rewrite sort_by_Permutation. Qed.

Lemma sort_by_sorted {A} (key : A → Z) (l : list A) : StronglySorted (key_le key) (sort_by key l).
Proof. apply StronglySorted_merge_sort; apply _. Qed.

(** The first row of a sorted queryset has the smallest key. *)
Lemma head_sort_by {A} (key : A → Z) (l : list A) x y :
  head (sort_by key l) = Some x → y ∈ l → key x ≤ key y.
Proof.
  intros Hx Hy. pose proof (sort_by_sorted key l) as Hs.
  apply (elem_of_sort_by key) in Hy.
  destruct (sort_by key l) as [|z zs]; simplify_eq/=.
  apply elem_of_cons in Hy as [->|Hy]; [lia|].
  apply StronglySorted_cons in Hs as [Hall _].
  rewrite list.Forall_forall in Hall. by apply Hall.
Qed.

(** [order_by(k1, k2)]: ascending, [k2] breaks ties of [k1]. *)
Definition key2_le {A} (k1 k2 : A → Z) : relation A :=
  λ x y, k1 x < k1 y ∨ (k1 x = k1 y ∧ k2 x ≤ k2 y).

#[export] Instance key2_le_dec {A} (k1 k2 : A → Z) : RelDecision (key2_le k1 k2).
Proof. intros x y. unfold key2_le. apply _. Defined.

#[export] Instance key2_le_total {A} (k1 k2 : A → Z) : Total (key2_le k1 k2).
Proof. intros x y. unfold key2_le. lia. Qed.

#[export] Instance key2_le_trans {A} (k1 k2 : A → Z) : Transitive (key2_le k1 k2).
Proof. intros x y z. unfold key2_le. lia. Qed.

Definition sort_by2 {A} (k1 k2 : A → Z) (l : list A) : list A := merge_sort (key2_le k1 k2) l.

Lemma elem_of_sort_by2 {A} (k1 k2 : A → Z) (l : list A) x : x ∈ sort_by2 k1 k2 l ↔ x ∈ l.
Proof. unfold sort_by2. by rewrite merge_sort_Permutation. Qed.

Lemma head_sort_by2 {A} (k1 k2 : A → Z) (l : list A) x y :
  head (sort_by2 k1 k2 l) = Some x → y ∈ l → key2_le k1 k2 x y.
Proof.
  intros Hx Hy. assert (StronglySorted (key2_le k1 k2) (sort_by2 k1 k2 l)) as Hs
    by (apply StronglySorted_merge_sort; apply _).
  apply (elem_of_sort_by2 k1 k2) in Hy.
  destruct (sort_by2 k1 k2 l) as [|z zs]; simplify_eq/=.
  apply elem_of_cons in Hy as [->|Hy]; [right; lia|].
  apply StronglySorted_cons in Hs as [Hall _].
  rewrite list.Forall_forall in Hall. by apply Hall.
Qed.

Lemma head_elem_of {A} (l : list A) x : head l = Some x → x ∈ l.
Proof. destruct l; simpl; [done|]. intros [= ->]. apply elem_of_cons; by left. Qed.

(** In a column without duplicates a value determines its row. *)
Lemma NoDup_fmap_elem_inj {A B} (f : A → B) (l : list A) x y :
  NoDup (f <$> l) → x ∈ l → y ∈ l → f x = f y → x = y.
Proof.
  induction l as [|z l IH]; [intros _ H; by apply not_elem_of_nil in H|].
  rewrite fmap_cons, list.NoDup_cons. intros [Hz Hl] Hx Hy Heq.
  apply elem_of_cons in Hx as [->|Hx]; apply elem_of_cons in Hy as [->|Hy]; auto.
  - destruct Hz. rewrite Heq. by apply list_elem_of_fmap_2.
  - destruct Hz. rewrite <-Heq. by apply list_elem_of_fmap_2.
Qed.

(** A filtered list is non-empty exactly when some element passes. *)
Lemma filter_not_nil {A} (P : A → Prop) `{∀ x, Decision (P x)} (l : list A) :
  filter P l ≠ [] ↔ ∃ x, x ∈ l ∧ P x.
Proof.
  split.
  - destruct (filter P l) as [|x k] eqn:Hf; [done|]. intros _. exists x.
    assert (x ∈ filter P l) as Hx by (rewrite Hf; set_solver).
    apply list_elem_of_filter in Hx. naive_solver.
  - intros (x & Hx & HP) Hnil.
    assert (x ∈ filter P l) as Hin by by apply list_elem_of_filter.
    rewrite Hnil in Hin. by apply not_elem_of_nil in Hin.
Qed.

(** [queryset.filter(P).first()] of a table. *)
Lemma head_filter_Some {A} (P : A → Prop) `{∀ x, Decision (P x)} (l : list A) x :
  head (filter P l) = Some x → P x ∧ x ∈ l.
Proof. intros Hh. apply head_elem_of in Hh. by apply list_elem_of_filter in Hh. Qed.

Lemma head_filter_None {A} (P : A → Prop) `{∀ x, Decision (P x)} (l : list A) :
  head (filter P l) = None ↔ ∀ x, x ∈ l → ¬ P x.
Proof.
  split.
  - intros Hh x Hx HP. assert (x ∈ filter P l) as Hin by by apply list_elem_of_filter.
    destruct (filter P l); [by apply not_elem_of_nil in Hin|done].
  - intros Hno. destruct (head (filter P l)) eqn:Hh; [|done].
    apply head_filter_Some in Hh as [HP Hin]. by destruct (Hno _ Hin).
Qed.

(** When at most one row passes, [first()] finds it. *)
Lemma head_filter_unique {A} (P : A → Prop) `{∀ x, Decision (P x)} (l : list A) x :
  (∀ y, y ∈ l → P y → y = x) → x ∈ l → P x → head (filter P l) = Some x.
Proof.
  intros Hu Hx HP. destruct (head (filter P l)) as [y|] eqn:Hh.
  - apply head_filter_Some in Hh as [HPy Hy]. f_equal. auto.
  - rewrite head_filter_None in Hh. by destruct (Hh x).
Qed.

(** A column is kept by an update that keeps it on the rows it hits. *)
Lemma fmap_update_where_in {A B} (g : A → B) (P : A → Prop) `{∀ x, Decision (P x)} (f : A → A) (l : list A) :
  (∀ x, x ∈ l → P x → g (f x) = g x) → g <$> update_where P f l = g <$> l.
Proof.
  intros Hg. unfold update_where. rewrite <-list_fmap_compose.
  apply list_fmap_ext. intros i x Hi; simpl.
  case_decide; [|done]. apply Hg; [by eapply list_elem_of_lookup_2|done].
Qed.

(** ** Automation *)

Create HintDb tables.
#[export] Hint Rewrite @elem_of_update_where @elem_of_delete_where @list_elem_of_filter
  @length_update_where @elem_of_sort_by : tables.

(** Case analysis on every [decide] and [match] of the goal. *)
Ltac split_cases :=
  repeat first [ progress case_decide | progress case_match ]; simplify_eq/=.

(** Split on a record field and close the goal by computation. *)
Ltac by_cases := split_cases; try done; auto.
