(* ===== verification/Json.v ===== *)
(** * Python values at the trust boundary

    The JSON values agents and browsers send, as Python sees them after
    [json.loads] ([bool] is a subclass of [int]: the tests of the code treat
    it apart), the conversions [int(str)] and [float(int)], and the comparison
    and clamping of numbers.  Floats are IEEE binary64, by the executable
    semantics of [SpecFloat]. *)

From Stdlib Require Import ZArith Lia Ascii SpecFloat.
From stdpp Require Import base gmap list strings.
From S2P Require Import Prelude.

Local Open Scope Z_scope.

Inductive Json :=
| JNull
| JBool (b : bool)
| JInt (z : Z)
| JFloat (f : spec_float)
| JStr (s : string)
| JList (l : list Json)
| JObj (fields : list (string * Json)).

(** [d.get(key)] of a parsed object (keys are unique after parsing). *)
Fixpoint jget (key : string) (fields : list (string * Json)) : Json :=
  match fields with
  | [] => JNull
  | (k, v) :: fields' => if decide (k = key) then v else jget key fields'
  end.

(** ** Numbers *)

Definition float_of_Z (n : Z) : spec_float := binary_normalize 53 1024 n 0 false.

(** From here on [float(n)] raises [OverflowError] (it would round to 2^1024). *)
Definition FLOAT_OVERFLOW : Z := 2 ^ 1024 - 2 ^ 970.

Definition is_finite (f : spec_float) : bool :=
  match f with S754_zero _ | S754_finite _ _ _ => true | _ => false end.

(** [min(hi, max(lo, v))]: Python's [max]/[min] keep the first argument on ties. *)
Definition clamp_float (lo hi f : spec_float) : spec_float :=
  let m := if SFltb lo f then f else lo in
  if SFltb m hi then m else hi.

Lemma SFltb_leb a b : SFltb a b = true → SFleb a b = true.
Proof. unfold SFltb, SFleb. by destruct (SFcompare a b) as [[| |]|]. Qed.

Lemma clamp_float_bounds lo hi f :
  SFleb lo lo = true → SFleb lo hi = true → SFleb hi hi = true →
  SFleb lo (clamp_float lo hi f) = true ∧ SFleb (clamp_float lo hi f) hi = true.
Proof.
  intros Hll Hlh Hhh. unfold clamp_float.
  destruct (SFltb lo f) eqn:Hlf; destruct (SFltb _ hi) eqn:Hh; auto using SFltb_leb.
Qed.

(** ** [int(str)] *)

Definition ascii_code (c : ascii) : Z := Z.of_nat (nat_of_ascii c).

Definition is_space (c : ascii) : bool :=
  bool_decide (ascii_code c = 32) || bool_decide (9 ≤ ascii_code c ≤ 13) ||
  bool_decide (28 ≤ ascii_code c ≤ 31).

Fixpoint lstrip (l : list ascii) : list ascii :=
  match l with
  | c :: l' => if is_space c then lstrip l' else l
  | [] => []
  end.

Definition strip (l : list ascii) : list ascii := reverse (lstrip (reverse (lstrip l))).

Definition decimal (c : ascii) : option Z :=
  if bool_decide (48 ≤ ascii_code c ≤ 57) then Some (ascii_code c - 48) else None.

(** Digits, with single underscores allowed between them; [after] tells
    whether the previous character was a digit. *)
Fixpoint digits_underscore (acc : Z) (after : bool) (l : list ascii) : option Z :=
  match l with
  | [] => if after then Some acc else None
  | c :: l' =>
    match decimal c with
    | Some d => digits_underscore (10 * acc + d) true l'
    | None => if bool_decide (ascii_code c = 95) && after then digits_underscore acc false l' else None
    end
  end.

(** [int(s)], [None] for [ValueError]: optional sign, digits, at most 4300. *)
Definition int_of_string (s : string) : option Z :=
  let l := strip (String.list_ascii_of_string s) in
  let '(neg, body) :=
    match l with
    | c :: l' =>
      if bool_decide (ascii_code c = 45) then (true, l')
      else if bool_decide (ascii_code c = 43) then (false, l') else (false, l)
    | [] => (false, [])
    end in
  if decide (4300 < Z.of_nat (length (filter (λ c, is_Some (decimal c)) body))) then None
  else (if neg then Z.opp else id) <$> digits_underscore 0 false body.

(** [s.startswith(p)] and the rest. *)
Fixpoint after_prefix (p s : string) : option string :=
  match p, s with
  | EmptyString, _ => Some s
  | String a p', String b s' => if decide (a = b) then after_prefix p' s' else None
  | String _ _, EmptyString => None
  end.
