(* ===== verification/Images.v ===== *)
(** * Image releases

    Models [apps/images/models.py]: the [ImageRelease] row, its default
    manager, [is_ota_ready], [save], [archive] and [restore].  The table is
    the list of its rows; Python objects ([self]) are records of their own,
    possibly stale copies of a row, so every operation takes both the
    in-memory object and the table. *)

From Stdlib Require Import ZArith Lia.
From stdpp Require Import base gmap list strings.
From S2P Require Import Prelude.

Local Open Scope Z_scope.

(** ** Data *)

Record ImageRelease := mkRelease {
  rel_pk : Z;
  tag : string;
  machine : string;
  channel : string;
  rootfs_s3_key : string;
  rootfs_sha256 : string;
  rootfs_size_bytes : option Z;
  is_latest : bool;
  imported_at : Z;
  archived_at : option Z
}.

#[export] Instance ImageRelease_eq_dec : EqDecision ImageRelease.
Proof. solve_decision. Defined.

Definition set_latest (b : bool) (r : ImageRelease) : ImageRelease :=
  mkRelease (rel_pk r) (tag r) (machine r) (channel r) (rootfs_s3_key r) (rootfs_sha256 r)
    (rootfs_size_bytes r) b (imported_at r) (archived_at r).

Definition set_archived_at (t : option Z) (r : ImageRelease) : ImageRelease :=
  mkRelease (rel_pk r) (tag r) (machine r) (channel r) (rootfs_s3_key r) (rootfs_sha256 r)
    (rootfs_size_bytes r) (is_latest r) (imported_at r) t.

(** A unique constraint, or a row that is gone. *)
Inductive image_error := ImageIntegrityError | ImageRowGone.

(** ** Operations *)

(** [ImageRelease.objects]: the default manager hides archived rows. *)
Definition objects (tbl : list ImageRelease) : list ImageRelease :=
  filter (λ r, archived_at r = None) tbl.

Definition is_ota_ready (r : ImageRelease) : bool :=
  bool_decide (rootfs_s3_key r ≠ "") && bool_decide (rootfs_sha256 r ≠ "") &&
  match rootfs_size_bytes r with
  | Some n => bool_decide (0 < n)
  | None => false
  end.

(** The two [UniqueConstraint]s of the table, as the database checks them
    against the other rows when it writes [r]. *)
Definition violates_unique (tbl : list ImageRelease) (r : ImageRelease) : Prop :=
  Exists (λ o, rel_pk o ≠ rel_pk r ∧ machine o = machine r ∧ channel o = channel r ∧
    (tag o = tag r ∨ (is_latest o = true ∧ is_latest r = true))) tbl.

#[export] Instance violates_unique_dec tbl r : Decision (violates_unique tbl r).
Proof. unfold violates_unique. apply _. Defined.

(** [super().save()]: UPDATE the row with this pk if there is one, INSERT
    otherwise; a constraint violation raises. *)
Definition base_save (r : ImageRelease) (tbl : list ImageRelease) : outcome image_error (list ImageRelease) :=
  if decide (violates_unique tbl r) then Raise ImageIntegrityError
  else if decide (rel_pk r ∈ (rel_pk <$> tbl))
  then Ok (update_where (λ o, rel_pk o = rel_pk r) (λ _, r) tbl)
  else Ok (tbl ++ [r]).

(** The rows [save] demotes: the other latest rows of the same machine and channel. *)
Definition clear_other_latest (r : ImageRelease) (tbl : list ImageRelease) : list ImageRelease :=
  update_where (λ o, machine o = machine r ∧ channel o = channel r ∧ is_latest o = true ∧
    rel_pk o ≠ rel_pk r) (set_latest false) tbl.

Definition image_save (r : ImageRelease) (tbl : list ImageRelease) : outcome image_error (list ImageRelease) :=
  if is_latest r then base_save r (clear_other_latest r tbl) else base_save r tbl.

(** [archive]: the conditional UPDATE arbitrates concurrent archivers; the one
    that comes late refreshes its object, which raises when the row is gone.  The
    result pairs the table with the in-memory object after the call. *)
Definition archive (self : ImageRelease) (now : Z) (tbl : list ImageRelease)
  : outcome image_error (list ImageRelease * ImageRelease) :=
  match archived_at self with
  | Some _ => Ok (tbl, self)
  | None =>
    let hit o := rel_pk o = rel_pk self ∧ archived_at o = None in
    if decide (Exists hit tbl)
    then Ok (update_where hit (λ o, set_latest false (set_archived_at (Some now) o)) tbl,
             set_latest false (set_archived_at (Some now) self))
    else
      match list_find (λ o, rel_pk o = rel_pk self) tbl with
      | Some (_, o) => Ok (tbl, set_latest (is_latest o) (set_archived_at (archived_at o) self))
      | None => Raise ImageRowGone
      end
  end.

(** [restore]: [save(update_fields=["archived_at"])] goes through the
    overridden [save], so a [self] that is latest in memory demotes the others; a
    save of named fields that hits no row raises and takes the demotion back. *)
Definition restore (self : ImageRelease) (tbl : list ImageRelease)
  : outcome image_error (list ImageRelease * ImageRelease) :=
  match archived_at self with
  | None => Ok (tbl, self)
  | Some _ =>
    let self' := set_archived_at None self in
    let tbl' := if is_latest self' then clear_other_latest self' tbl else tbl in
    if decide (rel_pk self ∈ (rel_pk <$> tbl))
    then Ok (update_where (λ o, rel_pk o = rel_pk self) (set_archived_at None) tbl', self')
    else Raise ImageRowGone
  end.

(** ** Invariants *)

Definition pks_unique (tbl : list ImageRelease) : Prop := NoDup (rel_pk <$> tbl).

Definition one_latest (tbl : list ImageRelease) : Prop :=
  ∀ r1 r2, r1 ∈ tbl → r2 ∈ tbl → is_latest r1 = true → is_latest r2 = true →
    machine r1 = machine r2 → channel r1 = channel r2 → rel_pk r1 = rel_pk r2.

Definition image_wf (tbl : list ImageRelease) : Prop := pks_unique tbl ∧ one_latest tbl.

(** What the application does to the table, one request after another. *)
Inductive image_step : list ImageRelease → list ImageRelease → Prop :=
| step_save r tbl tbl' : image_save r tbl = Ok tbl' → image_step tbl tbl'
| step_archive self now tbl tbl' o : archive self now tbl = Ok (tbl', o) → image_step tbl tbl'
| step_restore self tbl tbl' o : restore self tbl = Ok (tbl', o) → image_step tbl tbl'.

(** ** Lemmas *)

Section proofs.
Implicit Types (r self : ImageRelease) (tbl : list ImageRelease).

(** An update that keeps pk, machine and channel and never sets the latest
    bit keeps the invariant. *)
Lemma update_keeps_wf (P : ImageRelease → Prop) `{∀ x, Decision (P x)} f tbl :
  (∀ x, rel_pk (f x) = rel_pk x ∧ machine (f x) = machine x ∧ channel (f x) = channel x ∧
    (is_latest (f x) = true → is_latest x = true)) →
  image_wf tbl → image_wf (update_where P f tbl).
Proof.
  intros Hf [Hpk Hone]. split.
  - unfold pks_unique. rewrite fmap_update_where; [done|]. intros x _; apply Hf.
  - intros r1 r2 H1 H2 L1 L2 Hm Hc.
    apply elem_of_update_where in H1 as (x1 & Hx1 & Hy1).
    apply elem_of_update_where in H2 as (x2 & Hx2 & Hy2).
    destruct (Hf x1) as (?&?&?&?), (Hf x2) as (?&?&?&?).
    assert (rel_pk x1 = rel_pk x2) as Hpkeq.
    { apply Hone; [done|done| | | |]; destruct Hy1 as [[? ->]|[? ->]], Hy2 as [[? ->]|[? ->]];
        intuition congruence. }
    destruct Hy1 as [[? ->]|[? ->]], Hy2 as [[? ->]|[? ->]]; congruence.
Qed.

Lemma clear_other_latest_wf r tbl : image_wf tbl → image_wf (clear_other_latest r tbl).
Proof. apply update_keeps_wf. intros x; by destruct x. Qed.

Lemma base_save_wf r tbl tbl' :
  base_save r tbl = Ok tbl' → image_wf tbl → image_wf tbl'.
Proof.
  unfold base_save. intros Hs [Hpk Hone].
  destruct (decide (violates_unique tbl r)) as [|Hnv]; [done|].
  unfold violates_unique in Hnv. rewrite list.Exists_exists in Hnv.
  assert (∀ o, o ∈ tbl → is_latest o = true → is_latest r = true → machine o = machine r →
    channel o = channel r → rel_pk o = rel_pk r) as Hr.
  { intros o Ho ????. destruct (decide (rel_pk o = rel_pk r)); [done|].
    exfalso. apply Hnv. exists o. naive_solver. }
  case_decide as Hin; simplify_eq/=; split.
  - unfold pks_unique. rewrite fmap_update_where; [done|]. intros x Hx; by rewrite Hx.
  - intros r1 r2 H1 H2 L1 L2 Hm Hc.
    apply elem_of_update_where in H1 as (x1 & Hx1 & [[E1 ->]|[E1 ->]]);
    apply elem_of_update_where in H2 as (x2 & Hx2 & [[E2 ->]|[E2 ->]]);
    first [done | by eauto | symmetry; by eauto].
  - unfold pks_unique in *. rewrite fmap_app. apply NoDup_app. split_and!; [done| |by repeat constructor; set_solver].
    simpl. intros x Hx ->%list_elem_of_singleton. done.
  - intros r1 r2 H1 H2 L1 L2 Hm Hc.
    apply elem_of_app in H1 as [H1| ->%list_elem_of_singleton];
    apply elem_of_app in H2 as [H2| ->%list_elem_of_singleton];
    first [done | by eauto | symmetry; by eauto].
Qed.

Lemma archive_wf self now tbl tbl' o : archive self now tbl = Ok (tbl', o) → image_wf tbl → image_wf tbl'.
Proof.
  unfold archive. intros Ha Hwf. destruct (archived_at self); [by simplify_eq|].
  case_decide; [|by split_cases]. simplify_eq. apply update_keeps_wf; [|done]. intros x; by destruct x.
Qed.

Lemma restore_wf self tbl tbl' o : restore self tbl = Ok (tbl', o) → image_wf tbl → image_wf tbl'.
Proof.
  unfold restore. intros Hr Hwf. destruct (archived_at self); [|by simplify_eq].
  case_decide; [|done]. simpl in Hr. simplify_eq. apply update_keeps_wf; [intros x; by destruct x|].
  destruct (is_latest self); [by apply clear_other_latest_wf|done].
Qed.

Lemma image_step_wf tbl tbl' : image_step tbl tbl' → image_wf tbl → image_wf tbl'.
Proof.
  intros [r t t' Hs| |] Hwf; [|by eapply archive_wf|by eapply restore_wf].
  unfold image_save in Hs. destruct (is_latest r); eauto using base_save_wf, clear_other_latest_wf.
Qed.

(** Marking a release as latest demotes the one that was: it succeeds whenever
    its tag is new for the machine and channel. *)
Lemma image_save_latest r tbl :
  is_latest r = true →
  (∀ o, o ∈ tbl → rel_pk o ≠ rel_pk r → machine o = machine r → channel o = channel r → tag o ≠ tag r) →
  ∃ tbl', image_save r tbl = Ok tbl' ∧ r ∈ tbl' ∧
    ∀ o, o ∈ tbl' → is_latest o = true → machine o = machine r → channel o = channel r → o = r.
Proof.
  intros Hl Htag. unfold image_save, base_save. rewrite Hl. set (tbl1 := clear_other_latest r tbl).
  assert (∀ o, o ∈ tbl1 → rel_pk o ≠ rel_pk r → machine o = machine r → channel o = channel r →
    tag o ≠ tag r ∧ is_latest o = false) as Hother.
  { intros o (x & Hx & [[_ ->]|[Hn ->]])%elem_of_update_where; destruct x; simpl in *.
    - intros ???. split; [by apply (Htag _ Hx)|done].
    - intros ???. split; [by apply (Htag _ Hx)|]. destruct is_latest0; [|done]. destruct Hn. done. }
  rewrite decide_False.
  2:{ intros (o & Ho & Hv)%list.Exists_exists. destruct Hv as (? & ? & ? & Hor).
      destruct (Hother o Ho) as [? ?]; try done. destruct Hor as [?|[? _]]; congruence. }
  case_decide as Hin; eexists; (split; [reflexivity|]).
  - split.
    + apply list_elem_of_fmap in Hin as (x & Hpk & Hx). apply elem_of_update_where. exists x. by split; [|left].
    + intros o (x & Hx & [[_ ->]|[Hn ->]])%elem_of_update_where; [done|].
      intros ???. destruct (Hother x Hx) as [_ ?]; congruence.
  - split; [apply elem_of_app; right; by apply list_elem_of_singleton|].
    intros o [Ho| ->%list_elem_of_singleton]%elem_of_app; [|done]. intros ???.
    assert (rel_pk o ≠ rel_pk r) as Hne by (intros Heq; apply Hin; rewrite <-Heq; by apply list_elem_of_fmap_2).
    destruct (Hother o Ho Hne) as [_ ?]; congruence.
Qed.

Lemma image_wf_empty : image_wf [].
Proof. split; [by constructor|]. intros ?? H1 _. by apply not_elem_of_nil in H1. Qed.

End proofs.

#[export] Hint Resolve image_wf_empty image_step_wf clear_other_latest_wf archive_wf restore_wf : tables.

(** ** Properties *)

Definition sample_release : ImageRelease :=
  mkRelease 1 "2026.01.01-01" "rpi" "release" "k" "h" (Some 10) true 100 None.
Definition sample_successor : ImageRelease :=
  mkRelease 2 "2026.02.01-01" "rpi" "release" "k2" "h2" (Some 12) true 200 None.

(** However releases are saved, archived and restored, and however stale
    the saved copies are, a machine and channel never has two latest releases. *)
Lemma image_latest_unique tbl :
  rtc image_step [] tbl →
  ∀ r1 r2, r1 ∈ tbl → r2 ∈ tbl → is_latest r1 = true → is_latest r2 = true →
    machine r1 = machine r2 → channel r1 = channel r2 → r1 = r2.
Proof.
  intros Hrun. assert (image_wf tbl) as [Hpk Hone].
  { assert (∀ t, rtc image_step t tbl → image_wf t → image_wf tbl) as Hgen
      by (clear; induction 1; eauto with tables). eauto with tables. }
  intros r1 r2 ??????. apply (NoDup_fmap_elem_inj rel_pk tbl); auto.
Qed.

Lemma image_latest_unique_witness :
  let tbl := [set_latest false sample_release; sample_successor] in
  rtc image_step [] tbl ∧
  (∀ r1 r2, r1 ∈ tbl → r2 ∈ tbl → is_latest r1 = true → is_latest r2 = true →
    machine r1 = machine r2 → channel r1 = channel r2 → r1 = r2).
Proof.
  intros tbl. assert (rtc image_step [] tbl) as Hrun.
  { eapply rtc_l; [apply (step_save sample_release); vm_compute; reflexivity|].
    apply rtc_once, (step_save sample_successor). vm_compute. reflexivity. }
  split; [exact Hrun|]. exact (image_latest_unique tbl Hrun).
Defined.

(** Archiving hides the release and drops its latest bit in the table and
    in the caller's copy, and the first of two racing archivers wins: a second
    one that still holds the unarchived copy changes no row, and its copy ends
    up with the first one's timestamp. *)
Lemma archive_first_writer_wins tbl row now1 now2 :
  pks_unique tbl → row ∈ tbl → archived_at row = None →
  ∃ tbl1 self1, archive row now1 tbl = Ok (tbl1, self1) ∧ archive row now2 tbl1 = Ok (tbl1, self1) ∧
  self1 ∈ tbl1 ∧ archived_at self1 = Some now1 ∧ is_latest self1 = false ∧
  rel_pk row ∉ (rel_pk <$> objects tbl1).
Proof.
  intros Hu Hrow Har. unfold archive. rewrite Har.
  set (hit := λ o, rel_pk o = rel_pk row ∧ archived_at o = None).
  rewrite decide_True by (apply list.Exists_exists; by exists row).
  set (tbl1 := update_where hit _ tbl).
  assert (∀ o, o ∈ tbl1 → rel_pk o = rel_pk row →
    o = set_latest false (set_archived_at (Some now1) row)) as Hall.
  { intros o (x & Hx & [[[Hp _] ->]|[Hn ->]])%elem_of_update_where Hpk.
    - by rewrite (NoDup_fmap_elem_inj rel_pk tbl x row).
    - destruct Hn. by rewrite (NoDup_fmap_elem_inj rel_pk tbl x row). }
  assert (set_latest false (set_archived_at (Some now1) row) ∈ tbl1) as Hin
    by (apply elem_of_update_where; exists row; split; [done|by left]).
  eexists _, _. split; [done|]. rewrite decide_False.
  2:{ intros (o & Ho & Hp & Hno)%list.Exists_exists. by rewrite (Hall o Ho Hp) in Hno. }
  destruct (list_find _ tbl1) as [[i o]|] eqn:Hf.
  - apply list_find_Some in Hf as (Hi & Hp & _). apply list_elem_of_lookup_2 in Hi.
    rewrite (Hall o Hi Hp). split_and!; try done.
    intros (o' & Hpk & [Hno Ho']%list_elem_of_filter)%list_elem_of_fmap.
    by rewrite (Hall o' Ho') in Hno.
  - apply list_find_None in Hf. rewrite list.Forall_forall in Hf. by destruct (Hf _ Hin).
Qed.
