(* ===== verification/Targeting.v ===== *)
(** * Upgrade targeting

    Models [apps/rollouts/targeting.py]: the numeric ordering of release
    tags, the channel and platform of a station, and [resolve_upgrade], which
    picks the image a station should be upgraded to (or the reason why not). *)

From Stdlib Require Import ZArith Lia Ascii.
From stdpp Require Import base gmap list strings.
From S2P Require Import Prelude Images.

Local Open Scope Z_scope.

(** ** Stations and rollout groups (the columns the services read) *)

Record RolloutGroup := mkGroup {
  grp_pk : Z;
  grp_name : string;
  grp_slug : string;
  grp_channel : string
}.

(** A station row, its two foreign keys dereferenced ([select_related]). *)
Record Station := mkStation {
  st_pk : Z;
  st_name : string;
  st_group : option RolloutGroup;
  st_current : option ImageRelease;
  st_os_version : string
}.

(** [RolloutGroup.Channel.RELEASE] *)
Definition CHANNEL_RELEASE : string := "release".

(** ** Tag ordering *)

Definition digit_value (c : ascii) : option Z :=
  let n := Z.of_nat (nat_of_ascii c) in
  if bool_decide (48 ≤ n ≤ 57) then Some (n - 48) else None.

(** [_NUM.findall] with [int] applied to each run: [cur] is the value of the
    digit run being read, if one is open. *)
Fixpoint digit_runs (cur : option Z) (s : string) : list Z :=
  match s with
  | EmptyString => option_list cur
  | String c s' =>
    match digit_value c with
    | Some d => digit_runs (Some (10 * default 0 cur + d)) s'
    | None => option_list cur ++ digit_runs None s'
    end
  end.

(** [release_key "2026.10.19-04" = (2026, 10, 19, 4)]. *)
Definition release_key (t : string) : list Z := digit_runs None t.

(** Python's [>] on tuples of ints: lexicographic, a proper prefix is smaller. *)
Fixpoint tuple_gt (a b : list Z) : bool :=
  match a, b with
  | [], _ => false
  | _ :: _, [] => true
  | x :: a', y :: b' => if decide (x = y) then tuple_gt a' b' else bool_decide (y < x)
  end.

Definition is_newer (candidate current : ImageRelease) : bool :=
  let ck := release_key (tag candidate) in
  let uk := release_key (tag current) in
  if bool_decide (ck ≠ []) && bool_decide (uk ≠ [])
  then tuple_gt ck uk
  else bool_decide (imported_at current < imported_at candidate).

(** ** Channel, platform, index *)

Definition station_channel (st : Station) : string :=
  match st_group st with
  | Some g => grp_channel g
  | None => CHANNEL_RELEASE
  end.

Definition station_platform (st : Station) : option string := machine <$> st_current st.

(** [{(r.machine, r.channel): r for r in objects.filter(is_latest=True)}]: a
    later row of the queryset overwrites an earlier one. *)
Definition latest_index (tbl : list ImageRelease) : gmap (string * string) ImageRelease :=
  foldl (λ idx r, <[(machine r, channel r) := r]> idx) ∅
    (filter (λ r, is_latest r = true) (objects tbl)).

Inductive UpgradeReason := OK | NO_PLATFORM | NO_RELEASE | NOT_OTA_READY | UP_TO_DATE | NOT_NEWER.

#[export] Instance UpgradeReason_eq_dec : EqDecision UpgradeReason.
Proof. solve_decision. Defined.

Record UpgradeTarget := mkTarget { ut_target : option ImageRelease; ut_reason : UpgradeReason }.

Definition ut_ok (t : UpgradeTarget) : bool := bool_decide (ut_reason t = OK).

Definition resolve_upgrade (st : Station) (index : gmap (string * string) ImageRelease) : UpgradeTarget :=
  match st_current st with
  | None => mkTarget None NO_PLATFORM
  | Some current =>
    match index !! (machine current, station_channel st) with
    | None => mkTarget None NO_RELEASE
    | Some target =>
      if decide (rel_pk target = rel_pk current) then mkTarget (Some target) UP_TO_DATE
      else if negb (is_newer target current) then mkTarget (Some target) NOT_NEWER
      else if negb (is_ota_ready target) then mkTarget (Some target) NOT_OTA_READY
      else mkTarget (Some target) OK
    end
  end.

(** The user-facing explanation; the translated sentence is its constructor
    and the interpolated parameters are its arguments. *)
Inductive ReasonMessage :=
| MsgEmpty
| MsgPlatformUnknown
| MsgNoReleaseFor (machine channel : string)
| MsgAlreadyLatest (current channel : string)
| MsgNoNewer (channel current target : string)
| MsgNotOtaReady (target : string).

Definition reason_message (res : UpgradeTarget) (st : Station) : ReasonMessage :=
  let chan := station_channel st in
  (* %(machine)s of a None platform prints "None" *)
  let mach := default "None" (station_platform st) in
  let current := match st_current st with Some c => tag c | None => "" end in
  let target := match ut_target res with Some t => tag t | None => "" end in
  match ut_reason res with
  | OK => MsgEmpty
  | NO_PLATFORM => MsgPlatformUnknown
  | NO_RELEASE => MsgNoReleaseFor mach chan
  | UP_TO_DATE => MsgAlreadyLatest current chan
  | NOT_NEWER => MsgNoNewer chan current target
  | NOT_OTA_READY => MsgNotOtaReady target
  end.

(** ** Lemmas *)

Lemma tuple_gt_irrefl a : tuple_gt a a = false.
Proof. induction a as [|x a IH]; simpl; [done|]. by rewrite decide_True. Qed.

Lemma tuple_gt_trans a b c : tuple_gt a b = true → tuple_gt b c = true → tuple_gt a c = true.
Proof.
  revert b c. induction a as [|x a IH]; intros [|y b] [|z c] H1 H2; simpl in *; try done.
  repeat case_decide; simplify_eq; eauto; rewrite ?bool_decide_eq_true in *; lia.
Qed.

Lemma tuple_gt_total a b : a ≠ b → tuple_gt a b = true ∨ tuple_gt b a = true.
Proof.
  revert b. induction a as [|x a IH]; intros [|y b] Hne; simpl in *; auto.
  destruct (decide (x = y)) as [->|Hxy].
  - rewrite decide_True by done. apply IH. congruence.
  - rewrite decide_False by congruence. rewrite !bool_decide_eq_true. lia.
Qed.

Lemma tuple_gt_asym a b : tuple_gt a b = true → tuple_gt b a = false.
Proof.
  intros H. apply not_true_iff_false. intros H'. pose proof (tuple_gt_trans _ _ _ H H') as Hirr.
  by rewrite tuple_gt_irrefl in Hirr.
Qed.

Lemma is_newer_asym r1 r2 : is_newer r1 r2 = true → is_newer r2 r1 = false.
Proof.
  unfold is_newer. rewrite andb_comm. destruct (_ && _); [apply tuple_gt_asym|].
  rewrite bool_decide_eq_true, bool_decide_eq_false. lia.
Qed.

(** What the index holds: a latest, non-archived release of that machine and channel. *)
Lemma latest_index_sound tbl m c r :
  latest_index tbl !! (m, c) = Some r →
  r ∈ tbl ∧ is_latest r = true ∧ archived_at r = None ∧ machine r = m ∧ channel r = c.
Proof.
  unfold latest_index, objects.
  assert (∀ l (idx : gmap (string * string) ImageRelease),
    (∀ m c r, idx !! (m, c) = Some r → r ∈ tbl ∧ is_latest r = true ∧ archived_at r = None ∧
      machine r = m ∧ channel r = c) →
    (∀ r, r ∈ l → r ∈ tbl ∧ is_latest r = true ∧ archived_at r = None) →
    ∀ m c r, foldl (λ idx r, <[(machine r, channel r) := r]> idx) idx l !! (m, c) = Some r →
      r ∈ tbl ∧ is_latest r = true ∧ archived_at r = None ∧ machine r = m ∧ channel r = c) as Hgen.
  { intros l. induction l as [|x l IH]; intros idx Hidx Hl m' c' r'; simpl; [apply Hidx|].
    apply IH; [|set_solver]. intros m0 c0 r0 H0.
    destruct (decide ((machine x, channel x) = (m0, c0))) as [Heq|Hne].
    - rewrite Heq, lookup_insert_eq in H0. simplify_eq. destruct (Hl r0) as (?&?&?); [set_solver|done].
    - rewrite lookup_insert_ne in H0 by done. by apply Hidx. }
  apply Hgen.
  - intros ??? H. by rewrite lookup_empty in H.
  - intros x Hx. rewrite !list_elem_of_filter in Hx. naive_solver.
Qed.

(** ** Properties *)

(** An upgrade is only ever offered to a newer, installable release of the
    station's own machine and channel: the target is the non-archived latest
    release there, OTA-ready, not the release already running, and newer (by
    the numeric tag, or by import time when a tag has no number). *)
Lemma resolve_upgrade_ok_sound st tbl :
  ut_ok (resolve_upgrade st (latest_index tbl)) →
  ∃ current target, st_current st = Some current ∧
    resolve_upgrade st (latest_index tbl) = mkTarget (Some target) OK ∧
    target ∈ tbl ∧ is_latest target = true ∧ archived_at target = None ∧
    machine target = machine current ∧ channel target = station_channel st ∧
    is_ota_ready target ∧ rel_pk target ≠ rel_pk current ∧ is_newer target current ∧
    is_newer current target = false.
Proof.
  unfold resolve_upgrade. destruct (st_current st) as [current|]; [|done].
  destruct (latest_index tbl !! _) as [target|] eqn:Hidx; [|done].
  case_decide as Hpk; [done|]. destruct (is_newer target current) eqn:Hnew; [|done]. simpl.
  destruct (is_ota_ready target) eqn:Hota; [|done]. intros _.
  apply latest_index_sound in Hidx as (?&?&?&?&?). exists current, target.
  rewrite Hota, Hnew. by rewrite (is_newer_asym _ _ Hnew).
Qed.

(** Upgrading converges in one step: a station that runs the release it was
    offered is up to date, so it is never offered another one (in particular
    not the one it came from) until the table changes. *)
Lemma resolve_upgrade_converges st tbl target os :
  resolve_upgrade st (latest_index tbl) = mkTarget (Some target) OK →
  resolve_upgrade (mkStation (st_pk st) (st_name st) (st_group st) (Some target) os) (latest_index tbl) =
    mkTarget (Some target) UP_TO_DATE.
Proof.
  unfold resolve_upgrade, station_channel. simpl.
  destruct (st_current st) as [current|]; [|done].
  destruct (latest_index tbl !! _) as [t|] eqn:Hidx; [|done].
  case_decide; [done|]. destruct (is_newer t current); [|done]. destruct (is_ota_ready t); [|done].
  simpl. intros [= ->]. pose proof (latest_index_sound _ _ _ _ Hidx) as (_ & _ & _ & -> & _).
  by rewrite Hidx, decide_True.
Qed.

Definition sample_station : Station := mkStation 1 "alpha" None (Some (set_latest false sample_release)) "".
Definition sample_table : list ImageRelease := [set_latest false sample_release; sample_successor].

Lemma resolve_upgrade_ok_sound_witness :
  ∃ target, resolve_upgrade sample_station (latest_index sample_table) = mkTarget (Some target) OK.
Proof.
  destruct (resolve_upgrade_ok_sound sample_station sample_table) as (c & t & _ & Ht & _);
    [vm_compute; exact I|].
  exists t. exact Ht.
Defined.

Lemma resolve_upgrade_converges_witness :
  resolve_upgrade (mkStation 1 "alpha" None (Some sample_successor) "x") (latest_index sample_table) =
    mkTarget (Some sample_successor) UP_TO_DATE.
Proof.
  apply (resolve_upgrade_converges sample_station sample_table sample_successor "x").
  vm_compute. reflexivity.
Defined.
