(* ===== verification/Deployments.v ===== *)
(** * Deployments: rows, progress, supersession and roll-up

    Models [apps/deployments/models.py] and [apps/deployments/supersession.py]
    (and [_check_deployment_complete] of [apps/deployments/api_views.py]): the
    two tables, the status classification, the progress summary, and the two
    functions that move a deployment out of [IN_PROGRESS].

    Every handler is a function of the whole database state [DB]; a handler
    reads the clock once, its [now]. *)

From Stdlib Require Import ZArith Lia SpecFloat.
From stdpp Require Import base gmap list strings.
From S2P Require Import Prelude Json Images Targeting.

Local Open Scope Z_scope.

(** ** Rows *)

Inductive TargetType := T_GROUP | T_STATION | T_ALL.

Inductive Strategy := IMMEDIATE | PHASED.

Inductive DeploymentStatus :=
| D_PENDING | D_IN_PROGRESS | D_COMPLETED | D_FAILED | D_CANCELLED.

Inductive ResultStatus :=
| R_PENDING | R_DOWNLOADING | R_INSTALLING | R_REBOOTING | R_VERIFYING
| R_SUCCESS | R_FAILED | R_ROLLED_BACK | R_CANCELLED | R_SUPERSEDED.

#[export] Instance TargetType_eq_dec : EqDecision TargetType.
Proof. solve_decision. Defined.
#[export] Instance DeploymentStatus_eq_dec : EqDecision DeploymentStatus.
Proof. solve_decision. Defined.
#[export] Instance ResultStatus_eq_dec : EqDecision ResultStatus.
Proof. solve_decision. Defined.

(** [DeploymentResult.ACTIVE_STATUSES]: the agent is working on the result. *)
Definition is_active (s : ResultStatus) : bool :=
  match s with
  | R_DOWNLOADING | R_INSTALLING | R_REBOOTING | R_VERIFYING => true
  | _ => false
  end.

(** [NON_TERMINAL_STATUSES = {PENDING} | ACTIVE_STATUSES] *)
Definition is_open (s : ResultStatus) : bool := bool_decide (s = R_PENDING) || is_active s.

(** [TERMINAL_STATUSES] *)
Definition is_terminal (s : ResultStatus) : bool :=
  match s with
  | R_SUCCESS | R_FAILED | R_ROLLED_BACK | R_CANCELLED | R_SUPERSEDED => true
  | _ => false
  end.

(** Why a station of the target got no result ([skipped_stations] entries and
    [StationPlan.reason]). *)
Inductive PlanReason :=
| PLAN_OK | SKIP_NO_PLATFORM | SKIP_NO_IMAGE | SKIP_NOT_OTA_READY | SKIP_ACTIVE | SKIP_NOT_IN_TARGET.

#[export] Instance PlanReason_eq_dec : EqDecision PlanReason.
Proof. solve_decision. Defined.

(** The translated sentences, by their interpolated parameters. *)
Inductive PlanMessage :=
| PM_Empty
| PM_PlatformUnknown
| PM_NotImported (tag channel machine : string)
| PM_NotOtaReady (tag : string)
| PM_MidDeployment (station : Z) (status : ResultStatus) (deployment : Z)
| PM_LeftGroup (group : string)
| PM_LeftTarget.

Record SkippedStation := mkSkip {
  skip_station : Z;
  skip_name : string;
  skip_reason : PlanReason;
  skip_message : PlanMessage
}.

Record Deployment := mkDeployment {
  dep_pk : Z;
  image_tag : string;
  image_channel : string;
  skipped_stations : list SkippedStation;
  target_type : TargetType;
  target_group : option Z;
  target_group_name : string;
  target_station : option Z;
  strategy : Strategy;
  phase_config : list (string * Z);
  dep_status : DeploymentStatus;
  created_by : option Z;
  created_at : Z;
  updated_at : Z
}.

(** [error_message] texts, by their interpolated parameters. *)
Inductive ErrorText :=
| ET_Raw (s : string)
| ET_CommitMismatch (version expected : string).

Record DeploymentResult := mkResult {
  res_pk : Z;
  res_deployment : Z;
  res_station : Z;
  res_image : Z;
  res_status : ResultStatus;
  started_at : option Z;
  completed_at : option Z;
  error_message : ErrorText;
  previous_version : string;
  new_version : string
}.

#[export] Instance ErrorText_eq_dec : EqDecision ErrorText.
Proof. solve_decision. Defined.
#[export] Instance DeploymentResult_eq_dec : EqDecision DeploymentResult.
Proof. solve_decision. Defined.

(** The [Station] columns deployments read and write; [Station] (joined) is
    what [load_station] returns. *)
Record StationRow := mkStationRow {
  sr_pk : Z;
  sr_name : string;
  sr_group : option Z;
  sr_release : option Z;
  sr_os_version : string;
  sr_updated_at : Z
}.

Record DB := mkDB {
  db_groups : list RolloutGroup;
  db_releases : list ImageRelease;
  db_stations : list StationRow;
  db_deployments : list Deployment;
  db_results : list DeploymentResult;
  db_deployment_seq : Z;
  db_result_seq : Z
}.

(** ** Column updates *)

Definition dep_set_status (s : DeploymentStatus) (now : Z) (d : Deployment) : Deployment :=
  mkDeployment (dep_pk d) (image_tag d) (image_channel d) (skipped_stations d) (target_type d)
    (target_group d) (target_group_name d) (target_station d) (strategy d) (phase_config d)
    s (created_by d) (created_at d) now.

Definition dep_set_skipped (sk : list SkippedStation) (now : Z) (d : Deployment) : Deployment :=
  mkDeployment (dep_pk d) (image_tag d) (image_channel d) sk (target_type d)
    (target_group d) (target_group_name d) (target_station d) (strategy d) (phase_config d)
    (dep_status d) (created_by d) (created_at d) now.

Definition dep_set_group_name (n : string) (d : Deployment) : Deployment :=
  mkDeployment (dep_pk d) (image_tag d) (image_channel d) (skipped_stations d) (target_type d)
    (target_group d) n (target_station d) (strategy d) (phase_config d)
    (dep_status d) (created_by d) (created_at d) (updated_at d).

Definition res_set_status (s : ResultStatus) (r : DeploymentResult) : DeploymentResult :=
  mkResult (res_pk r) (res_deployment r) (res_station r) (res_image r) s (started_at r)
    (completed_at r) (error_message r) (previous_version r) (new_version r).

Definition res_set_started (t : option Z) (r : DeploymentResult) : DeploymentResult :=
  mkResult (res_pk r) (res_deployment r) (res_station r) (res_image r) (res_status r) t
    (completed_at r) (error_message r) (previous_version r) (new_version r).

Definition res_set_completed (t : Z) (r : DeploymentResult) : DeploymentResult :=
  mkResult (res_pk r) (res_deployment r) (res_station r) (res_image r) (res_status r)
    (started_at r) (Some t) (error_message r) (previous_version r) (new_version r).

Definition res_set_error (e : ErrorText) (r : DeploymentResult) : DeploymentResult :=
  mkResult (res_pk r) (res_deployment r) (res_station r) (res_image r) (res_status r)
    (started_at r) (completed_at r) e (previous_version r) (new_version r).

Definition res_set_new_version (v : string) (r : DeploymentResult) : DeploymentResult :=
  mkResult (res_pk r) (res_deployment r) (res_station r) (res_image r) (res_status r)
    (started_at r) (completed_at r) (error_message r) (previous_version r) v.

Definition set_results (rs : list DeploymentResult) (db : DB) : DB :=
  mkDB (db_groups db) (db_releases db) (db_stations db) (db_deployments db) rs
    (db_deployment_seq db) (db_result_seq db).

Definition set_deployments (ds : list Deployment) (db : DB) : DB :=
  mkDB (db_groups db) (db_releases db) (db_stations db) ds (db_results db)
    (db_deployment_seq db) (db_result_seq db).

Definition set_stations (ss : list StationRow) (db : DB) : DB :=
  mkDB (db_groups db) (db_releases db) ss (db_deployments db) (db_results db)
    (db_deployment_seq db) (db_result_seq db).

(** ** Lookups *)

Definition find_release (db : DB) (pk : Z) : option ImageRelease :=
  snd <$> list_find (λ r, rel_pk r = pk) (db_releases db).

Definition find_group (db : DB) (pk : Z) : option RolloutGroup :=
  snd <$> list_find (λ g, grp_pk g = pk) (db_groups db).

Definition find_deployment (db : DB) (pk : Z) : option Deployment :=
  snd <$> list_find (λ d, dep_pk d = pk) (db_deployments db).

(** [select_related("current_image_release", "rollout_group")] *)
Definition load_station (db : DB) (s : StationRow) : Station :=
  mkStation (sr_pk s) (sr_name s) (sr_group s ≫= find_group db) (sr_release s ≫= find_release db)
    (sr_os_version s).

(** [deployment.results.filter(status__in=NON_TERMINAL_STATUSES)] *)
Definition open_children (db : DB) (dep : Z) : list DeploymentResult :=
  filter (λ r, res_deployment r = dep ∧ is_open (res_status r)) (db_results db).

(** ** [Deployment.save], [get_target_stations] *)

(** The group-name snapshot every [save] takes when it is still blank. *)
Definition snapshot_group_name (db : DB) (d : Deployment) : Deployment :=
  match target_group d with
  | Some g =>
    if decide (target_group_name d = "") then
      match find_group db g with
      | Some grp => dep_set_group_name (grp_name grp) d
      | None => d
      end
    else d
  | None => d
  end.

(** [target_group_label]: the deploy-time snapshot, else the live group's name. *)
Definition target_group_label (db : DB) (d : Deployment) : string :=
  if decide (target_group_name d = "") then
    match target_group d ≫= find_group db with
    | Some g => grp_name g
    | None => ""
    end
  else target_group_name d.

Definition get_target_stations (db : DB) (tt : TargetType) (tg ts : option Z) : list StationRow :=
  match tt, tg, ts with
  | T_GROUP, Some g, _ => filter (λ s, sr_group s = Some g) (db_stations db)
  | T_STATION, _, Some p => filter (λ s, sr_pk s = p) (db_stations db)
  | T_ALL, _, _ => db_stations db
  | _, _, _ => []
  end.

(** ** Progress *)

Record Progress := mkProgress {
  p_total : Z;
  p_completed : Z;
  p_failed : Z;
  p_pending : Z;
  p_in_progress : Z;
  p_cancelled : Z;
  p_percentage : Z
}.

(** [round(f)] of a finite float: to the nearest integer, ties to even. *)
Definition py_round (f : spec_float) : Z :=
  match f with
  | S754_finite s m e =>
    let v := Zpos m in
    let r :=
      if decide (0 ≤ e) then v * 2 ^ e
      else
        let d := 2 ^ (- e) in
        let q := v / d in
        let rem := v mod d in
        if decide (2 * rem < d) then q
        else if decide (d < 2 * rem) then q + 1
        else if Z.even q then q else q + 1 in
    if s then - r else r
  | _ => 0
  end.

(** [round((completed / total) * 100) if total else 0] *)
Definition percentage (completed total : Z) : Z :=
  if decide (total = 0) then 0
  else py_round (SFmul 53 1024 (SFdiv 53 1024 (float_of_Z completed) (float_of_Z total))
                   (float_of_Z 100)).

Definition all_statuses : list ResultStatus :=
  [R_PENDING; R_DOWNLOADING; R_INSTALLING; R_REBOOTING; R_VERIFYING;
   R_SUCCESS; R_FAILED; R_ROLLED_BACK; R_CANCELLED; R_SUPERSEDED].

(** [{row["status"]: row["count"]}]: the [GROUP BY status] counts, only for
    statuses that occur. *)
Definition status_counts (rs : list DeploymentResult) : list (ResultStatus * Z) :=
  omap (λ s, let n := length (filter (λ r, res_status r = s) rs) in
             if decide (n = 0%nat) then None else Some (s, Z.of_nat n)) all_statuses.

(** [status_counts.get(s, 0)] *)
Definition count_get (counts : list (ResultStatus * Z)) (s : ResultStatus) : Z :=
  match list_find (λ p, p.1 = s) counts with
  | Some (_, (_, n)) => n
  | None => 0
  end.

Definition sumZ (l : list Z) : Z := foldr Z.add 0 l.

Definition progress_from_counts (counts : list (ResultStatus * Z)) : Progress :=
  let total := sumZ (snd <$> counts) in
  let completed := count_get counts R_SUCCESS in
  mkProgress
    total
    completed
    (count_get counts R_FAILED + count_get counts R_ROLLED_BACK)
    (count_get counts R_PENDING)
    (sumZ (count_get counts <$> [R_DOWNLOADING; R_INSTALLING; R_REBOOTING; R_VERIFYING]))
    (count_get counts R_CANCELLED + count_get counts R_SUPERSEDED)
    (percentage completed total).

Definition compute_progress (rs : list DeploymentResult) : Progress :=
  progress_from_counts (status_counts rs).

(** [values("deployment_id", "status").annotate(count=...)] over the rows of
    the requested deployments. *)
Definition bulk_rows (rs : list DeploymentResult) (ids : list Z) : list (Z * (ResultStatus * Z)) :=
  let scoped := filter (λ r, res_deployment r ∈ ids) rs in
  remove_dups (res_deployment <$> scoped) ≫= λ d,
    pair d <$> status_counts (filter (λ r, res_deployment r = d) scoped).

(** [per_dep.get(dep_id, {})] *)
Definition per_dep (rows : list (Z * (ResultStatus * Z))) (id : Z) : list (ResultStatus * Z) :=
  snd <$> filter (λ p, p.1 = id) rows.

Definition bulk_compute_progress (rs : list DeploymentResult) (ids : list Z) : list (Z * Progress) :=
  (λ id, (id, progress_from_counts (per_dep (bulk_rows rs ids) id))) <$> ids.

(** ** Supersession *)

(** [ActiveDeploymentConflictError], with the parameters of its text. *)
Record Conflict := mkConflict { cf_station : Z; cf_status : ResultStatus; cf_deployment : Z }.

(** The locked rows: open results of the station on other deployments, in the
    model's default order ([-pk]). *)
Definition other_open (db : DB) (station new_deployment : Z) : list DeploymentResult :=
  sort_by (λ r, - res_pk r)
    (filter (λ r, res_station r = station ∧ is_open (res_status r) ∧ res_deployment r ≠ new_deployment)
       (db_results db)).

Fixpoint collect_pending (station : Z) (rows : list DeploymentResult) : outcome Conflict (list Z) :=
  match rows with
  | [] => Ok []
  | r :: rows' =>
    if decide (res_status r = R_PENDING)
    then obind (collect_pending station rows') (λ pks, Ok (res_pk r :: pks))
    else Raise (mkConflict station (res_status r) (res_deployment r))
  end.

(** The parent status [_close_out_deployments_with_superseded_results] derives
    from the (all terminal) children. *)
Definition close_out_status (statuses : list ResultStatus) : DeploymentStatus :=
  if decide (R_SUCCESS ∈ statuses) then D_COMPLETED
  else if decide (R_FAILED ∈ statuses ∨ R_ROLLED_BACK ∈ statuses) then D_FAILED
  else D_CANCELLED.

Definition child_statuses (db : DB) (dep : Z) : list ResultStatus :=
  res_status <$> filter (λ r, res_deployment r = dep) (db_results db).

Definition close_out_one (now : Z) (db : DB) (dep : Z) : DB :=
  match list_find (λ d, dep_pk d = dep ∧ dep_status d = D_IN_PROGRESS) (db_deployments db) with
  | None => db
  | Some _ =>
    let statuses := child_statuses db dep in
    if decide (statuses ≠ [] ∧ Forall (λ s, is_terminal s) statuses) then
      set_deployments
        (update_where (λ d, dep_pk d = dep)
           (λ d, dep_set_status (close_out_status statuses) now (snapshot_group_name db d))
           (db_deployments db)) db
    else db
  end.

Definition close_out_deployments (now : Z) (db : DB) (result_pks : list Z) : DB :=
  foldl (close_out_one now) db
    (remove_dups (res_deployment <$> filter (λ r, res_pk r ∈ result_pks) (db_results db))).

Definition supersede_row (now : Z) (r : DeploymentResult) : DeploymentResult :=
  res_set_completed now (res_set_status R_SUPERSEDED r).

Definition supersede_pending_for_station (db : DB) (station new_deployment now : Z)
  : outcome Conflict (DB * list Z) :=
  obind (collect_pending station (other_open db station new_deployment)) (λ to_supersede,
    if decide (to_supersede = []) then Ok (db, [])
    else
      let db1 := set_results
        (update_where (λ r, res_pk r ∈ to_supersede) (supersede_row now) (db_results db)) db in
      Ok (close_out_deployments now db1 to_supersede, to_supersede)).

(** ** Roll-up after an agent report ([_check_deployment_complete]) *)

Definition check_complete_status (statuses : list ResultStatus) : DeploymentStatus :=
  if decide (R_FAILED ∈ statuses ∨ R_ROLLED_BACK ∈ statuses) then D_FAILED else D_COMPLETED.

Definition check_deployment_complete (now : Z) (db : DB) (dep : Z) : DB :=
  if decide (open_children db dep ≠ []) then db
  else
    set_deployments
      (update_where (λ d, dep_pk d = dep ∧ dep_status d = D_IN_PROGRESS)
         (dep_set_status (check_complete_status (child_statuses db dep)) now)
         (db_deployments db)) db.

(** ** Invariant

    [db_core]: keys are unique and below their sequence, every result has its
    deployment, and an open result's deployment is still open.  [single_open]:
    a station has at most one open result.  [live_except D]: outside [D], a deployment that
    is [IN_PROGRESS] still has an open result (it is not stuck). *)

Definition dep_open (s : DeploymentStatus) : bool :=
  match s with D_PENDING | D_IN_PROGRESS => true | _ => false end.

Record db_core (db : DB) : Prop := {
  core_res_nodup : NoDup (res_pk <$> db_results db);
  core_res_seq : ∀ r, r ∈ db_results db → res_pk r < db_result_seq db;
  core_dep_nodup : NoDup (dep_pk <$> db_deployments db);
  core_dep_seq : ∀ d, d ∈ db_deployments db → dep_pk d < db_deployment_seq db;
  core_parent : ∀ r, r ∈ db_results db → ∃ d, d ∈ db_deployments db ∧ dep_pk d = res_deployment r;
  core_open : ∀ r d, r ∈ db_results db → d ∈ db_deployments db → dep_pk d = res_deployment r →
    is_open (res_status r) → dep_open (dep_status d)
}.

Definition single_open (db : DB) : Prop :=
  ∀ r1 r2, r1 ∈ db_results db → r2 ∈ db_results db →
    res_station r1 = res_station r2 → is_open (res_status r1) → is_open (res_status r2) →
    res_pk r1 = res_pk r2.

Definition has_open_child (db : DB) (dep : Z) : Prop :=
  ∃ r, r ∈ db_results db ∧ res_deployment r = dep ∧ is_open (res_status r).

Definition live_except (D : Z → Prop) (db : DB) : Prop :=
  ∀ d, d ∈ db_deployments db → dep_status d = D_IN_PROGRESS → ¬ D (dep_pk d) →
    has_open_child db (dep_pk d).

Definition db_inv (db : DB) : Prop :=
  db_core db ∧ single_open db ∧ live_except (λ _, False) db.

(** ** Lemmas *)

Section lemmas.
Implicit Types (db : DB) (r : DeploymentResult) (d : Deployment).

Lemma open_not_terminal s : is_open s = negb (is_terminal s).
Proof. by destruct s. Qed.

(** The row with a given pk is unique. *)
Lemma result_pk_inj db r1 r2 :
  db_core db → r1 ∈ db_results db → r2 ∈ db_results db → res_pk r1 = res_pk r2 → r1 = r2.
Proof. intros Hc. apply NoDup_fmap_elem_inj, Hc. Qed.

(** An update that keeps the keys of a result and only ever closes it. *)
Definition closing (P : DeploymentResult → Prop) (f : DeploymentResult → DeploymentResult) : Prop :=
  ∀ r, P r → res_pk (f r) = res_pk r ∧ res_deployment (f r) = res_deployment r ∧
    res_station (f r) = res_station r ∧ (is_open (res_status (f r)) → is_open (res_status r)).

Lemma closing_back P `{∀ r, Decision (P r)} f (rs : list DeploymentResult) r :
  closing P f → r ∈ update_where P f rs → ∃ r0, r0 ∈ rs ∧
    res_pk r = res_pk r0 ∧ res_deployment r = res_deployment r0 ∧ res_station r = res_station r0 ∧
    (is_open (res_status r) → is_open (res_status r0)).
Proof.
  intros Hf (x & Hx & [[HP ->]|[HP ->]])%elem_of_update_where; exists x; [|by auto].
  destruct (Hf x HP) as (?&?&?&?); auto.
Qed.

Lemma close_results_core (P : DeploymentResult → Prop) `{∀ r, Decision (P r)} f db :
  closing P f → db_core db → db_core (set_results (update_where P f (db_results db)) db).
Proof.
  intros Hf Hc. destruct Hc as [Hn Hs Hdn Hds Hp Ho].
  split; simpl; try done.
  - rewrite fmap_update_where; [done|]. intros x Hx. by apply Hf.
  - intros r Hr. destruct (closing_back P f _ r Hf Hr) as (r0 & Hr0 & -> & _). auto.
  - intros r Hr. destruct (closing_back P f _ r Hf Hr) as (r0 & Hr0 & _ & -> & _). auto.
  - intros r d Hr Hd Heq Hop. destruct (closing_back P f _ r Hf Hr) as (r0 & ? & ? & ? & ? & ?).
    apply (Ho r0 d); auto; congruence.
Qed.

Lemma close_results_single (P : DeploymentResult → Prop) `{∀ r, Decision (P r)} f db :
  closing P f → single_open db → single_open (set_results (update_where P f (db_results db)) db).
Proof.
  intros Hf H1 r1 r2 Hr1 Hr2 Hst Ho1 Ho2.
  destruct (closing_back P f _ r1 Hf Hr1) as (x1 & ? & -> & ? & ? & ?).
  destruct (closing_back P f _ r2 Hf Hr2) as (x2 & ? & -> & ? & ? & ?).
  apply H1; auto; congruence.
Qed.

(** ... and only the deployments of the closed results may lose their last open child. *)
Lemma close_results_live (P : DeploymentResult → Prop) `{∀ r, Decision (P r)} f D db :
  (∀ r, P r → res_deployment (f r) = res_deployment r) →
  live_except D db →
  live_except (λ dep, D dep ∨ ∃ r, r ∈ db_results db ∧ P r ∧ res_deployment r = dep ∧
    is_open (res_status r) ∧ ¬ is_open (res_status (f r)))
    (set_results (update_where P f (db_results db)) db).
Proof.
  intros Hf Hl d Hd Hst HD. simpl in Hd.
  destruct (Hl d Hd Hst) as (r & Hr & Hdep & Hop); [naive_solver|].
  destruct (decide (P r)) as [HP|HP].
  - destruct (decide (is_open (res_status (f r)))) as [Hfo|Hfo].
    + exists (f r). split_and!; [|by rewrite Hf|done].
      simpl. apply elem_of_update_where. naive_solver.
    + exfalso. apply HD. right. eauto 10.
  - exists r. split_and!; [|done|done]. simpl. apply elem_of_update_where. naive_solver.
Qed.

Lemma NoDup_pk_same_pk (g : Deployment → Deployment) (P : Deployment → Prop)
    `{∀ d, Decision (P d)} (ds : list Deployment) :
  (∀ d, dep_pk (g d) = dep_pk d) → dep_pk <$> update_where P g ds = dep_pk <$> ds.
Proof. intros Hg. apply fmap_update_where. auto. Qed.

(** Moving a deployment without open children to any status keeps the core
    and takes it out of the exceptions. *)
Lemma finish_deployment_core (P : Deployment → Prop) `{∀ d, Decision (P d)} g db dep :
  (∀ d, dep_pk (g d) = dep_pk d) → (∀ d, P d → dep_pk d = dep) → ¬ has_open_child db dep →
  db_core db → db_core (set_deployments (update_where P g (db_deployments db)) db).
Proof.
  intros Hg HP Hno [Hn Hs Hdn Hds Hp Ho].
  assert (∀ d, d ∈ update_where P g (db_deployments db) → ∃ d0, d0 ∈ db_deployments db ∧
    dep_pk d = dep_pk d0 ∧ (dep_pk d0 ≠ dep → d = d0)) as Hback.
  { intros d (x & Hx & [[HPx ->]|[_ ->]])%elem_of_update_where; exists x; [|auto].
    split_and!; [done|auto|]. intros Hne. destruct Hne. auto. }
  split; simpl; try done.
  - by rewrite NoDup_pk_same_pk.
  - intros d Hd. destruct (Hback d Hd) as (d0 & ? & -> & _). auto.
  - intros r Hr. destruct (Hp r Hr) as (d & Hd & Heq).
    exists (if decide (P d) then g d else d). split.
    + apply elem_of_update_where. exists d. case_decide; auto.
    + case_decide; by rewrite ?Hg.
  - intros r d Hr Hd Heq Hop. destruct (Hback d Hd) as (d0 & Hd0 & Hpk & Hsame).
    destruct (decide (dep_pk d0 = dep)) as [Hdep|Hdep].
    + exfalso. apply Hno. exists r. split_and!; [done|congruence|done].
    + rewrite (Hsame Hdep) in *. eauto.
Qed.

Lemma finish_deployment_live (P : Deployment → Prop) `{∀ d, Decision (P d)} g D db dep :
  (∀ d, dep_pk (g d) = dep_pk d) → (∀ d, P d → dep_pk d = dep) →
  (∀ d, dep_pk d = dep → dep_status d = D_IN_PROGRESS → P d) →
  (∀ d, P d → dep_status (g d) ≠ D_IN_PROGRESS) →
  live_except (λ i, D i ∨ i = dep) db →
  live_except D (set_deployments (update_where P g (db_deployments db)) db).
Proof.
  intros Hg HP Hall Hst Hl d Hd Hip HD. simpl in Hd.
  apply elem_of_update_where in Hd as (x & Hx & [[HPx ->]|[HPx ->]]); [by apply Hst in HPx|].
  destruct (Hl x Hx Hip) as (r & ?); [|by exists r].
  intros [HDx|Heq]; [done|]. by apply HPx, Hall.
Qed.

Lemma live_except_weaken (D D' : Z → Prop) db :
  (∀ i, D i → D' i) → live_except D db → live_except D' db.
Proof. intros HD Hl d Hd Hip Hn. apply Hl; auto. Qed.

Lemma open_children_not_nil db dep : open_children db dep ≠ [] ↔ has_open_child db dep.
Proof. unfold open_children, has_open_child. apply filter_not_nil. Qed.

(** [_check_deployment_complete] keeps the invariant and un-sticks its deployment. *)
Lemma check_complete_inv now db dep D :
  db_core db → live_except (λ i, D i ∨ i = dep) db →
  db_core (check_deployment_complete now db dep) ∧
  live_except D (check_deployment_complete now db dep).
Proof.
  intros Hc Hl. unfold check_deployment_complete. case_decide as Hch.
  - split; [done|]. intros d Hd Hip HD.
    destruct (decide (dep_pk d = dep)) as [Heq|Hne]; [|apply Hl; naive_solver].
    rewrite Heq. by apply open_children_not_nil.
  - assert (¬ has_open_child db dep) as Hno by (rewrite <-open_children_not_nil; naive_solver). split.
    + apply (finish_deployment_core _ _ _ dep); naive_solver.
    + apply (finish_deployment_live _ _ _ _ dep); [naive_solver..| |done].
      intros d _. simpl. unfold check_complete_status. by case_decide.
Qed.

(** *** Supersession *)

Lemma collect_pending_Ok station rows pks :
  collect_pending station rows = Ok pks →
  pks = res_pk <$> rows ∧ ∀ r, r ∈ rows → res_status r = R_PENDING.
Proof.
  revert pks. induction rows as [|r rows IH]; intros pks Hok; simplify_eq/=.
  - split; [done|]. intros r Hr. by apply not_elem_of_nil in Hr.
  - case_decide as Hp; [|done]. apply obind_Ok in Hok as (pks' & Hrec & ?).
    destruct (IH _ Hrec) as [-> Hall]. simplify_eq/=. split; [done|].
    intros x [->|Hx]%elem_of_cons; auto.
Qed.

Lemma collect_pending_total station rows :
  (∀ r, r ∈ rows → res_status r = R_PENDING) → collect_pending station rows = Ok (res_pk <$> rows).
Proof.
  induction rows as [|r rows IH]; intros Hall; simpl; [done|].
  rewrite decide_True by (apply Hall; set_solver). rewrite IH by set_solver. done.
Qed.

Lemma collect_pending_Raise station rows c :
  collect_pending station rows = Raise c →
  ∃ r, r ∈ rows ∧ res_status r ≠ R_PENDING ∧ c = mkConflict station (res_status r) (res_deployment r).
Proof.
  induction rows as [|r rows IH]; intros Hr; simplify_eq/=.
  case_decide as Hp.
  - apply obind_Raise in Hr as [Hr|(? & ? & ?)]; [|done].
    destruct (IH Hr) as (x & Hx & Hc). exists x. split; [by apply list_elem_of_further|done].
  - injection Hr as <-. exists r. split; [apply list_elem_of_here|done].
Qed.

(** The rows a supersession closes. *)
Definition superseded_by (station new : Z) (r : DeploymentResult) : Prop :=
  res_station r = station ∧ is_open (res_status r) ∧ res_deployment r ≠ new.

#[export] Instance superseded_by_dec station new r : Decision (superseded_by station new r).
Proof. unfold superseded_by. apply _. Defined.

Lemma elem_of_other_open db station new r :
  r ∈ other_open db station new ↔ superseded_by station new r ∧ r ∈ db_results db.
Proof. unfold other_open. by rewrite elem_of_sort_by, list_elem_of_filter. Qed.

Lemma update_where_ext {A} (P Q : A → Prop) `{∀ x, Decision (P x)} `{∀ x, Decision (Q x)} f (l : list A) :
  (∀ x, x ∈ l → P x ↔ Q x) → update_where P f l = update_where Q f l.
Proof.
  intros Hext. unfold update_where. apply list_fmap_ext. intros i x Hx; simpl.
  apply list_elem_of_lookup_2 in Hx. specialize (Hext x Hx).
  destruct (decide (P x)), (decide (Q x)); naive_solver.
Qed.

(** Selecting by the collected pks is selecting the rows themselves. *)
Lemma superseded_rows db station new :
  NoDup (res_pk <$> db_results db) → ∀ r, r ∈ db_results db →
  res_pk r ∈ (res_pk <$> other_open db station new) ↔ superseded_by station new r.
Proof.
  intros Hn r Hr. rewrite list_elem_of_fmap. split.
  - intros (x & Heq & Hx). apply elem_of_other_open in Hx as [Hx Hin].
    by rewrite (NoDup_fmap_elem_inj res_pk (db_results db) r x).
  - intros Hs. exists r. split; [done|]. by apply elem_of_other_open.
Qed.

Lemma snapshot_group_name_pk db d : dep_pk (snapshot_group_name db d) = dep_pk d.
Proof. unfold snapshot_group_name. split_cases; done. Qed.

(** One close-out keeps the core, leaves the results alone and un-sticks its
    deployment, provided the deployment has results at all. *)
Lemma close_out_one_inv now db dep D :
  child_statuses db dep ≠ [] → db_core db → live_except (λ i, D i ∨ i = dep) db →
  let db' := close_out_one now db dep in
  db_core db' ∧ live_except D db' ∧ db_results db' = db_results db ∧
  (∀ d, d ∈ db_deployments db → dep_pk d ≠ dep → d ∈ db_deployments db').
Proof.
  intros Hne Hc Hl. unfold close_out_one.
  destruct (list_find _ _) as [[i d0]|] eqn:Hfind; simpl.
  2: { apply list_find_None in Hfind. rewrite list.Forall_forall in Hfind.
       split_and!; [done| |done|done]. intros d Hd Hip HD. apply Hl; [done..|].
       intros [?|Heq]; [done|]. by apply (Hfind d Hd). }
  case_decide as Hterm.
  - assert (¬ has_open_child db dep) as Hno.
    { intros (r & Hr & Hd & Hop). destruct Hterm as [_ Hterm]. rewrite list.Forall_forall in Hterm.
      specialize (Hterm (res_status r)). rewrite open_not_terminal in Hop.
      assert (is_terminal (res_status r)) as Ht; [apply Hterm|by destruct (is_terminal _)].
      unfold child_statuses. apply list_elem_of_fmap. exists r. split; [done|].
      by apply list_elem_of_filter. }
    split_and!.
    + apply (finish_deployment_core _ _ _ dep); [|naive_solver..].
      intros d; simpl. apply snapshot_group_name_pk.
    + apply (finish_deployment_live _ _ _ _ dep); [|naive_solver..| |done].
      * intros d; simpl. apply snapshot_group_name_pk.
      * intros d _. simpl. unfold close_out_status. by repeat case_decide.
    + done.
    + intros d Hd Hnd. simpl. apply elem_of_update_where. eauto.
  - split_and!; [done| |done|done]. intros d Hd Hip HD.
    destruct (decide (dep_pk d = dep)) as [Heq|Hnd]; [|apply Hl; naive_solver].
    assert (¬ Forall (λ s, is_terminal s) (child_statuses db dep)) as Hnt by naive_solver.
    apply not_Forall_Exists in Hnt; [|apply _].
    apply list.Exists_exists in Hnt as (s & Hs & Hnot).
    unfold child_statuses in Hs. apply list_elem_of_fmap in Hs as (r & -> & Hr).
    apply list_elem_of_filter in Hr as [Hrd Hr]. exists r. rewrite open_not_terminal.
    split_and!; [done|congruence|]. simpl in Hnot. by destruct (is_terminal _).
Qed.

Lemma close_out_all_inv now ids db D :
  (∀ i, i ∈ ids → child_statuses db i ≠ []) → db_core db →
  live_except (λ i, D i ∨ i ∈ ids) db →
  let db' := foldl (close_out_one now) db ids in
  db_core db' ∧ live_except D db' ∧ db_results db' = db_results db ∧
  (∀ d, d ∈ db_deployments db → dep_pk d ∉ ids → d ∈ db_deployments db').
Proof.
  revert db. induction ids as [|i ids IH]; intros db Hne Hc Hl; simpl.
  - split_and!; try done. eapply live_except_weaken; [|done].
    intros j [?|Hj]; [done|]. by apply not_elem_of_nil in Hj.
  - destruct (close_out_one_inv now db i (λ j, D j ∨ j ∈ ids)) as (Hc1 & Hl1 & Hr1 & Hd1);
      [apply Hne; set_solver|done|eapply live_except_weaken; [|done]; set_solver|].
    destruct (IH (close_out_one now db i)) as (Hc2 & Hl2 & Hr2 & Hd2); [|done|done|].
    { intros j Hj. unfold child_statuses. rewrite Hr1. apply Hne. set_solver. }
    split_and!; [done|done|congruence|]. set_solver.
Qed.

(** The tables and sequences a result or roll-up update does not touch. *)
Definition same_frame db db' : Prop :=
  db_groups db' = db_groups db ∧ db_releases db' = db_releases db ∧
  db_stations db' = db_stations db ∧ db_deployment_seq db' = db_deployment_seq db ∧
  db_result_seq db' = db_result_seq db ∧
  dep_pk <$> db_deployments db' = dep_pk <$> db_deployments db.

Lemma same_frame_refl db : same_frame db db.
Proof. done. Qed.

Lemma same_frame_trans db1 db2 db3 : same_frame db1 db2 → same_frame db2 db3 → same_frame db1 db3.
Proof. unfold same_frame. intuition congruence. Qed.

Lemma close_out_one_frame now db dep : same_frame db (close_out_one now db dep).
Proof.
  unfold close_out_one. destruct (list_find _ _); [|done]. case_decide; [|done].
  unfold same_frame; simpl. split_and!; try done. apply fmap_update_where.
  intros d _; simpl. apply snapshot_group_name_pk.
Qed.

Lemma close_out_all_frame now ids db : same_frame db (foldl (close_out_one now) db ids).
Proof.
  revert db. induction ids as [|i ids IH]; intros db; [done|].
  eapply same_frame_trans; [apply close_out_one_frame|apply IH].
Qed.

Lemma supersede_closing now station new : closing (superseded_by station new) (supersede_row now).
Proof. intros r _. by split_and!. Qed.

(** The whole effect of a successful supersession. *)
Lemma supersede_Ok db station new now db' pks D :
  db_core db → live_except D db →
  supersede_pending_for_station db station new now = Ok (db', pks) →
  db_core db' ∧ live_except D db' ∧
  db_results db' = update_where (superseded_by station new) (supersede_row now) (db_results db) ∧
  (∀ r, r ∈ db_results db → superseded_by station new r → res_status r = R_PENDING) ∧
  (∀ d, d ∈ db_deployments db → dep_pk d = new → d ∈ db_deployments db') ∧
  same_frame db db'.
Proof.
  intros Hc Hl (pks' & Hcol & Hrun)%obind_Ok. apply collect_pending_Ok in Hcol as [-> Hpend].
  assert (∀ r, r ∈ db_results db → superseded_by station new r → res_status r = R_PENDING) as Hp.
  { intros r Hr Hs. apply Hpend, elem_of_other_open; done. }
  pose proof (superseded_rows db station new (core_res_nodup db Hc)) as Hsel.
  case_decide as Hnil.
  - injection Hrun as <- <-. split_and!; try done. symmetry. apply update_where_none.
    intros r Hr Hs. apply (Hsel r Hr) in Hs. rewrite Hnil in Hs. by apply not_elem_of_nil in Hs.
  - injection Hrun as <- <-. rewrite (update_where_ext _ (superseded_by station new)) by done.
    set (db1 := set_results _ db).
    assert (db_core db1) as Hc1 by (apply close_results_core; [apply supersede_closing|done]).
    unfold close_out_deployments. set (ids := remove_dups _).
    assert (∀ i, i ∈ ids ↔ ∃ r, r ∈ db_results db1 ∧
      res_pk r ∈ (res_pk <$> other_open db station new) ∧ res_deployment r = i) as Hids.
    { intros i. unfold ids. rewrite elem_of_remove_dups, list_elem_of_fmap.
      setoid_rewrite list_elem_of_filter. naive_solver. }
    destruct (close_out_all_inv now ids db1 D) as (Hc2 & Hl2 & Hr2 & Hd2).
    + intros i Hi. apply Hids in Hi as (r & Hr & _ & Hri). unfold child_statuses.
      intros Hempty%fmap_nil_inv. revert Hempty. apply filter_not_nil. eauto.
    + done.
    + eapply live_except_weaken;
        [|apply (close_results_live (superseded_by station new) (supersede_row now) D); done].
      intros i [?|(r & Hr & Hs & <- & _)]; [by left|right]. apply Hids.
      exists (supersede_row now r). split_and!; [| |done].
      * apply elem_of_update_where. eauto.
      * by apply (Hsel r Hr).
    + split_and!; [done|done|done|done| |].
      * intros d Hd Hnew. apply Hd2; [done|]. intros Hi.
        apply Hids in Hi as (r & Hr & Hpk & Hrd).
        apply elem_of_update_where in Hr as (x & Hx & [[Hs ->]|[Hs ->]]).
        -- simpl in *. destruct Hs as (_ & _ & Hne). congruence.
        -- by apply (Hsel x Hx) in Hpk.
      * apply (same_frame_trans _ db1); [done|]. apply close_out_all_frame.
Qed.

(** It raises exactly when the station has an active result elsewhere. *)
Lemma supersede_Raise db station new now c :
  supersede_pending_for_station db station new now = Raise c →
  ∃ r, r ∈ db_results db ∧ superseded_by station new r ∧ is_active (res_status r) = true ∧
    c = mkConflict station (res_status r) (res_deployment r).
Proof.
  intros [Hr|(pks & Hok & Hr)]%obind_Raise; [|by case_decide].
  apply collect_pending_Raise in Hr as (r & Hr & Hnp & ->).
  apply elem_of_other_open in Hr as [Hs Hr]. exists r. split_and!; try done.
  destruct Hs as (_ & Hop & _). by destruct (res_status r).
Qed.

End lemmas.

(** ** Progress lemmas *)

Section progress.
Implicit Types (rs : list DeploymentResult).

Definition count_status rs (s : ResultStatus) : Z :=
  Z.of_nat (length (filter (λ r, res_status r = s) rs)).

Lemma omap_find_count rs (l : list ResultStatus) s :
  s ∈ l →
  count_get (omap (λ s, let n := length (filter (λ r, res_status r = s) rs) in
    if decide (n = 0%nat) then None else Some (s, Z.of_nat n)) l) s = count_status rs s.
Proof.
  unfold count_get, count_status. induction l as [|x l IH]; intros Hs; [by apply not_elem_of_nil in Hs|].
  simpl. destruct (decide (x = s)) as [->|Hne].
  - case_decide as Hn; simpl.
    + rewrite Hn. clear IH Hs. induction l as [|y l IH]; simpl; [done|].
      case_decide as Hy; simpl; [done|]. rewrite decide_False by (intros ->; done).
      destruct (list_find _ _) as [[? [? ?]]|]; done.
    + by rewrite decide_True.
  - apply elem_of_cons in Hs as [->|Hs]; [done|]. case_decide; simpl; [by apply IH|].
    rewrite decide_False by done. rewrite <-(IH Hs). by destruct (list_find _ _) as [[? [? ?]]|].
Qed.

Lemma count_get_status_counts rs s : count_get (status_counts rs) s = count_status rs s.
Proof. apply omap_find_count. by apply (bool_decide_unpack _); destruct s. Qed.

Lemma sum_status_counts rs : sumZ (snd <$> status_counts rs) = sumZ (count_status rs <$> all_statuses).
Proof.
  unfold status_counts. induction all_statuses as [|s l IH]; csimpl; [done|].
  rewrite <-IH. unfold count_status. destruct (decide _) as [Hn|Hn]; csimpl; [by rewrite Hn|done].
Qed.

Lemma count_status_total rs : sumZ (count_status rs <$> all_statuses) = Z.of_nat (length rs).
Proof.
  unfold sumZ, all_statuses. simpl. induction rs as [|r rs IH]; [done|].
  rewrite length_cons, Nat2Z.inj_succ, <-IH. unfold count_status. rewrite !filter_cons.
  destruct (res_status r); simpl; lia.
Qed.

End progress.

Lemma filter_tagged (d id : Z) (l : list (ResultStatus * Z)) :
  snd <$> filter (λ p : Z * (ResultStatus * Z), p.1 = id) (pair d <$> l) =
  if decide (d = id) then l else [].
Proof.
  induction l as [|x l IH]; csimpl; [by case_decide|]. rewrite filter_cons. simpl.
  destruct (decide (d = id)) as [->|Hne]; [|done]. csimpl. by rewrite IH.
Qed.

(** Rows of one deployment, grouped, are the counts of that deployment alone. *)
Lemma per_dep_bulk_rows rs ids id :
  id ∈ ids → per_dep (bulk_rows rs ids) id = status_counts (filter (λ r, res_deployment r = id) rs).
Proof.
  intros Hid. unfold per_dep, bulk_rows.
  set (scoped := filter (λ r, res_deployment r ∈ ids) rs).
  assert (filter (λ r, res_deployment r = id) rs = filter (λ r, res_deployment r = id) scoped) as ->.
  { unfold scoped. rewrite list_filter_filter_l; [done|]. by intros r ->. }
  assert (∀ ds, NoDup ds → snd <$> filter (λ p : Z * (ResultStatus * Z), p.1 = id)
    (ds ≫= λ d, pair d <$> status_counts (filter (λ r, res_deployment r = d) scoped)) =
    if decide (id ∈ ds) then status_counts (filter (λ r, res_deployment r = id) scoped) else []) as Hgen.
  { induction 1 as [|d ds Hd Hnd IH]; csimpl; [done|]. rewrite filter_app, fmap_app, IH.
    rewrite filter_tagged. destruct (decide (d = id)) as [->|Hne].
    - rewrite (decide_False (P:=id ∈ ds)) by done.
      rewrite decide_True by (apply list_elem_of_here). by rewrite app_nil_r.
    - simpl. apply decide_ext. rewrite elem_of_cons. naive_solver. }
  rewrite Hgen by apply NoDup_remove_dups. case_decide as Hin; [done|].
  rewrite elem_of_remove_dups, list_elem_of_fmap in Hin.
  assert (filter (λ r, res_deployment r = id) scoped = []) as ->; [|done].
  apply elem_of_nil_inv. intros r [Hr Hr']%list_elem_of_filter. apply Hin. eauto.
Qed.

(** ** Properties *)

(** The progress summary counts every result exactly once: [total] is the
    number of results and completed, failed, pending, in-progress and
    cancelled add up to it; the one-query bulk version gives each requested
    deployment the same summary as a query of its own. *)
Lemma progress_partitions_results rs :
  (let p := compute_progress rs in
   p_total p = Z.of_nat (length rs) ∧
   p_completed p + p_failed p + p_pending p + p_in_progress p + p_cancelled p = p_total p) ∧
  (∀ ids, bulk_compute_progress rs ids =
    (λ id, (id, compute_progress (filter (λ r, res_deployment r = id) rs))) <$> ids).
Proof.
  split.
  - assert (p_total (compute_progress rs) = Z.of_nat (length rs)) as Htot.
    { simpl. by rewrite sum_status_counts, count_status_total. }
    split; [exact Htot|]. rewrite Htot, <-count_status_total.
    unfold compute_progress, progress_from_counts, sumZ, all_statuses. simpl.
    rewrite !count_get_status_counts. lia.
  - intros ids. unfold bulk_compute_progress. apply list_fmap_ext. intros i id Hi.
    by rewrite per_dep_bulk_rows by (by eapply list_elem_of_lookup_2).
Qed.

(** Every [completed <= total] of a fleet below [bound]. *)
Definition percentages_ok (bound : nat) : bool :=
  forallb (λ t, forallb (λ c,
    let p := percentage (Z.of_nat c) (Z.of_nat t) in
    bool_decide (0 ≤ p ≤ 100) && bool_decide (p = 100 ↔ c = t ∧ t ≠ 0%nat))
    (seq 0 (S t))) (seq 0 bound).

Lemma percentages_ok_spec bound completed total :
  percentages_ok bound = true → 0 ≤ completed ≤ total → total < Z.of_nat bound →
  0 ≤ percentage completed total ≤ 100 ∧
  (percentage completed total = 100 ↔ completed = total ∧ total ≠ 0).
Proof.
  intros Hall Hc Ht. unfold percentages_ok in Hall. rewrite forallb_forall in Hall.
  specialize (Hall (Z.to_nat total)). rewrite in_seq in Hall. specialize (Hall ltac:(lia)).
  rewrite forallb_forall in Hall. specialize (Hall (Z.to_nat completed)).
  rewrite in_seq in Hall. specialize (Hall ltac:(lia)). cbv zeta in Hall.
  rewrite !Z2Nat.id in Hall by lia.
  apply andb_true_iff in Hall as [H1%bool_decide_eq_true H2%bool_decide_eq_true].
  split; [exact H1|]. rewrite H2. lia.
Qed.

Lemma percentages_ok_101 : percentages_ok 101 = true.
Proof. vm_compute. reflexivity. Qed.

(** The displayed percentage, in the binary64 arithmetic Python uses, is
    between 0 and 100 and reads 100 exactly when every result succeeded, for
    every deployment of at most 100 stations (each case computed); on larger
    fleets rounding shows 100 early: 199 successes of 200 already do. *)
Lemma percentage_100_means_done completed total :
  0 ≤ completed ≤ total → total ≤ 100 →
  (0 ≤ percentage completed total ≤ 100 ∧
   (percentage completed total = 100 ↔ completed = total ∧ total ≠ 0)) ∧
  percentage 199 200 = 100.
Proof.
  intros Hc Ht. split; [|vm_compute; reflexivity].
  apply (percentages_ok_spec 101); [exact percentages_ok_101|exact Hc|lia].
Qed.

Lemma percentage_100_means_done_witness :
  (0 ≤ 3 ≤ 3 ∧ 3 ≤ 100) ∧ percentage 3 3 = 100.
Proof.
  assert (0 ≤ 3 ≤ 3) as H1 by lia. assert (3 ≤ 100) as H2 by lia.
  split; [by split|].
  apply (proj1 (percentage_100_means_done 3 3 H1 H2)). done.
Defined.

(** Finding: the two roll-ups disagree.  On terminal children with a
    success and a failure the supersession path closes the deployment as
    [COMPLETED] and the report path as [FAILED]; on children that were all
    cancelled or superseded they give [CANCELLED] and [COMPLETED].  They agree
    exactly when there is a success xor a failure. *)
Lemma rollups_disagree statuses :
  close_out_status statuses = check_complete_status statuses ↔
  (R_SUCCESS ∈ statuses ↔ ¬ (R_FAILED ∈ statuses ∨ R_ROLLED_BACK ∈ statuses)).
Proof.
  unfold close_out_status, check_complete_status. repeat case_decide; split; try done; tauto.
Qed.
