(* ===== verification/DeploymentService.v ===== *)
(** * Version-based deployment creation

    Models [apps/deployments/services.py]: [plan_deployment] resolves a version
    [(tag, channel)] for every station of a target, [create_deployment] writes
    the deployment, one [PENDING] result per servable station, supersedes the
    stations' queued results and records the rest as skipped.

    The first plan runs on unlocked rows, so [create_deployment] takes two
    database states: [db0], what the unlocked reads saw, and [db], the state
    under the row locks, on which everything else runs. *)

From Stdlib Require Import ZArith Lia.
From stdpp Require Import base gmap list strings.
From S2P Require Import Prelude Images Targeting Deployments.

Local Open Scope Z_scope.

(** ** Plans *)

Record StationPlan := mkPlan {
  plan_station : Station;
  plan_release : option ImageRelease;
  plan_reason : PlanReason;
  plan_message : PlanMessage;
  channel_switch : bool;
  downgrade : bool;
  supersedes : option Z
}.

Definition plan_ok (p : StationPlan) : bool := bool_decide (plan_reason p = PLAN_OK).

Definition skip_plan (st : Station) (reason : PlanReason) (msg : PlanMessage) (cs : bool) : StationPlan :=
  mkPlan st None reason msg cs false None.

(** The loop body of [_other_results] ([setdefault] into the two dicts). *)
Definition index_result (acc : gmap Z (ResultStatus * Z) * gmap Z Z) (r : DeploymentResult)
  : gmap Z (ResultStatus * Z) * gmap Z Z :=
  let '(mid_flight, queued) := acc in
  if decide (res_status r = R_PENDING) then
    (mid_flight,
     match queued !! res_station r with
     | Some _ => queued
     | None => <[res_station r := res_deployment r]> queued
     end)
  else
    (match mid_flight !! res_station r with
     | Some _ => mid_flight
     | None => <[res_station r := (res_status r, res_deployment r)]> mid_flight
     end, queued).

(** [_other_results]: per station the newest mid-flight result and the newest
    queued one, over rows ordered by station, then [-pk]. *)
Definition other_results (db : DB) (stations : list Station)
  : gmap Z (ResultStatus * Z) * gmap Z Z :=
  foldl index_result (∅, ∅)
    (sort_by2 res_station (λ r, - res_pk r)
      (filter (λ r, res_station r ∈ (st_pk <$> stations) ∧ is_open (res_status r)) (db_results db))).

(** [{r.machine: r for r in ImageRelease.objects.filter(tag=tag, channel=channel)}] *)
Definition releases_of_version (db : DB) (t c : string) : gmap string ImageRelease :=
  foldl (λ m r, <[machine r := r]> m) ∅
    (filter (λ r, tag r = t ∧ channel r = c) (objects (db_releases db))).

(** The loop body of [plan_deployment]. *)
Definition plan_station_of (t c : string) (releases : gmap string ImageRelease)
    (mid_flight : gmap Z (ResultStatus * Z)) (queued : gmap Z Z) (st : Station) : StationPlan :=
  match st_current st with
  | None => skip_plan st SKIP_NO_PLATFORM PM_PlatformUnknown false
  | Some current =>
    let switch := bool_decide (station_channel st ≠ c) in
    match releases !! machine current with
    | None => skip_plan st SKIP_NO_IMAGE (PM_NotImported t c (machine current)) switch
    | Some release =>
      let down := bool_decide (rel_pk release ≠ rel_pk current) && negb (is_newer release current) in
      if negb (is_ota_ready release) then
        mkPlan st (Some release) SKIP_NOT_OTA_READY (PM_NotOtaReady (tag release)) switch down None
      else
        match mid_flight !! st_pk st with
        | Some (status, dep) =>
          mkPlan st (Some release) SKIP_ACTIVE (PM_MidDeployment (st_pk st) status dep) switch down None
        | None =>
          mkPlan st (Some release) PLAN_OK PM_Empty switch down (queued !! st_pk st)
        end
    end
  end.

Definition plan_deployment (db : DB) (t c : string) (stations : list Station) : list StationPlan :=
  let '(mid_flight, queued) := other_results db stations in
  plan_station_of t c (releases_of_version db t c) mid_flight queued <$> stations.

(** ** Creation *)

Record CreateRequest := mkCreate {
  req_tag : string;
  req_channel : string;
  req_target_type : TargetType;
  req_target_group : option RolloutGroup;
  req_target_station : option Z;
  req_stations : option (list Station);
  req_user : option Z;
  req_strategy : Strategy;
  req_phase_config : list (string * Z);
  req_audit : bool
}.

Inductive CreateError :=
| NoEligibleStations (plans : list StationPlan)
| IntegrityError.

(** A FIRMWARE_UPDATE audit entry queued for after the commit. *)
Record AuditEntry := mkAudit { aud_station : Z; aud_deployment : Z; aud_release : option ImageRelease }.

Definition not_in_target (p : StationPlan) (member_of : option RolloutGroup) : StationPlan :=
  skip_plan (plan_station p) SKIP_NOT_IN_TARGET
    (match member_of with Some g => PM_LeftGroup (grp_name g) | None => PM_LeftTarget end) false.

(** The station objects the first plan runs on. *)
Definition requested_stations (db0 : DB) (req : CreateRequest) : list Station :=
  match req_stations req with
  | Some sts => sts
  | None =>
    load_station db0 <$> get_target_stations db0 (req_target_type req)
      (grp_pk <$> req_target_group req) (req_target_station req)
  end.

(** [member_of]: the group whose membership is re-checked under the locks. *)
Definition member_of (req : CreateRequest) : option RolloutGroup :=
  match req_target_type req with T_GROUP => req_target_group req | _ => None end.

Definition still_member (req : CreateRequest) (s : StationRow) : bool :=
  match member_of req with
  | Some g => bool_decide (sr_group s = Some (grp_pk g))
  | None => true
  end.

(** The stations locked for the servable plans, in pk order. *)
Definition locked_stations (db : DB) (req : CreateRequest) (plans : list StationPlan) : list Station :=
  let ok_pks := st_pk ∘ plan_station <$> filter (λ p, plan_ok p) plans in
  load_station db <$>
    sort_by sr_pk
      (filter (λ s, sr_pk s ∈ ok_pks ∧ still_member req s) (db_stations db)).

(** [replanned.get(pk)] on the dict of the re-planned stations: the last one wins. *)
Definition plan_of (pk : Z) (plans : list StationPlan) : option StationPlan :=
  snd <$> list_find (λ p, st_pk (plan_station p) = pk) (reverse plans).

Definition merge_plans (req : CreateRequest) (plans replanned : list StationPlan) : list StationPlan :=
  (λ p, if plan_ok p
        then match plan_of (st_pk (plan_station p)) replanned with
             | Some p' => p'
             | None => not_in_target p (member_of req)
             end
        else p) <$> plans.

(** [Deployment.objects.create(...)]: a fresh row, [IN_PROGRESS], with the
    group name snapshotted by [save]. *)
Definition insert_deployment (now : Z) (db : DB) (req : CreateRequest) : DB * Z :=
  let pk := db_deployment_seq db in
  let d := mkDeployment pk (req_tag req) (req_channel req) [] (req_target_type req)
    (grp_pk <$> req_target_group req)
    (match req_target_group req with Some g => grp_name g | None => "" end)
    (req_target_station req) (req_strategy req) (req_phase_config req)
    D_IN_PROGRESS (req_user req) now now in
  (mkDB (db_groups db) (db_releases db) (db_stations db) (db_deployments db ++ [d])
     (db_results db) (pk + 1) (db_result_seq db), pk).

(** [DeploymentResult.objects.create(...)]: [image_release] is NOT NULL and
    [(deployment, station)] is unique. *)
Definition insert_result (db : DB) (dep : Z) (st : Station) (rel : option ImageRelease) : outcome CreateError (DB * Z) :=
  match rel with
  | None => Raise IntegrityError
  | Some release =>
    if decide (Exists (λ r, res_deployment r = dep ∧ res_station r = st_pk st) (db_results db))
    then Raise IntegrityError
    else
    let pk := db_result_seq db in
    let r := mkResult pk dep (st_pk st) (rel_pk release) R_PENDING None None (ET_Raw "") (st_os_version st) "" in
    Ok (mkDB (db_groups db) (db_releases db) (db_stations db) (db_deployments db)
          (db_results db ++ [r]) (db_deployment_seq db) (pk + 1), pk)
  end.

(** The state of the result loop: the database, [final_plans] and the audit
    entries queued so far. *)
Record LoopState := mkLoop {
  loop_db : DB;
  loop_plans : list StationPlan;
  loop_audit : list AuditEntry
}.

(** One iteration. *)
Definition create_step (req : CreateRequest) (now dep : Z) (st : LoopState) (plan : StationPlan)
  : outcome CreateError LoopState :=
  if negb (plan_ok plan) then Ok (mkLoop (loop_db st) (loop_plans st ++ [plan]) (loop_audit st))
  else
    let station := plan_station plan in
    obind (insert_result (loop_db st) dep station (plan_release plan))
      (λ '(db1, res),
        match supersede_pending_for_station db1 (st_pk station) dep now with
        | Raise c =>
          Ok (mkLoop (set_results (delete_where (λ r, res_pk r = res) (db_results db1)) db1)
                (loop_plans st ++
                   [mkPlan station (plan_release plan) SKIP_ACTIVE
                      (PM_MidDeployment (cf_station c) (cf_status c) (cf_deployment c))
                      (channel_switch plan) (downgrade plan) None])
                (loop_audit st))
        | Ok (db2, _) =>
          Ok (mkLoop db2 (loop_plans st ++ [plan])
                (if req_audit req
                 then loop_audit st ++ [mkAudit (st_pk station) dep (plan_release plan)]
                 else loop_audit st))
        end).

(** [position[pk]]: the index of the station in the target order. *)
Definition position (plans : list StationPlan) (pk : Z) : Z :=
  Z.of_nat (length plans) - 1 -
  match list_find (λ p, st_pk (plan_station p) = pk) (reverse plans) with
  | Some (i, _) => Z.of_nat i
  | None => 0
  end.

Definition skipped_of (plans : list StationPlan) : list SkippedStation :=
  (λ p, mkSkip (st_pk (plan_station p)) (st_name (plan_station p)) (plan_reason p) (plan_message p)) <$>
    filter (λ p, ¬ plan_ok p) plans.

Record Created := mkCreated {
  created_db : DB;
  created_dep : Z;
  created_plans : list StationPlan;
  created_audit : list AuditEntry
}.

(** The transaction: everything after the first plan. *)
Definition create_locked (db : DB) (req : CreateRequest) (now : Z) (plans0 : list StationPlan)
  : outcome CreateError Created :=
  let replanned := plan_deployment db (req_tag req) (req_channel req) (locked_stations db req plans0) in
  let plans := merge_plans req plans0 replanned in
  let '(db1, dep) := insert_deployment now db req in
  obind (ofold (create_step req now dep) (mkLoop db1 [] [])
           (sort_by (st_pk ∘ plan_station) plans))
    (λ st,
      let final_plans := sort_by (position plans ∘ st_pk ∘ plan_station) (loop_plans st) in
      if decide (Exists (λ p, plan_ok p) final_plans) then
        let skipped := skipped_of final_plans in
        let db2 :=
          if decide (skipped = []) then loop_db st
          else set_deployments
                 (update_where (λ d, dep_pk d = dep)
                    (λ d, dep_set_skipped skipped now (snapshot_group_name (loop_db st) d))
                    (db_deployments (loop_db st))) (loop_db st) in
        Ok (mkCreated db2 dep final_plans (loop_audit st))
      else Raise (NoEligibleStations final_plans)).

Definition create_deployment (db0 db : DB) (req : CreateRequest) (now : Z) : outcome CreateError Created :=
  let plans := plan_deployment db0 (req_tag req) (req_channel req) (requested_stations db0 req) in
  if decide (Exists (λ p, plan_ok p) plans) then create_locked db req now plans
  else Raise (NoEligibleStations plans).

(** ** Lemmas on plans *)

Section plan_lemmas.
Implicit Types (db : DB) (st : Station) (p : StationPlan).

Lemma plan_ok_true p : plan_ok p ↔ plan_reason p = PLAN_OK.
Proof. unfold plan_ok. apply bool_decide_spec. Qed.

(** A station has a mid-flight entry exactly when it has an active result. *)
Lemma other_results_mid_flight db stations s :
  is_Some ((other_results db stations).1 !! s) ↔
  s ∈ (st_pk <$> stations) ∧
  ∃ r, r ∈ db_results db ∧ res_station r = s ∧ is_active (res_status r).
Proof.
  unfold other_results.
  set (rows := sort_by2 _ _ _).
  assert (∀ r, r ∈ rows ↔ (res_station r ∈ (st_pk <$> stations) ∧ is_open (res_status r)) ∧
    r ∈ db_results db) as Hrows.
  { intros r. unfold rows. by rewrite elem_of_sort_by2, list_elem_of_filter. }
  assert (∀ l acc, is_Some ((foldl index_result acc l).1 !! s) ↔
    is_Some (acc.1 !! s) ∨ ∃ r, r ∈ l ∧ res_station r = s ∧ res_status r ≠ R_PENDING) as Hfold.
  { intros l. induction l as [|r l IH]; intros [mf q].
    - simpl. split; [by left|]. intros [?|(r & Hr & _)]; [done|]. by apply not_elem_of_nil in Hr.
    - simpl. rewrite IH. unfold index_result. case_decide as Hp; simpl.
      + split; [|intros [?|(x & [->|Hx]%elem_of_cons & ? & ?)]; eauto; done].
        intros [?|(x & Hx & ? & ?)]; [by left|right]. exists x. by rewrite elem_of_cons; auto.
      + destruct (mf !! res_station r) as [v|] eqn:Hmf.
        * split.
          -- intros [?|(x & Hx & ? & ?)]; [by left|right]. exists x. by rewrite elem_of_cons; auto.
          -- intros [?|(x & [->|Hx]%elem_of_cons & Hs & ?)]; [by left| |right; eauto].
             left. rewrite <-Hs, Hmf. eauto.
        * split.
          -- intros [Hin|(x & Hx & ? & ?)]; [|right; exists x; by rewrite elem_of_cons; auto].
             destruct (decide (res_station r = s)) as [Hs|Hs].
             ++ right. exists r. by rewrite elem_of_cons; auto.
             ++ rewrite lookup_insert_ne in Hin by done. by left.
          -- intros [Hin|(x & [->|Hx]%elem_of_cons & Hs & ?)]; [left|left|right; eauto].
             ++ destruct (decide (res_station r = s)) as [->|Hs];
                  [rewrite lookup_insert_eq; eauto|by rewrite lookup_insert_ne].
             ++ rewrite Hs, lookup_insert_eq. eauto. }
  rewrite Hfold; simpl. rewrite lookup_empty. split.
  - intros [[? ?]|(r & Hr & <- & Hnp)]; [done|]. apply Hrows in Hr as [[Hin Hop] Hr].
    split; [done|]. exists r. split_and!; [done|done|]. by destruct (res_status r).
  - intros (Hin & r & Hr & <- & Hact). right. exists r. rewrite Hrows.
    destruct (res_status r); naive_solver.
Qed.

Lemma releases_of_version_sound db t c m r :
  releases_of_version db t c !! m = Some r →
  r ∈ db_releases db ∧ archived_at r = None ∧ tag r = t ∧ channel r = c ∧ machine r = m.
Proof.
  unfold releases_of_version, objects.
  assert (∀ l (acc : gmap string ImageRelease),
    (∀ m r, acc !! m = Some r → r ∈ db_releases db ∧ archived_at r = None ∧ tag r = t ∧
      channel r = c ∧ machine r = m) →
    (∀ r, r ∈ l → r ∈ db_releases db ∧ archived_at r = None ∧ tag r = t ∧ channel r = c) →
    ∀ m r, foldl (λ m r, <[machine r := r]> m) acc l !! m = Some r →
      r ∈ db_releases db ∧ archived_at r = None ∧ tag r = t ∧ channel r = c ∧ machine r = m) as Hgen.
  { intros l. induction l as [|x l IH]; intros acc Hacc Hl m' r'; simpl; [apply Hacc|].
    apply IH; [|set_solver]. intros m0 r0 H0.
    destruct (decide (machine x = m0)) as [<-|Hne].
    - rewrite lookup_insert_eq in H0. simplify_eq. destruct (Hl r0) as (?&?&?&?); [set_solver|done].
    - rewrite lookup_insert_ne in H0 by done. by apply Hacc. }
  apply Hgen.
  - intros ?? H. by rewrite lookup_empty in H.
  - intros x Hx. rewrite !list_elem_of_filter in Hx. naive_solver.
Qed.

Lemma plan_deployment_stations db t c stations :
  plan_station <$> plan_deployment db t c stations = stations.
Proof.
  unfold plan_deployment. destruct (other_results db stations) as [mf q].
  rewrite <-list_fmap_compose. rewrite <-(list_fmap_id stations) at 2.
  apply list_fmap_ext. intros i st _; simpl. unfold plan_station_of.
  repeat (case_match; simpl; try done).
Qed.

(** What an OK plan promises. *)
Definition plan_sound db (t c : string) p : Prop :=
  ∃ cur rel, st_current (plan_station p) = Some cur ∧ plan_release p = Some rel ∧
    rel ∈ db_releases db ∧ archived_at rel = None ∧ tag rel = t ∧ channel rel = c ∧
    machine rel = machine cur ∧ is_ota_ready rel = true ∧
    ∀ r, r ∈ db_results db → res_station r = st_pk (plan_station p) → ¬ is_active (res_status r).

Lemma plan_ok_sound db t c stations p :
  p ∈ plan_deployment db t c stations → plan_ok p → plan_sound db t c p.
Proof.
  unfold plan_deployment. pose proof (other_results_mid_flight db stations) as Hmf.
  destruct (other_results db stations) as [mf q]. simpl in Hmf.
  intros (st & -> & Hst)%list_elem_of_fmap. rewrite plan_ok_true. unfold plan_station_of.
  destruct (st_current st) as [cur|] eqn:Hcur; [|done].
  destruct (releases_of_version db t c !! machine cur) as [rel|] eqn:Hrel; [|done].
  destruct (is_ota_ready rel) eqn:Hota; [|done]. simpl.
  destruct (mf !! st_pk st) as [[s d]|] eqn:Hm; [done|]. intros _.
  apply releases_of_version_sound in Hrel as (?&?&?&?&?).
  exists cur, rel. simpl. split_and!; try done. intros r Hr Hs Hact.
  assert (is_Some (mf !! st_pk st)) as [? ?]; [|congruence].
  apply Hmf. split; [by apply list_elem_of_fmap_2|]. eauto.
Qed.

Lemma merge_plans_stations req plans0 replanned :
  st_pk ∘ plan_station <$> merge_plans req plans0 replanned = st_pk ∘ plan_station <$> plans0.
Proof.
  unfold merge_plans. rewrite <-list_fmap_compose. apply list_fmap_ext.
  intros i p _; simpl. destruct (plan_ok p); [|done].
  unfold plan_of. destruct (list_find _ _) as [[j p']|] eqn:Hf; simpl; [|done].
  apply list_find_Some in Hf as (_ & Heq & _). done.
Qed.

(** Only a re-planned station is still OK after the merge. *)
Lemma merge_plans_ok req plans0 replanned p :
  p ∈ merge_plans req plans0 replanned → plan_ok p → p ∈ replanned.
Proof.
  unfold merge_plans. intros (p0 & -> & Hp0)%list_elem_of_fmap.
  destruct (plan_ok p0) eqn:Hok; [|by rewrite Hok].
  unfold plan_of. destruct (list_find _ _) as [[j p']|] eqn:Hf; simpl; [|done].
  intros _. apply list_find_Some in Hf as (Hj & _). apply list_elem_of_lookup_2 in Hj.
  by rewrite elem_of_reverse in Hj.
Qed.

End plan_lemmas.

(** ** Lemmas on creation *)

Section create_lemmas.
Implicit Types (db : DB) (st : LoopState) (p : StationPlan).

(** Rewriting deployments without touching pk and status. *)
Lemma relabel_deployments_inv (P : Deployment → Prop) `{∀ d, Decision (P d)} g db D :
  (∀ d, dep_pk (g d) = dep_pk d ∧ dep_status (g d) = dep_status d) →
  let db' := set_deployments (update_where P g (db_deployments db)) db in
  db_core db → live_except D db → db_core db' ∧ live_except D db'.
Proof.
  intros Hg db' [Hn Hs Hdn Hds Hp Ho] Hl.
  assert (∀ d, d ∈ db_deployments db' → ∃ d0, d0 ∈ db_deployments db ∧
    dep_pk d = dep_pk d0 ∧ dep_status d = dep_status d0) as Hback.
  { intros d (x & Hx & [[_ ->]|[_ ->]])%elem_of_update_where; exists x; [|done].
    split; [done|]. apply Hg. }
  split.
  - split; simpl; try done.
    + rewrite fmap_update_where; [done|]. intros; apply Hg.
    + intros d Hd. destruct (Hback d Hd) as (d0 & ? & -> & _). auto.
    + intros r Hr. destruct (Hp r Hr) as (d & Hd & Heq).
      exists (if decide (P d) then g d else d). split.
      * apply elem_of_update_where. exists d. case_decide; auto.
      * case_decide; [|done]. rewrite <-Heq. apply Hg.
    + intros r d Hr Hd Heq Hop. destruct (Hback d Hd) as (d0 & ? & ? & ->).
      apply (Ho r d0); congruence.
  - intros d Hd Hip HD. destruct (Hback d Hd) as (d0 & ? & Hpk & Hst).
    rewrite Hpk in *. destruct (Hl d0) as (r & ?); [done|congruence|done|]. by exists r.
Qed.

(** What an insertion gives: a fresh [PENDING] row at the end of the table. *)
Lemma insert_result_Ok db dep (s : Station) rel db1 pk :
  insert_result db dep s rel = Ok (db1, pk) →
  ∃ release r, rel = Some release ∧ pk = db_result_seq db ∧
    db_results db1 = db_results db ++ [r] ∧ res_pk r = pk ∧ res_deployment r = dep ∧
    res_station r = st_pk s ∧ res_status r = R_PENDING ∧ res_image r = rel_pk release ∧
    (∀ x, x ∈ db_results db → res_deployment x = dep → res_station x ≠ st_pk s) ∧
    db_deployments db1 = db_deployments db ∧ db_groups db1 = db_groups db ∧
    db_releases db1 = db_releases db ∧ db_stations db1 = db_stations db ∧
    db_deployment_seq db1 = db_deployment_seq db ∧ db_result_seq db1 = pk + 1.
Proof.
  unfold insert_result. destruct rel as [release|]; [|done]. case_decide as Hex; [done|].
  intros [= <- <-]. exists release. eexists. split_and!; simpl; try done.
  intros x Hx Hd Hs. apply Hex, list.Exists_exists. eauto.
Qed.

(** The core survives an insertion below an [IN_PROGRESS] deployment. *)
Lemma insert_result_core db dep (s : Station) rel db1 pk D :
  insert_result db dep s rel = Ok (db1, pk) → db_core db → live_except D db →
  (∃ d, d ∈ db_deployments db ∧ dep_pk d = dep ∧ dep_status d = D_IN_PROGRESS ∧
    skipped_stations d = []) →
  db_core db1 ∧ live_except D db1.
Proof.
  intros (rel' & r & -> & -> & Hrs & Hpk & Hdep & Hst & Hstat & _ & _ & Hds & _ & _ & _ & Hseq & Hrseq)%insert_result_Ok.
  intros [Hn Hs Hdn Hdsq Hp Ho] Hl (d0 & Hd0 & Hd0pk & Hd0st & _).
  assert (∀ x, x ∈ db_results db1 ↔ x ∈ db_results db ∨ x = r) as Hin.
  { intros x. rewrite Hrs, elem_of_app, list_elem_of_singleton. done. }
  split; [split|].
  - rewrite Hrs, fmap_app, list.NoDup_app. split_and!; [done| |apply NoDup_singleton].
    intros x Hx. simpl. rewrite list_elem_of_singleton, Hpk. intros ->.
    apply list_elem_of_fmap in Hx as (y & Heq & Hy). apply Hs in Hy. lia.
  - intros x [Hx| ->]%Hin; [apply Hs in Hx|]; lia.
  - by rewrite Hds.
  - rewrite Hds, Hseq. done.
  - intros x [Hx| ->]%Hin; rewrite Hds; [auto|]. exists d0. by rewrite Hdep.
  - intros x d [Hx| ->]%Hin Hd Heq Hop; rewrite Hds in Hd; [eauto|].
    rewrite (NoDup_fmap_elem_inj dep_pk (db_deployments db) d d0); [|done..|congruence].
    by rewrite Hd0st.
  - intros d Hd Hip HD. rewrite Hds in Hd. destruct (Hl d Hd Hip HD) as (x & Hx & ?).
    exists x. split; [|done]. apply Hin. by left.
Qed.

(** The invariant of the result loop. *)
Record loop_inv (db : DB) (dep : Z) st : Prop := {
  li_core : db_core (loop_db st);
  li_single : single_open (loop_db st);
  li_live : live_except (λ i, i = dep) (loop_db st);
  li_parent : ∃ d, d ∈ db_deployments (loop_db st) ∧ dep_pk d = dep ∧
    dep_status d = D_IN_PROGRESS ∧ skipped_stations d = [];
  li_terminal : ∀ r, r ∈ db_results db → is_terminal (res_status r) → r ∈ db_results (loop_db st);
  li_active : ∀ r, r ∈ db_results (loop_db st) → is_active (res_status r) → r ∈ db_results db;
  (* the results of the new deployment are the OK plans done so far *)
  li_results : ∀ r, r ∈ db_results (loop_db st) → res_deployment r = dep →
    res_status r = R_PENDING ∧ ∃ p rel, p ∈ loop_plans st ∧ plan_ok p ∧
      res_station r = st_pk (plan_station p) ∧ plan_release p = Some rel ∧ res_image r = rel_pk rel;
  li_plans : ∀ p, p ∈ loop_plans st → plan_ok p →
    ∃ r rel, r ∈ db_results (loop_db st) ∧ res_deployment r = dep ∧
      res_station r = st_pk (plan_station p) ∧ plan_release p = Some rel ∧ res_image r = rel_pk rel
}.

Lemma loop_inv_skip db dep st p audit :
  loop_inv db dep st → plan_ok p = false →
  loop_inv db dep (mkLoop (loop_db st) (loop_plans st ++ [p]) audit).
Proof.
  intros [Hc H1 Hl Hp Ht Ha Hr Hpl] Hnok. split; simpl; try done.
  - intros r Hr1 Hr2. destruct (Hr r Hr1 Hr2) as (? & p0 & rel & ? & ? & ? & ? & ?).
    split; [done|]. exists p0, rel. rewrite elem_of_app. auto 10.
  - intros p0 [Hp0| ->%list_elem_of_singleton]%elem_of_app Hok; [auto|by rewrite Hnok in Hok].
Qed.

(** Closing a station's other open results re-establishes the single open one. *)
Lemma single_after_supersede db db1 db2 (station dep now : Z) (r0 : DeploymentResult) :
  single_open db → db_results db1 = db_results db ++ [r0] →
  res_station r0 = station → res_deployment r0 = dep →
  (∀ x, x ∈ db_results db → res_deployment x = dep → res_station x ≠ station) →
  db_results db2 = update_where (superseded_by station dep) (supersede_row now) (db_results db1) →
  single_open db2.
Proof.
  intros H1 Hrs Hst Hdep Hu Hr2 r1 r2 Hin1 Hin2 Heq Ho1 Ho2.
  rewrite Hr2 in Hin1, Hin2.
  apply elem_of_update_where in Hin1 as (x1 & Hx1 & [[? ->]|[Hn1 ->]]); [done|].
  apply elem_of_update_where in Hin2 as (x2 & Hx2 & [[? ->]|[Hn2 ->]]); [done|].
  rewrite Hrs, elem_of_app, list_elem_of_singleton in Hx1, Hx2.
  assert (∀ x, x ∈ db_results db → res_station x = station → is_open (res_status x) →
    ¬ superseded_by station dep x → False) as Hold.
  { intros x Hx Hxs Hop Hns. apply Hns. split_and!; [done..|]. intros Hd. by apply (Hu x). }
  destruct Hx1 as [Hx1| ->], Hx2 as [Hx2| ->]; [by apply H1| | |done];
    exfalso; eauto using eq_trans.
Qed.

(** One iteration keeps the invariant; an OK plan whose station has no active
    result stays OK. *)
Lemma create_step_inv db req now dep st p st' :
  loop_inv db dep st → create_step req now dep st p = Ok st' →
  loop_inv db dep st' ∧
  ((∀ r, r ∈ db_results db → res_station r = st_pk (plan_station p) → ¬ is_active (res_status r)) →
    loop_plans st' = loop_plans st ++ [p]).
Proof.
  intros Hli. unfold create_step. destruct (plan_ok p) eqn:Hok; simpl.
  2: { intros [= <-]. split; [by apply loop_inv_skip|done]. }
  destruct Hli as [Hc H1 Hl Hp Ht Ha Hr Hpl].
  intros ([db1 pk] & Hins & Hrun)%obind_Ok.
  destruct (insert_result_core _ _ _ _ _ _ _ Hins Hc Hl Hp) as [Hc1 Hl1].
  pose proof Hins as (rel & r0 & Hrel & Hpk & Hrs & Hr0pk & Hr0d & Hr0s & Hr0st & Hr0i & Hu & Hds &
    Hgr & Hre & Hss & Hdq & Hrq)%insert_result_Ok.
  destruct (supersede_pending_for_station db1 (st_pk (plan_station p)) dep now) as [[db2 pks]|c] eqn:Hsup.
  - injection Hrun as <-. split; [|done].
    destruct (supersede_Ok _ _ _ _ _ _ _ Hc1 Hl1 Hsup) as (Hc2 & Hl2 & Hr2 & Hpend & Hnew & _).
    assert (∀ r, r ∈ db_results db2 → is_open (res_status r) ∨ res_deployment r = dep →
      r ∈ db_results (loop_db st) ∨ r = r0) as Hback.
    { intros r Hin Hor. rewrite Hr2 in Hin.
      apply elem_of_update_where in Hin as (x & Hx & [[Hs ->]|[Hs ->]]).
      - destruct Hs as (_ & _ & Hne). destruct Hor; simpl in *; done.
      - by rewrite Hrs, elem_of_app, list_elem_of_singleton in Hx. }
    assert (∀ r, r ∈ db_results db1 → res_deployment r = dep → r ∈ db_results db2) as Hfwd.
    { intros r Hin Hd. rewrite Hr2. apply elem_of_update_where. exists r. split; [done|].
      right. split; [|done]. intros (_ & _ & ?). done. }
    split; simpl; try done.
    + eapply single_after_supersede; eauto.
    + destruct Hp as (d & Hd & Hdpk & Hdst). exists d. rewrite <-Hds in Hd. auto.
    + intros r Hin Hterm. rewrite Hr2. apply elem_of_update_where. exists r. split.
      * rewrite Hrs, elem_of_app. auto.
      * right. split; [|done]. intros (_ & Hop & _). rewrite open_not_terminal in Hop.
        by destruct (is_terminal _).
    + intros r Hin Hact. destruct (Hback r Hin) as [Hin'| ->]; [left; by destruct (res_status r)|auto|].
      by rewrite Hr0st in Hact.
    + intros r Hin Hd. destruct (Hback r Hin) as [Hin'| ->]; [by right| |].
      * destruct (Hr r Hin' Hd) as (? & p0 & rel0 & ? & ?). split; [done|]. exists p0, rel0.
        rewrite elem_of_app. auto.
      * split; [done|]. exists p, rel. rewrite elem_of_app, list_elem_of_singleton, Hok. auto 10.
    + intros p0 [Hp0| ->%list_elem_of_singleton]%elem_of_app Hok0.
      * destruct (Hpl p0 Hp0 Hok0) as (r & rel0 & Hin & ? & ?). exists r, rel0. split; [|done].
        apply Hfwd; [|done]. rewrite Hrs, elem_of_app. by left.
      * exists r0, rel. split; [|done]. apply Hfwd; [|done].
        rewrite Hrs, elem_of_app, list_elem_of_singleton. by right.
  - injection Hrun as <-.
    apply supersede_Raise in Hsup as (x & Hx & Hs & Hact & ->). split.
    + assert (delete_where (λ r, res_pk r = pk) (db_results db1) = db_results (loop_db st)) as Hdel.
      { rewrite Hrs. apply delete_where_snoc; [|done]. intros y Hy.
        apply (core_res_seq _ Hc) in Hy. lia. }
      apply (loop_inv_skip _ _ (mkLoop _ _ [])); [|done]. split; simpl; rewrite ?Hdel, ?Hds; try done.
      destruct Hc as [Hn Hsq Hdn Hdsq Hpar Hopn]. split; simpl; rewrite ?Hds, ?Hdq; try done.
      intros r Hin. apply Hsq in Hin. lia.
    + intros Hno. exfalso. rewrite Hrs, elem_of_app, list_elem_of_singleton in Hx.
      destruct Hs as (Hs & _ & _). destruct Hx as [Hx| ->]; [|by rewrite Hr0st in Hact].
      apply (Hno x); [|done|by rewrite Hact]. apply Ha; [done|by rewrite Hact].
Qed.

Lemma fresh_deployment db req now db1 dep :
  db_inv db → insert_deployment now db req = (db1, dep) → loop_inv db dep (mkLoop db1 [] []).
Proof.
  intros ([Hn Hs Hdn Hdsq Hp Ho] & H1 & Hl) [= <- <-].
  assert (∀ r, r ∈ db_results db → res_deployment r ≠ db_deployment_seq db) as Hfresh.
  { intros r Hr Heq. destruct (Hp r Hr) as (d & Hd & Hpk). apply Hdsq in Hd. lia. }
  split; simpl; try done.
  - split; simpl; try done.
    + rewrite fmap_app, list.NoDup_app. split_and!; [done| |apply NoDup_singleton].
      intros x (d & -> & Hd)%list_elem_of_fmap. simpl. rewrite list_elem_of_singleton.
      apply Hdsq in Hd. lia.
    + intros d [Hd| ->%list_elem_of_singleton]%elem_of_app; [apply Hdsq in Hd|simpl]; lia.
    + intros r Hr. destruct (Hp r Hr) as (d & Hd & ?). exists d. by rewrite elem_of_app; auto.
    + intros r d Hr [Hd| ->%list_elem_of_singleton]%elem_of_app Heq Hop; [eauto|].
      simpl in Heq. by destruct (Hfresh r Hr).
  - intros d [Hd| ->%list_elem_of_singleton]%elem_of_app Hip HD; [|by destruct HD].
    destruct (Hl d Hd Hip) as (r & ?); [by intros []|]. by exists r.
  - eexists. rewrite elem_of_app, list_elem_of_singleton. split; [by right|done].
  - intros r Hr Heq. by destruct (Hfresh r Hr).
  - intros p Hp0. by apply not_elem_of_nil in Hp0.
Qed.

(** The plans of the transaction, before the result loop. *)
Definition locked_plans db req (plans0 : list StationPlan) : list StationPlan :=
  merge_plans req plans0
    (plan_deployment db (req_tag req) (req_channel req) (locked_stations db req plans0)).

Lemma locked_plans_ok db req plans0 p :
  p ∈ locked_plans db req plans0 → plan_ok p → plan_sound db (req_tag req) (req_channel req) p.
Proof. intros Hp Hok. eapply plan_ok_sound, Hok. by eapply merge_plans_ok. Qed.

(** The loop as a whole: the invariant, and every plan arrives unchanged. *)
Lemma create_loop db req now dep plans0 st0 st :
  loop_inv db dep st0 → loop_plans st0 = [] →
  ofold (create_step req now dep) st0
    (sort_by (st_pk ∘ plan_station) (locked_plans db req plans0)) = Ok st →
  loop_inv db dep st ∧ loop_plans st = sort_by (st_pk ∘ plan_station) (locked_plans db req plans0).
Proof.
  intros Hinv Hnil. apply (ofold_invariant (λ done _ st, loop_inv db dep st ∧ loop_plans st = done));
    [|done].
  intros done p rest s s' Hsplit [Hs Hdone] Hstep.
  destruct (create_step_inv db req now dep s p s') as [Hs' Hpl]; [done..|].
  split; [done|]. rewrite <-Hdone.
  destruct (plan_ok p) eqn:Hok.
  - apply Hpl. destruct (locked_plans_ok db req plans0 p) as (?&?&?&?&?&?&?&?&?&?&?);
      [|by rewrite Hok|done].
    rewrite <-(elem_of_sort_by (st_pk ∘ plan_station)), Hsplit. set_solver.
  - unfold create_step in Hstep. rewrite Hok in Hstep. simpl in Hstep. by injection Hstep as <-.
Qed.

(** Everything a successful transaction establishes. *)
Lemma create_locked_Ok db req now plans0 c :
  db_inv db → create_locked db req now plans0 = Ok c →
  db_inv (created_db c) ∧
  created_plans c ≡ₚ locked_plans db req plans0 ∧
  (∃ p, p ∈ created_plans c ∧ plan_ok p) ∧
  (∃ st, loop_inv db (created_dep c) st ∧ loop_plans st ≡ₚ created_plans c ∧
     db_results (created_db c) = db_results (loop_db st)) ∧
  (∃ d, d ∈ db_deployments (created_db c) ∧ dep_pk d = created_dep c ∧
     dep_status d = D_IN_PROGRESS ∧ skipped_stations d = skipped_of (created_plans c)).
Proof.
  intros Hinv. unfold create_locked. fold (locked_plans db req plans0).
  destruct (insert_deployment now db req) as [db1 dep] eqn:Hins.
  intros (st & Hloop & Hrun)%obind_Ok.
  destruct (create_loop db req now dep plans0 (mkLoop db1 [] []) st) as [Hli Hpl];
    [by eapply fresh_deployment|done|done|].
  case_decide as Hex; [|done]. injection Hrun as <-.
  set (final := sort_by (position (locked_plans db req plans0) ∘ st_pk ∘ plan_station) (loop_plans st)) in *.
  assert (final ≡ₚ loop_plans st) as Hfinal by apply sort_by_Permutation.
  apply list.Exists_exists in Hex as (p & Hp & Hok).
  destruct Hli as [Hc H1 Hl Hpar Ht Ha Hr Hplr].
  assert (live_except (λ _, False) (loop_db st)) as Hlive.
  { intros d Hd Hip _. destruct (decide (dep_pk d = dep)) as [->|Hne]; [|by apply Hl].
    destruct (Hplr p) as (r & ? & Hin & Hd' & _); [by rewrite <-Hfinal|done|].
    exists r. split_and!; [done|done|]. by rewrite (proj1 (Hr r Hin Hd')). }
  simpl. split_and!.
  - case_decide; [by split_and!|]. destruct (relabel_deployments_inv (λ d, dep_pk d = dep)
      (λ d, dep_set_skipped (skipped_of final) now (snapshot_group_name (loop_db st) d))
      (loop_db st) (λ _, False)) as [? ?]; [|done|done|by split_and!].
    intros d. simpl. split; [apply snapshot_group_name_pk|]. unfold snapshot_group_name.
    by split_cases.
  - rewrite Hfinal, Hpl. apply sort_by_Permutation.
  - by exists p.
  - exists st. split_and!; [done|by rewrite Hfinal|]. by case_decide.
  - destruct Hpar as (d & Hd & Hpk & Hst & Hsk0). case_decide as Hsk.
    + exists d. split_and!; try done. by rewrite Hsk.
    + eexists. split; [simpl; apply elem_of_update_where; exists d; split; [done|left; done]|].
      simpl. rewrite snapshot_group_name_pk. split_and!; try done.
      unfold snapshot_group_name. by split_cases.
Qed.

End create_lemmas.

(** ** Properties *)

(** A concrete fleet for the witnesses: one release per machine, two stations,
    the first with a result queued by deployment 1. *)
Module Fleet.

Definition rel_old : ImageRelease :=
  mkRelease 1 "2026.01.01-01" "rpi" "release" "k" "h" (Some 10) false 100 None.
Definition rel_new : ImageRelease :=
  mkRelease 2 "2026.02.01-01" "rpi" "release" "k2" "h2" (Some 12) true 200 None.
Definition row1 : StationRow := mkStationRow 1 "alpha" None (Some 1) "2026.01.01-01" 0.
Definition row2 : StationRow := mkStationRow 2 "beta" None None "" 0.
Definition dep1 : Deployment :=
  mkDeployment 1 "2026.01.15-01" "release" [] T_ALL None "" None IMMEDIATE [] D_IN_PROGRESS None 5 5.
Definition res1 : DeploymentResult := mkResult 1 1 1 1 R_PENDING None None (ET_Raw "") "" "".
Definition db : DB := mkDB [] [rel_old; rel_new] [row1; row2] [dep1] [res1] 2 2.
Definition req : CreateRequest :=
  mkCreate "2026.02.01-01" "release" T_ALL None None None None IMMEDIATE [] true.

End Fleet.

Lemma fleet_db_inv : db_inv Fleet.db.
Proof.
  split_and!.
  - split; simpl; try (apply NoDup_singleton).
    + intros r ->%list_elem_of_singleton. done.
    + intros d ->%list_elem_of_singleton. done.
    + intros r ->%list_elem_of_singleton. exists Fleet.dep1. by rewrite list_elem_of_singleton.
    + by intros r d ->%list_elem_of_singleton ->%list_elem_of_singleton.
  - by intros r1 r2 ->%list_elem_of_singleton ->%list_elem_of_singleton.
  - intros d ->%list_elem_of_singleton _ _. exists Fleet.res1.
    split_and!; [by apply list_elem_of_singleton|done..].
Qed.

(** Creating a deployment accounts for every station of the target: the
    plans cover exactly the requested stations, an OK plan has exactly one
    [PENDING] result pinned to a non-archived, OTA-ready release of the
    requested version for the station's own machine, no other station gets a
    result, and every station that is not served is in [skipped_stations]. *)
Lemma create_accounts_for_every_station db0 db req now c :
  db_inv db → create_deployment db0 db req now = Ok c →
  (st_pk ∘ plan_station <$> created_plans c) ≡ₚ (st_pk <$> requested_stations db0 req) ∧
  (∀ p, p ∈ created_plans c → plan_ok p → ∃ r cur rel,
    r ∈ db_results (created_db c) ∧ res_deployment r = created_dep c ∧
    res_station r = st_pk (plan_station p) ∧ res_status r = R_PENDING ∧ res_image r = rel_pk rel ∧
    st_current (plan_station p) = Some cur ∧ machine rel = machine cur ∧
    tag rel = req_tag req ∧ channel rel = req_channel req ∧ archived_at rel = None ∧
    is_ota_ready rel = true) ∧
  (∀ r, r ∈ db_results (created_db c) → res_deployment r = created_dep c →
    ∃ p, p ∈ created_plans c ∧ plan_ok p ∧ res_station r = st_pk (plan_station p)) ∧
  (∃ d, d ∈ db_deployments (created_db c) ∧ dep_pk d = created_dep c ∧
    skipped_stations d = skipped_of (created_plans c)).
Proof.
  intros Hinv Hok. unfold create_deployment in Hok. case_decide; [|done].
  set (plans0 := plan_deployment db0 _ _ _) in *.
  destruct (create_locked_Ok _ _ _ _ _ Hinv Hok) as (_ & Hpl & _ & (st & Hli & Hst & Hrs) & Hdep).
  destruct Hli as [Hc H1 Hl Hpar Ht Ha Hr Hplr]. split_and!.
  - rewrite Hpl. unfold locked_plans. rewrite merge_plans_stations. unfold plans0.
    by rewrite list_fmap_compose, plan_deployment_stations.
  - intros p Hp Hpok. destruct (locked_plans_ok db req plans0 p) as
      (cur & rel & Hcur & Hrel & _ & Harch & Htag & Hch & Hm & Hota & _); [by rewrite <-Hpl|done|].
    destruct (Hplr p) as (r & rel' & Hin & Hd & Hs & Hrel' & Hi); [by rewrite Hst|done|].
    simplify_eq. destruct (Hr r Hin Hd) as [Hpend _].
    exists r, cur, rel. rewrite Hrs. by split_and!.
  - intros r Hr' Hd. rewrite Hrs in Hr'. destruct (Hr r Hr' Hd) as (_ & p & rel & Hp & ? & ? & _).
    exists p. rewrite <-Hst. done.
  - destruct Hdep as (d & ? & ? & _ & ?). by exists d.
Qed.

Lemma create_accounts_for_every_station_witness :
  ∃ c, create_deployment Fleet.db Fleet.db Fleet.req 7 = Ok c ∧
    (st_pk ∘ plan_station <$> created_plans c) ≡ₚ [1; 2] ∧
    ∃ d, d ∈ db_deployments (created_db c) ∧ dep_pk d = 2 ∧
      skipped_stations d = [mkSkip 2 "beta" SKIP_NO_PLATFORM PM_PlatformUnknown].
Proof.
  eexists. split; [vm_compute; reflexivity|].
  match goal with |- context [created_plans ?c] =>
    destruct (create_accounts_for_every_station Fleet.db Fleet.db Fleet.req 7 c fleet_db_inv)
      as (Hp & _ & _ & Hd); [vm_compute; reflexivity|]
  end.
  split; [exact Hp|exact Hd].
Defined.

(** The plan made under the row locks is the outcome: creation never runs
    into [ActiveDeploymentConflictError], and the final plans are the locked
    plans, in some order. *)
Lemma create_outcome_is_the_locked_plan db req now plans0 c :
  db_inv db → create_locked db req now plans0 = Ok c →
  created_plans c ≡ₚ locked_plans db req plans0 ∧
  ∀ p, p ∈ created_plans c → plan_ok p →
    ∀ r, r ∈ db_results db → res_station r = st_pk (plan_station p) → ¬ is_active (res_status r).
Proof.
  intros Hinv Hok. destruct (create_locked_Ok _ _ _ _ _ Hinv Hok) as (_ & Hpl & _). split; [done|].
  intros p Hp Hpok. rewrite Hpl in Hp.
  by destruct (locked_plans_ok db req plans0 p Hp Hpok) as (?&?&?&?&?&?&?&?&?&?&?).
Qed.

Lemma create_outcome_is_the_locked_plan_witness :
  let plans0 := plan_deployment Fleet.db "2026.02.01-01" "release"
    (requested_stations Fleet.db Fleet.req) in
  ∃ c, create_locked Fleet.db Fleet.req 7 plans0 = Ok c ∧
    created_plans c ≡ₚ locked_plans Fleet.db Fleet.req plans0.
Proof.
  eexists. split; [vm_compute; reflexivity|].
  apply (create_outcome_is_the_locked_plan Fleet.db Fleet.req 7 _ _ fleet_db_inv).
  vm_compute. reflexivity.
Defined.
