(* ===== verification/DeploymentApi.v ===== *)
(** * Agent and operator endpoints of a deployment

    Models the handlers of [apps/deployments/api_views.py] (check, status
    update, commit), the request validation of
    [apps/deployments/serializers.py] and [DeploymentCancelView] of
    [apps/deployments/views.py], each as a function from the database state to
    the next state, the response and the audit entries it writes; then the
    transition relation of all writers, with its invariants.

    [audit_ok]/[station]: the audit write is best effort (it may fail without
    an effect), and [station] is the station of the authenticated device key,
    if it has one. *)

From Stdlib Require Import ZArith Lia.
From stdpp Require Import base gmap list strings.
From S2P Require Import Prelude Images Targeting Deployments DeploymentService.

Local Open Scope Z_scope.

(** ** Responses *)

Inductive Body :=
| B_Empty
| B_Detail
| B_StatusOk
| B_Check (result deployment : Z) (status : ResultStatus) (target_tag sha256 : string)
    (size : option Z).

Record Response := mkResponse { code : Z; body : Body }.

Inductive ApiAudit :=
| A_Status (station deployment : Z) (status : ResultStatus)
| A_CommitRejected (station deployment : Z) (reported expected : string)
| A_Committed (station deployment : Z) (previous version : string).

Record ApiResult := mkApi { api_db : DB; api_response : Response; api_audit : list ApiAudit }.

Definition reject (db : DB) (c : Z) : ApiResult := mkApi db (mkResponse c B_Detail) [].

Definition best_effort (ok : bool) (a : ApiAudit) : list ApiAudit := if ok then [a] else [].

(** ** [DeploymentCheckView.post] *)

(** [order_by("-deployment__created_at", ...)] *)
Definition created_at_of (db : DB) (r : DeploymentResult) : Z :=
  match find_deployment db (res_deployment r) with Some d => created_at d | None => 0 end.

Definition deployment_in_progress (db : DB) (r : DeploymentResult) : bool :=
  match find_deployment db (res_deployment r) with
  | Some d => bool_decide (dep_status d = D_IN_PROGRESS)
  | None => false
  end.

Definition check_candidates (db : DB) (station : Z) : list DeploymentResult :=
  sort_by2 (λ r, - created_at_of db r) (λ r, - res_pk r)
    (filter (λ r, res_station r = station ∧ is_open (res_status r) ∧ deployment_in_progress db r)
       (db_results db)).

(** [current_version] is optional, at most 100 characters. *)
Definition check_view (db : DB) (station : option Z) (current_version : string) : Response :=
  match station with
  | None => mkResponse 404 B_Detail
  | Some s =>
    if decide (100 < Z.of_nat (String.length current_version)) then mkResponse 400 B_Detail
    else
      match head (check_candidates db s) with
      | None => mkResponse 204 B_Empty
      | Some r =>
        match find_release db (res_image r) with
        | None => mkResponse 500 B_Empty
        | Some image =>
          if is_ota_ready image then
            mkResponse 200 (B_Check (res_pk r) (res_deployment r) (res_status r) (tag image)
              (rootfs_sha256 image) (rootfs_size_bytes image))
          else mkResponse 204 B_Empty
        end
      end
  end.

(** ** [DeploymentStatusUpdateView.post] *)

(** [DeploymentStatusUpdateSerializer.status] *)
Definition reportable (s : ResultStatus) : bool :=
  match s with
  | R_DOWNLOADING | R_INSTALLING | R_REBOOTING | R_VERIFYING | R_FAILED | R_ROLLED_BACK => true
  | _ => false
  end.

Definition is_failure (s : ResultStatus) : bool :=
  match s with R_FAILED | R_ROLLED_BACK => true | _ => false end.

(** The columns an accepted report writes. *)
Definition apply_report (new_status : ResultStatus) (err : string) (now : Z) (r : DeploymentResult)
  : DeploymentResult :=
  let r1 := res_set_status new_status r in
  let r2 := match started_at r1 with None => res_set_started (Some now) r1 | Some _ => r1 end in
  if is_failure new_status then res_set_error (ET_Raw err) (res_set_completed now r2) else r2.

Definition status_update_view (db : DB) (station : option Z) (pk : Z) (new_status : ResultStatus)
    (err : string) (now : Z) (audit_ok : bool) : ApiResult :=
  match station with
  | None => reject db 404
  | Some s =>
    if negb (reportable new_status) then reject db 400
    else
      match list_find (λ r, res_pk r = pk ∧ res_station r = s) (db_results db) with
      | None => reject db 404
      | Some (_, r) =>
        if is_terminal (res_status r) then reject db 409
        else
          match find_deployment db (res_deployment r) with
          | None => reject db 500
          | Some d =>
            if negb (dep_open (dep_status d)) then reject db 409
            else
              let db1 := set_results
                (update_where (λ x, res_pk x = pk) (apply_report new_status err now) (db_results db)) db in
              let db2 := if is_failure new_status
                then check_deployment_complete now db1 (res_deployment r) else db1 in
              mkApi db2 (mkResponse 200 B_StatusOk)
                (best_effort audit_ok (A_Status s (res_deployment r) new_status))
          end
      end
  end.

(** ** [DeploymentCommitView.post] *)

Definition committable (s : ResultStatus) : bool :=
  match s with R_REBOOTING | R_VERIFYING | R_INSTALLING => true | _ => false end.

Definition commit_candidates (db : DB) (station : Z) : list DeploymentResult :=
  sort_by (λ r, - created_at_of db r)
    (filter (λ r, res_station r = station ∧ committable (res_status r)) (db_results db)).

Definition station_set_release (rel now : Z) (s : StationRow) : StationRow :=
  mkStationRow (sr_pk s) (sr_name s) (sr_group s) (Some rel) (sr_os_version s) now.

(** The handler reads the result without a lock: [db0] is the state its lookup
    saw, [db] the state its writes go to. *)
Definition commit_view (db0 db : DB) (station : option Z) (version : string) (now : Z) (audit_ok : bool)
  : ApiResult :=
  match station with
  | None => reject db 404
  | Some s =>
    if decide (version = "" ∨ 100 < Z.of_nat (String.length version)) then reject db 400
    else
      match head (commit_candidates db0 s) with
      | None => reject db 404
      | Some r =>
        match find_release db0 (res_image r) with
        | None => reject db 500
        | Some image =>
          if decide (version ≠ tag image) then
            let db1 := set_results
              (update_where (λ x, res_pk x = res_pk r)
                 (λ x, res_set_error (ET_CommitMismatch version (tag image))
                    (res_set_new_version version (res_set_completed now (res_set_status R_ROLLED_BACK x))))
                 (db_results db)) db in
            mkApi (check_deployment_complete now db1 (res_deployment r)) (mkResponse 409 B_Detail)
              (best_effort audit_ok (A_CommitRejected s (res_deployment r) version (tag image)))
          else
            let db1 := set_results
              (update_where (λ x, res_pk x = res_pk r)
                 (λ x, res_set_new_version version (res_set_completed now (res_set_status R_SUCCESS x)))
                 (db_results db)) db in
            let db2 := set_stations
              (update_where (λ x, sr_pk x = s) (station_set_release (res_image r) now) (db_stations db1)) db1 in
            mkApi (check_deployment_complete now db2 (res_deployment r)) (mkResponse 200 B_StatusOk)
              (best_effort audit_ok (A_Committed s (res_deployment r) (previous_version r) version))
        end
      end
  end.

(** ** [DeploymentCancelView.post] *)

Inductive CancelOutcome := Cancelled | CannotCancel | CancelNotFound.

Definition cancel_row (now : Z) (r : DeploymentResult) : DeploymentResult :=
  res_set_error (ET_Raw "Parent deployment was cancelled.")
    (res_set_completed now (res_set_status R_CANCELLED r)).

(** [db0] is what the unlocked first read saw, [db] the state under the locks. *)
Definition cancel_view (db0 db : DB) (pk now : Z) : DB * CancelOutcome :=
  match find_deployment db0 pk with
  | None => (db, CancelNotFound)
  | Some d0 =>
    if negb (dep_open (dep_status d0)) then (db, CannotCancel)
    else
      match find_deployment db pk with
      | None => (db, CancelNotFound)
      | Some d =>
        if negb (dep_open (dep_status d)) then (db, CannotCancel)
        else
          let db1 := set_deployments
            (update_where (λ x, dep_pk x = pk)
               (λ x, dep_set_status D_CANCELLED now (snapshot_group_name db x)) (db_deployments db)) db in
          (set_results
             (update_where (λ r, res_deployment r = pk ∧ is_open (res_status r)) (cancel_row now)
                (db_results db1)) db1, Cancelled)
      end
  end.

(** ** All writers

    One step is one handler run; [step_commit] is a commit whose lookup and
    writes no other writer separates (what the unlocked handler allows beyond
    that is [commit_race_reopens_cancelled] below). *)

Inductive deployment_step : DB → DB → Prop :=
| step_create db0 db req now c :
    create_deployment db0 db req now = Ok c → deployment_step db (created_db c)
| step_status db station pk s err now audit_ok :
    deployment_step db (api_db (status_update_view db station pk s err now audit_ok))
| step_commit db station version now audit_ok :
    deployment_step db (api_db (commit_view db db station version now audit_ok))
| step_cancel db0 db pk now :
    deployment_step db (cancel_view db0 db pk now).1.

(** ** Lemmas *)

Section proofs.
Implicit Types (db : DB) (r : DeploymentResult).

Lemma report_closing P new_status err now :
  (∀ r, P r → is_open (res_status r)) → closing P (apply_report new_status err now).
Proof.
  intros HP r Hr. unfold apply_report.
  destruct (started_at _), (is_failure new_status); simpl; split_and!; auto.
Qed.

Lemma apply_report_status new_status err now r :
  res_status (apply_report new_status err now r) = new_status.
Proof. unfold apply_report. by destruct (started_at _), (is_failure new_status). Qed.

(** Closing a single result and rolling its deployment up keeps the invariant. *)
Lemma close_one_inv db r f now :
  db_inv db → r ∈ db_results db → is_open (res_status r) →
  closing (λ x, x = r) f →
  let db1 := set_results (update_where (λ x, res_pk x = res_pk r) f (db_results db)) db in
  db_inv (check_deployment_complete now db1 (res_deployment r)) ∧
  (is_open (res_status (f r)) → db_inv db1).
Proof.
  intros (Hc & H1 & Hl) Hr Hop Hf db1.
  assert (db_results db1 = update_where (λ x, x = r) f (db_results db)) as Hrs.
  { simpl. apply update_where_ext. intros x Hx. split; [|by intros ->].
    by apply (result_pk_inj db). }
  assert (db1 = set_results (update_where (λ x, x = r) f (db_results db)) db) as Hdb1
    by (unfold db1; f_equal; done).
  assert (db_core db1) as Hc1 by (rewrite Hdb1; by apply close_results_core).
  assert (single_open db1) as H11 by (rewrite Hdb1; by apply close_results_single).
  assert (∀ D, (is_open (res_status (f r)) ∨ D (res_deployment r)) → live_except D db1) as Hl1.
  { intros D HD. rewrite Hdb1.
    eapply live_except_weaken; [|apply (close_results_live (λ x, x = r) f (λ _, False)); [|exact Hl]].
    - simpl. intros i [[]|(x & _ & -> & <- & _ & Hno)]. naive_solver.
    - intros x ->. by apply Hf. }
  split.
  - destruct (check_complete_inv now db1 (res_deployment r) (λ _, False)) as [Hc2 Hl2];
      [done|apply Hl1; naive_solver|].
    split_and!; [done| |done]. intros r1 r2. unfold check_deployment_complete. case_decide; apply H11.
  - intros Hfo. split_and!; [done..|]. apply Hl1. by left.
Qed.

Lemma status_update_inv db station pk s err now audit_ok :
  db_inv db → db_inv (api_db (status_update_view db station pk s err now audit_ok)).
Proof.
  intros Hinv. unfold status_update_view. destruct station as [st|]; [|done].
  destruct (reportable s) eqn:Hrep; [|done]. simpl.
  destruct (list_find _ _) as [[i r]|] eqn:Hf; [|done].
  apply list_find_Some in Hf as (Hi & [<- <-] & _). apply list_elem_of_lookup_2 in Hi.
  destruct (is_terminal (res_status r)) eqn:Hterm; [done|].
  destruct (find_deployment db (res_deployment r)) as [d|]; [|done].
  destruct (dep_open (dep_status d)); [|done]. simpl.
  assert (is_open (res_status r)) as Hop by (by rewrite open_not_terminal, Hterm).
  destruct (close_one_inv db r (apply_report s err now) now) as [Hcl Hst]; try done.
  { apply report_closing. by intros ? ->. }
  destruct (is_failure s) eqn:Hfail; [done|]. apply Hst. rewrite apply_report_status.
  by destruct s.
Qed.

(** The stations table is not part of the invariant. *)
Lemma set_stations_inv ss db : db_inv db → db_inv (set_stations ss db).
Proof. intros (Hc & H1 & Hl). split_and!; [|exact H1|exact Hl]. destruct Hc. by split. Qed.

Lemma check_complete_set_stations now ss db dep :
  check_deployment_complete now (set_stations ss db) dep =
  set_stations ss (check_deployment_complete now db dep).
Proof.
  unfold check_deployment_complete.
  change (open_children (set_stations ss db) dep) with (open_children db dep). by case_decide.
Qed.

Lemma commit_inv db station version now audit_ok :
  db_inv db → db_inv (api_db (commit_view db db station version now audit_ok)).
Proof.
  intros Hinv. unfold commit_view. destruct station as [s|]; [|done]. case_decide; [done|].
  destruct (head (commit_candidates db s)) as [r|] eqn:Hhd; [|done].
  apply head_elem_of in Hhd. unfold commit_candidates in Hhd.
  apply elem_of_sort_by, list_elem_of_filter in Hhd as [[_ Hcm] Hr].
  assert (is_open (res_status r)) as Hop by by destruct (res_status r).
  destruct (find_release db (res_image r)) as [image|]; [|done]. case_decide; simpl.
  - apply close_one_inv; [done..|]. by intros x ->.
  - rewrite check_complete_set_stations. apply set_stations_inv.
    apply close_one_inv; [done..|]. by intros x ->.
Qed.

Lemma cancel_closing pk now :
  closing (λ r, res_deployment r = pk ∧ is_open (res_status r)) (cancel_row now).
Proof. by intros r _. Qed.

Lemma find_deployment_Some db pk d :
  find_deployment db pk = Some d → d ∈ db_deployments db ∧ dep_pk d = pk.
Proof.
  unfold find_deployment. destruct (list_find _ _) as [[i x]|] eqn:Hf; [|done].
  intros [= <-]. apply list_find_Some in Hf as (Hi & ? & _). by apply list_elem_of_lookup_2 in Hi.
Qed.

Lemma cancel_inv db0 db pk now : db_inv db → db_inv (cancel_view db0 db pk now).1.
Proof.
  intros (Hc & H1 & Hl). unfold cancel_view.
  destruct (find_deployment db0 pk) as [d0|]; [|done].
  destruct (dep_open (dep_status d0)); [|done]. simpl.
  destruct (find_deployment db pk) as [d|] eqn:Hfind; [|done].
  destruct (dep_open (dep_status d)) eqn:Hopen; [|done]. simpl.
  set (db1 := set_deployments _ db).
  (* the two updates commute: close the children first, then the parent *)
  set (P := λ r, res_deployment r = pk ∧ is_open (res_status r)).
  set (db2 := set_results (update_where P (cancel_row now) (db_results db)) db).
  assert (db_core db2) as Hc2 by (apply close_results_core; [apply cancel_closing|done]).
  assert (single_open db2) as H2 by (apply close_results_single; [apply cancel_closing|done]).
  assert (¬ has_open_child db2 pk) as Hno.
  { intros (r & Hr & Hd & Hop). apply elem_of_update_where in Hr as (x & Hx & [[_ ->]|[Hn ->]]); [done|].
    by apply Hn. }
  assert (live_except (λ i, False ∨ i = pk) db2) as Hl2.
  { eapply live_except_weaken; [|apply (close_results_live P (cancel_row now) (λ _, False)); done].
    intros i [?|(r & _ & [? _] & ? & _)]; [done|right; congruence]. }
  pose (g := λ x, dep_set_status D_CANCELLED now (snapshot_group_name db x)).
  assert (∀ x, dep_pk (g x) = dep_pk x) as Hg by (intros x; apply snapshot_group_name_pk).
  assert (db_core (set_deployments (update_where (λ x, dep_pk x = pk) g (db_deployments db2)) db2)) as Hc3
    by (by apply (finish_deployment_core _ _ _ pk)).
  assert (live_except (λ _, False)
    (set_deployments (update_where (λ x, dep_pk x = pk) g (db_deployments db2)) db2)) as Hl3
    by (by apply (finish_deployment_live _ _ _ _ pk)).
  split_and!; [exact Hc3|exact H2|exact Hl3].
Qed.

Lemma deployment_step_inv db db' : deployment_step db db' → db_inv db → db_inv db'.
Proof.
  intros [db0 db1 req now c Hok|??????|????|????] Hinv.
  - unfold create_deployment in Hok. case_decide; [|done].
    by destruct (create_locked_Ok _ _ _ _ _ Hinv Hok) as [? _].
  - by apply status_update_inv.
  - by apply commit_inv.
  - by apply cancel_inv.
Qed.

End proofs.

#[export] Hint Resolve status_update_inv commit_inv cancel_inv deployment_step_inv : tables.

Section finality.
Implicit Types (db : DB) (r : DeploymentResult).

Definition keeps_terminal db db' : Prop :=
  ∀ r, r ∈ db_results db → is_terminal (res_status r) → r ∈ db_results db'.

Lemma keeps_terminal_refl db : keeps_terminal db db.
Proof. by intros r. Qed.

(** Updating open rows only leaves the terminal ones alone. *)
Lemma update_open_keeps_terminal (P : DeploymentResult → Prop) `{∀ r, Decision (P r)} f db db' :
  (∀ r, r ∈ db_results db → P r → is_open (res_status r)) →
  db_results db' = update_where P f (db_results db) → keeps_terminal db db'.
Proof.
  intros HP Hrs r Hr Hterm. rewrite Hrs. apply elem_of_update_where. exists r. split; [done|].
  right. split; [|done]. intros Hpr. specialize (HP r Hr Hpr). rewrite open_not_terminal in HP.
  by destruct (is_terminal _).
Qed.

(** One row, selected by its pk. *)
Lemma update_one_keeps_terminal f db db' r0 :
  db_core db → r0 ∈ db_results db → is_open (res_status r0) →
  db_results db' = update_where (λ r, res_pk r = res_pk r0) f (db_results db) →
  keeps_terminal db db'.
Proof.
  intros Hc Hr0 Hop. apply update_open_keeps_terminal. intros r Hr Hpk.
  by rewrite (result_pk_inj db r r0).
Qed.

Lemma check_complete_results now db dep :
  db_results (check_deployment_complete now db dep) = db_results db.
Proof. unfold check_deployment_complete. by case_decide. Qed.

Lemma status_update_terminal db station pk s err now audit_ok :
  db_inv db → keeps_terminal db (api_db (status_update_view db station pk s err now audit_ok)).
Proof.
  intros (Hc & _). unfold status_update_view. destruct station as [st|]; [|by intros ?].
  destruct (reportable s); [|by intros ?]. simpl.
  destruct (list_find _ _) as [[i r]|] eqn:Hf; [|by intros ?].
  apply list_find_Some in Hf as (Hi & [<- <-] & _). apply list_elem_of_lookup_2 in Hi.
  destruct (is_terminal (res_status r)) eqn:Hterm; [by intros ?|].
  destruct (find_deployment db (res_deployment r)) as [d|]; [|by intros ?].
  destruct (dep_open (dep_status d)); [|by intros ?]. simpl.
  apply (update_one_keeps_terminal (apply_report s err now) _ _ r); [done..| |].
  - by rewrite open_not_terminal, Hterm.
  - by destruct (is_failure s); rewrite ?check_complete_results.
Qed.

Lemma commit_terminal db station version now audit_ok :
  db_inv db → keeps_terminal db (api_db (commit_view db db station version now audit_ok)).
Proof.
  intros (Hc & _). unfold commit_view. destruct station as [s|]; [|by intros ?]. case_decide; [by intros ?|].
  destruct (head (commit_candidates db s)) as [r|] eqn:Hhd; [|by intros ?].
  apply head_elem_of in Hhd. unfold commit_candidates in Hhd.
  apply elem_of_sort_by, list_elem_of_filter in Hhd as [[_ Hcm] Hr].
  assert (is_open (res_status r)) as Hop by by destruct (res_status r).
  destruct (find_release db (res_image r)) as [image|]; [|by intros ?].
  case_decide; simpl; (eapply (update_one_keeps_terminal _ _ _ r); [done..|]);
    by rewrite check_complete_results.
Qed.

Lemma cancel_terminal db0 db pk now : keeps_terminal db (cancel_view db0 db pk now).1.
Proof.
  unfold cancel_view.
  destruct (find_deployment db0 pk) as [d0|]; [|by intros ?]. destruct (dep_open (dep_status d0)); [|by intros ?].
  destruct (find_deployment db pk) as [d|]; [|by intros ?]. destruct (dep_open (dep_status d)); [|by intros ?].
  eapply update_open_keeps_terminal; [|reflexivity]. by intros r _ [_ ?].
Qed.

Lemma deployment_step_terminal db db' : deployment_step db db' → db_inv db → keeps_terminal db db'.
Proof.
  intros [db0 db1 req now c Hok|??????|????|????] Hinv.
  - unfold create_deployment in Hok. case_decide; [|done].
    destruct (create_locked_Ok _ _ _ _ _ Hinv Hok) as (_ & _ & _ & (st & Hli & _ & Hrs) & _).
    intros r Hr Hterm. rewrite Hrs. by apply (li_terminal _ _ _ Hli).
  - by apply status_update_terminal.
  - by apply commit_terminal.
  - by apply cancel_terminal.
Qed.

Lemma deployment_steps_inv db db' : rtc deployment_step db db' → db_inv db → db_inv db'.
Proof. induction 1; eauto with tables. Qed.

End finality.

(** ** Properties *)

(** A database with a fleet but no deployments yet. *)
Definition initial_db (groups : list RolloutGroup) (releases : list ImageRelease)
    (stations : list StationRow) : DB :=
  mkDB groups releases stations [] [] 1 1.

Lemma initial_db_inv groups releases stations : db_inv (initial_db groups releases stations).
Proof.
  split_and!.
  - split; simpl; try (by constructor); intros x; intros; by destruct (not_elem_of_nil x).
  - intros r1 r2 H. by apply not_elem_of_nil in H.
  - intros d H. by apply not_elem_of_nil in H.
Qed.

(** C1. Whatever sequence of creations, agent reports, commits and cancels
    runs from a database without deployments: a station never has two open
    results, an [IN_PROGRESS] deployment always still has an open result
    (none is stuck), and an open result never sits under a finished or
    cancelled deployment (no orphan blocks its station). *)
Theorem deployments_invariant groups releases stations db :
  rtc deployment_step (initial_db groups releases stations) db →
  (∀ r1 r2, r1 ∈ db_results db → r2 ∈ db_results db → res_station r1 = res_station r2 →
    is_open (res_status r1) → is_open (res_status r2) → r1 = r2) ∧
  (∀ d, d ∈ db_deployments db → dep_status d = D_IN_PROGRESS →
    ∃ r, r ∈ db_results db ∧ res_deployment r = dep_pk d ∧ is_open (res_status r)) ∧
  (∀ r d, r ∈ db_results db → d ∈ db_deployments db → dep_pk d = res_deployment r →
    is_open (res_status r) → dep_status d = D_PENDING ∨ dep_status d = D_IN_PROGRESS).
Proof.
  intros Hrun. destruct (deployment_steps_inv _ _ Hrun) as (Hc & H1 & Hl); [apply initial_db_inv|].
  split_and!.
  - intros r1 r2 ? ? ? ? ?. apply (result_pk_inj db); auto.
  - intros d Hd Hip. by apply Hl; [..|intros []].
  - intros r d Hr Hd Heq Hop. pose proof (core_open _ Hc r d Hr Hd Heq Hop) as Ho.
    destruct (dep_status d); auto; done.
Qed.

(** The deployment the witnesses run: create, then report [FAILED]. *)
Definition demo_initial : DB := initial_db [] [Fleet.rel_old; Fleet.rel_new] [Fleet.row1; Fleet.row2].
Definition demo_created : option DB :=
  match create_deployment demo_initial demo_initial Fleet.req 7 with
  | Ok c => Some (created_db c)
  | Raise _ => None
  end.
Definition demo_db : DB := Eval vm_compute in default demo_initial demo_created.

Lemma deployments_invariant_witness :
  rtc deployment_step demo_initial demo_db ∧
  (∀ r1 r2, r1 ∈ db_results demo_db → r2 ∈ db_results demo_db → res_station r1 = res_station r2 →
    is_open (res_status r1) → is_open (res_status r2) → r1 = r2) ∧ length (db_results demo_db) = 1%nat.
Proof.
  assert (rtc deployment_step demo_initial demo_db) as Hrun.
  { eapply rtc_once. eapply (step_create demo_initial demo_initial Fleet.req 7 (mkCreated demo_db _ _ _)).
    vm_compute. reflexivity. }
  split_and!; [exact Hrun| |reflexivity].
  exact (proj1 (deployments_invariant [] [Fleet.rel_old; Fleet.rel_new] [Fleet.row1; Fleet.row2] demo_db Hrun)).
Defined.

(** Terminal means terminal: no creation, report, commit or cancel ever
    changes or removes a result whose status is SUCCESS, FAILED, ROLLED_BACK,
    CANCELLED or SUPERSEDED. *)
Lemma terminal_results_are_final db db' r :
  db_inv db → deployment_step db db' →
  r ∈ db_results db → is_terminal (res_status r) → r ∈ db_results db'.
Proof. intros Hinv Hstep. by apply deployment_step_terminal. Qed.

Definition demo_failed : DB := Eval vm_compute in
  api_db (status_update_view demo_db (Some 1) 1 R_FAILED "boom" 9 true).

Lemma demo_db_inv : db_inv demo_db.
Proof.
  eapply (deployment_step_inv demo_initial); [|apply initial_db_inv].
  eapply (step_create demo_initial demo_initial Fleet.req 7 (mkCreated demo_db _ _ _)).
  vm_compute. reflexivity.
Qed.

Lemma demo_failed_inv : db_inv demo_failed.
Proof.
  assert (demo_failed = api_db (status_update_view demo_db (Some 1) 1 R_FAILED "boom" 9 true)) as ->
    by (vm_compute; reflexivity).
  apply status_update_inv, demo_db_inv.
Qed.

Lemma terminal_results_are_final_witness :
  ∃ r, r ∈ db_results demo_failed ∧ res_status r = R_FAILED ∧
    r ∈ db_results (cancel_view demo_failed demo_failed 1 11).1.
Proof.
  destruct (db_results demo_failed) as [|r l] eqn:Hr; [vm_compute in Hr; discriminate|].
  exists r. split_and!; [apply list_elem_of_here|vm_compute in Hr; by injection Hr as <- _|].
  eapply (terminal_results_are_final demo_failed); [exact demo_failed_inv|apply step_cancel| |].
  - rewrite Hr. apply list_elem_of_here.
  - vm_compute in Hr. injection Hr as <- _. exact I.
Defined.

Lemma check_complete_stations now db dep :
  db_stations (check_deployment_complete now db dep) = db_stations db.
Proof. unfold check_deployment_complete. by case_decide. Qed.

(** The row a commit acted on, in the state it leaves. *)
Definition commit_outcome (db : DB) (out : ApiResult) (s : Z) (version : string) (r r' : DeploymentResult)
    (image : ImageRelease) (st : ResultStatus) : Prop :=
  r ∈ db_results db ∧ res_station r = s ∧ committable (res_status r) ∧
  find_release db (res_image r) = Some image ∧
  r' ∈ db_results (api_db out) ∧ res_pk r' = res_pk r ∧ res_image r' = res_image r ∧
  res_status r' = st ∧ new_version r' = version.

Lemma commit_result_row db s version now audit_ok r image :
  version ≠ "" → Z.of_nat (String.length version) ≤ 100 →
  head (commit_candidates db s) = Some r → find_release db (res_image r) = Some image →
  let out := commit_view db db (Some s) version now audit_ok in
  (version = tag image ∧ code (api_response out) = 200 ∧
   (∃ r', commit_outcome db out s version r r' image R_SUCCESS) ∧
   db_stations (api_db out) =
     update_where (λ x, sr_pk x = s) (station_set_release (res_image r) now) (db_stations db)) ∨
  (version ≠ tag image ∧ code (api_response out) = 409 ∧
   (∃ r', commit_outcome db out s version r r' image R_ROLLED_BACK) ∧
   db_stations (api_db out) = db_stations db).
Proof.
  intros Hne Hlen Hhd Him out. subst out. unfold commit_view.
  rewrite decide_False by (intros [->|?]; [done|lia]). rewrite Hhd, Him.
  apply head_elem_of in Hhd. unfold commit_candidates in Hhd.
  apply elem_of_sort_by, list_elem_of_filter in Hhd as [[Hs Hcm] Hr].
  case_decide as Hv; simpl; rewrite check_complete_stations; [right|left].
  all: split_and!; [done || by apply dec_stable|done| |done].
  all: eexists; unfold commit_outcome; simpl; rewrite check_complete_results; simpl.
  all: split_and!; [done..| | | | |];
    [by apply elem_of_update_where; exists r; split; [|left; split]|done..].
Qed.

Lemma find_release_pk db pk image : find_release db pk = Some image → rel_pk image = pk.
Proof.
  unfold find_release. intros ([i y] & Hf & ->)%fmap_Some. by apply list_find_Some in Hf as (_ & ? & _).
Qed.

(** A commit moves the station's [current_image_release] pointer exactly
    when the reported version is the tag of the release the station's active
    result deploys: then (200) the pointer is that release and the result is
    [SUCCESS]; on any other version (409) the result is [ROLLED_BACK] and no
    station changes; without an active result (404) nothing changes at all. *)
Lemma commit_moves_the_pointer_only_on_match db s version now audit_ok :
  version ≠ "" → Z.of_nat (String.length version) ≤ 100 →
  (∀ r, r ∈ db_results db → is_Some (find_release db (res_image r))) →
  let out := commit_view db db (Some s) version now audit_ok in
  (code (api_response out) = 200 ∧ ∃ r r' image, tag image = version ∧
     commit_outcome db out s version r r' image R_SUCCESS ∧
     db_stations (api_db out) =
       update_where (λ x, sr_pk x = s) (station_set_release (rel_pk image) now) (db_stations db)) ∨
  (code (api_response out) = 409 ∧ ∃ r r' image, tag image ≠ version ∧
     commit_outcome db out s version r r' image R_ROLLED_BACK ∧
     db_stations (api_db out) = db_stations db) ∨
  (code (api_response out) = 404 ∧ api_db out = db ∧
     ∀ r, r ∈ db_results db → res_station r = s → ¬ committable (res_status r)).
Proof.
  intros Hne Hlen Hfk out. destruct (head (commit_candidates db s)) as [r|] eqn:Hhd.
  - destruct (Hfk r) as [image Him].
    { apply head_elem_of in Hhd. unfold commit_candidates in Hhd.
      by apply elem_of_sort_by, list_elem_of_filter in Hhd as [_ ?]. }
    destruct (commit_result_row db s version now audit_ok r image)
      as [(Hv & Hc & [r' Ho] & Hst)|(Hv & Hc & [r' Ho] & Hst)]; [done..| |].
    + left. split; [done|]. exists r, r', image. by rewrite (find_release_pk _ _ _ Him).
    + right; left. split; [done|]. by exists r, r', image.
  - right; right. unfold out, commit_view. rewrite decide_False by (intros [->|?]; [done|lia]).
    rewrite Hhd. split_and!; [done..|]. intros r Hr Hs Hcm.
    assert (r ∈ commit_candidates db s) as Hin
      by (apply elem_of_sort_by, list_elem_of_filter; done).
    destruct (commit_candidates db s); [by apply not_elem_of_nil in Hin|done].
Qed.

Definition demo_installing : DB := Eval vm_compute in
  api_db (status_update_view demo_db (Some 1) 1 R_INSTALLING "" 9 true).

Lemma commit_moves_the_pointer_only_on_match_witness :
  db_stations (api_db (commit_view demo_installing demo_installing (Some 1) "2026.02.01-01" 10 true)) =
    update_where (λ x, sr_pk x = 1) (station_set_release 2 10) (db_stations demo_installing).
Proof.
  destruct (commit_moves_the_pointer_only_on_match demo_installing 1 "2026.02.01-01" 10 true)
    as [(_ & r & r' & image & Htag & (_ & _ & _ & Him & _) & Hst)|[[Hc _]|[Hc _]]].
  - done.
  - simpl. lia.
  - intros r Hr. vm_compute in Hr. apply list_elem_of_singleton in Hr as ->. by eexists.
  - vm_compute. reflexivity.
  - vm_compute in Hc. discriminate.
  - vm_compute in Hc. discriminate.
Defined.

(** Finding: the commit handler reads the active result without the row
    lock the status handler takes, so a cancel that commits between its lookup
    and its write is overwritten: the result the cancel closed as [CANCELLED]
    becomes [SUCCESS] under the [CANCELLED] deployment. *)
Example commit_race_reopens_cancelled :
  let cancelled := (cancel_view demo_installing demo_installing 1 10).1 in
  let after := api_db (commit_view demo_installing cancelled (Some 1) "2026.02.01-01" 11 true) in
  (res_status <$> db_results cancelled) = [R_CANCELLED] ∧
  (res_status <$> db_results after) = [R_SUCCESS] ∧
  (dep_status <$> db_deployments after) = [D_CANCELLED].
Proof. vm_compute. done. Qed.

(** A cancel that goes through closes the whole deployment: its status is
    [CANCELLED], none of its results stays open (so none blocks its station),
    and the results that were already final, and every result of another
    deployment, are untouched. *)
Lemma cancel_closes_every_child db0 db pk now :
  (cancel_view db0 db pk now).2 = Cancelled →
  let db' := (cancel_view db0 db pk now).1 in
  (∀ d, d ∈ db_deployments db' → dep_pk d = pk → dep_status d = D_CANCELLED) ∧
  open_children db' pk = [] ∧
  (∀ r, r ∈ db_results db → res_deployment r ≠ pk ∨ is_terminal (res_status r) → r ∈ db_results db').
Proof.
  unfold cancel_view.
  destruct (find_deployment db0 pk) as [d0|]; [|done]. destruct (dep_open (dep_status d0)); [|done].
  destruct (find_deployment db pk) as [d|]; [|done]. destruct (dep_open (dep_status d)); [|done].
  intros _. simpl. split_and!.
  - intros x (y & Hy & [[Hp ->]|[Hp ->]])%elem_of_update_where; [done|].
    intros Hx. by destruct (Hp Hx).
  - unfold open_children. simpl. apply elem_of_nil_inv.
    intros x [[Hx Hop] (y & Hy & [[Hp ->]|[Hp ->]])%elem_of_update_where]%list_elem_of_filter; [done|].
    by destruct Hp.
  - intros r Hr Hcase. apply elem_of_update_where. exists r. split; [done|]. right. split; [|done].
    intros [Hpk Hop]. rewrite open_not_terminal in Hop. destruct Hcase; [done|].
    by destruct (is_terminal _).
Qed.

Lemma cancel_closes_every_child_witness :
  open_children (cancel_view demo_db demo_db 1 10).1 1 = [] ∧ length (open_children demo_db 1) = 1%nat.
Proof.
  split; [|reflexivity].
  apply (cancel_closes_every_child demo_db demo_db 1 10). vm_compute. reflexivity.
Defined.
