(* ===== verification/Download.v ===== *)
(** * The rootfs download endpoint

    Models [DeploymentDownloadView.get] of [apps/deployments/api_views.py]:
    authorisation, the Range header, and the generator that streams the object
    in chunks.  The stored object is a file-like of the storage backend, which
    is not part of this repository: it is the class [FileLike], with what the
    documentation of Python's [read] and [seek] promises as its laws. *)

From Stdlib Require Import ZArith Lia Ascii.
From stdpp Require Import base gmap list strings.
From S2P Require Import Prelude Images Targeting Deployments.

Local Open Scope Z_scope.

(** ** The storage interface *)

Class FileLike (S : Type) := {
  fl_read : S → Z → list Byte.byte * S;
  fl_seek : S → Z → option S;     (* [None]: the backend cannot seek *)
  fl_seekable : S → bool;
  fl_data : S → list Byte.byte;   (* the stored object *)
  fl_pos : S → nat                (* the current position *)
}.

(** The bytes from the current position on. *)
Definition fl_rest {S} `{FileLike S} (s : S) : list Byte.byte := drop (fl_pos s) (fl_data s).

Class FileLikeLaws (S : Type) `{FileLike S} := {
  fl_read_prefix s n :
    let (chunk, s') := fl_read s n in fl_rest s = chunk ++ fl_rest s' ∧ fl_data s' = fl_data s;
  fl_read_bounded s n : 0 ≤ n → Z.of_nat (length (fl_read s n).1) ≤ n;
  fl_read_progress s n : 0 < n → (fl_read s n).1 = [] → fl_rest s = [];
  (* [seek] is absolute *)
  fl_seek_absolute s n s' : 0 ≤ n → fl_seek s n = Some s' → fl_data s' = fl_data s ∧ fl_pos s' = Z.to_nat n
}.

Lemma fl_seek_rest {S} `{FileLikeLaws S} (s : S) n s' :
  0 ≤ n → fl_seek s n = Some s' → fl_rest s' = drop (Z.to_nat n) (fl_data s).
Proof. intros Hn Hs. unfold fl_rest. by destruct (fl_seek_absolute s n s' Hn Hs) as [-> ->]. Qed.

(** ** Range header *)

Definition digits_of (s : string) : list ascii := String.list_ascii_of_string s.

Fixpoint span_digits (l : list ascii) : list ascii * list ascii :=
  match l with
  | c :: l' =>
    match digit_value c with
    | Some _ => let (d, r) := span_digits l' in (c :: d, r)
    | None => ([], l)
    end
  | [] => ([], [])
  end.

Definition digits_value (l : list ascii) : Z :=
  foldl (λ acc c, 10 * acc + default 0 (digit_value c)) 0 l.

(** [int(s)]: CPython refuses more than 4300 digits. *)
Definition py_int (l : list ascii) : outcome unit Z :=
  if decide (Z.of_nat (length l) ≤ 4300) then Ok (digits_value l) else Raise ().

Definition strip_prefix (p l : list ascii) : option (list ascii) :=
  if decide (take (length p) l = p) then Some (drop (length p) l) else None.

(** [re.fullmatch("bytes=(\d+)-(\d*)", header)]: the two groups. *)
Definition match_range (header : string) : option (list ascii * list ascii) :=
  match strip_prefix (digits_of "bytes=") (digits_of header) with
  | None => None
  | Some l =>
    let (g1, l1) := span_digits l in
    match g1, strip_prefix (digits_of "-") l1 with
    | [], _ | _, None => None
    | _, Some l2 =>
      let (g2, l3) := span_digits l2 in
      match l3 with [] => Some (g1, g2) | _ => None end
    end
  end.

(** ** The response *)

Inductive ContentRange :=
| CR_None
| CR_Bytes (start finish total : Z)
| CR_Unsatisfied (total : Z).

Record DownloadResponse := mkDownload {
  dl_code : Z;
  dl_body : option (list (list Byte.byte));   (* the chunks the generator yields *)
  dl_length : option Z;
  dl_range : ContentRange;
  dl_accept_ranges : bool;
  dl_filename : list ascii
}.

Definition dl_error (c : Z) (r : ContentRange) : DownloadResponse := mkDownload c None None r false [].

Definition CHUNK : Z := Z.shiftl 1 20.

Definition safe_name (image : ImageRelease) : list ascii :=
  (λ c, if decide (c = "034"%char ∨ c = "013"%char ∨ c = "010"%char) then "_"%char else c) <$>
    digits_of ("oe5xrx-" +:+ machine image +:+ "-" +:+ tag image +:+ ".rootfs.bz2").

Section view.
Context {S : Type} `{FileLike S}.

(** [iterator()]; the loop runs at most once per byte left in the stream, so
    fuel [1 + length (fl_rest s)] is enough. *)
Fixpoint iterator (fuel : nat) (remaining : option Z) (s : S) : option (list (list Byte.byte)) :=
  match fuel with
  | O => None
  | Datatypes.S fuel' =>
    let to_read := match remaining with None => CHUNK | Some k => Z.min CHUNK k end in
    if decide (to_read ≤ 0) then Some []
    else
      let (chunk, s') := fl_read s to_read in
      if decide (chunk = []) then Some []
      else
        cons chunk <$> iterator fuel' ((λ k, k - Z.of_nat (length chunk)) <$> remaining) s'
  end.

Definition stream_body (remaining : option Z) (s : S) : option (list (list Byte.byte)) :=
  iterator (1 + length (fl_rest s)) remaining s.

(** What the Range header makes of the request: serve [length] bytes from
    [start] with a status, or refuse. *)
Inductive RangeDecision :=
| Serve (status start : Z) (finish length : option Z) (s : S)
| Unsatisfiable (total : option Z)
| IntTooLong.

Definition decide_range (header : string) (total_size : option Z) (s : S) : RangeDecision :=
  let full := Serve 200 0 ((λ t, t - 1) <$> total_size) total_size s in
  if decide (header = "") then full
  else
    match total_size with
    | None => Unsatisfiable None
    | Some total =>
      match match_range header with
      | None => full
      | Some (g1, g2) =>
        match py_int g1 with
        | Raise _ => IntTooLong
        | Ok start =>
          match (if decide (g2 = []) then Ok (total - 1) else py_int g2) with
          | Raise _ => IntTooLong
          | Ok finish =>
            if decide (total ≤ start) then Unsatisfiable (Some total)
            else if decide (finish < start) then Unsatisfiable (Some total)
            else
              let finish' := Z.min finish (total - 1) in
              match fl_seek s start with
              | None => Unsatisfiable (Some total)
              | Some s' => Serve 206 start (Some finish') (Some (finish' - start + 1)) s'
              end
          end
        end
      end
    end.

(** The station's open result on this deployment ([.first()] in pk order, newest first). *)
Definition download_result (db : DB) (station pk : Z) : option DeploymentResult :=
  head (sort_by (λ r, - res_pk r)
    (filter (λ r, res_deployment r = pk ∧ res_station r = station ∧ is_open (res_status r))
       (db_results db))).

(** [open_stream] is [image_storage.open_stream]: [None] when it raises. *)
Definition download_view (db : DB) (station : option Z) (pk : Z) (range_header : string)
    (open_stream : string → option S) : DownloadResponse :=
  match station with
  | None => dl_error 403 CR_None
  | Some st =>
    match download_result db st pk with
    | None => dl_error 403 CR_None
    | Some result =>
      match find_release db (res_image result) with
      | None => dl_error 500 CR_None
      | Some image =>
        if negb (is_ota_ready image) then dl_error 404 CR_None
        else
          match open_stream (rootfs_s3_key image) with
          | None => dl_error 502 CR_None
          | Some s =>
            let total_size :=
              match rootfs_size_bytes image with
              | Some n => if decide (0 < n) then Some n else None
              | None => None
              end in
            match decide_range range_header total_size s with
            | IntTooLong => dl_error 500 CR_None
            | Unsatisfiable None => dl_error 416 CR_None
            | Unsatisfiable (Some total) => dl_error 416 (CR_Unsatisfied total)
            | Serve status start finish length s' =>
              mkDownload status (stream_body length s') length
                (match finish, total_size with
                 | Some e, Some total => if decide (status = 206) then CR_Bytes start e total else CR_None
                 | _, _ => CR_None
                 end)
                (fl_seekable s') (safe_name image)
            end
          end
      end
    end
  end.

End view.
Arguments RangeDecision : clear implicits.

(** ** Lemmas *)

Section proofs.
Context {S : Type} `{FileLikeLaws S}.
Implicit Types (s : S).

Definition wanted (remaining : option Z) (l : list Byte.byte) : list Byte.byte :=
  match remaining with None => l | Some k => take (Z.to_nat k) l end.

(** The generator terminates and yields the requested prefix of the stream in
    non-empty chunks of at most [CHUNK] bytes. *)
Lemma iterator_spec fuel remaining s :
  (length (fl_rest s) < fuel)%nat →
  ∃ chunks, iterator fuel remaining s = Some chunks ∧
    mjoin chunks = wanted remaining (fl_rest s) ∧
    Forall (λ c, c ≠ [] ∧ Z.of_nat (length c) ≤ CHUNK) chunks.
Proof.
  revert remaining s. induction fuel as [|fuel IH]; intros remaining s Hf; [lia|]. simpl.
  set (to_read := match remaining with None => CHUNK | Some k => Z.min CHUNK k end).
  assert (to_read ≤ CHUNK) as Hchunk by (unfold to_read; destruct remaining; lia).
  assert (0 < CHUNK) as Hpos by done.
  case_decide as Hle.
  { exists []. split_and!; [done| |constructor]. unfold to_read in Hle.
    destruct remaining as [k|]; simpl; [|lia]. by replace (Z.to_nat k) with 0%nat by lia. }
  pose proof (fl_read_prefix s to_read) as Hpre.
  pose proof (fl_read_bounded s to_read ltac:(lia)) as Hb.
  pose proof (fl_read_progress s to_read ltac:(lia)) as Hprog.
  destruct (fl_read s to_read) as [chunk s'] eqn:Hread. simpl in *. destruct Hpre as [Hpre _].
  case_decide as Hnil.
  { exists []. rewrite (Hprog Hnil). split_and!; [done| |constructor].
    destruct remaining; simpl; by rewrite ?take_nil. }
  assert (0 < length chunk)%nat as Hlen by (destruct chunk; simpl; [done|lia]).
  rewrite Hpre, length_app in Hf.
  destruct (IH ((λ k, k - Z.of_nat (length chunk)) <$> remaining) s' ltac:(lia))
    as (chunks & -> & Hjoin & Hall).
  exists (chunk :: chunks). split_and!; [done| |constructor; [split; [done|lia]|done]].
  simpl. rewrite Hjoin, Hpre. destruct remaining as [k|]; simpl; [|done].
  unfold to_read in *. rewrite take_app_ge by lia. do 2 f_equal. lia.
Qed.

Lemma stream_body_spec remaining s :
  ∃ chunks, stream_body remaining s = Some chunks ∧ mjoin chunks = wanted remaining (fl_rest s) ∧
    Forall (λ c, c ≠ [] ∧ Z.of_nat (length c) ≤ CHUNK) chunks.
Proof. apply iterator_spec. lia. Qed.

Lemma digits_value_nonneg l : 0 ≤ digits_value l.
Proof.
  unfold digits_value. assert (∀ acc, 0 ≤ acc →
    0 ≤ foldl (λ acc c, 10 * acc + default 0 (digit_value c)) acc l) as Hgen; [|by apply Hgen].
  induction l as [|c l IH]; intros acc Hacc; simpl; [done|]. apply IH.
  unfold digit_value. case_bool_decide; simpl; lia.
Qed.

Lemma py_int_nonneg l n : py_int l = Ok n → 0 ≤ n.
Proof. unfold py_int. case_decide; [|done]. intros [= <-]. apply digits_value_nonneg. Qed.

(** A served range is within the object, and the stream stands at its start. *)
Lemma decide_range_206 header total s start finish len s' :
  decide_range header (Some total) s = Serve 206 start finish len s' →
  ∃ e, finish = Some e ∧ len = Some (e - start + 1) ∧ 0 ≤ start ≤ e ∧ e < total ∧
    fl_rest s' = drop (Z.to_nat start) (fl_data s).
Proof.
  unfold decide_range. case_decide; [done|].
  destruct (match_range header) as [[g1 g2]|]; [|done].
  destruct (py_int g1) as [a|] eqn:Hg1; [|done]. apply py_int_nonneg in Hg1.
  destruct (if decide (g2 = []) then _ else _) as [b|]; [|done].
  case_decide; [done|]. case_decide; [done|].
  destruct (fl_seek s a) as [s1|] eqn:Hseek; [|done].
  intros [= <- <- <- <-]. exists (b `min` (total - 1)). split_and!; try done; try lia.
  by apply fl_seek_rest.
Qed.

Lemma decide_range_200 header total s start finish len s' :
  decide_range header total s = Serve 200 start finish len s' → start = 0 ∧ len = total ∧ s' = s.
Proof. unfold decide_range. intros Hr. split_cases; naive_solver. Qed.

Lemma decide_range_status header total s status start finish len s' :
  decide_range header total s = Serve status start finish len s' → status = 200 ∨ status = 206.
Proof. unfold decide_range. intros Hr. split_cases; naive_solver. Qed.

Lemma total_size_ota_ready image :
  is_ota_ready image = true →
  ∃ n, rootfs_size_bytes image = Some n ∧ 0 < n.
Proof.
  unfold is_ota_ready. rewrite !andb_true_iff. intros [_ Hn].
  destruct (rootfs_size_bytes image) as [n|]; [|done]. exists n. by apply bool_decide_eq_true in Hn.
Qed.

End proofs.

Section range_lemmas.

Definition is_digit (c : ascii) : Prop := is_Some (digit_value c).

Lemma span_digits_spec l d r :
  span_digits l = (d, r) →
  l = d ++ r ∧ Forall is_digit d ∧ (∀ c r', r = c :: r' → ¬ is_digit c).
Proof.
  revert d r. induction l as [|c l IH]; intros d r; simpl.
  - intros [= <- <-]. by split_and!.
  - unfold is_digit. destruct (digit_value c) as [v|] eqn:Hc.
    + destruct (span_digits l) as [d' r'] eqn:Hsp. intros [= <- <-].
      destruct (IH d' r' eq_refl) as (-> & Hd & Hr). split_and!; [done|by constructor|done].
    + intros [= <- <-]. split_and!; [done|constructor|]. intros c' r' [= <- <-] [? ?]. congruence.
Qed.

Lemma span_digits_app d r :
  Forall is_digit d → (∀ c r', r = c :: r' → ¬ is_digit c) → span_digits (d ++ r) = (d, r).
Proof.
  intros Hd Hr. induction Hd as [|c d [v Hv] _ IH]; simpl.
  - destruct r as [|c r]; [done|]. simpl. destruct (digit_value c) eqn:Hc; [|done].
    destruct (Hr c r eq_refl). by exists z.
  - by rewrite Hv, IH.
Qed.

Lemma strip_prefix_Some p l r : strip_prefix p l = Some r ↔ l = p ++ r.
Proof.
  unfold strip_prefix. case_decide as Hp; split; intros Heq; try done.
  - injection Heq as <-. rewrite <-(take_drop (length p) l) at 1. by rewrite Hp.
  - by rewrite Heq, drop_app_length.
  - destruct Hp. by rewrite Heq, take_app_length.
Qed.

Lemma dash_not_digit : ¬ is_digit "-"%char.
Proof. intros [v Hv]. vm_compute in Hv. discriminate. Qed.

End range_lemmas.

(** ** Properties *)

(** The Range parser accepts exactly [bytes=<digits>-<digits or nothing>],
    with at least one digit before the dash, and returns the two digit runs;
    every other header is no match (and the full object is served). *)
Lemma match_range_spec header g1 g2 :
  match_range header = Some (g1, g2) ↔
  digits_of header = digits_of "bytes=" ++ g1 ++ digits_of "-" ++ g2 ∧
  g1 ≠ [] ∧ Forall is_digit g1 ∧ Forall is_digit g2.
Proof.
  unfold match_range. split.
  - destruct (strip_prefix _ (digits_of header)) as [l|] eqn:Hl; [|done].
    apply strip_prefix_Some in Hl as ->. destruct (span_digits l) as [a l1] eqn:Hsp.
    apply span_digits_spec in Hsp as (-> & Ha & _). destruct a as [|c a]; [done|].
    destruct (strip_prefix _ l1) as [l2|] eqn:Hl2; [|done]. apply strip_prefix_Some in Hl2 as ->.
    destruct (span_digits l2) as [b l3] eqn:Hsp2. apply span_digits_spec in Hsp2 as (-> & Hb & _).
    destruct l3; [|done]. intros [= <- <-]. by rewrite app_nil_r.
  - intros (-> & Hne & H1 & H2).
    rewrite (proj2 (strip_prefix_Some _ _ _) eq_refl), span_digits_app; [|done|].
    2:{ intros c r' [= <- _]. apply dash_not_digit. }
    destruct g1 as [|c g1]; [done|].
    rewrite (proj2 (strip_prefix_Some _ _ _) eq_refl).
    rewrite <-(app_nil_r g2) at 1. by rewrite span_digits_app.
Qed.

(** What the endpoint streams, where a stream is opened at its start.  Any 200 or
    206 goes to a station that holds an open result on this very deployment, for the
    OTA-ready release that result pins.  A 206 announces a range inside the recorded
    size and sends those bytes of the object, a 200 the object from its start up to
    its recorded size, as far as the object has them, in non-empty chunks of at most
    1 MiB; the stream always ends. *)
Lemma download_serves_the_range {S} `{FileLikeLaws S} db station pk header
    (open_stream : string → option S) :
  (∀ key s, open_stream key = Some s → fl_pos s = 0%nat) →
  let out := download_view db station pk header open_stream in
  dl_code out = 200 ∨ dl_code out = 206 →
  ∃ st r image s total start e chunks,
    station = Some st ∧ r ∈ db_results db ∧ res_deployment r = pk ∧ res_station r = st ∧
    is_open (res_status r) ∧ find_release db (res_image r) = Some image ∧ is_ota_ready image ∧
    open_stream (rootfs_s3_key image) = Some s ∧ rootfs_size_bytes image = Some total ∧
    (if decide (dl_code out = 206) then dl_range out = CR_Bytes start e total
     else start = 0 ∧ e = total - 1) ∧
    0 ≤ start ≤ e ∧ e < total ∧ dl_length out = Some (e - start + 1) ∧
    dl_body out = Some chunks ∧
    mjoin chunks = take (Z.to_nat (e - start + 1)) (drop (Z.to_nat start) (fl_data s)) ∧
    Forall (λ c, c ≠ [] ∧ Z.of_nat (length c) ≤ CHUNK) chunks.
Proof.
  intros Hpos0. unfold download_view. destruct station as [st|]; [|by intros [?|?]].
  destruct (download_result db st pk) as [r|] eqn:Hres; [|by intros [?|?]].
  apply head_elem_of, elem_of_sort_by, list_elem_of_filter in Hres as [(Hd & Hs & Hop) Hr].
  destruct (find_release db (res_image r)) as [image|] eqn:Him; [|by intros [?|?]].
  destruct (is_ota_ready image) eqn:Hota; [simpl|by intros [?|?]].
  destruct (open_stream _) as [s|] eqn:Hopen; [|by intros [?|?]].
  destruct (total_size_ota_ready image Hota) as (total & Hsize & Hpos).
  rewrite Hsize, decide_True by done.
  destruct (decide_range header (Some total) s) as [status start finish len s'|[t|]|] eqn:Hdec;
    [|by intros [?|?]..].
  intros _. simpl. destruct (stream_body_spec len s') as (chunks & Hbody & Hjoin & Hchunks).
  destruct (decide_range_status _ _ _ _ _ _ _ _ Hdec) as [->| ->]; simpl.
  - apply decide_range_200 in Hdec as (-> & -> & ->).
    exists st, r, image, s, total, 0, (total - 1), chunks. rewrite Hota, Hjoin. simpl.
    unfold fl_rest. rewrite (Hpos0 _ _ Hopen), drop_0.
    replace (total - 1 - 0 + 1) with total by lia. split_and!; auto; lia.
  - apply decide_range_206 in Hdec as (e & -> & -> & Hse & Het & Hrest).
    exists st, r, image, s, total, start, e, chunks. rewrite Hota, Hjoin, <-Hrest. simpl.
    split_and!; auto; lia.
Qed.

(** Content-Disposition cannot be broken out of: the sanitised file name has
    no quote, CR or LF, whatever the machine and tag columns hold, and is
    otherwise the original name. *)
Lemma safe_name_has_no_header_breaks image :
  Forall (λ c, c ≠ "034"%char ∧ c ≠ "013"%char ∧ c ≠ "010"%char) (safe_name image) ∧
  ∀ i c, digits_of ("oe5xrx-" +:+ machine image +:+ "-" +:+ tag image +:+ ".rootfs.bz2") !! i = Some c →
    c ≠ "034"%char → c ≠ "013"%char → c ≠ "010"%char → safe_name image !! i = Some c.
Proof.
  unfold safe_name. split.
  - apply Forall_fmap, list.Forall_forall. intros c _. simpl. case_decide; [done|]. tauto.
  - intros i c Hc ???. rewrite list_lookup_fmap, Hc. simpl. rewrite decide_False; [done|]. tauto.
Qed.

(** ** A storage backend: an in-memory file whose reads may be short *)

Record ShortReads := mkShort { sr_bytes : list Byte.byte; sr_pos : nat; sr_max : nat }.

#[export] Instance ShortReads_FileLike : FileLike ShortReads := {
  fl_read s n :=
    let chunk := take (Nat.min (Datatypes.S (sr_max s)) (Z.to_nat n)) (drop (sr_pos s) (sr_bytes s)) in
    (chunk, mkShort (sr_bytes s) (sr_pos s + length chunk) (sr_max s));
  fl_seek s n := Some (mkShort (sr_bytes s) (Z.to_nat n) (sr_max s));
  fl_seekable _ := true;
  fl_data := sr_bytes;
  fl_pos := sr_pos
}.

#[export] Instance ShortReads_laws : FileLikeLaws ShortReads.
Proof.
  split.
  - intros s n. unfold fl_rest. cbn -[Nat.min]. split; [|done].
    set (rest := drop (sr_pos s) (sr_bytes s)). set (k := Nat.min _ (Z.to_nat n)).
    rewrite <-drop_drop. fold rest. rewrite length_take.
    destruct (decide (k ≤ length rest)%nat) as [Hk|Hk].
    + by rewrite Nat.min_l, take_drop.
    + rewrite Nat.min_r by lia. rewrite (take_ge rest k) by lia. by rewrite (drop_ge rest) by lia; rewrite app_nil_r.
  - intros s n Hn. unfold fl_read, ShortReads_FileLike, fst. rewrite length_take. lia.
  - intros s n Hn. unfold fl_rest. simpl. destruct (Z.to_nat n) as [|k] eqn:Hk; [lia|].
    by destruct (drop (sr_pos s) (sr_bytes s)).
  - by intros s n s' Hn [= <-].
Qed.

Module Stored.

Definition image : ImageRelease :=
  mkRelease 2 "2026.02.01-01" "rpi" "release" "key" "h" (Some 6) true 200 None.
Definition res : DeploymentResult := mkResult 1 1 1 2 R_DOWNLOADING None None (ET_Raw "") "" "".
Definition db : DB := mkDB [] [image] [] [] [res] 2 2.
Definition bytes : list Byte.byte := [Byte.x61; Byte.x62; Byte.x63; Byte.x64; Byte.x65; Byte.x66].
Definition open_stream (key : string) : option ShortReads := Some (mkShort bytes 0 1).

End Stored.

Lemma download_serves_the_range_witness :
  let out := download_view Stored.db (Some 1) 1 "bytes=2-9" Stored.open_stream in
  dl_code out = 206 ∧ dl_body out = Some [[Byte.x63; Byte.x64]; [Byte.x65; Byte.x66]] ∧
  ∃ start e total, dl_range out = CR_Bytes start e total ∧ e < total.
Proof.
  intros out. assert (dl_code out = 206) as Hcode by (vm_compute; reflexivity).
  split_and!; [exact Hcode|vm_compute; reflexivity|].
  destruct (download_serves_the_range Stored.db (Some 1) 1 "bytes=2-9" Stored.open_stream)
    as (st & r & image & s & total & start & e & chunks & Hrest);
    [intros key s [= <-]; reflexivity|right; exact Hcode|].
  exists start, e, total.
  destruct Hrest as (_ & _ & _ & _ & _ & _ & _ & _ & _ & Hrange & _ & He & _).
  split; [exact Hrange|exact He].
Defined.
