(* ===== verification/Rollouts.v ===== *)
(** * The rollout sequence

    Models [apps/rollouts/services.py], the delete signal of
    [apps/rollouts/signals.py], [SequenceReorderView] of
    [apps/rollouts/views.py], [current_sequence] of [apps/rollouts/models.py]
    and [apps/rollouts/grouping.py].

    The sequence is a table of entries whose [position] column carries the
    order.  Every [save] of a position is a write the database checks on its
    own: against the [(sequence, position)] unique constraint and the range of
    a [PositiveSmallIntegerField].  The multi-row renumberings are therefore
    loops of writes that may raise, and that they never do is a theorem.  The
    abstract specification is the list of groups in order: the operations
    refine append, remove, move and permute on that list.

    All operations run under the row lock of the (singleton) sequence, so one
    operation is one transition; an exception rolls the transaction back. *)

From Stdlib Require Import ZArith Lia.
From stdpp Require Import base gmap list strings sorting.
From S2P Require Import Prelude Images Targeting.

Local Open Scope Z_scope.

(** ** Data *)

Record Entry := mkEntry { ent_pk : Z; ent_group : Z; ent_position : Z }.

#[export] Instance Entry_eq_dec : EqDecision Entry.
Proof. solve_decision. Defined.

Record Sequence := mkSequence {
  seq_entries : list Entry;
  seq_updated_by : option Z;
  seq_updated_at : Z;
  seq_next_pk : Z
}.

Inductive SeqError := SeqIntegrityError | SeqDataError | SeqValueError | SeqKeyError.

Definition POSITION_MAX : Z := 32767.

Definition set_position (p : Z) (e : Entry) : Entry := mkEntry (ent_pk e) (ent_group e) p.

Definition set_entries (es : list Entry) (s : Sequence) : Sequence :=
  mkSequence es (seq_updated_by s) (seq_updated_at s) (seq_next_pk s).

(** [sequence.updated_by = by_user; sequence.save(...)] *)
Definition stamp (user now : Z) (s : Sequence) : Sequence :=
  mkSequence (seq_entries s) (Some user) now (seq_next_pk s).

(** ** Writing one position *)

(** [e.position = p; e.save(update_fields=["position"])] *)
Definition save_position (es : list Entry) (w : Z * Z) : outcome SeqError (list Entry) :=
  let (pk, p) := w in
  if decide (p < 0 ∨ POSITION_MAX < p) then Raise SeqDataError
  else if decide (Exists (λ o, ent_pk o ≠ pk ∧ ent_position o = p) es) then Raise SeqIntegrityError
  else Ok (update_where (λ o, ent_pk o = pk) (set_position p) es).

(** ** Operations *)

(** The renumber loop of [remove_entry] and of the delete signal:
    [for idx, e in enumerate(entries.order_by("position")): if e.position != idx: ...] *)
Definition renumber (es : list Entry) : outcome SeqError (list Entry) :=
  ofold (λ acc ie, let '(idx, e) := ie in
           if decide (ent_position e = idx) then Ok acc else save_position acc (ent_pk e, idx))
    es (imap (λ i e, (Z.of_nat i, e)) (sort_by ent_position es)).

(** [_on_sequence_entry_delete]: after any delete, renumber and bump [updated_at]. *)
Definition on_sequence_entry_delete (now : Z) (s : Sequence) : outcome SeqError Sequence :=
  obind (renumber (seq_entries s)) (λ es,
    Ok (mkSequence es (seq_updated_by s) now (seq_next_pk s))).

Definition touch_sequence (user now : Z) (s : Sequence) : Sequence := stamp user now s.

(** [aggregate(Max("position"))] *)
Definition max_position (es : list Entry) : option Z :=
  foldr (λ e acc, Some (match acc with None => ent_position e | Some m => Z.max (ent_position e) m end))
    None es.

(** [add_entry]; [None] when the group is already in the sequence. *)
Definition add_entry (group user now : Z) (s : Sequence) : outcome SeqError (Sequence * option Entry) :=
  if decide (Exists (λ e, ent_group e = group) (seq_entries s)) then Ok (s, None)
  else
    let next_pos := (match max_position (seq_entries s) with Some m => m | None => -1 end) + 1 in
    if decide (POSITION_MAX < next_pos) then Raise SeqDataError
    else
      let e := mkEntry (seq_next_pk s) group next_pos in
      Ok (stamp user now (mkSequence (seq_entries s ++ [e]) (seq_updated_by s) (seq_updated_at s)
                            (seq_next_pk s + 1)), Some e).

(** [remove_entry]: the delete fires the signal, then the service renumbers again. *)
Definition remove_entry (pk user now : Z) (s : Sequence) : outcome SeqError Sequence :=
  let s1 := set_entries (delete_where (λ e, ent_pk e = pk) (seq_entries s)) s in
  obind (on_sequence_entry_delete now s1) (λ s2,
    obind (renumber (seq_entries s2)) (λ es, Ok (stamp user now (set_entries es s2)))).

Definition calc_offset (max_current n : Z) : outcome SeqError Z :=
  let offset := Z.max max_current n + 1 in
  if decide (POSITION_MAX < max_current + offset) then Raise SeqValueError else Ok offset.

(** Phase 1: every entry, in the order the query returned them, to [position + offset]. *)
Definition shift_all (offset : Z) (es : list Entry) : outcome SeqError (list Entry) :=
  ofold save_position es ((λ e, (ent_pk e, ent_position e + offset)) <$> es).

(** Phase 2: [for idx, pk in enumerate(order): existing[pk].position = idx; save]. *)
Definition assign_order (order : list Z) (es : list Entry) : outcome SeqError (list Entry) :=
  ofold (λ acc ip, if decide (ip.1 ∈ (ent_pk <$> acc)) then save_position acc ip else Raise SeqKeyError)
    es (imap (λ i pk, (pk, Z.of_nat i)) order).

(** [list.insert(i, x)] for [0 <= i <= len]. *)
Definition list_insert_at {A} (i : nat) (x : A) (l : list A) : list A := take i l ++ x :: drop i l.

(** The order [move_entry] asks for: the other entries as they are, the moved
    one at the clamped index. *)
Definition moved_order {A} `{EqDecision A} (pk : A) (new_position : Z) (order : list A) : list A :=
  let others := filter (λ p, p ≠ pk) order in
  list_insert_at (Z.to_nat (Z.max 0 (Z.min new_position (Z.of_nat (length others))))) pk others.

Definition max_current (es : list Entry) : Z :=
  match max_position es with Some m => m | None => 0 end.

Definition move_entry (pk new_position user now : Z) (s : Sequence) : outcome SeqError Sequence :=
  let es := seq_entries s in
  obind (calc_offset (max_current es) (Z.of_nat (length es))) (λ offset,
    obind (shift_all offset es) (λ es1,
      obind (assign_order (moved_order pk new_position (ent_pk <$> sort_by ent_position es1)) es1)
        (λ es2, Ok (stamp user now (set_entries es2 s))))).

Inductive ReorderOutcome := ReorderBadRequest | ReorderDone (s : Sequence).

(** [SequenceReorderView.post] on a parsed list of ids. *)
Definition reorder_view (order_ids : list Z) (user now : Z) (s : Sequence)
  : outcome SeqError ReorderOutcome :=
  if negb (bool_decide (NoDup order_ids)) then Ok ReorderBadRequest
  else
    let es := seq_entries s in
    if negb (bool_decide (Forall (λ x, x ∈ (ent_pk <$> es)) order_ids ∧
                          Forall (λ x, x ∈ order_ids) (ent_pk <$> es)))
    then Ok ReorderBadRequest
    else
      match calc_offset (max_current es) (Z.of_nat (length order_ids)) with
      | Raise _ => Ok ReorderBadRequest
      | Ok offset =>
        obind (shift_all offset es) (λ es1,
          obind (assign_order order_ids es1) (λ es2,
            Ok (ReorderDone (stamp user now (set_entries es2 s)))))
      end.

(** [current_sequence]: [get_or_create] on the singleton row. *)
Definition current_sequence (now : Z) (tbl : option Sequence) : Sequence :=
  match tbl with Some s => s | None => mkSequence [] None now 1 end.

(** ** Dashboard grouping *)

(** [ordered_groups]: sequence groups by position, then the others by name
    ([by_name] is the groups table in name order). *)
Definition ordered_groups (find_group : Z → option RolloutGroup) (by_name : list RolloutGroup)
    (s : Sequence) : list RolloutGroup :=
  let in_sequence := omap (λ e, find_group (ent_group e)) (sort_by ent_position (seq_entries s)) in
  in_sequence ++ filter (λ g, grp_pk g ∉ (grp_pk <$> in_sequence)) by_name.

Definition UNASSIGNED_KEY : string := "__unassigned__".

(** [slug_by_pk.get(station.rollout_group_id, UNASSIGNED_KEY)]: a later group
    of the list overwrites an earlier one with the same pk. *)
Definition bucket_key (groups : list RolloutGroup) (group : option Z) : string :=
  match group with
  | None => UNASSIGNED_KEY
  | Some g =>
    match last (filter (λ x, grp_pk x = g) groups) with
    | Some x => grp_slug x
    | None => UNASSIGNED_KEY
    end
  end.

(** The ordered buckets: one per distinct key, in insertion order. *)
Definition group_stations_by_sequence {St} (group_id : St → option Z) (groups : list RolloutGroup)
    (stations : list St) : list (string * list St) :=
  let keys := reverse (remove_dups (reverse ((grp_slug <$> groups) ++ [UNASSIGNED_KEY]))) in
  (λ k, (k, filter (λ st, bucket_key groups (group_id st) = k) stations)) <$> keys.

(** ** The loops of position writes *)

Section loops.
Implicit Types (es l rest : list Entry) (e : Entry) (ws : list (Entry * Z)).

Lemma ofold_fmap {E A B S} (body : S → B → outcome E S) (f : A → B) st (l : list A) :
  ofold body st (f <$> l) = ofold (λ s x, body s (f x)) st l.
Proof. revert st. induction l as [|x l IH]; intros st; simpl; [done|].
  destruct (body st (f x)); simpl; [apply IH|done].
Qed.

Lemma update_where_Permutation (P : Entry → Prop) `{∀ x, Decision (P x)} f es l :
  es ≡ₚ l → update_where P f es ≡ₚ update_where P f l.
Proof. intros Hp. unfold update_where. by rewrite Hp. Qed.

(** A write to a free position in range succeeds and changes that row only. *)
Lemma save_position_Ok es before e rest p :
  es ≡ₚ before ++ e :: rest → NoDup (ent_pk <$> es) → 0 ≤ p ≤ POSITION_MAX →
  p ∉ (ent_position <$> before) → p ∉ (ent_position <$> rest) →
  ∃ es', save_position es (ent_pk e, p) = Ok es' ∧ es' ≡ₚ before ++ set_position p e :: rest.
Proof.
  intros Hp Hnd Hr Hb Hrest. unfold save_position. rewrite decide_False by lia.
  rewrite decide_False.
  2:{ intros (o & Ho & Hne & Hpos)%list.Exists_exists. rewrite Hp in Ho.
      apply elem_of_app in Ho as [Ho|Ho].
      - apply Hb. rewrite <-Hpos. by apply list_elem_of_fmap_2.
      - apply elem_of_cons in Ho as [->|Ho]; [done|].
        apply Hrest. rewrite <-Hpos. by apply list_elem_of_fmap_2. }
  eexists. split; [done|]. rewrite (update_where_Permutation _ _ _ _ Hp).
  rewrite Hp, fmap_app, fmap_cons in Hnd. apply list.NoDup_app in Hnd as (_ & Hd & Hr2).
  apply list.NoDup_cons in Hr2 as [Hr2 _].
  unfold update_where. rewrite fmap_app, fmap_cons, decide_True by done.
  fold (update_where (λ o, ent_pk o = ent_pk e) (set_position p) before).
  fold (update_where (λ o, ent_pk o = ent_pk e) (set_position p) rest).
  rewrite !update_where_none; [done| |].
  - intros x Hx Heq. apply Hr2. rewrite <-Heq. by apply list_elem_of_fmap_2.
  - intros x Hx Heq. apply (Hd (ent_pk x)); [by apply list_elem_of_fmap_2|].
    rewrite Heq. apply list_elem_of_here.
Qed.

(** Each write of the list is in range and hits neither a position already
    assigned nor one still held by a row to come. *)
Fixpoint safe_writes (assigned : list Z) ws : Prop :=
  match ws with
  | [] => True
  | w :: ws' =>
    0 ≤ w.2 ≤ POSITION_MAX ∧ w.2 ∉ assigned ∧ w.2 ∉ (ent_position <$> ws'.*1) ∧
    safe_writes (assigned ++ [w.2]) ws'
  end.

Definition written ws : list Entry := (λ w, set_position w.2 w.1) <$> ws.

Definition writes_position (step : list Entry → Entry * Z → outcome SeqError (list Entry)) : Prop :=
  ∀ acc w, ent_pk w.1 ∈ (ent_pk <$> acc) →
    step acc w = save_position acc (ent_pk w.1, w.2) ∨ (ent_position w.1 = w.2 ∧ step acc w = Ok acc).

(** A loop of safe writes never raises and leaves exactly the written rows. *)
Lemma safe_writes_Ok step ws : writes_position step → ∀ before es,
  es ≡ₚ before ++ ws.*1 → NoDup (ent_pk <$> es) → safe_writes (ent_position <$> before) ws →
  ∃ es', ofold step es ws = Ok es' ∧ es' ≡ₚ before ++ written ws.
Proof.
  intros Hstep. induction ws as [|w ws IH]; intros before es Hp Hnd Hsafe; csimpl.
  { exists es. split; [done|]. by rewrite Hp. }
  destruct Hsafe as (Hr & Hb & Hrest & Hsafe). csimpl in Hp.
  assert (ent_pk w.1 ∈ (ent_pk <$> es)) as Hin.
  { rewrite Hp. apply list_elem_of_fmap_2, elem_of_app. right. apply list_elem_of_here. }
  assert (∃ es1, step es w = Ok es1 ∧ es1 ≡ₚ before ++ set_position w.2 w.1 :: ws.*1) as (es1 & He1 & Hp1).
  { destruct (Hstep es w Hin) as [Hs|[Heq Hs]]; rewrite Hs; [by apply save_position_Ok|].
    exists es. split; [done|]. rewrite <-Heq. unfold set_position. by destruct w as [[] ?]. }
  rewrite He1. simpl. destruct (IH (before ++ [set_position w.2 w.1]) es1) as (es' & He' & Hp').
  - by rewrite <-app_assoc.
  - rewrite Hp1, fmap_app, fmap_cons. rewrite Hp, fmap_app, fmap_cons in Hnd. done.
  - rewrite fmap_app. done.
  - exists es'. split; [done|]. rewrite Hp', <-app_assoc. done.
Qed.

(** The three patterns of writes the services use are safe. *)

Lemma safe_renumber l k assigned :
  StronglySorted (λ x y, ent_position x < ent_position y) l →
  Forall (λ e, k ≤ ent_position e) l → Forall (λ p, p < k) assigned → 0 ≤ k →
  k + Z.of_nat (length l) ≤ POSITION_MAX + 1 →
  safe_writes assigned (imap (λ i e, (e, k + Z.of_nat i)) l).
Proof.
  revert k assigned. induction l as [|e l IH]; intros k assigned Hs Hl Ha Hk Hmax; csimpl; [done|].
  apply StronglySorted_cons in Hs as [Hlt Hs]. apply Forall_cons in Hl as [He Hl].
  rewrite length_cons in Hmax. rewrite list.Forall_forall in Ha. rewrite list.Forall_forall in Hlt, Hl.
  rewrite Z.add_0_r. split_and!; [done|lia| | |].
  - intros Hin. specialize (Ha _ Hin). lia.
  - intros (x & Hx & (y & -> & Hy)%list_elem_of_fmap)%list_elem_of_fmap.
    apply elem_of_lookup_imap in Hy as (i & z & -> & Hz%list_elem_of_lookup_2).
    specialize (Hlt _ Hz). simpl in *. lia.
  - erewrite imap_ext; [apply (IH (k + 1)); [done| | |lia|lia]|intros; simpl; f_equal; lia].
    + apply list.Forall_forall. intros x Hx. specialize (Hlt _ Hx). simpl in Hlt. lia.
    + apply list.Forall_forall. intros x [Hx| ->%list_elem_of_singleton]%elem_of_app; [|lia].
      specialize (Ha _ Hx). simpl in Ha. lia.
Qed.

Lemma safe_assign l k assigned bound :
  Forall (λ e, bound ≤ ent_position e) l → Forall (λ p, p < k) assigned → 0 ≤ k →
  k + Z.of_nat (length l) ≤ bound → k + Z.of_nat (length l) ≤ POSITION_MAX + 1 →
  safe_writes assigned (imap (λ i e, (e, k + Z.of_nat i)) l).
Proof.
  revert k assigned. induction l as [|e l IH]; intros k assigned Hl Ha Hk Hb Hmax; csimpl; [done|].
  apply Forall_cons in Hl as [He Hl]. rewrite length_cons in Hb, Hmax.
  pose proof Ha as Ha'. pose proof Hl as Hl'. rewrite list.Forall_forall in Ha'. rewrite list.Forall_forall in Hl'.
  rewrite Z.add_0_r. split_and!; [done|lia| | |].
  - intros Hin. specialize (Ha' _ Hin). simpl in Ha'. lia.
  - intros (x & Hx & (y & -> & Hy)%list_elem_of_fmap)%list_elem_of_fmap.
    apply elem_of_lookup_imap in Hy as (i & z & -> & Hz%list_elem_of_lookup_2).
    specialize (Hl' _ Hz). simpl in *. lia.
  - erewrite imap_ext; [apply (IH (k + 1)); [done| |lia|lia|lia]|intros; simpl; f_equal; lia].
    apply list.Forall_forall. intros x [Hx| ->%list_elem_of_singleton]%elem_of_app; [|lia].
    specialize (Ha' _ Hx). simpl in Ha'. lia.
Qed.

Lemma safe_shift l offset assigned m :
  NoDup (ent_position <$> l) → Forall (λ e, 0 ≤ ent_position e ≤ m) l →
  Forall (λ e, ent_position e + offset ∉ assigned) l → m < offset → m + offset ≤ POSITION_MAX →
  safe_writes assigned ((λ e, (e, ent_position e + offset)) <$> l).
Proof.
  revert assigned. induction l as [|e l IH]; intros assigned Hnd Hl Ha Hm Hmax; csimpl; [done|].
  rewrite fmap_cons in Hnd. apply list.NoDup_cons in Hnd as [Hne Hnd].
  apply Forall_cons in Hl as [He Hl]. apply Forall_cons in Ha as [Hea Ha].
  pose proof Hl as Hl'. rewrite list.Forall_forall in Ha, Hl'.
  split_and!; [lia|lia|done| |].
  - intros (x & Hx & (y & -> & (z & -> & Hz)%list_elem_of_fmap)%list_elem_of_fmap)%list_elem_of_fmap.
    specialize (Hl' _ Hz). simpl in *. lia.
  - apply IH; try done. apply list.Forall_forall.
    intros x Hx [Hin|Heq%list_elem_of_singleton]%elem_of_app; [by apply (Ha x)|].
    apply Hne. replace (ent_position e) with (ent_position x) by lia. by apply list_elem_of_fmap_2.
Qed.

End loops.

(** ** The abstract sequence *)

(** What the sequence means: its (pk, group) pairs in order. *)
Definition order_of (s : Sequence) : list (Z * Z) :=
  (λ e, (ent_pk e, ent_group e)) <$> sort_by ent_position (seq_entries s).

Definition gap_free (es : list Entry) : Prop :=
  ent_position <$> sort_by ent_position es = seqZ 0 (Z.of_nat (length es)).

Record seq_wf (s : Sequence) : Prop := {
  wf_pks : NoDup (ent_pk <$> seq_entries s);
  wf_groups : NoDup (ent_group <$> seq_entries s);
  wf_gap_free : gap_free (seq_entries s);
  wf_next_pk : ∀ e, e ∈ seq_entries s → ent_pk e < seq_next_pk s;
  wf_bound : Z.of_nat (length (seq_entries s)) ≤ POSITION_MAX + 1
}.

Section layout.
Implicit Types (es l : list Entry) (s : Sequence).

(** The rows of [l], numbered from 0. *)
Definition numbered l : list Entry := imap (λ i e, set_position (Z.of_nat i) e) l.

Lemma numbered_written l : numbered l = written (imap (λ i e, (e, 0 + Z.of_nat i)) l).
Proof. unfold numbered, written. rewrite fmap_imap. apply imap_ext. done. Qed.

Lemma numbered_positions l : ent_position <$> numbered l = seqZ 0 (Z.of_nat (length l)).
Proof.
  unfold numbered. apply list_eq. intros i. rewrite list_lookup_fmap, list_lookup_imap.
  destruct (l !! i) as [e|] eqn:Hi; simpl.
  - symmetry. apply lookup_seqZ. split; [lia|]. apply lookup_lt_Some in Hi. lia.
  - symmetry. apply lookup_seqZ_ge. apply lookup_ge_None in Hi. lia.
Qed.

Lemma numbered_column {B} (f : Entry → B) l :
  (∀ p e, f (set_position p e) = f e) → f <$> numbered l = f <$> l.
Proof.
  intros Hf. unfold numbered. rewrite fmap_imap.
  rewrite <-(imap_const f l). apply imap_ext. intros i x _. simpl. apply Hf.
Qed.

Lemma length_numbered l : length (numbered l) = length l.
Proof. apply length_imap. Qed.

Lemma numbered_sorted l : StronglySorted (key_le ent_position) (numbered l).
Proof.
  assert (∀ k, StronglySorted (key_le ent_position) (imap (λ i e, set_position (Z.of_nat (k + i)) e) l)) as Hgen.
  { induction l as [|e l IH]; intros k; csimpl; constructor.
    - erewrite imap_ext; [apply (IH (S k))|]. intros; simpl. do 2 f_equal. lia.
    - apply list.Forall_forall. intros x (i & y & -> & _)%elem_of_lookup_imap.
      unfold key_le. simpl. lia. }
  apply (Hgen 0%nat).
Qed.

Lemma sort_by_numbered es l : es ≡ₚ numbered l → sort_by ent_position es = numbered l.
Proof.
  intros Hp. apply (StronglySorted_unique_strong (key_le ent_position)).
  - intros x1 x2 H1 H2. unfold key_le. intros ??.
    apply (NoDup_fmap_elem_inj ent_position (numbered l)); [| |done|lia].
    + rewrite numbered_positions. apply NoDup_seqZ.
    + rewrite <-Hp. by apply elem_of_sort_by in H1.
  - apply sort_by_sorted.
  - apply numbered_sorted.
  - by rewrite sort_by_Permutation.
Qed.

Lemma numbered_gap_free es l : es ≡ₚ numbered l → gap_free es.
Proof.
  intros Hp. unfold gap_free. rewrite (sort_by_numbered _ _ Hp), numbered_positions.
  by rewrite Hp, length_numbered.
Qed.

Lemma numbered_order s l :
  seq_entries s ≡ₚ numbered l → order_of s = (λ e, (ent_pk e, ent_group e)) <$> l.
Proof. intros Hp. unfold order_of. rewrite (sort_by_numbered _ _ Hp). by apply numbered_column. Qed.

Lemma gap_free_positions es e : gap_free es → e ∈ es → 0 ≤ ent_position e < Z.of_nat (length es).
Proof.
  intros Hg He. assert (ent_position e ∈ (ent_position <$> sort_by ent_position es)) as Hin
    by (by apply list_elem_of_fmap_2, elem_of_sort_by).
  rewrite Hg in Hin. apply elem_of_seqZ in Hin. lia.
Qed.

Lemma gap_free_NoDup es : gap_free es → NoDup (ent_position <$> es).
Proof.
  intros Hg. rewrite <-(sort_by_Permutation ent_position es), Hg. apply NoDup_seqZ.
Qed.

Lemma sorted_strict es :
  NoDup (ent_position <$> es) →
  StronglySorted (λ x y, ent_position x < ent_position y) (sort_by ent_position es).
Proof.
  intros Hnd. rewrite <-(sort_by_Permutation ent_position es) in Hnd.
  induction (sort_by_sorted ent_position es) as [|e l Hs IH Hall]; constructor.
  - apply IH. rewrite fmap_cons in Hnd. by apply list.NoDup_cons in Hnd as [_ ?].
  - rewrite fmap_cons in Hnd. apply list.NoDup_cons in Hnd as [Hne _].
    rewrite list.Forall_forall in Hall |- *. intros x Hx. specialize (Hall x Hx). unfold key_le in Hall.
    assert (ent_position x ≠ ent_position e); [|lia].
    intros Heq. apply Hne. rewrite <-Heq. by apply list_elem_of_fmap_2.
Qed.

Lemma max_position_spec es :
  match max_position es with
  | None => es = []
  | Some m => (∃ e, e ∈ es ∧ ent_position e = m) ∧ ∀ e, e ∈ es → ent_position e ≤ m
  end.
Proof.
  induction es as [|e es IH]; simpl; [done|].
  destruct (max_position es) as [m|]; simpl.
  - destruct IH as [(x & Hx & <-) Hall]. split.
    + destruct (Z.max_spec (ent_position e) (ent_position x)) as [[? ->]|[? ->]].
      * exists x. split; [by apply list_elem_of_further|done].
      * exists e. split; [apply list_elem_of_here|done].
    + intros y [->|Hy]%elem_of_cons; [lia|]. specialize (Hall y Hy). lia.
  - subst. split; [exists e; split; [apply list_elem_of_here|done]|].
    intros y [->|Hy]%elem_of_cons; [lia|]. by apply not_elem_of_nil in Hy.
Qed.

(** In a gap-free table the largest position is [n - 1]. *)
Lemma gap_free_max es :
  gap_free es → (match max_position es with Some m => m | None => -1 end) = Z.of_nat (length es) - 1.
Proof.
  intros Hg. pose proof (max_position_spec es) as Hm. destruct (max_position es) as [m|].
  - destruct Hm as [(e & He & <-) Hall]. pose proof (gap_free_positions es e Hg He).
    assert (Z.of_nat (length es) - 1 ∈ (ent_position <$> sort_by ent_position es)) as Hin.
    { rewrite Hg. apply elem_of_seqZ. lia. }
    apply list_elem_of_fmap in Hin as (x & Hx & Hxe%elem_of_sort_by). specialize (Hall x Hxe). lia.
  - by subst.
Qed.

End layout.

(** ** What the operations do *)

Section specs.
Implicit Types (es l : list Entry) (s : Sequence).

Lemma imap_pair_fst (g : nat → Z) l : (imap (λ i e, (e, g i)) l).*1 = l.
Proof.
  apply list_eq. intros i. rewrite list_lookup_fmap, list_lookup_imap. by destruct (l !! i).
Qed.

Lemma renumber_Ok es :
  NoDup (ent_pk <$> es) → NoDup (ent_position <$> es) → (∀ e, e ∈ es → 0 ≤ ent_position e) →
  Z.of_nat (length es) ≤ POSITION_MAX + 1 →
  ∃ es', renumber es = Ok es' ∧ es' ≡ₚ numbered (sort_by ent_position es).
Proof.
  intros Hpk Hpos Hnn Hmax. unfold renumber. set (l := sort_by ent_position es).
  assert (imap (λ i e, (Z.of_nat i, e)) l =
    (λ w, (w.2, w.1)) <$> imap (λ i e, (e, 0 + Z.of_nat i)) l) as -> by (by rewrite fmap_imap).
  rewrite ofold_fmap, numbered_written. eapply (safe_writes_Ok _ _ _ []); [|done|].
  - rewrite app_nil_l, imap_pair_fst. symmetry. apply sort_by_Permutation.
  - apply safe_renumber; [by apply sorted_strict| |constructor|lia|].
    + apply list.Forall_forall. intros e He%elem_of_sort_by. by apply Hnn.
    + unfold l. by rewrite sort_by_Permutation.
  Unshelve. intros acc [e p] Hin. simpl. case_decide; auto.
Qed.

Definition shifted (offset : Z) (e : Entry) : Entry := set_position (ent_position e + offset) e.

Lemma shift_all_Ok es m offset :
  NoDup (ent_pk <$> es) → NoDup (ent_position <$> es) → (∀ e, e ∈ es → 0 ≤ ent_position e ≤ m) →
  m < offset → m + offset ≤ POSITION_MAX →
  ∃ es', shift_all offset es = Ok es' ∧ es' ≡ₚ shifted offset <$> es.
Proof.
  intros Hpk Hpos Hm Ho Hmax. unfold shift_all.
  assert ((λ e, (ent_pk e, ent_position e + offset)) <$> es =
    (λ w, (ent_pk w.1, w.2)) <$> ((λ e, (e, ent_position e + offset)) <$> es)) as ->
    by (by rewrite <-list_fmap_compose).
  rewrite ofold_fmap.
  assert (shifted offset <$> es = written ((λ e, (e, ent_position e + offset)) <$> es)) as ->
    by (unfold written; by rewrite <-list_fmap_compose).
  eapply (safe_writes_Ok _ _ _ []); [|done|].
  - rewrite app_nil_l, <-list_fmap_compose. by rewrite list_fmap_id.
  - apply (safe_shift _ _ _ m); try done; apply list.Forall_forall; [done|].
    intros e _. apply not_elem_of_nil.
  Unshelve. intros acc [e p] Hin. by left.
Qed.

Lemma assign_order_Ok es l bound :
  es ≡ₚ l → NoDup (ent_pk <$> es) → (∀ e, e ∈ es → bound ≤ ent_position e) →
  Z.of_nat (length es) ≤ bound → Z.of_nat (length es) ≤ POSITION_MAX + 1 →
  ∃ es', assign_order (ent_pk <$> l) es = Ok es' ∧ es' ≡ₚ numbered l.
Proof.
  intros Hp Hpk Hb Hlen Hmax. unfold assign_order.
  assert (imap (λ i pk, (pk, Z.of_nat i)) (ent_pk <$> l) =
    (λ w, (ent_pk w.1, w.2)) <$> imap (λ i e, (e, 0 + Z.of_nat i)) l) as ->
    by (by rewrite fmap_imap, imap_fmap).
  rewrite ofold_fmap, numbered_written. eapply (safe_writes_Ok _ _ _ []); [|done|].
  - by rewrite app_nil_l, imap_pair_fst.
  - rewrite Hp in Hlen, Hmax. apply (safe_assign _ _ _ bound); [|constructor|lia..].
    apply list.Forall_forall. intros e He. apply Hb. by rewrite Hp.
  Unshelve. intros acc [e p] Hin. simpl in *. rewrite decide_True by done. by left.
Qed.

(** The two-phase rewrite to any order of the entries. *)
Lemma two_phase_Ok es l offset :
  es ≡ₚ l → NoDup (ent_pk <$> es) → gap_free es → Z.of_nat (length es) ≤ POSITION_MAX + 1 →
  calc_offset (max_current es) (Z.of_nat (length es)) = Ok offset →
  ∃ es1 es2, shift_all offset es = Ok es1 ∧ es1 ≡ₚ shifted offset <$> es ∧
    assign_order (ent_pk <$> l) es1 = Ok es2 ∧ es2 ≡ₚ numbered l.
Proof.
  intros Hp Hpk Hg Hlen Hoff. unfold calc_offset in Hoff. case_decide as Hmax; [done|].
  injection Hoff as Hoff. pose proof (max_position_spec es) as Hm.
  assert (∀ e, e ∈ es → 0 ≤ ent_position e ≤ max_current es) as Hpos.
  { intros e He. pose proof (gap_free_positions es e Hg He). unfold max_current.
    destruct (max_position es) as [m|]; [|by subst; apply not_elem_of_nil in He].
    destruct Hm as [_ Hm]. specialize (Hm e He). lia. }
  destruct (shift_all_Ok es (max_current es) offset) as (es1 & Hs1 & Hp1);
    [done|by apply gap_free_NoDup|done|lia|lia|].
  destruct (assign_order_Ok es1 (shifted offset <$> l) offset) as (es2 & Hs2 & Hp2).
  - by rewrite Hp1, Hp.
  - rewrite Hp1, <-list_fmap_compose. done.
  - intros e He. rewrite Hp1 in He. apply list_elem_of_fmap in He as (x & -> & Hx).
    specialize (Hpos x Hx). simpl. lia.
  - rewrite Hp1, length_fmap. lia.
  - rewrite Hp1, length_fmap. lia.
  - exists es1, es2. split_and!; [done|done| |].
    + by rewrite <-list_fmap_compose in Hs2.
    + rewrite Hp2. unfold numbered. by rewrite imap_fmap.
Qed.

(** A numbering of the same rows is well formed. *)
Lemma numbered_wf s l es' :
  NoDup (ent_pk <$> l) → NoDup (ent_group <$> l) → (∀ e, e ∈ l → ent_pk e < seq_next_pk s) →
  Z.of_nat (length l) ≤ POSITION_MAX + 1 → es' ≡ₚ numbered l → seq_wf (set_entries es' s).
Proof.
  intros Hpk Hgr Hnx Hlen Hp. split; simpl.
  - rewrite Hp, numbered_column; done.
  - rewrite Hp, numbered_column; done.
  - by eapply numbered_gap_free.
  - intros e He. rewrite Hp in He. apply elem_of_lookup_imap in He as (i & x & -> & Hx).
    apply (Hnx x). by eapply list_elem_of_lookup_2.
  - by rewrite Hp, length_numbered.
Qed.

Lemma stamp_wf user now s : seq_wf s → seq_wf (stamp user now s).
Proof. intros []. by split. Qed.

Lemma permuted_wf s l es' :
  seq_wf s → seq_entries s ≡ₚ l → es' ≡ₚ numbered l → seq_wf (set_entries es' s).
Proof.
  intros [Hpk Hgr Hg Hnx Hlen] Hp Hn. apply (numbered_wf s l); rewrite <-?Hp; try done.
  intros e He. apply Hnx. by rewrite Hp.
Qed.

End specs.

Section refinement.
Implicit Types (es l : list Entry) (s : Sequence).

Lemma calc_offset_gap_free es :
  gap_free es →
  calc_offset (max_current es) (Z.of_nat (length es)) =
    if decide (2 * Z.of_nat (length es) ≤ POSITION_MAX)
    then Ok (Z.of_nat (length es) + 1) else Raise SeqValueError.
Proof.
  intros Hg. pose proof (gap_free_max es Hg) as Hm. unfold calc_offset, max_current.
  destruct es as [|e es]; [done|].
  destruct (max_position (e :: es)) as [m|] eqn:Hme.
  2:{ pose proof (max_position_spec (e :: es)) as Hs. by rewrite Hme in Hs. }
  subst m. rewrite length_cons, Nat2Z.inj_succ in *.
  repeat case_decide; try (unfold POSITION_MAX in *; lia); [done|f_equal; lia].
Qed.

Lemma sort_shifted es es1 offset :
  gap_free es → es1 ≡ₚ shifted offset <$> es →
  ent_pk <$> sort_by ent_position es1 = ent_pk <$> sort_by ent_position es.
Proof.
  intros Hg Hp.
  assert (sort_by ent_position es1 = shifted offset <$> sort_by ent_position es) as ->;
    [|by rewrite <-list_fmap_compose].
  apply (StronglySorted_unique_strong (key_le ent_position)).
  - intros x1 x2 H1 H2. unfold key_le. intros ??. rewrite elem_of_sort_by, Hp in H1.
    apply (NoDup_fmap_elem_inj ent_position (shifted offset <$> es)); [|done| |lia].
    + rewrite <-list_fmap_compose. simpl.
      replace (ent_position ∘ shifted offset) with ((λ p, p + offset) ∘ ent_position) by done.
      rewrite list_fmap_compose. apply NoDup_fmap_2; [intros ?? ?; lia|by apply gap_free_NoDup].
    + by rewrite sort_by_Permutation in H2.
  - apply sort_by_sorted.
  - induction (sort_by_sorted ent_position es) as [|e l Hs IH Hall]; csimpl; constructor; [done|].
    apply Forall_fmap. eapply Forall_impl; [exact Hall|]. intros x. unfold key_le. simpl. lia.
  - by rewrite !sort_by_Permutation.
Qed.

Lemma list_insert_at_Permutation {A} i (x : A) (l : list A) : list_insert_at i x l ≡ₚ x :: l.
Proof. unfold list_insert_at. by rewrite <-Permutation_middle, take_drop. Qed.

Lemma filter_ne_Permutation {A} `{EqDecision A} (x : A) (l : list A) :
  NoDup l → x ∈ l → x :: filter (λ y, y ≠ x) l ≡ₚ l.
Proof.
  intros Hnd Hx. apply NoDup_Permutation; [|done|].
  - constructor; [|by apply NoDup_filter]. by intros [? _]%list_elem_of_filter.
  - intros y. rewrite elem_of_cons, list_elem_of_filter. destruct (decide (y = x)); naive_solver.
Qed.

Lemma moved_order_Permutation {A} `{EqDecision A} (x : A) np (l : list A) :
  NoDup l → x ∈ l → moved_order x np l ≡ₚ l.
Proof.
  intros. unfold moved_order. rewrite list_insert_at_Permutation. by apply filter_ne_Permutation.
Qed.

Lemma moved_order_fmap {A B} `{EqDecision A, EqDecision B} (f : A → B) (x : A) np (l : list A) :
  (∀ y, y ∈ l → f y = f x → y = x) → f <$> moved_order x np l = moved_order (f x) np (f <$> l).
Proof.
  intros Hinj. unfold moved_order.
  assert (filter (λ p, p ≠ f x) (f <$> l) = f <$> filter (λ p, p ≠ x) l) as ->.
  { induction l as [|y l IH]; [done|]. rewrite fmap_cons, !filter_cons, IH.
    2:{ intros z Hz. apply Hinj. by apply list_elem_of_further. }
    specialize (Hinj y (list_elem_of_here _ _)).
    repeat case_decide; csimpl; try done; naive_solver. }
  rewrite length_fmap. unfold list_insert_at. by rewrite fmap_app, fmap_cons, fmap_take, fmap_drop.
Qed.

Lemma filter_id_ne {A} `{EqDecision A} (x : A) (l : list A) :
  filter (λ p, p ≠ x) (filter (λ p, p ≠ x) l) = filter (λ p, p ≠ x) l.
Proof. by rewrite list_filter_filter_l. Qed.

(** What moving means, without reference to how it is done: the others stand
    as they stood, and the moved one stands at the clamped index. *)
Lemma moved_order_filter {A} `{EqDecision A} (x : A) np (l : list A) :
  filter (λ p, p ≠ x) (moved_order x np l) = filter (λ p, p ≠ x) l.
Proof.
  unfold moved_order, list_insert_at. rewrite filter_app, filter_cons, decide_False by naive_solver.
  by rewrite <-filter_app, take_drop, filter_id_ne.
Qed.

Lemma moved_order_lookup {A} `{EqDecision A} (x : A) np (l : list A) :
  NoDup l → x ∈ l →
  moved_order x np l !! Z.to_nat (Z.max 0 (Z.min np (Z.of_nat (length l) - 1))) = Some x.
Proof.
  intros Hnd Hx. pose proof (Permutation_length (filter_ne_Permutation x l Hnd Hx)) as Hlen.
  simpl in Hlen. unfold moved_order, list_insert_at.
  replace (Z.of_nat (length l) - 1) with (Z.of_nat (length (filter (λ p, p ≠ x) l))) by lia.
  rewrite lookup_app_r; rewrite length_take; [|lia].
  by rewrite Nat.min_l, Nat.sub_diag by lia.
Qed.

Lemma entries_NoDup s : seq_wf s → NoDup (seq_entries s).
Proof. intros [Hpk _ _ _ _]. by eapply NoDup_fmap_1. Qed.

Lemma filter_fmap_ne (f : Entry → Z * Z) pk l :
  (∀ e, (f e).1 = ent_pk e) →
  filter (λ p, p.1 ≠ pk) (f <$> l) = f <$> filter (λ e, ent_pk e ≠ pk) l.
Proof.
  intros Hf. induction l as [|e l IH]; [done|]. rewrite fmap_cons, !filter_cons, IH, Hf. by case_decide.
Qed.

Lemma NoDup_fmap_filter {B} (f : Entry → B) (P : Entry → Prop) `{∀ e, Decision (P e)} es :
  NoDup (f <$> es) → NoDup (f <$> filter P es).
Proof.
  induction es as [|e es IH]; [done|]. rewrite fmap_cons, list.NoDup_cons, filter_cons.
  intros [Hne Hnd]. case_decide; [|by apply IH]. rewrite fmap_cons, list.NoDup_cons. split; [|by apply IH].
  intros (x & Hx & [_ Hin]%list_elem_of_filter)%list_elem_of_fmap. apply Hne. rewrite Hx.
  by apply list_elem_of_fmap_2.
Qed.

Lemma sort_filter (P : Entry → Prop) `{∀ e, Decision (P e)} es :
  NoDup (ent_position <$> es) → sort_by ent_position (filter P es) = filter P (sort_by ent_position es).
Proof.
  intros Hnd. apply (StronglySorted_unique_strong (key_le ent_position)).
  - intros x1 x2 H1%elem_of_sort_by H2. unfold key_le. intros ??.
    apply list_elem_of_filter in H1 as [_ H1], H2 as [_ H2%elem_of_sort_by].
    apply (NoDup_fmap_elem_inj ent_position es); [done..|lia].
  - apply sort_by_sorted.
  - induction (sort_by_sorted ent_position es) as [|e l Hs IH Hall]; [constructor|].
    rewrite filter_cons. case_decide; [|done]. constructor; [done|].
    rewrite list.Forall_forall in Hall |- *. intros x [_ Hx]%list_elem_of_filter. by apply Hall.
  - by rewrite !sort_by_Permutation.
Qed.

Lemma numbered_idemp l : numbered (numbered l) = numbered l.
Proof.
  apply list_eq. intros i. unfold numbered. rewrite !list_lookup_imap. by destruct (l !! i).
Qed.

Lemma numbered_sort_idemp es :
  gap_free es → es ≡ₚ numbered (sort_by ent_position es).
Proof.
  intros Hg. assert (numbered (sort_by ent_position es) = sort_by ent_position es) as ->;
    [|symmetry; apply sort_by_Permutation].
  apply list_eq. intros i. unfold numbered. rewrite list_lookup_imap.
  destruct (sort_by ent_position es !! i) as [e|] eqn:Hi; [|done]. simpl. f_equal.
  assert ((ent_position <$> sort_by ent_position es) !! i = Some (ent_position e)) as Hp
    by (by rewrite list_lookup_fmap, Hi).
  rewrite Hg in Hp. apply lookup_seqZ in Hp as [Hpos _].
  destruct e; unfold set_position; simpl in *. f_equal. lia.
Qed.

End refinement.

(** A key that is not an entry's makes phase 2 raise. *)
Lemma assign_order_known order es es' :
  assign_order order es = Ok es' → ∀ pk, pk ∈ order → pk ∈ (ent_pk <$> es).
Proof.
  unfold assign_order. intros Hrun pk Hpk.
  assert (∃ p, (pk, p) ∈ imap (λ i pk, (pk, Z.of_nat i)) order) as [p Hin].
  { apply list_elem_of_lookup in Hpk as [i Hi]. exists (Z.of_nat i). apply elem_of_lookup_imap. eauto. }
  revert es Hrun Hin. generalize (imap (λ i pk, (pk, Z.of_nat i)) order). clear.
  intros ws. induction ws as [|w ws IH]; intros es Hrun Hin; [by apply not_elem_of_nil in Hin|].
  simpl in Hrun. apply obind_Ok in Hrun as (es1 & Hw & Hrun). case_decide as Hk; [|done].
  apply elem_of_cons in Hin as [<-|Hin]; [done|]. specialize (IH _ Hrun Hin).
  destruct w as [q pos]. unfold save_position in Hw. case_decide; [done|]. case_decide; [done|].
  injection Hw as <-. by rewrite fmap_update_where in IH.
Qed.

(** ** The operations on a well-formed sequence *)

Lemma add_entry_spec group user now s :
  seq_wf s →
  (group ∈ (ent_group <$> seq_entries s) → add_entry group user now s = Ok (s, None)) ∧
  (group ∉ (ent_group <$> seq_entries s) → Z.of_nat (length (seq_entries s)) ≤ POSITION_MAX →
    ∃ s' e, add_entry group user now s = Ok (s', Some e) ∧
      order_of s' = order_of s ++ [(seq_next_pk s, group)] ∧
      seq_updated_by s' = Some user ∧ seq_wf s') ∧
  (group ∉ (ent_group <$> seq_entries s) → POSITION_MAX < Z.of_nat (length (seq_entries s)) →
    add_entry group user now s = Raise SeqDataError).
Proof.
  intros Hwf. pose proof Hwf as [Hpk Hgr Hg Hnx Hlen].
  assert (group ∈ (ent_group <$> seq_entries s) ↔ Exists (λ e, ent_group e = group) (seq_entries s)) as Hex.
  { rewrite list_elem_of_fmap, list.Exists_exists. naive_solver. }
  unfold add_entry. rewrite (gap_free_max _ Hg).
  replace (Z.of_nat (length (seq_entries s)) - 1 + 1) with (Z.of_nat (length (seq_entries s))) by lia.
  split_and!.
  - intros Hin. by rewrite decide_True by (by apply Hex).
  - intros Hno Hfit. rewrite decide_False by (by rewrite <-Hex). rewrite decide_False by lia.
    do 2 eexists. split; [reflexivity|].
    set (e := mkEntry (seq_next_pk s) group (Z.of_nat (length (seq_entries s)))).
    assert (seq_entries s ++ [e] ≡ₚ numbered (sort_by ent_position (seq_entries s) ++ [e])) as Hp.
    { unfold numbered. rewrite imap_app. simpl. apply Permutation_app.
      - by apply numbered_sort_idemp.
      - unfold set_position, e. simpl. rewrite Nat.add_0_r.
        by rewrite (Permutation_length (sort_by_Permutation ent_position (seq_entries s))). }
    split_and!; [|done|].
    + etrans; [by apply numbered_order|]. by rewrite fmap_app.
    + pose (s1 := mkSequence (seq_entries s) (seq_updated_by s) (seq_updated_at s) (seq_next_pk s + 1)).
      apply stamp_wf, (numbered_wf s1 (sort_by ent_position (seq_entries s) ++ [e]));
        rewrite ?fmap_app, ?sort_by_Permutation; [| | | |done].
      * apply NoDup_app. split_and!; [done| |apply NoDup_singleton].
        intros x (y & -> & Hy)%list_elem_of_fmap Heq%list_elem_of_singleton.
        specialize (Hnx y Hy). simpl in Heq. lia.
      * apply NoDup_app. split_and!; [done| |apply NoDup_singleton].
        intros x Hx ->%list_elem_of_singleton. done.
      * intros x [Hx%elem_of_sort_by| ->%list_elem_of_singleton]%elem_of_app; simpl; [|lia].
        specialize (Hnx x Hx). lia.
      * rewrite length_app. simpl. lia.
  - intros Hno Hbig. rewrite decide_False by (by rewrite <-Hex). by rewrite decide_True.
Qed.

Lemma remove_entry_spec pk user now s :
  seq_wf s →
  ∃ s', remove_entry pk user now s = Ok s' ∧
    order_of s' = filter (λ p, p.1 ≠ pk) (order_of s) ∧ seq_updated_by s' = Some user ∧ seq_wf s'.
Proof.
  intros Hwf. pose proof Hwf as [Hpk Hgr Hg Hnx Hlen]. unfold remove_entry, on_sequence_entry_delete.
  simpl. set (es0 := delete_where _ (seq_entries s)).
  assert (∀ e, e ∈ es0 → e ∈ seq_entries s) as Hin by (by intros e [_ ?]%list_elem_of_filter).
  assert (∀ (f : Entry → Z), NoDup (f <$> seq_entries s) → NoDup (f <$> es0)) as Hnd.
  { intros f. apply NoDup_fmap_filter. }
  assert (length es0 ≤ length (seq_entries s))%nat as Hlen0 by apply length_filter.
  destruct (renumber_Ok es0) as (es1 & -> & Hp1).
  { by apply Hnd. } { by apply Hnd, gap_free_NoDup. }
  { intros e He%Hin. by apply (gap_free_positions (seq_entries s)). } { lia. }
  simpl. assert (NoDup (ent_pk <$> es1)) as Hpk1.
  { rewrite Hp1, numbered_column, sort_by_Permutation by done. by apply Hnd. }
  assert (length es1 = length es0) as Hl1 by (by rewrite Hp1, length_numbered, sort_by_Permutation).
  pose proof (numbered_gap_free _ _ Hp1) as Hg1.
  destruct (renumber_Ok es1) as (es2 & -> & Hp2); [done|by apply gap_free_NoDup| |lia|].
  { intros e He. by apply (gap_free_positions es1). }
  rewrite (sort_by_numbered _ _ Hp1), numbered_idemp in Hp2. simpl.
  eexists. split; [reflexivity|]. split_and!; [|done|].
  - etrans; [by apply numbered_order|]. unfold es0, order_of, delete_where.
    rewrite filter_fmap_ne by done. by rewrite <-sort_filter by (by apply gap_free_NoDup).
  - apply stamp_wf. apply (numbered_wf (mkSequence es1 (seq_updated_by s) now (seq_next_pk s))
      (sort_by ent_position es0)); rewrite ?sort_by_Permutation; [by apply Hnd|by apply Hnd| |lia|done].
    intros e He%elem_of_sort_by%Hin. by apply Hnx.
Qed.

Lemma length_order_of s : length (order_of s) = length (seq_entries s).
Proof. unfold order_of. rewrite length_fmap. apply Permutation_length, sort_by_Permutation. Qed.

Lemma order_of_NoDup s : seq_wf s → NoDup (order_of s).
Proof.
  intros [Hpk _ _ _ _]. apply (NoDup_fmap_1 fst). unfold order_of.
  rewrite <-list_fmap_compose. by rewrite sort_by_Permutation.
Qed.

Lemma move_entry_spec pk group position new_position user now s :
  seq_wf s → mkEntry pk group position ∈ seq_entries s →
  (Z.of_nat (length (seq_entries s)) ≤ 16383 →
    ∃ s', move_entry pk new_position user now s = Ok s' ∧
      order_of s' = moved_order (pk, group) new_position (order_of s) ∧
      seq_updated_by s' = Some user ∧ seq_wf s') ∧
  (16383 < Z.of_nat (length (seq_entries s)) →
    move_entry pk new_position user now s = Raise SeqValueError).
Proof.
  intros Hwf He. pose proof Hwf as [Hpk Hgr Hg Hnx Hlen]. unfold move_entry.
  pose proof (calc_offset_gap_free _ Hg) as Hoff. unfold POSITION_MAX in Hoff.
  split; intros Hn; [|by rewrite Hoff, decide_False by lia].
  rewrite decide_True in Hoff by lia. rewrite Hoff. simpl.
  set (e := mkEntry pk group position) in *. set (l0 := sort_by ent_position (seq_entries s)).
  assert (l0 ≡ₚ seq_entries s) as Hl0 by apply sort_by_Permutation.
  assert (seq_entries s ≡ₚ moved_order e new_position l0) as Hp.
  { rewrite moved_order_Permutation; [done| |by rewrite Hl0]. rewrite Hl0. by apply entries_NoDup. }
  destruct (two_phase_Ok _ _ _ Hp Hpk Hg Hlen Hoff) as (es1 & es2 & -> & Hp1 & Hs2 & Hp2). simpl.
  rewrite (sort_shifted _ _ _ Hg Hp1). fold l0.
  assert (∀ y, y ∈ l0 → ent_pk y = ent_pk e → y = e) as Hinj.
  { intros y Hy Heq. apply (NoDup_fmap_elem_inj ent_pk (seq_entries s)); try done. by rewrite <-Hl0. }
  rewrite (moved_order_fmap ent_pk) in Hs2 by done. change (ent_pk e) with pk in Hs2. rewrite Hs2. simpl.
  eexists. split; [reflexivity|]. split_and!; [|done|].
  - etrans; [by apply numbered_order|]. unfold order_of. fold l0.
    apply (moved_order_fmap (λ e, (ent_pk e, ent_group e))). intros y Hy [= ? ?]. by apply Hinj.
  - apply stamp_wf. by eapply permuted_wf.
Qed.

Lemma reorder_spec order_ids user now s :
  seq_wf s →
  if decide (order_ids ≡ₚ (ent_pk <$> seq_entries s) ∧ Z.of_nat (length (seq_entries s)) ≤ 16383)
  then ∃ s', reorder_view order_ids user now s = Ok (ReorderDone s') ∧
         fst <$> order_of s' = order_ids ∧ order_of s' ≡ₚ order_of s ∧ seq_wf s'
  else reorder_view order_ids user now s = Ok ReorderBadRequest.
Proof.
  intros Hwf. pose proof Hwf as [Hpk Hgr Hg Hnx Hlen]. unfold reorder_view.
  pose proof (calc_offset_gap_free _ Hg) as Hoff. unfold POSITION_MAX in Hoff.
  destruct (decide (order_ids ≡ₚ (ent_pk <$> seq_entries s))) as [Hperm|Hperm].
  - rewrite bool_decide_true by (by rewrite Hperm). simpl.
    rewrite bool_decide_true.
    2:{ split; apply list.Forall_forall; intros x; by rewrite Hperm. }
    simpl. assert (length order_ids = length (seq_entries s)) as ->
      by (by rewrite Hperm, length_fmap).
    destruct (decide (Z.of_nat (length (seq_entries s)) ≤ 16383)) as [Hn|Hn].
    2:{ rewrite (decide_False (P:=_ ∧ _)) by tauto. by rewrite Hoff, decide_False by lia. }
    rewrite decide_True by done. rewrite decide_True in Hoff by lia. rewrite Hoff.
    apply Permutation_map_inv in Hperm as (l & -> & Hp). change (map ent_pk l) with (ent_pk <$> l).
    destruct (two_phase_Ok _ _ _ Hp Hpk Hg Hlen Hoff) as (es1 & es2 & -> & Hp1 & Hs2 & Hp2). simpl.
    rewrite Hs2. simpl. eexists. split; [reflexivity|].
    assert (order_of (stamp user now (set_entries es2 s)) = (λ e, (ent_pk e, ent_group e)) <$> l) as Hord
      by (by apply numbered_order).
    rewrite Hord. split_and!; [by rewrite <-list_fmap_compose| |apply stamp_wf; by eapply permuted_wf].
    unfold order_of. by rewrite sort_by_Permutation, Hp.
  - rewrite decide_False by tauto.
    destruct (bool_decide (NoDup order_ids)) eqn:Hnd; [simpl|done]. apply bool_decide_eq_true in Hnd.
    rewrite bool_decide_false; [done|]. intros [H1 H2]. apply Hperm.
    rewrite list.Forall_forall in H1, H2. apply NoDup_Permutation; [done..|]. naive_solver.
Qed.

(** What the application does to the sequence: each operation that succeeds
    (the others roll back), and direct deletes with their signal. *)
Inductive seq_step : Sequence → Sequence → Prop :=
| seq_add group user now s s' e : add_entry group user now s = Ok (s', e) → seq_step s s'
| seq_remove pk user now s s' : remove_entry pk user now s = Ok s' → seq_step s s'
| seq_move pk np user now s s' : move_entry pk np user now s = Ok s' → seq_step s s'
| seq_reorder ids user now s s' : reorder_view ids user now s = Ok (ReorderDone s') → seq_step s s'
| seq_touch user now s : seq_step s (touch_sequence user now s).

Lemma move_unknown pk np user now s s' :
  seq_wf s → move_entry pk np user now s = Ok s' → ∃ e, e ∈ seq_entries s ∧ ent_pk e = pk.
Proof.
  intros [Hpk Hgr Hg Hnx Hlen] Hrun. unfold move_entry in Hrun.
  apply obind_Ok in Hrun as (offset & Hoff & Hrun). apply obind_Ok in Hrun as (es1 & Hs1 & Hrun).
  apply obind_Ok in Hrun as (es2 & Hs2 & _).
  destruct (two_phase_Ok _ (seq_entries s) _ ltac:(done) Hpk Hg Hlen Hoff)
    as (es1' & _ & Hs1' & Hp1 & _ & _).
  rewrite Hs1 in Hs1'. injection Hs1' as <-.
  assert (pk ∈ (ent_pk <$> es1)) as Hin.
  { eapply assign_order_known; [exact Hs2|]. unfold moved_order.
    rewrite list_insert_at_Permutation. apply list_elem_of_here. }
  rewrite Hp1, <-list_fmap_compose in Hin. apply list_elem_of_fmap in Hin as (e & -> & He). eauto.
Qed.

Lemma seq_step_wf s s' : seq_step s s' → seq_wf s → seq_wf s'.
Proof.
  intros Hstep Hwf. destruct Hstep as [group user now s s' e Ha|pk user now s s' Hr|
    pk np user now s s' Hm|ids user now s s' Hr|user now s].
  - destruct (add_entry_spec group user now s Hwf) as (Hin & Hnew & Hfull).
    destruct (decide (group ∈ (ent_group <$> seq_entries s))) as [Hg|Hg].
    + rewrite (Hin Hg) in Ha. by simplify_eq.
    + destruct (decide (Z.of_nat (length (seq_entries s)) ≤ POSITION_MAX)).
      * destruct Hnew as (s1 & e1 & Heq & _ & _ & Hwf1); [done..|]. rewrite Heq in Ha. by simplify_eq.
      * rewrite Hfull in Ha; [done..|lia].
  - destruct (remove_entry_spec pk user now s Hwf) as (s1 & Heq & _ & _ & ?). rewrite Heq in Hr. by simplify_eq.
  - destruct (move_unknown _ _ _ _ _ _ Hwf Hm) as ([pk' g p] & He & Hpk). simpl in Hpk. subst pk'.
    destruct (move_entry_spec pk g p np user now s Hwf He) as [Hok Hbig].
    destruct (decide (Z.of_nat (length (seq_entries s)) ≤ 16383)) as [Hle|Hgt].
    + destruct (Hok Hle) as (s1 & Heq & _ & _ & ?). rewrite Heq in Hm. by simplify_eq.
    + rewrite Hbig in Hm by lia. done.
  - pose proof (reorder_spec ids user now s Hwf) as Hspec. case_decide.
    + destruct Hspec as (s1 & Heq & _ & _ & ?). rewrite Heq in Hr. by simplify_eq.
    + rewrite Hspec in Hr. done.
  - by apply stamp_wf.
Qed.

Lemma seq_reachable_wf s s' : rtc seq_step s s' → seq_wf s → seq_wf s'.
Proof. induction 1; eauto using seq_step_wf. Qed.

(** The empty sequence [current_sequence] creates. *)
Lemma current_sequence_wf now : seq_wf (current_sequence now None).
Proof. split; simpl; try (by constructor); try done. intros e H. by apply not_elem_of_nil in H. Qed.

(** ** Properties *)

(** Invariant of the rollout sequence: from the empty sequence on, whatever
    adds, removals, moves, reorders and touches run, the positions are exactly
    0, 1, ..., n - 1 and no group (nor key) occurs twice. *)
Lemma sequence_always_gap_free now0 s :
  rtc seq_step (current_sequence now0 None) s →
  ent_position <$> sort_by ent_position (seq_entries s) = seqZ 0 (Z.of_nat (length (seq_entries s))) ∧
  NoDup (ent_group <$> seq_entries s) ∧ NoDup (ent_pk <$> seq_entries s).
Proof.
  intros Hrun. by destruct (seq_reachable_wf _ _ Hrun (current_sequence_wf now0)).
Qed.

(** [add_entry]: a group already there changes
    nothing; a new one is appended as the last group, as long as its position
    fits the column (at most 32767). *)
Lemma add_entry_refines now0 group user now s :
  rtc seq_step (current_sequence now0 None) s →
  (group ∈ (ent_group <$> seq_entries s) → add_entry group user now s = Ok (s, None)) ∧
  (group ∉ (ent_group <$> seq_entries s) → Z.of_nat (length (seq_entries s)) ≤ POSITION_MAX →
    ∃ s' e, add_entry group user now s = Ok (s', Some e) ∧
      order_of s' = order_of s ++ [(seq_next_pk s, group)] ∧ seq_updated_by s' = Some user) ∧
  (group ∉ (ent_group <$> seq_entries s) → POSITION_MAX < Z.of_nat (length (seq_entries s)) →
    add_entry group user now s = Raise SeqDataError).
Proof.
  intros Hrun. pose proof (seq_reachable_wf _ _ Hrun (current_sequence_wf now0)) as Hwf.
  by destruct (add_entry_spec group user now s Hwf) as (? & Hnew & ?); split_and!; [|naive_solver|].
Qed.

(** [remove_entry] never raises: no renumbering write ever collides with
    the unique constraint.  The order loses exactly the removed entry and the
    rest keeps its relative order and is numbered from 0 without gaps. *)
Lemma remove_entry_refines now0 pk user now s :
  rtc seq_step (current_sequence now0 None) s →
  ∃ s', remove_entry pk user now s = Ok s' ∧
    order_of s' = filter (λ p, p.1 ≠ pk) (order_of s) ∧ seq_updated_by s' = Some user.
Proof.
  intros Hrun. pose proof (seq_reachable_wf _ _ Hrun (current_sequence_wf now0)) as Hwf.
  destruct (remove_entry_spec pk user now s Hwf) as (s' & ? & ? & ? & _). eauto.
Qed.

(** The index of an entry in the order is its position column. *)
Lemma order_position s i pk group :
  gap_free (seq_entries s) → order_of s !! i = Some (pk, group) →
  mkEntry pk group (Z.of_nat i) ∈ seq_entries s.
Proof.
  unfold order_of, gap_free. intros Hg Hi. apply list_lookup_fmap_Some in Hi as ([pk' g' p] & [= -> ->] & Hi).
  assert (p = Z.of_nat i) as ->.
  { assert ((ent_position <$> sort_by ent_position (seq_entries s)) !! i = Some p) as Hp
      by (by rewrite list_lookup_fmap, Hi).
    rewrite Hg in Hp. apply lookup_seqZ in Hp as [-> _]. lia. }
  by eapply elem_of_sort_by, list_elem_of_lookup_2.
Qed.

(** C25. [move_entry] moves the entry to the clamped index and keeps the others
    in their order; the two-phase rewrite never collides with the unique
    constraint.  It refuses (ValueError) exactly the sequences whose shifted
    positions would not fit the column, those of more than 16383 entries. *)
Theorem move_entry_refines now0 pk group position new_position user now s :
  rtc seq_step (current_sequence now0 None) s → mkEntry pk group position ∈ seq_entries s →
  (Z.of_nat (length (seq_entries s)) ≤ 16383 →
    ∃ s', move_entry pk new_position user now s = Ok s' ∧
      mkEntry pk group (Z.max 0 (Z.min new_position (Z.of_nat (length (seq_entries s)) - 1)))
        ∈ seq_entries s' ∧
      filter (λ p, p ≠ (pk, group)) (order_of s') = filter (λ p, p ≠ (pk, group)) (order_of s) ∧
      ent_position <$> sort_by ent_position (seq_entries s') =
        seqZ 0 (Z.of_nat (length (seq_entries s))) ∧
      seq_updated_by s' = Some user) ∧
  (16383 < Z.of_nat (length (seq_entries s)) →
    move_entry pk new_position user now s = Raise SeqValueError).
Proof.
  intros Hrun Hin. pose proof (seq_reachable_wf _ _ Hrun (current_sequence_wf now0)) as Hwf.
  destruct (move_entry_spec pk group position new_position user now s Hwf Hin) as [Hok Hbig].
  split; [|exact Hbig]. intros Hn. destruct (Hok Hn) as (s' & Hmove & Hord & Hby & [_ _ Hg' _ _]).
  assert (NoDup (order_of s)) as Hnd by (by apply order_of_NoDup).
  assert ((pk, group) ∈ order_of s) as Hel.
  { apply list_elem_of_fmap. eexists. split; [|by apply elem_of_sort_by]. done. }
  assert (length (order_of s) = length (seq_entries s)) as Hl by apply length_order_of.
  assert (length (seq_entries s') = length (seq_entries s)) as Hl'.
  { rewrite <-!length_order_of, Hord. by apply Permutation_length, moved_order_Permutation. }
  exists s'. split_and!; [done| | | |done].
  - pose proof (moved_order_lookup (pk, group) new_position _ Hnd Hel) as Hi.
    rewrite <-Hord, Hl in Hi. apply order_position in Hi; [|done]. by rewrite Z2Nat.id in Hi by lia.
  - by rewrite Hord, moved_order_filter.
  - by rewrite <-Hl'.
Qed.

(** [SequenceReorderView]: a payload that is not a permutation of the
    entries (duplicates, missing or foreign ids), or of more than 16383
    entries, is refused and changes nothing; any other becomes the new order,
    without a collision. *)
Lemma reorder_refines now0 order_ids user now s :
  rtc seq_step (current_sequence now0 None) s →
  if decide (order_ids ≡ₚ (ent_pk <$> seq_entries s) ∧ Z.of_nat (length (seq_entries s)) ≤ 16383)
  then ∃ s', reorder_view order_ids user now s = Ok (ReorderDone s') ∧
         fst <$> order_of s' = order_ids ∧ order_of s' ≡ₚ order_of s
  else reorder_view order_ids user now s = Ok ReorderBadRequest.
Proof.
  intros Hrun. pose proof (seq_reachable_wf _ _ Hrun (current_sequence_wf now0)) as Hwf.
  pose proof (reorder_spec order_ids user now s Hwf) as Hspec. case_decide; [|done].
  destruct Hspec as (s' & ? & ? & ? & _). eauto.
Qed.

(** Two groups added to a fresh sequence. *)
Definition demo_sequence : Sequence := mkSequence [mkEntry 1 10 0; mkEntry 2 20 1] (Some 7) 5 3.

Lemma demo_sequence_reachable : rtc seq_step (current_sequence 0 None) demo_sequence.
Proof.
  eapply rtc_l; [eapply (seq_add 10 7 4); vm_compute; reflexivity|].
  apply rtc_once. eapply (seq_add 20 7 5). vm_compute. reflexivity.
Qed.

Lemma sequence_always_gap_free_witness :
  ent_position <$> sort_by ent_position (seq_entries demo_sequence) = [0; 1].
Proof. exact (proj1 (sequence_always_gap_free 0 demo_sequence demo_sequence_reachable)). Defined.

Lemma add_entry_refines_witness :
  ∃ s' e, add_entry 30 7 6 demo_sequence = Ok (s', Some e) ∧
    order_of s' = order_of demo_sequence ++ [(3, 30)] ∧ seq_updated_by s' = Some 7.
Proof.
  apply (add_entry_refines 0 30 7 6 demo_sequence demo_sequence_reachable).
  - apply (bool_decide_unpack _). vm_compute. exact I.
  - vm_compute. discriminate.
Defined.

Lemma remove_entry_refines_witness :
  ∃ s', remove_entry 1 7 6 demo_sequence = Ok s' ∧
    order_of s' = filter (λ p, p.1 ≠ 1) (order_of demo_sequence) ∧ seq_updated_by s' = Some 7.
Proof. exact (remove_entry_refines 0 1 7 6 demo_sequence demo_sequence_reachable). Defined.

Lemma move_entry_refines_witness :
  ∃ s', move_entry 1 9 7 6 demo_sequence = Ok s' ∧ mkEntry 1 10 1 ∈ seq_entries s' ∧
    filter (λ p, p ≠ (1, 10)) (order_of s') = [(2, 20)].
Proof.
  destruct (move_entry_refines 0 1 10 0 9 7 6 demo_sequence demo_sequence_reachable) as [Hok _].
  - apply (bool_decide_unpack _). vm_compute. exact I.
  - destruct Hok as (s' & ? & ? & ? & _); [vm_compute; discriminate|]. by exists s'.
Defined.

Lemma reorder_refines_witness :
  ∃ s', reorder_view [2; 1] 7 6 demo_sequence = Ok (ReorderDone s') ∧ order_of s' = [(2, 20); (1, 10)].
Proof.
  pose proof (reorder_refines 0 [2; 1] 7 6 demo_sequence demo_sequence_reachable) as H.
  rewrite decide_True in H.
  2:{ split; [apply perm_swap|vm_compute; discriminate]. }
  destruct H as (s' & Heq & _). exists s'. split; [exact Heq|].
  vm_compute in Heq. injection Heq as <-. vm_compute. reflexivity.
Defined.

(** *** Dashboard buckets *)

Lemma filter_split {A} (f : A → string) k ks (l : list A) :
  k ∉ ks → filter (λ x, f x ∈ k :: ks) l ≡ₚ filter (λ x, f x = k) l ++ filter (λ x, f x ∈ ks) l.
Proof.
  intros Hk. induction l as [|x l IH]; [done|]. rewrite !filter_cons.
  destruct (decide (f x ∈ k :: ks)) as [Hin|Hin]; rewrite elem_of_cons in Hin.
  - destruct (decide (f x = k)) as [He|He].
    + rewrite decide_False by congruence. by rewrite IH.
    + rewrite decide_True by naive_solver. by rewrite IH, Permutation_middle.
  - rewrite !decide_False by tauto. done.
Qed.

Lemma buckets_join {A} (f : A → string) ks (l : list A) :
  NoDup ks → mjoin ((λ k, filter (λ x, f x = k) l) <$> ks) ≡ₚ filter (λ x, f x ∈ ks) l.
Proof.
  induction 1 as [|k ks Hk Hnd IH]; csimpl.
  - assert (filter (λ x, f x ∈ []) l = []) as ->; [|done].
    apply elem_of_nil_inv. by intros x [Hx%not_elem_of_nil _]%list_elem_of_filter.
  - by rewrite IH, filter_split.
Qed.

Lemma bucket_key_known groups g : bucket_key groups g ∈ (grp_slug <$> groups) ++ [UNASSIGNED_KEY].
Proof.
  apply elem_of_app. unfold bucket_key. destruct g as [g|]; [|right; by apply list_elem_of_singleton].
  destruct (last _) as [x|] eqn:Hl; [|right; by apply list_elem_of_singleton].
  left. apply last_Some_elem_of, list_elem_of_filter in Hl as [_ Hl]. by apply list_elem_of_fmap_2.
Qed.

(** The dashboard shows every station exactly once: each station is in the
    bucket of its group (or the unassigned one), the bucket keys are distinct
    and the buckets together are the given stations, whatever the groups. *)
Lemma grouping_partitions_stations {St} (group_id : St → option Z) groups (stations : list St) :
  let buckets := group_stations_by_sequence group_id groups stations in
  NoDup buckets.*1 ∧ mjoin buckets.*2 ≡ₚ stations ∧
  (∀ k b st, (k, b) ∈ buckets → st ∈ b → bucket_key groups (group_id st) = k).
Proof.
  unfold group_stations_by_sequence. set (keys := reverse _). simpl.
  assert (NoDup keys) as Hnd by (unfold keys; rewrite reverse_Permutation; apply NoDup_remove_dups).
  split_and!.
  - rewrite <-list_fmap_compose. by rewrite list_fmap_id.
  - rewrite <-list_fmap_compose.
    etrans; [apply (buckets_join (λ st, bucket_key groups (group_id st))); done|].
    assert (∀ l : list St, filter (λ x, bucket_key groups (group_id x) ∈ keys) l = l) as ->; [|done].
    induction l as [|x l IH]; [done|]. rewrite filter_cons, decide_True, IH; [done|].
    unfold keys. rewrite elem_of_reverse, elem_of_remove_dups, elem_of_reverse. apply bucket_key_known.
  - intros k b st (k' & [= -> ->] & _)%list_elem_of_fmap [Hk _]%list_elem_of_filter. done.
Qed.
