(* ===== verification/Permissions.v ===== *)
(** * Permissions

    Models [apps/accounts/permissions.py], the one place that decides who may
    do what: the area table with its validation, the resolution of verbs to
    membership levels, [can], [users_with], the lock override rule, the gates
    of web views, REST views and WebSocket feeds, and the deduplicated log of
    denials.  Label texts are left out. *)

From Stdlib Require Import ZArith Lia.
From stdpp Require Import base gmap list strings.
From S2P Require Import Prelude.

Local Open Scope Z_scope.

(** ** Levels, verbs, areas *)

Definition VERBS : list string := ["view"; "use"; "manage"].

(** [Level(IntEnum)] *)
Inductive Level := APPLICANT | MEMBER | STAFF | ADMIN.

#[export] Instance Level_eq_dec : EqDecision Level.
Proof. solve_decision. Defined.

Definition level_value (l : Level) : Z :=
  match l with APPLICANT => 1 | MEMBER => 2 | STAFF => 3 | ADMIN => 4 end.

Definition all_levels : list Level := [APPLICANT; MEMBER; STAFF; ADMIN].

Definition slug (l : Level) : string :=
  match l with APPLICANT => "applicant" | MEMBER => "member" | STAFF => "staff" | ADMIN => "admin" end.

(** [Level.from_slug]: lookup in [_BY_SLUG]. *)
Definition from_slug (s : string) : option Level :=
  snd <$> list_find (λ l, slug l = s) all_levels.

Definition level_ge (a b : Level) : bool := bool_decide (level_value b ≤ level_value a).

Record Area := mkArea {
  area_view : option Level;
  area_use : option Level;
  area_manage : option Level;
  verb_labels : list string     (* the verbs the area labels *)
}.

(** [getattr(area, verb)] *)
Definition area_level (a : Area) (verb : string) : option Level :=
  if decide (verb = "view") then area_view a
  else if decide (verb = "use") then area_use a
  else if decide (verb = "manage") then area_manage a
  else None.

Definition AREAS : list (string * Area) :=
  let A := Some APPLICANT in let M := Some MEMBER in let S := Some STAFF in let AD := Some ADMIN in
  [("dashboard", mkArea A None None []);
   ("profile", mkArea None A None []);
   ("stations", mkArea A None S ["manage"]);
   ("control", mkArea A M S ["use"; "manage"]);
   ("terminal", mkArea None AD None ["use"]);
   ("topology", mkArea A None AD ["manage"]);
   ("deployments", mkArea A None S ["manage"]);
   ("rollouts", mkArea A None AD ["manage"]);
   ("images", mkArea A None AD ["manage"]);
   ("provisioning", mkArea None None AD []);
   ("alerts", mkArea A None S ["manage"]);
   ("alert_rules", mkArea A None AD ["manage"]);
   ("modules", mkArea A None S ["manage"]);
   ("repeaters", mkArea A None S ["manage"]);
   ("users", mkArea M None AD ["manage"]);
   ("api_tokens", mkArea None M None ["use"]);
   ("audit", mkArea AD None None []);
   ("sso", mkArea None None AD [])].

Inductive PermError := KeyError (key : string) | ImproperlyConfigured (area : string).

(** [defined != sorted(defined)] on levels *)
Fixpoint nondecreasing (l : list Z) : bool :=
  match l with
  | x :: ((y :: _) as l') => bool_decide (x ≤ y) && nondecreasing l'
  | _ => true
  end.

Definition defined_levels (a : Area) : list Z := level_value <$> omap (area_level a) VERBS.

Definition validate_area (na : string * Area) : bool :=
  let (name, a) := na in
  bool_decide (defined_levels a ≠ []) && nondecreasing (defined_levels a) &&
  forallb (λ v, bool_decide (v ∈ VERBS) && bool_decide (area_level a v ≠ None)) (verb_labels a).

Definition validate_areas (areas : list (string * Area)) : outcome PermError unit :=
  ofold (λ _ na, if validate_area na then Ok () else Raise (ImproperlyConfigured na.1)) () areas.

(** ** Resolution *)

Section resolution.
Context (areas : list (string * Area)).

Definition find_area (area : string) : option Area :=
  snd ∘ snd <$> list_find (λ p, p.1 = area) areas.

(** [VERBS[VERBS.index(verb):]] *)
Definition verbs_from (verb : string) : list string :=
  match list_find (λ v, v = verb) VERBS with
  | Some (i, _) => drop i VERBS
  | None => []
  end.

Definition required_level (area verb : string) : outcome PermError (option Level) :=
  match find_area area with
  | None => Raise (KeyError area)
  | Some spec =>
    if decide (verb ∉ VERBS) then Raise (KeyError verb)
    else Ok (head (omap (area_level spec) (verbs_from verb)))
  end.

(** A user, or [AnonymousUser] ([is_authenticated = False]). *)
Record User := mkUser {
  u_pk : Z;
  is_authenticated : bool;
  is_active : bool;
  deleted_at : option Z;
  membership_level : string
}.

Definition level_of (user : option User) : option Level :=
  match user with
  | None => None
  | Some u =>
    if negb (is_authenticated u) then None
    else if negb (is_active u) || bool_decide (deleted_at u ≠ None) then None
    else from_slug (membership_level u)
  end.

Definition can (user : option User) (area verb : string) : outcome PermError bool :=
  obind (required_level area verb) (λ needed,
    Ok (match needed, level_of user with
        | Some n, Some h => level_ge h n
        | _, _ => false
        end)).

(** [users_with]: the queryset over the users table (all authenticated). *)
Definition users_with (area verb : string) (table : list User) : outcome PermError (list User) :=
  obind (required_level area verb) (λ needed,
    Ok (match needed with
        | None => []
        | Some n =>
          let slugs := slug <$> filter (λ l, level_ge l n) all_levels in
          filter (λ u, is_active u ∧ deleted_at u = None ∧ membership_level u ∈ slugs) table
        end)).

(** [matrix()] without the labels. *)
Definition matrix : outcome PermError (list (string * option Level * option Level * option Level)) :=
  ofold (λ rows na,
    obind (required_level na.1 "view") (λ v, obind (required_level na.1 "use") (λ u,
      obind (required_level na.1 "manage") (λ m, Ok (rows ++ [(na.1, v, u, m)])))))
    [] areas.

End resolution.

(** *** The lock override rule *)

Record Assignments := mkAssignments {
  station_assignments : list (Z * string);   (* (station, role) *)
  region_assignments : list (Z * string)     (* (region, role) *)
}.

Definition can_override_station (user : option User) (asg : Assignments) (station : Z)
    (region_id : option Z) : outcome PermError bool :=
  obind (can AREAS user "control" "manage") (λ m,
    if m then Ok true
    else obind (can AREAS user "control" "use") (λ u,
      if negb u then Ok false
      else if bool_decide ((station, "admin") ∈ station_assignments asg) then Ok true
      else Ok (match region_id with
               | None => false
               | Some r => bool_decide ((r, "manager") ∈ region_assignments asg)
               end))).

(** ** Denials *)

Record AreaDenied := mkDenied {
  den_area : string;
  den_verb : string;
  den_required : option Level;
  den_actual : option Level
}.

(** The [PERMISSION_DENIED] audit rows and the dedupe cache (key to row pk and
    expiry time). *)
Record DenialRow := mkDenialRow {
  dr_pk : Z;
  dr_actor : Z;
  dr_denied : AreaDenied;
  dr_path : string;
  dr_method : string;
  dr_channel : string;
  dr_count : Z
}.

Definition DenialKey : Type := Z * string * string * string.

Record DenialLog := mkDenialLog {
  dl_rows : list DenialRow;
  dl_next_pk : Z;
  dl_cache : gmap DenialKey (Z * Z)
}.

Definition DENIAL_DEDUPE_SECONDS : Z := 600.

Definition count_up (r : DenialRow) : DenialRow :=
  mkDenialRow (dr_pk r) (dr_actor r) (dr_denied r) (dr_path r) (dr_method r) (dr_channel r) (dr_count r + 1).

(** [path[:255]] *)
Definition path_prefix (p : string) : string := String.substring 0 255 p.

Section denials.
(** [hashlib.sha256(path.encode()).hexdigest()] *)
Context (digest : string → string).

(** [cache.get(key)] at time [now] *)
Definition cache_get (now : Z) (key : DenialKey) (log : DenialLog) : option Z :=
  match dl_cache log !! key with
  | Some (pk, expiry) => if decide (now < expiry) then Some pk else None
  | None => None
  end.

Definition log_denial (user : User) (exc : AreaDenied) (channel path method : string) (now : Z)
    (log : DenialLog) : DenialLog :=
  if negb (is_authenticated user) then log
  else
    let key := (u_pk user, den_area exc, den_verb exc, digest path) in
    let fresh :=
      let pk := dl_next_pk log in
      mkDenialLog (dl_rows log ++
          [mkDenialRow pk (u_pk user) exc (path_prefix path) method channel 1])
        (pk + 1) (<[key := (pk, now + DENIAL_DEDUPE_SECONDS)]> (dl_cache log)) in
    match cache_get now key log with
    | None => fresh
    | Some pk =>
      if decide (Exists (λ r, dr_pk r = pk) (dl_rows log))
      then mkDenialLog (update_where (λ r, dr_pk r = pk) count_up (dl_rows log)) (dl_next_pk log) (dl_cache log)
      else fresh
    end.

Inductive Gate := Passed | Denied (exc : AreaDenied).

Definition require (user : option User) (area verb channel path method : string) (now : Z)
    (log : DenialLog) : outcome PermError (Gate * DenialLog) :=
  obind (can AREAS user area verb) (λ ok,
    if ok then Ok (Passed, log)
    else
      obind (required_level AREAS area verb) (λ needed,
        let exc := mkDenied area verb needed (level_of user) in
        Ok (Denied exc,
            match user with
            | Some u => log_denial u exc channel path method now log
            | None => log
            end))).

(** ** Gates *)

Definition SAFE_METHODS : list string := ["GET"; "HEAD"; "OPTIONS"].

(** The declarations of a view; [method] is upper case already. *)
Record View := mkView {
  v_area : string;
  v_verb : option string;
  v_verbs : list (string * string);
  v_handlers : list string      (* the methods it implements *)
}.

Definition resolve_verb (view : View) (method : string) : string :=
  match list_find (λ p, p.1 = method) (v_verbs view) with
  | Some (_, (_, v)) => v
  | None =>
    match v_verb view with
    | Some v => if decide (v = "") then (if bool_decide (method ∈ SAFE_METHODS) then "view" else "manage") else v
    | None => if bool_decide (method ∈ SAFE_METHODS) then "view" else "manage"
    end
  end.

Inductive WebOutcome := RedirectToLogin | MethodNotAllowed | Forbidden (exc : AreaDenied) | RunHandler.

(** [AreaPermissionMixin.dispatch] *)
Definition dispatch (view : View) (user : User) (method path : string) (now : Z) (log : DenialLog)
  : outcome PermError (WebOutcome * DenialLog) :=
  if negb (is_authenticated user) then Ok (RedirectToLogin, log)
  else if negb (bool_decide (method ∈ v_handlers view)) then Ok (MethodNotAllowed, log)
  else
    obind (require (Some user) (v_area view) (resolve_verb view method) "web" path method now log)
      (λ gl, match gl with
             | (Passed, log') => Ok (RunHandler, log')
             | (Denied exc, log') => Ok (Forbidden exc, log')
             end).

Inductive ApiGate := ApiAllow | ApiRefuse | ApiDenied (exc : AreaDenied).

(** [AreaPermission.has_permission]; [original] is the method of the real
    request when DRF probes another one. *)
Definition has_permission (view : View) (user : option User) (method : string)
    (original : option string) (path : string) (now : Z) (log : DenialLog)
  : outcome PermError (ApiGate * DenialLog) :=
  match user with
  | None => Ok (ApiRefuse, log)
  | Some u =>
    if negb (is_authenticated u) then Ok (ApiRefuse, log)
    else
      let verb := resolve_verb view method in
      if match original with Some m => bool_decide (method ≠ m) | None => false end then
        obind (can AREAS user (v_area view) verb) (λ b, Ok (if b then ApiAllow else ApiRefuse, log))
      else if negb (bool_decide (method ∈ v_handlers view)) then Ok (ApiAllow, log)
      else
        obind (require user (v_area view) verb "api" path method now log) (λ gl,
          match gl with
          | (Passed, log') => Ok (ApiAllow, log')
          | (Denied exc, log') => Ok (ApiDenied exc, log')
          end)
  end.

End denials.

(** *** Passive WebSocket feeds: [_periodic_recheck_loop] *)

(** What one re-check sees: it fails (the database is down), or it answers. *)
Inductive Recheck := CheckFails | CheckAnswers (allowed : bool).

Inductive Feed := FeedOpen (failures : Z) | FeedClosed (code : Z).

Definition RECHECK_MAX_FAILURES : Z := 2.

Definition recheck_tick (f : Feed) (r : Recheck) : Feed :=
  match f with
  | FeedClosed c => FeedClosed c
  | FeedOpen failures =>
    match r with
    | CheckFails =>
      if decide (failures + 1 < RECHECK_MAX_FAILURES) then FeedOpen (failures + 1) else FeedClosed 1011
    | CheckAnswers true => FeedOpen 0
    | CheckAnswers false => FeedClosed 4403
    end
  end.

Definition recheck_loop (rs : list Recheck) : Feed := foldl recheck_tick (FeedOpen 0) rs.

(** ** Lemmas *)

Section lemmas.
Implicit Types (areas : list (string * Area)) (u : User).

Lemma from_slug_slug l : from_slug (slug l) = Some l.
Proof. by destruct l. Qed.

Lemma from_slug_Some s l : from_slug s = Some l ↔ s = slug l.
Proof.
  split; [|intros ->; apply from_slug_slug].
  unfold from_slug. intros ([i y] & Hf & ->)%fmap_Some. by apply list_find_Some in Hf as (_ & <- & _).
Qed.

(** The three resolved verbs of an area. *)
Lemma required_level_verbs areas area a :
  find_area areas area = Some a →
  required_level areas area "view" = Ok (head (omap (area_level a) VERBS)) ∧
  required_level areas area "use" = Ok (head (omap (area_level a) ["use"; "manage"])) ∧
  required_level areas area "manage" = Ok (area_manage a).
Proof.
  intros Ha. unfold required_level. rewrite Ha. destruct a as [v u m lb]. by destruct v, u, m.
Qed.

Lemma validate_areas_find areas area a :
  validate_areas areas = Ok () → find_area areas area = Some a → validate_area (area, a) = true.
Proof.
  unfold validate_areas, find_area. intros Hv Hf.
  apply fmap_Some in Hf as ([i [n a']] & Hf & ->). apply list_find_Some in Hf as (Hi & Hn & _).
  simpl in Hn. subst n. apply list_elem_of_lookup_2 in Hi. revert Hv Hi. clear.
  induction areas as [|x l IH]; intros Hv Hin; [by apply not_elem_of_nil in Hin|].
  simpl in Hv. destruct (validate_area x) eqn:Hx; [|done].
  apply elem_of_cons in Hin as [<-|Hin]; [done|]. by apply IH.
Qed.

End lemmas.

(** The needed level never shrinks from a verb to a stronger one. *)
Definition needs_at_most (n1 n2 : option Level) : Prop :=
  match n2 with
  | None => True
  | Some l2 => ∃ l1, n1 = Some l1 ∧ level_value l1 ≤ level_value l2
  end.

Lemma required_monotone areas area a :
  validate_areas areas = Ok () → find_area areas area = Some a →
  ∃ v u m, required_level areas area "view" = Ok v ∧ required_level areas area "use" = Ok u ∧
    required_level areas area "manage" = Ok m ∧ needs_at_most v u ∧ needs_at_most u m.
Proof.
  intros Hv Ha. pose proof (validate_areas_find _ _ _ Hv Ha) as Hva.
  destruct (required_level_verbs _ _ _ Ha) as (-> & -> & ->).
  do 3 eexists. split_and!; [reflexivity..| |]; clear Hv Ha;
    unfold validate_area, defined_levels in Hva; rewrite !andb_true_iff in Hva;
    destruct Hva as [[_ Hm] _]; destruct a as [v u m lb]; destruct v, u, m; simpl in *;
    rewrite ?andb_true_iff, ?bool_decide_eq_true in Hm; try done; eexists; (split; [done|lia]).
Qed.

Lemma can_weaker areas user area n1 n2 v1 v2 :
  required_level areas area v1 = Ok n1 → required_level areas area v2 = Ok n2 →
  needs_at_most n1 n2 → can areas user area v2 = Ok true → can areas user area v1 = Ok true.
Proof.
  intros H1 H2 Hn. unfold can. rewrite H1, H2. simpl.
  destruct n2 as [l2|]; [|done]. destruct Hn as (l1 & -> & Hle).
  destruct (level_of user) as [h|]; [|done]. unfold level_ge. intros [= Hg%bool_decide_eq_true].
  rewrite bool_decide_true; [done|lia].
Qed.

(** ** Properties *)

(** The three verbs are nested in every area of any table that passes the
    start-up validation (the shipped table does): whoever may manage may use,
    and whoever may use may view. *)
Lemma verbs_are_nested areas area user :
  validate_areas areas = Ok () → is_Some (find_area areas area) →
  (can areas user area "manage" = Ok true → can areas user area "use" = Ok true) ∧
  (can areas user area "use" = Ok true → can areas user area "view" = Ok true) ∧
  validate_areas AREAS = Ok ().
Proof.
  intros Hv [a Ha]. destruct (required_monotone _ _ _ Hv Ha) as (v & u & m & Hrv & Hru & Hrm & H1 & H2).
  split_and!; [by eapply can_weaker|by eapply can_weaker|vm_compute; reflexivity].
Qed.

Definition staff_user : User := mkUser 5 true true None "staff".

Lemma verbs_are_nested_witness :
  can AREAS (Some staff_user) "control" "use" = Ok true.
Proof.
  apply (verbs_are_nested AREAS "control" (Some staff_user)).
  - vm_compute. reflexivity.
  - vm_compute. eexists. reflexivity.
  - vm_compute. reflexivity.
Defined.

(** C36. [users_with] and [can] are the same rule: over a table of users the
    queryset returns exactly those for whom [can] answers yes (notably no
    deactivated, deleted or unknown-level user), and both raise on the same
    unknown area or verb. *)
Theorem users_with_is_can areas area verb table :
  (∀ u, u ∈ table → is_authenticated u) →
  match users_with areas area verb table with
  | Ok us => ∀ u, u ∈ us ↔ u ∈ table ∧ can areas (Some u) area verb = Ok true
  | Raise e => ∀ u, can areas u area verb = Raise e
  end.
Proof.
  intros Hauth. unfold users_with, can. destruct (required_level areas area verb) as [[n|]|e]; simpl.
  - intros u. rewrite list_elem_of_filter. split.
    + intros [(Hact & Hdel & Hslug) Hu]. split; [done|]. specialize (Hauth u Hu).
      destruct (is_authenticated u); [|done]. simpl.
      destruct (is_active u); [|done]. rewrite Hdel. simpl.
      apply list_elem_of_fmap in Hslug as (l & -> & [Hl _]%list_elem_of_filter).
      rewrite from_slug_slug. by destruct (level_ge l n).
    + intros [Hu Hcan]. split; [|done]. simpl in Hcan.
      destruct (is_authenticated u); [|done]. destruct (is_active u); [|done]. simpl in Hcan.
      destruct (deleted_at u); [done|]. simpl in Hcan.
      destruct (from_slug (membership_level u)) as [l|] eqn:Hl; [|done].
      apply from_slug_Some in Hl as ->. split_and!; [done..|]. apply list_elem_of_fmap_2, list_elem_of_filter.
      split; [by injection Hcan as ->|]. apply (bool_decide_unpack _). by destruct l.
  - intros u. split; [intros H; by apply not_elem_of_nil in H|by intros [_ ?]].
  - intros u. done.
Qed.

Lemma users_with_is_can_witness :
  ∃ us, users_with AREAS "control" "manage" [staff_user] = Ok us ∧ staff_user ∈ us.
Proof.
  pose proof (users_with_is_can AREAS "control" "manage" [staff_user]) as H.
  destruct (users_with AREAS "control" "manage" [staff_user]) as [us|e] eqn:Hu; [|vm_compute in Hu; discriminate].
  exists us. split; [reflexivity|]. apply H.
  - intros u ->%list_elem_of_singleton. exact I.
  - split; [apply list_elem_of_here|vm_compute; reflexivity].
Defined.

(** Nothing runs without its permission.  A web handler runs exactly when
    the user is logged in, the view implements the method and [can] grants the
    resolved verb (and then nothing is logged); the REST gate lets an
    implemented method through only under the same rule; and a view that
    declares no verb needs [manage] for every unsafe method. *)
Lemma gates_enforce_can digest view user method path now log log' :
  let allowed := can AREAS (Some user) (v_area view) (resolve_verb view method) = Ok true in
  (dispatch digest view user method path now log = Ok (RunHandler, log') ↔
     is_authenticated user ∧ method ∈ v_handlers view ∧ allowed ∧ log' = log) ∧
  (∀ original, method ∈ v_handlers view →
     has_permission digest view (Some user) method original path now log = Ok (ApiAllow, log') ↔
     is_authenticated user ∧ allowed ∧ log' = log) ∧
  (v_verb view = None → v_verbs view = [] → method ∉ SAFE_METHODS → resolve_verb view method = "manage").
Proof.
  intros allowed. subst allowed. split_and!.
  - unfold dispatch. destruct (is_authenticated user); simpl; [|naive_solver].
    case_bool_decide; simpl; [|naive_solver]. unfold require.
    destruct (can _ _ _ _) as [[|]|]; simpl; [naive_solver| |naive_solver].
    destruct (required_level _ _ _); simpl; naive_solver.
  - intros original Hm. unfold has_permission. destruct (is_authenticated user); simpl; [|naive_solver].
    rewrite (bool_decide_true (method ∈ _)) by done. simpl. unfold require.
    destruct (match original with Some m => _ | None => _ end);
      destruct (can _ _ _ _) as [[|]|]; simpl; try naive_solver;
      destruct (required_level _ _ _); simpl; naive_solver.
  - intros Hv Hvs Hm. unfold resolve_verb. rewrite Hvs, Hv. simpl. by rewrite bool_decide_false.
Qed.

Definition sample_view : View := mkView "deployments" None [] ["GET"; "POST"].

Lemma gates_enforce_can_witness :
  resolve_verb sample_view "POST" = "manage" ∧
  dispatch (λ p, p) sample_view staff_user "POST" "/x" 0 (mkDenialLog [] 1 ∅) =
    Ok (RunHandler, mkDenialLog [] 1 ∅).
Proof.
  pose proof (gates_enforce_can (λ p, p) sample_view staff_user "POST" "/x" 0
    (mkDenialLog [] 1 ∅) (mkDenialLog [] 1 ∅)) as (H1 & _ & H3).
  split.
  - apply H3; [reflexivity|reflexivity|]. apply (bool_decide_unpack _). vm_compute. exact I.
  - apply H1. split_and!; [exact I| |vm_compute; reflexivity|reflexivity].
    apply (bool_decide_unpack _). vm_compute. exact I.
Defined.

(** The assignment-based override never exceeds [control.use]: whoever may
    preempt a station's lock may also operate it, is logged in, active and not
    deleted; without an assignment it takes [control.manage]. *)
Lemma override_implies_use user asg station region :
  can_override_station user asg station region = Ok true →
  can AREAS user "control" "use" = Ok true ∧
  (∃ u, user = Some u ∧ is_authenticated u ∧ is_active u ∧ deleted_at u = None) ∧
  (station_assignments asg = [] → region_assignments asg = [] →
    can AREAS user "control" "manage" = Ok true).
Proof.
  intros Ho.
  assert (can AREAS user "control" "use" = Ok true) as Huse.
  { unfold can_override_station in Ho.
    destruct (can AREAS user "control" "manage") as [[|]|] eqn:Hm; cbn [obind] in Ho; [| |done].
    - destruct (required_monotone AREAS "control" (mkArea (Some APPLICANT) (Some MEMBER) (Some STAFF) ["use"; "manage"]))
        as (v & n & m & _ & Hu & Hmm & _ & Hle); [vm_compute; reflexivity..|].
      by apply (can_weaker AREAS user "control" n m "use" "manage").
    - by destruct (can AREAS user "control" "use") as [[|]|]. }
  split_and!; [done| |].
  - destruct user as [u|]; [|vm_compute in Huse; discriminate]. exists u. unfold can in Huse.
    destruct (required_level AREAS "control" "use") as [[n|]|]; [|done..]. simpl in Huse.
    destruct (is_authenticated u); [|done]. destruct (is_active u); [|done].
    destruct (deleted_at u); [done|]. done.
  - intros Hs Hr. unfold can_override_station in Ho. rewrite Huse, Hs, Hr in Ho.
    destruct (can AREAS user "control" "manage") as [[|]|]; cbn [obind] in Ho; [done| |done].
    destruct region; simpl in Ho; done.
Qed.

Lemma override_implies_use_witness :
  can AREAS (Some (mkUser 9 true true None "member")) "control" "use" = Ok true.
Proof.
  apply (override_implies_use (Some (mkUser 9 true true None "member"))
    (mkAssignments [(3, "admin")] []) 3 None).
  vm_compute. reflexivity.
Defined.

(** Denials recorded so far. *)
Definition total_denials (log : DenialLog) : Z := foldr (λ r acc, dr_count r + acc) 0 (dl_rows log).

Definition log_wf (log : DenialLog) : Prop :=
  NoDup (dr_pk <$> dl_rows log) ∧ ∀ r, r ∈ dl_rows log → dr_pk r < dl_next_pk log.

Lemma sum_count_up pk (rows : list DenialRow) :
  NoDup (dr_pk <$> rows) → pk ∈ (dr_pk <$> rows) →
  foldr (λ r acc, dr_count r + acc) 0 (update_where (λ r, dr_pk r = pk) count_up rows) =
  foldr (λ r acc, dr_count r + acc) 0 rows + 1.
Proof.
  induction rows as [|r rows IH]; intros Hnd Hin; [by apply not_elem_of_nil in Hin|].
  rewrite fmap_cons in Hnd, Hin. apply list.NoDup_cons in Hnd as [Hr Hnd].
  unfold update_where in *. rewrite fmap_cons. destruct (decide (dr_pk r = pk)) as [<-|Hne]; simpl.
  - fold (update_where (λ x, dr_pk x = dr_pk r) count_up rows). rewrite update_where_none; [lia|].
    intros x Hx Heq. apply Hr. rewrite <-Heq. by apply list_elem_of_fmap_2.
  - apply elem_of_cons in Hin as [->|Hin]; [done|]. rewrite IH by done. lia.
Qed.

Lemma sum_app (rows : list DenialRow) r :
  foldr (λ r acc, dr_count r + acc) 0 (rows ++ [r]) = foldr (λ r acc, dr_count r + acc) 0 rows + dr_count r.
Proof. induction rows as [|x rows IH]; simpl; [lia|]. rewrite IH. lia. Qed.

(** No denial of a logged-in user is lost or counted twice: each one adds
    exactly 1 to the counts of the log, in a new row or in the row of the same
    user, area, verb and path of the last ten minutes; anonymous denials are
    never logged; and the log stays well formed. *)
Lemma every_denial_counted digest user exc channel path method now log :
  log_wf log →
  let log' := log_denial digest user exc channel path method now log in
  log_wf log' ∧
  (is_authenticated user → total_denials log' = total_denials log + 1) ∧
  (¬ is_authenticated user → log' = log).
Proof.
  intros [Hnd Hnx]. unfold log_denial. destruct (is_authenticated user); simpl; [|by split_and!].
  set (key := (u_pk user, _, _, _)).
  set (fresh := mkDenialLog (dl_rows log ++ _) _ _).
  assert (log_wf fresh ∧ total_denials fresh = total_denials log + 1) as Hfresh.
  { split; [split; simpl|by apply sum_app].
    - rewrite fmap_app. apply NoDup_app. split_and!; [done| |apply NoDup_singleton].
      intros x (r & -> & Hr)%list_elem_of_fmap Heq%list_elem_of_singleton.
      specialize (Hnx r Hr). simpl in Heq. lia.
    - intros r [Hr| ->%list_elem_of_singleton]%elem_of_app; simpl; [specialize (Hnx r Hr)|]; lia. }
  destruct (cache_get now key log) as [pk|]; [|naive_solver].
  case_decide as Hex; [|naive_solver]. clear Hfresh. split_and!; [| |naive_solver].
  - split; simpl.
    + by rewrite fmap_update_where.
    + intros r (x & Hx & [[_ ->]|[_ ->]])%elem_of_update_where; simpl; by apply Hnx.
  - intros _. apply sum_count_up; [done|]. apply list.Exists_exists in Hex as (r & Hr & <-).
    by apply list_elem_of_fmap_2.
Qed.

Lemma every_denial_counted_witness :
  let log1 := log_denial (λ p, p) staff_user (mkDenied "users" "manage" (Some ADMIN) (Some STAFF))
    "web" "/users/" "POST" 0 (mkDenialLog [] 1 ∅) in
  total_denials (log_denial (λ p, p) staff_user (mkDenied "users" "manage" (Some ADMIN) (Some STAFF))
    "web" "/users/" "POST" 60 log1) = 2 ∧ length (dl_rows log1) = 1%nat.
Proof.
  intros log1. split; [|vm_compute; reflexivity].
  assert (log_wf log1) as Hwf.
  { split; [apply (bool_decide_unpack _); vm_compute; exact I|].
    intros r Hr. vm_compute in Hr. apply list_elem_of_singleton in Hr as ->. vm_compute. reflexivity. }
  pose proof (every_denial_counted (λ p, p) staff_user (mkDenied "users" "manage" (Some ADMIN) (Some STAFF))
    "web" "/users/" "POST" 60 log1 Hwf) as (_ & H & _).
  etransitivity; [apply H; exact I|]. vm_compute. reflexivity.
Defined.

(** A passive feed never outlives its permission: once a re-check answers
    no, or two in a row cannot answer, it is closed for good; while it is open,
    the last answer was yes or at most one check has failed since. *)
Lemma recheck_never_stays_open rs r rs' :
  (∀ fs, recheck_loop rs = FeedOpen fs → 0 ≤ fs < RECHECK_MAX_FAILURES) ∧
  (∃ c, foldl recheck_tick (recheck_loop (rs ++ [CheckAnswers false])) rs' = FeedClosed c) ∧
  (∃ c, foldl recheck_tick (recheck_loop (rs ++ [CheckFails; CheckFails])) rs' = FeedClosed c) ∧
  (∀ fs, recheck_loop (rs ++ [r]) = FeedOpen fs → (r = CheckAnswers true ∧ fs = 0) ∨ (r = CheckFails ∧ fs = 1)).
Proof.
  assert (∀ l c, foldl recheck_tick (FeedClosed c) l = FeedClosed c) as Hclosed
    by (induction l; simpl; auto).
  assert (∀ l fs, recheck_loop l = FeedOpen fs → 0 ≤ fs < RECHECK_MAX_FAILURES) as Hinv.
  { unfold recheck_loop, RECHECK_MAX_FAILURES. induction l as [|x l IH] using rev_ind; intros fs.
    - intros [= <-]. lia.
    - rewrite foldl_snoc. destruct (foldl recheck_tick (FeedOpen 0) l) as [f|c]; [|done]. simpl.
      specialize (IH f eq_refl). destruct x as [|[|]]; [case_decide; [|done]|..]; intros [= <-];
        unfold RECHECK_MAX_FAILURES in *; lia. }
  split_and!; [by apply Hinv| | |].
  - unfold recheck_loop. rewrite foldl_snoc. destruct (foldl _ _ rs); simpl; eauto.
  - unfold recheck_loop. rewrite foldl_app. simpl.
    destruct (foldl recheck_tick (FeedOpen 0) rs) as [f|c] eqn:Hf; simpl; [|eauto].
    pose proof (Hinv rs f Hf). case_decide; simpl; [|eauto].
    rewrite decide_False by (unfold RECHECK_MAX_FAILURES in *; lia). eauto.
  - intros fs. unfold recheck_loop. rewrite foldl_snoc.
    destruct (foldl recheck_tick (FeedOpen 0) rs) as [f|c] eqn:Hf; [|done]. simpl.
    pose proof (Hinv rs f Hf). destruct r as [|[|]]; [case_decide; [|done]|..]; intros [= <-]; auto.
    unfold RECHECK_MAX_FAILURES in *. right. split; [done|lia].
Qed.
