(* ===== verification/ControlLock.v ===== *)
(** * The TX control lock

    Models [apps/control/lock.py]: the per-station [ControlLock] row and every
    operation on it, with [scan_counts_as_activity] of [apps/control/scan.py]
    and the resolution of a transfer target against the users table
    ([can] is the one of [Permissions]).

    Each operation runs under the row lock, so one operation is one transition.
    The drain is evaluated before the row lock is taken, so [draining] is an
    input of the operation.  Times are microseconds. *)

From Stdlib Require Import ZArith Lia.
From stdpp Require Import base gmap list strings.
From S2P Require Import Prelude Permissions.

Local Open Scope Z_scope.

(** ** Data *)

Record Lock := mkLock {
  holder : option Z;
  acquired_at : option Z;
  last_activity : option Z;
  pending_release_at : option Z
}.

#[export] Instance Lock_eq_dec : EqDecision Lock.
Proof. solve_decision. Defined.

(** A row [get_or_create] inserts. *)
Definition free_lock : Lock := mkLock None None None None.

(** [True], [False] or the falsy [DRAIN_REFUSED]. *)
Inductive Grant := Granted | Refused | DRAIN_REFUSED.

#[export] Instance Grant_eq_dec : EqDecision Grant.
Proof. solve_decision. Defined.

Definition seconds (s : Z) : Z := s * 1000000.

(** ** Operations *)

Definition clear (lock : Lock) : Lock := mkLock None None None None.

Definition acquire (user : Z) (draining : bool) (now : Z) (lock : Lock) : Lock * Grant :=
  if decide (holder lock = Some user ∨ holder lock = None) then
    if bool_decide (holder lock = None) && draining then (lock, DRAIN_REFUSED)
    else
      (mkLock (Some user) (if decide (holder lock = None) then Some now else acquired_at lock)
         (Some now) None, Granted)
  else (lock, Refused).

Definition release (user : Z) (lock : Lock) : Lock * bool :=
  if decide (holder lock = Some user) then (clear lock, true) else (lock, false).

(** The lock when another user holds it, [DRAIN_REFUSED], or [None]. *)
Inductive ControlRequest := AskHolder (holder : Z) | RequestDrained | NothingToAsk.

Definition request_control (user : Z) (draining : bool) (lock : Lock) : ControlRequest :=
  match holder lock with
  | Some h => if decide (h ≠ user) then AskHolder h else NothingToAsk
  | None => if draining then RequestDrained else NothingToAsk
  end.

(** [users] is the users table; [to_user_id] is untrusted. *)
Definition transfer (users : list User) (from_user to_user_id : Z) (draining : bool) (now : Z)
    (lock : Lock) : Lock * Grant :=
  if decide (holder lock ≠ Some from_user) then (lock, Refused)
  else
    match list_find (λ u, u_pk u = to_user_id) users with
    | None => (lock, Refused)
    | Some (_, to_user) =>
      match can AREAS (Some to_user) "control" "use" with
      | Ok true =>
        if draining then (lock, DRAIN_REFUSED)
        else (mkLock (Some to_user_id) (Some now) (Some now) None, Granted)
      | _ => (lock, Refused)
      end
    end.

Definition preempt (user : Z) (draining : bool) (now : Z) (lock : Lock) : Lock * Grant :=
  if bool_decide (holder lock = None) && draining then (lock, DRAIN_REFUSED)
  else (mkLock (Some user) (Some now) (Some now) None, Granted).

Definition touch (user now : Z) (lock : Lock) : Lock * bool :=
  if decide (holder lock = Some user)
  then (mkLock (holder lock) (acquired_at lock) (Some now) (pending_release_at lock), true)
  else (lock, false).

Definition holder_disconnected (user grace_seconds now : Z) (lock : Lock) : Lock :=
  if decide (holder lock = Some user)
  then mkLock (holder lock) (acquired_at lock) (last_activity lock) (Some (now + seconds grace_seconds))
  else lock.

Definition holder_reconnected (user : Z) (lock : Lock) : Lock :=
  if decide (holder lock = Some user ∧ pending_release_at lock ≠ None)
  then mkLock (holder lock) (acquired_at lock) (last_activity lock) None
  else lock.

(** [ActiveScan] rows of the station, and the rule of [scan.py]. *)
Record ActiveScan := mkScan { scan_state : string; scan_started_at : Z }.

Definition START_GRACE_S : Z := 30.

Definition scan_counts_as_activity (scans : list ActiveScan) (now : Z) : bool :=
  existsb (λ s, bool_decide (scan_state s = "active") ||
    (bool_decide (scan_state s = "starting") &&
     bool_decide (now - seconds START_GRACE_S ≤ scan_started_at s))) scans.

Definition sweep_lock (scans : list ActiveScan) (now idle_seconds : Z) (lock : Lock) : Lock * bool :=
  match holder lock with
  | None => (lock, false)
  | Some _ =>
    let grace_lapsed :=
      match pending_release_at lock with Some t => bool_decide (t ≤ now) | None => false end in
    let idle_lapsed :=
      match last_activity lock with
      | Some t => bool_decide (seconds idle_seconds < now - t)
      | None => false
      end in
    let kept := idle_lapsed && bool_decide (pending_release_at lock = None) &&
      scan_counts_as_activity scans now in
    let lock1 :=
      if kept then mkLock (holder lock) (acquired_at lock) (Some now) (pending_release_at lock) else lock in
    if grace_lapsed || (idle_lapsed && negb kept) then (clear lock1, true) else (lock1, false)
  end.

Definition force_free (lock : Lock) : Lock * bool :=
  match holder lock with None => (lock, false) | Some _ => (clear lock, true) end.

(** [lock_status] (the username left out). *)
Inductive LockStatus := StatusFree | StatusHeld (holder_id : Z) (since : option Z).

Definition lock_status (lock : Lock) : LockStatus :=
  match holder lock with None => StatusFree | Some h => StatusHeld h (acquired_at lock) end.

(** ** Transitions *)

(** One operation by one party, with the drain state it was evaluated under. *)
Inductive LockEvent :=
| E_acquire (user : Z) (draining : bool)
| E_release (user : Z)
| E_transfer (from to : Z) (draining : bool)
| E_preempt (user : Z) (draining : bool)
| E_touch (user : Z)
| E_disconnect (user grace : Z)
| E_reconnect (user : Z)
| E_sweep (scans : list ActiveScan) (idle : Z)
| E_force_free.

Definition lock_event (users : list User) (e : LockEvent) (now : Z) (lock : Lock) : Lock :=
  match e with
  | E_acquire u d => (acquire u d now lock).1
  | E_release u => (release u lock).1
  | E_transfer f t d => (transfer users f t d now lock).1
  | E_preempt u d => (preempt u d now lock).1
  | E_touch u => (touch u now lock).1
  | E_disconnect u g => holder_disconnected u g now lock
  | E_reconnect u => holder_reconnected u lock
  | E_sweep sc i => (sweep_lock sc now i lock).1
  | E_force_free => (force_free lock).1
  end.

Definition event_draining (e : LockEvent) : bool :=
  match e with E_acquire _ d | E_transfer _ _ d | E_preempt _ d => d | _ => false end.

(** A history: events with their (non-decreasing) times. *)
Definition run_lock (users : list User) (lock : Lock) (history : list (LockEvent * Z)) : Lock :=
  foldl (λ l et, lock_event users et.1 et.2 l) lock history.

(** A free lock carries no leftovers; a held one has its timestamps. *)
Definition lock_wf (lock : Lock) : Prop :=
  match holder lock with
  | None => lock = free_lock
  | Some _ => is_Some (acquired_at lock) ∧ is_Some (last_activity lock)
  end.

(** ** Lemmas *)

Ltac lock_cases :=
  repeat first [ case_decide | case_bool_decide | progress case_match ]; simplify_eq/=.

Lemma lock_event_wf users e now lock : lock_wf lock → lock_wf (lock_event users e now lock).
Proof.
  destruct lock as [h a l p]. unfold lock_wf, free_lock. simpl.
  destruct e; simpl;
    unfold acquire, release, transfer, preempt, touch, holder_disconnected, holder_reconnected,
      sweep_lock, force_free, clear; simpl; intros Hwf; lock_cases; naive_solver.
Qed.

Lemma run_lock_wf users lock history : lock_wf lock → lock_wf (run_lock users lock history).
Proof.
  revert lock. induction history as [|[e t] history IH]; intros lock Hwf; simpl; [done|].
  by apply IH, lock_event_wf.
Qed.

(** ** Properties *)

(** How a holder can lose the lock. *)
Inductive loses_lock (users : list User) (h now : Z) (lock lock' : Lock) : LockEvent → Prop :=
| lose_release : lock' = free_lock → loses_lock users h now lock lock' (E_release h)
| lose_transfer t u :
    holder lock' = Some t → u ∈ users → u_pk u = t → can AREAS (Some u) "control" "use" = Ok true →
    loses_lock users h now lock lock' (E_transfer h t false)
| lose_preempt u d : holder lock' = Some u → loses_lock users h now lock lock' (E_preempt u d)
| lose_sweep scans idle :
    lock' = free_lock →
    (∃ t, pending_release_at lock = Some t ∧ t ≤ now) ∨
    (∃ t, last_activity lock = Some t ∧ seconds idle < now - t ∧
      (pending_release_at lock = None → scan_counts_as_activity scans now = false)) →
    loses_lock users h now lock lock' (E_sweep scans idle)
| lose_force_free : lock' = free_lock → loses_lock users h now lock lock' E_force_free.

Lemma list_find_elem {A} (P : A → Prop) `{∀ x, Decision (P x)} (l : list A) i x :
  list_find P l = Some (i, x) → x ∈ l ∧ P x.
Proof. intros (Hi & HP & _)%list_find_Some. split; [by eapply list_elem_of_lookup_2|done]. Qed.

(** C19. Mutual exclusion: a holder loses the lock only by their own release, by
    their own transfer (to an existing user who may operate stations, and never
    while draining), by an explicit override, by a sweep after the reconnect
    grace or the idle time has lapsed (a running scan of a connected holder
    counts as activity), or when the agent goes away.  In particular no other
    user's acquire, request, touch or (re)connect ever takes it. *)
Theorem lock_lost_only_with_cause users e now lock h :
  holder lock = Some h → holder (lock_event users e now lock) ≠ Some h →
  loses_lock users h now lock (lock_event users e now lock) e.
Proof.
  intros Hh Hne. destruct lock as [ho a l p]. simpl in Hh. subst ho.
  destruct e as [u d|u|f t d|u d|u|u g|u|sc i|]; simpl in *.
  - unfold acquire in *. simpl in *. lock_cases; naive_solver.
  - unfold release in *. simpl in *. lock_cases. by constructor.
  - unfold transfer in *. cbn [holder] in *. case_decide as Hf; [done|].
    injection Hf as ->.
    destruct (list_find _ users) as [[i u]|] eqn:Hu; [|done]. apply list_find_elem in Hu as [Hu Hpk].
    destruct (can AREAS (Some u) "control" "use") as [[|]|] eqn:Hcan; [|done..].
    destruct d; [done|]. by eapply lose_transfer.
  - unfold preempt in *. simpl in *. by econstructor.
  - unfold touch in *. simpl in *. by lock_cases.
  - unfold holder_disconnected in *. simpl in *. by lock_cases.
  - unfold holder_reconnected in *. simpl in *. by lock_cases.
  - unfold sweep_lock in *. simpl in *.
    destruct p as [t|]; [case_bool_decide|]; (destruct l as [t'|]; [case_bool_decide|]); simpl in *;
      rewrite ?bool_decide_false in * by done; simpl in *; try done;
      try (destruct (scan_counts_as_activity sc now) eqn:?; simpl in *; try done);
      apply lose_sweep; try done; naive_solver.
  - by constructor.
Qed.

Lemma lock_lost_only_with_cause_witness :
  loses_lock [staff_user] 1 9 (mkLock (Some 1) (Some 0) (Some 0) None)
    (mkLock (Some 5) (Some 9) (Some 9) None) (E_transfer 1 5 false).
Proof.
  apply (lock_lost_only_with_cause [staff_user] (E_transfer 1 5 false) 9
    (mkLock (Some 1) (Some 0) (Some 0) None) 1); [reflexivity|].
  vm_compute. discriminate.
Defined.

(** The drain guarantee a firmware update relies on: through any history of
    operations evaluated while the station drains, a free lock stays free: no
    acquire, transfer, override or sweep hands out control. *)
Lemma drain_never_grants users history :
  Forall (λ et, match et.1 with
                | E_acquire _ d | E_transfer _ _ d | E_preempt _ d => d = true
                | _ => True
                end) history →
  run_lock users free_lock history = free_lock.
Proof.
  induction 1 as [|[e t] history He _ IH]; simpl; [done|].
  assert (lock_event users e t free_lock = free_lock) as ->; [|done].
  simpl in He. destruct e; simpl; subst; try done;
    unfold acquire, transfer, preempt, release, touch, holder_disconnected, holder_reconnected; simpl;
    lock_cases; naive_solver.
Qed.

Lemma drain_never_grants_witness :
  run_lock [staff_user] free_lock [(E_acquire 1 true, 3); (E_preempt 5 true, 4); (E_touch 1, 5)] = free_lock.
Proof.
  apply (drain_never_grants [staff_user] [(E_acquire 1 true, 3); (E_preempt 5 true, 4); (E_touch 1, 5)]).
  repeat constructor.
Defined.

(** The sweep frees what it must and nothing else.  In every reachable lock
    state: a disconnected holder is freed once the grace has passed, an idle
    one once idle longer than the limit unless a scan runs while connected;
    a connected holder active within the limit is left untouched; and a freed
    lock has no leftover timestamps. *)
Lemma sweep_frees_exactly_the_lapsed users history scans now idle h :
  let lock := run_lock users free_lock history in
  holder lock = Some h →
  ∃ t, last_activity lock = Some t ∧
    (sweep_lock scans now idle lock).2 =
      (match pending_release_at lock with
       | Some g => bool_decide (g ≤ now) || bool_decide (seconds idle < now - t)
       | None => bool_decide (seconds idle < now - t) && negb (scan_counts_as_activity scans now)
       end) ∧
    ((sweep_lock scans now idle lock).2 = true → (sweep_lock scans now idle lock).1 = free_lock) ∧
    (pending_release_at lock = None → now - t ≤ seconds idle → (sweep_lock scans now idle lock).1 = lock).
Proof.
  intros lock Hh. assert (lock_wf lock) as Hwf by (by apply run_lock_wf).
  unfold lock_wf in Hwf. rewrite Hh in Hwf. destruct Hwf as [_ [t Ht]]. exists t. split; [done|].
  unfold sweep_lock. rewrite Hh, Ht. destruct (pending_release_at lock) as [g|] eqn:Hp; simpl.
  - rewrite andb_false_r. simpl. rewrite andb_true_r.
    destruct (bool_decide (g ≤ now)), (bool_decide (seconds idle < now - t)); by split_and!.
  - rewrite ?andb_true_r.
    destruct (bool_decide (seconds idle < now - t)) eqn:Hi; simpl.
    + apply bool_decide_eq_true in Hi.
      destruct (scan_counts_as_activity scans now); simpl; split_and!; try done; lia.
    + by split_and!.
Qed.

Lemma sweep_frees_exactly_the_lapsed_witness :
  (sweep_lock [] (seconds 400) 300 (run_lock [] free_lock [(E_acquire 1 false, seconds 10)])).1 = free_lock.
Proof.
  destruct (sweep_frees_exactly_the_lapsed [] [(E_acquire 1 false, seconds 10)] [] (seconds 400) 300 1)
    as (t & Ht & Hfree & Hclr & _); [reflexivity|].
  apply Hclr. etransitivity; [exact Hfree|]. vm_compute in Ht. injection Ht as <-. vm_compute. reflexivity.
Defined.
