(* ===== verification/Audio.v ===== *)
(** * Audio: PTT gate, stream demand, modulation meter, write policy

    Models [apps/audio/gate.py] (the per-station [AudioGate] row), the
    reference-counted stream demand of [apps/audio/subscriptions.py], the frame
    sanitiser [apps/audio/tx_meter.py], and the capability write policy of
    [apps/control/capability_policy.py].  Times are microseconds. *)

From Stdlib Require Import ZArith Lia SpecFloat.
From stdpp Require Import base gmap list strings.
From S2P Require Import Prelude Json Permissions ControlLock.

Local Open Scope Z_scope.

(** ** The gate *)

Record AudioGate := mkGate {
  ptt_active : bool;
  ptt_slot : option Z;
  ptt_module : string;
  ptt_expires_at : option Z;
  tx_slot : option Z;
  tx_module : string
}.

(** A row [get_or_create] inserts, and the default snapshot of [get_state]. *)
Definition new_gate : AudioGate := mkGate false None "" None None "".

Definition coerce_slot (slot : Json) : option Z :=
  match slot with
  | JNull => None
  | JInt z => Some z
  | JBool b => Some (if b then 1 else 0)
  | JStr s =>
    match after_prefix "slot" s ≫= int_of_string with
    | Some n => Some n
    | None => int_of_string s
    end
  | _ => None
  end.

Definition set_ptt (slot : Json) (module : string) (ttl now : Z) (g : AudioGate) : AudioGate :=
  mkGate true (coerce_slot slot) module (Some (now + ttl)) (tx_slot g) (tx_module g).

Definition refresh_ptt (ttl now : Z) (g : AudioGate) : AudioGate :=
  if ptt_active g
  then mkGate (ptt_active g) (ptt_slot g) (ptt_module g) (Some (now + ttl)) (tx_slot g) (tx_module g)
  else g.

Definition clear_ptt (g : AudioGate) : AudioGate :=
  mkGate false None "" None (tx_slot g) (tx_module g).

Definition set_tx_route (slot : Json) (module : string) (g : AudioGate) : AudioGate :=
  mkGate (ptt_active g) (ptt_slot g) (ptt_module g) (ptt_expires_at g) (coerce_slot slot) module.

Definition clear_tx_route (g : AudioGate) : AudioGate :=
  mkGate (ptt_active g) (ptt_slot g) (ptt_module g) (ptt_expires_at g) None "".

Definition get_state (row : option AudioGate) : AudioGate := default new_gate row.

(** [get_wire_state]: the snapshot with the lock holder. *)
Definition get_wire_state (row : option AudioGate) (lock : option Lock) : AudioGate * option Z :=
  (default new_gate row, lock ≫= holder).

Definition keyed (now : Z) (g : AudioGate) : bool :=
  if negb (ptt_active g) then false
  else match ptt_expires_at g with None => false | Some t => bool_decide (now < t) end.

Definition ptt_keyed (now : Z) (row : option AudioGate) : bool :=
  match row with Some g => keyed now g | None => false end.

Definition mic_allowed (user now : Z) (lock : option Lock) (row : option AudioGate) : bool :=
  match lock with
  | None => false
  | Some l =>
    if negb (bool_decide (holder l = Some user)) then false
    else match row with None => false | Some g => keyed now g end
  end.

(** What the consumers do to the gate, with the time of each call. *)
Inductive GateEvent :=
| G_set (slot : Json) (module : string) (ttl : Z)
| G_refresh (ttl : Z)
| G_clear
| G_set_route (slot : Json) (module : string)
| G_clear_route.

Definition gate_event (e : GateEvent) (now : Z) (g : AudioGate) : AudioGate :=
  match e with
  | G_set s m ttl => set_ptt s m ttl now g
  | G_refresh ttl => refresh_ptt ttl now g
  | G_clear => clear_ptt g
  | G_set_route s m => set_tx_route s m g
  | G_clear_route => clear_tx_route g
  end.

Definition run_gate (history : list (GateEvent * Z)) : AudioGate :=
  foldl (λ g et, gate_event et.1 et.2 g) new_gate history.

(** ** Stream demand *)

(** The rows of one station: (stream_id, channel_name), unique. *)
Definition Demand : Type := list (string * string).

Definition count (stream : string) (d : Demand) : Z :=
  Z.of_nat (length (filter (λ r, r.1 = stream) d)).

(** [subscribe] returns [first] and the count. *)
Definition subscribe (stream channel : string) (d : Demand) : Demand * (bool * Z) :=
  let before := count stream d in
  if decide ((stream, channel) ∈ d) then (d, (bool_decide (before = 0) && bool_decide (before = 1), before))
  else (d ++ [(stream, channel)], (bool_decide (before = 0) && bool_decide (before + 1 = 1), before + 1)).

(** [unsubscribe] returns [last] and the count. *)
Definition unsubscribe (stream channel : string) (d : Demand) : Demand * (bool * Z) :=
  let d' := filter (λ r, r ≠ (stream, channel)) d in
  let deleted := Z.of_nat (length d) - Z.of_nat (length d') in
  let after := count stream d' in
  (d', (bool_decide (0 < deleted) && bool_decide (after = 0), after)).

Definition drop_channel (channel : string) (d : Demand) : Demand * list string :=
  let stream_ids := remove_dups (fst <$> filter (λ r, r.2 = channel) d) in
  let d' := filter (λ r, r.2 ≠ channel) d in
  (d', filter (λ sid, count sid d' = 0) stream_ids).

(** The agent's side of the signals: the sources it produces. *)
Inductive DemandOp := D_subscribe (stream channel : string) | D_unsubscribe (stream channel : string)
| D_drop (channel : string).

(** Run an operation and relay what it signals: [source_subscribe] on [first],
    [source_unsubscribe] on [last] and for every zero stream of a dropped channel. *)
Definition demand_step (s : Demand * gset string) (op : DemandOp) : Demand * gset string :=
  let (d, sources) := s in
  match op with
  | D_subscribe st ch =>
    let '(d', (first, _)) := subscribe st ch d in (d', if first then {[st]} ∪ sources else sources)
  | D_unsubscribe st ch =>
    let '(d', (last, _)) := unsubscribe st ch d in (d', if last then sources ∖ {[st]} else sources)
  | D_drop ch => let '(d', zeros) := drop_channel ch d in (d', sources ∖ list_to_set zeros)
  end.

(** ** The modulation meter *)

Inductive MeterError := OverflowError.

(** [_num(v, lo, hi)]; [math.isfinite] raises on an int no float can hold. *)
Definition num (v : Json) (lo hi : Z) : outcome MeterError (option spec_float) :=
  match v with
  | JInt z =>
    if decide (FLOAT_OVERFLOW ≤ Z.abs z) then Raise OverflowError
    else Ok (Some (float_of_Z (Z.min hi (Z.max lo z))))
  | JFloat f =>
    if is_finite f then Ok (Some (clamp_float (float_of_Z lo) (float_of_Z hi) f)) else Ok None
  | _ => Ok None
  end.

Record MeterActive := mkMeter {
  m_peak : option spec_float;
  m_rms : option spec_float;
  m_gain_reduction : spec_float;
  m_limiting : bool;
  m_dsp : string;
  m_ceiling : option spec_float
}.

Record MeterFrame := mkFrame { f_slot : Z; f_active : option MeterActive }.

Definition DSP_MODES : list string := ["off"; "full"; "degraded"; "failed"].

Definition dsp_mode (v : Json) : string :=
  match v with JStr s => if bool_decide (s ∈ DSP_MODES) then s else "off" | _ => "off" end.

Definition sanitize (msg : Json) : outcome MeterError (option MeterFrame) :=
  match msg with
  | JObj fs =>
    match jget "slot" fs with
    | JInt slot =>
      if decide (0 ≤ slot ≤ 63) then
        match jget "active" fs with
        | JBool false => Ok (Some (mkFrame slot None))
        | JBool true =>
          obind (num (jget "gain_reduction_db" fs) 0 60) (λ gr,
          obind (num (jget "peak_dbfs" fs) (-120) 0) (λ peak,
          obind (num (jget "rms_dbfs" fs) (-120) 0) (λ rms,
          obind (num (jget "ceiling_dbfs" fs) (-120) 0) (λ ceiling,
            Ok (Some (mkFrame slot (Some (mkMeter peak rms (default (float_of_Z 0) gr)
              (match jget "limiting" fs with JBool true => true | _ => false end)
              (dsp_mode (jget "dsp" fs)) ceiling))))))))
        | _ => Ok None
        end
      else Ok None
    | _ => Ok None
    end
  | _ => Ok None
  end.

(** ** Capability write policy *)

Inductive Verb := V_use | V_manage.

#[export] Instance Verb_eq_dec : EqDecision Verb.
Proof. solve_decision. Defined.

(** [_VERB_ORDER.index] *)
Definition verb_index (v : Verb) : Z := match v with V_use => 0 | V_manage => 1 end.

Record CapabilityPolicy := mkPolicy { pol_verb : Verb; pol_persist : bool }.

Definition POLICY_DEFAULT : CapabilityPolicy := mkPolicy V_use false.
Definition MANAGE_PERSISTED : CapabilityPolicy := mkPolicy V_manage true.

Definition POLICY : list ((string * option string) * CapabilityPolicy) :=
  [(("filter_pre_emphasis", None), MANAGE_PERSISTED);
   (("filter_hpf", None), MANAGE_PERSISTED);
   (("filter_lpf", None), MANAGE_PERSISTED);
   (("volume", Some "fm_transceiver"), MANAGE_PERSISTED)].

Section policy.
Context (policy : list ((string * option string) * CapabilityPolicy)).

Definition policy_get (key : string * option string) : option CapabilityPolicy :=
  snd ∘ snd <$> list_find (λ p, p.1 = key) policy.

Definition strictest_for (capability : string) : CapabilityPolicy :=
  match filter (λ p, p.1.1 = capability) policy with
  | [] => POLICY_DEFAULT
  | entries =>
    mkPolicy (if existsb (λ p, bool_decide (pol_verb p.2 = V_manage)) entries then V_manage else V_use)
      (existsb (λ p, pol_persist p.2) entries)
  end.

Definition policy_for (capability module_type : Json) : CapabilityPolicy :=
  match capability with
  | JStr cap =>
    match module_type with
    | JStr ty =>
      match policy_get (cap, Some ty) with
      | Some p => p
      | None => match policy_get (cap, None) with Some p => p | None => POLICY_DEFAULT end
      end
    | _ => strictest_for cap
    end
  | _ => POLICY_DEFAULT
  end.

End policy.

Definition verb_name (v : Verb) : string := match v with V_use => "use" | V_manage => "manage" end.

Definition can_write (user : option User) (capability module_type : Json) : outcome PermError bool :=
  can AREAS user "control" (verb_name (pol_verb (policy_for POLICY capability module_type))).

(** ** Properties *)

(** The expiry in the row comes from a set or a refresh, and the row is active
    only after a set that no clear followed. *)
Lemma run_gate_expiry history :
  let g := run_gate history in
  (ptt_active g → ∃ before s m ttl t after, history = before ++ (G_set s m ttl, t) :: after ∧
     Forall (λ et, et.1 ≠ G_clear) after) ∧
  (∀ x, ptt_expires_at g = Some x → ∃ e t ttl, (e, t) ∈ history ∧ x = t + ttl ∧
     ((∃ s m, e = G_set s m ttl) ∨ e = G_refresh ttl)).
Proof.
  unfold run_gate. induction history as [|[e t] history [IH1 IH2]] using rev_ind; simpl; [done|].
  rewrite foldl_snoc. set (g := foldl _ _ _) in *. simpl.
  assert (∀ x, ptt_expires_at g = Some x → ∃ e0 t0 ttl, (e0, t0) ∈ history ++ [(e, t)] ∧ x = t0 + ttl ∧
     ((∃ s m, e0 = G_set s m ttl) ∨ e0 = G_refresh ttl)) as IH2'.
  { intros x Hx. destruct (IH2 x Hx) as (e0 & t0 & ttl & Hin & ?). exists e0, t0, ttl.
    split; [apply elem_of_app; by left|done]. }
  assert (e ≠ G_clear → ptt_active g → ∃ before s m ttl t0 after,
    history ++ [(e, t)] = before ++ (G_set s m ttl, t0) :: after ∧ Forall (λ et, et.1 ≠ G_clear) after) as IH1'.
  { intros He Hact. destruct (IH1 Hact) as (b & s & m & ttl & t0 & after & -> & Hall).
    exists b, s, m, ttl, t0, (after ++ [(e, t)]). split; [by rewrite <-app_assoc|].
    apply Forall_app. split; [done|]. by constructor. }
  assert ((e, t) ∈ history ++ [(e, t)]) as Hlast by (apply elem_of_app; right; apply list_elem_of_here).
  destruct e as [s m ttl|ttl| |s m|]; simpl.
  - split; [intros _; by exists history, s, m, ttl, t, []|]. intros x [= <-]. eauto 10.
  - unfold refresh_ptt. destruct (ptt_active g) eqn:Hact; simpl.
    + split; [intros _; apply IH1'; [done|by rewrite ?Hact]|]. intros x [= <-]. eauto 10.
    + split; [by rewrite ?Hact|done].
  - split; done.
  - split; [by apply IH1'|done].
  - split; [by apply IH1'|done].
Qed.

(** The gate function [mic_allowed] of [gate.py] (the uplink consumer decides from a
    cache it refreshes, see [AudioUplink]): after any history of gate operations it
    admits a user only if that user holds the control lock, a
    PTT was set and not cleared since, and some set or keepalive is younger
    than its time to live: a lost operator is cut off within one TTL. *)
Lemma mic_dead_man history user now lock :
  mic_allowed user now (Some lock) (Some (run_gate history)) →
  holder lock = Some user ∧
  (∃ before s m ttl t after, history = before ++ (G_set s m ttl, t) :: after ∧
    Forall (λ et, et.1 ≠ G_clear) after) ∧
  (∃ e t ttl, (e, t) ∈ history ∧ now < t + ttl ∧ ((∃ s m, e = G_set s m ttl) ∨ e = G_refresh ttl)).
Proof.
  unfold mic_allowed. case_bool_decide as Hh; [|done]. simpl. unfold keyed.
  destruct (run_gate_expiry history) as [Hact Hexp]. revert Hact Hexp.
  destruct (ptt_active (run_gate history)); [|done]. simpl. intros Hact Hexp.
  destruct (ptt_expires_at (run_gate history)) as [x|]; [|done]. intros Hlt%bool_decide_unpack.
  split_and!; [done|by apply Hact|]. destruct (Hexp x eq_refl) as (e & t & ttl & ? & -> & ?). eauto 10.
Qed.

Lemma mic_dead_man_witness :
  ∃ e t ttl, (e, t) ∈ [(G_set (JStr "slot0") "fm" 3000000, 10)] ∧ 20 < t + ttl ∧
    ((∃ s m, e = G_set s m ttl) ∨ e = G_refresh ttl).
Proof.
  apply (mic_dead_man [(G_set (JStr "slot0") "fm" 3000000, 10)] 1 20 (mkLock (Some 1) (Some 0) (Some 0) None)).
  vm_compute. exact I.
Defined.

Section demand.
Implicit Types (d : Demand).

Lemma count_pos stream d : 0 < count stream d ↔ ∃ ch, (stream, ch) ∈ d.
Proof.
  unfold count. split.
  - intros Hc. destruct (filter (λ r, r.1 = stream) d) as [|[s ch] l] eqn:Hf; [simpl in Hc; lia|].
    assert ((s, ch) ∈ filter (λ r, r.1 = stream) d) as Hin by (rewrite Hf; apply list_elem_of_here).
    apply list_elem_of_filter in Hin as [Hs Hin]. simpl in Hs. subst. by exists ch.
  - intros [ch Hin]. assert ((stream, ch) ∈ filter (λ r, r.1 = stream) d) as Hf
      by (by apply list_elem_of_filter).
    destruct (filter _ d); [by apply not_elem_of_nil in Hf|]. simpl. lia.
Qed.

Lemma count_nonneg stream d : 0 ≤ count stream d.
Proof. unfold count. lia. Qed.

Lemma count_zero stream d : count stream d = 0 ↔ ∀ ch, (stream, ch) ∉ d.
Proof.
  pose proof (count_pos stream d). pose proof (count_nonneg stream d). split.
  - intros Hz ch Hin. assert (0 < count stream d) by naive_solver. lia.
  - intros Hno. destruct (decide (0 < count stream d)) as [Hp|]; [|lia]. naive_solver.
Qed.

Lemma filter_shorter {A} (P : A → Prop) `{∀ x, Decision (P x)} (l : list A) :
  (length (filter P l) < length l)%nat ↔ ∃ x, x ∈ l ∧ ¬ P x.
Proof.
  split.
  - induction l as [|x l IH]; simpl; [lia|]. rewrite filter_cons. case_decide.
    + simpl. intros Hlt. destruct IH as (y & Hy & ?); [lia|]. exists y. by rewrite elem_of_cons; auto.
    + intros _. exists x. split; [apply list_elem_of_here|done].
  - intros (x & Hx & HP). apply list_elem_of_split in Hx as (l1 & l2 & ->).
    rewrite filter_app, filter_cons_False by done. rewrite !length_app. simpl.
    pose proof (length_filter P l1). pose proof (length_filter P l2). lia.
Qed.

Definition in_sync (s : Demand * gset string) : Prop :=
  ∀ stream, stream ∈ s.2 ↔ ∃ ch, (stream, ch) ∈ s.1.

Lemma demand_step_sync s op : in_sync s → in_sync (demand_step s op).
Proof.
  destruct s as [d src]. unfold in_sync. simpl. intros Hs. destruct op as [st ch|st ch|ch]; simpl.
  - unfold subscribe. case_decide as Hin; simpl.
    + assert (0 < count st d) by (apply count_pos; eauto).
      rewrite (bool_decide_false (count st d = 0)) by lia. simpl. done.
    + intros x. simpl. setoid_rewrite elem_of_app. setoid_rewrite list_elem_of_singleton.
      destruct (decide (count st d = 0)) as [H0|H0].
      * rewrite H0. simpl. rewrite elem_of_union, elem_of_singleton. specialize (Hs x). naive_solver.
      * rewrite bool_decide_false by done. simpl. rewrite (Hs x). split; [naive_solver|].
        intros [c [?|[= -> ->]]]; [eauto|]. apply count_pos. pose proof (count_nonneg st d). simpl. lia.
  - intros x. set (d' := filter (λ r, r ≠ (st, ch)) d).
    assert (∀ c, (x, c) ∈ d' ↔ (x, c) ≠ (st, ch) ∧ (x, c) ∈ d) as Hd' by (intros; unfold d'; by rewrite list_elem_of_filter).
    setoid_rewrite Hd'. case_bool_decide as Hdel; simpl.
    + case_bool_decide as Hz; simpl.
      * rewrite elem_of_difference, elem_of_singleton, (Hs x). rewrite count_zero in Hz.
        destruct (decide (x = st)) as [->|Hne]; [|naive_solver]. split; [naive_solver|].
        intros (c & Hc & Hin). destruct (Hz c). by apply list_elem_of_filter.
      * rewrite (Hs x). split; [|naive_solver]. intros [c Hc].
        destruct (decide ((x, c) = (st, ch))) as [[= -> ->]|Hne]; [|naive_solver].
        assert (0 < count st d') as [c' Hc']%count_pos
          by (pose proof (count_nonneg st d'); unfold d' in *; lia).
        exists c'. by apply list_elem_of_filter in Hc'.
    + assert (¬ ∃ y, y ∈ d ∧ ¬ y ≠ (st, ch)) as Hno.
      { intros Hex. apply (proj2 (filter_shorter (λ r, r ≠ (st, ch)) d)) in Hex. change (length d' < length d)%nat in Hex. lia. }
      rewrite (Hs x). split; [|naive_solver]. intros [c Hc]. exists c. split; [|done].
      intros Heq. apply Hno. exists (x, c). split; [done|]. by intros [].
  - intros x. set (d' := filter (λ r, r.2 ≠ ch) d).
    assert (∀ c, (x, c) ∈ d' ↔ c ≠ ch ∧ (x, c) ∈ d) as Hd' by (intros; unfold d'; by rewrite list_elem_of_filter).
    rewrite elem_of_difference, elem_of_list_to_set, list_elem_of_filter, elem_of_remove_dups,
      list_elem_of_fmap, count_zero, (Hs x). setoid_rewrite Hd'. split.
    + intros [[c Hc] Hnz]. destruct (decide (c = ch)) as [->|Hne]; [|eauto].
      destruct (decide (0 < count x d')) as [[c' Hc']%count_pos|Hz]; [exists c'; by apply Hd'|].
      destruct Hnz. split.
      * intros c' Hc'. apply Hz, count_pos. exists c'. by apply Hd'.
      * exists (x, ch). split; [done|]. by apply list_elem_of_filter.
    + intros (c & Hne & Hin). split; [eauto|]. intros [Hz _]. by apply (Hz c).
Qed.

End demand.

(** The agent produces exactly the audio sources somebody listens to: if it
    starts a source on [first] and stops it on [last] and on the zero streams
    of a closed connection, then after any sequence of subscribes,
    unsubscribes (also repeated or spurious ones) and disconnects its sources
    are the streams with at least one demand row. *)
Lemma audio_sources_match_demand ops stream :
  let s := foldl demand_step ([], ∅) ops in
  (stream ∈ s.2 ↔ 0 < count stream s.1).
Proof.
  intros s. assert (in_sync s) as Hs.
  { subst s. assert (∀ s0, in_sync s0 → in_sync (foldl demand_step s0 ops)) as Hgen.
    { induction ops as [|op ops IH]; intros s0 H0; simpl; [done|]. by apply IH, demand_step_sync. }
    apply Hgen. intros x. simpl. split; [by intros ?%elem_of_empty|intros [c Hc]; by apply not_elem_of_nil in Hc]. }
  rewrite count_pos. apply Hs.
Qed.

Definition in_range (lo hi : Z) (f : spec_float) : Prop :=
  SFleb (float_of_Z lo) f = true ∧ SFleb f (float_of_Z hi) = true.

Definition opt_in_range (lo hi : Z) (o : option spec_float) : Prop :=
  match o with None => True | Some f => in_range lo hi f end.

(** The integers a meter value can be clamped to. *)
Definition ints_in_range (lo hi : Z) : bool :=
  forallb (λ z, SFleb (float_of_Z lo) (float_of_Z z) && SFleb (float_of_Z z) (float_of_Z hi))
    (seqZ lo (hi - lo + 1)).

Lemma num_in_range v lo hi o :
  lo ≤ hi → ints_in_range lo hi = true → num v lo hi = Ok o → opt_in_range lo hi o.
Proof.
  intros Hle Hall. unfold ints_in_range in Hall. rewrite forallb_forall in Hall.
  assert (∀ z, lo ≤ z ≤ hi → in_range lo hi (float_of_Z z)) as Hz.
  { intros z Hz. specialize (Hall z). rewrite <-list_elem_of_In, elem_of_seqZ in Hall.
    specialize (Hall ltac:(lia)). by apply andb_true_iff in Hall. }
  destruct v; simpl; try (by intros [= <-]).
  - case_decide; [done|]. intros [= <-]. simpl. apply Hz. lia.
  - destruct (is_finite f); intros [= <-]; [|done]. simpl. unfold in_range.
    destruct (Hz lo) as [Hll Hlh]; [lia|]. destruct (Hz hi) as [_ Hhh]; [lia|].
    by apply clamp_float_bounds.
Qed.

(** C39. Whatever the agent sends, a meter frame relayed to the browsers is
    wire-safe: slot 0..63, every level a number in its dB range, a known DSP
    mode, and no values at all in an inactive frame.  The sanitiser does not
    always return, though (finding): an integer too large for a float makes it
    raise [OverflowError] instead of dropping the value. *)
Theorem sanitize_bounds msg :
  match sanitize msg with
  | Ok (Some fr) =>
    0 ≤ f_slot fr ≤ 63 ∧
    match f_active fr with
    | None => True
    | Some m => opt_in_range (-120) 0 (m_peak m) ∧ opt_in_range (-120) 0 (m_rms m) ∧
        opt_in_range (-120) 0 (m_ceiling m) ∧ in_range 0 60 (m_gain_reduction m) ∧ m_dsp m ∈ DSP_MODES
    end
  | Ok None => True
  | Raise OverflowError => ∃ fs k z, msg = JObj fs ∧ jget k fs = JInt z ∧ FLOAT_OVERFLOW ≤ Z.abs z
  end ∧
  sanitize (JObj [("slot", JInt 0); ("active", JBool true); ("peak_dbfs", JInt (10 ^ 400))]) =
    Raise OverflowError.
Proof.
  split; [|vm_compute; reflexivity].
  assert (ints_in_range (-120) 0 = true) as H1 by (vm_compute; reflexivity).
  assert (ints_in_range 0 60 = true) as H2 by (vm_compute; reflexivity).
  assert (∀ v lo hi e, num v lo hi = Raise e → ∃ z, v = JInt z ∧ FLOAT_OVERFLOW ≤ Z.abs z) as Hraise.
  { intros v lo hi e. destruct v; simpl; try done; [case_decide; [eauto|done]|by destruct (is_finite f)]. }
  unfold sanitize. destruct msg as [| | | | | |fs]; try done.
  destruct (jget "slot" fs) as [| |slot| | | |]; try done. case_decide as Hslot; [|done].
  destruct (jget "active" fs) as [|[|]| | | | |]; try done.
  destruct (num (jget "gain_reduction_db" fs) 0 60) as [gr|[]] eqn:Hgr; cbn [obind];
    [|apply Hraise in Hgr as (z & ? & ?); eauto 10].
  destruct (num (jget "peak_dbfs" fs) (-120) 0) as [pk|[]] eqn:Hpk; cbn [obind];
    [|apply Hraise in Hpk as (z & ? & ?); eauto 10].
  destruct (num (jget "rms_dbfs" fs) (-120) 0) as [rms|[]] eqn:Hrms; cbn [obind];
    [|apply Hraise in Hrms as (z & ? & ?); eauto 10].
  destruct (num (jget "ceiling_dbfs" fs) (-120) 0) as [ce|[]] eqn:Hce; cbn [obind];
    [|apply Hraise in Hce as (z & ? & ?); eauto 10].
  split; [done|]. cbn [f_active m_peak m_rms m_ceiling m_gain_reduction m_dsp].
  split_and!; [by eapply num_in_range; [..|exact Hpk]|by eapply num_in_range; [..|exact Hrms]|
    by eapply num_in_range; [..|exact Hce]| |].
  - apply num_in_range in Hgr; [|done..]. destruct gr as [g|]; [done|]. split; vm_compute; reflexivity.
  - unfold dsp_mode. destruct (jget "dsp" fs); try (apply (bool_decide_unpack _); vm_compute; exact I).
    case_bool_decide; [done|]. apply (bool_decide_unpack _); vm_compute; exact I.
Qed.

(** An unknown module type never loosens a write policy: for every table,
    capability and module type, the policy applied to a frame whose module type
    is unknown or malformed needs at least the verb, and persists at least
    what, the type's own policy does.  In the shipped table, whoever may not
    calibrate cannot write a calibration capability through any module type. *)
Lemma unknown_module_never_loosens policy cap ty :
  let strict := policy_for policy (JStr cap) JNull in
  let known := policy_for policy (JStr cap) (JStr ty) in
  verb_index (pol_verb known) ≤ verb_index (pol_verb strict) ∧
  (pol_persist known = true → pol_persist strict = true) ∧
  pol_verb (policy_for POLICY (JStr "filter_hpf") (JStr ty)) = V_manage.
Proof.
  cbn zeta. simpl.
  assert (∀ key p, policy_get policy key = Some p → key.1 = cap →
    verb_index (pol_verb p) ≤ verb_index (pol_verb (strictest_for policy cap)) ∧
    (pol_persist p = true → pol_persist (strictest_for policy cap) = true)) as Hget.
  { intros key p Hp Hkey. unfold policy_get in Hp. apply fmap_Some in Hp as ([i [k q]] & Hf & Hq).
    simpl in Hq. subst q. apply list_find_elem in Hf as [Hin Hk]. simpl in Hk. subst k.
    assert ((key, p) ∈ filter (λ p, p.1.1 = cap) policy) as Hin' by (by apply list_elem_of_filter).
    unfold strictest_for. destruct (filter _ policy) as [|e es] eqn:Hfl; [by apply not_elem_of_nil in Hin'|].
    rewrite list_elem_of_In in Hin'. simpl pol_verb. simpl pol_persist. split.
    - destruct (pol_verb p) eqn:Hv; [match goal with |- _ ≤ verb_index ?v => by destruct v end|].
      assert (existsb (λ p, bool_decide (pol_verb p.2 = V_manage)) (e :: es) = true) as Hex.
      { apply existsb_exists. exists (key, p). split; [done|]. by apply bool_decide_eq_true. }
      simpl in Hex. by rewrite Hex.
    - intros Hpp. change (existsb (λ p, pol_persist p.2) (e :: es) = true).
      apply existsb_exists. by exists (key, p). }
  assert (verb_index (pol_verb POLICY_DEFAULT) ≤ verb_index (pol_verb (strictest_for policy cap))) as Hdef
    by (by destruct (pol_verb (strictest_for policy cap))).
  destruct (policy_get policy (cap, Some ty)) as [p|] eqn:H1.
  { destruct (Hget _ _ H1 eq_refl). by split_and!. }
  destruct (policy_get policy (cap, None)) as [p|] eqn:H2.
  { destruct (Hget _ _ H2 eq_refl). by split_and!. }
  by split_and!.
Qed.
