(* ===== verification/Telemetry.v ===== *)
(** * Telemetry subscriptions: the server's demand and the agent's polling

    Models [apps/control/telemetry_subscriptions.py] (the reference-counted
    demand of the browsers and the frames that relay its changes) and the
    subscription table of the agent ([handle_subscribe], [handle_unsubscribe]
    and [_telemetry_caps] of [station_agent/broker.py]).

    The contract between the two is a refinement: the agent, driven only by the
    relayed frames, polls what the rows of the server demand, at the demanded
    interval or, where that is faster than the descriptors allow, at the interval
    the agent clamps it to ([poll_interval]).

    One station; every mutation runs under the station row lock and reads the
    clock once.  Its frames are queued and reach the agent later, one at a time and
    in order; a reconnect drops the queue and the agent's table and sends the active
    demand again; the agent's inventory may change at any time, which leaves the
    subscriptions it has as they are.  A frame carries its capabilities as a set
    (the code sends the sorted list); the addresses a purge or drop visits come in
    some order, and frames of different addresses are independent.  Times are
    microseconds. *)

From Stdlib Require Import ZArith Lia SpecFloat.
From stdpp Require Import base gmap list strings.
From S2P Require Import Prelude Json.

Local Open Scope Z_scope.

(** ** Frames from the browser *)

Definition PROTOCOL_VERSION : Z := 1.
Definition INTERVAL_MIN_MS : Z := 250.
Definition INTERVAL_MAX_MS : Z := 10000.
Definition INTERVAL_DEFAULT_MS : Z := 1000.
Definition FIELD_MAX : Z := 64.
Definition MAX_CAPS : Z := 32.
Definition SLOT_MAX : Z := 2 ^ 31 - 1.
Definition MAX_ROWS_PER_CHANNEL : Z := 64.
Definition STALE_AFTER : Z := 180 * 1000000.

(** [int(f)] of a positive finite float *)
Definition trunc_pos (m : positive) (e : Z) : Z :=
  if decide (0 ≤ e) then Zpos m * 2 ^ e else Zpos m / 2 ^ (- e).

(** The bounds are integers, so clamping before or after truncation agrees. *)
Definition clamp_interval (raw : Json) : Z :=
  let clamp z := Z.min (Z.max z INTERVAL_MIN_MS) INTERVAL_MAX_MS in
  match raw with
  | JInt z => if decide (z ≤ 0) then INTERVAL_DEFAULT_MS else clamp z
  | JFloat (S754_finite false m e) => clamp (trunc_pos m e)
  | JFloat (S754_infinity false) => INTERVAL_MAX_MS
  | _ => INTERVAL_DEFAULT_MS
  end.

(** [v == 1] in Python: also [True] and [1.0]. *)
Definition equals_one (v : Json) : bool :=
  match v with
  | JInt z => bool_decide (z = PROTOCOL_VERSION)
  | JBool b => b
  | JFloat f => SFeqb f (float_of_Z 1)
  | _ => false
  end.

Definition field_ok (s : string) : bool := bool_decide (0 < Z.of_nat (String.length s) ≤ FIELD_MAX).

(** The loop over [raw_caps]: strings of acceptable length, first occurrences. *)
Definition collect_caps (raw : list Json) : list string :=
  foldl (λ caps c,
    match c with
    | JStr s => if field_ok s && bool_decide (s ∉ caps) then caps ++ [s] else caps
    | _ => caps
    end) [] raw.

Definition parse_addr (msg : list (string * Json)) : option (Z * string * list string) :=
  if negb (equals_one (jget "v" msg)) then None
  else
    match jget "slot" msg with
    | JInt slot =>
      if decide (- SLOT_MAX ≤ slot ≤ SLOT_MAX) then
        match jget "module" msg with
        | JStr module =>
          if negb (field_ok module) then None
          else
            match jget "capabilities" msg with
            | JList raw =>
              let caps := collect_caps raw in
              if decide (caps = [] ∨ MAX_CAPS < Z.of_nat (length caps)) then None
              else Some (slot, module, caps)
            | _ => None
            end
        | _ => None
        end
      else None
    | _ => None
    end.

(** ** Rows and frames to the agent *)

Record TelSub := mkTel {
  ts_slot : Z;
  ts_module : string;
  ts_cap : string;
  ts_channel : string;
  ts_interval : Z;
  ts_seen : Z
}.

Definition ts_addr (r : TelSub) : Z * string := (ts_slot r, ts_module r).

Inductive Frame :=
| F_subscribe (addr : Z * string) (caps : gset string) (interval_ms : option Z)
| F_unsubscribe (addr : Z * string) (caps : gset string).

Definition State : Type := gset string * option Z.

(** [aggregate(Min("interval_ms"))] *)
Definition min_interval_of (rows : list TelSub) : option Z :=
  foldr (λ r acc, Some (match acc with None => ts_interval r | Some m => Z.min (ts_interval r) m end))
    None rows.

Definition state_of (rows : list TelSub) : State :=
  (list_to_set (ts_cap <$> rows), min_interval_of rows).

Definition rows_at (addr : Z * string) (tbl : list TelSub) : list TelSub :=
  filter (λ r, ts_addr r = addr) tbl.

Definition stale_cutoff (now : Z) : Z := now - STALE_AFTER.

(** [_state]: only rows seen recently count. *)
Definition state (now : Z) (addr : Z * string) (tbl : list TelSub) : State :=
  state_of (filter (λ r, stale_cutoff now ≤ ts_seen r) (rows_at addr tbl)).

Definition addrs (rows : list TelSub) : list (Z * string) := remove_dups (ts_addr <$> rows).

Definition transition (addr : Z * string) (before after : State) : list Frame :=
  let (caps_before, iv_before) := before in
  let (caps_after, iv_after) := after in
  let gone := caps_before ∖ caps_after in
  let frames := if decide (gone = ∅) then [] else [F_unsubscribe addr gone] in
  if decide (caps_after = ∅) then frames
  else
    let new := caps_after ∖ caps_before in
    if decide (iv_after ≠ iv_before) then frames ++ [F_subscribe addr caps_after iv_after]
    else if decide (new = ∅) then frames
    else frames ++ [F_subscribe addr new iv_after].

(** ** Operations *)

Definition is_stale (now : Z) (r : TelSub) : Prop := ts_seen r < stale_cutoff now.

#[export] Instance is_stale_dec now r : Decision (is_stale now r).
Proof. unfold is_stale. apply _. Defined.

Definition purge_stale_locked (now : Z) (tbl : list TelSub) : list TelSub * list Frame :=
  let ads := addrs (filter (is_stale now) tbl) in
  let tbl' := delete_where (is_stale now) tbl in
  (tbl', ads ≫= λ a, transition a (state_of (rows_at a tbl)) (state now a tbl')).

Definition touch_rows (channel : string) (now : Z) (tbl : list TelSub) : list TelSub :=
  update_where (λ r, ts_channel r = channel)
    (λ r, mkTel (ts_slot r) (ts_module r) (ts_cap r) (ts_channel r) (ts_interval r) now) tbl.

(** The names a descriptor describes. *)
Definition descriptor_names (descriptor : Json) : list string :=
  match descriptor with
  | JList l => omap (λ c, match c with
                          | JObj fs => match jget "name" fs with JStr s => Some s | _ => None end
                          | _ => None
                          end) l
  | _ => []
  end.

(** [registered] is the [StationModule] table: the descriptor of an address. *)
Definition described_caps (registered : Z * string → option Json) (addr : Z * string) (caps : list string)
  : list string :=
  match registered addr with
  | None => []
  | Some descriptor =>
    let names := descriptor_names descriptor in
    if decide (names = []) then caps else filter (λ c, c ∈ names) caps
  end.

(** The creation loop: skip what exists, stop when there is no room. *)
Fixpoint create_rows (addr : Z * string) (channel : string) (interval now : Z) (existing : list string)
    (room : Z) (caps : list string) (tbl : list TelSub) : list TelSub :=
  match caps with
  | [] => tbl
  | cap :: caps' =>
    if decide (cap ∈ existing) then create_rows addr channel interval now existing room caps' tbl
    else if decide (room ≤ 0) then tbl
    else create_rows addr channel interval now existing (room - 1) caps'
           (tbl ++ [mkTel addr.1 addr.2 cap channel interval now])
  end.

Definition telemetry_subscribe (registered : Z * string → option Json) (channel : string)
    (addr : Z * string) (caps : list string) (interval : Json) (now : Z) (tbl : list TelSub)
  : list TelSub * list Frame :=
  let caps := described_caps registered addr caps in
  if decide (caps = []) then (tbl, [])
  else
    let tbl1 := touch_rows channel now tbl in
    let (tbl2, frames) := purge_stale_locked now tbl1 in
    let before := state now addr tbl2 in
    let held := filter (λ r, ts_channel r = channel) tbl2 in
    let existing := ts_cap <$> filter (λ r, ts_addr r = addr ∧ ts_cap r ∈ caps) held in
    let room := MAX_ROWS_PER_CHANNEL - Z.of_nat (length held) in
    let tbl3 := create_rows addr channel (clamp_interval interval) now existing room caps tbl2 in
    (tbl3, frames ++ transition addr before (state now addr tbl3)).

Definition telemetry_unsubscribe (channel : string) (addr : Z * string) (caps : list string) (now : Z)
    (tbl : list TelSub) : list TelSub * list Frame :=
  let mine r := ts_addr r = addr ∧ ts_cap r ∈ caps ∧ ts_channel r = channel in
  if decide (Exists mine tbl) then
    let (tbl1, frames) := purge_stale_locked now tbl in
    let before := state now addr tbl1 in
    let tbl2 := delete_where mine tbl1 in
    (tbl2, frames ++ transition addr before (state now addr tbl2))
  else (tbl, []).

Definition telemetry_drop_channel (channel : string) (now : Z) (tbl : list TelSub)
  : list TelSub * list Frame :=
  let (tbl1, frames) := purge_stale_locked now tbl in
  let ads := addrs (filter (λ r, ts_channel r = channel) tbl1) in
  let tbl2 := delete_where (λ r, ts_channel r = channel) tbl1 in
  (tbl2, frames ++ (ads ≫= λ a, transition a (state now a tbl1) (state now a tbl2))).

(** [active_subscriptions]: the replay after an agent reconnect. *)
Definition active_subscriptions (now : Z) (tbl : list TelSub) : list TelSub * list Frame :=
  let (tbl1, _) := purge_stale_locked now tbl in
  (tbl1, addrs tbl1 ≫= λ a,
     let (caps, iv) := state now a tbl1 in
     if decide (caps = ∅) then [] else [F_subscribe a caps iv]).

(** ** The agent *)

(** An entry of [_subscriptions]: the capabilities, the interval asked for and the
    one the poll loop sleeps ([requested_s], [interval_s]). *)
Record AgentSub := mkAgentSub { ag_caps : gset string; ag_requested : Z; ag_interval : Z }.

Notation Agent := (gmap (Z * string) AgentSub).

(** What the agent's descriptors say of an address: the minimum interval of each
    telemetry capability (the default where none is declared); [None] for anything
    that is not telemetry. *)
Definition Inventory : Type := Z * string → string → option Z.

Section agent.
(** [telemetry_default_interval_ms], [telemetry_min_floor_ms] *)
Context (default_ms floor_ms : Z).

(** The first result of [_telemetry_caps] ... *)
Definition valid_caps (inv : Inventory) (addr : Z * string) (caps : gset string) : gset string :=
  filter (λ c, is_Some (inv addr c)) caps.

(** ... and the second, with the request: what the poll loop is started with. *)
Definition poll_interval (inv : Inventory) (addr : Z * string) (caps : gset string) (requested : Z) : Z :=
  Z.max requested
    (foldr (λ c acc, match inv addr c with Some m => Z.max acc m | None => acc end) floor_ms (elements caps)).

Definition handle_frame (inv : Inventory) (agent : Agent) (f : Frame) : Agent :=
  match f with
  | F_subscribe addr caps iv =>
    let requested := match iv with Some z => if decide (0 < z) then z else default_ms | None => default_ms end in
    let valid := valid_caps inv addr caps in
    if decide (valid = ∅) then agent
    else
      let existing := match agent !! addr with Some s => ag_caps s | None => ∅ end in
      <[addr := mkAgentSub (valid ∪ existing) requested (poll_interval inv addr (valid ∪ existing) requested)]> agent
  | F_unsubscribe addr caps =>
    match agent !! addr with
    | None => agent
    | Some s =>
      let rest := ag_caps s ∖ caps in
      if decide (rest = ∅) then delete addr agent
      else <[addr := mkAgentSub rest (ag_requested s) (poll_interval inv addr rest (ag_requested s))]> agent
    end
  end.

Definition run_frames (inv : Inventory) (agent : Agent) (fs : list Frame) : Agent := foldl (handle_frame inv) agent fs.

(** ** The whole system *)

(** The rows, the frames on their way to the agent (oldest first), the agent's
    table and its inventory. *)
Record TelSys := mkTelSys {
  ty_rows : list TelSub;
  ty_queue : list Frame;
  ty_agent : Agent;
  ty_inv : Inventory
}.

Inductive TelOp :=
| T_subscribe (channel : string) (addr : Z * string) (caps : list string) (interval : Json)
| T_unsubscribe (channel : string) (addr : Z * string) (caps : list string)
| T_drop (channel : string)
| T_touch (channel : string)
| T_purge
| T_deliver                          (* the agent takes the next frame *)
| T_inventory (inv : Inventory)      (* a scan finds other modules *)
| T_reconnect.

(** One operation at time [now].  A reconnect replaces the connection: frames on
    the old one are lost, the agent has cleared its table, the demand is replayed. *)
Definition tel_step (registered : Z * string → option Json) (s : TelSys) (op : TelOp * Z) : TelSys :=
  let now := op.2 in
  let queue (r : list TelSub * list Frame) := mkTelSys r.1 (ty_queue s ++ r.2) (ty_agent s) (ty_inv s) in
  match op.1 with
  | T_subscribe ch a caps iv => queue (telemetry_subscribe registered ch a caps iv now (ty_rows s))
  | T_unsubscribe ch a caps => queue (telemetry_unsubscribe ch a caps now (ty_rows s))
  | T_drop ch => queue (telemetry_drop_channel ch now (ty_rows s))
  | T_touch ch => queue (touch_rows ch now (ty_rows s), [])
  | T_purge => queue (purge_stale_locked now (ty_rows s))
  | T_deliver =>
    match ty_queue s with
    | [] => s
    | f :: fs => mkTelSys (ty_rows s) fs (handle_frame (ty_inv s) (ty_agent s) f) (ty_inv s)
    end
  | T_inventory inv => mkTelSys (ty_rows s) (ty_queue s) (ty_agent s) inv
  | T_reconnect => let r := active_subscriptions now (ty_rows s) in mkTelSys r.1 r.2 ∅ (ty_inv s)
  end.

Definition tel_start (inv : Inventory) : TelSys := mkTelSys [] [] ∅ inv.

Definition tel_run (registered : Z * string → option Json) (inv : Inventory) (ops : list (TelOp * Z)) : TelSys :=
  foldl (tel_step registered) (tel_start inv) ops.

End agent.

(** What the agent should poll, computed. *)
Definition armed (floor_ms : Z) (inv : Inventory) (addr : Z * string) (st : State) : option AgentSub :=
  let p := valid_caps inv addr st.1 in
  match st.2 with
  | Some iv => if decide (p = ∅) then None else Some (mkAgentSub p iv (poll_interval floor_ms inv addr p iv))
  | None => None
  end.

(** The same, said of the rows: [o] is the agent's entry for [addr]. *)
Definition polls (floor_ms : Z) (inv : Inventory) (tbl : list TelSub) (addr : Z * string) (o : option AgentSub) : Prop :=
  let demanded c := ∃ r, r ∈ tbl ∧ ts_addr r = addr ∧ ts_cap r = c in
  match o with
  | None => ∀ c, demanded c → inv addr c = None
  | Some s =>
    ag_caps s ≠ ∅ ∧ (∀ c, c ∈ ag_caps s ↔ demanded c ∧ is_Some (inv addr c)) ∧
    (∃ r, r ∈ tbl ∧ ts_addr r = addr ∧ ts_interval r = ag_requested s) ∧
    (∀ r, r ∈ tbl → ts_addr r = addr → ag_requested s ≤ ts_interval r) ∧
    (ag_requested s ≤ ag_interval s ∧ floor_ms ≤ ag_interval s ∧
     ∀ c m, c ∈ ag_caps s → inv addr c = Some m → m ≤ ag_interval s) ∧
    (ag_interval s = ag_requested s ∨ ag_interval s = floor_ms ∨
     ∃ c, c ∈ ag_caps s ∧ inv addr c = Some (ag_interval s))
  end.

Definition synced (floor_ms : Z) (inv : Inventory) (tbl : list TelSub) (agent : Agent) : Prop :=
  ∀ addr, agent !! addr = armed floor_ms inv addr (state_of (rows_at addr tbl)).

(** ** Lemmas *)

Section sync.
Context (default_ms floor_ms : Z) (inv : Inventory).
Implicit Types (tbl rows : list TelSub) (a addr : Z * string) (agent : Agent) (st : State).

Notation valid := (valid_caps inv).
Notation armed := (armed floor_ms inv).
Notation run := (run_frames default_ms floor_ms inv).
Notation synced := (synced floor_ms inv).

Lemma elem_of_valid addr caps c : c ∈ valid addr caps ↔ is_Some (inv addr c) ∧ c ∈ caps.
Proof. unfold valid_caps. by rewrite elem_of_filter. Qed.

Lemma sub_ext addr (X Y : gset string) z :
  (∀ c, c ∈ X ↔ c ∈ Y) →
  Some (mkAgentSub X z (poll_interval floor_ms inv addr X z)) = Some (mkAgentSub Y z (poll_interval floor_ms inv addr Y z)).
Proof. intros HXY. by assert (X = Y) as -> by by apply set_eq. Qed.

(** A demand with a capability has a usable interval. *)
Definition good st : Prop := st.1 ≠ ∅ → ∃ z, st.2 = Some z ∧ 0 < z.

(** Dropping the capabilities that are gone. *)
Lemma unsubscribe_stage addr agent cb ib ca :
  agent !! addr = armed addr (cb, ib) →
  run agent (if decide (cb ∖ ca = ∅) then [] else [F_unsubscribe addr (cb ∖ ca)]) !! addr =
    armed addr (cb ∩ ca, ib).
Proof.
  intros Hag. unfold Telemetry.armed in *. cbn [fst snd] in *.
  assert (valid addr (cb ∩ ca) = valid addr cb ∖ (cb ∖ ca)) as Hv.
  { apply set_eq. intros c. rewrite elem_of_difference, !elem_of_valid, elem_of_difference, elem_of_intersection.
    destruct (decide (c ∈ ca)); tauto. }
  destruct (decide (cb ∖ ca = ∅)) as [Hgone|Hgone]; simpl.
  - rewrite Hag, Hv, Hgone. by rewrite difference_empty_L.
  - rewrite Hag. destruct ib as [iv|]; [|exact Hag].
    destruct (decide (valid addr cb = ∅)) as [Hne|Hne].
    + rewrite Hag, decide_True; [done|]. rewrite Hv, Hne. set_solver.
    + simpl. rewrite <-Hv.
      destruct (decide (valid addr (cb ∩ ca) = ∅)); [apply lookup_delete_eq|apply lookup_insert_eq].
Qed.

Lemma handle_frame_other addr f agent a :
  (match f with F_subscribe b _ _ | F_unsubscribe b _ => b end) = addr → a ≠ addr →
  handle_frame default_ms floor_ms inv agent f !! a = agent !! a.
Proof.
  intros <- Hne. destruct f as [b caps iv|b caps]; simpl.
  - case_decide; [done|]. by apply lookup_insert_ne.
  - destruct (agent !! b); [|done]. case_decide; [by apply lookup_delete_ne|by apply lookup_insert_ne].
Qed.

Lemma transition_frames addr before after f :
  f ∈ transition addr before after → (match f with F_subscribe b _ _ | F_unsubscribe b _ => b end) = addr.
Proof.
  destruct before as [cb ib], after as [ca ia]. unfold transition. intros Hf.
  repeat case_decide; rewrite ?elem_of_app, ?list_elem_of_singleton in Hf;
    repeat match goal with
    | H : _ ∈ [] |- _ => by apply not_elem_of_nil in H
    | H : _ ∨ _ |- _ => destruct H
    end; by subst.
Qed.

Lemma run_other addr fs agent a :
  (∀ f, f ∈ fs → (match f with F_subscribe b _ _ | F_unsubscribe b _ => b end) = addr) → a ≠ addr →
  run agent fs !! a = agent !! a.
Proof.
  intros Hfs Hne. revert agent. induction fs as [|f fs IH]; intros agent; simpl; [done|].
  rewrite IH by (intros g Hg; apply Hfs; by apply list_elem_of_further).
  eapply handle_frame_other; [|done]. apply Hfs, list_elem_of_here.
Qed.

(** One address: the frames of a transition re-arm the agent. *)
Lemma transition_sync addr before after agent :
  agent !! addr = armed addr before → good after →
  run agent (transition addr before after) !! addr = armed addr after.
Proof.
  destruct before as [cb ib], after as [ca ia]. intros Hag Hgood. unfold transition.
  pose proof (unsubscribe_stage addr agent cb ib ca Hag) as H1.
  set (fs := if decide (cb ∖ ca = ∅) then [] else _) in *.
  assert (∀ f, run agent (fs ++ [f]) = handle_frame default_ms floor_ms inv (run agent fs) f) as Hrun
    by (intros f; unfold run_frames; by rewrite foldl_snoc).
  unfold Telemetry.armed in *. cbn [fst snd] in *.
  destruct (decide (ca = ∅)) as [Hca|Hca].
  { rewrite H1. subst ca. assert (∀ X : gset string, X = ∅ → valid addr X = ∅) as Hve.
    { intros X ->. apply set_eq. intros c. rewrite elem_of_valid. set_solver. }
    destruct ib, ia; rewrite ?decide_True by (apply Hve; set_solver); done. }
  destruct (Hgood Hca) as (z & Hz & Hpos). simpl in Hz. subst ia.
  assert (∀ c, c ∈ match run agent fs !! addr with Some s => ag_caps s | None => ∅ end →
    c ∈ valid addr (cb ∩ ca)) as Hex.
  { intros c. rewrite H1. destruct ib; [case_decide|]; simpl; set_solver. }
  destruct (decide (Some z ≠ ib)) as [Hiv|Hiv]; [|destruct (decide (ca ∖ cb = ∅)) as [Hnew|Hnew]].
  - rewrite Hrun. simpl. rewrite (decide_True (P := 0 < z)) by done.
    destruct (decide (valid addr ca = ∅)) as [He|He].
    + rewrite H1. destruct ib; [|done]. rewrite decide_True; [done|].
      apply set_eq. intros c. split; [|set_solver]. intros Hc. rewrite <-He.
      rewrite elem_of_valid in Hc |- *. set_solver.
    + etrans; [apply lookup_insert_eq|]. apply sub_ext. intros c. rewrite elem_of_union.
      split; [intros [?|Hc%Hex]; [done|]|by left]. rewrite elem_of_valid in Hc |- *. set_solver.
  - rewrite H1. apply dec_stable in Hiv. subst ib.
    assert (valid addr (cb ∩ ca) = valid addr ca) as ->; [|done].
    f_equal. apply set_eq. intros c. rewrite elem_of_intersection. split; [by intros [_ ?]|].
    intros Hc. split; [|done]. destruct (decide (c ∈ cb)); [done|].
    assert (c ∈ ca ∖ cb) as Hcc by (by apply elem_of_difference). rewrite Hnew in Hcc.
    by apply elem_of_empty in Hcc.
  - apply dec_stable in Hiv. subst ib.
    assert (∀ c, c ∈ valid addr ca ↔ c ∈ valid addr (ca ∖ cb) ∨ c ∈ valid addr (cb ∩ ca)) as Hsplit.
    { intros c. rewrite !elem_of_valid, elem_of_difference, elem_of_intersection.
      destruct (decide (c ∈ cb)); tauto. }
    rewrite Hrun. simpl. rewrite (decide_True (P := 0 < z)) by done. rewrite H1.
    destruct (decide (valid addr (ca ∖ cb) = ∅)) as [He|He].
    + rewrite H1. assert (valid addr ca = valid addr (cb ∩ ca)) as ->; [|done].
      apply set_eq. intros c. rewrite Hsplit, He. set_solver.
    + etrans; [apply lookup_insert_eq|]. rewrite (decide_False (P := valid addr ca = ∅)).
      2:{ intros Hcae. apply He. apply set_eq. intros c. rewrite <-Hcae. set_solver. }
      apply sub_ext. intros c. rewrite elem_of_union, Hsplit.
      case_decide as Hi; simpl; [rewrite Hi|]; set_solver.
Qed.

Lemma run_app agent fs1 fs2 : run agent (fs1 ++ fs2) = run (run agent fs1) fs2.
Proof. apply foldl_app. Qed.

(** Several addresses, each visited once. *)
Lemma run_transitions ads before after agent :
  NoDup ads → (∀ a, a ∈ ads → agent !! a = armed a (before a) ∧ good (after a)) →
  ∀ a, run agent (ads ≫= λ a, transition a (before a) (after a)) !! a =
    if decide (a ∈ ads) then armed a (after a) else agent !! a.
Proof.
  intros Hnd. revert agent. induction Hnd as [|a0 ads Ha0 Hnd IH]; intros agent Hads a; [done|].
  csimpl. rewrite run_app. set (agent1 := run agent (transition a0 (before a0) (after a0))).
  destruct (Hads a0 (list_elem_of_here _ _)) as [Hag Hgood].
  assert (agent1 !! a0 = armed a0 (after a0)) as H0 by (by apply transition_sync).
  assert (∀ b, b ≠ a0 → agent1 !! b = agent !! b) as Hne.
  { intros b Hb. apply (run_other a0); [apply transition_frames|done]. }
  rewrite IH.
  - destruct (decide (a = a0)) as [->|Ha].
    + rewrite decide_False by done. by rewrite decide_True by apply list_elem_of_here.
    + rewrite Hne by done. apply decide_ext. rewrite elem_of_cons. tauto.
  - intros b Hb. rewrite Hne by congruence. apply Hads. by apply list_elem_of_further.
Qed.

(** *** Demand states *)

Definition rows_ok tbl : Prop := ∀ r, r ∈ tbl → INTERVAL_MIN_MS ≤ ts_interval r ≤ INTERVAL_MAX_MS.

Lemma min_interval_pos rows : rows_ok rows → rows ≠ [] → ∃ z, min_interval_of rows = Some z ∧ 0 < z.
Proof.
  unfold rows_ok, INTERVAL_MIN_MS. induction rows as [|r rows IH]; intros Hok Hne; [done|]. simpl.
  pose proof (Hok r (list_elem_of_here _ _)) as Hr.
  destruct rows as [|r' rows]; [exists (ts_interval r); split; [done|lia]|].
  destruct IH as (z & -> & Hz); [|done|].
  - intros x Hx. apply Hok. by apply list_elem_of_further.
  - eexists. split; [done|]. lia.
Qed.

Lemma state_of_good rows : rows_ok rows → good (state_of rows).
Proof.
  intros Hok Hne. apply min_interval_pos; [done|]. intros ->. by apply Hne.
Qed.

Lemma rows_ok_filter (P : TelSub → Prop) `{∀ r, Decision (P r)} tbl : rows_ok tbl → rows_ok (filter P tbl).
Proof. intros Hok r [_ Hr]%list_elem_of_filter. by apply Hok. Qed.

Definition all_fresh (now : Z) tbl : Prop := ∀ r, r ∈ tbl → stale_cutoff now ≤ ts_seen r.

Lemma filter_all {A} (P : A → Prop) `{∀ x, Decision (P x)} (l : list A) :
  (∀ x, x ∈ l → P x) → filter P l = l.
Proof.
  induction l as [|x l IH]; intros HP; [done|].
  rewrite filter_cons_True by (apply HP, list_elem_of_here). f_equal. apply IH.
  intros y Hy. apply HP. by apply list_elem_of_further.
Qed.

Lemma state_fresh now a tbl : all_fresh now tbl → state now a tbl = state_of (rows_at a tbl).
Proof.
  intros Hf. unfold state. rewrite filter_all; [done|]. intros r [_ Hr]%list_elem_of_filter. by apply Hf.
Qed.

Lemma rows_at_delete_other (P : TelSub → Prop) `{∀ r, Decision (P r)} a tbl :
  (∀ r, r ∈ tbl → P r → ts_addr r ≠ a) → rows_at a (delete_where P tbl) = rows_at a tbl.
Proof.
  intros HP. unfold rows_at, delete_where. induction tbl as [|r tbl IH]; [done|].
  rewrite !filter_cons. specialize (IH (λ x Hx, HP x (list_elem_of_further _ _ _ Hx))).
  pose proof (HP r (list_elem_of_here _ _)) as Hr.
  destruct (decide (¬ P r)) as [Hn|Hn]; [by rewrite filter_cons, IH|].
  apply dec_stable in Hn. by rewrite decide_False by (by apply Hr).
Qed.

(** A table change whose frames cover every address it touches keeps the agent in step. *)
Lemma change_sync ads tbl tbl' agent :
  NoDup ads → synced tbl agent → rows_ok tbl' →
  (∀ a, a ∉ ads → rows_at a tbl' = rows_at a tbl) →
  synced tbl' (run agent (ads ≫= λ a, transition a (state_of (rows_at a tbl)) (state_of (rows_at a tbl')))).
Proof.
  intros Hnd Hs Hok Hother a. rewrite run_transitions; [|done|].
  - case_decide; [done|]. by rewrite Hother.
  - intros b _. split; [apply Hs|]. by apply state_of_good, rows_ok_filter.
Qed.

Lemma elem_of_addrs r rows : r ∈ rows → ts_addr r ∈ addrs rows.
Proof. intros Hr. by apply elem_of_remove_dups, list_elem_of_fmap_2. Qed.

Lemma bind_ext {A B} (f g : A → list B) (l : list A) : (∀ x, f x = g x) → l ≫= f = l ≫= g.
Proof. intros Hfg. induction l as [|x l IH]; csimpl; [done|]. by rewrite Hfg, IH. Qed.

Lemma rows_ok_delete (P : TelSub → Prop) `{∀ r, Decision (P r)} tbl : rows_ok tbl → rows_ok (delete_where P tbl).
Proof. apply rows_ok_filter. Qed.

Lemma purge_sync now tbl agent :
  synced tbl agent → rows_ok tbl →
  let r := purge_stale_locked now tbl in
  synced r.1 (run agent r.2) ∧ rows_ok r.1 ∧ all_fresh now r.1.
Proof.
  intros Hs Hok. unfold purge_stale_locked. cbn [fst snd].
  set (tbl' := delete_where (is_stale now) tbl).
  assert (all_fresh now tbl') as Hf.
  { intros r [Hr _]%list_elem_of_filter. unfold is_stale in Hr. lia. }
  split_and!; [|by apply rows_ok_delete|done].
  rewrite (bind_ext _ (λ a, transition a (state_of (rows_at a tbl)) (state_of (rows_at a tbl')))).
  2:{ intros a. by rewrite state_fresh. }
  apply change_sync; [apply NoDup_remove_dups|done|by apply rows_ok_delete|].
  intros a Ha. apply rows_at_delete_other. intros r Hr Hst <-. apply Ha, elem_of_addrs.
  by apply list_elem_of_filter.
Qed.

(** Touching rows changes no demand. *)
Lemma touch_rows_state ch now a tbl : state_of (rows_at a (touch_rows ch now tbl)) = state_of (rows_at a tbl).
Proof.
  unfold rows_at, touch_rows, update_where. induction tbl as [|r tbl IH]; [done|].
  rewrite fmap_cons, !filter_cons. unfold state_of in *. injection IH as IH1 IH2.
  destruct (decide (ts_channel r = ch)); change (ts_addr (mkTel _ _ _ _ _ _)) with (ts_addr r) ||
    idtac; case_decide; csimpl; rewrite ?IH1, ?IH2; done.
Qed.

Lemma touch_sync ch now tbl agent :
  synced tbl agent → rows_ok tbl → synced (touch_rows ch now tbl) agent ∧ rows_ok (touch_rows ch now tbl).
Proof.
  intros Hs Hok. split.
  - intros a. rewrite touch_rows_state. apply Hs.
  - intros r (x & Hx & [[_ ->]|[_ ->]])%elem_of_update_where; simpl; by apply Hok.
Qed.

Lemma single_bind {A B} (f : A → list B) (x : A) : [x] ≫= f = f x.
Proof. csimpl. by rewrite app_nil_r. Qed.

(** One more address change after a purge, as subscribe and unsubscribe do. *)
Lemma change_one_sync now a tbl tbl' agent :
  synced tbl agent → all_fresh now tbl → all_fresh now tbl' → rows_ok tbl' →
  (∀ b, b ≠ a → rows_at b tbl' = rows_at b tbl) →
  synced tbl' (run agent (transition a (state now a tbl) (state now a tbl'))).
Proof.
  intros Hs Hf Hf' Hok Hother. rewrite !state_fresh by done.
  rewrite <-(single_bind (λ a, transition a (state_of (rows_at a tbl)) (state_of (rows_at a tbl')))).
  apply change_sync; [apply NoDup_singleton|done|done|].
  intros b Hb. apply Hother. by rewrite list_elem_of_singleton in Hb.
Qed.

Lemma all_fresh_delete now (P : TelSub → Prop) `{∀ r, Decision (P r)} tbl :
  all_fresh now tbl → all_fresh now (delete_where P tbl).
Proof. intros Hf r [_ Hr]%list_elem_of_filter. by apply Hf. Qed.

Lemma clamp_interval_bounds raw : INTERVAL_MIN_MS ≤ clamp_interval raw ≤ INTERVAL_MAX_MS.
Proof.
  unfold clamp_interval, INTERVAL_MIN_MS, INTERVAL_MAX_MS, INTERVAL_DEFAULT_MS.
  repeat case_match; lia.
Qed.

Lemma create_rows_spec a ch iv now existing caps room tbl :
  ∃ new, create_rows a ch iv now existing room caps tbl = tbl ++ new ∧
    (∀ r, r ∈ new → ts_addr r = a ∧ ts_channel r = ch ∧ ts_interval r = iv ∧ ts_seen r = now) ∧
    Z.of_nat (length new) ≤ Z.max 0 room.
Proof.
  revert room tbl. induction caps as [|c caps IH]; intros room tbl; simpl.
  { exists []. rewrite app_nil_r. split_and!; [done|intros r Hr; by apply not_elem_of_nil in Hr|simpl; lia]. }
  case_decide; [apply IH|]. case_decide.
  { exists []. rewrite app_nil_r. split_and!; [done|intros r Hr; by apply not_elem_of_nil in Hr|simpl; lia]. }
  destruct (IH (room - 1) (tbl ++ [mkTel a.1 a.2 c ch iv now])) as (new & -> & Hnew & Hlen).
  exists (mkTel a.1 a.2 c ch iv now :: new). split_and!; [by rewrite <-app_assoc| |simpl; lia].
  intros r [->|Hr]%elem_of_cons; [by destruct a|by apply Hnew].
Qed.

Definition tel_inv (s : list TelSub * Agent) : Prop := synced s.1 s.2 ∧ rows_ok s.1.

Lemma subscribe_inv registered ch a caps iv now tbl agent :
  tel_inv (tbl, agent) →
  let r := telemetry_subscribe registered ch a caps iv now tbl in tel_inv (r.1, run agent r.2).
Proof.
  intros [Hs Hok]. unfold telemetry_subscribe. set (cs := described_caps registered a caps).
  case_decide; [done|]. destruct (touch_sync ch now tbl agent Hs Hok) as [Hs1 Hok1].
  pose proof (purge_sync now _ _ Hs1 Hok1) as Hp.
  destruct (purge_stale_locked now (touch_rows ch now tbl)) as [tbl2 frames].
  destruct Hp as (Hs2 & Hok2 & Hf2). cbn [fst snd] in *.
  destruct (create_rows_spec a ch (clamp_interval iv) now
    (ts_cap <$> filter (λ r, ts_addr r = a ∧ ts_cap r ∈ cs) (filter (λ r, ts_channel r = ch) tbl2)) cs
    (MAX_ROWS_PER_CHANNEL - Z.of_nat (length (filter (λ r, ts_channel r = ch) tbl2))) tbl2)
    as (new & -> & Hnew & _).
  assert (rows_ok (tbl2 ++ new)) as Hok3.
  { intros r [Hr|Hr]%elem_of_app; [by apply Hok2|]. destruct (Hnew r Hr) as (_ & _ & -> & _).
    apply clamp_interval_bounds. }
  split; cbn [fst snd]; [|done]. rewrite run_app. apply change_one_sync; [done|done| |done|].
  - intros r [Hr|Hr]%elem_of_app; [by apply Hf2|]. destruct (Hnew r Hr) as (_ & _ & _ & ->).
    unfold stale_cutoff, STALE_AFTER. lia.
  - intros b Hb. unfold rows_at. rewrite filter_app.
    assert (filter (λ r, ts_addr r = b) new = []) as ->; [|by rewrite app_nil_r].
    apply elem_of_nil_inv. intros r [Hr Hin]%list_elem_of_filter. destruct (Hnew r Hin) as [? _]. congruence.
Qed.

Lemma unsubscribe_inv ch a caps now tbl agent :
  tel_inv (tbl, agent) →
  let r := telemetry_unsubscribe ch a caps now tbl in tel_inv (r.1, run agent r.2).
Proof.
  intros [Hs Hok]. unfold telemetry_unsubscribe. case_decide; [|done].
  pose proof (purge_sync now tbl agent Hs Hok) as Hp.
  destruct (purge_stale_locked now tbl) as [tbl1 frames]. destruct Hp as (Hs1 & Hok1 & Hf1).
  cbn [fst snd] in *. split; cbn [fst snd]; [|by apply rows_ok_delete].
  rewrite run_app. apply change_one_sync; [done|done|by apply all_fresh_delete|by apply rows_ok_delete|].
  intros b Hb. apply rows_at_delete_other. intros r _ [<- _]. congruence.
Qed.

Lemma drop_inv ch now tbl agent :
  tel_inv (tbl, agent) →
  let r := telemetry_drop_channel ch now tbl in tel_inv (r.1, run agent r.2).
Proof.
  intros [Hs Hok]. unfold telemetry_drop_channel.
  pose proof (purge_sync now tbl agent Hs Hok) as Hp.
  destruct (purge_stale_locked now tbl) as [tbl1 frames]. destruct Hp as (Hs1 & Hok1 & Hf1).
  cbn [fst snd] in *. split; cbn [fst snd]; [|by apply rows_ok_delete]. rewrite run_app.
  set (tbl2 := delete_where _ tbl1).
  rewrite (bind_ext _ (λ a, transition a (state_of (rows_at a tbl1)) (state_of (rows_at a tbl2)))).
  2:{ intros a. rewrite !state_fresh; [done|by apply all_fresh_delete|done]. }
  apply change_sync; [apply NoDup_remove_dups|done|by apply rows_ok_delete|].
  intros a Ha. apply rows_at_delete_other. intros r Hr Hch <-. apply Ha, elem_of_addrs.
  by apply list_elem_of_filter.
Qed.

(** A replay frame is the transition from no demand. *)
Lemma replay_transition a st :
  good st →
  (let (caps, iv) := st in if decide (caps = ∅) then [] else [F_subscribe a caps iv]) =
  transition a (∅, None) st.
Proof.
  destruct st as [caps iv]. intros Hg. unfold transition.
  rewrite (decide_True (P := ∅ ∖ caps = ∅)) by (apply set_eq; intros c; set_solver).
  destruct (decide (caps = ∅)) as [|Hne]; [done|]. destruct (Hg Hne) as (z & Hz & _).
  simpl in Hz. subst iv. by rewrite decide_True.
Qed.

Lemma reconnect_inv now tbl :
  rows_ok tbl → let r := active_subscriptions now tbl in tel_inv (r.1, run ∅ r.2).
Proof.
  intros Hok. unfold active_subscriptions.
  assert (rows_ok (purge_stale_locked now tbl).1) as Hok1 by by apply rows_ok_delete.
  assert (all_fresh now (purge_stale_locked now tbl).1) as Hf1.
  { intros r [Hr _]%list_elem_of_filter. unfold is_stale in Hr. lia. }
  destruct (purge_stale_locked now tbl) as [tbl1 frames].
  cbn [fst snd] in *. split; cbn [fst snd]; [|done].
  rewrite (bind_ext _ (λ a, transition a (∅, None) (state_of (rows_at a tbl1)))).
  2:{ intros a. rewrite state_fresh by done. apply replay_transition. by apply state_of_good, rows_ok_filter. }
  intros a. rewrite (run_transitions (addrs tbl1) (λ _, (∅, None)) (λ a, state_of (rows_at a tbl1)) ∅).
  - case_decide as Ha; [done|]. assert (rows_at a tbl1 = []) as ->; [|done].
    apply elem_of_nil_inv. intros r [<- Hr]%list_elem_of_filter. by apply Ha, elem_of_addrs.
  - apply NoDup_remove_dups.
  - intros b _. split; [done|]. by apply state_of_good, rows_ok_filter.
Qed.

(** The agent as it will be when the frames on the way have arrived. *)
Definition sys_inv (s : TelSys) : Prop := ty_inv s = inv ∧ tel_inv (ty_rows s, run (ty_agent s) (ty_queue s)).

Definition keeps_inventory (op : TelOp * Z) : Prop := match op.1 with T_inventory _ => False | _ => True end.

#[export] Instance keeps_inventory_dec op : Decision (keeps_inventory op).
Proof. destruct op as [[] now]; simpl; apply _. Defined.

Lemma tel_step_inv registered s op :
  keeps_inventory op → sys_inv s → sys_inv (tel_step default_ms floor_ms registered s op).
Proof.
  destruct s as [tbl queue agent inv'], op as [op now]. intros Hop [Hi Hinv]. simpl in Hi. subst inv'.
  pose proof Hinv as [Hs Hok]. cbn [fst snd ty_rows ty_queue ty_agent] in *.
  destruct op as [ch a caps iv|ch a caps|ch|ch| | |inv'|]; unfold tel_step, sys_inv; cbn [fst snd ty_rows ty_queue ty_agent ty_inv];
    try (split; [done|]; rewrite run_app).
  - by apply subscribe_inv.
  - by apply unsubscribe_inv.
  - by apply drop_inv.
  - by apply touch_sync.
  - by destruct (purge_sync now tbl _ Hs Hok) as (? & ? & _).
  - by destruct queue.
  - destruct Hop.
  - split; [done|]. by apply reconnect_inv.
Qed.

Lemma tel_steps_inv registered ops s :
  Forall keeps_inventory ops → sys_inv s → sys_inv (foldl (tel_step default_ms floor_ms registered) s ops).
Proof.
  intros Hops. revert s. induction Hops as [|op ops Hop Hops IH]; intros s Hs; [done|]. simpl. by apply IH, tel_step_inv.
Qed.

Lemma elem_of_rows_at r addr tbl : r ∈ rows_at addr tbl ↔ r ∈ tbl ∧ ts_addr r = addr.
Proof. unfold rows_at. rewrite list_elem_of_filter. tauto. Qed.

Lemma min_interval_spec rows :
  match min_interval_of rows with
  | None => rows = []
  | Some z => (∃ r, r ∈ rows ∧ ts_interval r = z) ∧ ∀ r, r ∈ rows → z ≤ ts_interval r
  end.
Proof.
  induction rows as [|r rows IH]; [done|]. simpl. destruct (min_interval_of rows) as [m|].
  - destruct IH as [(x & Hx & <-) Hmin]. split.
    + destruct (Z.min_spec (ts_interval r) (ts_interval x)) as [[_ ->]|[_ ->]]; [exists r|exists x]; (split; [|done]);
        [apply list_elem_of_here|by apply list_elem_of_further].
    + intros y [->|Hy]%elem_of_cons; [lia|]. specialize (Hmin y Hy). lia.
  - subst rows. split.
    + exists r. split; [apply list_elem_of_here|done].
    + intros y ->%list_elem_of_singleton. done.
Qed.

Lemma poll_interval_spec addr caps z :
  let e := poll_interval floor_ms inv addr caps z in
  (z ≤ e ∧ floor_ms ≤ e ∧ ∀ c m, c ∈ caps → inv addr c = Some m → m ≤ e) ∧
  (e = z ∨ e = floor_ms ∨ ∃ c, c ∈ caps ∧ inv addr c = Some e).
Proof.
  unfold poll_interval. set (g := λ c acc, match inv addr c with Some m => Z.max acc m | None => acc end).
  assert (∀ l, floor_ms ≤ foldr g floor_ms l ∧ (∀ c m, c ∈ l → inv addr c = Some m → m ≤ foldr g floor_ms l) ∧
    (foldr g floor_ms l = floor_ms ∨ ∃ c, c ∈ l ∧ inv addr c = Some (foldr g floor_ms l))) as Hl.
  { intros l. induction l as [|c l (H1 & H2 & H3)]; simpl.
    - split_and!; [done| |by left]. intros c m Hc. by apply not_elem_of_nil in Hc.
    - unfold g at 1 3 5 7. destruct (inv addr c) as [m|] eqn:Hm.
      + split_and!; [lia| |].
        * intros d n [->|Hd]%elem_of_cons Hn; [simplify_eq; lia|]. specialize (H2 d n Hd Hn). lia.
        * destruct (Z.max_spec (foldr g floor_ms l) m) as [[_ ->]|[_ ->]].
          -- right. exists c. split; [apply list_elem_of_here|done].
          -- destruct H3 as [->|(d & Hd & Hn)]; [by left|]. right. exists d. split; [by apply list_elem_of_further|done].
      + split_and!; [done| |].
        * intros d n [->|Hd]%elem_of_cons Hn; [congruence|]. by apply (H2 d n).
        * destruct H3 as [->|(d & Hd & Hn)]; [by left|]. right. exists d. split; [by apply list_elem_of_further|done]. }
  destruct (Hl (elements caps)) as (H1 & H2 & H3). split.
  - split_and!; [lia|lia|]. intros c m Hc Hm. specialize (H2 c m). rewrite elem_of_elements in H2. specialize (H2 Hc Hm). lia.
  - destruct (Z.max_spec z (foldr g floor_ms (elements caps))) as [[_ ->]|[_ ->]]; [right|by left].
    destruct H3 as [->|(c & Hc & Hm)]; [by left|]. right. exists c. by rewrite <-elem_of_elements.
Qed.

Lemma demanded_caps addr tbl c :
  c ∈ (state_of (rows_at addr tbl)).1 ↔ ∃ r, r ∈ tbl ∧ ts_addr r = addr ∧ ts_cap r = c.
Proof.
  simpl. rewrite elem_of_list_to_set, list_elem_of_fmap. setoid_rewrite elem_of_rows_at. naive_solver.
Qed.

Lemma armed_polls addr tbl : polls floor_ms inv tbl addr (armed addr (state_of (rows_at addr tbl))).
Proof.
  unfold polls, Telemetry.armed. pose proof (min_interval_spec (rows_at addr tbl)) as Hmin.
  assert (∀ c, c ∈ valid addr (state_of (rows_at addr tbl)).1 ↔
    (∃ r, r ∈ tbl ∧ ts_addr r = addr ∧ ts_cap r = c) ∧ is_Some (inv addr c)) as Hcaps.
  { intros c. rewrite elem_of_valid, demanded_caps. tauto. }
  set (p := valid addr _) in *. cbn [state_of snd]. destruct (min_interval_of (rows_at addr tbl)) as [z|].
  - destruct (decide (p = ∅)) as [He|He].
    + intros c Hc. destruct (inv addr c) eqn:Hi; [|done]. assert (c ∈ p) as Hp; [by apply Hcaps; eauto|].
      rewrite He in Hp. set_solver.
    + destruct Hmin as [(r & Hr & Hz) Hle]. destruct (poll_interval_spec addr p z) as [Hb Hm]. cbn [ag_caps ag_requested ag_interval].
      split_and!; try done; try tauto.
      * apply elem_of_rows_at in Hr as [Hr Ha]. by exists r.
      * intros x Hx Hax. apply Hle. by apply elem_of_rows_at.
  - intros c (r & Hr & Ha & _). assert (r ∈ rows_at addr tbl) as Hin by by apply elem_of_rows_at.
    rewrite Hmin in Hin. by apply not_elem_of_nil in Hin.
Qed.

End sync.

(** *** Whatever the inventory *)

Section inventories.
Context (default_ms floor_ms : Z) (registered : Z * string → option Json).

(** Everything is telemetry. *)
Definition all_pollable : Inventory := λ _ _, Some 0.

Definition caps_at (addr : Z * string) (agent : Agent) : gset string :=
  match agent !! addr with Some s => ag_caps s | None => ∅ end.

Definition below (a b : Agent) : Prop := ∀ addr, caps_at addr a ⊆ caps_at addr b.

Lemma caps_at_insert (addr b : Z * string) (s : AgentSub) (agent : Agent) :
  caps_at b (<[addr := s]> agent) = if decide (b = addr) then ag_caps s else caps_at b agent.
Proof.
  unfold caps_at. destruct (decide (b = addr)) as [->|Hne]; [by rewrite lookup_insert_eq|by rewrite lookup_insert_ne].
Qed.

Lemma caps_at_delete (addr b : Z * string) (agent : Agent) :
  caps_at b (delete addr agent) = if decide (b = addr) then ∅ else caps_at b agent.
Proof.
  unfold caps_at. destruct (decide (b = addr)) as [->|Hne]; [by rewrite lookup_delete_eq|by rewrite lookup_delete_ne].
Qed.

Lemma valid_all addr caps : valid_caps all_pollable addr caps = caps.
Proof. apply set_eq. intros c. rewrite elem_of_valid. unfold all_pollable. naive_solver. Qed.

(** What a frame does to the capabilities of every address. *)
Lemma caps_after inv agent f addr :
  caps_at addr (handle_frame default_ms floor_ms inv agent f) =
    match f with
    | F_subscribe b caps _ => if decide (addr = b) then valid_caps inv b caps ∪ caps_at addr agent else caps_at addr agent
    | F_unsubscribe b caps => if decide (addr = b) then caps_at addr agent ∖ caps else caps_at addr agent
    end.
Proof.
  destruct f as [b caps iv|b caps]; simpl.
  - destruct (decide (valid_caps inv b caps = ∅)) as [He|He].
    + destruct (decide (addr = b)) as [->|]; [|done]. rewrite He. set_solver.
    + rewrite caps_at_insert. destruct (decide (addr = b)) as [->|]; [done|done].
  - destruct (agent !! b) as [s|] eqn:Hb.
    + assert (caps_at b agent = ag_caps s) as Hc by (unfold caps_at; by rewrite Hb).
      destruct (decide (ag_caps s ∖ caps = ∅)) as [He|He]; [rewrite caps_at_delete|rewrite caps_at_insert];
        destruct (decide (addr = b)) as [->|]; rewrite ?Hc; simpl; set_solver.
    + destruct (decide (addr = b)) as [->|]; [|done]. unfold caps_at. rewrite Hb. set_solver.
Qed.

Lemma handle_frame_below inv a b f :
  below a b → below (handle_frame default_ms floor_ms inv a f) (handle_frame default_ms floor_ms all_pollable b f).
Proof.
  intros Hb addr. specialize (Hb addr). rewrite !caps_after. destruct f as [c caps iv|c caps]; destruct (decide (addr = c)); try done.
  - rewrite valid_all. assert (valid_caps inv c caps ⊆ caps) as Hv; [|set_solver].
    intros x. rewrite elem_of_valid. by intros [_ ?].
  - set_solver.
Qed.

Lemma run_below inv fs a b :
  below a b → below (run_frames default_ms floor_ms inv a fs) (run_frames default_ms floor_ms all_pollable b fs).
Proof.
  revert a b. induction fs as [|f fs IH]; intros a b Hb; [done|]. simpl. by apply IH, handle_frame_below.
Qed.

(** [g] is the run of an agent that can poll everything. *)
Definition shadow (s g : TelSys) : Prop :=
  ty_rows s = ty_rows g ∧ ty_queue s = ty_queue g ∧ below (ty_agent s) (ty_agent g) ∧
  sys_inv default_ms floor_ms all_pollable g.

Lemma shadow_step s g op :
  shadow s g → ∃ g', shadow (tel_step default_ms floor_ms registered s op) g'.
Proof.
  intros (Hr & Hq & Hb & Hg). destruct (decide (keeps_inventory op)) as [Hop|Hop].
  2:{ exists g. by destruct op as [[] now]. }
  exists (tel_step default_ms floor_ms registered g op).
  pose proof (tel_step_inv default_ms floor_ms all_pollable registered g op Hop Hg) as Hg'.
  destruct s as [tbl q agent inv], g as [tbl' q' agent' inv']. cbn [ty_rows ty_queue ty_agent] in *. subst tbl' q'.
  destruct Hg as [Hi _]. cbn [ty_inv] in Hi. subst inv'.
  destruct op as [op now]; destruct op; cbn [tel_step fst snd] in *; try (split_and!; done).
  destruct q as [|f q]; [done|]. split_and!; [done|done| |done]. by apply handle_frame_below.
Qed.

Lemma shadow_run inv ops : ∃ g, shadow (tel_run default_ms floor_ms registered inv ops) g.
Proof.
  unfold tel_run. assert (∃ g, shadow (tel_start inv) g) as Hstart.
  { exists (tel_start all_pollable). split_and!; try done. split; [done|]. split; [done|].
    intros r Hr. by apply not_elem_of_nil in Hr. }
  revert Hstart. generalize (tel_start inv). induction ops as [|op ops IH]; intros s Hs; [done|]. simpl. apply IH.
  destruct Hs as [g Hg]. by eapply shadow_step.
Qed.

Lemma tel_run_rows_ok inv ops : rows_ok (ty_rows (tel_run default_ms floor_ms registered inv ops)).
Proof. destruct (shadow_run inv ops) as (g & -> & _ & _ & _ & _ & Hok). exact Hok. Qed.

End inventories.

(** ** Properties *)


(** Two browsers watch a module whose [rssi] may be polled every 300 ms at most; one
    of them leaves, the agent's link is replaced, and the last frame is on its way. *)
Definition fm_inventory : Inventory := λ a c,
  if decide (a = (1, "fm") ∧ c = "rssi") then Some 300 else if decide (a = (1, "fm") ∧ c = "snr") then Some 100 else None.
Definition fm_before : list (TelOp * Z) :=
  [(T_inventory fm_inventory, 1); (T_subscribe "a" (1, "fm") ["rssi"; "volume"] (JInt 250), 2); (T_deliver, 3); (T_reconnect, 4)].
Definition fm_after : list (TelOp * Z) :=
  [(T_deliver, 5); (T_subscribe "b" (1, "fm") ["snr"] (JInt 500), 6); (T_drop "a", 7); (T_deliver, 8)].


Definition channel_rows (ch : string) (tbl : list TelSub) : Z :=
  Z.of_nat (length (filter (λ r, ts_channel r = ch) tbl)).

Definition bounded (tbl : list TelSub) : Prop := ∀ ch, channel_rows ch tbl ≤ MAX_ROWS_PER_CHANNEL.

Lemma channel_rows_filter (P : TelSub → Prop) `{∀ r, Decision (P r)} ch tbl :
  channel_rows ch (filter P tbl) ≤ channel_rows ch tbl.
Proof.
  unfold channel_rows. induction tbl as [|r tbl IH]; [done|]. rewrite (filter_cons P).
  destruct (decide (P r)); rewrite !(filter_cons (λ r, ts_channel r = ch));
    destruct (decide (ts_channel r = ch)); simpl in *; lia.
Qed.

Lemma channel_rows_touch ch ch' now tbl : channel_rows ch (touch_rows ch' now tbl) = channel_rows ch tbl.
Proof.
  unfold channel_rows, touch_rows, update_where. induction tbl as [|r tbl IH]; [done|].
  rewrite fmap_cons, !filter_cons. destruct (decide (ts_channel r = ch')); simpl;
    destruct (decide (ts_channel r = ch)); simpl in *; lia.
Qed.

Lemma channel_rows_app ch l1 l2 : channel_rows ch (l1 ++ l2) = channel_rows ch l1 + channel_rows ch l2.
Proof. unfold channel_rows. rewrite filter_app, length_app. lia. Qed.

Lemma channel_rows_le ch l : channel_rows ch l ≤ Z.of_nat (length l).
Proof. unfold channel_rows. pose proof (length_filter (λ r, ts_channel r = ch) l). lia. Qed.

Lemma bounded_filter (P : TelSub → Prop) `{∀ r, Decision (P r)} tbl : bounded tbl → bounded (filter P tbl).
Proof. intros Hb ch. specialize (Hb ch). pose proof (channel_rows_filter P ch tbl). lia. Qed.

Lemma tel_step_bounded default_ms floor_ms registered s op :
  bounded (ty_rows s) → bounded (ty_rows (tel_step default_ms floor_ms registered s op)).
Proof.
  destruct s as [tbl queue agent inv], op as [op now]. intros Hb.
  destruct op as [ch a caps iv|ch a caps|ch|ch| | |inv'|]; unfold tel_step; cbn [fst snd ty_rows ty_queue] in *.
  - unfold telemetry_subscribe. set (cs := described_caps registered a caps). case_decide; [done|].
    unfold purge_stale_locked. cbn [fst snd].
    set (tbl2 := delete_where (is_stale now) (touch_rows ch now tbl)).
    assert (bounded tbl2) as Hb2.
    { apply bounded_filter. intros c. rewrite channel_rows_touch. apply Hb. }
    destruct (create_rows_spec a ch (clamp_interval iv) now
      (ts_cap <$> filter (λ r, ts_addr r = a ∧ ts_cap r ∈ cs) (filter (λ r, ts_channel r = ch) tbl2)) cs
      (MAX_ROWS_PER_CHANNEL - Z.of_nat (length (filter (λ r, ts_channel r = ch) tbl2))) tbl2)
      as (new & -> & Hnew & Hlen).
    intros c. rewrite channel_rows_app. specialize (Hb2 c). destruct (decide (c = ch)) as [->|Hne].
    + pose proof (channel_rows_le ch new). unfold channel_rows in *. lia.
    + assert (filter (λ r, ts_channel r = c) new = []) as Hz.
      { apply elem_of_nil_inv. intros r [Hr Hin]%list_elem_of_filter.
        destruct (Hnew r Hin) as (_ & ? & _). congruence. }
      unfold channel_rows at 2. rewrite Hz. simpl. lia.
  - unfold telemetry_unsubscribe. case_decide; [|done]. by apply bounded_filter, bounded_filter.
  - by apply bounded_filter, bounded_filter.
  - intros c. rewrite channel_rows_touch. apply Hb.
  - by apply bounded_filter.
  - by destruct queue.
  - done.
  - by apply bounded_filter.
Qed.

Lemma collect_caps_ok raw : NoDup (collect_caps raw) ∧ Forall (λ c, field_ok c) (collect_caps raw).
Proof.
  unfold collect_caps. induction raw as [|c raw [Hnd Hfo]] using rev_ind; [split; constructor|].
  rewrite foldl_snoc. set (caps := foldl _ [] raw) in *. destruct c as [| | | |s| |]; simpl; try done.
  destruct (field_ok s) eqn:Hs; simpl; [|done]. case_bool_decide; [|done]. split.
  - apply list.NoDup_app. split_and!; [done| |apply NoDup_singleton].
    intros x Hx ->%list_elem_of_singleton. done.
  - apply Forall_app. split; [done|]. constructor; [by rewrite Hs|constructor].
Qed.

(** A viewer cannot exhaust the server or the agent: no browser connection
    ever holds more than 64 rows, every poll interval on record is between
    250 ms and 10 s whatever number (or non-number, infinity or NaN) was sent,
    and an address that passes the parser has a module name and at most 32
    distinct capabilities of 1 to 64 characters. *)
Lemma telemetry_demand_bounded default_ms floor_ms registered inv ops ch :
  let tbl := ty_rows (tel_run default_ms floor_ms registered inv ops) in
  channel_rows ch tbl ≤ MAX_ROWS_PER_CHANNEL ∧
  (∀ r, r ∈ tbl → INTERVAL_MIN_MS ≤ ts_interval r ≤ INTERVAL_MAX_MS) ∧
  (∀ msg slot module caps, parse_addr msg = Some (slot, module, caps) →
    - SLOT_MAX ≤ slot ≤ SLOT_MAX ∧ field_ok module ∧ NoDup caps ∧ caps ≠ [] ∧
    Z.of_nat (length caps) ≤ MAX_CAPS ∧ Forall (λ c, field_ok c) caps).
Proof.
  split_and!.
  - assert (∀ s0, bounded (ty_rows s0) →
      bounded (ty_rows (foldl (tel_step default_ms floor_ms registered) s0 ops))) as Hgen.
    { induction ops as [|op ops IH]; intros s0 H0; simpl; [done|]. by apply IH, tel_step_bounded. }
    apply Hgen. intros c. done.
  - apply tel_run_rows_ok.
  - intros msg slot module caps. unfold parse_addr. destruct (equals_one _); [|done]. simpl.
    destruct (jget "slot" msg) as [| |z| | | |]; try done. case_decide; [|done].
    destruct (jget "module" msg) as [| | | |m| |]; try done. destruct (field_ok m) eqn:Hm; [|done]. simpl.
    destruct (jget "capabilities" msg) as [| | | | |raw|]; try done. case_decide as Hc; [done|].
    intros [= <- <- <-]. destruct (collect_caps_ok raw) as [Hnd Hfo].
    rewrite Hm. split_and!; [lia|lia|done|done|tauto|lia|done].
Qed.
