(* ===== verification/MediaCodec.v ===== *)
(** * Media frames, RTP and the stream registry of the agent

    Models [station_agent/audio/frame.py] (the 12-byte little-endian media
    header), [station_agent/audio/rtp.py] (the minimal RTP wrapper of the local
    UDP boundary) and [station_agent/audio/streams.py] (the registry that maps
    stream ids to the numeric refs the header carries).

    A [bytes] object is a list of integers in 0..255 ([is_bytes]); [struct]
    fields keep their width, and the masks the code applies to its counters are
    [Z.land] with all-ones. *)

From Stdlib Require Import ZArith Lia.
From stdpp Require Import base gmap list strings pretty sorting.
From S2P Require Import Prelude.

Local Open Scope Z_scope.

(** ** [struct] *)

Definition is_bytes (l : list Z) : Prop := Forall (λ b, 0 ≤ b < 256) l.

(** The [n] low bytes of [z], least significant first. *)
Fixpoint le_pack (n : nat) (z : Z) : list Z :=
  match n with
  | O => []
  | S n' => Z.land z 255 :: le_pack n' (Z.shiftr z 8)
  end.

Fixpoint le_unpack (l : list Z) : Z :=
  match l with
  | [] => 0
  | b :: l' => Z.lor b (Z.shiftl (le_unpack l') 8)
  end.

Definition be_pack (n : nat) (z : Z) : list Z := reverse (le_pack n z).
Definition be_unpack (l : list Z) : Z := le_unpack (reverse l).

(** [data[i:j]] *)
Definition slice (i j : nat) (l : list Z) : list Z := take (j - i) (drop i l).

(** ** Media frames *)

Definition MAGIC : Z := 165.
Definition VERSION : Z := 1.
Definition HEADER_LEN : nat := 12.
Definition FLAG_FEC : Z := 1.
Definition FLAG_DTX : Z := 2.
Definition FLAG_MARKER : Z := 4.
Definition U16 : Z := 65535.
Definition U32 : Z := 4294967295.

Record MediaFrame := mkMedia {
  mf_stream_ref : Z;
  mf_seq : Z;
  mf_ts : Z;
  mf_flags : Z;
  mf_payload : list Z
}.

Definition fec (f : MediaFrame) : bool := bool_decide (Z.land (mf_flags f) FLAG_FEC ≠ 0).
Definition dtx (f : MediaFrame) : bool := bool_decide (Z.land (mf_flags f) FLAG_DTX ≠ 0).
Definition marker (f : MediaFrame) : bool := bool_decide (Z.land (mf_flags f) FLAG_MARKER ≠ 0).

(** [_HEADER.pack("<BBHHIBB")] *)
Definition pack_header (magic ver stream_ref seq ts flags reserved : Z) : list Z :=
  le_pack 1 magic ++ le_pack 1 ver ++ le_pack 2 stream_ref ++ le_pack 2 seq ++ le_pack 4 ts ++
  le_pack 1 flags ++ le_pack 1 reserved.

Definition pack_frame (stream_ref seq ts flags : Z) (payload : list Z) : list Z :=
  pack_header MAGIC VERSION (Z.land stream_ref U16) (Z.land seq U16) (Z.land ts U32) (Z.land flags 255) 0
  ++ payload.

Inductive FrameError := TooShort (len : Z) | BadMagic (magic : Z) | BadVersion (ver : Z).

Definition parse_frame (data : list Z) : outcome FrameError MediaFrame :=
  if decide (length data < HEADER_LEN)%nat then Raise (TooShort (Z.of_nat (length data)))
  else
    let magic := le_unpack (slice 0 1 data) in
    let ver := le_unpack (slice 1 2 data) in
    let stream_ref := le_unpack (slice 2 4 data) in
    let seq := le_unpack (slice 4 6 data) in
    let ts := le_unpack (slice 6 10 data) in
    let flags := le_unpack (slice 10 11 data) in
    if decide (magic ≠ MAGIC) then Raise (BadMagic magic)
    else if decide (ver ≠ VERSION) then Raise (BadVersion ver)
    else Ok (mkMedia stream_ref seq ts flags (drop HEADER_LEN data)).

(** ** RTP *)

Definition RTP_VERSION : Z := 2.
Definition FIXED_LEN : nat := 12.

(** [_FIXED.pack("!BBHII")] *)
Definition pack_fixed (first second seq ts ssrc : Z) : list Z :=
  be_pack 1 first ++ be_pack 1 second ++ be_pack 2 seq ++ be_pack 4 ts ++ be_pack 4 ssrc.

Definition wrap_rtp (payload : list Z) (seq ts ssrc pt : Z) (mark : bool) : list Z :=
  let first := Z.shiftl RTP_VERSION 6 in
  let second := Z.lor (if mark then 128 else 0) (Z.land pt 127) in
  pack_fixed first second (Z.land seq U16) (Z.land ts U32) (Z.land ssrc U32) ++ payload.

Inductive RtpError := RtpTooShort | RtpBadVersion (v : Z) | RtpExtTruncated | RtpHeaderTooLong.

Definition strip_rtp (datagram : list Z) : outcome RtpError (list Z) :=
  if decide (length datagram < FIXED_LEN)%nat then Raise RtpTooShort
  else
    let first := be_unpack (slice 0 1 datagram) in
    if decide (Z.shiftr first 6 ≠ RTP_VERSION) then Raise (RtpBadVersion (Z.shiftr first 6))
    else
      let cc := Z.to_nat (Z.land first 15) in
      let has_ext := bool_decide (Z.land first 16 ≠ 0) in
      let offset := (FIXED_LEN + 4 * cc)%nat in
      let finish (offset : nat) :=
        if decide (length datagram < offset)%nat then Raise RtpHeaderTooLong
        else Ok (drop offset datagram) in
      if has_ext then
        if decide (length datagram < offset + 4)%nat then Raise RtpExtTruncated
        else
          let ext_words := Z.to_nat (be_unpack (slice (offset + 2) (offset + 4) datagram)) in
          finish (offset + (4 + 4 * ext_words))%nat
      else finish offset.

(** ** Stream registry *)

Definition OP_MIC : string := "op.mic".

Record StreamInfo := mkStream {
  si_id : string;
  si_slot : option Z;
  si_module : string;
  si_direction : string;
  si_rate : Z;
  si_channels : Z;
  si_ref : Z;
  si_codec : string
}.

Record StreamRegistry := mkRegistry {
  rx_rate : Z;
  mic_rate : Z;
  rx_module : string;
  by_id : gmap string StreamInfo;
  by_ref : gmap Z StreamInfo
}.

Definition register (r : StreamRegistry) (info : StreamInfo) : StreamRegistry :=
  mkRegistry (rx_rate r) (mic_rate r) (rx_module r)
    (<[si_id info := info]> (by_id r)) (<[si_ref info := info]> (by_ref r)).

(** [f"slot{slot}.rx"] *)
Definition rx_stream_id (slot : Z) : string := "slot" +:+ pretty slot +:+ ".rx".

(** The loop over [sorted(slots)] with its running [ref], then [op.mic]. *)
Fixpoint register_slots (r : StreamRegistry) (ref : Z) (slots : list Z) : StreamRegistry * Z :=
  match slots with
  | [] => (r, ref)
  | slot :: slots' =>
      let info := mkStream (rx_stream_id slot) (Some slot) (rx_module r) "rx" (rx_rate r) 1 ref "opus" in
      register_slots (register r info) (ref + 1) slots'
  end.

Definition rebuild (r : StreamRegistry) (slots : list Z) : StreamRegistry :=
  let cleared := mkRegistry (rx_rate r) (mic_rate r) (rx_module r) ∅ ∅ in
  let '(r', ref) := register_slots cleared 0 (sort_by id slots) in
  register r' (mkStream OP_MIC None "operator" "rx" (mic_rate r) 1 ref "opus").

Definition ref_for (stream_id : string) (r : StreamRegistry) : option Z :=
  si_ref <$> by_id r !! stream_id.

Definition mic_ref (r : StreamRegistry) : option Z := ref_for OP_MIC r.

(** [advertise_payload]: the entries sorted by ref. *)
Definition advertise_payload (r : StreamRegistry) : list StreamInfo :=
  sort_by si_ref (map_to_list (by_id r)).*2.

(** ** Lemmas on packing *)

Lemma lor_byte b x : 0 ≤ b < 256 → Z.lor b (Z.shiftl x 8) = b + 256 * x.
Proof.
  intros Hb. assert (Z.land b (Z.shiftl x 8) = 0) as Hl.
  { apply Z.bits_inj'. intros n Hn. rewrite Z.land_spec, Z.bits_0.
    destruct (decide (n < 8)) as [Hlt|Hge].
    - rewrite Z.shiftl_spec_low by lia. apply andb_false_r.
    - rewrite <-(Z.mod_small b (2 ^ 8)) by (simpl; lia).
      by rewrite Z.mod_pow2_bits_high by lia. }
  rewrite <-Z.lxor_lor by done. rewrite <-Z.add_nocarry_lxor by done.
  rewrite Z.shiftl_mul_pow2 by lia. lia.
Qed.

Lemma land_255 z : Z.land z 255 = z mod 256.
Proof. exact (Z.land_ones z 8 ltac:(lia)). Qed.

Lemma shiftr_8 z : Z.shiftr z 8 = z / 256.
Proof. exact (Z.shiftr_div_pow2 z 8 ltac:(lia)). Qed.

Lemma le_pack_bytes n z : is_bytes (le_pack n z).
Proof.
  revert z. induction n as [|n IH]; intros z; simpl; constructor; [|apply IH].
  rewrite land_255. apply Z.mod_pos_bound. lia.
Qed.

Lemma length_le_pack n z : length (le_pack n z) = n.
Proof. revert z. induction n as [|n IH]; intros z; simpl; [done|]. by rewrite IH. Qed.

Lemma le_unpack_pack n z : le_unpack (le_pack n z) = z mod 256 ^ Z.of_nat n.
Proof.
  revert z. induction n as [|n IH]; intros z; simpl le_pack; simpl le_unpack.
  - simpl. by rewrite Z.mod_1_r.
  - rewrite lor_byte by (rewrite land_255; apply Z.mod_pos_bound; lia).
    rewrite IH, land_255, shiftr_8, Nat2Z.inj_succ, Z.pow_succ_r by lia.
    rewrite Z.rem_mul_r; [done|lia|]. apply Z.pow_pos_nonneg; lia.
Qed.

Lemma le_unpack_small n z : 0 ≤ z < 256 ^ Z.of_nat n → le_unpack (le_pack n z) = z.
Proof. intros Hz. rewrite le_unpack_pack. by apply Z.mod_small. Qed.

Lemma le_unpack_bounds l : is_bytes l → 0 ≤ le_unpack l < 256 ^ Z.of_nat (length l).
Proof.
  induction 1 as [|b l Hb Hl IH]; simpl; [done|].
  rewrite lor_byte by done. change (S (length l)) with (1 + length l)%nat.
  rewrite Nat2Z.inj_add, Z.pow_add_r by lia. change (256 ^ Z.of_nat 1) with 256. lia.
Qed.

Lemma le_pack_unpack l : is_bytes l → le_pack (length l) (le_unpack l) = l.
Proof.
  induction 1 as [|b l Hb Hl IH]; [done|]. simpl. rewrite lor_byte by done. f_equal.
  - rewrite land_255. rewrite (Z.mul_comm 256), Z_mod_plus_full. by apply Z.mod_small.
  - rewrite shiftr_8. rewrite (Z.mul_comm 256), Z.div_add by lia.
    rewrite (Z.div_small b) by lia. exact IH.
Qed.

Lemma be_unpack_pack n z : be_unpack (be_pack n z) = z mod 256 ^ Z.of_nat n.
Proof. unfold be_unpack, be_pack. rewrite reverse_involutive. apply le_unpack_pack. Qed.

Lemma length_be_pack n z : length (be_pack n z) = n.
Proof. unfold be_pack. by rewrite length_reverse, length_le_pack. Qed.

Lemma land_U16 z : Z.land z U16 = z mod 65536.
Proof. exact (Z.land_ones z 16 ltac:(lia)). Qed.

Lemma land_U32 z : Z.land z U32 = z mod 4294967296.
Proof. exact (Z.land_ones z 32 ltac:(lia)). Qed.

(** A slice of a concatenation at its own boundaries. *)
Lemma slice_app a b c i j :
  i = length a → j = (length a + length b)%nat → slice i j (a ++ b ++ c) = b.
Proof.
  intros -> ->. unfold slice. rewrite drop_app_length. 
  replace (length a + length b - length a)%nat with (length b) by lia. apply take_app_length.
Qed.

(** The header fields of packed data are the packed values. *)
Lemma parse_pack_header ref seq ts flags reserved payload :
  0 ≤ ref < 65536 → 0 ≤ seq < 65536 → 0 ≤ ts < 4294967296 → 0 ≤ flags < 256 →
  parse_frame (pack_header MAGIC VERSION ref seq ts flags reserved ++ payload) =
    Ok (mkMedia ref seq ts flags payload).
Proof.
  intros Hr Hs Ht Hf. set (data := pack_header _ _ _ _ _ _ _ ++ payload).
  assert (length data = 12 + length payload)%nat as Hlen
    by (unfold data, pack_header; rewrite !length_app, !length_le_pack; lia).
  unfold parse_frame. rewrite decide_False by (unfold HEADER_LEN; lia).
  change (slice 0 1 data) with (le_pack 1 MAGIC). change (slice 1 2 data) with (le_pack 1 VERSION).
  change (slice 2 4 data) with (le_pack 2 ref). change (slice 4 6 data) with (le_pack 2 seq).
  change (slice 6 10 data) with (le_pack 4 ts). change (slice 10 11 data) with (le_pack 1 flags).
  change (drop HEADER_LEN data) with payload.
  rewrite !le_unpack_small by (unfold MAGIC, VERSION; simpl; lia).
  by rewrite !decide_False by (by intros []).
Qed.

(** The first RTP byte: version 2, the padding bit, the extension bit, the CSRC count. *)
Definition rtp_first (padding extension : bool) (cc : Z) : Z :=
  128 + (if padding then 32 else 0) + (if extension then 16 else 0) + cc.

Lemma rtp_first_fields padding extension cc :
  0 ≤ cc < 16 →
  Z.shiftr (rtp_first padding extension cc) 6 = 2 ∧ Z.land (rtp_first padding extension cc) 15 = cc ∧
  bool_decide (Z.land (rtp_first padding extension cc) 16 ≠ 0) = extension.
Proof.
  intros Hcc. assert (cc ∈ seqZ 0 16) as Hin by (apply elem_of_seqZ; lia). revert cc Hin Hcc.
  assert (forallb (λ cc, forallb (λ p, forallb (λ e,
    Z.eqb (Z.shiftr (rtp_first p e cc) 6) 2 && Z.eqb (Z.land (rtp_first p e cc) 15) cc &&
    Bool.eqb (bool_decide (Z.land (rtp_first p e cc) 16 ≠ 0)) e) [true; false]) [true; false]) (seqZ 0 16) = true)
    as Hall by (vm_compute; reflexivity).
  intros cc Hin _. rewrite forallb_forall in Hall. specialize (Hall cc). rewrite <-list_elem_of_In in Hall.
  specialize (Hall Hin). rewrite forallb_forall in Hall. specialize (Hall padding).
  rewrite forallb_forall in Hall.
  assert (In padding [true; false]) as Hp by (destruct padding; simpl; auto).
  assert (In extension [true; false]) as He by (destruct extension; simpl; auto).
  specialize (Hall Hp extension He). rewrite !andb_true_iff in Hall. destruct Hall as [[H1 H2] H3].
  apply Z.eqb_eq in H1, H2. apply Bool.eqb_prop in H3. done.
Qed.

(** An extension: two profile bytes, the word count, the words. *)
Definition rtp_extension (ext : option (list Z * list Z)) : list Z :=
  match ext with
  | None => []
  | Some (profile, body) => profile ++ be_pack 2 (Z.of_nat (length body) / 4) ++ body
  end.

Lemma strip_rtp_general padding ext cc rest csrc payload :
  0 ≤ cc < 16 → length rest = 11%nat → Z.of_nat (length csrc) = 4 * cc →
  (∀ profile body, ext = Some (profile, body) →
    length profile = 2%nat ∧ ∃ w, length body = (4 * w)%nat ∧ Z.of_nat w < 65536) →
  strip_rtp ([rtp_first padding (bool_decide (ext ≠ None)) cc] ++ rest ++ csrc ++ rtp_extension ext ++ payload) =
    Ok payload.
Proof.
  intros Hcc Hrest Hcsrc Hext. set (first := rtp_first _ _ cc).
  destruct (rtp_first_fields padding (bool_decide (ext ≠ None)) cc Hcc) as (Hv & Hc & Hx).
  fold first in Hv, Hc, Hx.
  set (data := [first] ++ rest ++ csrc ++ rtp_extension ext ++ payload).
  assert (length data = 12 + length csrc + length (rtp_extension ext) + length payload)%nat as Hlen
    by (unfold data; rewrite !length_app; simpl; lia).
  assert (be_unpack (slice 0 1 data) = first) as Hfirst.
  { unfold data, slice. simpl. unfold be_unpack. simpl. by rewrite Z.lor_0_r. }
  unfold strip_rtp. rewrite decide_False by (unfold FIXED_LEN; lia). rewrite Hfirst, Hv, Hc, Hx.
  rewrite decide_False by (by intros []).
  assert (FIXED_LEN + 4 * Z.to_nat cc = length ([first] ++ rest ++ csrc))%nat as Hoff
    by (rewrite !length_app; simpl; unfold FIXED_LEN; lia).
  rewrite Hoff. set (pre := [first] ++ rest ++ csrc) in *.
  assert (data = pre ++ rtp_extension ext ++ payload) as Hdata
    by (unfold data, pre; by rewrite <-!app_assoc).
  assert (length data = length pre + length (rtp_extension ext) + length payload)%nat as Hlen'
    by (rewrite Hdata, !length_app; lia).
  clearbody pre data. clear Hlen Hoff Hfirst. subst data.
  destruct ext as [[profile body]|].
  - destruct (Hext profile body eq_refl) as (Hp & w & Hb & Hw). rewrite bool_decide_true by done.
    unfold rtp_extension in *. rewrite Hb in *.
    replace (Z.of_nat (4 * w) / 4) with (Z.of_nat w) in * by (rewrite Nat2Z.inj_mul, Z.mul_comm, Z.div_mul; lia).
    rewrite decide_False by (rewrite !length_app, length_be_pack; lia).
    assert (slice (length pre + 2) (length pre + 4) (pre ++ (profile ++ be_pack 2 (Z.of_nat w) ++ body) ++ payload) =
      be_pack 2 (Z.of_nat w)) as ->.
    { rewrite <-!app_assoc, (app_assoc pre).
      apply slice_app; rewrite length_app, ?length_be_pack; lia. }
    rewrite be_unpack_pack, Z.mod_small by (simpl; lia). rewrite Nat2Z.id.
    rewrite decide_False by (rewrite !length_app, length_be_pack; lia).
    f_equal. rewrite app_assoc. apply drop_app_length'.
    rewrite !length_app, length_be_pack. lia.
  - rewrite bool_decide_false by (by intros []). simpl in *.
    rewrite decide_False by (rewrite length_app; lia). f_equal. apply drop_app_length.
Qed.

(** ** Lemmas on the registry *)

Lemma list_ascii_app a b :
  String.list_ascii_of_string (a +:+ b) = String.list_ascii_of_string a ++ String.list_ascii_of_string b.
Proof. induction a as [|c a IH]; [done|]. apply (f_equal (cons c)), IH. Qed.

Lemma string_app_inv_tail a b c : a +:+ c = b +:+ c → a = b.
Proof.
  intros H%(f_equal String.list_ascii_of_string). rewrite !list_ascii_app in H.
  apply (inj (.++ String.list_ascii_of_string c)) in H.
  by rewrite <-(String.string_of_list_ascii_of_string a), <-(String.string_of_list_ascii_of_string b), H.
Qed.

Lemma rx_stream_id_inj a b : rx_stream_id a = rx_stream_id b → a = b.
Proof.
  unfold rx_stream_id. intros H%(inj (String.app "slot"))%string_app_inv_tail. by apply (inj pretty) in H.
Qed.

Lemma rx_stream_id_not_mic s : rx_stream_id s ≠ OP_MIC.
Proof. done. Qed.

(** The two dictionaries describe the same set of streams. *)
Definition linked (r : StreamRegistry) : Prop :=
  (∀ k info, by_id r !! k = Some info → si_id info = k ∧ by_ref r !! si_ref info = Some info) ∧
  (∀ k info, by_ref r !! k = Some info → si_ref info = k ∧ by_id r !! si_id info = Some info).

Lemma register_linked r info :
  by_id r !! si_id info = None → by_ref r !! si_ref info = None → linked r → linked (register r info).
Proof.
  intros Hi Hr [H1 H2]. split; intros k i; cbn [register by_id by_ref]; rewrite lookup_insert_Some;
    (intros [[<- <-]|[Hne Hk]]; [split; [done|apply lookup_insert_eq]|]).
  - destruct (H1 _ _ Hk) as [? Hl]. split; [done|]. rewrite lookup_insert_ne; [done|congruence].
  - destruct (H2 _ _ Hk) as [? Hl]. split; [done|]. rewrite lookup_insert_ne; [done|congruence].
Qed.

Lemma register_slots_spec slots : ∀ r ref,
  linked r → (∀ k info, by_ref r !! k = Some info → k < ref) →
  NoDup slots → (∀ s, s ∈ slots → by_id r !! rx_stream_id s = None) →
  let '(r', ref') := register_slots r ref slots in
  linked r' ∧ ref' = ref + Z.of_nat (length slots) ∧
  (∀ k info, by_ref r' !! k = Some info → k < ref') ∧
  (∀ k, (∀ s, s ∈ slots → k ≠ rx_stream_id s) → by_id r' !! k = by_id r !! k) ∧
  (∀ j s, slots !! j = Some s → ref_for (rx_stream_id s) r' = Some (ref + Z.of_nat j)).
Proof.
  induction slots as [|s slots IH]; intros r ref Hl Hlt Hnd Hfresh.
  { simpl. split_and!; try done. lia. }
  cbn [register_slots]. set (info := mkStream _ _ _ _ _ _ _ _). apply list.NoDup_cons in Hnd as [Hs Hnd].
  assert (by_ref r !! ref = None) as Hr.
  { destruct (by_ref r !! ref) as [i|] eqn:E; [|done]. apply Hlt in E. lia. }
  assert (by_id r !! rx_stream_id s = None) as Hi by (apply Hfresh; by left).
  specialize (IH (register r info) (ref + 1)). destruct (register_slots _ _ slots) as [r' ref'].
  destruct IH as (Hl' & -> & Hlt' & Hframe & Href); [by apply register_linked| |done| |].
  { intros k i. cbn [register by_ref]. rewrite lookup_insert_Some. intros [[<- _]|[_ Hk]].
    - simpl. lia.
    - apply Hlt in Hk. lia. }
  { intros t Ht. cbn [register by_id]. rewrite lookup_insert_ne; [apply Hfresh; by right|].
    intros E%rx_stream_id_inj. congruence. }
  split_and!; [done|simpl; lia|done| |].
  - intros k Hk. rewrite Hframe by (intros t Ht; apply Hk; by right).
    cbn [register by_id]. rewrite lookup_insert_ne; [done|]. intros E. apply (Hk s); [by left|done].
  - intros [|j] t; cbn [lookup list_lookup].
    + intros [= <-]. unfold ref_for. rewrite Hframe by (intros t Ht E%rx_stream_id_inj; congruence).
      cbn [register by_id]. replace (rx_stream_id s) with (si_id info) by done.
      rewrite lookup_insert_eq. simpl. f_equal. lia.
    + intros Ht. rewrite (Href j t Ht). f_equal. lia.
Qed.

Lemma rebuild_spec r slots :
  NoDup slots →
  linked (rebuild r slots) ∧ mic_ref (rebuild r slots) = Some (Z.of_nat (length slots)) ∧
  (∀ j s, sort_by id slots !! j = Some s → ref_for (rx_stream_id s) (rebuild r slots) = Some (Z.of_nat j)).
Proof.
  intros Hnd. unfold rebuild.
  pose proof (register_slots_spec (sort_by id slots) (mkRegistry (rx_rate r) (mic_rate r) (rx_module r) ∅ ∅) 0) as H.
  assert (NoDup (sort_by id slots)) as Hnd' by (by rewrite sort_by_Permutation).
  assert (length (sort_by id slots) = length slots) as Hlen by (by rewrite sort_by_Permutation).
  destruct (register_slots _ _ _) as [r' ref].
  destruct H as (Hl & -> & Hlt & Hframe & Href); [done..|].
  rewrite Hlen in Hlt |- *. set (info := mkStream OP_MIC _ _ _ _ _ _ _). split_and!.
  - apply register_linked; [| |done].
    + cbn [si_id info]. rewrite Hframe; [apply lookup_empty|]. intros s _. apply not_eq_sym, rx_stream_id_not_mic.
    + destruct (by_ref r' !! _) as [i|] eqn:E; [|done]. apply Hlt in E. cbn in E. lia.
  - unfold mic_ref, ref_for. cbn [register by_id info si_id]. by rewrite lookup_insert_eq.
  - intros j s Hj. unfold ref_for. cbn [register by_id info si_id].
    rewrite lookup_insert_ne by (apply not_eq_sym, rx_stream_id_not_mic). by apply Href.
Qed.

Lemma sort_by_id_unique (l k : list Z) : l ≡ₚ k → sort_by id l = sort_by id k.
Proof.
  assert (AntiSymm (=) (key_le (id : Z → Z))) by (intros x y; unfold key_le, id; lia).
  intros Hp. apply (StronglySorted_unique (key_le id)); [apply sort_by_sorted..|].
  by rewrite !sort_by_Permutation.
Qed.

(** ** Properties *)

(** Media frames survive the wire: parsing a packed frame gives back its
    payload and flags and its counters modulo their widths, so counters within
    their widths are unchanged. *)
Lemma frame_roundtrip ref seq ts flags payload :
  parse_frame (pack_frame ref seq ts flags payload) =
    Ok (mkMedia (ref mod 65536) (seq mod 65536) (ts mod 4294967296) (flags mod 256) payload).
Proof.
  unfold pack_frame. rewrite !land_U16, land_U32, land_255.
  apply parse_pack_header; apply Z.mod_pos_bound; lia.
Qed.

(** C34. The frame parser fails closed and loses nothing: on bytes it accepts
    exactly the strings that are a header with the right magic and version,
    any reserved byte and a payload, returns fields within their widths, and
    packing the result again reproduces the input up to the reserved byte. *)
Theorem parse_frame_exact data f :
  is_bytes data →
  (parse_frame data = Ok f ↔
   (0 ≤ mf_stream_ref f < 65536 ∧ 0 ≤ mf_seq f < 65536 ∧ 0 ≤ mf_ts f < 4294967296 ∧ 0 ≤ mf_flags f < 256) ∧
   ∃ reserved, 0 ≤ reserved < 256 ∧
     data = pack_header MAGIC VERSION (mf_stream_ref f) (mf_seq f) (mf_ts f) (mf_flags f) reserved ++ mf_payload f).
Proof.
  intros Hb. split.
  - unfold parse_frame. case_decide as Hlen; [done|]. unfold HEADER_LEN in Hlen.
    destruct data as [|b0 [|b1 [|b2 [|b3 [|b4 [|b5 [|b6 [|b7 [|b8 [|b9 [|b10 [|b11 payload]]]]]]]]]]]];
      try (simpl in Hlen; lia). clear Hlen.
    unfold slice, HEADER_LEN. simpl take. simpl drop.
    case_decide as Hm; [done|]. case_decide as Hv; [done|]. intros [= <-].
    cbn [mf_stream_ref mf_seq mf_ts mf_flags mf_payload].
    unfold is_bytes in Hb. rewrite !Forall_cons in Hb.
    destruct Hb as (?&?&?&?&?&?&?&?&?&?&?&?&_).
    assert (∀ l, is_bytes l → 0 ≤ le_unpack l < 256 ^ Z.of_nat (length l)) as Hbd by apply le_unpack_bounds.
    assert (∀ l, is_bytes l → le_pack (length l) (le_unpack l) = l) as Hlp by apply le_pack_unpack.
    assert (is_bytes [b0] ∧ is_bytes [b1] ∧ is_bytes [b2; b3] ∧ is_bytes [b4; b5] ∧
      is_bytes [b6; b7; b8; b9] ∧ is_bytes [b10] ∧ is_bytes [b11]) as (?&?&?&?&?&?&?)
      by (split_and!; repeat (constructor; [done|]); constructor).
    split; [split_and!; first [apply (Hbd [b2; b3])|apply (Hbd [b4; b5])|apply (Hbd [b6; b7; b8; b9])|
      apply (Hbd [b10])]; done|].
    exists (le_unpack [b11]). split; [by apply (Hbd [b11])|].
    pose proof (Hlp [b0] ltac:(done)) as E0. pose proof (Hlp [b1] ltac:(done)) as E1.
    pose proof (Hlp [b2; b3] ltac:(done)) as E2. pose proof (Hlp [b4; b5] ltac:(done)) as E4.
    pose proof (Hlp [b6; b7; b8; b9] ltac:(done)) as E6. pose proof (Hlp [b10] ltac:(done)) as E10.
    pose proof (Hlp [b11] ltac:(done)) as E11. cbn [length] in E0, E1, E2, E4, E6, E10, E11.
    rewrite Hm in E0. rewrite Hv in E1.
    transitivity (pack_header MAGIC VERSION (le_unpack [b2; b3]) (le_unpack [b4; b5])
      (le_unpack [b6; b7; b8; b9]) (le_unpack [b10]) (le_unpack [b11]) ++ payload); [|done].
    unfold pack_header. by rewrite E0, E1, E2, E4, E6, E10, E11.
  - intros [(Hr & Hs & Ht & Hf) (reserved & Hres & ->)]. rewrite parse_pack_header by done. by destruct f.
Qed.

Lemma parse_frame_exact_witness :
  parse_frame [165; 1; 7; 0; 9; 1; 1; 0; 0; 0; 4; 0; 42] = Ok (mkMedia 7 265 1 4 [42]).
Proof.
  apply (parse_frame_exact [165; 1; 7; 0; 9; 1; 1; 0; 0; 0; 4; 0; 42] (mkMedia 7 265 1 4 [42])).
  - repeat (constructor; [lia|]). constructor.
  - split; [simpl; lia|]. exists 0. split; [lia|]. vm_compute. reflexivity.
Defined.

(** RTP wrapping round-trips, and stripping finds the payload behind any
    header a payloader may write: whatever the marker, counters, CSRC list (0
    to 15 words), padding bit and header extension are, the bytes after the
    header come back unchanged. *)
Lemma rtp_roundtrip payload seq ts ssrc pt mark padding ext cc rest csrc :
  0 ≤ cc < 16 → length rest = 11%nat → Z.of_nat (length csrc) = 4 * cc →
  (∀ profile body, ext = Some (profile, body) →
    length profile = 2%nat ∧ ∃ w, length body = (4 * w)%nat ∧ Z.of_nat w < 65536) →
  strip_rtp (wrap_rtp payload seq ts ssrc pt mark) = Ok payload ∧
  strip_rtp ([rtp_first padding (bool_decide (ext ≠ None)) cc] ++ rest ++ csrc ++ rtp_extension ext ++ payload) =
    Ok payload.
Proof.
  intros Hcc Hrest Hcsrc Hext. split; [|by apply strip_rtp_general].
  unfold wrap_rtp, pack_fixed. set (second := Z.lor _ _).
  pose proof (strip_rtp_general false None 0
    (be_pack 1 second ++ be_pack 2 (Z.land seq U16) ++ be_pack 4 (Z.land ts U32) ++ be_pack 4 (Z.land ssrc U32))
    [] payload) as H.
  rewrite bool_decide_false in H by (by intros []).
  etrans; [|apply H; [lia|by rewrite !length_app, !length_be_pack|done|done]].
  f_equal.
Qed.

Lemma rtp_roundtrip_witness :
  strip_rtp (wrap_rtp [1; 2; 3] 70000 5 6 96 true) = Ok [1; 2; 3].
Proof.
  apply (rtp_roundtrip [1; 2; 3] 70000 5 6 96 true false None 0 (replicate 11 0) []).
  - lia.
  - reflexivity.
  - reflexivity.
  - intros profile body H. discriminate.
Defined.

(** Stream refs are unambiguous and reproducible: whatever distinct slots
    the backend finds, the id and the ref of every stream determine each other,
    the receive streams get the refs 0, 1, ... by ascending slot and the
    operator microphone the next one, and the order in which the slots were
    found does not matter, so a reconnect reproduces the mapping. *)
Lemma registry_refs_deterministic r slots slots' stream_id ref :
  NoDup slots → slots ≡ₚ slots' →
  (ref_for stream_id (rebuild r slots) = Some ref ↔
   ∃ info, by_ref (rebuild r slots) !! ref = Some info ∧ si_id info = stream_id) ∧
  (∀ j s, sort_by id slots !! j = Some s → ref_for (rx_stream_id s) (rebuild r slots) = Some (Z.of_nat j)) ∧
  mic_ref (rebuild r slots) = Some (Z.of_nat (length slots)) ∧
  rebuild r slots' = rebuild r slots.
Proof.
  intros Hnd Hp. destruct (rebuild_spec r slots Hnd) as ([H1 H2] & Hmic & Href).
  split_and!; [|done|done|unfold rebuild; by rewrite (sort_by_id_unique _ _ Hp)].
  unfold ref_for. rewrite fmap_Some. split.
  - intros (info & Hi & ->). destruct (H1 _ _ Hi). by exists info.
  - intros (info & Hi & <-). destruct (H2 _ _ Hi). by exists info.
Qed.

Lemma registry_refs_deterministic_witness :
  mic_ref (rebuild (mkRegistry 8000 16000 "fm" ∅ ∅) [4; 2]) = Some 2 ∧
  rebuild (mkRegistry 8000 16000 "fm" ∅ ∅) [2; 4] = rebuild (mkRegistry 8000 16000 "fm" ∅ ∅) [4; 2].
Proof.
  destruct (registry_refs_deterministic (mkRegistry 8000 16000 "fm" ∅ ∅) [4; 2] [2; 4] "op.mic" 2) as (_ & _ & H).
  - apply (bool_decide_unpack _). vm_compute. exact I.
  - apply Permutation_swap.
  - exact H.
Defined.
