(* ===== verification/Metrics.v ===== *)
(** * Generic metrics: the contract and the heartbeat ingest

    Models [station_agent/metrics_contract.py] (keys, patterns, values and
    descriptors, shared by the agent and the server) and
    [apps/monitoring/metrics_ingest.py] (what a heartbeat writes to the
    [MetricDefinition] table and to the telemetry row of its station), with the
    [MetricDefinition] model of [apps/monitoring/models.py].

    Text is a string of the code points below 256 (one [ascii] each).  A Python
    dict that is iterated is an association list in insertion order; the
    definition table is a map from its unique column [key].  What other
    requests do to the table between the load of the definitions and the write
    is the argument [env] of [ingest_metrics].  The count of the flood guard and the
    insert it allows are one step: the code counts without a lock, so heartbeats of
    several stations that count at the same moment can together exceed
    [MAX_DEFINITIONS]; the bound proved is that of one ingest at a time. *)

From Stdlib Require Import ZArith Lia Ascii SpecFloat.
From stdpp Require Import base gmap list strings sorting.
From S2P Require Import Prelude Json.

Local Open Scope Z_scope.

(** ** Dicts in insertion order *)

Section dict.
Context {V : Type}.
Implicit Types d : list (string * V).

Fixpoint dict_get (k : string) d : option V :=
  match d with
  | [] => None
  | (k', v) :: d' => if decide (k' = k) then Some v else dict_get k d'
  end.

(** [d[k] = v]: an existing key keeps its place. *)
Fixpoint dict_set (k : string) (v : V) d : list (string * V) :=
  match d with
  | [] => [(k, v)]
  | (k', v') :: d' => if decide (k' = k) then (k, v) :: d' else (k', v') :: dict_set k v d'
  end.

Definition dict_pop (k : string) d : list (string * V) := filter (λ p, p.1 ≠ k) d.

Lemma dict_set_keys k v d : (dict_set k v d).*1 = if decide (k ∈ d.*1) then d.*1 else d.*1 ++ [k].
Proof.
  induction d as [|[k' v'] d IH]; [done|]. cbn [dict_set]. destruct (decide (k' = k)) as [->|Hk].
  - rewrite !fmap_cons. cbn [fst]. destruct (decide (k ∈ k :: d.*1)) as [_|H]; [done|]. destruct H. by left.
  - rewrite !fmap_cons, IH. cbn [fst]. destruct (decide (k ∈ d.*1)), (decide (k ∈ k' :: d.*1)); set_solver.
Qed.

Lemma dict_set_NoDup k v d : NoDup d.*1 → NoDup (dict_set k v d).*1.
Proof.
  rewrite dict_set_keys. case_decide; [done|]. intros Hd. apply list.NoDup_app.
  split_and!; [done|set_solver|apply NoDup_singleton].
Qed.

Lemma dict_set_length k v d : (length (dict_set k v d) ≤ S (length d))%nat.
Proof. induction d as [|[k' v'] d IH]; simpl; [lia|]. case_decide; simpl; lia. Qed.

Lemma dict_set_elem k v d p : p ∈ dict_set k v d → p = (k, v) ∨ p ∈ d.
Proof.
  induction d as [|[k' v'] d IH]; simpl; [set_solver|]. case_decide; set_solver.
Qed.

Lemma dict_get_elem k v d : dict_get k d = Some v → (k, v) ∈ d.
Proof. induction d as [|[k' v'] d IH]; simpl; [done|]. case_decide; set_solver. Qed.

End dict.

(** ** Keys and patterns ([metrics_contract.py]) *)

Definition MAX_KEY_LEN : Z := 64.
Definition MAX_KEYS : nat := 200.
Definition GROUPS : list string := ["system"; "disk"; "network"; "power"; "module"; "other"].
Definition MAX_LABEL_LEN : nat := 64.
Definition MAX_UNIT_LEN : nat := 16.
Definition DEFAULT_PRECISION : Z := 1.
Definition MAX_PRECISION : Z := 6.
Definition WILDCARD : string := "*".
Definition dot : ascii := "."%char.

(** [s.split(".")] *)
Fixpoint split_dot (s : string) : list string :=
  match s with
  | EmptyString => [EmptyString]
  | String c s' =>
    if decide (c = dot) then EmptyString :: split_dot s'
    else match split_dot s' with
         | seg :: segs => String c seg :: segs
         | [] => [String c EmptyString]
         end
  end.

(** [".".join(segs)] *)
Definition join_dot (segs : list string) : string := String.concat "." segs.

(** The class [[a-z0-9_]]. *)
Definition is_key_char (c : ascii) : bool :=
  bool_decide (97 ≤ ascii_code c ≤ 122) || bool_decide (48 ≤ ascii_code c ≤ 57) || bool_decide (ascii_code c = 95).

Definition seg_ok (seg : string) : bool :=
  bool_decide (seg ≠ "") && forallb is_key_char (String.list_ascii_of_string seg).

(** [KEY_RE.fullmatch]: two to four segments of the class, joined by dots. *)
Definition key_re (s : string) : bool :=
  let segs := split_dot s in
  bool_decide (2 ≤ length segs ≤ 4)%nat && forallb seg_ok segs.

Definition is_valid_key (key : Json) : bool :=
  match key with
  | JStr s => bool_decide (Z.of_nat (String.length s) ≤ MAX_KEY_LEN) && key_re s
  | _ => false
  end.

(** [mount.lstrip("/")] *)
Fixpoint lstrip_slash (s : string) : string :=
  match s with
  | String c s' => if decide (c = "/"%char) then lstrip_slash s' else s
  | EmptyString => EmptyString
  end.

Definition to_lower (c : ascii) : ascii :=
  let n := ascii_code c in
  if bool_decide (65 ≤ n ≤ 90) || bool_decide (192 ≤ n ≤ 214) || bool_decide (216 ≤ n ≤ 222)
  then ascii_of_nat (Z.to_nat (n + 32)) else c.

Definition map_string (f : ascii → ascii) (s : string) : string :=
  String.string_of_list_ascii (f <$> String.list_ascii_of_string s).

Definition mount_to_instance (mount : string) : string :=
  if decide (mount = "/") then "root"
  else
    let slashes := map_string (λ c, if decide (c = "/"%char) then "_"%char else c) (lstrip_slash mount) in
    let instance := map_string to_lower slashes in
    map_string (λ c, if is_key_char c then c else "_"%char) instance.

Definition is_valid_pattern (pattern : string) : bool :=
  let segments := split_dot pattern in
  let wildcards := length (filter (λ s, s = WILDCARD) segments) in
  if decide (wildcards = 0%nat) then is_valid_key (JStr pattern)
  else if decide (wildcards ≠ 1%nat) then false
  else
    let probe := join_dot ((λ s, if decide (s = WILDCARD) then "x" else s) <$> segments) in
    is_valid_key (JStr probe) && bool_decide (Z.of_nat (String.length pattern) ≤ MAX_KEY_LEN).

(** [all(p in ("*", k) for k, p in zip(ks, ps))] *)
Fixpoint segments_match (ks ps : list string) : bool :=
  match ks, ps with
  | k :: ks', p :: ps' => (bool_decide (p = WILDCARD) || bool_decide (p = k)) && segments_match ks' ps'
  | _, _ => true
  end.

Definition pattern_matcher (pattern : string) : string → bool :=
  if negb (is_valid_pattern pattern) then λ key, false
  else
    let pattern_segments := split_dot pattern in
    if decide (WILDCARD ∉ pattern_segments) then λ key, bool_decide (key = pattern)
    else λ key,
      let key_segments := split_dot key in
      if decide (length key_segments ≠ length pattern_segments) then false
      else segments_match key_segments pattern_segments.

Definition key_matches_pattern (key pattern : string) : bool := pattern_matcher pattern key.

(** ** Values *)

Record Value := mkValue { v_min : spec_float; v_max : spec_float; v_avg : spec_float }.

(** [float(value)]: [None] for [OverflowError]. *)
Definition py_float (value : Json) : option spec_float :=
  match value with
  | JInt z => if decide (FLOAT_OVERFLOW ≤ Z.abs z) then None else Some (float_of_Z z)
  | JFloat f => Some f
  | _ => None
  end.

Definition finite_number (value : Json) : option spec_float :=
  out ← py_float value; if is_finite out then Some out else None.

Definition normalize_value (value : Json) : option Value :=
  match value with
  | JObj fields =>
    mn ← finite_number (jget "min" fields);
    mx ← finite_number (jget "max" fields);
    av ← finite_number (jget "avg" fields);
    Some (mkValue mn mx av)
  | _ => num ← finite_number value; Some (mkValue num num num)
  end.

(** ** Descriptors *)

Record Descriptor := mkDescriptor {
  d_key : string;
  d_label : string;
  d_unit : string;
  d_group : string;
  d_precision : Z;
  d_min : option spec_float;
  d_max : option spec_float
}.

Definition precision (value : Json) : Z :=
  match value with
  | JInt z => Z.max 0 (Z.min MAX_PRECISION z)
  | _ => DEFAULT_PRECISION
  end.

(** [unicodedata.category] below 256: Cc is 0-31 and 127-159, Cf is U+00AD; Cs,
    Zl and Zp have no members there. *)
Definition is_display_char (c : ascii) : bool :=
  let n := ascii_code c in
  negb (bool_decide (n < 32) || bool_decide (127 ≤ n ≤ 159) || bool_decide (n = 173)).

Definition printable (value : Json) (max_len : nat) : string :=
  match value with
  | JStr s =>
    String.string_of_list_ascii
      (take max_len (filter (λ c, is_display_char c = true) (String.list_ascii_of_string s)))
  | _ => ""
  end.

Definition clean_descriptor (d : Json) : option Descriptor :=
  match d with
  | JObj fields =>
    match jget "key" fields with
    | JStr key =>
      if is_valid_key (JStr key) then
        let lo := finite_number (jget "min" fields) in
        let hi := finite_number (jget "max" fields) in
        let inverted := match lo, hi with Some l, Some h => SFltb h l | _, _ => false end in
        let group := match jget "group" fields with
                     | JStr g => if decide (g ∈ GROUPS) then g else "other"
                     | _ => "other"
                     end in
        Some (mkDescriptor key (printable (jget "label" fields) MAX_LABEL_LEN)
          (printable (jget "unit" fields) MAX_UNIT_LEN) group (precision (jget "precision" fields))
          (if inverted then None else lo) (if inverted then None else hi))
      else None
    | _ => None
    end
  | _ => None
  end.

(** ** [MetricDefinition] *)

Definition MAX_DEFINITIONS : nat := 2000.
(** Microseconds. *)
Definition LAST_SEEN_THROTTLE : Z := 300 * 1000000.
Definition SOURCE_VERSION_LEN : nat := 32.

Record MetricDefinition := mkDef {
  md_label : string;
  md_unit : string;
  md_group : string;
  md_precision : Z;
  md_min_value : option spec_float;
  md_max_value : option spec_float;
  md_source_agent_version : string;
  md_first_seen : Z;
  md_last_seen : Z;
  md_label_override : string;
  md_min_override : option spec_float;
  md_max_override : option spec_float;
  md_is_hidden : bool;
  md_is_blocked : bool;
  md_last_rejected_at : option Z;
  md_last_rejected_value : option Value
}.

Notation Defs := (gmap string MetricDefinition).

(** A new row with the defaults of the model. *)
Definition new_definition (now : Z) : MetricDefinition :=
  mkDef "" "" "other" 1 None None "" now now "" None None false false None None.

Definition display_label (key : string) (d : MetricDefinition) : string :=
  if decide (md_label_override d ≠ "") then md_label_override d
  else if decide (md_label d ≠ "") then md_label d else key.

Definition range_min (d : MetricDefinition) : option spec_float :=
  match md_min_override d with Some x => Some x | None => md_min_value d end.

Definition range_max (d : MetricDefinition) : option spec_float :=
  match md_max_override d with Some x => Some x | None => md_max_value d end.

(** The columns an operator owns. *)
Definition operator_fields (d : MetricDefinition) :=
  (md_label_override d, md_min_override d, md_max_override d, md_is_hidden d, md_is_blocked d).

(** The columns an agent owns ([_AGENT_FIELDS]) but for [last_seen]. *)
Definition agent_fields (d : MetricDefinition) :=
  (md_label d, md_unit d, md_group d, md_precision d, md_min_value d, md_max_value d, md_source_agent_version d).

#[export] Instance spec_float_eq_dec : EqDecision spec_float.
Proof. solve_decision. Defined.

(** [UPDATE] of the [_AGENT_FIELDS] of the row [dst] from the object [src]. *)
Definition copy_agent_fields (src dst : MetricDefinition) : MetricDefinition :=
  mkDef (md_label src) (md_unit src) (md_group src) (md_precision src) (md_min_value src) (md_max_value src)
    (md_source_agent_version src) (md_first_seen dst) (md_last_seen src)
    (md_label_override dst) (md_min_override dst) (md_max_override dst) (md_is_hidden dst) (md_is_blocked dst)
    (md_last_rejected_at dst) (md_last_rejected_value dst).

(** The assignments of the descriptor [d] to the object [obj]. *)
Definition assign_descriptor (version : string) (now : Z) (d : Descriptor) (obj : MetricDefinition) : MetricDefinition :=
  mkDef (d_label d) (d_unit d) (d_group d) (d_precision d) (d_min d) (d_max d) version
    (md_first_seen obj) now
    (md_label_override obj) (md_min_override obj) (md_max_override obj) (md_is_hidden obj) (md_is_blocked obj)
    (md_last_rejected_at obj) (md_last_rejected_value obj).

Definition touch_definition (now : Z) (d : MetricDefinition) : MetricDefinition :=
  mkDef (md_label d) (md_unit d) (md_group d) (md_precision d) (md_min_value d) (md_max_value d)
    (md_source_agent_version d) (md_first_seen d) now
    (md_label_override d) (md_min_override d) (md_max_override d) (md_is_hidden d) (md_is_blocked d)
    (md_last_rejected_at d) (md_last_rejected_value d).

Definition set_rejected (at_ : option Z) (v : option Value) (d : MetricDefinition) : MetricDefinition :=
  mkDef (md_label d) (md_unit d) (md_group d) (md_precision d) (md_min_value d) (md_max_value d)
    (md_source_agent_version d) (md_first_seen d) (md_last_seen d)
    (md_label_override d) (md_min_override d) (md_max_override d) (md_is_hidden d) (md_is_blocked d)
    at_ v.

(** ** Ingest ([metrics_ingest.py]) *)

(** [_clean_descriptors]: the last descriptor of a key wins, also its place. *)
Definition clean_descriptors (descriptors : list Json) : list Descriptor :=
  let by_key := foldl (λ acc raw,
      match clean_descriptor raw with
      | None => acc
      | Some d => dict_pop (d_key d) acc ++ [(d_key d, d)]
      end) [] descriptors in
  let cleaned := by_key.*2 in
  drop (length cleaned - MAX_KEYS) cleaned.

(** [_collect_values]: of a dict only the first [MAX_KEYS] items are looked at. *)
Definition collect_values (metrics : Json) : list (string * Value) :=
  match metrics with
  | JObj items =>
    foldl (λ values item,
        match (if is_valid_key (JStr item.1) then normalize_value item.2 else None) with
        | None => values
        | Some v => dict_set item.1 v values
        end) [] (take MAX_KEYS items)
  | _ => []
  end.

Definition as_dict (value : Json) : list (string * Json) :=
  match value with JObj fields => fields | _ => [] end.

Definition is_number (value : Json) : bool :=
  match value with JInt _ | JFloat _ => true | _ => false end.

Definition disk_candidate (disk : Json) : list (string * Json) :=
  match jget "mount" (as_dict disk) with
  | JStr mount =>
    if decide (mount ≠ "") then [("disk." +:+ mount_to_instance mount +:+ ".used_pct", jget "usage_percent" (as_dict disk))]
    else []
  | _ => []
  end.

Definition legacy_values (inventory telemetry : Json) : list (string * Value) :=
  let inv := as_dict inventory in
  let candidates :=
    [("cpu.temp_c", jget "temperature_c" (as_dict (jget "cpu" inv)));
     ("mem.used_pct", jget "usage_percent" (as_dict (jget "ram" inv)));
     ("sys.uptime_s", jget "uptime_seconds" (as_dict (jget "boot" (as_dict telemetry))))] ++
    match jget "disk" inv with
    | JList disks => d ← take MAX_KEYS disks; disk_candidate d
    | _ => []
    end in
  foldl (λ out c,
      if is_number c.2 && is_valid_key (JStr c.1) then
        match normalize_value c.2 with Some v => dict_set c.1 v out | None => out end
      else out) [] candidates.

Definition out_of_range (value : Value) (lo hi : option spec_float) : bool :=
  existsb (λ x,
      match lo with Some l => SFltb x l | None => false end ||
      match hi with Some h => SFltb h x | None => false end)
    [v_min value; v_max value; v_avg value].

(** The loop that merges the legacy values: stops at [MAX_KEYS] entries and
    never overrides the agent's own value ([setdefault]). *)
Fixpoint merge_legacy (values legacy : list (string * Value)) : list (string * Value) :=
  match legacy with
  | [] => values
  | (key, value) :: legacy' =>
    if decide (MAX_KEYS ≤ length values)%nat then values
    else merge_legacy (match dict_get key values with Some _ => values | None => values ++ [(key, value)] end) legacy'
  end.

(** [bulk_create(..., ignore_conflicts=True)]: an existing key is kept. *)
Definition bulk_create_ignore (rows : list (string * MetricDefinition)) (db : Defs) : Defs :=
  foldl (λ db r, match db !! r.1 with Some _ => db | None => <[r.1 := r.2]> db end) db rows.

(** [bulk_update] of the agent fields, by key. *)
Definition bulk_update_agent (rows : list (string * MetricDefinition)) (db : Defs) : Defs :=
  foldl (λ db r, alter (copy_agent_fields r.2) r.1 db) db rows.

(** [_adopt_persisted]: the rows as they are in the table replace the
    attempted objects in [defs]; where another heartbeat was first, the agent
    fields are overwritten ("last writer wins") and nothing else. *)
Definition adopt_persisted (attempted : list (string * MetricDefinition)) (defs db : Defs) : Defs * Defs :=
  foldl (λ acc mine,
      match acc.2 !! mine.1 with
      | None => acc
      | Some row =>
        let row' := if decide (agent_fields row ≠ agent_fields mine.2) then copy_agent_fields mine.2 row else row in
        (<[mine.1 := row']> acc.1, <[mine.1 := row']> acc.2)
      end) (defs, db) attempted.

(** [_upsert_descriptors]: returns [defs], the table and the keys dropped.  The
    count and the insert are taken as one step. *)
Definition upsert_descriptors (cleaned : list Descriptor) (defs db : Defs) (version : string) (now : Z) :
    Defs * Defs * list string :=
  let to_update := omap (λ d, (λ obj, (d_key d, assign_descriptor version now d obj)) <$> defs !! d_key d) cleaned in
  let to_create := omap (λ d, match defs !! d_key d with
      | Some _ => None
      | None => Some (d_key d, assign_descriptor version now d (new_definition now))
      end) cleaned in
  let defs1 := foldl (λ ds r, <[r.1 := r.2]> ds) defs to_update in
  let db1 := bulk_update_agent to_update db in
  let room := (MAX_DEFINITIONS - size db1)%nat in
  let allowed := take room to_create in
  let '(defs2, db2) := adopt_persisted allowed defs1 (bulk_create_ignore allowed db1) in
  (defs2, db2, (drop room to_create).*1).

(** What the loop over the values of the heartbeat has collected. *)
Record Collected := mkCollected {
  c_stored : list (string * (Value * Z));
  c_accepted : list (string * Value);
  c_seen : list string;
  c_rejected : list (string * Value);
  c_undefined : bool;
  c_dropped : list string
}.

Definition classify_value (defs : Defs) (full : bool) (agent_keys descriptor_keys : list string) (now : Z)
    (acc : Collected) (item : string * Value) : Collected :=
  let '(key, value) := item in
  let store acc := mkCollected (c_stored acc ++ [(key, (value, now))]) (c_accepted acc) (c_seen acc)
    (c_rejected acc) (c_undefined acc) (c_dropped acc) in
  match defs !! key with
  | None =>
    if full then
      mkCollected (c_stored acc) (c_accepted acc) (c_seen acc) (c_rejected acc) (c_undefined acc)
        (if decide (key ∈ c_dropped acc) then c_dropped acc else c_dropped acc ++ [key])
    else
      store (mkCollected (c_stored acc) (c_accepted acc) (c_seen acc) (c_rejected acc)
        (c_undefined acc || bool_decide (key ∈ agent_keys)) (c_dropped acc))
  | Some d =>
    if md_is_blocked d then acc
    else if out_of_range value (range_min d) (range_max d) then
      if match md_last_rejected_at d with None => true | Some t => bool_decide (t < now - LAST_SEEN_THROTTLE) end then
        mkCollected (c_stored acc) (c_accepted acc) (c_seen acc) (c_rejected acc ++ [(key, value)])
          (c_undefined acc) (c_dropped acc)
      else acc
    else
      store (mkCollected (c_stored acc) (c_accepted acc ++ [(key, value)])
        (if decide (key ∈ descriptor_keys) then c_seen acc else c_seen acc ++ [key])
        (c_rejected acc) (c_undefined acc) (c_dropped acc))
  end.

(** The columns of [StationTelemetry] the ingest writes. *)
Record TelemetryRow := mkTelemetryRow { tr_metrics : list (string * (Value * Z)); tr_hash : string }.

Record Heartbeat := mkHeartbeat {
  hb_metrics : Json;
  hb_descriptors : Json;
  hb_hash : string;
  hb_agent_version : string;
  hb_inventory : Json;
  hb_telemetry : Json
}.

Record IngestResult := mkIngest {
  i_db : Defs;
  i_tel : option TelemetryRow;
  i_history : list (string * Value);
  i_warned : list string;
  i_resend : bool
}.

(** The merged values of a heartbeat. *)
Definition heartbeat_values (hb : Heartbeat) : list (string * Value) :=
  merge_legacy (collect_values (hb_metrics hb)) (legacy_values (hb_inventory hb) (hb_telemetry hb)).

(** [cleaned]: the descriptors of a heartbeat that sends a list. *)
Definition described (hb : Heartbeat) : list Descriptor :=
  match hb_descriptors hb with JList l => clean_descriptors (take (2 * MAX_KEYS) l) | _ => [] end.

Definition desc_le : relation Descriptor := λ a b, String.le (d_key a) (d_key b).

#[export] Instance desc_le_dec : RelDecision desc_le.
Proof. intros a b. unfold desc_le. apply _. Defined.

(** The definitions loaded for the keys of the heartbeat. *)
Definition loaded_defs (db : Defs) (hb : Heartbeat) : Defs :=
  filter (λ kv, kv.1 ∈ (heartbeat_values hb).*1 ++ (d_key <$> described hb)) db.

(** The loaded objects, the table and the keys dropped after the descriptors. *)
Definition after_upsert (env : Defs → Defs) (db : Defs) (now : Z) (hb : Heartbeat) : Defs * Defs * list string :=
  if decide (described hb = []) then (loaded_defs db hb, env db, [])
  else upsert_descriptors (described hb) (loaded_defs db hb) (env db)
         (String.substring 0 SOURCE_VERSION_LEN (hb_agent_version hb)) now.

(** The loop over the values. *)
Definition classify_all (env : Defs → Defs) (db : Defs) (now : Z) (hb : Heartbeat) : Collected :=
  let '(defs, db, cap_dropped) := after_upsert env db now hb in
  foldl (classify_value defs (bool_decide (MAX_DEFINITIONS ≤ size db)%nat) (collect_values (hb_metrics hb)).*1
           (d_key <$> described hb) now)
    (mkCollected [] [] [] [] false cap_dropped) (heartbeat_values hb).

Section ingest.
(** SHA-256 of the canonical serialisation. *)
Variable sha256 : list Descriptor → string.

Definition descriptors_hash (descriptors : list Descriptor) : string := sha256 (merge_sort desc_le descriptors).

Definition ingest_metrics (env : Defs → Defs) (db : Defs) (tel : option TelemetryRow) (now : Z) (hb : Heartbeat) :
    IngestResult :=
  let list_sent := match hb_descriptors hb with JList _ => true | _ => false end in
  let cleaned := described hb in
  let c := classify_all env db now hb in
  let '(defs, db, cap_dropped) := after_upsert env db now hb in
  let db := foldl (λ db k, alter (λ d,
      if decide (md_last_seen d < now - LAST_SEEN_THROTTLE) then touch_definition now d else d) k db) db (c_seen c) in
  let db := foldl (λ db r, alter (set_rejected (Some now) (Some r.2)) r.1 db) db (c_rejected c) in
  let new_hash := if list_sent then Some (descriptors_hash cleaned) else None in
  let tel' :=
    match tel with
    | Some t => Some (mkTelemetryRow (c_stored c) (default (tr_hash t) new_hash))
    | None =>
      if decide (c_stored c ≠ [] ∨ is_Some new_hash)
      then Some (mkTelemetryRow (c_stored c) (default "" new_hash)) else None
    end in
  let resend :=
    if list_sent then false
    else
      let stored_hash := match tel' with Some t => tr_hash t | None => "" end in
      if bool_decide (hb_hash hb ≠ "") && bool_decide (hb_hash hb ≠ stored_hash) then true else c_undefined c in
  mkIngest db tel' (c_accepted c) (c_dropped c) resend.

End ingest.

(** ** Lemmas: keys and patterns *)

Lemma split_dot_not_nil s : split_dot s ≠ [].
Proof. destruct s as [|c s]; simpl; [done|]. case_decide; [done|]. by destruct (split_dot s). Qed.

Lemma segments_match_spec ks ps :
  length ks = length ps →
  segments_match ks ps = true ↔ Forall2 (λ k p, p = WILDCARD ∨ p = k) ks ps.
Proof.
  revert ps. induction ks as [|k ks IH]; intros [|p ps] Hlen; simplify_eq/=.
  - split; [constructor|done].
  - rewrite andb_true_iff, orb_true_iff, !bool_decide_eq_true, Forall2_cons, IH by done. done.
Qed.

(** Segments without the wildcard match only themselves. *)
Lemma match_literal ks ps :
  WILDCARD ∉ ps → Forall2 (λ k p, p = WILDCARD ∨ p = k) ks ps ↔ ks = ps.
Proof.
  revert ps. induction ks as [|k ks IH]; intros ps Hps.
  - split; [by intros ?%Forall2_nil_inv_l|by intros <-; constructor].
  - destruct ps as [|p ps]; [split; [by intros ?%Forall2_cons_nil_inv|done]|].
    apply not_elem_of_cons in Hps as [Hp Hps].
    rewrite Forall2_cons, (IH ps Hps). split; [|by intros [= -> ->]; auto].
    intros [[Hw| ->] ->]; [by destruct Hp|done].
Qed.

Lemma one_wildcard segs :
  length (filter (λ s, s = WILDCARD) segs) = 1%nat ↔
  ∃ pre post, segs = pre ++ WILDCARD :: post ∧ WILDCARD ∉ pre ∧ WILDCARD ∉ post.
Proof.
  assert (∀ l : list string, filter (λ s, s = WILDCARD) l = [] ↔ WILDCARD ∉ l) as Hnil.
  { intros l. split.
    - intros Hf Hin. assert (WILDCARD ∈ filter (λ s, s = WILDCARD) l) as H by (by apply list_elem_of_filter).
      rewrite Hf in H. by apply not_elem_of_nil in H.
    - intros Hno. destruct (filter _ l) as [|x k] eqn:E; [done|].
      assert (x ∈ filter (λ s, s = WILDCARD) l) as Hx by (rewrite E; by left).
      apply list_elem_of_filter in Hx as [-> ?]. done. }
  split.
  - induction segs as [|s segs IH]; [done|]. rewrite filter_cons. case_decide as Hs.
    + intros Hl. simpl in Hl. exists [], segs. split_and!; [by rewrite Hs|apply not_elem_of_nil|].
      apply Hnil, nil_length_inv. lia.
    + intros Hl. destruct (IH Hl) as (pre & post & -> & ? & ?). exists (s :: pre), post. set_solver.
  - intros (pre & post & -> & H1 & H2).
    rewrite filter_app, filter_cons_True by done. apply Hnil in H1, H2. by rewrite H1, H2.
Qed.

(** ** Lemmas: the table *)

(** Row updates that keep a projection keep it for the whole table. *)
Lemma foldl_alter_proj {A B} (proj : MetricDefinition → B) (f : A → MetricDefinition → MetricDefinition)
    (key : A → string) rows (db : Defs) k :
  (∀ a d, proj (f a d) = proj d) →
  proj <$> foldl (λ db a, alter (f a) (key a) db) db rows !! k = proj <$> db !! k.
Proof.
  intros Hf. revert db. induction rows as [|a rows IH]; intros db; [done|]. simpl. rewrite IH.
  destruct (decide (key a = k)) as [<-|Hne].
  - rewrite lookup_alter_eq, <-option_fmap_compose. apply option_fmap_ext. intros d. apply Hf.
  - by rewrite lookup_alter_ne.
Qed.

Lemma proj_size {B} (proj : MetricDefinition → B) (db db' : Defs) :
  (∀ k, proj <$> db' !! k = proj <$> db !! k) → size db' = size db.
Proof.
  intros H. rewrite <-!size_dom. f_equal. apply set_eq. intros k. rewrite !elem_of_dom.
  rewrite <-(fmap_is_Some proj (db' !! k)), <-(fmap_is_Some proj (db !! k)). by rewrite H.
Qed.

Lemma bulk_create_lookup rows : ∀ (db : Defs) k,
  bulk_create_ignore rows db !! k =
  match db !! k with Some d => Some d | None => dict_get k rows end.
Proof.
  induction rows as [|[k' d'] rows IH]; intros db k; simpl.
  - by destruct (db !! k).
  - change (bulk_create_ignore rows (match db !! k' with Some _ => db | None => <[k' := d']> db end) !! k =
      match db !! k with Some d => Some d | None => if decide (k' = k) then Some d' else dict_get k rows end).
    rewrite IH. destruct (decide (k' = k)) as [->|Hne].
    + destruct (db !! k) eqn:E; [by rewrite E|]. by rewrite lookup_insert_eq.
    + destruct (db !! k'); [done|]. by rewrite lookup_insert_ne.
Qed.

Lemma bulk_create_size rows : ∀ (db : Defs),
  (size (bulk_create_ignore rows db) ≤ size db + length rows)%nat.
Proof.
  induction rows as [|[k d] rows IH]; intros db; simpl; [lia|].
  change (foldl _ _ rows) with (bulk_create_ignore rows (match db !! k with Some _ => db | None => <[k := d]> db end)).
  etrans; [apply IH|]. destruct (db !! k) eqn:E; [lia|]. rewrite map_size_insert_None by done. lia.
Qed.

(** What a value check reads of a definition. *)
Definition accepts (d : MetricDefinition) := (range_min d, range_max d, md_is_blocked d).

Lemma adopt_persisted_spec attempted : ∀ (defs db : Defs),
  let '(defs', db') := adopt_persisted attempted defs db in
  (∀ k, operator_fields <$> db' !! k = operator_fields <$> db !! k) ∧
  (∀ k, k ∉ attempted.*1 → defs' !! k = defs !! k ∧ db' !! k = db !! k) ∧
  (∀ k, k ∈ attempted.*1 → is_Some (db !! k) → defs' !! k = db' !! k ∧ is_Some (db' !! k)).
Proof.
  unfold adopt_persisted. induction attempted as [|[k m] rows IH]; intros defs db; cbn [foldl fmap list_fmap fst snd].
  { split_and!; [done|done|]. intros k Hk. by apply not_elem_of_nil in Hk. }
  destruct (db !! k) as [row|] eqn:E.
  - set (row' := if decide _ then _ else _). specialize (IH (<[k := row']> defs) (<[k := row']> db)).
    destruct (foldl _ _ rows) as [defs' db']. destruct IH as (Hop & Hframe & Hsync).
    assert (operator_fields row' = operator_fields row) as Hrow by (unfold row'; by case_decide).
    split_and!.
    + intros j. rewrite Hop. destruct (decide (k = j)) as [<-|].
      * by rewrite lookup_insert_eq, E; simpl; f_equal.
      * by rewrite lookup_insert_ne.
    + intros j [Hj Hin]%not_elem_of_cons. destruct (Hframe j Hin) as [-> ->]. by rewrite !lookup_insert_ne by congruence.
    + intros j Hj Hs. destruct (decide (j ∈ rows.*1)) as [Hin|Hin].
      * apply Hsync; [done|]. destruct (decide (k = j)) as [<-|]; [rewrite lookup_insert_eq; eauto|by rewrite lookup_insert_ne].
      * apply elem_of_cons in Hj as [->|]; [|done]. destruct (Hframe k Hin) as [-> ->].
        rewrite !lookup_insert_eq. eauto.
  - specialize (IH defs db). destruct (foldl _ _ rows) as [defs' db']. destruct IH as (Hop & Hframe & Hsync).
    split_and!; [done| |].
    + intros j [_ Hin]%not_elem_of_cons. by apply Hframe.
    + intros j Hj Hs. destruct (decide (j ∈ rows.*1)) as [Hin|Hin]; [by apply Hsync|].
      apply elem_of_cons in Hj as [->|]; [|done]. rewrite E in Hs. by destruct Hs.
Qed.

(** Mutating the loaded objects and writing their agent fields keeps what the
    objects and the rows accept equal. *)
Lemma update_sync rows : ∀ (defs db : Defs) k,
  (∀ r, r ∈ rows → operator_fields <$> db !! r.1 = Some (operator_fields r.2)) →
  accepts <$> defs !! k = accepts <$> db !! k →
  accepts <$> foldl (λ ds r, <[r.1 := r.2]> ds) defs rows !! k = accepts <$> bulk_update_agent rows db !! k.
Proof.
  unfold bulk_update_agent. induction rows as [|[j m] rows IH]; intros defs db k Hop Hk; [done|].
  cbn [foldl fst snd]. apply IH.
  - intros r Hr. etrans; [|apply (Hop r); by right]. destruct (decide (j = r.1)) as [->|].
    + rewrite lookup_alter_eq, <-option_fmap_compose. by apply option_fmap_ext.
    + by rewrite lookup_alter_ne.
  - destruct (decide (j = k)) as [<-|]; [|by rewrite lookup_insert_ne, lookup_alter_ne].
    rewrite lookup_insert_eq, lookup_alter_eq. pose proof (Hop (j, m) ltac:(by left)) as Hj. cbn [fst snd] in Hj.
    destruct (db !! j) as [d|]; simplify_eq/=. f_equal.
    destruct d, m. unfold operator_fields, accepts in *. simplify_eq/=. done.
Qed.

Lemma foldl_insert_other {A} (rows : list (string * A)) : ∀ (m : gmap string A) k,
  k ∉ rows.*1 → foldl (λ ds r, <[r.1 := r.2]> ds) m rows !! k = m !! k.
Proof.
  induction rows as [|[j a] rows IH]; intros m k Hk; [done|]. cbn [foldl fst snd].
  apply not_elem_of_cons in Hk as [? Hk]. rewrite IH by done. by rewrite lookup_insert_ne.
Qed.

Lemma dict_get_None {V} k (d : list (string * V)) : k ∉ d.*1 → dict_get k d = None.
Proof. intros Hk. destruct (dict_get k d) as [v|] eqn:E; [|done]. apply dict_get_elem, (list_elem_of_fmap_2 fst) in E. done. Qed.

Lemma dict_get_is_Some {V} k (d : list (string * V)) : k ∈ d.*1 → is_Some (dict_get k d).
Proof.
  induction d as [|[k' v] d IH]; [by intros ?%not_elem_of_nil|]. intros Hk. cbn [dict_get].
  case_decide; [eauto|]. apply IH. apply elem_of_cons in Hk as [->|]; done.
Qed.

Lemma upsert_spec cleaned (defs db : Defs) version now :
  (∀ k d, defs !! k = Some d → db !! k = Some d) →
  let '(defs', db', dropped) := upsert_descriptors cleaned defs db version now in
  (∀ k, is_Some (db !! k) → operator_fields <$> db' !! k = operator_fields <$> db !! k) ∧
  (∀ k d, db !! k = None → db' !! k = Some d →
    operator_fields d = operator_fields (new_definition now) ∧ k ∈ d_key <$> cleaned) ∧
  (size db' ≤ size db `max` MAX_DEFINITIONS)%nat ∧
  (∀ k, is_Some (defs !! k) ∨ (k ∈ d_key <$> cleaned ∧ k ∉ dropped) →
    is_Some (db' !! k) ∧ accepts <$> defs' !! k = accepts <$> db' !! k).
Proof.
  intros Hload. unfold upsert_descriptors. set (to_update := omap _ cleaned).
  set (to_create := omap _ cleaned). set (defs1 := foldl _ defs _). set (db1 := bulk_update_agent _ _).
  assert (∀ k, operator_fields <$> db1 !! k = operator_fields <$> db !! k) as Hop1.
  { intros k. apply (foldl_alter_proj operator_fields (λ r, copy_agent_fields r.2) fst). done. }
  assert (size db1 = size db) as Hsize1 by (by apply (proj_size operator_fields)).
  assert (∀ r, r ∈ to_create → defs !! r.1 = None ∧ r.1 ∈ d_key <$> cleaned ∧
    operator_fields r.2 = operator_fields (new_definition now)) as Hcreate.
  { intros r (d & Hd & Hr)%list_elem_of_omap. destruct (defs !! d_key d) eqn:E; simplify_eq/=.
    split_and!; [done|by apply list_elem_of_fmap_2|done]. }
  assert (∀ k, is_Some (defs !! k) → accepts <$> defs1 !! k = accepts <$> db1 !! k ∧ is_Some (db1 !! k)) as Hsync1.
  { intros k [d Hd]. split.
    - apply update_sync; [|by rewrite Hd, (Hload k d)].
      intros r (e & He & Hr)%list_elem_of_omap. destruct (defs !! d_key e) as [o|] eqn:E; simplify_eq/=.
      by rewrite (Hload _ _ E).
    - rewrite <-(fmap_is_Some operator_fields), Hop1, (Hload k d Hd). eauto. }
  set (room := (MAX_DEFINITIONS - size db1)%nat).
  assert (∀ k, k ∈ (take room to_create).*1 → defs !! k = None) as Hallowed.
  { intros k (r & -> & Hr)%list_elem_of_fmap. apply Hcreate. rewrite <-(take_drop room to_create). set_solver. }
  pose proof (adopt_persisted_spec (take room to_create) defs1 (bulk_create_ignore (take room to_create) db1)) as Ha.
  destruct (adopt_persisted _ _ _) as [defs2 db2]. destruct Ha as (Hop2 & Hframe & Hadopt).
  assert (∀ k, operator_fields <$> db2 !! k = operator_fields <$>
    match db1 !! k with Some d => Some d | None => dict_get k (take room to_create) end) as Hlook.
  { intros k. by rewrite Hop2, bulk_create_lookup. }
  split_and!.
  - intros k Hk. rewrite Hlook, <-Hop1.
    assert (is_Some (db1 !! k)) as [d ->] by (by rewrite <-(fmap_is_Some operator_fields), Hop1, fmap_is_Some). done.
  - intros k d Hn Hd. specialize (Hlook k). rewrite Hd in Hlook. specialize (Hop1 k). rewrite Hn in Hop1.
    destruct (db1 !! k); [done|].
    destruct (dict_get k (take room to_create)) as [m|] eqn:E; [|done]. apply (inj Some) in Hlook.
    apply dict_get_elem in E. destruct (Hcreate (k, m)) as (_ & ? & Hm).
    { rewrite <-(take_drop room to_create). set_solver. }
    split; [by rewrite Hlook|done].
  - assert (size db2 = size (bulk_create_ignore (take room to_create) db1)) as -> by (by apply (proj_size operator_fields)).
    etrans; [apply bulk_create_size|]. rewrite length_take. unfold room. lia.
  - intros k Hk. destruct (decide (k ∈ (take room to_create).*1)) as [Hin|Hin].
    + assert (is_Some (bulk_create_ignore (take room to_create) db1 !! k)) as Hs.
      { rewrite bulk_create_lookup. destruct (db1 !! k); [eauto|by apply dict_get_is_Some]. }
      destruct (Hadopt k Hin Hs) as [-> ?]. done.
    + assert (is_Some (defs !! k)) as Hs.
      { destruct Hk as [|[Hk Hd]]; [done|]. destruct (defs !! k) eqn:E; [eauto|].
        exfalso. apply list_elem_of_fmap in Hk as (d & -> & Hd').
        assert (d_key d ∈ to_create.*1) as Hc.
        { apply list_elem_of_fmap. eexists (_, _). split; [|apply list_elem_of_omap; exists d; split; [done|by rewrite E]]. done. }
        rewrite <-(take_drop room to_create), fmap_app, elem_of_app in Hc. naive_solver. }
      destruct (Hframe k Hin) as [-> Hdb]. rewrite bulk_create_lookup, (dict_get_None k) in Hdb by done.
      destruct (Hsync1 k Hs) as [-> ?]. by destruct (db1 !! k); rewrite Hdb.
Qed.

(** ** Lemmas: the values of a heartbeat *)

Definition finite_value (v : Value) : Prop :=
  is_finite (v_min v) = true ∧ is_finite (v_max v) = true ∧ is_finite (v_avg v) = true.

(** What every value the ingest looks at satisfies. *)
Definition well_formed (values : list (string * Value)) : Prop :=
  NoDup values.*1 ∧ Forall (λ p, is_valid_key (JStr p.1) = true ∧ finite_value p.2) values.

Lemma finite_number_finite j f : finite_number j = Some f → is_finite f = true.
Proof. unfold finite_number. destruct (py_float j) as [g|]; simpl; [|done]. case_match; by intros [= <-]. Qed.

Lemma normalize_value_finite j v : normalize_value j = Some v → finite_value v.
Proof.
  assert (∀ i, (num ← finite_number i; Some (mkValue num num num)) = Some v → finite_value v) as Hs.
  { intros i (f & Hf%finite_number_finite & [= <-])%bind_Some. done. }
  destruct j as [| | | | | |fields]; try apply Hs. cbn [normalize_value].
  intros (a & Ha & (b & Hb & (c & Hc & [= <-])%bind_Some)%bind_Some)%bind_Some.
  split_and!; by eapply finite_number_finite.
Qed.

Lemma well_formed_set k v values :
  is_valid_key (JStr k) = true → finite_value v → well_formed values → well_formed (dict_set k v values).
Proof.
  intros Hk Hv [Hnd Hall]. split; [by apply dict_set_NoDup|].
  apply list.Forall_forall. intros p [->|Hp]%dict_set_elem; [done|]. by apply (proj1 (list.Forall_forall _ _) Hall).
Qed.

Lemma collect_values_spec metrics :
  well_formed (collect_values metrics) ∧ (length (collect_values metrics) ≤ MAX_KEYS)%nat.
Proof.
  assert (well_formed []) as Hnil by (split; constructor).
  destruct metrics as [| | | | | |items]; try (split; [done|simpl; lia]). cbn [collect_values].
  set (step := λ (values : list (string * Value)) (item : string * Json), _).
  assert (∀ items acc, well_formed acc →
    well_formed (foldl step acc items) ∧ (length (foldl step acc items) ≤ length acc + length items)%nat) as Hfold.
  { clear items. intros items. induction items as [|[k j] items IH]; intros acc Hacc; [cbn [foldl length]; split; [done|lia]|].
    cbn [foldl length]. assert (well_formed (step acc (k, j)) ∧ (length (step acc (k, j)) ≤ S (length acc))%nat) as [H1 H2].
    { unfold step. cbn [fst snd]. destruct (is_valid_key (JStr k)) eqn:Ek; [|split; [done|lia]].
      destruct (normalize_value j) as [v|] eqn:Ev; [|split; [done|lia]].
      split; [apply well_formed_set; by eauto using normalize_value_finite|apply dict_set_length]. }
    destruct (IH _ H1) as [? ?]. split; [done|lia]. }
  destruct (Hfold (take MAX_KEYS items) [] Hnil) as [H1 H2]. rewrite length_take in H2. cbn [length] in H2. split; [done|lia].
Qed.

Lemma legacy_values_spec inventory telemetry : well_formed (legacy_values inventory telemetry).
Proof.
  unfold legacy_values. set (candidates := _ ++ _).
  assert (well_formed []) as Hnil by (split; constructor). revert Hnil. generalize (@nil (string * Value)).
  induction candidates as [|[k j] cs IH]; intros acc Hacc; [done|]. cbn [foldl fst snd]. apply IH.
  destruct (is_number j && is_valid_key (JStr k)) eqn:E; [|done]. apply andb_true_iff in E as [_ Ek].
  destruct (normalize_value j) as [v|] eqn:Ev; [|done]. apply well_formed_set; eauto using normalize_value_finite.
Qed.

Lemma merge_legacy_spec legacy : ∀ values,
  well_formed values → well_formed legacy → (length values ≤ MAX_KEYS)%nat →
  well_formed (merge_legacy values legacy) ∧ (length (merge_legacy values legacy) ≤ MAX_KEYS)%nat ∧
  (∀ p, p ∈ values → p ∈ merge_legacy values legacy).
Proof.
  induction legacy as [|[k v] legacy IH]; intros values Hv [Hnd Hl] Hlen; cbn [merge_legacy]; [done|].
  case_decide as Hfull; [done|]. apply Forall_cons in Hl as [[Hk Hf] Hl]. apply list.NoDup_cons in Hnd as [_ Hnd].
  destruct (dict_get k values) as [w|] eqn:E; [by apply IH|].
  destruct (IH (values ++ [(k, v)])) as (H1 & H2 & H3); [|done|rewrite length_app; simpl; lia|].
  - destruct Hv as [Hvn Hva]. split; [|apply Forall_app; split; [done|by apply Forall_singleton]].
    rewrite fmap_app. apply list.NoDup_app. split_and!; [done| |apply NoDup_singleton].
    intros j Hj ->%list_elem_of_singleton. cbn [fst] in Hj. apply dict_get_is_Some in Hj as [? ?]. congruence.
  - split_and!; [done|done|]. intros p Hp. apply H3, elem_of_app. by left.
Qed.

Lemma heartbeat_values_spec hb :
  well_formed (heartbeat_values hb) ∧ (length (heartbeat_values hb) ≤ MAX_KEYS)%nat.
Proof.
  destruct (collect_values_spec (hb_metrics hb)) as [H1 H2].
  destruct (merge_legacy_spec (legacy_values (hb_inventory hb) (hb_telemetry hb)) _ H1) as (? & ? & _);
    [apply legacy_values_spec|done|done].
Qed.

Lemma classify_spec (defs : Defs) full agent_keys descriptor_keys now dropped values :
  let c := foldl (classify_value defs full agent_keys descriptor_keys now) (mkCollected [] [] [] [] false dropped) values in
  (c_stored c).*1 `sublist_of` values.*1 ∧
  (∀ k v t, (k, (v, t)) ∈ c_stored c → t = now ∧ (k, v) ∈ values ∧
    ∀ d, defs !! k = Some d → md_is_blocked d = false ∧ out_of_range v (range_min d) (range_max d) = false) ∧
  (∀ k, k ∈ dropped → k ∈ c_dropped c) ∧
  (c_undefined c = true → ∃ k, k ∈ values.*1 ∧ k ∈ agent_keys ∧ defs !! k = None).
Proof.
  induction values as [|[k v] values IH] using rev_ind; cbn zeta in *.
  { split_and!; try done. intros ??? H. by apply not_elem_of_nil in H. }
  rewrite foldl_snoc, fmap_app. set (c := foldl _ _ values) in *.
  destruct IH as (Hsub & Hst & Hdr & Hun). cbn [fmap list_fmap fst].
  assert ((c_stored c).*1 `sublist_of` values.*1 ++ [k]) as Hsub' by (by apply sublist_inserts_r).
  assert ((c_stored c).*1 ++ [k] `sublist_of` values.*1 ++ [k]) as Hsub2 by (by apply sublist_app).
  assert (∀ j w t, (j, (w, t)) ∈ c_stored c → t = now ∧ (j, w) ∈ values ++ [(k, v)] ∧
    ∀ d, defs !! j = Some d → md_is_blocked d = false ∧ out_of_range w (range_min d) (range_max d) = false) as Hst'.
  { intros j w t Hj. destruct (Hst j w t Hj) as (? & ? & ?). split_and!; [done|apply elem_of_app; by left|done]. }
  assert (c_undefined c = true → ∃ j, j ∈ values.*1 ++ [k] ∧ j ∈ agent_keys ∧ defs !! j = None) as Hun'.
  { intros (j & ? & ? & ?)%Hun. exists j. split_and!; [apply elem_of_app; by left|done..]. }
  unfold classify_value. destruct (defs !! k) as [d|] eqn:Ed; [destruct (md_is_blocked d) eqn:Eb;
    [|destruct (out_of_range v (range_min d) (range_max d)) eqn:Er; [case_match|]]|destruct full];
    cbn [c_stored c_accepted c_seen c_rejected c_undefined c_dropped]; rewrite ?fmap_app;
    split_and!; try done.
  all: try (intros j w t [Hj|[= -> -> ->]%list_elem_of_singleton]%elem_of_app; [by apply Hst'|];
    split_and!; [done|apply elem_of_app; right; by left|intros d' Hd'; simplify_eq; done]).
  - intros j Hj. case_decide; [by apply Hdr|]. apply elem_of_app. left. by apply Hdr.
  - intros [?|Ha%bool_decide_eq_true]%orb_true_iff; [by apply Hun'|].
    exists k. split_and!; [apply elem_of_app; right; by left|done..].
Qed.

(** ** The ingest as a whole *)

Section ingest_facts.
Context (sha256 : list Descriptor → string) (env : Defs → Defs) (db : Defs) (tel : option TelemetryRow)
  (now : Z) (hb : Heartbeat).

Lemma ingest_db_proj {B} (proj : MetricDefinition → B) k :
  (∀ d, proj (touch_definition now d) = proj d) → (∀ v d, proj (set_rejected (Some now) v d) = proj d) →
  proj <$> i_db (ingest_metrics sha256 env db tel now hb) !! k = proj <$> (after_upsert env db now hb).1.2 !! k.
Proof.
  intros Ht Hr. unfold ingest_metrics. set (cc := classify_all _ _ _ _).
  destruct (after_upsert env db now hb) as [[defs db2] dropped]. cbn [i_db fst snd].
  rewrite (foldl_alter_proj proj (λ r, set_rejected (Some now) (Some r.2)) fst) by (intros; apply Hr).
  apply (foldl_alter_proj proj (λ k d, if decide (md_last_seen d < now - LAST_SEEN_THROTTLE) then touch_definition now d else d) id).
  intros _ d. case_decide; [apply Ht|done].
Qed.

Lemma ingest_rest :
  i_warned (ingest_metrics sha256 env db tel now hb) = c_dropped (classify_all env db now hb) ∧ (∀ t, i_tel (ingest_metrics sha256 env db tel now hb) = Some t → tr_metrics t = c_stored (classify_all env db now hb)) ∧
  (i_resend (ingest_metrics sha256 env db tel now hb) = true → c_undefined (classify_all env db now hb) = true ∨
    (hb_hash hb ≠ "" ∧ ∀ t, i_tel (ingest_metrics sha256 env db tel now hb) = Some t → hb_hash hb ≠ tr_hash t)).
Proof.
  unfold ingest_metrics. set (cc := classify_all _ _ _ _).
  destruct (after_upsert env db now hb) as [[defs db2] dropped]. cbn [i_warned i_tel i_resend fst snd].
  split_and!; [done| |].
  - intros t. destruct tel; [by intros [= <-]|]. case_decide; [by intros [= <-]|done].
  - destruct (match hb_descriptors hb with JList _ => true | _ => false end); [done|].
    set (tel' := match tel with Some _ => _ | None => _ end).
    destruct (bool_decide (hb_hash hb ≠ "") && _) eqn:E; [|by left]. intros _. right.
    apply andb_true_iff in E as [E1%bool_decide_eq_true E2%bool_decide_eq_true].
    split; [done|]. intros t Ht. by rewrite Ht in E2.
Qed.

(** The table after the upsert, when other requests only add rows. *)
Lemma upserted_spec :
  db ⊆ env db →
  (∀ k, is_Some (env db !! k) → operator_fields <$> (after_upsert env db now hb).1.2 !! k = operator_fields <$> env db !! k) ∧
  (∀ k d, env db !! k = None → (after_upsert env db now hb).1.2 !! k = Some d →
    operator_fields d = operator_fields (new_definition now) ∧ k ∈ d_key <$> described hb) ∧
  (size (after_upsert env db now hb).1.2 ≤ size (env db) `max` MAX_DEFINITIONS)%nat ∧
  (∀ k, (k ∈ (heartbeat_values hb).*1 ++ (d_key <$> described hb) ∧ is_Some (db !! k)) ∨ (k ∈ d_key <$> described hb ∧ k ∉ (after_upsert env db now hb).2) →
    is_Some ((after_upsert env db now hb).1.2 !! k) ∧ accepts <$> (after_upsert env db now hb).1.1 !! k = accepts <$> (after_upsert env db now hb).1.2 !! k).
Proof.
  intros Henv.
  assert (∀ k d, loaded_defs db hb !! k = Some d → env db !! k = Some d) as Hload.
  { intros k d [Hd _]%map_lookup_filter_Some. by eapply lookup_weaken. }
  assert (∀ k, k ∈ (heartbeat_values hb).*1 ++ (d_key <$> described hb) → is_Some (db !! k) → is_Some (loaded_defs db hb !! k)) as Hin.
  { intros k Hk [d Hd]. exists d. by apply map_lookup_filter_Some. }
  unfold after_upsert. case_decide as Hnil.
  - cbn [fst snd]. split_and!; [done|intros k d ??; congruence|lia|].
    intros k [[Hk Hs]|[Hk _]]; [|rewrite Hnil in Hk; by apply not_elem_of_nil in Hk].
    destruct (Hin k Hk Hs) as [d Hd]. rewrite Hd, (Hload k d Hd). eauto.
  - pose proof (upsert_spec (described hb) (loaded_defs db hb) (env db)
      (String.substring 0 SOURCE_VERSION_LEN (hb_agent_version hb)) now Hload) as H.
    destruct (upsert_descriptors _ _ _ _ _) as [[defs' db'] dropped]. cbn [fst snd].
    destruct H as (H1 & H2 & H3 & H4). split_and!; [done..|]. intros k [[Hk Hs]|Hk]; apply H4; [left|by right]. by apply Hin.
Qed.

Lemma loop_spec :
  (c_stored (classify_all env db now hb)).*1 `sublist_of` (heartbeat_values hb).*1 ∧
  (∀ k v t, (k, (v, t)) ∈ c_stored (classify_all env db now hb) → t = now ∧ (k, v) ∈ heartbeat_values hb ∧
    ∀ d, (after_upsert env db now hb).1.1 !! k = Some d → md_is_blocked d = false ∧ out_of_range v (range_min d) (range_max d) = false) ∧
  (∀ k, k ∈ (after_upsert env db now hb).2 → k ∈ c_dropped (classify_all env db now hb)) ∧
  (c_undefined (classify_all env db now hb) = true → ∃ k, k ∈ (heartbeat_values hb).*1 ∧ k ∈ (collect_values (hb_metrics hb)).*1 ∧ (after_upsert env db now hb).1.1 !! k = None).
Proof. unfold classify_all. destruct (after_upsert env db now hb) as [[defs db2] dropped]. apply classify_spec. Qed.

Lemma ingest_operator_fields k :
  db ⊆ env db →
  (∀ d, env db !! k = Some d →
    ∃ d', i_db (ingest_metrics sha256 env db tel now hb) !! k = Some d' ∧ operator_fields d' = operator_fields d) ∧
  (∀ d', i_db (ingest_metrics sha256 env db tel now hb) !! k = Some d' → env db !! k = None →
    operator_fields d' = operator_fields (new_definition now) ∧ k ∈ d_key <$> described hb).
Proof.
  intros Henv. destruct (upserted_spec Henv) as (H1 & H2 & _ & _).
  assert (operator_fields <$> i_db (ingest_metrics sha256 env db tel now hb) !! k =
    operator_fields <$> (after_upsert env db now hb).1.2 !! k) as Hr by (by apply ingest_db_proj).
  split.
  - intros d Hd. rewrite H1, Hd in Hr by eauto. by apply fmap_Some in Hr as (d' & ? & ?); exists d'.
  - intros d' Hd' Hn. rewrite Hd' in Hr.
    destruct ((after_upsert env db now hb).1.2 !! k) as [d|] eqn:E; [|done]. apply (inj Some) in Hr.
    destruct (H2 k d Hn E) as [Ho ?]. split; [by rewrite Hr|done].
Qed.

End ingest_facts.

(** ** Properties *)

(** A heartbeat never touches what operators own, where other requests only add
    definitions between its load and its write: every definition that
    exists when the ingest writes keeps its label and range overrides and its
    hidden and blocked flags, whatever the agent describes; the only rows added
    are for keys the heartbeat describes, with the operator columns at their
    defaults; and a single ingest does not take the table beyond the flood guard. *)
Lemma ingest_respects_operators sha256 env db tel now hb k :
  db ⊆ env db →
  let r := ingest_metrics sha256 env db tel now hb in
  (∀ d, env db !! k = Some d → ∃ d', i_db r !! k = Some d' ∧ operator_fields d' = operator_fields d) ∧
  (∀ d', i_db r !! k = Some d' → env db !! k = None →
    operator_fields d' = ("", None, None, false, false) ∧ k ∈ d_key <$> described hb) ∧
  (size (i_db r) ≤ size (env db) `max` MAX_DEFINITIONS)%nat.
Proof.
  intros Henv r. destruct (ingest_operator_fields sha256 env db tel now hb k Henv) as [H1 H2].
  split_and!; [done|done|]. destruct (upserted_spec env db now hb Henv) as (_ & _ & H3 & _).
  rewrite (proj_size operator_fields (after_upsert env db now hb).1.2); [done|].
  intros j. by apply ingest_db_proj.
Qed.

(** A station that reports and describes two metrics, one of them blocked by
    an operator. *)
Definition sample_hb : Heartbeat :=
  mkHeartbeat (JObj [("cpu.temp_c", JInt 55); ("pa.volt", JInt 12)])
    (JList [JObj [("key", JStr "cpu.temp_c"); ("label", JStr "CPU"); ("min", JInt 0); ("max", JInt 120)];
            JObj [("key", JStr "pa.volt"); ("label", JStr "PA")]])
    "" "1.4.0" JNull JNull.

Definition sample_db : Defs :=
  {[ "pa.volt" := mkDef "old" "V" "power" 1 None None "1.3.0" 0 0 "Amplifier" None None false true None None ]}.

Lemma ingest_respects_operators_witness :
  ∃ d', i_db (ingest_metrics (λ _, "h") (λ d, d) sample_db None 1000 sample_hb) !! "pa.volt" = Some d' ∧
    operator_fields d' = ("Amplifier", None, None, false, true).
Proof.
  destruct (ingest_respects_operators (λ _, "h") (λ d, d) sample_db None 1000 sample_hb "pa.volt") as [H _].
  - reflexivity.
  - apply (H _ eq_refl).
Defined.

(** Only plausible values are stored, where other requests only add definitions
    meanwhile: at most [MAX_KEYS] entries with
    distinct valid keys, finite numbers and the time of the ingest; and a key
    whose definition existed before, or that the heartbeat describes and the
    table had room for, is stored only if its row in the table, be it written
    by another heartbeat in the meantime, is not blocked and its effective
    range admits the minimum, maximum and average. *)
Lemma ingest_stores_only_plausible sha256 env db tel now hb t :
  db ⊆ env db →
  let r := ingest_metrics sha256 env db tel now hb in
  i_tel r = Some t →
  (length (tr_metrics t) ≤ MAX_KEYS)%nat ∧ NoDup (tr_metrics t).*1 ∧
  ∀ k v at_, (k, (v, at_)) ∈ tr_metrics t →
    is_valid_key (JStr k) = true ∧ finite_value v ∧ at_ = now ∧
    (is_Some (db !! k) ∨ (k ∈ d_key <$> described hb ∧ k ∉ i_warned r) →
     ∃ d, i_db r !! k = Some d ∧ md_is_blocked d = false ∧ out_of_range v (range_min d) (range_max d) = false).
Proof.
  intros Henv r Ht. destruct (ingest_rest sha256 env db tel now hb) as (Hw & Hm & _).
  destruct (loop_spec env db now hb) as (Hsub & Hst & Hdr & _).
  destruct (heartbeat_values_spec hb) as [[Hnd Hwf] Hlen].
  rewrite (Hm t Ht). split_and!.
  - apply sublist_length in Hsub. rewrite !length_fmap in Hsub. lia.
  - by eapply sublist_NoDup.
  - intros k v at_ Hin. destruct (Hst k v at_ Hin) as (-> & Hv & Hdef).
    destruct (proj1 (list.Forall_forall _ _) Hwf (k, v) Hv) as [Hk Hf]. split_and!; [done..|].
    intros Hdec. destruct (upserted_spec env db now hb Henv) as (_ & _ & _ & Hsync).
    destruct (Hsync k) as [[d Hd] Hacc].
    { destruct Hdec as [Hs|[Hk1 Hk2]]; [left|right].
      - split; [|done]. apply elem_of_app. left. by apply (list_elem_of_fmap_2 fst) in Hv.
      - split; [done|]. intros Hin'. apply Hk2. unfold r. rewrite Hw. by apply Hdr. }
    rewrite Hd in Hacc. destruct ((after_upsert env db now hb).1.1 !! k) as [d0|] eqn:E0; [|done].
    destruct (Hdef d0 eq_refl) as [Hb Hr].
    pose proof (ingest_db_proj sha256 env db tel now hb accepts k ltac:(done) ltac:(done)) as Hfin.
    fold r in Hfin. rewrite Hd, <-Hacc in Hfin. apply fmap_Some in Hfin as (d' & ? & Hd').
    exists d'. unfold accepts in Hd'. injection Hd' as E1 E2 E3. split_and!; [done|congruence|by rewrite <-E1, <-E2].
Qed.

Definition sample_row : TelemetryRow :=
  mkTelemetryRow [("cpu.temp_c", (mkValue (float_of_Z 55) (float_of_Z 55) (float_of_Z 55), 1000))] "h".

Lemma ingest_stores_only_plausible_witness :
  (length (tr_metrics sample_row) ≤ MAX_KEYS)%nat.
Proof.
  apply (ingest_stores_only_plausible (λ _, "h") (λ d, d) sample_db None 1000 sample_hb
    sample_row).
  - reflexivity.
  - vm_compute. reflexivity.
Defined.

(** The descriptor exchange settles in one round: when a heartbeat has sent
    its descriptors and none was dropped for the cap, a later heartbeat that
    reports only described keys with the hash the server stored is not asked
    to send them again. *)
Lemma descriptor_exchange_settles sha256 db tel now hb now' hb' t :
  let r := ingest_metrics sha256 (λ d, d) db tel now hb in
  i_tel r = Some t → i_warned r = [] →
  (∀ k, k ∈ (collect_values (hb_metrics hb')).*1 → k ∈ d_key <$> described hb) →
  (∀ l, hb_descriptors hb' ≠ JList l) → hb_hash hb' = tr_hash t →
  i_resend (ingest_metrics sha256 (λ d, d) (i_db r) (i_tel r) now' hb') = false.
Proof.
  intros r Ht Hwarn Hkeys Hlist Hhash.
  destruct (i_resend _) eqn:Hres; [exfalso|done].
  destruct (ingest_rest sha256 (λ d, d) (i_db r) (i_tel r) now' hb') as (_ & _ & Hr).
  destruct (Hr Hres) as [Hun|[_ Hne]].
  - destruct (loop_spec (λ d, d) (i_db r) now' hb') as (_ & _ & _ & Hl). destruct (Hl Hun) as (k & Hk & Hak & Hnone).
    assert (described hb' = []) as Hd' by (unfold described; destruct (hb_descriptors hb'); [done..| |done]; by destruct (Hlist l)).
    assert (is_Some (i_db r !! k)) as Hs.
    { destruct (upserted_spec (λ d, d) db now hb) as (_ & _ & _ & Hs); [done|].
      destruct (ingest_rest sha256 (λ d, d) db tel now hb) as (Hw & _ & _).
      destruct (loop_spec (λ d, d) db now hb) as (_ & _ & Hdr & _).
      destruct (Hs k) as [Hk' _].
      { right. split; [by apply Hkeys|]. intros H%Hdr. rewrite <-Hw in H. fold r in H. rewrite Hwarn in H.
        by apply not_elem_of_nil in H. }
      rewrite <-(fmap_is_Some operator_fields). unfold r. rewrite ingest_db_proj by done. by apply fmap_is_Some. }
    unfold after_upsert in Hnone. rewrite Hd', decide_True in Hnone by done. cbn [fst] in Hnone.
    destruct Hs as [d Hd]. apply map_lookup_filter_None in Hnone as [?|Hno]; [congruence|].
    apply (Hno d Hd). cbn [fst]. apply elem_of_app. by left.
  - rewrite Ht in Hne. unfold ingest_metrics in Hne. destruct (after_upsert _ _ _ _) as [[??] ?].
    cbn [i_tel] in Hne. apply (Hne _ eq_refl). cbn [tr_hash]. rewrite Hhash.
    destruct (hb_descriptors hb') eqn:E; try done. exfalso. by eapply Hlist.
Qed.

Lemma descriptor_exchange_settles_witness :
  i_resend (ingest_metrics (λ _, "h") (λ d, d)
    (i_db (ingest_metrics (λ _, "h") (λ d, d) sample_db None 1000 sample_hb))
    (i_tel (ingest_metrics (λ _, "h") (λ d, d) sample_db None 1000 sample_hb)) 2000
    (mkHeartbeat (JObj [("pa.volt", JInt 13)]) JNull "h" "1.4.0" JNull JNull)) = false.
Proof.
  apply (descriptor_exchange_settles (λ _, "h") sample_db None 1000 sample_hb 2000
    (mkHeartbeat (JObj [("pa.volt", JInt 13)]) JNull "h" "1.4.0" JNull JNull)
    sample_row).
  - vm_compute. reflexivity.
  - vm_compute. reflexivity.
  - intros k Hk. apply list_elem_of_singleton in Hk. rewrite Hk. vm_compute. right. left.
  - intros l. discriminate.
  - reflexivity.
Defined.

(** A pattern matches exactly the keys that have its segments, with the
    one [*] segment standing for exactly one segment of any content; a pattern
    without a wildcard matches only itself and an invalid pattern nothing. *)
Lemma pattern_matches_one_segment key pattern :
  key_matches_pattern key pattern = true ↔
  is_valid_pattern pattern = true ∧
  (WILDCARD ∉ split_dot pattern ∧ key = pattern ∨
   ∃ pre seg post, split_dot pattern = pre ++ WILDCARD :: post ∧ WILDCARD ∉ pre ∧ WILDCARD ∉ post ∧
     split_dot key = pre ++ seg :: post).
Proof.
  unfold key_matches_pattern, pattern_matcher. destruct (is_valid_pattern pattern) eqn:Hval; simpl; [|naive_solver].
  case_decide as Hw.
  - rewrite bool_decide_eq_true. split; [by auto|]. intros [_ [[_ ?]|(pre & seg & post & E & _)]]; [done|].
    rewrite E in Hw. set_solver.
  - assert (∃ pre post, split_dot pattern = pre ++ WILDCARD :: post ∧ WILDCARD ∉ pre ∧ WILDCARD ∉ post) as (pre & post & E & Hpre & Hpost).
    { apply one_wildcard. unfold is_valid_pattern in Hval. case_decide as H0.
      - apply nil_length_inv in H0. exfalso.
        assert (WILDCARD ∈ filter (λ s, s = WILDCARD) (split_dot pattern)) as H by (by apply list_elem_of_filter).
        rewrite H0 in H. by apply not_elem_of_nil in H.
      - by case_decide. }
    split.
    + case_decide as Hlen; [done|]. intros Hm%segments_match_spec; [|lia]. split; [done|right].
      rewrite E in Hm. apply Forall2_app_inv_r in Hm as (k1 & k2 & H1 & H2 & Ek).
      apply match_literal in H1 as ->; [|done].
      apply Forall2_cons_inv_r in H2 as (seg & k3 & _ & H3 & ->). apply match_literal in H3 as ->; [|done].
      by exists pre, seg, post.
    + intros [_ [[? _]|(pre' & seg & post' & E' & Hpre' & Hpost' & Ek)]]; [done|].
      rewrite Ek, E'. rewrite decide_False by (rewrite !length_app; simpl; lia).
      apply segments_match_spec; [rewrite !length_app; simpl; lia|].
      apply Forall2_app; [by apply match_literal|]. constructor; [by left|by apply match_literal].
Qed.
