(* ===== verification/Thresholds.v ===== *)
(** * Alert rules and threshold evaluation

    Models the threshold half of [apps/monitoring]: the [AlertRule], [Alert]
    and [ThresholdState] tables ([models.py]), the evaluation of a rule over
    its candidates ([engine.py], [_evaluate_threshold_rule] and
    [_check_thresholds]) and the resets that a rule change, a rule deletion and
    the blocking of a metric trigger ([rules.py], [signals.py]).

    Times are integers (microseconds).  A transaction that holds the row lock
    of its rule is one atomic operation; what a run has loaded before it takes
    the lock (definitions, current samples) is an argument of the operation and
    may be stale.  The texts of an alert are not modelled: nothing reads them.
    [datetime.fromisoformat] is the parameter [fromisoformat]: every theorem
    holds for each function of its type. *)

From Stdlib Require Import ZArith Lia SpecFloat.
From stdpp Require Import base gmap list strings.
From S2P Require Import Prelude Json Metrics.

Local Open Scope Z_scope.

(** ** Models *)

Inductive AlertType :=
| A_STATION_OFFLINE | A_OTA_FAILED | A_UNEXPECTED_REBOOT | A_POWER_WARNING | A_STORAGE_HEALTH | A_THRESHOLD.

Inductive Operator := GT | GTE | LT | LTE.
Inductive Aggregate := AVG | MIN | MAX.
Inductive Severity := WARNING | CRITICAL.

#[export] Instance AlertType_eq_dec : EqDecision AlertType.
Proof. solve_decision. Defined.
#[export] Instance Operator_eq_dec : EqDecision Operator.
Proof. solve_decision. Defined.
#[export] Instance Aggregate_eq_dec : EqDecision Aggregate.
Proof. solve_decision. Defined.
#[export] Instance Severity_eq_dec : EqDecision Severity.
Proof. solve_decision. Defined.

(** [ru_operator] is [None] for the blank operator of an event rule. *)
Record AlertRule := mkRule {
  ru_pk : Z;
  ru_type : AlertType;
  ru_threshold : spec_float;
  ru_severity : Severity;
  ru_active : bool;
  ru_description : string;
  ru_name : string;
  ru_metric_key : string;
  ru_operator : option Operator;
  ru_aggregate : Aggregate;
  ru_duration : Z
}.

Record Alert := mkAlert {
  al_pk : Z;
  al_station : Z;
  al_rule : option Z;
  al_severity : Severity;
  al_resolved : bool;
  al_resolved_at : option Z;
  al_created_at : Z
}.

Record ThresholdState := mkState {
  ts_breach : option Z;
  ts_ok : option Z;
  ts_last : option Z;
  ts_alert : option Z
}.

#[export] Instance ThresholdState_eq_dec : EqDecision ThresholdState.
Proof. solve_decision. Defined.

(** [ThresholdState(rule=..., station=..., metric_key=...)] *)
Definition fresh_state : ThresholdState := mkState None None None None.

(** The states are unique per (rule, station, metric key). *)
Record AlertDb := mkAlertDb {
  rules : list AlertRule;
  alerts : list Alert;
  states : gmap (Z * Z * string) ThresholdState;
  mdefs : gmap string MetricDefinition;
  next_alert : Z
}.

Definition with_alerts (f : list Alert → list Alert) (db : AlertDb) : AlertDb :=
  mkAlertDb (rules db) (f (alerts db)) (states db) (mdefs db) (next_alert db).
Definition with_states (f : gmap (Z * Z * string) ThresholdState → gmap (Z * Z * string) ThresholdState)
    (db : AlertDb) : AlertDb :=
  mkAlertDb (rules db) (alerts db) (f (states db)) (mdefs db) (next_alert db).

(** ** Helpers of the engine *)

Definition SECOND : Z := 1000000.
Definition OFFLINE_THRESHOLD : Z := 5 * 60 * SECOND.

(** [_create_alert]; [severity] overrides the rule's. *)
Definition create_alert (station : Z) (rule : AlertRule) (severity : option Severity) (now : Z) (db : AlertDb) :
    AlertDb * Z :=
  let pk := next_alert db in
  (mkAlertDb (rules db)
     (alerts db ++ [mkAlert pk station (Some (ru_pk rule)) (default (ru_severity rule) severity) false None now])
     (states db) (mdefs db) (pk + 1), pk).

Definition resolve_row (now : Z) (a : Alert) : Alert :=
  mkAlert (al_pk a) (al_station a) (al_rule a) (al_severity a) true (Some now) (al_created_at a).

(** [compare]: an unknown operator never breaches. *)
Definition compare (op : option Operator) (value threshold : spec_float) : bool :=
  match op with
  | Some GT => SFltb threshold value
  | Some GTE => SFleb threshold value
  | Some LT => SFltb value threshold
  | Some LTE => SFleb value threshold
  | None => false
  end.

Definition aggregate_field (a : Aggregate) : string :=
  match a with AVG => "avg" | MIN => "min" | MAX => "max" end.

(** The alert object of a state, if it is open. *)
Definition is_open_alert (pk : Z) (db : AlertDb) : bool :=
  existsb (λ a, bool_decide (al_pk a = pk) && negb (al_resolved a)) (alerts db).

Definition open_alert (st : ThresholdState) (db : AlertDb) : option Z :=
  pk ← ts_alert st; if is_open_alert pk db then Some pk else None.

(** ** One state, one sample *)

(** A gap without current values restarts the pending timer. *)
Definition gap_restart (now : Z) (open : bool) (st : ThresholdState) : ThresholdState :=
  match ts_last st with
  | Some t =>
    if bool_decide (OFFLINE_THRESHOLD < now - t) then
      mkState (match ts_breach st with
               | Some b => if open then Some b else Some now
               | None => None
               end)
        (match ts_ok st with Some _ => Some now | None => None end) (ts_last st) (ts_alert st)
    else st
  | None => st
  end.

Inductive Verdict := Keep | Fire | Resolve.

(** The transition of the timers, and what is to happen to the alert; [open]
    tells whether the state has an open alert. *)
Definition eval_state (now duration : Z) (breach open : bool) (st0 : ThresholdState) : ThresholdState * Verdict :=
  let st := gap_restart now open st0 in
  let '(st, open', verdict) :=
    if breach then
      let b := default now (ts_breach st) in
      let st := mkState (Some b) None (ts_last st) (ts_alert st) in
      if negb open && bool_decide (duration ≤ now - b) then (st, true, Fire) else (st, open, Keep)
    else
      if open then
        let o := default now (ts_ok st) in
        if bool_decide (duration ≤ now - o) then (mkState None None (ts_last st) None, false, Resolve)
        else (mkState None (Some o) (ts_last st) (ts_alert st), true, Keep)
      else (mkState None None (ts_last st) None, false, Keep) in
  let pending := bool_decide (is_Some (ts_ok st)) || (bool_decide (is_Some (ts_breach st)) && negb open') in
  (if pending then mkState (ts_breach st) (ts_ok st) (Some now) (ts_alert st) else st, verdict).

(** ** One rule ([_evaluate_threshold_rule]) *)

Inductive EngineError := EngineOverflow.

Record Candidate := mkCand { cd_station : Z; cd_key : string; cd_sample : list (string * Json) }.

Definition set_alert (pk : option Z) (st : ThresholdState) : ThresholdState :=
  mkState (ts_breach st) (ts_ok st) (ts_last st) pk.

(** One iteration of the loop; a sample without a number for the rule's
    aggregate is skipped.  The loop mutates the loaded state objects and writes
    the changed ones in bulk at its end; as later iterations see the mutated
    objects and nothing else reads them, they are written here. *)
Definition evaluate_candidate (rule : AlertRule) (now : Z) (db : AlertDb) (c : Candidate) : outcome EngineError AlertDb :=
  let value := jget (aggregate_field (ru_aggregate rule)) (cd_sample c) in
  if negb (is_number value) then Ok db
  else
    let k := (ru_pk rule, cd_station c, cd_key c) in
    let st0 := default fresh_state (states db !! k) in
    let opened := open_alert st0 db in
    match py_float value with
    | None => Raise EngineOverflow
    | Some v =>
      let '(st, verdict) := eval_state now (ru_duration rule * SECOND) (compare (ru_operator rule) v (ru_threshold rule))
                              (bool_decide (is_Some opened)) st0 in
      let '(db', st) :=
        match verdict with
        | Keep => (db, st)
        | Fire => let '(db1, pk) := create_alert (cd_station c) rule None now db in (db1, set_alert (Some pk) st)
        | Resolve =>
          (with_alerts (update_where (λ a, Some (al_pk a) = opened ∧ al_resolved a = false) (resolve_row now)) db, st)
        end in
      Ok (if decide (st = st0) then db' else with_states (<[k := st]>) db')
    end.

Definition evaluate_threshold_rule (rule : AlertRule) (candidates : list Candidate) (now : Z) (db : AlertDb) :
    outcome EngineError AlertDb :=
  ofold (evaluate_candidate rule now) db candidates.

(** ** A run ([_check_thresholds]) *)

Section run.
Variable fromisoformat : string → option Z.

Definition sample_is_current (sample : list (string * Json)) (now : Z) : bool :=
  match jget "ts" sample with
  | JStr ts =>
    if decide (ts = "") then false
    else match fromisoformat ts with
         | None => false
         | Some parsed => bool_decide (now - parsed ≤ OFFLINE_THRESHOLD)
         end
  | _ => false
  end.

(** The current samples of a station's telemetry. *)
Definition current_samples (metrics : Json) (now : Z) : list (string * list (string * Json)) :=
  omap (λ kv, match kv.2 with
              | JObj sample => if sample_is_current sample now then Some (kv.1, sample) else None
              | _ => None
              end) (as_dict metrics).

(** [telemetry]: (station, [last_seen], [metrics]) of every telemetry row. *)
Definition load_current (telemetry : list (Z * option Z * Json)) (now : Z) :
    list (Z * list (string * list (string * Json))) :=
  omap (λ t, match t.1.2 with
             | Some seen =>
               if bool_decide (now - OFFLINE_THRESHOLD ≤ seen) then Some (t.1.1, current_samples t.2 now) else None
             | None => None
             end) telemetry.

Definition threshold_candidates (current : list (Z * list (string * list (string * Json))))
    (definitions : list string) (pattern : string) : list Candidate :=
  let matches := pattern_matcher pattern in
  sm ← current;
  ks ← sm.2;
  if bool_decide (ks.1 ∈ definitions) && matches ks.1 then [mkCand sm.1 ks.1 ks.2] else [].

(** The transaction of one rule of the loop. *)
Definition check_rule (current : list (Z * list (string * list (string * Json)))) (definitions : list string)
    (now : Z) (db : AlertDb) (rule : AlertRule) : outcome EngineError AlertDb :=
  if decide (threshold_candidates current definitions (ru_metric_key rule) = []) then Ok db
  else
    match head (filter (λ r, ru_pk r = ru_pk rule ∧ ru_type r = A_THRESHOLD ∧ ru_active r = true) (rules db)) with
    | None => Ok db
    | Some locked =>
      let candidates := threshold_candidates current definitions (ru_metric_key locked) in
      let blocked k := match mdefs db !! k with Some d => md_is_blocked d | None => false end in
      evaluate_threshold_rule locked (filter (λ c, blocked (cd_key c) = false) candidates) now db
    end.

Definition unblocked_keys (db : AlertDb) : list string :=
  (filter (λ kd, md_is_blocked kd.2 = false) (map_to_list (mdefs db))).*1.

Definition check_thresholds (telemetry : list (Z * option Z * Json)) (now : Z) (db : AlertDb) :
    outcome EngineError AlertDb :=
  ofold (check_rule (load_current telemetry now) (unblocked_keys db) now) db
    (filter (λ r, ru_type r = A_THRESHOLD ∧ ru_active r = true) (rules db)).

End run.

(** ** Resets ([rules.py]) and the signals that call them ([signals.py]) *)

Definition resolve_open_alerts (rule_pk now : Z) (db : AlertDb) : AlertDb :=
  with_alerts (update_where (λ a, al_rule a = Some rule_pk ∧ al_resolved a = false) (resolve_row now)) db.

Definition reset_rule_evaluation (rule_pk now : Z) (db : AlertDb) : AlertDb :=
  with_states (filter (λ kv, kv.1.1.1 ≠ rule_pk)) (resolve_open_alerts rule_pk now db).

Definition reset_metric_evaluation (metric_key : string) (now : Z) (db : AlertDb) : AlertDb :=
  let alert_ids := omap (λ kv, if decide (kv.1.2 = metric_key) then ts_alert kv.2 else None) (map_to_list (states db)) in
  with_states (filter (λ kv, kv.1.2 ≠ metric_key))
    (with_alerts (update_where (λ a, al_pk a ∈ alert_ids ∧ al_resolved a = false) (resolve_row now)) db).

(** [EVALUATION_FIELDS] *)
Definition evaluation_fields (r : AlertRule) :=
  (ru_type r, ru_metric_key r, ru_operator r, ru_aggregate r, ru_threshold r, ru_duration r, ru_severity r, ru_active r).

Definition evaluation_changed (old new : AlertRule) : bool := bool_decide (evaluation_fields old ≠ evaluation_fields new).

(** [rule.save()] of an existing row with its [pre_save] and [post_save]
    handlers; the row is written before the evaluation is reset. *)
Definition save_rule (r : AlertRule) (now : Z) (db : AlertDb) : AlertDb :=
  let reset :=
    match head (filter (λ o, ru_pk o = ru_pk r) (rules db)) with
    | None => false
    | Some old =>
      bool_decide (ru_type old = A_THRESHOLD ∨ ru_type r = A_THRESHOLD) && evaluation_changed old r
    end in
  let db := mkAlertDb (update_where (λ o, ru_pk o = ru_pk r) (λ _, r) (rules db)) (alerts db) (states db) (mdefs db)
              (next_alert db) in
  if reset then reset_rule_evaluation (ru_pk r) now db else db.

(** [rule.delete()]: the [pre_delete] handler, then the states cascade and the
    alerts' reference is nulled. *)
Definition delete_rule (r : AlertRule) (now : Z) (db : AlertDb) : AlertDb :=
  let db := if decide (ru_type r = A_THRESHOLD) then resolve_open_alerts (ru_pk r) now db else db in
  mkAlertDb (filter (λ o, ru_pk o ≠ ru_pk r) (rules db))
    (update_where (λ a, al_rule a = Some (ru_pk r))
       (λ a, mkAlert (al_pk a) (al_station a) None (al_severity a) (al_resolved a) (al_resolved_at a) (al_created_at a))
       (alerts db))
    (filter (λ kv, kv.1.1.1 ≠ ru_pk r) (states db)) (mdefs db) (next_alert db).

(** [definition.save()] with its handlers: blocking a metric resets it. *)
Definition save_definition (key : string) (d : MetricDefinition) (now : Z) (db : AlertDb) : AlertDb :=
  match mdefs db !! key with
  | None => db
  | Some old =>
    let reset := md_is_blocked d && negb (md_is_blocked old) in
    let db := mkAlertDb (rules db) (alerts db) (states db) (<[key := d]> (mdefs db)) (next_alert db) in
    if reset then reset_metric_evaluation key now db else db
  end.

(** [AlertRule.objects.create(...)] *)
Definition create_rule (r : AlertRule) (db : AlertDb) : AlertDb :=
  mkAlertDb (rules db ++ [r]) (alerts db) (states db) (mdefs db) (next_alert db).

(** [AlertResolveView] *)
Definition resolve_view (pk now : Z) (db : AlertDb) : AlertDb :=
  with_alerts (update_where (λ a, al_pk a = pk) (resolve_row now)) db.

(** ** Everything that happens to the tables

    One constructor per transaction; [S_event_alert] and [S_event_resolve] are
    what the event checks of the engine do to the alerts of the other rules,
    [S_ingest] is the heartbeat ingest. *)

Inductive monitor_step (db : AlertDb) : AlertDb → Prop :=
| S_check current definitions now rule db' :
    check_rule current definitions now db rule = Ok db' → monitor_step db db'
| S_create_rule r : ru_pk r ∉ ru_pk <$> rules db → (∀ a, a ∈ alerts db → al_rule a ≠ Some (ru_pk r)) →
    monitor_step db (create_rule r db)
| S_save_rule r now : monitor_step db (save_rule r now db)
| S_delete_rule r now : r ∈ rules db → monitor_step db (delete_rule r now db)
| S_save_definition key d now : monitor_step db (save_definition key d now db)
| S_ingest sha256 tel now hb :
    monitor_step db (mkAlertDb (rules db) (alerts db) (states db)
      (i_db (ingest_metrics sha256 (λ d, d) (mdefs db) tel now hb)) (next_alert db))
| S_resolve pk now : monitor_step db (resolve_view pk now db)
| S_event_alert station rule severity now : rule ∈ rules db → ru_type rule ≠ A_THRESHOLD →
    monitor_step db (create_alert station rule severity now db).1
| S_event_resolve (P : Alert → Prop) (HP : ∀ a, Decision (P a)) now :
    monitor_step db (with_alerts (update_where P (resolve_row now)) db).

Definition empty_monitor : AlertDb := mkAlertDb [] [] ∅ ∅ 0.

(** ** The invariant *)

Definition threshold_rule (db : AlertDb) (r : Z) : Prop :=
  ∃ ru, ru ∈ rules db ∧ ru_pk ru = r ∧ ru_type ru = A_THRESHOLD.

(** Every open alert of a threshold rule is the alert of a state of that rule
    and station. *)
Definition no_orphans (db : AlertDb) : Prop :=
  ∀ a r, a ∈ alerts db → al_resolved a = false → al_rule a = Some r → threshold_rule db r →
    ∃ key st, states db !! (r, al_station a, key) = Some st ∧ ts_alert st = Some (al_pk a).

Definition alerts_fresh (db : AlertDb) : Prop :=
  (∀ a, a ∈ alerts db → al_pk a < next_alert db) ∧
  (∀ k st p, states db !! k = Some st → ts_alert st = Some p → p < next_alert db).

Definition alerts_unshared (db : AlertDb) : Prop :=
  ∀ k1 k2 st1 st2 p, states db !! k1 = Some st1 → states db !! k2 = Some st2 →
    ts_alert st1 = Some p → ts_alert st2 = Some p → k1 = k2.

Definition states_owned (db : AlertDb) : Prop :=
  ∀ k st, states db !! k = Some st →
    threshold_rule db k.1.1 ∧ ∀ d, mdefs db !! k.2 = Some d → md_is_blocked d = false.

Definition monitor_inv (db : AlertDb) : Prop :=
  NoDup (ru_pk <$> rules db) ∧ no_orphans db ∧ alerts_fresh db ∧ alerts_unshared db ∧ states_owned db.

(** ** Lemmas *)

Lemma eval_state_alert now duration breach open st0 :
  let '(st, verdict) := eval_state now duration breach open st0 in
  match verdict with
  | Keep => ts_alert st = ts_alert st0 ∨ (open = false ∧ ts_alert st = None)
  | Fire => open = false ∧ breach = true
  | Resolve => open = true ∧ ts_alert st = None
  end.
Proof.
  assert (ts_alert (gap_restart now open st0) = ts_alert st0) as Hg.
  { unfold gap_restart. destruct (ts_last st0); [|done]. by case_bool_decide. }
  unfold eval_state. destruct (gap_restart now open st0) as [b o l a]. simpl in Hg. subst a.
  destruct breach, open; simpl; repeat (case_bool_decide || case_match); simplify_eq/=; auto.
Qed.

Lemma is_open_alert_true pk db :
  is_open_alert pk db = true ↔ ∃ a, a ∈ alerts db ∧ al_pk a = pk ∧ al_resolved a = false.
Proof.
  unfold is_open_alert. rewrite existsb_exists. split.
  - intros (a & Ha%list_elem_of_In & [Hp%bool_decide_eq_true Hr%negb_true_iff]%andb_true_iff). eauto.
  - intros (a & Ha & Hp & Hr). exists a. split; [by apply list_elem_of_In|].
    rewrite Hr. by rewrite bool_decide_true.
Qed.

Lemma open_alert_Some st db pk :
  open_alert st db = Some pk ↔ ts_alert st = Some pk ∧ ∃ a, a ∈ alerts db ∧ al_pk a = pk ∧ al_resolved a = false.
Proof.
  unfold open_alert. destruct (ts_alert st) as [q|]; simpl; [|naive_solver].
  destruct (is_open_alert q db) eqn:E.
  - apply is_open_alert_true in E. naive_solver.
  - split; [done|]. intros [[= ->] Ha]. apply is_open_alert_true in Ha. congruence.
Qed.

(** Writing the state [st] of the key [k] after the alerts have changed from
    those of [db] to those of [db']. *)
Lemma insert_state_inv db db' k st :
  monitor_inv db → rules db' = rules db → mdefs db' = mdefs db → states db' = states db →
  next_alert db ≤ next_alert db' → (∀ a, a ∈ alerts db' → al_pk a < next_alert db') →
  threshold_rule db k.1.1 → (∀ d, mdefs db !! k.2 = Some d → md_is_blocked d = false) →
  (∀ a, a ∈ alerts db' → al_resolved a = false →
    (a ∈ alerts db ∧ (ts_alert (default fresh_state (states db !! k)) = Some (al_pk a) → ts_alert st = Some (al_pk a))) ∨
    (ts_alert st = Some (al_pk a) ∧ al_rule a = Some k.1.1 ∧ al_station a = k.1.2)) →
  (∀ p, ts_alert st = Some p → p < next_alert db' ∧
    ∀ k' st', k' ≠ k → states db !! k' = Some st' → ts_alert st' ≠ Some p) →
  monitor_inv (with_states (<[k := st]>) db').
Proof.
  intros (Hr & Ho & [Hf1 Hf2] & Hu & Hw) Er Em Es Hn Hpk Hk Hb Ha Hp.
  unfold monitor_inv, no_orphans, alerts_fresh, alerts_unshared, states_owned, threshold_rule, with_states.
  cbn [rules alerts states mdefs next_alert]. rewrite Er, Em, Es. split_and!; [done| |done| | |].
  - intros a r Hin Hres Hrule Hth. destruct (Ha a Hin Hres) as [[Hin0 Hst]|(Hst & Hrule' & Hstation)].
    + destruct (Ho a r Hin0 Hres Hrule Hth) as (key & st' & Hl & Hal).
      destruct (decide ((r, al_station a, key) = k)) as [<-|Hne].
      * exists key, st. rewrite lookup_insert_eq. rewrite Hl in Hst. auto.
      * exists key, st'. by rewrite lookup_insert_ne.
    + destruct k as [[r' s'] key]. simplify_eq/=. exists key, st. by rewrite lookup_insert_eq.
  - intros k' st' p [[-> ->]|[Hne Hl]]%lookup_insert_Some Hal; [by apply Hp|]. specialize (Hf2 k' st' p Hl Hal). lia.
  - intros k1 k2 st1 st2 p [[<- <-]|[Hn1 Hl1]]%lookup_insert_Some [[<- <-]|[Hn2 Hl2]]%lookup_insert_Some H1 H2; try done.
    + exfalso. by eapply (proj2 (Hp p H1)).
    + exfalso. by eapply (proj2 (Hp p H2)).
    + by eapply Hu.
  - intros k' st' [[<- <-]|[Hne Hl]]%lookup_insert_Some; [done|]. by eapply Hw.
Qed.

Lemma evaluate_candidate_inv rule now db c db' :
  monitor_inv db → rule ∈ rules db → ru_type rule = A_THRESHOLD →
  (∀ d, mdefs db !! cd_key c = Some d → md_is_blocked d = false) →
  evaluate_candidate rule now db c = Ok db' →
  monitor_inv db' ∧ rules db' = rules db ∧ mdefs db' = mdefs db.
Proof.
  intros Hinv Hrule Hty Hb. unfold evaluate_candidate. set (value := jget _ _).
  destruct (is_number value); simpl; [|by intros [= <-]].
  set (k := (ru_pk rule, cd_station c, cd_key c)). set (st0 := default fresh_state (states db !! k)).
  destruct (py_float value) as [v|]; [|done].
  pose proof (eval_state_alert now (ru_duration rule * SECOND) (compare (ru_operator rule) v (ru_threshold rule))
    (bool_decide (is_Some (open_alert st0 db))) st0) as Hv.
  destruct (eval_state _ _ _ _ _) as [st verdict].
  assert (threshold_rule db k.1.1) as Hth by (by exists rule).
  pose proof Hinv as (_ & _ & [Hf1 Hf2] & Hu & _).
  assert (∀ p, ts_alert st0 = Some p → p < next_alert db ∧
    ∀ k' st', k' ≠ k → states db !! k' = Some st' → ts_alert st' ≠ Some p) as Hst0.
  { intros p Hp. unfold st0 in Hp. destruct (states db !! k) as [s|] eqn:E; [|done]. simpl in Hp.
    split; [by eapply Hf2|]. intros k' st' Hne Hl Hal. apply Hne. by eapply Hu. }
  assert (open_alert st0 db = None → ∀ a, a ∈ alerts db → al_resolved a = false → ts_alert st0 ≠ Some (al_pk a)) as Hno.
  { intros Hn a Hin Hres Hal. assert (open_alert st0 db = Some (al_pk a)) by (apply open_alert_Some; eauto). congruence. }
  destruct verdict.
  - (* Keep *)
    intros [= <-]. case_decide; [done|]. split; [|done]. eapply insert_state_inv; try done.
    + intros a Hin Hres. left. split; [done|]. fold st0. intros Hal. destruct Hv as [->|[Ho _]]; [done|].
      exfalso. apply bool_decide_eq_false, eq_None_not_Some in Ho. by apply (Hno Ho a).
    + intros p Hp. destruct Hv as [E|[_ E]]; rewrite E in Hp; [by apply Hst0|done].
  - (* Fire *)
    destruct Hv as [Ho _]. apply bool_decide_eq_false, eq_None_not_Some in Ho.
    cbn [create_alert]. intros [= <-]. rewrite decide_False.
    2:{ intros E. destruct (Hst0 (next_alert db)) as [? _]; [|lia]. by rewrite <-E. }
    split; [|done]. eapply (insert_state_inv db); try done; cbn [next_alert alerts].
    + lia.
    + intros a [Hin| ->%list_elem_of_singleton]%elem_of_app; [|simpl; lia]. specialize (Hf1 a Hin). lia.
    + intros a [Hin| ->%list_elem_of_singleton]%elem_of_app Hres; [left|right; done].
      split; [done|]. fold st0. intros Hal. exfalso. by apply (Hno Ho a).
    + intros p [= <-]. split; [lia|]. intros k' st' _ Hl Hal. specialize (Hf2 _ _ _ Hl Hal). lia.
  - (* Resolve *)
    destruct Hv as [Ho Hnone]. apply bool_decide_eq_true in Ho as [pk Hpk]. rewrite Hpk.
    intros [= <-]. rewrite decide_False.
    2:{ intros ->. apply open_alert_Some in Hpk as [? _]. congruence. }
    split; [|done]. eapply (insert_state_inv db); try done; cbn [with_alerts next_alert alerts].
    + intros a (b & Hin & [[_ ->]|[_ ->]])%elem_of_update_where; exact (Hf1 b Hin).
    + intros a (b & Hin & [[_ ->]|[Hnot ->]])%elem_of_update_where Hres; [done|]. left. split; [done|].
      fold st0. intros Hal. exfalso. apply Hnot. split; [|done]. apply open_alert_Some in Hpk as [? _]. congruence.
    + intros p Hp. congruence.
Qed.

Lemma evaluate_threshold_rule_inv rule candidates now db db' :
  monitor_inv db → rule ∈ rules db → ru_type rule = A_THRESHOLD →
  (∀ c d, c ∈ candidates → mdefs db !! cd_key c = Some d → md_is_blocked d = false) →
  evaluate_threshold_rule rule candidates now db = Ok db' → monitor_inv db'.
Proof.
  intros Hinv Hrule Hty Hb Hrun.
  apply (ofold_invariant (λ _ _ st, monitor_inv st ∧ rules st = rules db ∧ mdefs st = mdefs db)
    (evaluate_candidate rule now) candidates) with (st := db) in Hrun; [by destruct Hrun|clear Hrun|done].
  intros done c rest st st' Heq (Hi & Er & Em) Hstep.
  destruct (evaluate_candidate_inv rule now st c st') as (? & -> & ->); try done.
  - by rewrite Er.
  - intros d. rewrite Em. apply Hb. rewrite Heq. set_solver.
Qed.

Lemma check_rule_inv current definitions now db rule db' :
  monitor_inv db → check_rule current definitions now db rule = Ok db' → monitor_inv db'.
Proof.
  intros Hinv. unfold check_rule. case_decide; [by intros [= <-]|].
  destruct (head _) as [locked|] eqn:Hh; [|by intros [= <-]].
  apply head_elem_of, list_elem_of_filter in Hh as [(_ & Hty & _) Hin].
  apply evaluate_threshold_rule_inv; [done..|].
  intros c d [Hc _]%list_elem_of_filter Hd. by rewrite Hd in Hc.
Qed.

(** Resolving alerts keeps the invariant. *)
Lemma resolve_where_inv (P : Alert → Prop) `{∀ a, Decision (P a)} now db :
  monitor_inv db → monitor_inv (with_alerts (update_where P (resolve_row now)) db).
Proof.
  intros (Hr & Ho & [Hf1 Hf2] & Hu & Hw). split_and!; [done| |split; [|done]|done|done].
  - intros a r (b & Hin & [[_ ->]|[_ ->]])%elem_of_update_where Hres; [done|]. by apply Ho.
  - intros a (b & Hin & [[_ ->]|[_ ->]])%elem_of_update_where; exact (Hf1 b Hin).
Qed.

(** Dropping states keeps the invariant when no open alert needs them. *)
Lemma drop_states_inv (P : (Z * Z * string) * ThresholdState → Prop) `{∀ kv, Decision (P kv)} db :
  monitor_inv db →
  (∀ a r key st, a ∈ alerts db → al_resolved a = false → al_rule a = Some r → threshold_rule db r →
    states db !! (r, al_station a, key) = Some st → ts_alert st = Some (al_pk a) → P ((r, al_station a, key), st)) →
  monitor_inv (with_states (filter P) db).
Proof.
  intros (Hr & Ho & [Hf1 Hf2] & Hu & Hw) HP. split_and!; [done| |split; [done|]| |].
  - intros a r Hin Hres Hru Hth. destruct (Ho a r Hin Hres Hru Hth) as (key & st & Hl & Hal).
    exists key, st. split; [|done]. apply map_lookup_filter_Some. split; [done|]. by eapply HP.
  - intros k st p [Hl _]%map_lookup_filter_Some. by apply (Hf2 k st).
  - intros k1 k2 st1 st2 p [Hl1 _]%map_lookup_filter_Some [Hl2 _]%map_lookup_filter_Some. by apply (Hu k1 k2 st1 st2).
  - intros k st [Hl _]%map_lookup_filter_Some. by apply (Hw k st).
Qed.

Lemma reset_rule_inv r now db : monitor_inv db → monitor_inv (reset_rule_evaluation r now db).
Proof.
  intros Hinv. unfold reset_rule_evaluation, resolve_open_alerts.
  apply drop_states_inv; [by apply resolve_where_inv|].
  intros a r' key st (b & Hin & [[_ ->]|[Hn ->]])%elem_of_update_where Hres Hru _ _ _; [done|].
  simpl. intros ->. by apply Hn.
Qed.

Lemma reset_metric_inv key now db : monitor_inv db → monitor_inv (reset_metric_evaluation key now db).
Proof.
  intros Hinv. unfold reset_metric_evaluation.
  apply drop_states_inv; [by apply resolve_where_inv|].
  intros a r key' st (b & Hin & [[_ ->]|[Hn ->]])%elem_of_update_where Hres Hru _ Hl Hal; [done|].
  simpl. intros ->. apply Hn. split; [|done]. apply list_elem_of_omap. exists ((r, al_station b, key), st).
  split; [by apply elem_of_map_to_list|]. cbn [fst snd]. by rewrite decide_True.
Qed.

(** Changing rules keeps the invariant when the rules that become or cease to
    be threshold rules have neither open alerts nor states. *)
Lemma rules_change_inv db rules' :
  monitor_inv db → NoDup (ru_pk <$> rules') →
  (∀ r, ((∃ ru, ru ∈ rules' ∧ ru_pk ru = r ∧ ru_type ru = A_THRESHOLD) ↔ threshold_rule db r) ∨
    ((∀ a, a ∈ alerts db → al_resolved a = false → al_rule a ≠ Some r) ∧
     (∀ k st, states db !! k = Some st → k.1.1 ≠ r))) →
  monitor_inv (mkAlertDb rules' (alerts db) (states db) (mdefs db) (next_alert db)).
Proof.
  intros (_ & Ho & Hf & Hu & Hw) Hnd Hch. split_and!; [done| |done|done|].
  - intros a r Hin Hres Hru Hth. apply (Ho a r Hin Hres Hru).
    destruct (Hch r) as [Hiff|[Hno _]]; [by apply Hiff|]. by destruct (Hno a Hin Hres).
  - intros k st Hl. destruct (Hw k st Hl) as [Hth Hb]. split; [|done].
    destruct (Hch k.1.1) as [Hiff|[_ Hno]]; [by apply Hiff|]. by destruct (Hno k st Hl).
Qed.

Lemma save_rule_inv r now db : monitor_inv db → monitor_inv (save_rule r now db).
Proof.
  intros Hinv. pose proof Hinv as (Hnd & _).
  set (rules' := update_where (λ o, ru_pk o = ru_pk r) (λ _, r) (rules db)).
  assert (NoDup (ru_pk <$> rules')) as Hnd'.
  { unfold rules'. rewrite (fmap_update_where ru_pk); [done|]. by intros x ->. }
  assert (∀ q, q ≠ ru_pk r →
    ((∃ ru, ru ∈ rules' ∧ ru_pk ru = q ∧ ru_type ru = A_THRESHOLD) ↔ threshold_rule db q)) as Hother.
  { intros q Hq. unfold rules', threshold_rule. setoid_rewrite elem_of_update_where. split.
    - intros (ru & (o & Ho & [[Hpk ->]|[_ ->]]) & <- & Ht); [done|by exists o].
    - intros (ru & Hru & <- & Ht). exists ru. split; [|done]. exists ru. auto. }
  unfold save_rule. fold rules'.
  destruct (head _) as [old|] eqn:Hh.
  - apply head_elem_of, list_elem_of_filter in Hh as [Hpk Hin].
    destruct (bool_decide _ && evaluation_changed old r) eqn:Ec.
    + apply (rules_change_inv (reset_rule_evaluation (ru_pk r) now db) rules'); [by apply reset_rule_inv|done|].
      intros q. destruct (decide (q = ru_pk r)) as [->|Hq]; [right|left; by apply Hother]. split.
      * intros a (b & Hb & [[_ ->]|[Hn ->]])%elem_of_update_where Hres; [done|]. intros Hru. by apply Hn.
      * intros k st [_ Hk]%map_lookup_filter_Some. done.
    + apply (rules_change_inv db rules'); [done..|]. intros q. left.
      destruct (decide (q = ru_pk r)) as [->|Hq]; [|by apply Hother].
      assert (∀ o, o ∈ rules db → ru_pk o = ru_pk r → o = old) as Huniq.
      { intros o Ho E. eapply (NoDup_fmap_elem_inj ru_pk); [apply Hnd|done..|congruence]. }
      assert (ru_type r = A_THRESHOLD ↔ ru_type old = A_THRESHOLD) as Hty.
      { apply andb_false_iff in Ec as [Ec|Ec]; apply bool_decide_eq_false in Ec; [tauto|].
        assert (evaluation_fields old = evaluation_fields r) as E by (by apply dec_stable). by injection E as ->. }
      unfold rules', threshold_rule. setoid_rewrite elem_of_update_where. split.
      * intros (ru & (o & Ho & [[Ho' ->]|[Hn ->]]) & E & Ht); [|done]. exists old. by rewrite <-Hty.
      * intros (ru & Hru & E & Ht). rewrite (Huniq ru Hru E) in Ht. exists r. split; [|split; [done|by apply Hty]].
        exists old. auto.
  - assert (rules' = rules db) as ->; [|by destruct db].
    apply update_where_none. intros o Ho E.
    assert (filter (λ o, ru_pk o = ru_pk r) (rules db) ≠ []) as H by (apply filter_not_nil; eauto).
    by destruct (filter _ (rules db)).
Qed.

Lemma delete_rule_inv r now db : monitor_inv db → r ∈ rules db → monitor_inv (delete_rule r now db).
Proof.
  intros Hinv Hin. unfold delete_rule. set (db1 := if decide _ then _ else _).
  assert (monitor_inv db1) as (Hnd & Ho & [Hf1 Hf2] & Hu & Hw).
  { unfold db1. case_decide; [by apply resolve_where_inv|done]. }
  assert (∀ q, threshold_rule (mkAlertDb (filter (λ o, ru_pk o ≠ ru_pk r) (rules db1)) [] ∅ ∅ 0) q ↔
    threshold_rule db1 q ∧ q ≠ ru_pk r) as Hth.
  { intros q. unfold threshold_rule. cbn [rules]. setoid_rewrite list_elem_of_filter. naive_solver. }
  split_and!.
  - eapply sublist_NoDup; [apply Hnd|]. cbn [rules]. apply fmap_sublist, sublist_filter.
  - intros a q (b & Hb & [[_ ->]|[Hn ->]])%elem_of_update_where Hres Hru Hq; [done|].
    apply Hth in Hq as [Hq Hne]. destruct (Ho b q Hb Hres Hru Hq) as (key & st & Hl & Hal).
    exists key, st. split; [|done]. by apply map_lookup_filter_Some.
  - split.
    + intros a (b & Hb & [[_ ->]|[_ ->]])%elem_of_update_where; exact (Hf1 b Hb).
    + intros k st p [Hl _]%map_lookup_filter_Some. by apply (Hf2 k st).
  - intros k1 k2 st1 st2 p [Hl1 _]%map_lookup_filter_Some [Hl2 _]%map_lookup_filter_Some. by apply (Hu k1 k2 st1 st2).
  - intros k st [Hl Hk]%map_lookup_filter_Some. destruct (Hw k st Hl) as [Hq Hb].
    split; [by apply Hth|done].
Qed.

Lemma save_definition_inv key d now db : monitor_inv db → monitor_inv (save_definition key d now db).
Proof.
  intros Hinv. unfold save_definition. destruct (mdefs db !! key) as [old|] eqn:Hk; [|done].
  assert (∀ db', monitor_inv db' → mdefs db' = mdefs db →
    (md_is_blocked d = true → ∀ k st, states db' !! k = Some st → k.2 = key → md_is_blocked old = true) →
    monitor_inv (mkAlertDb (rules db') (alerts db') (states db') (<[key := d]> (mdefs db')) (next_alert db'))) as Hset.
  { intros db' (Hr & Ho & Hf & Hu & Hw) Em Hblk. split_and!; [done..|]. intros k st Hl. destruct (Hw k st Hl) as [Ht Hb].
    split; [done|]. cbn [mdefs]. intros d' [[Ek <-]|[_ Hd']]%lookup_insert_Some; [|by apply Hb].
    destruct (md_is_blocked d) eqn:Ed; [|done].
    assert (md_is_blocked old = false) as Hf' by (apply Hb; by rewrite <-Ek, Em).
    by rewrite (Hblk eq_refl k st Hl (eq_sym Ek)) in Hf'. }
  destruct (md_is_blocked d && negb (md_is_blocked old)) eqn:E.
  - apply (Hset (reset_metric_evaluation key now db)); [by apply reset_metric_inv|done|].
    intros _ k st [_ Hne]%map_lookup_filter_Some ?. done.
  - apply (Hset db); [done..|]. intros Ed. rewrite Ed in E. simpl in E. by destruct (md_is_blocked old).
Qed.

Lemma ingest_inv sha256 tel now hb db :
  monitor_inv db →
  monitor_inv (mkAlertDb (rules db) (alerts db) (states db)
    (i_db (ingest_metrics sha256 (λ d, d) (mdefs db) tel now hb)) (next_alert db)).
Proof.
  intros (Hr & Ho & Hf & Hu & Hw). split_and!; [done..|]. intros k st Hl. destruct (Hw k st Hl) as [Ht Hb].
  split; [done|]. cbn [mdefs]. intros d' Hd'.
  destruct (ingest_operator_fields sha256 (λ d, d) (mdefs db) tel now hb k.2) as [H1 H2]; [done|].
  destruct (mdefs db !! k.2) as [d|] eqn:E.
  - destruct (H1 d eq_refl) as (d2 & Hd2 & Heq). injection Heq as _ _ _ _ Hbl. specialize (Hb d eq_refl). congruence.
  - destruct (H2 d' Hd' eq_refl) as [Heq _]. by injection Heq.
Qed.

Lemma monitor_step_inv db db' : monitor_inv db → monitor_step db db' → monitor_inv db'.
Proof.
  intros Hinv Hstep. destruct Hstep as [current definitions now rule db' Hrun|r Hfresh Hnoal|r now|r now Hin|key d now
    |sha256 tel now hb|pk now|station rule severity now Hin Hty|P HP now].
  - by eapply check_rule_inv.
  - apply (rules_change_inv db (rules db ++ [r])); [done| |].
    + pose proof Hinv as (Hnd & _). rewrite fmap_app. apply list.NoDup_app. split_and!; [done| |apply NoDup_singleton].
      intros q Hq ->%list_elem_of_singleton. done.
    + intros q. destruct (decide (q = ru_pk r)) as [->|Hq]; [right|left].
      * split; [by auto|]. intros k st Hl. destruct Hinv as (_ & _ & _ & _ & Hw).
        destruct (Hw k st Hl) as [(ru & Hru & <- & _) _]. intros E. apply Hfresh. rewrite <-E. by apply list_elem_of_fmap_2.
      * unfold threshold_rule. setoid_rewrite elem_of_app. setoid_rewrite list_elem_of_singleton. naive_solver.
  - by apply save_rule_inv.
  - by apply delete_rule_inv.
  - by apply save_definition_inv.
  - by apply ingest_inv.
  - by apply resolve_where_inv.
  - destruct Hinv as (Hnd & Ho & [Hf1 Hf2] & Hu & Hw). split_and!; [done| | |done|done].
    + intros a r [Ha| ->%list_elem_of_singleton]%elem_of_app Hres Hru Hth; [by apply Ho|].
      destruct Hth as (ru & Hru' & E & Ht). injection Hru as <-.
      destruct Hty. by rewrite <-(NoDup_fmap_elem_inj ru_pk (rules db) ru rule).
    + split; cbn [create_alert fst alerts next_alert states].
      * intros a [Ha| ->%list_elem_of_singleton]%elem_of_app; [|simpl; lia]. specialize (Hf1 a Ha). lia.
      * intros k st p Hl Hal. specialize (Hf2 k st p Hl Hal). lia.
  - by apply resolve_where_inv.
Qed.

Lemma monitor_reachable_inv db : rtc monitor_step empty_monitor db → monitor_inv db.
Proof.
  intros Hrun. assert (monitor_inv empty_monitor) as H0.
  { split_and!; [constructor| | | |]; repeat intros ?; simplify_eq/=; try set_solver. split; intros ?; simpl; set_solver. }
  revert H0. induction Hrun as [db|db1 db2 db3 Hstep _ IH]; [done|]. intros H0. apply IH. by eapply monitor_step_inv.
Qed.

(** ** The abstract specification: stretches of the history

    A history is the list of the (time, breach) observations of one key, the
    latest first.  [streak want h] is where the stretch of [want] observations
    that ends now began; a gap longer than [OFFLINE_THRESHOLD] ends a stretch. *)

Notation History := (list (Z * bool)).

Fixpoint streak (want : bool) (h : History) : option Z :=
  match h with
  | [] => None
  | (t, b) :: h' =>
    if decide (b = want) then
      match h' with
      | (t', b') :: _ => if decide (b' = want ∧ t - t' ≤ OFFLINE_THRESHOLD) then streak want h' else Some t
      | [] => Some t
      end
    else None
  end.

(** The stretch of [want] has lasted for [d] at the latest observation. *)
Definition lasted (want : bool) (d : Z) (h : History) : bool :=
  match h, streak want h with
  | (t, _) :: _, Some s => bool_decide (d ≤ t - s)
  | _, _ => false
  end.

(** Whether an alert is open: it opens when a breach has lasted [d] and closes
    when the recovery has. *)
Fixpoint spec_open (d : Z) (h : History) : bool :=
  match h with
  | [] => false
  | _ :: h' => if spec_open d h' then negb (lasted false d h) else lasted true d h
  end.

(** *** The timers implement it *)

Definition open_after (verdict : Verdict) (open : bool) : bool :=
  match verdict with Keep => open | Fire => true | Resolve => false end.

Definition timers_agree (d : Z) (h : History) (st : ThresholdState) (open : bool) : Prop :=
  open = spec_open d h ∧
  (open = false → ts_ok st = None ∧ ts_breach st = streak true h) ∧
  (open = true → ts_ok st = streak false h) ∧
  (is_Some (ts_ok st) ∨ (is_Some (ts_breach st) ∧ open = false) → ts_last st = fst <$> head h).

Lemma streak_cons_eq want t h :
  streak want ((t, want) :: h) =
  match h with
  | (t', b') :: _ => if decide (b' = want ∧ t - t' ≤ OFFLINE_THRESHOLD) then streak want h else Some t
  | [] => Some t
  end.
Proof. cbn [streak]. by rewrite decide_True. Qed.

Lemma streak_cons_ne want t b h : b ≠ want → streak want ((t, b) :: h) = None.
Proof. intros Hb. cbn [streak]. by rewrite decide_False. Qed.

(** A running timer is what the stretch says after the gap check. *)
Lemma streak_step want t h (timer : option Z) :
  timer = streak want h →
  (is_Some timer → ∃ t' b' h', h = (t', b') :: h' ∧ b' = want) ∧
  streak want ((t, want) :: h) =
    Some (default t (match timer, fst <$> head h with
                     | Some x, Some t' => Some (if decide (OFFLINE_THRESHOLD < t - t') then t else x)
                     | _, _ => None
                     end)).
Proof.
  intros ->. rewrite streak_cons_eq. destruct h as [|[t' b'] h']; [split; [by intros [? ?]|done]|].
  destruct (decide (b' = want)) as [->|Hb].
  - assert (is_Some (streak want ((t', want) :: h'))) as [x Hx].
    { rewrite streak_cons_eq. clear. revert t'. induction h' as [|[t2 b2] h2 IH]; intros t'; [eauto|].
      case_decide as H; [|eauto]. destruct H as [-> _]. rewrite streak_cons_eq. apply IH. }
    split; [by intros _; eauto|]. rewrite Hx. cbn [head fmap option_fmap option_map fst].
    destruct (decide (OFFLINE_THRESHOLD < t - t')); [rewrite decide_False by lia|rewrite decide_True by (split; [done|lia])]; done.
  - rewrite streak_cons_ne by done. split; [by intros [? ?]|]. rewrite decide_False by (by intros [? _]). done.
Qed.

Lemma eval_state_agrees d h st open now breach :
  timers_agree d h st open →
  let '(st', verdict) := eval_state now d breach open st in
  timers_agree d ((now, breach) :: h) st' (open_after verdict open).
Proof.
  intros (Hopen & Hclosed & Hopened & Hlast). unfold eval_state.
  destruct open.
  - (* an open alert: only the recovery timer matters *)
    specialize (Hopened eq_refl). clear Hclosed.
    destruct (streak_step false now h (ts_ok st) Hopened) as [Hrun Hnext].
    set (g := gap_restart now true st).
    assert (default now (ts_ok g) = default now (match ts_ok st, fst <$> head h with
      | Some x, Some t' => Some (if decide (OFFLINE_THRESHOLD < now - t') then now else x) | _, _ => None end)) as Hg.
    { unfold g, gap_restart. destruct (ts_ok st) as [o|] eqn:Eo.
      - destruct (Hrun (ex_intro _ o eq_refl)) as (t' & b' & h' & -> & _). rewrite (Hlast (or_introl (ex_intro _ o eq_refl))).
        simpl. case_bool_decide; [by rewrite decide_True|rewrite decide_False by done; by rewrite Eo].
      - destruct (ts_last st); [case_bool_decide|]; simpl; by rewrite ?Eo. }
    destruct breach; cbn [negb andb].
    + unfold timers_agree. cbn [ts_ok ts_breach ts_last ts_alert open_after spec_open]. rewrite <-Hopen.
      unfold lasted. rewrite streak_cons_ne by done. rewrite bool_decide_false by (by intros [? ?]).
      cbn [orb]. rewrite bool_decide_true by eauto. cbn [andb negb]. split_and!; [done|done|done|].
      cbn [ts_ok ts_breach]. intros [[? ?]|[_ ?]]; done.
    + rewrite Hg. unfold timers_agree. cbn [spec_open]. rewrite <-Hopen. unfold lasted. rewrite Hnext.
      set (o := default now _). case_bool_decide as Hd; cbn [ts_ok ts_breach open_after].
      * rewrite !bool_decide_false by (by intros [? ?]). cbn.
        split_and!; [done|done|done|]. cbn. intros [[? ?]|[[? ?] _]]; done.
      * rewrite bool_decide_true by eauto. cbn [orb ts_ok ts_breach ts_last ts_alert].
        split_and!; done.
  - (* no open alert: only the breach timer matters *)
    destruct (Hclosed eq_refl) as [Hok Hbr]. clear Hclosed Hopened.
    destruct (streak_step true now h (ts_breach st) Hbr) as [Hrun Hnext].
    set (g := gap_restart now false st).
    assert (default now (ts_breach g) = default now (match ts_breach st, fst <$> head h with
      | Some x, Some t' => Some (if decide (OFFLINE_THRESHOLD < now - t') then now else x) | _, _ => None end)) as Hg.
    { unfold g, gap_restart. destruct (ts_breach st) as [o|] eqn:Eo.
      - destruct (Hrun (ex_intro _ o eq_refl)) as (t' & b' & h' & -> & _).
        rewrite (Hlast (or_intror (conj (ex_intro _ o eq_refl) eq_refl))).
        simpl. case_bool_decide; [by rewrite decide_True|rewrite decide_False by done; by rewrite Eo].
      - destruct (ts_last st); [case_bool_decide|]; simpl; by rewrite ?Eo. }
    destruct breach; cbn [negb andb].
    + rewrite Hg. unfold timers_agree. cbn [spec_open]. rewrite <-Hopen. unfold lasted. rewrite Hnext.
      set (o := default now _). case_bool_decide as Hd; cbn [ts_ok ts_breach open_after negb andb].
      * rewrite (bool_decide_false (is_Some None)) by (by intros [? ?]). rewrite bool_decide_true by eauto. cbn.
        split_and!; [done|done|done|]. cbn. intros [[? ?]|[_ ?]]; done.
      * rewrite (bool_decide_false (is_Some None)) by (by intros [? ?]). rewrite bool_decide_true by eauto.
        cbn [orb andb negb ts_ok ts_breach ts_last].
        split_and!; done.
    + unfold timers_agree. cbn [ts_ok ts_breach open_after spec_open]. rewrite <-Hopen.
      unfold lasted. rewrite streak_cons_ne by done. rewrite !bool_decide_false by (by intros [? ?]). cbn.
      split_and!; [done|done|done|]. intros [[? ?]|[[? ?] _]]; done.
Qed.

(** *** Lifting to the tables *)

Definition state_of (db : AlertDb) (k : Z * Z * string) : ThresholdState := default fresh_state (states db !! k).

(** The key has an open alert. *)
Definition key_open (db : AlertDb) (k : Z * Z * string) : bool := bool_decide (is_Some (open_alert (state_of db k) db)).

Definition timers (st : ThresholdState) := (ts_breach st, ts_ok st, ts_last st).

(** What a run observes of a candidate. *)
Definition observation (rule : AlertRule) (c : Candidate) : option bool :=
  let value := jget (aggregate_field (ru_aggregate rule)) (cd_sample c) in
  if is_number value then (λ v, compare (ru_operator rule) v (ru_threshold rule)) <$> py_float value else None.

Definition cand_key (rule : AlertRule) (c : Candidate) : Z * Z * string := (ru_pk rule, cd_station c, cd_key c).

Lemma key_open_alert db k p a :
  ts_alert (state_of db k) = Some p → a ∈ alerts db → al_pk a = p → al_resolved a = false → key_open db k = true.
Proof. intros. apply bool_decide_eq_true. exists p. apply open_alert_Some. eauto. Qed.

Lemma state_of_insert k st db : state_of (with_states (<[k := st]>) db) k = st.
Proof. unfold state_of. cbn [with_states states]. by rewrite lookup_insert_eq. Qed.

Lemma state_of_insert_ne k j st db : k ≠ j → state_of (with_states (<[k := st]>) db) j = state_of db j.
Proof. intros. unfold state_of. cbn [with_states states]. by rewrite lookup_insert_ne. Qed.

Lemma evaluate_candidate_key rule now db c db' :
  monitor_inv db → evaluate_candidate rule now db c = Ok db' →
  let k := cand_key rule c in
  match observation rule c with
  | None => db' = db
  | Some breach =>
    let '(st, verdict) := eval_state now (ru_duration rule * SECOND) breach (key_open db k) (state_of db k) in
    timers (state_of db' k) = timers st ∧ key_open db' k = open_after verdict (key_open db k)
  end.
Proof.
  intros Hinv. unfold evaluate_candidate, observation. set (value := jget _ _).
  destruct (is_number value); cbn [negb]; [|by intros [= <-]].
  fold (cand_key rule c). set (k := cand_key rule c). fold (state_of db k). fold (key_open db k).
  destruct (py_float value) as [v|]; [cbn [fmap option_fmap option_map]|done].
  set (breach := compare _ _ _).
  pose proof (eval_state_alert now (ru_duration rule * SECOND) breach (key_open db k) (state_of db k)) as Hv.
  destruct (eval_state _ _ _ _ _) as [st verdict].
  destruct verdict.
  - intros [= <-].
    assert (open_alert st db = open_alert (state_of db k) db) as Ho.
    { unfold open_alert. destruct Hv as [->|[Hc ->]]; [done|]. apply bool_decide_eq_false, eq_None_not_Some in Hc.
      symmetry. exact Hc. }
    case_decide as Heq; [by rewrite <-Heq|]. unfold key_open. rewrite !state_of_insert. split; [done|].
    cbn [open_after]. by rewrite <-Ho.
  - cbn [create_alert]. intros [= <-]. destruct Hv as [Hc _].
    assert (set_alert (Some (next_alert db)) st ≠ state_of db k) as Hne.
    { intros E. destruct Hinv as (_ & _ & [_ Hf] & _). unfold state_of in E.
      destruct (states db !! k) as [s|] eqn:Es; [|done]. simpl in E.
      specialize (Hf k s (next_alert db) Es). rewrite <-E in Hf. specialize (Hf eq_refl). lia. }
    rewrite decide_False by done. split; [by rewrite state_of_insert|]. cbn [open_after].
    apply (key_open_alert _ k (next_alert db)
      (mkAlert (next_alert db) (cd_station c) (Some (ru_pk rule)) (ru_severity rule) false None now)); [by rewrite state_of_insert| |done|done].
    cbn [with_states alerts]. apply elem_of_app. right. by left.
  - destruct Hv as [Hc Hnone]. apply bool_decide_eq_true in Hc as [pk Hpk]. rewrite Hpk. intros [= <-].
    assert (st ≠ state_of db k) as Hne.
    { intros ->. apply open_alert_Some in Hpk as [? _]. congruence. }
    rewrite decide_False by done. split; [by rewrite state_of_insert|]. cbn [open_after].
    unfold key_open. rewrite state_of_insert. apply bool_decide_eq_false. unfold open_alert. rewrite Hnone. by intros [? ?].
Qed.

Lemma evaluate_candidate_frame rule now db c db' j :
  monitor_inv db → evaluate_candidate rule now db c = Ok db' → cand_key rule c ≠ j →
  state_of db' j = state_of db j ∧ key_open db' j = key_open db j.
Proof.
  intros Hinv. unfold evaluate_candidate. set (value := jget _ _).
  destruct (is_number value); cbn [negb]; [|by intros [= <-]].
  fold (cand_key rule c). set (k := cand_key rule c). fold (state_of db k).
  destruct (py_float value) as [v|]; [|done]. destruct (eval_state _ _ _ _ _) as [st verdict].
  destruct Hinv as (_ & _ & [Hf1 Hf2] & Hu & _).
  assert (∀ db1 (st1 : ThresholdState), k ≠ j → states db1 = states db →
    (∀ p, ts_alert (state_of db j) = Some p → is_open_alert p db1 = is_open_alert p db) →
    let db2 := if decide (st1 = state_of db k) then db1 else with_states (<[k := st1]>) db1 in
    state_of db2 j = state_of db j ∧ key_open db2 j = key_open db j) as Hgen.
  { intros db1 st1 Hne Es Ha db2. assert (state_of db2 j = state_of db j) as E.
    { unfold db2. case_decide; rewrite ?state_of_insert_ne by done; unfold state_of; by rewrite Es. }
    split; [done|]. unfold key_open. rewrite E. apply bool_decide_ext. unfold open_alert.
    destruct (ts_alert (state_of db j)) as [p|] eqn:Ep; simpl; [|done].
    assert (is_open_alert p db2 = is_open_alert p db1) as -> by (unfold db2; by case_decide). by rewrite (Ha p). }
  destruct verdict.
  - intros [= <-] Hne. by apply Hgen.
  - cbn [create_alert]. intros [= <-] Hne. apply Hgen; [done..|]. intros p Hp.
    unfold is_open_alert. cbn [alerts]. rewrite existsb_app. cbn [existsb al_pk al_resolved].
    assert (p < next_alert db) as Hlt.
    { unfold state_of in Hp. destruct (states db !! j) as [s|] eqn:Es; [|done]. by apply (Hf2 j s). }
    rewrite bool_decide_false by lia. by rewrite orb_false_r.
  - intros [= <-] Hne. apply Hgen; [done..|]. intros p Hp.
    assert (open_alert (state_of db k) db ≠ Some p) as Hno.
    { intros [Hk _]%open_alert_Some. apply Hne. unfold state_of in Hk, Hp.
      destruct (states db !! k) as [sk|] eqn:Ek; [|done]. destruct (states db !! j) as [sj|] eqn:Ej; [|done].
      by eapply (Hu k j sk sj p). }
    apply eq_iff_eq_true. rewrite !is_open_alert_true. cbn [with_alerts alerts].
    setoid_rewrite elem_of_update_where. split.
    + intros (a & (b & Hb & [[_ ->]|[_ ->]]) & ? & ?); [done|eauto].
    + intros (a & Ha & Hpa & Hres). exists a. split; [|done]. exists a. split; [done|right].
      split; [|done]. intros [E _]. congruence.
Qed.

(** *** A sequence of runs *)

Record Run := mkRun {
  run_now : Z;
  run_current : list (Z * list (string * list (string * Json)));
  run_definitions : list string
}.

(** One telemetry row per station, distinct keys, numbers a float can hold. *)
Definition run_ok (run : Run) : Prop :=
  NoDup (run_current run).*1 ∧
  (∀ sm, sm ∈ run_current run → NoDup sm.2.*1 ∧
    ∀ ks field z, ks ∈ sm.2 → jget field ks.2 = JInt z → Z.abs z < FLOAT_OVERFLOW).

Definition run_rule (rule : AlertRule) (db : AlertDb) (run : Run) : outcome EngineError AlertDb :=
  check_rule (run_current run) (run_definitions run) (run_now run) db rule.

(** The candidates the transaction evaluates when it has read [rule]. *)
Definition run_candidates (rule : AlertRule) (db : AlertDb) (run : Run) : list Candidate :=
  filter (λ c, match mdefs db !! cd_key c with Some d => md_is_blocked d | None => false end = false)
    (threshold_candidates (run_current run) (run_definitions run) (ru_metric_key rule)).

Definition observed (rule : AlertRule) (k : Z * Z * string) (cs : list Candidate) : option bool :=
  match filter (λ c, cand_key rule c = k) cs with
  | c :: _ => observation rule c
  | [] => None
  end.

Definition extend (rule : AlertRule) (db : AlertDb) (k : Z * Z * string) (h : History) (run : Run) : History :=
  match observed rule k (run_candidates rule db run) with
  | Some b => (run_now run, b) :: h
  | None => h
  end.

Lemma elem_of_candidates current definitions pattern c :
  c ∈ threshold_candidates current definitions pattern →
  ∃ sm, sm ∈ current ∧ cd_station c = sm.1 ∧ (cd_key c, cd_sample c) ∈ sm.2.
Proof.
  intros (sm & Hc & Hsm)%list_elem_of_bind. apply list_elem_of_bind in Hc as ([key sample] & Hc & Hks).
  exists sm. destruct (bool_decide _ && _); [|by apply not_elem_of_nil in Hc].
  apply list_elem_of_singleton in Hc as ->. done.
Qed.

Lemma candidates_NoDup rule current definitions pattern :
  NoDup current.*1 → (∀ sm, sm ∈ current → NoDup sm.2.*1) →
  NoDup (cand_key rule <$> threshold_candidates current definitions pattern).
Proof.
  intros Hnd Hkeys. unfold threshold_candidates. induction current as [|[s samples] current IH]; [constructor|].
  apply list.NoDup_cons in Hnd as [Hs Hnd]. cbn [mbind list_bind]. rewrite fmap_app. apply list.NoDup_app. split_and!.
  - assert (NoDup samples.*1) as Hn by (apply (Hkeys (s, samples)); by left). clear -Hn. cbn [snd fst].
    induction samples as [|[key sample] samples IH]; [constructor|]. apply list.NoDup_cons in Hn as [Hk Hn].
    cbn [mbind list_bind]. rewrite fmap_app. apply list.NoDup_app. split_and!; [| |by apply IH].
    + destruct (_ && _); [apply NoDup_singleton|constructor].
    + destruct (_ && _); [|by intros ? ?%not_elem_of_nil]. intros k ->%list_elem_of_singleton.
      intros (c & E & Hc)%list_elem_of_fmap. apply list_elem_of_bind in Hc as ([key' sample'] & Hc & Hks).
      destruct (_ && _); [|by apply not_elem_of_nil in Hc]. apply list_elem_of_singleton in Hc as ->.
      unfold cand_key in E. simplify_eq/=. apply Hk. by apply (list_elem_of_fmap_2 fst) in Hks.
  - intros k (c & -> & Hc)%list_elem_of_fmap (c' & E & Hc')%list_elem_of_fmap.
    apply elem_of_candidates in Hc' as (sm & Hsm & Es & _).
    assert (c ∈ threshold_candidates [(s, samples)] definitions pattern) as Hc2.
    { unfold threshold_candidates. cbn [mbind list_bind]. rewrite app_nil_r. exact Hc. }
    apply elem_of_candidates in Hc2 as (sm' & ->%list_elem_of_singleton & Es' & _).
    unfold cand_key in E. apply Hs. assert (s = sm.1) as -> by (simplify_eq/=; congruence).
    by apply (list_elem_of_fmap_2 fst) in Hsm.
  - apply IH; [done|]. intros sm Hsm. apply Hkeys. by right.
Qed.

Lemma evaluate_rule_key rule now cs : ∀ db,
  monitor_inv db → rule ∈ rules db → ru_type rule = A_THRESHOLD →
  NoDup (cand_key rule <$> cs) →
  (∀ c d, c ∈ cs → mdefs db !! cd_key c = Some d → md_is_blocked d = false) →
  (∀ c z, c ∈ cs → jget (aggregate_field (ru_aggregate rule)) (cd_sample c) = JInt z → Z.abs z < FLOAT_OVERFLOW) →
  ∃ db', evaluate_threshold_rule rule cs now db = Ok db' ∧
  monitor_inv db' ∧ rules db' = rules db ∧ mdefs db' = mdefs db ∧
  ∀ k, match observed rule k cs with
  | None => state_of db' k = state_of db k ∧ key_open db' k = key_open db k
  | Some breach =>
    let '(st, verdict) := eval_state now (ru_duration rule * SECOND) breach (key_open db k) (state_of db k) in
    timers (state_of db' k) = timers st ∧ key_open db' k = open_after verdict (key_open db k)
  end.
Proof.
  unfold evaluate_threshold_rule.
  induction cs as [|c cs IH]; intros db Hinv Hin Hty Hnd Hb Hz; [by exists db|].
  rewrite fmap_cons, list.NoDup_cons in Hnd. destruct Hnd as [Hfresh Hnd].
  assert (∃ db1, evaluate_candidate rule now db c = Ok db1) as [db1 H1].
  { unfold evaluate_candidate. specialize (Hz c). destruct (jget _ _) as [| |z|f| | |]; cbn [is_number negb]; eauto.
    - cbn [py_float]. rewrite decide_False by (specialize (Hz z ltac:(by left) eq_refl); lia).
      destruct (eval_state _ _ _ _ _) as [? []]; cbn [create_alert]; eauto.
    - cbn [py_float]. destruct (eval_state _ _ _ _ _) as [? []]; cbn [create_alert]; eauto. }
  destruct (evaluate_candidate_inv rule now db c db1) as (Hinv1 & Er & Em); try done.
  { intros d. apply Hb. by left. }
  destruct (IH db1) as (db' & Hrun & Hinv' & Er' & Em' & Hk); try done.
  { by rewrite Er. }
  { intros c' d Hc'. rewrite Em. apply Hb. by right. }
  { intros c' z Hc'. apply Hz. by right. }
  exists db'. cbn [ofold]. rewrite H1. cbn [obind]. split_and!; [done|done|congruence|congruence|].
  intros k. unfold observed. rewrite filter_cons. specialize (Hk k). unfold observed in Hk.
  destruct (decide (cand_key rule c = k)) as [<-|Hne].
  - pose proof (evaluate_candidate_key rule now db c db1 Hinv H1) as H2. cbn zeta in H2.
    assert (filter (λ c', cand_key rule c' = cand_key rule c) cs = []) as Hnil.
    { destruct (filter _ cs) as [|c' l] eqn:E; [done|].
      assert (c' ∈ filter (λ c', cand_key rule c' = cand_key rule c) cs) as [Hc' Hin']%list_elem_of_filter by (rewrite E; by left).
      destruct Hfresh. rewrite <-Hc'. by apply list_elem_of_fmap_2. }
    rewrite Hnil in Hk. destruct Hk as [-> ->]. destruct (observation rule c); [done|by subst].
  - destruct (evaluate_candidate_frame rule now db c db1 k Hinv H1 Hne) as [<- <-]. done.
Qed.

Lemma run_rule_key rule db run :
  monitor_inv db → rule ∈ rules db → ru_type rule = A_THRESHOLD → ru_active rule = true → run_ok run →
  ∃ db', run_rule rule db run = Ok db' ∧ monitor_inv db' ∧ rules db' = rules db ∧ mdefs db' = mdefs db ∧
  ∀ k d h, d = ru_duration rule * SECOND → timers_agree d h (state_of db k) (key_open db k) →
    timers_agree d (extend rule db k h run) (state_of db' k) (key_open db' k).
Proof.
  intros Hinv Hin Hty Hact [Hn1 Hn2]. unfold run_rule, check_rule.
  set (cands := threshold_candidates (run_current run) (run_definitions run) (ru_metric_key rule)).
  destruct (decide (cands = [])) as [Hnil|_].
  { exists db. split_and!; [done..|]. intros k d h _ Ha. unfold extend, run_candidates. fold cands. by rewrite Hnil. }
  assert (head (filter (λ r, ru_pk r = ru_pk rule ∧ ru_type r = A_THRESHOLD ∧ ru_active r = true) (rules db)) = Some rule) as ->.
  { destruct (filter _ (rules db)) as [|r l] eqn:E.
    - exfalso. assert (rule ∈ filter (λ r, ru_pk r = ru_pk rule ∧ ru_type r = A_THRESHOLD ∧ ru_active r = true) (rules db)) as H
        by (by apply list_elem_of_filter). rewrite E in H. by apply not_elem_of_nil in H.
    - assert (r ∈ filter (λ r, ru_pk r = ru_pk rule ∧ ru_type r = A_THRESHOLD ∧ ru_active r = true) (rules db))
        as [[Hpk _] Hr]%list_elem_of_filter by (rewrite E; by left).
      simpl. f_equal. destruct Hinv as (Hnd & _). by eapply (NoDup_fmap_elem_inj ru_pk). }
  fold cands. fold (run_candidates rule db run).
  assert (∀ c, c ∈ run_candidates rule db run → c ∈ cands) as Hsub by (intros c [_ ?]%list_elem_of_filter; done).
  destruct (evaluate_rule_key rule (run_now run) (run_candidates rule db run) db) as (db' & Hrun & Hinv' & Er & Em & Hk);
    try done.
  - eapply sublist_NoDup; [apply candidates_NoDup; [apply Hn1|intros sm Hsm; by apply Hn2]|].
    apply fmap_sublist, sublist_filter.
  - intros c d [Hc _]%list_elem_of_filter Hd. by rewrite Hd in Hc.
  - intros c z Hc Hz. apply Hsub, elem_of_candidates in Hc as (sm & Hsm & _ & Hks).
    by eapply (proj2 (Hn2 sm Hsm) (cd_key c, cd_sample c)).
  - exists db'. split_and!; [done..|]. intros k d h -> Ha. specialize (Hk k). unfold extend.
    destruct (observed rule k (run_candidates rule db run)) as [b|]; [|by destruct Hk as [-> ->]].
    pose proof (eval_state_agrees _ h _ _ (run_now run) b Ha) as Hagree.
    destruct (eval_state _ _ _ _ _) as [st verdict]. destruct Hk as [Ht ->].
    unfold timers in Ht. injection Ht as E1 E2 E3. unfold timers_agree in *. by rewrite E1, E2, E3.
Qed.

Lemma runs_agree rule k runs : ∀ db h,
  monitor_inv db → rule ∈ rules db → ru_type rule = A_THRESHOLD → ru_active rule = true → Forall run_ok runs →
  timers_agree (ru_duration rule * SECOND) h (state_of db k) (key_open db k) →
  ∃ db', ofold (run_rule rule) db runs = Ok db' ∧
    timers_agree (ru_duration rule * SECOND) (foldl (extend rule db k) h runs) (state_of db' k) (key_open db' k).
Proof.
  induction runs as [|run runs IH]; intros db h Hinv Hin Hty Hact Hok Ha; [by exists db|].
  apply Forall_cons in Hok as [Hrun Hok].
  destruct (run_rule_key rule db run Hinv Hin Hty Hact Hrun) as (db1 & H1 & Hinv1 & Er & Em & Hk).
  destruct (IH db1 (extend rule db k h run)) as (db' & H2 & Ha'); try done; [by rewrite Er|by apply Hk|].
  exists db'. cbn [ofold foldl]. rewrite H1. split; [done|]. clear -Ha' Em.
  assert (∀ h r, extend rule db1 k h r = extend rule db k h r) as E
    by (intros ? ?; unfold extend, run_candidates; by rewrite Em).
  revert Ha'. generalize (extend rule db k h run). induction runs as [|r runs IH]; intros h0; [done|].
  cbn [foldl]. rewrite E. apply IH.
Qed.

(** ** Properties *)

(** C5. Alerts follow sustained stretches, across runs and restarts: from a key
    without a state, whatever a sequence of runs observes of it, the runs
    succeed and the key has an open alert exactly when the abstract history
    machine says so: opened by a breach and closed by a recovery that lasted
    the rule's duration, where runs without a current value neither count nor
    reset and a gap of more than five minutes restarts the stretch. *)
Theorem threshold_refines_streaks rule db runs k :
  rtc monitor_step empty_monitor db → rule ∈ rules db → ru_type rule = A_THRESHOLD → ru_active rule = true →
  Forall run_ok runs → states db !! k = None →
  ∃ db', ofold (run_rule rule) db runs = Ok db' ∧
    key_open db' k = spec_open (ru_duration rule * SECOND) (foldl (extend rule db k) [] runs).
Proof.
  intros Hinv%monitor_reachable_inv Hin Hty Hact Hok Hk.
  assert (state_of db k = fresh_state) as Hst by (unfold state_of; by rewrite Hk).
  assert (key_open db k = false) as Ho by (unfold key_open; by rewrite Hst).
  destruct (runs_agree rule k runs db [] Hinv Hin Hty Hact Hok) as (db' & Hrun & [Hopen _]); [|by exists db'].
  rewrite Hst, Ho. split_and!; done.
Qed.

Definition hot_rule : AlertRule :=
  mkRule 1 A_THRESHOLD (float_of_Z 80) CRITICAL true "" "cpu hot" "cpu.temp_c" (Some GT) AVG 60.

Definition sample_run (at_s degrees : Z) : Run :=
  mkRun (at_s * SECOND) [(7, [("cpu.temp_c", [("avg", JInt degrees)])])] ["cpu.temp_c"].

(** Hot for 61 s with a gap of ten minutes: the gap does not count. *)
Definition sample_runs : list Run := [sample_run 0 90; sample_run 30 91; sample_run 630 92; sample_run 691 93].

Lemma sample_run_ok at_s degrees : Z.abs degrees < FLOAT_OVERFLOW → run_ok (sample_run at_s degrees).
Proof.
  intros Hd. split; [apply NoDup_singleton|]. intros sm ->%list_elem_of_singleton. split; [apply NoDup_singleton|].
  intros ks field z ->%list_elem_of_singleton. cbn [jget snd]. case_decide; intros [= <-]; done.
Qed.

Definition hot_db : AlertDb := create_rule hot_rule empty_monitor.

Lemma hot_db_reachable : rtc monitor_step empty_monitor hot_db.
Proof.
  apply rtc_once. apply (S_create_rule empty_monitor hot_rule); [apply not_elem_of_nil|].
  intros a Ha. by apply not_elem_of_nil in Ha.
Qed.

Lemma threshold_refines_streaks_witness :
  ∃ db', ofold (run_rule hot_rule) hot_db sample_runs = Ok db' ∧
    key_open db' (1, 7, "cpu.temp_c") = true.
Proof.
  destruct (threshold_refines_streaks hot_rule hot_db sample_runs (1, 7, "cpu.temp_c")) as (db' & Hrun & Hopen).
  - apply hot_db_reachable.
  - left.
  - reflexivity.
  - reflexivity.
  - unfold sample_runs. repeat (apply Forall_cons; split; [apply sample_run_ok; reflexivity|]). apply Forall_nil. exact I.
  - reflexivity.
  - exists db'. split; [exact Hrun|]. rewrite Hopen. vm_compute. reflexivity.
Defined.

(** C18. No orphaned alerts: whatever interleaving of rule evaluations (on stale
    loads), rule creations, edits and deletions, metric blocks, heartbeats,
    operator resolutions and event alerts has happened, an open alert of a
    threshold rule belongs to exactly one state of that rule and station, so
    that a later run can resolve it, and the state's metric is not blocked. *)
Theorem no_orphan_alerts db a r :
  rtc monitor_step empty_monitor db →
  a ∈ alerts db → al_resolved a = false → al_rule a = Some r → threshold_rule db r →
  ∃ key st, states db !! (r, al_station a, key) = Some st ∧ ts_alert st = Some (al_pk a) ∧
    (∀ k' st', states db !! k' = Some st' → ts_alert st' = Some (al_pk a) → k' = (r, al_station a, key)) ∧
    (∀ d, mdefs db !! key = Some d → md_is_blocked d = false).
Proof.
  intros (_ & Ho & _ & Hu & Hw)%monitor_reachable_inv Ha Hres Hru Hth.
  destruct (Ho a r Ha Hres Hru Hth) as (key & st & Hl & Hal). exists key, st. split_and!; [done|done| |].
  - intros k' st' Hl' Hal'. by eapply (Hu k').
  - by apply (proj2 (Hw _ _ Hl)).
Qed.

Lemma no_orphan_alerts_witness :
  ∃ db a, rtc monitor_step empty_monitor db ∧ a ∈ alerts db ∧ al_resolved a = false ∧
    ∃ key st, states db !! (1, al_station a, key) = Some st ∧ ts_alert st = Some (al_pk a).
Proof.
  destruct (ofold (run_rule hot_rule) hot_db [sample_run 0 90; sample_run 60 90]) as [db|e] eqn:E;
    [|vm_compute in E; discriminate].
  assert (rtc monitor_step empty_monitor db) as Hr.
  { apply (transitivity hot_db_reachable). cbn [ofold] in E.
    destruct (run_rule hot_rule hot_db (sample_run 0 90)) as [db1|] eqn:E1; [|discriminate]. cbn [obind] in E.
    destruct (run_rule hot_rule db1 (sample_run 60 90)) as [db2|] eqn:E2; [|discriminate]. cbn [obind] in E.
    injection E as <-. eapply rtc_l; [eapply S_check; exact E1|]. eapply rtc_once, S_check. exact E2. }
  vm_compute in E. injection E as E.
  exists db, (mkAlert 0 7 (Some 1) CRITICAL false None 60000000).
  assert (mkAlert 0 7 (Some 1) CRITICAL false None 60000000 ∈ alerts db) as Ha by (rewrite <-E; left).
  split; [exact Hr|]. split; [exact Ha|]. split; [reflexivity|].
  destruct (no_orphan_alerts db (mkAlert 0 7 (Some 1) CRITICAL false None 60000000) 1 Hr Ha eq_refl eq_refl)
    as (key & st & H1 & H2 & _).
  - exists hot_rule. rewrite <-E. split; [left|]. split; reflexivity.
  - exists key, st. split; [exact H1|exact H2].
Defined.
