(* ===== verification/AlertEvents.v ===== *)
(** * Event alerts and the status sweep

    Models the event half of [apps/monitoring/engine.py] (station offline, OTA
    failed, unexpected reboot, power, storage), [check_alerts], and the sweep
    [apps/stations/tasks.py] that marks silent stations offline.

    The station, telemetry and deployment-result rows are the columns these
    checks read; the alerts are those of [Thresholds].  Each check reads the
    clock once, the argument [now]. *)

From Stdlib Require Import ZArith Lia SpecFloat.
From stdpp Require Import base gmap list strings.
From S2P Require Import Prelude Json Deployments Metrics Thresholds.

Local Open Scope Z_scope.

(** ** Tables *)

Inductive StationStatus := ST_ONLINE | ST_OFFLINE | ST_UPDATING | ST_ERROR.

#[export] Instance StationStatus_eq_dec : EqDecision StationStatus.
Proof. solve_decision. Defined.

Record StationSeen := mkSeen { ss_pk : Z; ss_last_seen : option Z; ss_status : StationStatus }.

Record StationTelemetry := mkTel {
  tl_station : Z;
  tl_boot_id : string;
  tl_last_reboot_reason : string;
  tl_last_reboot_at : option Z;
  tl_undervoltage_now : option bool;
  tl_undervoltage_occurred : option bool;
  tl_throttled_now : option bool;
  tl_throttled_occurred : option bool;
  tl_power_alerted_boot_id : string;
  tl_worst_life_time_pct : option Z;
  tl_worst_pre_eol : string;
  tl_io_error_count : Z;
  tl_alerted_io_error_count : Z;
  tl_metrics : Json
}.

Definition set_power_alerted (s : string) (t : StationTelemetry) : StationTelemetry :=
  mkTel (tl_station t) (tl_boot_id t) (tl_last_reboot_reason t) (tl_last_reboot_at t) (tl_undervoltage_now t)
    (tl_undervoltage_occurred t) (tl_throttled_now t) (tl_throttled_occurred t) s (tl_worst_life_time_pct t)
    (tl_worst_pre_eol t) (tl_io_error_count t) (tl_alerted_io_error_count t) (tl_metrics t).

Definition set_alerted_io (n : Z) (t : StationTelemetry) : StationTelemetry :=
  mkTel (tl_station t) (tl_boot_id t) (tl_last_reboot_reason t) (tl_last_reboot_at t) (tl_undervoltage_now t)
    (tl_undervoltage_occurred t) (tl_throttled_now t) (tl_throttled_occurred t) (tl_power_alerted_boot_id t)
    (tl_worst_life_time_pct t) (tl_worst_pre_eol t) (tl_io_error_count t) n (tl_metrics t).

Record EventDb := mkEventDb {
  e_monitor : AlertDb;
  e_stations : list StationSeen;
  e_tels : list StationTelemetry;
  e_results : list DeploymentResult
}.

Definition with_monitor (m : AlertDb) (db : EventDb) : EventDb :=
  mkEventDb m (e_stations db) (e_tels db) (e_results db).

(** ** Helpers *)

Definition get_active_rule (ty : AlertType) (m : AlertDb) : option AlertRule :=
  head (filter (λ r, ru_type r = ty ∧ ru_active r = true) (rules m)).

(** [alert_rule__alert_type] of an alert: the join over its rule. *)
Definition alert_type_of (m : AlertDb) (a : Alert) : option AlertType :=
  r ← al_rule a; ru_type <$> head (filter (λ ru, ru_pk ru = r) (rules m)).

(** The unresolved alerts of a type and station. *)
Definition unresolved (ty : AlertType) (station : Z) (m : AlertDb) : list Alert :=
  filter (λ a, al_resolved a = false ∧ al_station a = station ∧ alert_type_of m a = Some ty) (alerts m).

Notation Cache := (list (Z * option AlertType)).

(** [_build_unresolved_cache] *)
Definition build_unresolved_cache (m : AlertDb) : Cache :=
  (λ a, (al_station a, alert_type_of m a)) <$> filter (λ a, al_resolved a = false) (alerts m).

(** [_has_unresolved_alert]: looks into the prefetched cache if there is one. *)
Definition has_unresolved_alert (cache : option Cache) (station : Z) (ty : AlertType) (m : AlertDb) : bool :=
  match cache with
  | Some c => bool_decide ((station, Some ty) ∈ c)
  | None => bool_decide (unresolved ty station m ≠ [])
  end.

Definition auto_resolve (ty : AlertType) (station now : Z) (m : AlertDb) : AlertDb :=
  with_alerts (update_where (λ a, al_resolved a = false ∧ al_station a = station ∧ alert_type_of m a = Some ty)
    (resolve_row now)) m.

(** A loop that creates alerts: the tables and the keys of the new alerts. *)
Notation Result := (AlertDb * list Z)%type.

Definition new_alert (station : Z) (rule : AlertRule) (severity : option Severity) (now : Z) (acc : Result) : Result :=
  let '(m, pk) := create_alert station rule severity now acc.1 in (m, acc.2 ++ [pk]).

(** ** The checks *)

Definition REBOOT_CHECK_WINDOW : Z := 10 * 60 * SECOND.
Definition OTA_CHECK_WINDOW : Z := 5 * 60 * SECOND.
Definition UNEXPECTED_REBOOT_REASONS : list string := ["crash"; "watchdog"; "undervoltage"; "unknown"].

Definition check_unexpected_reboot (tels : list StationTelemetry) (now : Z) (m : AlertDb) : Result :=
  match get_active_rule A_UNEXPECTED_REBOOT m with
  | None => (m, [])
  | Some rule =>
    foldl (λ acc tel,
        match tl_last_reboot_at tel with
        | Some at_ =>
          if decide (now - REBOOT_CHECK_WINDOW ≤ at_ ∧ tl_last_reboot_reason tel ∈ UNEXPECTED_REBOOT_REASONS) then
            if existsb (λ a, bool_decide (al_station a = tl_station tel ∧
                 alert_type_of acc.1 a = Some A_UNEXPECTED_REBOOT ∧ at_ ≤ al_created_at a)) (alerts acc.1)
            then acc else new_alert (tl_station tel) rule None now acc
          else acc
        | None => acc
        end) (m, []) tels
  end.

Definition truthy (b : option bool) : bool := default false b.

(** [tel.boot_id or "∅"] *)
Definition NO_BOOT : string := "∅".
Definition episode_key (tel : StationTelemetry) : string :=
  if decide (tl_boot_id tel = "") then NO_BOOT else tl_boot_id tel.

Definition is_now (tel : StationTelemetry) : bool := truthy (tl_undervoltage_now tel) || truthy (tl_throttled_now tel).
Definition occurred (tel : StationTelemetry) : bool :=
  truthy (tl_undervoltage_occurred tel) || truthy (tl_throttled_occurred tel).

Definition escalate (pk : Z) (m : AlertDb) : AlertDb :=
  with_alerts (update_where (λ a, al_pk a = pk)
    (λ a, mkAlert (al_pk a) (al_station a) (al_rule a) CRITICAL (al_resolved a) (al_resolved_at a) (al_created_at a))) m.

(** One iteration of the power loop: the tables, the telemetry row and the
    alerts to notify. *)
Definition power_step (rule : AlertRule) (now : Z) (m : AlertDb) (tel : StationTelemetry) :
    AlertDb * StationTelemetry * list Z :=
  if negb (occurred tel) then (m, tel, [])
  else
    let existing := head (sort_by (λ a, - al_created_at a) (unresolved A_POWER_WARNING (tl_station tel) m)) in
    if is_now tel then
      match existing with
      | None => let '(m', pk) := create_alert (tl_station tel) rule (Some CRITICAL) now m in (m', tel, [pk])
      | Some a => if decide (al_severity a = WARNING) then (escalate (al_pk a) m, tel, [al_pk a]) else (m, tel, [])
      end
    else
      match existing with
      | None =>
        if decide (tl_power_alerted_boot_id tel ≠ episode_key tel) then
          let '(m', pk) := create_alert (tl_station tel) rule (Some WARNING) now m in
          (m', set_power_alerted (episode_key tel) tel, [pk])
        else (m, tel, [])
      | Some _ => (m, tel, [])
      end.

Fixpoint power_loop (rule : AlertRule) (now : Z) (m : AlertDb) (tels : list StationTelemetry) :
    AlertDb * list StationTelemetry * list Z :=
  match tels with
  | [] => (m, [], [])
  | tel :: tels' =>
    let '(m1, tel1, new1) := power_step rule now m tel in
    let '(m2, tels2, new2) := power_loop rule now m1 tels' in
    (m2, tel1 :: tels2, new1 ++ new2)
  end.

(** Both [*_now] bits are known to be false. *)
Definition cleared (tel : StationTelemetry) : Prop :=
  tl_undervoltage_now tel = Some false ∧ tl_throttled_now tel = Some false.

#[export] Instance cleared_dec tel : Decision (cleared tel).
Proof. unfold cleared. apply _. Defined.

Definition check_power_warning (tels : list StationTelemetry) (now : Z) (m : AlertDb) :
    AlertDb * list StationTelemetry * list Z :=
  match get_active_rule A_POWER_WARNING m with
  | None => (m, tels, [])
  | Some rule =>
    let '(m1, tels1, new) := power_loop rule now m tels in
    let cleared_ids := tl_station <$> filter cleared tels1 in
    (with_alerts (update_where (λ a, alert_type_of m1 a = Some A_POWER_WARNING ∧ al_resolved a = false ∧
        al_station a ∈ cleared_ids) (resolve_row now)) m1, tels1, new)
  end.

Fixpoint check_storage_loop (cache : option Cache) (rule : AlertRule) (now : Z) (acc : Result)
    (tels : list StationTelemetry) : Result * list StationTelemetry :=
  match tels with
  | [] => (acc, [])
  | tel :: tels' =>
    let urgent := bool_decide (tl_worst_pre_eol tel = "urgent") in
    let warning := bool_decide (tl_worst_pre_eol tel = "warning") in
    let high_wear := SFleb (ru_threshold rule) (float_of_Z (default 0 (tl_worst_life_time_pct tel))) in
    let io_errors := bool_decide (tl_alerted_io_error_count tel < tl_io_error_count tel) in
    let '(acc1, tel1) :=
      if negb (urgent || warning || high_wear || io_errors) then (acc, tel)
      else if has_unresolved_alert cache (tl_station tel) A_STORAGE_HEALTH acc.1 then (acc, tel)
      else (new_alert (tl_station tel) rule (Some (if urgent || high_wear then CRITICAL else WARNING)) now acc,
            if io_errors then set_alerted_io (tl_io_error_count tel) tel else tel) in
    let '(acc2, tels2) := check_storage_loop cache rule now acc1 tels' in
    (acc2, tel1 :: tels2)
  end.

Definition check_storage_health (cache : option Cache) (tels : list StationTelemetry) (now : Z) (m : AlertDb) :
    Result * list StationTelemetry :=
  match get_active_rule A_STORAGE_HEALTH m with
  | None => ((m, []), tels)
  | Some rule => check_storage_loop cache rule now (m, []) tels
  end.

(** [last_seen__lt] and [last_seen__gte]: a station never seen is neither. *)
Definition seen_before (cutoff : Z) (s : StationSeen) : Prop :=
  match ss_last_seen s with Some t => t < cutoff | None => False end.
Definition seen_since (cutoff : Z) (s : StationSeen) : Prop :=
  match ss_last_seen s with Some t => cutoff ≤ t | None => False end.

#[export] Instance seen_before_dec cutoff s : Decision (seen_before cutoff s).
Proof. unfold seen_before. destruct (ss_last_seen s); apply _. Defined.
#[export] Instance seen_since_dec cutoff s : Decision (seen_since cutoff s).
Proof. unfold seen_since. destruct (ss_last_seen s); apply _. Defined.

Definition check_station_offline (cache : option Cache) (stations : list StationSeen) (now : Z) (m : AlertDb) : Result :=
  match get_active_rule A_STATION_OFFLINE m with
  | None => (m, [])
  | Some rule =>
    let cutoff := now - OFFLINE_THRESHOLD in
    let stale := filter (λ s, seen_before cutoff s ∧ ss_status s ≠ ST_OFFLINE) stations in
    let acc := foldl (λ acc s,
        if has_unresolved_alert cache (ss_pk s) A_STATION_OFFLINE acc.1 then acc
        else new_alert (ss_pk s) rule None now acc) (m, []) stale in
    (foldl (λ m s, auto_resolve A_STATION_OFFLINE (ss_pk s) now m) acc.1 (filter (seen_since cutoff) stations), acc.2)
  end.

Definition check_ota_failed (cache : option Cache) (results : list DeploymentResult) (now : Z) (m : AlertDb) : Result :=
  match get_active_rule A_OTA_FAILED m with
  | None => (m, [])
  | Some rule =>
    let cutoff := now - OTA_CHECK_WINDOW in
    let failed := filter (λ r, (res_status r = R_FAILED ∨ res_status r = R_ROLLED_BACK) ∧
        from_option (λ t, bool_decide (cutoff ≤ t)) false (completed_at r) = true) results in
    foldl (λ acc r,
        if has_unresolved_alert cache (res_station r) A_OTA_FAILED acc.1 then acc
        else new_alert (res_station r) rule None now acc) (m, []) failed
  end.

(** [mark_stale_stations_offline], run by its own loop. *)
Definition SWEEP_THRESHOLD : Z := 2 * 60 * SECOND.

Definition mark_stale_stations_offline (now : Z) (stations : list StationSeen) : list StationSeen :=
  update_where (λ s, ss_status s = ST_ONLINE ∧ seen_before (now - SWEEP_THRESHOLD) s)
    (λ s, mkSeen (ss_pk s) (ss_last_seen s) ST_OFFLINE) stations.

Section check.
Variable fromisoformat : string → option Z.

(** [check_alerts] *)
Definition check_alerts (now : Z) (db : EventDb) : outcome EngineError (EventDb * list Z) :=
  let cache := Some (build_unresolved_cache (e_monitor db)) in
  let '(m1, n1) := check_station_offline cache (e_stations db) now (e_monitor db) in
  let '(m2, n2) := check_ota_failed cache (e_results db) now m1 in
  let '(m3, n3) := check_unexpected_reboot (e_tels db) now m2 in
  let '(m4, tels4, n4) := check_power_warning (e_tels db) now m3 in
  let '((m5, n5), tels5) := check_storage_health cache tels4 now m4 in
  let seen pk := s ← head (filter (λ s, ss_pk s = pk) (e_stations db)); ss_last_seen s in
  obind (check_thresholds fromisoformat ((λ t, (tl_station t, seen (tl_station t), tl_metrics t)) <$> tels5) now m5)
    (λ m6, let n6 := al_pk <$> filter (λ a, next_alert m5 ≤ al_pk a) (alerts m6) in
      Ok (mkEventDb m6 (e_stations db) tels5 (e_results db), n1 ++ n2 ++ n3 ++ n4 ++ n5 ++ n6)).

End check.

(** ** Lemmas *)

(** Distinct keys below the next one; the rules are not touched by checks. *)
Definition keys_ok (m : AlertDb) : Prop :=
  NoDup (al_pk <$> alerts m) ∧ ∀ a, a ∈ alerts m → al_pk a < next_alert m.

(** The type of an alert only depends on the rules. *)
Lemma alert_type_of_rules m m' a : rules m' = rules m → alert_type_of m' a = alert_type_of m a.
Proof. unfold alert_type_of. by intros ->. Qed.

Lemma active_rule_type ty rule m : NoDup (ru_pk <$> rules m) → get_active_rule ty m = Some rule →
  ∀ a, al_rule a = Some (ru_pk rule) → alert_type_of m a = Some ty.
Proof.
  intros Hnd Hr a Ha. apply head_elem_of, list_elem_of_filter in Hr as [[Hty _] Hin].
  unfold alert_type_of. rewrite Ha. simpl.
  destruct (head (filter (λ ru, ru_pk ru = ru_pk rule) (rules m))) as [ru|] eqn:E.
  - apply head_elem_of, list_elem_of_filter in E as [Hpk Hin']. simpl.
    assert (ru = rule) as -> by (by apply (NoDup_fmap_elem_inj ru_pk (rules m))). by rewrite Hty.
  - assert (filter (λ ru, ru_pk ru = ru_pk rule) (rules m) ≠ []) as H by (apply filter_not_nil; eauto).
    by destruct (filter _ (rules m)).
Qed.

Section power.
Context (rule : AlertRule) (now : Z).

(** What the power check needs of the tables. *)
Definition power_ok (m : AlertDb) : Prop :=
  keys_ok m ∧ NoDup (ru_pk <$> rules m) ∧ get_active_rule A_POWER_WARNING m = Some rule ∧
  ∀ s, (length (unresolved A_POWER_WARNING s m) ≤ 1)%nat.

Lemma unresolved_create s severity m t :
  power_ok m →
  unresolved A_POWER_WARNING t (create_alert s rule severity now m).1 =
  unresolved A_POWER_WARNING t m ++
    if decide (t = s) then [mkAlert (next_alert m) s (Some (ru_pk rule)) (default (ru_severity rule) severity) false None now]
    else [].
Proof.
  intros (_ & Hnd & Hr & _). unfold unresolved. cbn [create_alert fst alerts].
  assert (∀ a, alert_type_of (create_alert s rule severity now m).1 a = alert_type_of m a) as Hty by (intros; by apply alert_type_of_rules).
  cbn [create_alert fst] in Hty. rewrite filter_app. f_equal.
  destruct (decide (t = s)) as [->|Hs].
  - rewrite filter_cons_True; [done|]. split_and!; [done|done|]. rewrite Hty. by apply active_rule_type with rule.
  - rewrite filter_cons_False; [done|]. intros (_ & E & _). by apply Hs.
Qed.

Lemma power_ok_create s severity m :
  power_ok m → unresolved A_POWER_WARNING s m = [] → power_ok (create_alert s rule severity now m).1.
Proof.
  intros Hok Hnil. pose proof Hok as ([Hnd Hlt] & Hrules & Hr & Hu). split_and!; [split|done|done|].
  - cbn [create_alert fst alerts]. rewrite fmap_app. apply list.NoDup_app. split_and!; [done| |apply NoDup_singleton].
    intros p (a & -> & Ha)%list_elem_of_fmap E%list_elem_of_singleton. specialize (Hlt a Ha). simpl in E. lia.
  - cbn [create_alert fst alerts next_alert]. intros a [Ha| ->%list_elem_of_singleton]%elem_of_app; [|simpl; lia].
    specialize (Hlt a Ha). lia.
  - intros t. rewrite unresolved_create by done. rewrite length_app. specialize (Hu t). case_decide as E; [|simpl; lia].
    subst t. rewrite Hnil. simpl. lia.
Qed.

Definition critical (a : Alert) : Alert :=
  mkAlert (al_pk a) (al_station a) (al_rule a) CRITICAL (al_resolved a) (al_resolved_at a) (al_created_at a).

Lemma unresolved_escalate pk m t :
  unresolved A_POWER_WARNING t (escalate pk m) =
  (λ a, if decide (al_pk a = pk) then critical a else a) <$> unresolved A_POWER_WARNING t m.
Proof.
  unfold unresolved, escalate. cbn [with_alerts alerts]. unfold update_where.
  induction (alerts m) as [|a l IH]; [done|]. rewrite fmap_cons, !filter_cons, IH.
  assert ((al_resolved (if decide (al_pk a = pk) then critical a else a) = false ∧
    al_station (if decide (al_pk a = pk) then critical a else a) = t ∧
    alert_type_of (escalate pk m) (if decide (al_pk a = pk) then critical a else a) = Some A_POWER_WARNING) ↔
    (al_resolved a = false ∧ al_station a = t ∧ alert_type_of m a = Some A_POWER_WARNING)) as Hiff by (by case_decide).
  destruct (decide (al_resolved a = false ∧ al_station a = t ∧ alert_type_of m a = Some A_POWER_WARNING)) as [H|H].
  - rewrite decide_True by (by apply Hiff). by rewrite fmap_cons.
  - rewrite decide_False by (by rewrite Hiff). done.
Qed.

Lemma power_ok_escalate pk m : power_ok m → power_ok (escalate pk m).
Proof.
  intros ([Hnd Hlt] & Hrules & Hr & Hu). split_and!; [split|done|done|].
  - unfold escalate. cbn [with_alerts alerts]. by rewrite (fmap_update_where al_pk).
  - intros a (b & Hb & [[_ ->]|[_ ->]])%elem_of_update_where; exact (Hlt b Hb).
  - intros t. rewrite unresolved_escalate, length_fmap. apply Hu.
Qed.

Notation power_open m s := (unresolved A_POWER_WARNING s m).

(** What an iteration does to the open alerts [u] of its station. *)
Definition power_effect (u : list Alert) (tel : StationTelemetry) (u' : list Alert) (tel' : StationTelemetry) : Prop :=
  (tel' = tel ∨ tel' = set_power_alerted (episode_key tel) tel) ∧
  (occurred tel = false → u' = u ∧ tel' = tel) ∧
  (occurred tel = true → is_now tel = true → ∃ a, u' = [a] ∧ al_severity a = CRITICAL) ∧
  (occurred tel = true → is_now tel = false →
    tl_power_alerted_boot_id tel' = episode_key tel ∨ (u' = u ∧ u ≠ [] ∧ tel' = tel)).

Lemma power_step_spec m tel :
  power_ok m →
  let '(m', tel', new) := power_step rule now m tel in
  power_ok m' ∧ (∀ t, t ≠ tl_station tel → power_open m' t = power_open m t) ∧
  power_effect (power_open m (tl_station tel)) tel (power_open m' (tl_station tel)) tel'.
Proof.
  intros Hok. unfold power_step. destruct (occurred tel) eqn:Hocc; cbn [negb].
  2:{ split_and!; [done|done|]. split_and!; [by left|done|congruence|congruence]. }
  pose proof Hok as ([Hnd _] & _ & _ & Hu). specialize (Hu (tl_station tel)).
  destruct (power_open m (tl_station tel)) as [|a l] eqn:Eu.
  - (* no open alert *)
    change (head (sort_by (λ a, - al_created_at a) [])) with (@None Alert).
    assert (∀ sev, let m' := (create_alert (tl_station tel) rule sev now m).1 in
      power_ok m' ∧ (∀ t, t ≠ tl_station tel → power_open m' t = power_open m t) ∧
      ∃ a, power_open m' (tl_station tel) = [a] ∧ al_severity a = default (ru_severity rule) sev) as Hc.
    { intros sev m'. split_and!; [by apply power_ok_create| |].
      - intros t Ht. unfold m'. rewrite unresolved_create by done. by rewrite decide_False, app_nil_r.
      - unfold m'. rewrite unresolved_create, Eu, decide_True by done. eexists. split; [done|]. done. }
    destruct (is_now tel) eqn:Hnow.
    + destruct (Hc (Some CRITICAL)) as (H1 & H2 & a & H3 & H4). cbn [create_alert fst] in *.
      split_and!; [done|done|]. rewrite H3. split_and!; [by left|congruence|by eauto|congruence].
    + case_decide as Hb.
      * destruct (Hc (Some WARNING)) as (H1 & H2 & a & H3 & H4). cbn [create_alert fst] in *.
        split_and!; [done|done|]. split_and!; [by right|congruence|congruence|by left].
      * split_and!; [done|done|]. split_and!; [by left|congruence|congruence|by left].
  - (* one open alert *)
    assert (l = []) as -> by (destruct l; [done|simpl in Hu; lia]).
    change (head (sort_by (λ a, - al_created_at a) [a])) with (Some a).
    destruct (is_now tel) eqn:Hnow.
    2:{ rewrite Eu. split_and!; [done|done|]. split_and!; [by left|congruence|congruence|by right]. }
    case_decide as Hsev.
    + split_and!; [by apply power_ok_escalate| |].
      * intros t Ht. rewrite unresolved_escalate. rewrite <-(list_fmap_id (power_open m t)) at 2.
        apply list_fmap_ext. intros j b Hb. cbn. rewrite decide_False; [done|]. intros E.
        apply list_elem_of_lookup_2, list_elem_of_filter in Hb as ((_ & Hst & _) & Hin).
        assert (a ∈ power_open m (tl_station tel)) as ((_ & Hst' & _) & Hin')%list_elem_of_filter by (rewrite Eu; by left).
        assert (b = a) as -> by (by apply (NoDup_fmap_elem_inj al_pk (alerts m))). congruence.
      * rewrite unresolved_escalate, Eu. cbn [fmap list_fmap]. rewrite decide_True by done.
        split_and!; [by left|congruence|by eauto|congruence].
    + rewrite Eu. split_and!; [done|done|]. split_and!; [by left|congruence| |congruence].
      intros _ _. exists a. split; [done|]. by destruct (al_severity a).
Qed.

(** A station whose loop iteration changes nothing any more. *)
Definition power_settled (m : AlertDb) (tel : StationTelemetry) : Prop :=
  occurred tel = true →
  if is_now tel then ∃ a, power_open m (tl_station tel) = [a] ∧ al_severity a = CRITICAL
  else tl_power_alerted_boot_id tel = episode_key tel ∨ power_open m (tl_station tel) ≠ [].

Lemma power_step_settled m tel : power_settled m tel → power_step rule now m tel = (m, tel, []).
Proof.
  unfold power_settled, power_step. intros Hs. destruct (occurred tel); [|done]. specialize (Hs eq_refl).
  cbn [negb]. destruct (is_now tel).
  - destruct Hs as (a & -> & Hsev). change (head (sort_by (λ a, - al_created_at a) [a])) with (Some a).
    cbv beta iota. rewrite decide_False by congruence. done.
  - destruct (head _) as [a|] eqn:E; [done|]. rewrite decide_False; [done|]. intros Hb.
    destruct Hs as [|Hne]; [done|]. apply Hne.
    apply Permutation_nil_r. rewrite <-(sort_by_Permutation (λ a, - al_created_at a)). by destruct (sort_by _ _).
Qed.

Lemma power_loop_settled m tels : Forall (power_settled m) tels → power_loop rule now m tels = (m, tels, []).
Proof.
  induction 1 as [|tel tels Ht _ IH]; [done|]. cbn [power_loop]. by rewrite power_step_settled, IH.
Qed.

Lemma power_effect_station u tel u' tel' : power_effect u tel u' tel' →
  tl_station tel' = tl_station tel ∧ is_now tel' = is_now tel ∧ occurred tel' = occurred tel ∧
  (cleared tel' ↔ cleared tel) ∧ episode_key tel' = episode_key tel.
Proof. by intros [[->| ->] _]. Qed.

Lemma power_loop_spec tels : ∀ m,
  power_ok m → NoDup (tl_station <$> tels) →
  let '(m', tels', new) := power_loop rule now m tels in
  power_ok m' ∧ (∀ t, t ∉ tl_station <$> tels → power_open m' t = power_open m t) ∧
  Forall2 (λ tel tel', power_effect (power_open m (tl_station tel)) tel (power_open m' (tl_station tel)) tel') tels tels'.
Proof.
  induction tels as [|tel tels IH]; intros m Hok Hnd; [by cbn|]. cbn [power_loop].
  rewrite fmap_cons, list.NoDup_cons in Hnd. destruct Hnd as [Hs Hnd].
  pose proof (power_step_spec m tel Hok) as H1. destruct (power_step rule now m tel) as [[m1 tel1] new1].
  destruct H1 as (Hok1 & Hf1 & He1). specialize (IH m1 Hok1 Hnd).
  destruct (power_loop rule now m1 tels) as [[m2 tels2] new2]. destruct IH as (Hok2 & Hf2 & He2).
  split_and!; [done| |].
  - intros t [Ht Hts]%not_elem_of_cons. rewrite Hf2 by done. by apply Hf1.
  - constructor; [by rewrite Hf2|]. apply Forall2_same_length_lookup in He2 as [Hlen He2].
    apply Forall2_same_length_lookup. split; [done|]. intros j x y Hx Hy. specialize (He2 j x y Hx Hy).
    rewrite Hf1 in He2; [done|]. intros E. apply Hs. rewrite <-E. apply list_elem_of_fmap_2.
    by eapply list_elem_of_lookup_2.
Qed.

(** A whole check: the loop, then the alerts of cleared stations resolve. *)
Definition check_effect (m m' : AlertDb) (tel tel' : StationTelemetry) : Prop :=
  ∃ u, power_effect (power_open m (tl_station tel)) tel u tel' ∧
    power_open m' (tl_station tel) = if decide (cleared tel) then [] else u.

Lemma unresolved_resolve (ids : list Z) m t
    `{HD : ∀ a, Decision (alert_type_of m a = Some A_POWER_WARNING ∧ al_resolved a = false ∧ al_station a ∈ ids)} :
  power_open (with_alerts (@update_where _ (λ a, alert_type_of m a = Some A_POWER_WARNING ∧ al_resolved a = false ∧
    al_station a ∈ ids) HD (resolve_row now)) m) t = if decide (t ∈ ids) then [] else power_open m t.
Proof.
  unfold unresolved, with_alerts. cbn [alerts].
  assert (∀ l' a, alert_type_of (mkAlertDb (rules m) l' (states m) (mdefs m) (next_alert m)) a = alert_type_of m a) as Hty
    by (intros; by apply alert_type_of_rules).
  case_decide as Ht.
  - destruct (filter _ _) as [|a l] eqn:E; [done|]. exfalso.
    assert (a ∈ a :: l) as Ha by (by left). rewrite <-E in Ha. apply list_elem_of_filter in Ha as ((Hr & Hs & Hp) & Ha).
    rewrite Hty in Hp. apply elem_of_update_where in Ha as (b & Hb & [[_ ->]|[Hn ->]]); [done|]. apply Hn. by rewrite Hs.
  - rewrite (list_filter_iff _ (λ a, al_resolved a = false ∧ al_station a = t ∧ alert_type_of m a = Some A_POWER_WARNING))
      by (intros a; by rewrite Hty).
    apply filter_update_where_disjoint.
    + intros a (_ & _ & Hin) (_ & E & _). congruence.
    + intros a _ (Hr & _). done.
Qed.

Lemma check_power_spec m tels :
  power_ok m → NoDup (tl_station <$> tels) →
  let '(m', tels', new) := check_power_warning tels now m in
  power_ok m' ∧ NoDup (tl_station <$> tels') ∧ Forall2 (check_effect m m') tels tels' ∧ new = (power_loop rule now m tels).2.
Proof.
  intros Hok Hnd. unfold check_power_warning. pose proof Hok as (_ & _ & -> & _).
  pose proof (power_loop_spec tels m Hok Hnd) as Hl. destruct (power_loop rule now m tels) as [[m1 tels1] new].
  destruct Hl as (([Hk1 Hk2] & Hr1 & Hr2 & Hu) & _ & He). set (ids := tl_station <$> filter cleared tels1).
  apply Forall2_same_length_lookup in He as [Hlen He].
  assert (tl_station <$> tels1 = tl_station <$> tels) as Hst.
  { apply list_eq. intros j. rewrite !list_lookup_fmap. destruct (tels !! j) as [x|] eqn:Ex.
    - destruct (lookup_lt_is_Some_2 tels1 j) as [y Hy]; [rewrite <-Hlen; by eapply lookup_lt_Some|].
      rewrite Hy. simpl. f_equal. by destruct (power_effect_station _ _ _ _ (He j x y Ex Hy)).
    - by rewrite (lookup_ge_None_2 tels1 j) by (rewrite <-Hlen; by apply lookup_ge_None_1). }
  split_and!; [split_and!; [split|done|done|]| | |done].
  - unfold with_alerts. cbn [alerts]. by rewrite (fmap_update_where al_pk).
  - intros a (b & Hb & [[_ ->]|[_ ->]])%elem_of_update_where; exact (Hk2 b Hb).
  - intros t. rewrite unresolved_resolve. case_decide; [simpl; lia|apply Hu].
  - by rewrite Hst.
  - apply Forall2_same_length_lookup. split; [done|]. intros j x y Hx Hy. specialize (He j x y Hx Hy).
    exists (power_open m1 (tl_station x)). split; [done|]. rewrite unresolved_resolve.
    destruct (power_effect_station _ _ _ _ He) as (Es & _ & _ & Ec & _).
    destruct (decide (cleared x)) as [Hc|Hc].
    + rewrite decide_True; [done|]. apply list_elem_of_fmap. exists y. split; [done|]. apply list_elem_of_filter.
      split; [by apply Ec|by eapply list_elem_of_lookup_2].
    + rewrite decide_False; [done|]. intros (z & Ez & [Hz Hin]%list_elem_of_filter)%list_elem_of_fmap.
      assert (z = y) as ->.
      { apply (NoDup_fmap_elem_inj tl_station tels1); [by rewrite Hst|done|by eapply list_elem_of_lookup_2|congruence]. }
      apply Hc. by apply Ec.
Qed.

End power.

(** The keys of the alerts of a station. *)
Definition alerts_of (station : Z) (m : AlertDb) : list Z := al_pk <$> filter (λ a, al_station a = station) (alerts m).

Lemma alerts_of_create station s rule severity now m :
  alerts_of station (create_alert s rule severity now m).1 =
  alerts_of station m ++ if decide (s = station) then [next_alert m] else [].
Proof.
  unfold alerts_of. cbn [create_alert fst alerts]. rewrite filter_app, fmap_app. f_equal.
  rewrite filter_cons. cbn [al_station]. by case_decide.
Qed.

Lemma alerts_of_auto_resolve station ty s now m : alerts_of station (auto_resolve ty s now m) = alerts_of station m.
Proof.
  unfold alerts_of, auto_resolve, update_where. cbn [with_alerts alerts].
  set (f := λ a : Alert, if decide _ then _ else _).
  assert (∀ a, al_pk (f a) = al_pk a ∧ al_station (f a) = al_station a) as Hf by (intros a; unfold f; by case_decide).
  induction (alerts m) as [|a l IH]; [done|]. rewrite fmap_cons, !filter_cons. destruct (Hf a) as [E1 ->].
  case_decide; [|done]. by rewrite !fmap_cons, E1, IH.
Qed.

(** A loop that alerts, or skips, each of its items. *)
Section alert_loop.
Context {A : Type} (station_of : A → Z) (skip : A → AlertDb → bool) (rule : AlertRule) (now : Z).

Definition alert_loop (acc : Result) (items : list A) : Result :=
  foldl (λ acc x, if skip x acc.1 then acc else new_alert (station_of x) rule None now acc) acc items.

Lemma new_alert_fst s sev acc : (new_alert s rule sev now acc).1 = (create_alert s rule sev now acc.1).1.
Proof. done. Qed.

Lemma alert_loop_other station items : ∀ acc,
  (∀ x, x ∈ items → station_of x ≠ station) → alerts_of station (alert_loop acc items).1 = alerts_of station acc.1.
Proof.
  induction items as [|x items IH]; intros acc Hne; [done|]. cbn [alert_loop foldl]. change (foldl _ ?a items) with (alert_loop a items).
  rewrite IH by (intros y Hy; apply Hne; by right). destruct (skip x acc.1); [done|].
  rewrite new_alert_fst, alerts_of_create, decide_False by (apply Hne; by left). by rewrite app_nil_r.
Qed.

Lemma alert_loop_grows station items : ∀ acc,
  (length (alerts_of station acc.1) ≤ length (alerts_of station (alert_loop acc items).1))%nat.
Proof.
  induction items as [|x items IH]; intros acc; [done|]. cbn [alert_loop foldl]. change (foldl _ ?a items) with (alert_loop a items).
  etrans; [|apply IH]. destruct (skip x acc.1); [done|]. rewrite new_alert_fst, alerts_of_create, length_app. lia.
Qed.

Lemma alert_loop_hit x items : ∀ acc,
  x ∈ items → (∀ y m, station_of y = station_of x → skip y m = false) →
  (length (alerts_of (station_of x) acc.1) < length (alerts_of (station_of x) (alert_loop acc items).1))%nat.
Proof.
  induction items as [|y items IH]; intros acc Hx Hskip; [by apply not_elem_of_nil in Hx|].
  cbn [alert_loop foldl]. change (foldl _ ?a items) with (alert_loop a items).
  destruct (decide (station_of y = station_of x)) as [E|Hne].
  - rewrite Hskip by done. eapply Nat.lt_le_trans; [|apply alert_loop_grows].
    rewrite new_alert_fst, alerts_of_create, decide_True, length_app by done. simpl. lia.
  - apply elem_of_cons in Hx as [->|Hx]; [done|]. eapply Nat.le_lt_trans; [|by apply IH].
    destruct (skip y acc.1); [done|]. rewrite new_alert_fst, alerts_of_create, length_app. lia.
Qed.

End alert_loop.

Lemma check_offline_loop cache stations now m rule :
  get_active_rule A_STATION_OFFLINE m = Some rule →
  ∀ station, alerts_of station (check_station_offline cache stations now m).1 =
    alerts_of station (alert_loop ss_pk (λ s m, has_unresolved_alert cache (ss_pk s) A_STATION_OFFLINE m) rule now (m, [])
      (filter (λ s, seen_before (now - OFFLINE_THRESHOLD) s ∧ ss_status s ≠ ST_OFFLINE) stations)).1.
Proof.
  intros Hr station. unfold check_station_offline. rewrite Hr. cbn [fst].
  change (foldl _ (m, []) ?l) with
    (alert_loop ss_pk (λ s m, has_unresolved_alert cache (ss_pk s) A_STATION_OFFLINE m) rule now (m, []) l).
  set (acc := alert_loop _ _ _ _ _ _). generalize (acc.1). clear acc. intros m0. revert m0.
  induction (filter _ stations) as [|s l IH]; intros m0; [done|]. cbn [foldl]. by rewrite IH, alerts_of_auto_resolve.
Qed.

(** ** Properties *)

(** Power alerts track the power, with an active rule: after a check with one open
    power alert per station at most, every station whose undervoltage or throttling
    is live and recorded as occurred has exactly one open power alert and it is critical, a station known
    to be clear has none, and no station has two; with unchanged telemetry two
    checks are enough to reach a state in which further checks notify nobody. *)
Lemma power_alerts_settle rule m tels now1 now2 now3 :
  power_ok rule m → NoDup (tl_station <$> tels) →
  let '(m1, tels1, _) := check_power_warning tels now1 m in
  let '(m2, tels2, _) := check_power_warning tels1 now2 m1 in
  (∀ s, (length (unresolved A_POWER_WARNING s m1) ≤ 1)%nat) ∧
  (∀ tel, tel ∈ tels → occurred tel = true → is_now tel = true →
    ∃ a, unresolved A_POWER_WARNING (tl_station tel) m1 = [a] ∧ al_severity a = CRITICAL) ∧
  (∀ tel, tel ∈ tels → cleared tel → unresolved A_POWER_WARNING (tl_station tel) m1 = []) ∧
  (check_power_warning tels2 now3 m2).2 = [].
Proof.
  intros Hok Hnd.
  pose proof (check_power_spec rule now1 m tels Hok Hnd) as H1.
  destruct (check_power_warning tels now1 m) as [[m1 tels1] new1]. destruct H1 as (Hok1 & Hnd1 & He1 & _).
  pose proof (check_power_spec rule now2 m1 tels1 Hok1 Hnd1) as H2.
  destruct (check_power_warning tels1 now2 m1) as [[m2 tels2] new2]. destruct H2 as (Hok2 & Hnd2 & He2 & _).
  assert (∀ tel, is_now tel = true → ¬ cleared tel) as Hnc.
  { intros tel Hn [E1 E2]. unfold is_now in Hn. by rewrite E1, E2 in Hn. }
  split_and!.
  - apply Hok1.
  - intros tel Htel Ho Hn. apply list_elem_of_lookup_1 in Htel as [j Hj].
    destruct (Forall2_lookup_l _ _ _ _ _ He1 Hj) as (tel' & _ & u & (_ & _ & Hc & _) & Hu).
    rewrite decide_False in Hu by auto. rewrite Hu. auto.
  - intros tel Htel Hc. apply list_elem_of_lookup_1 in Htel as [j Hj].
    destruct (Forall2_lookup_l _ _ _ _ _ He1 Hj) as (tel' & _ & u & _ & Hu). by rewrite decide_True in Hu.
  - pose proof (check_power_spec rule now3 m2 tels2 Hok2 Hnd2) as H3.
    destruct (check_power_warning tels2 now3 m2) as [[m3 tels3] new3]. destruct H3 as (_ & _ & _ & ->).
    rewrite power_loop_settled; [done|]. apply list.Forall_forall. intros z Hz.
    apply list_elem_of_lookup_1 in Hz as [j Hz].
    destruct (Forall2_lookup_r _ _ _ _ _ He2 Hz) as (y & Hy & u2 & Hp2 & Hu2).
    destruct (Forall2_lookup_r _ _ _ _ _ He1 Hy) as (x & Hx & u1 & Hp1 & Hu1).
    destruct (power_effect_station _ _ _ _ Hp2) as (Es2 & En2 & Eo2 & _ & Ee2).
    destruct (power_effect_station _ _ _ _ Hp1) as (Es1 & _ & _ & Ec1 & _).
    intros Hocc. rewrite Eo2 in Hocc. rewrite En2, Es2, Ee2, Hu2. destruct Hp2 as (_ & _ & Hlive & Hpast).
    destruct (is_now y) eqn:Hn.
    + rewrite decide_False by auto. by apply Hlive.
    + destruct (Hpast Hocc eq_refl) as [|(-> & Hne & _)]; [by left|]. right.
      rewrite Es1 in Hne |- *. rewrite Hu1 in Hne |- *.
      destruct (decide (cleared x)) as [Hc|Hc]; [done|]. rewrite decide_False; [done|]. by rewrite Ec1.
Qed.

Definition power_rule : AlertRule :=
  mkRule 1 A_POWER_WARNING (float_of_Z 0) WARNING true "" "" "" None AVG 0.

Definition power_db : AlertDb := mkAlertDb [power_rule] [] ∅ ∅ 0.

(** A station of boot b1 whose undervoltage has occurred and is live, or not. *)
Definition power_tel (live : bool) : StationTelemetry :=
  mkTel 7 "b1" "clean" None (Some live) (Some true) (Some false) (Some false) "" None "" 0 0 JNull.

Lemma power_db_ok : power_ok power_rule power_db.
Proof.
  split_and!; [split; [constructor|by intros a ?%not_elem_of_nil]|apply NoDup_singleton|done|]. intros s. simpl. lia.
Qed.

Lemma power_alerts_settle_witness :
  ∃ a, unresolved A_POWER_WARNING 7 (check_power_warning [power_tel true] 10 power_db).1.1 = [a] ∧
    al_severity a = CRITICAL.
Proof.
  pose proof (power_alerts_settle power_rule power_db [power_tel true] 10 20 30 power_db_ok (NoDup_singleton _)) as H.
  destruct (check_power_warning [power_tel true] 10 power_db) as [[m1 tels1] new1].
  destruct (check_power_warning tels1 20 m1) as [[m2 tels2] new2]. destruct H as (_ & H & _).
  apply (H (power_tel true)); [left|reflexivity|reflexivity].
Defined.

(** A resolved power alert is raised again in the same boot: a live
    undervoltage raises a critical alert, its end resolves it, and the next
    check with unchanged telemetry raises, and notifies, another alert,
    because only the transient branch records the boot it has warned about. *)
Lemma power_alert_recreated :
  let '(m1, _, new1) := check_power_warning [power_tel true] 10 power_db in
  let '(m2, tels2, new2) := check_power_warning [power_tel false] 20 m1 in
  let '(_, _, new3) := check_power_warning tels2 30 m2 in
  new1 = [0] ∧ new2 = [] ∧ unresolved A_POWER_WARNING 7 m2 = [] ∧ tels2 = [power_tel false] ∧ new3 = [1].
Proof. vm_compute. done. Qed.

(** C40. The offline alert is raised for a silent station only while its status
    is not yet offline: a station silent for more than five minutes and not in
    the cache gets an alert, but once the status sweep, which runs on its own
    two-minute threshold, has seen the station silent, no later check raises
    the alert for it. *)
Theorem offline_alert_needs_late_sweep c stations m rule s t_sweep t_check :
  get_active_rule A_STATION_OFFLINE m = Some rule → NoDup (ss_pk <$> stations) → s ∈ stations →
  (seen_before (t_check - OFFLINE_THRESHOLD) s → ss_status s ≠ ST_OFFLINE → (ss_pk s, Some A_STATION_OFFLINE) ∉ c →
    (length (alerts_of (ss_pk s) m) <
     length (alerts_of (ss_pk s) (check_station_offline (Some c) stations t_check m).1))%nat) ∧
  (seen_before (t_sweep - SWEEP_THRESHOLD) s → ss_status s = ST_ONLINE ∨ ss_status s = ST_OFFLINE →
    alerts_of (ss_pk s) (check_station_offline (Some c) (mark_stale_stations_offline t_sweep stations) t_check m).1 =
    alerts_of (ss_pk s) m).
Proof.
  intros Hr Hnd Hs. split.
  - intros Hseen Hst Hc. rewrite (check_offline_loop _ _ _ _ rule) by done.
    apply (alert_loop_hit ss_pk _ rule t_check s _ (m, [])); [by apply list_elem_of_filter|].
    intros y m' ->. cbn [has_unresolved_alert]. by apply bool_decide_eq_false.
  - intros Hseen Hst. rewrite (check_offline_loop _ _ _ _ rule) by done.
    apply alert_loop_other. intros x [[_ Hx] Hin]%list_elem_of_filter E.
    apply elem_of_update_where in Hin as (y & Hy & [[_ ->]|[Hn ->]]); [done|].
    assert (y = s) as -> by (by apply (NoDup_fmap_elem_inj ss_pk stations)). destruct Hst as [Hst|Hst]; [|done]. by apply Hn.
Qed.

Lemma offline_alert_needs_late_sweep_witness :
  alerts_of 7 (check_station_offline (Some []) (mark_stale_stations_offline (130 * SECOND) [mkSeen 7 (Some 0) ST_ONLINE])
    (3600 * SECOND) (mkAlertDb [mkRule 1 A_STATION_OFFLINE (float_of_Z 5) CRITICAL true "" "" "" None AVG 0] [] ∅ ∅ 0)).1 = [].
Proof.
  apply (offline_alert_needs_late_sweep [] [mkSeen 7 (Some 0) ST_ONLINE]
    (mkAlertDb [mkRule 1 A_STATION_OFFLINE (float_of_Z 5) CRITICAL true "" "" "" None AVG 0] [] ∅ ∅ 0)
    (mkRule 1 A_STATION_OFFLINE (float_of_Z 5) CRITICAL true "" "" "" None AVG 0) (mkSeen 7 (Some 0) ST_ONLINE)
    (130 * SECOND) (3600 * SECOND)).
  - reflexivity.
  - apply NoDup_singleton.
  - left.
  - vm_compute. reflexivity.
  - left. reflexivity.
Defined.

Definition failed_result (pk deployment : Z) : DeploymentResult :=
  mkResult pk deployment 7 1 R_FAILED (Some 0) (Some (10 * SECOND)) (ET_Raw "boom") "" "".

Definition ota_db : AlertDb :=
  mkAlertDb [mkRule 1 A_OTA_FAILED (float_of_Z 0) CRITICAL true "" "" "" None AVG 0] [] ∅ ∅ 0.

(** Within one run the prefetched cache is not updated by the alerts the run
    creates: two failures of a station raise two alerts, where the query the
    cache replaces would have found the first. *)
Lemma ota_alert_duplicates :
  (check_ota_failed (Some (build_unresolved_cache ota_db)) [failed_result 1 1; failed_result 2 2] (60 * SECOND) ota_db).2 =
    [0; 1] ∧
  (check_ota_failed None [failed_result 1 1; failed_result 2 2] (60 * SECOND) ota_db).2 = [0].
Proof. vm_compute. done. Qed.
