(* ===== verification/Scanner.v ===== *)
(** * The carrier scanner of the agent

    Models [station_agent/scanner.py]: the validation of the entry list
    ([parse_entries], [clamp_window]) and the [Scanner], an asyncio task that
    shares its state with the operator's commands and a step lock.

    Between two [await]s the event loop runs a coroutine without interruption,
    so a transition of the model is the code from one [await] of a coroutine to
    its next one.  The runner is at a program counter [Pc]; the operator's
    commands arrive one at a time (the broker awaits each frame's handler), so
    the command in progress is one [Op].  The results of device operations, the
    clock, the paused slots and the PTT are inputs of the transitions.  Times
    are integers. *)

From Stdlib Require Import ZArith Lia SpecFloat.
From stdpp Require Import base gmap list strings.
From S2P Require Import Prelude Json Metrics.

Local Open Scope Z_scope.

(** ** Entry lists *)

Definition MAX_ENTRIES : nat := 500.
Definition MAX_REF_LEN : Z := 64.
Definition MAX_SCAN_LABEL_LEN : Z := 128.
Definition MAX_MODULE_LEN : Z := 64.
Definition MAX_TONE_LEN : Z := 16.

Inductive ScanError := ScanOverflow.

Record ScanEntry := mkEntry {
  en_ref : string;
  en_label : string;
  en_slot : Z;
  en_module : string;
  en_rx_frequency : Json;
  en_tx_frequency : Json;
  en_rx_tone : string;
  en_tx_tone : string
}.

(** [_is_num]; [math.isfinite] raises on an int no float can hold. *)
Definition is_num (v : Json) : outcome ScanError bool :=
  match v with
  | JInt z => if decide (FLOAT_OVERFLOW ≤ Z.abs z) then Raise ScanOverflow else Ok true
  | JFloat f => Ok (is_finite f)
  | _ => Ok false
  end.

(** [isinstance(v, str) and lo <= len(v) <= hi] *)
Definition text_within (lo hi : Z) (v : Json) : option string :=
  match v with
  | JStr s => if bool_decide (lo ≤ Z.of_nat (String.length s) ≤ hi) then Some s else None
  | _ => None
  end.

(** [e.get("label", "")] *)
Definition label_of (fields : list (string * Json)) : Json :=
  match dict_get "label" fields with Some v => v | None => JStr "" end.

(** One iteration of the loop of [parse_entries]: the normalized entry, or
    [None] to reject the list. *)
Definition parse_entry (seen : list string) (e : Json) : outcome ScanError (option ScanEntry) :=
  match e with
  | JObj fields =>
    match text_within 1 MAX_REF_LEN (jget "ref" fields) with
    | None => Ok None
    | Some ref =>
      if decide (ref ∈ seen) then Ok None
      else
      match text_within 0 MAX_SCAN_LABEL_LEN (label_of fields), jget "slot" fields,
            text_within 1 MAX_MODULE_LEN (jget "module" fields) with
      | Some label, JInt slot, Some module =>
        obind (is_num (jget "rx_frequency" fields)) (λ rx_ok,
        if negb rx_ok then Ok None else
        obind (is_num (jget "tx_frequency" fields)) (λ tx_ok,
        if negb tx_ok then Ok None else
        match text_within 0 MAX_TONE_LEN (jget "rx_tone" fields), text_within 0 MAX_TONE_LEN (jget "tx_tone" fields) with
        | Some rx_tone, Some tx_tone =>
          Ok (Some (mkEntry ref label slot module (jget "rx_frequency" fields) (jget "tx_frequency" fields) rx_tone tx_tone))
        | _, _ => Ok None
        end))
      | _, _, _ => Ok None
      end
    end
  | _ => Ok None
  end.

Fixpoint parse_loop (seen : list string) (out : list ScanEntry) (raw : list Json) :
    outcome ScanError (option (list ScanEntry)) :=
  match raw with
  | [] => Ok (Some out)
  | e :: raw' =>
    obind (parse_entry seen e) (λ r,
      match r with
      | None => Ok None
      | Some entry => parse_loop (en_ref entry :: seen) (out ++ [entry]) raw'
      end)
  end.

Definition parse_entries (raw : Json) : outcome ScanError (option (list ScanEntry)) :=
  match raw with
  | JList l => if decide (MAX_ENTRIES < length l)%nat then Ok None else parse_loop [] [] l
  | _ => Ok None
  end.

(** [clamp_window]: [float(min(max(value, lo), hi))], which keeps [value] on ties. *)
Definition clamp_window (value : Json) (lo hi default : spec_float) : outcome ScanError spec_float :=
  obind (is_num value) (λ ok,
    if negb ok then Ok default
    else match py_float value with
         | Some f => let m := if SFltb f lo then lo else f in Ok (if SFltb hi m then hi else m)
         | None => Ok default
         end).

(** ** State *)

Inductive ScanState := SS_SCANNING | SS_ACTIVE | SS_HANG | SS_HELD | SS_STOPPED.

#[export] Instance ScanState_eq_dec : EqDecision ScanState.
Proof. solve_decision. Defined.

(** What the scanner does to the outside: the steps it starts (with the ref of
    the entry), the [tx_route] changes of a hold, and the frames it sends. *)
Inductive StepKind :=
| K_Scanning | K_Apply | K_Carrier (listening : bool) | K_Route | K_Active | K_Reactive | K_Hang.

Inductive Event :=
| EV_Step (k : StepKind) (ref : string)
| EV_HoldRoute (ref : string)
| EV_Frame (state : ScanState) (index : nat) (ref : option string) (reason : option string).

(** The local variables of [_visit]. *)
Record Visit := mkVisit { v_entry : ScanEntry; v_deadline : Z; v_hang_end : option Z }.

Inductive Pc :=
| P_Start                            (* the task is created, not yet run *)
| P_Parked                           (* in [_wait_resume] *)
| P_Want (k : StepKind) (v : Visit)  (* waiting for the step lock *)
| P_Doing (k : StepKind) (v : Visit) (* inside a step, holding the lock *)
| P_Sleep (listening : bool) (v : Visit)
| P_HoldWant                         (* in its own [hold], waiting for the lock *)
| P_HoldEmit                         (* ... sending the held frame *)
| P_HoldRoute (e : ScanEntry)        (* ... changing tx_route *)
| P_End.

Inductive Op :=
| O_Idle
| O_HoldWant (reason : string) (keyed : option (Z * string))
| O_HoldEmit (keyed : option (Z * string))
| O_HoldRoute (e : ScanEntry)
| O_StopWant (reason : string).

Inductive Owner := ByRunner | ByOperator.

(** The attributes of the walk over the list, ... *)
Record Walk := mkWalk {
  w_entries : list ScanEntry;
  w_pending : option (list ScanEntry);
  w_index : nat;
  w_tuned : option string;
  w_routed : option string;
  w_last : option (ScanState * nat * option string);
  w_skip : bool;
  w_streak : nat
}.

(** ... the flags that coordinate the two coroutines, ... *)
Record Flags := mkFlags {
  f_held : bool;
  f_hold_gen : Z;
  f_visit_gen : Z;
  f_stopping : bool;
  f_resume : bool
}.

(** ... and the scanner: [_task is not None], its configuration, the positions
    of the coroutines, the step lock, and the outside (PTT keyed or being
    keyed, paused slots, what has happened so far, the latest first). *)
Record Scanner := mkScanner {
  sc_running : bool;
  sc_id : option string;
  sc_listen : Z;
  sc_hang : Z;
  sc_walk : Walk;
  sc_flags : Flags;
  sc_pc : Pc;
  sc_op : Op;
  sc_lock : option Owner;
  sc_ptt : bool;                       (* a module is keyed or being keyed *)
  sc_unkey : bool;                     (* a [do ptt false] is in flight *)
  sc_paused : list Z;
  sc_log : list Event
}.

Definition with_walk (g : Walk → Walk) (s : Scanner) : Scanner :=
  mkScanner (sc_running s) (sc_id s) (sc_listen s) (sc_hang s) (g (sc_walk s)) (sc_flags s) (sc_pc s) (sc_op s)
    (sc_lock s) (sc_ptt s) (sc_unkey s) (sc_paused s) (sc_log s).
Definition with_flags (g : Flags → Flags) (s : Scanner) : Scanner :=
  mkScanner (sc_running s) (sc_id s) (sc_listen s) (sc_hang s) (sc_walk s) (g (sc_flags s)) (sc_pc s) (sc_op s)
    (sc_lock s) (sc_ptt s) (sc_unkey s) (sc_paused s) (sc_log s).
Definition set_pc (pc : Pc) (s : Scanner) : Scanner :=
  mkScanner (sc_running s) (sc_id s) (sc_listen s) (sc_hang s) (sc_walk s) (sc_flags s) pc (sc_op s)
    (sc_lock s) (sc_ptt s) (sc_unkey s) (sc_paused s) (sc_log s).
Definition set_op (op : Op) (s : Scanner) : Scanner :=
  mkScanner (sc_running s) (sc_id s) (sc_listen s) (sc_hang s) (sc_walk s) (sc_flags s) (sc_pc s) op
    (sc_lock s) (sc_ptt s) (sc_unkey s) (sc_paused s) (sc_log s).
Definition set_lock (l : option Owner) (s : Scanner) : Scanner :=
  mkScanner (sc_running s) (sc_id s) (sc_listen s) (sc_hang s) (sc_walk s) (sc_flags s) (sc_pc s) (sc_op s)
    l (sc_ptt s) (sc_unkey s) (sc_paused s) (sc_log s).
Definition set_outside (ptt : bool) (paused : list Z) (s : Scanner) : Scanner :=
  mkScanner (sc_running s) (sc_id s) (sc_listen s) (sc_hang s) (sc_walk s) (sc_flags s) (sc_pc s) (sc_op s)
    (sc_lock s) ptt (sc_unkey s) paused (sc_log s).
Definition set_unkey (b : bool) (s : Scanner) : Scanner :=
  mkScanner (sc_running s) (sc_id s) (sc_listen s) (sc_hang s) (sc_walk s) (sc_flags s) (sc_pc s) (sc_op s)
    (sc_lock s) (sc_ptt s) b (sc_paused s) (sc_log s).
Definition log (e : Event) (s : Scanner) : Scanner :=
  mkScanner (sc_running s) (sc_id s) (sc_listen s) (sc_hang s) (sc_walk s) (sc_flags s) (sc_pc s) (sc_op s)
    (sc_lock s) (sc_ptt s) (sc_unkey s) (sc_paused s) (e :: sc_log s).

Definition set_index (i : nat) (w : Walk) : Walk :=
  mkWalk (w_entries w) (w_pending w) i (w_tuned w) (w_routed w) (w_last w) (w_skip w) (w_streak w).
Definition set_tuned (t : option string) (w : Walk) : Walk :=
  mkWalk (w_entries w) (w_pending w) (w_index w) t (w_routed w) (w_last w) (w_skip w) (w_streak w).
Definition set_routed (r : option string) (w : Walk) : Walk :=
  mkWalk (w_entries w) (w_pending w) (w_index w) (w_tuned w) r (w_last w) (w_skip w) (w_streak w).
Definition set_last (l : option (ScanState * nat * option string)) (w : Walk) : Walk :=
  mkWalk (w_entries w) (w_pending w) (w_index w) (w_tuned w) (w_routed w) l (w_skip w) (w_streak w).
Definition set_skip (b : bool) (w : Walk) : Walk :=
  mkWalk (w_entries w) (w_pending w) (w_index w) (w_tuned w) (w_routed w) (w_last w) b (w_streak w).
Definition set_streak (n : nat) (w : Walk) : Walk :=
  mkWalk (w_entries w) (w_pending w) (w_index w) (w_tuned w) (w_routed w) (w_last w) (w_skip w) n.
Definition set_pending (l : option (list ScanEntry)) (w : Walk) : Walk :=
  mkWalk (w_entries w) l (w_index w) (w_tuned w) (w_routed w) (w_last w) (w_skip w) (w_streak w).

(** [_reset] *)
Definition reset_walk : Walk := mkWalk [] None 0 None None None false 0.
Definition reset_flags : Flags := mkFlags false 0 0 false false.

Definition reset (s : Scanner) : Scanner :=
  mkScanner (sc_running s) None 2000000 5000000 reset_walk reset_flags (sc_pc s) (sc_op s) (sc_lock s)
    (sc_ptt s) (sc_unkey s) (sc_paused s) (sc_log s).

(** ** Helpers *)

(** Position of the first entry with a ref. *)
Fixpoint find_ref (ref : string) (l : list ScanEntry) : option nat :=
  match l with
  | [] => None
  | e :: l' => if decide (en_ref e = ref) then Some 0%nat else S <$> find_ref ref l'
  end.

Definition tuned_pos (w : Walk) : option nat := ref ← w_tuned w; find_ref ref (w_entries w).

(** [_next_index]: adopts a pending list. *)
Definition next_index (offset : nat) (w : Walk) : Walk :=
  match w_pending w with
  | Some new =>
    let pos := e ← w_entries w !! w_index w; find_ref (en_ref e) new in
    let i := match pos with
             | None => (w_index w `mod` length new)%nat
             | Some p => ((p + offset) `mod` length new)%nat
             end in
    mkWalk new None i (w_tuned w) (w_routed w) (w_last w) (w_skip w) 0
  | None => set_index ((w_index w + offset) `mod` length (w_entries w))%nat w
  end.

Definition active_slots (s : Scanner) : list Z :=
  if sc_running s then
    (en_slot <$> w_entries (sc_walk s)) ++ (en_slot <$> default [] (w_pending (sc_walk s)))
  else [].

Definition drained (s : Scanner) : bool := existsb (λ p, bool_decide (p ∈ active_slots s)) (sc_paused s).

(** The [ptt_active] callback of the broker. *)
Definition scan_blocked (s : Scanner) : bool := sc_ptt s || sc_unkey s.

(** [_emit]: an unchanged state without a reason is not sent again. *)
Definition emit (st : ScanState) (reason : option string) (untuned : bool) (s : Scanner) : Scanner :=
  let w := sc_walk s in
  let ref := if untuned then None else en_ref <$> w_entries w !! w_index w in
  if decide (w_last w = Some (st, w_index w, ref) ∧ reason = None) then s
  else
    let s := with_walk (set_last (Some (st, w_index w, ref))) s in
    match sc_id s with Some _ => log (EV_Frame st (w_index w) ref reason) s | None => s end.

(** [_send_stopped]: the frame names the tuned entry, then everything is reset. *)
Definition send_stopped (reason : string) (s : Scanner) : Scanner :=
  let w := sc_walk s in
  let pos := tuned_pos w in
  let i := default (w_index w) pos in
  let ref := p ← pos; en_ref <$> w_entries w !! p in
  reset (match sc_id s with Some _ => log (EV_Frame SS_STOPPED i ref (Some reason)) s | None => s end).

Definition set_running (b : bool) (s : Scanner) : Scanner :=
  mkScanner b (sc_id s) (sc_listen s) (sc_hang s) (sc_walk s) (sc_flags s) (sc_pc s) (sc_op s) (sc_lock s)
    (sc_ptt s) (sc_unkey s) (sc_paused s) (sc_log s).

(** [_StopSignal] reaches [_run], which ends the task through [_finish]. *)
Definition finish (reason : string) (s : Scanner) : Scanner :=
  let s := set_pc P_End s in
  if f_stopping (sc_flags s) then s else send_stopped reason (set_running false s).

(** The synchronous part of [hold]: [None] if it returns at once. *)
Definition hold_begin (s : Scanner) : option Scanner :=
  let f := sc_flags s in
  if negb (sc_running s) || f_held f || f_stopping f then None
  else Some (with_flags (λ f, mkFlags true (f_hold_gen f + 1) (f_visit_gen f) (f_stopping f) false) s).

(** [hold] under the lock, up to the send of the held frame. *)
Definition hold_emit (reason : string) (s : Scanner) : Scanner :=
  let pos := tuned_pos (sc_walk s) in
  let s := with_walk (λ w, set_index (default (w_index w) pos) w) s in
  emit SS_HELD (Some reason) (bool_decide (pos = None)) s.

(** The entry [hold] then points tx_route at, if any. *)
Definition hold_route (keyed : option (Z * string)) (s : Scanner) : option ScanEntry :=
  let w := sc_walk s in
  pos ← tuned_pos w;
  e ← w_entries w !! pos;
  if decide (w_routed w = w_tuned w) then None
  else if bool_decide (keyed = Some (en_slot e, en_module e)) || (bool_decide (keyed = None) && negb (scan_blocked s))
  then Some e else None.

(** ** The runner *)

(** The head of the loop of [_run], up to the first [await] of the visit. *)
Definition loop_head (s : Scanner) : Scanner :=
  if f_held (sc_flags s) then set_pc P_Parked s
  else if f_stopping (sc_flags s) then set_pc P_End s
  else
    match w_entries (sc_walk s) !! w_index (sc_walk s) with
    | None => finish "internal_error" s
    | Some e =>
      let s := with_walk (set_skip false) s in
      let s := with_flags (λ f, mkFlags (f_held f) (f_hold_gen f) (f_hold_gen f) (f_stopping f) (f_resume f)) s in
      if scan_blocked s then match hold_begin s with Some s' => set_pc P_HoldWant s' | None => set_pc P_Parked s end
      else set_pc (P_Want K_Scanning (mkVisit e 0 None)) s
    end.

(** The end of a visit. *)
Definition visit_done (reachable : bool) (s : Scanner) : Scanner :=
  if reachable then loop_head (with_walk (λ w, next_index 1 (set_streak 0 w)) s)
  else
    let n := S (w_streak (sc_walk s)) in
    let s := with_walk (set_streak n) s in
    if decide (length (w_entries (sc_walk s)) ≤ n)%nat then finish "no_reachable_entries" s
    else loop_head (with_walk (next_index 1) s).

(** The head of the loop that watches an active entry. *)
Definition active_loop (v : Visit) (s : Scanner) : Scanner :=
  if w_skip (sc_walk s) then visit_done true s else set_pc (P_Sleep false v) s.

(** The head of the listen loop. *)
Definition listen_loop (v : Visit) (s : Scanner) : Scanner :=
  if w_skip (sc_walk s) then visit_done true s else set_pc (P_Want (K_Carrier true) v) s.

(** The lock is free: the guards of [_step], then the step starts. *)
Definition step_start (k : StepKind) (v : Visit) (s : Scanner) : Scanner :=
  let f := sc_flags s in
  if f_held f || f_stopping f || bool_decide (f_visit_gen f ≠ f_hold_gen f) then loop_head s
  else if drained s then finish "module_update" s
  else
    let s := log (EV_Step k (en_ref (v_entry v))) (set_lock (Some ByRunner) (set_pc (P_Doing k v) s)) in
    match k with
    | K_Scanning => emit SS_SCANNING None false s
    | K_Active | K_Reactive => emit SS_ACTIVE None false s
    | K_Hang => emit SS_HANG None false s
    | K_Apply | K_Carrier _ | K_Route => s
    end.

(** What the device operation of a step answered. *)
Inductive Answer :=
| A_Sent
| A_Applied | A_ApplyNothing | A_ApplyFailed | A_ApplyUpdating
| A_Carrier (b : bool) | A_CarrierFailed | A_CarrierUpdating.

(** The step is over: its result is used up to the next [await]. *)
Definition step_done (k : StepKind) (v : Visit) (a : Answer) (now : Z) (s : Scanner) : option Scanner :=
  let s := set_lock None s in
  match k, a with
  | K_Scanning, A_Sent => Some (set_pc (P_Want K_Apply v) s)
  | K_Apply, A_Applied =>
    let s := with_walk (set_tuned (Some (en_ref (v_entry v)))) s in
    Some (listen_loop (mkVisit (v_entry v) (now + sc_listen s) None) s)
  | K_Apply, (A_ApplyNothing | A_ApplyFailed) => Some (visit_done false (with_walk (set_tuned None) s))
  | K_Apply, A_ApplyUpdating => Some (finish "module_update" (with_walk (set_tuned None) s))
  | K_Carrier _, A_CarrierUpdating => Some (finish "module_update" s)
  | K_Carrier _, A_CarrierFailed => Some (visit_done false s)
  | K_Carrier true, A_Carrier true =>
    if scan_blocked s then Some (match hold_begin s with Some s' => set_pc P_HoldWant s' | None => loop_head s end)
    else Some (set_pc (P_Want K_Route v) s)
  | K_Carrier true, A_Carrier false =>
    if bool_decide (v_deadline v ≤ now) then Some (visit_done true s) else Some (set_pc (P_Sleep true v) s)
  | K_Route, A_Sent => Some (set_pc (P_Want K_Active v) (with_walk (set_routed (Some (en_ref (v_entry v)))) s))
  | (K_Active | K_Reactive | K_Hang), A_Sent => Some (active_loop v s)
  | K_Carrier false, A_Carrier true =>
    match v_hang_end v with
    | Some _ => Some (set_pc (P_Want K_Reactive (mkVisit (v_entry v) (v_deadline v) None)) s)
    | None => Some (active_loop v s)
    end
  | K_Carrier false, A_Carrier false =>
    match v_hang_end v with
    | None => Some (set_pc (P_Want K_Hang (mkVisit (v_entry v) (v_deadline v) (Some (now + sc_hang s)))) s)
    | Some h => if bool_decide (h ≤ now) then Some (visit_done true s) else Some (active_loop v s)
    end
  | _, _ => None
  end.

(** ** Transitions *)

Inductive Label :=
| L_Begin                                   (* the task runs for the first time *)
| L_Lock                                    (* the runner gets the step lock *)
| L_Done (a : Answer) (now : Z)             (* the runner's step, or part of its hold, is over *)
| L_Wake                                    (* the runner's sleep is over *)
| L_Poll                                    (* [_wait_resume] looks again *)
| L_Start (id : string) (entries : list ScanEntry) (listen hang : Z)
| L_Update (id : string) (entries : list ScanEntry)
| L_Resume (id : string)
| L_Skip (id : string)
| L_Hold (reason : string) (keyed : option (Z * string))
| L_Stop (reason : string)
| L_OpLock                                  (* the operator's command gets the lock *)
| L_OpDone                                  (* its send or route change is over *)
| L_Key                                     (* the broker keys a PTT *)
| L_Unkey                                   (* no module is keyed any more *)
| L_UnkeyCmd (begins : bool)                (* a [do ptt false] begins, without a hold, or ends *)
| L_Paused (slots : list Z).

(** [_run] up to its first [await], or one resumption of the runner. *)
Definition runner_step (l : Label) (s : Scanner) : option Scanner :=
  match l, sc_pc s, sc_lock s with
  | L_Begin, P_Start, _ => Some (loop_head s)
  | L_Lock, P_Want k v, None => Some (step_start k v s)
  | L_Lock, P_HoldWant, None =>
    if negb (sc_running s) || f_stopping (sc_flags s) then Some (loop_head s)
    else Some (set_lock (Some ByRunner) (set_pc P_HoldEmit (hold_emit "ptt" s)))
  | L_Done a now, P_Doing k v, _ => step_done k v a now s
  | L_Done A_Sent _, P_HoldEmit, _ =>
    match hold_route None s with
    | Some e => Some (log (EV_HoldRoute (en_ref e)) (set_pc (P_HoldRoute e) s))
    | None => Some (loop_head (set_lock None s))
    end
  | L_Done A_Sent _, P_HoldRoute e, _ =>
    Some (loop_head (set_lock None (with_walk (set_routed (Some (en_ref e))) s)))
  | L_Wake, P_Sleep listening v, _ =>
    Some (if listening then listen_loop v s else set_pc (P_Want (K_Carrier false) v) s)
  | L_Poll, P_Parked, _ =>
    if f_resume (sc_flags s) then Some (loop_head (with_walk (next_index 0) s))
    else if drained s then Some (finish "module_update" s) else Some s
  | _, _, _ => None
  end.

(** The operator's commands; each is handled before the next is read. *)
Definition operator_step (l : Label) (s : Scanner) : option Scanner :=
  match l, sc_op s with
  | L_Start id entries listen hang, O_Idle =>
    if sc_running s then None
    else
      let s := mkScanner false (Some id) listen hang
        (mkWalk entries None 0 None None None false 0) reset_flags (sc_pc s) O_Idle (sc_lock s) (sc_ptt s) (sc_unkey s) (sc_paused s)
        (sc_log s) in
      Some (if decide (entries = []) then send_stopped "empty_scan_list" s else set_pc P_Start (set_running true s))
  | L_Update id entries, O_Idle =>
    if negb (sc_running s) || bool_decide (sc_id s ≠ Some id) then Some s
    else if decide (entries = []) then
      if f_stopping (sc_flags s) then Some s
      else Some (set_op (O_StopWant "empty_scan_list")
        (with_flags (λ f, mkFlags (f_held f) (f_hold_gen f) (f_visit_gen f) true (f_resume f)) s))
    else Some (with_walk (set_pending (Some entries)) s)
  | L_Resume id, O_Idle =>
    if negb (sc_running s) || bool_decide (sc_id s ≠ Some id) then Some s
    else if f_held (sc_flags s) then
      Some (with_flags (λ f, mkFlags false (f_hold_gen f) (f_visit_gen f) (f_stopping f) true) s)
    else Some s
  | L_Skip id, O_Idle =>
    if negb (sc_running s) || bool_decide (sc_id s ≠ Some id) then Some s
    else if f_held (sc_flags s) then
      Some (with_flags (λ f, mkFlags false (f_hold_gen f) (f_visit_gen f) (f_stopping f) true) (with_walk (next_index 1) s))
    else Some (with_walk (set_skip true) s)
  | L_Hold reason keyed, O_Idle =>
    match hold_begin s with Some s' => Some (set_op (O_HoldWant reason keyed) s') | None => Some s end
  | L_Stop reason, O_Idle =>
    if negb (sc_running s) || f_stopping (sc_flags s) then Some s
    else Some (set_op (O_StopWant reason)
      (with_flags (λ f, mkFlags (f_held f) (f_hold_gen f) (f_visit_gen f) true (f_resume f)) s))
  | L_OpLock, O_HoldWant reason keyed =>
    match sc_lock s with
    | None =>
      if negb (sc_running s) || f_stopping (sc_flags s) then Some (set_op O_Idle s)
      else Some (set_lock (Some ByOperator) (set_op (O_HoldEmit keyed) (hold_emit reason s)))
    | Some _ => None
    end
  | L_OpLock, O_StopWant reason =>
    match sc_lock s with
    | None => Some (send_stopped reason (set_running false (set_pc P_End (set_op O_Idle s))))
    | Some _ => None
    end
  | L_OpDone, O_HoldEmit keyed =>
    match hold_route keyed s with
    | Some e => Some (log (EV_HoldRoute (en_ref e)) (set_op (O_HoldRoute e) s))
    | None => Some (set_op O_Idle (set_lock None s))
    end
  | L_OpDone, O_HoldRoute e => Some (set_op O_Idle (set_lock None (with_walk (set_routed (Some (en_ref e))) s)))
  | L_Key, O_Idle =>
    (* the broker keys after [hold] has returned, without an [await] between *)
    if negb (sc_running s) || f_held (sc_flags s) then Some (set_outside true (sc_paused s) s) else None
  | L_Unkey, _ => Some (set_outside false (sc_paused s) s)
  | L_UnkeyCmd b, _ => Some (set_unkey b s)
  | L_Paused slots, _ => Some (set_outside (sc_ptt s) slots s)
  | _, _ => None
  end.

Definition exec (l : Label) (s : Scanner) : option Scanner :=
  match runner_step l s with Some s' => Some s' | None => operator_step l s end.

(** A new scanner. *)
Definition idle_scanner : Scanner :=
  mkScanner false None 2000000 5000000 reset_walk reset_flags P_End O_Idle None false false [] [].

Fixpoint run_labels (ls : list Label) (s : Scanner) : option Scanner :=
  match ls with
  | [] => Some s
  | l :: ls' => s' ← exec l s; run_labels ls' s'
  end.

Definition reachable (s : Scanner) : Prop := ∃ ls, run_labels ls idle_scanner = Some s.

(** ** Invariant *)

Definition op_locked (op : Op) : bool := match op with O_HoldEmit _ | O_HoldRoute _ => true | _ => false end.
Definition pc_locked (pc : Pc) : bool := match pc with P_Doing _ _ | P_HoldEmit | P_HoldRoute _ => true | _ => false end.
Definition op_stop (op : Op) : bool := match op with O_StopWant _ => true | _ => false end.
Definition op_hold (op : Op) : bool := match op with O_HoldWant _ _ => true | _ => false end.

(** A visit is in progress. *)
Definition visiting (pc : Pc) : bool := match pc with P_Want _ _ | P_Doing _ _ | P_Sleep _ _ => true | _ => false end.
Definition doing (pc : Pc) : bool := match pc with P_Doing _ _ => true | _ => false end.

Definition walk_ok (w : Walk) : Prop :=
  (w_index w < length (w_entries w))%nat ∧ (∀ l, w_pending w = Some l → l ≠ []).

(** What holds wherever the runner is: the list, the stop protocol, the
    generations, and a task that has ended has left nothing behind. *)
Definition common (s : Scanner) : Prop :=
  (if sc_running s then walk_ok (sc_walk s) else sc_flags s = reset_flags) ∧
  f_stopping (sc_flags s) = op_stop (sc_op s) ∧
  (op_stop (sc_op s) = true → sc_running s = true) ∧
  f_visit_gen (sc_flags s) ≤ f_hold_gen (sc_flags s).

(** The runner is between two positions and does not own the lock. *)
Definition between (s : Scanner) : Prop :=
  common s ∧ sc_running s = true ∧ sc_lock s = (if op_locked (sc_op s) then Some ByOperator else None).

Definition scanner_inv (s : Scanner) : Prop :=
  common s ∧
  (sc_running s = false → sc_pc s = P_End) ∧
  sc_lock s = (if pc_locked (sc_pc s) then Some ByRunner else if op_locked (sc_op s) then Some ByOperator else None) ∧
  (pc_locked (sc_pc s) = true → op_locked (sc_op s) = false) ∧
  (visiting (sc_pc s) = true → f_held (sc_flags s) = true ∨ sc_ptt s = true →
    f_visit_gen (sc_flags s) < f_hold_gen (sc_flags s)) ∧
  (doing (sc_pc s) = true → sc_ptt s = false ∧
    (f_visit_gen (sc_flags s) = f_hold_gen (sc_flags s) ∨ op_hold (sc_op s) = true)).

(** ** Lemmas *)

Lemma find_ref_Some ref l i : find_ref ref l = Some i → ∃ e, l !! i = Some e ∧ en_ref e = ref.
Proof.
  revert i. induction l as [|e l IH]; intros i; [done|]. cbn [find_ref]. case_decide as H.
  - intros [= <-]. by exists e.
  - intros (j & Hj & ->)%fmap_Some. by apply IH.
Qed.

Lemma find_ref_lt ref l i : find_ref ref l = Some i → (i < length l)%nat.
Proof. intros (e & He & _)%find_ref_Some. by eapply lookup_lt_Some. Qed.

Lemma next_index_ok offset w : walk_ok w → walk_ok (next_index offset w).
Proof.
  intros [Hi Hp]. unfold next_index. destruct (w_pending w) as [new|] eqn:E.
  - specialize (Hp new eq_refl). assert (length new ≠ 0)%nat by (by destruct new).
    split; [|done]. cbn [w_index w_entries]. by case_match; apply Nat.mod_upper_bound.
  - split; [|cbn; intros l; by rewrite E]. cbn [set_index w_index w_entries]. apply Nat.mod_upper_bound. lia.
Qed.

Lemma tuned_pos_lt w p : tuned_pos w = Some p → (p < length (w_entries w))%nat.
Proof. unfold tuned_pos. intros (ref & _ & H)%bind_Some. by eapply find_ref_lt. Qed.

(** [emit] and [log] change neither flags nor positions. *)
Lemma emit_same st reason untuned s :
  let s' := emit st reason untuned s in
  sc_running s' = sc_running s ∧ sc_flags s' = sc_flags s ∧ sc_pc s' = sc_pc s ∧ sc_op s' = sc_op s ∧
  sc_lock s' = sc_lock s ∧ sc_ptt s' = sc_ptt s ∧ w_entries (sc_walk s') = w_entries (sc_walk s) ∧
  w_pending (sc_walk s') = w_pending (sc_walk s) ∧ w_index (sc_walk s') = w_index (sc_walk s) ∧
  w_tuned (sc_walk s') = w_tuned (sc_walk s).
Proof. unfold emit. cbn zeta. case_decide; [done|]. cbn. by destruct (sc_id s). Qed.

(** Changing only what [scanner_inv] does not look at. *)
Lemma scanner_inv_ext s s' :
  sc_running s' = sc_running s → sc_flags s' = sc_flags s → sc_pc s' = sc_pc s → sc_op s' = sc_op s →
  sc_lock s' = sc_lock s → sc_ptt s' = sc_ptt s → w_entries (sc_walk s') = w_entries (sc_walk s) →
  w_pending (sc_walk s') = w_pending (sc_walk s) → w_index (sc_walk s') = w_index (sc_walk s) →
  scanner_inv s → scanner_inv s'.
Proof.
  intros E1 E2 E3 E4 E5 E6 E7 E8 E9. unfold scanner_inv, common, walk_ok.
  by rewrite E1, E2, E3, E4, E5, E6, E7, E8, E9.
Qed.

(** Split the invariant of a state that is given field by field. *)
Ltac inv_goal :=
  unfold scanner_inv, common; cbn; split_and!; intros; destruct_or?; simplify_eq/=; try done; try congruence; try lia.

Lemma finish_inv reason s : between s → scanner_inv (finish reason s).
Proof.
  intros ((Hw & Hstop & Hop & Hgen) & Hrun & Hlock). unfold finish. cbn [set_pc sc_flags].
  destruct (f_stopping (sc_flags s)) eqn:E; [inv_goal|].
  unfold send_stopped. cbn. destruct (sc_id s); inv_goal.
Qed.

Lemma loop_head_inv s : between s → scanner_inv (loop_head s).
Proof.
  intros Hb. pose proof Hb as ((Hw & Hstop & Hop & Hgen) & Hrun & Hlock). unfold loop_head.
  destruct (f_held (sc_flags s)) eqn:Hheld; [inv_goal|].
  destruct (f_stopping (sc_flags s)) eqn:Est; [inv_goal|].
  destruct (w_entries (sc_walk s) !! w_index (sc_walk s)) as [e|]; [|by apply finish_inv].
  rewrite Hrun in Hw. unfold scan_blocked. cbn [sc_ptt sc_unkey with_flags with_walk]. destruct (sc_ptt s || sc_unkey s) eqn:Eptt.
  - unfold hold_begin. cbn. rewrite Hrun, Hheld, Est. cbn. inv_goal; by rewrite Hrun.
  - apply orb_false_iff in Eptt as [Eptt _]. inv_goal; by rewrite Hrun.
Qed.

Lemma between_walk g s : (walk_ok (sc_walk s) → walk_ok (g (sc_walk s))) → between s → between (with_walk g s).
Proof.
  intros Hg ((Hw & Hrest) & Hrun & Hlock). split_and!; [|done|done]. split; [|done].
  cbn. rewrite Hrun in *. by apply Hg.
Qed.

Lemma visit_done_inv b s : between s → scanner_inv (visit_done b s).
Proof.
  intros Hb. unfold visit_done. destruct b.
  - apply loop_head_inv, between_walk; [|done]. intros [Hi Hp]. by apply next_index_ok.
  - cbn zeta. case_decide; [apply finish_inv|apply loop_head_inv, between_walk; [apply next_index_ok|]];
      (apply between_walk; [by intros [? ?]|done]).
Qed.

(** The runner calls its own [hold]. *)
Lemma hold_begin_inv s s' : between s → hold_begin s = Some s' → scanner_inv (set_pc P_HoldWant s').
Proof.
  intros ((Hw & Hstop & Hop & Hgen) & Hrun & Hlock). unfold hold_begin.
  destruct (negb (sc_running s) || _ || _) eqn:Eg; [done|]. intros [= <-].
  apply orb_false_iff in Eg as [_ Est]. rewrite Hrun in Hw. inv_goal; by rewrite Hrun.
Qed.

(** A visit that a hold or a PTT has overtaken is behind the generation. *)
Definition overtaken (s : Scanner) : Prop :=
  f_held (sc_flags s) = true ∨ sc_ptt s = true → f_visit_gen (sc_flags s) < f_hold_gen (sc_flags s).

Lemma set_pc_inv pc s :
  between s → overtaken s → doing pc = false → pc_locked pc = false → scanner_inv (set_pc pc s).
Proof.
  intros ((Hw & Hstop & Hop & Hgen) & Hrun & Hlock) Hover Hd Hl. unfold overtaken in Hover.
  unfold scanner_inv, common. cbn. rewrite Hd, Hl. split_and!; try done. congruence.
Qed.

Lemma listen_loop_inv v s : between s → overtaken s → scanner_inv (listen_loop v s).
Proof.
  intros Hb Hov. unfold listen_loop. destruct (w_skip (sc_walk s)); [by apply visit_done_inv|by apply set_pc_inv].
Qed.

Lemma active_loop_inv v s : between s → overtaken s → scanner_inv (active_loop v s).
Proof.
  intros Hb Hov. unfold active_loop. destruct (w_skip (sc_walk s)); [by apply visit_done_inv|by apply set_pc_inv].
Qed.

Lemma step_done_inv k v a now s s' :
  scanner_inv s → sc_pc s = P_Doing k v → step_done k v a now s = Some s' → scanner_inv s'.
Proof.
  intros ((Hw & Hstop & Hop & Hgen) & Hend & Hlock & Hexcl & Hvis & Hdo) Hpc.
  rewrite Hpc in *. cbn in *. specialize (Hexcl eq_refl). specialize (Hvis eq_refl).
  assert (sc_running s = true) as Hrun by (destruct (sc_running s); [done|by specialize (Hend eq_refl)]).
  assert (∀ g, (walk_ok (sc_walk s) → walk_ok (g (sc_walk s))) → between (with_walk g (set_lock None s))) as Hbw.
  { intros g Hg. apply between_walk; [done|]. split_and!; [done|done|]. cbn. by rewrite Hexcl. }
  assert (between (set_lock None s)) as Hb by (split_and!; [done|done|cbn; by rewrite Hexcl]).
  assert (overtaken (set_lock None s)) as Hov by done.
  unfold step_done. intros Hs'.
  repeat case_match; simplify_eq; try done;
    lazymatch goal with
    | H : hold_begin _ = Some ?s1 |- scanner_inv (set_pc _ ?s1) => apply (hold_begin_inv _ _ Hb H)
    | |- scanner_inv (loop_head _) => apply loop_head_inv
    | |- scanner_inv (set_pc _ _) => apply set_pc_inv
    | |- scanner_inv (listen_loop _ _) => apply listen_loop_inv
    | |- scanner_inv (active_loop _ _) => apply active_loop_inv
    | |- scanner_inv (visit_done _ _) => apply visit_done_inv
    | |- scanner_inv (finish _ _) => apply finish_inv
    | _ => idtac
    end;
    try done; try (apply (Hbw (set_tuned _)); by intros [? ?]); try (apply (Hbw (set_routed _)); by intros [? ?]).
Qed.

Lemma step_start_inv k v s :
  scanner_inv s → sc_pc s = P_Want k v → sc_lock s = None → scanner_inv (step_start k v s).
Proof.
  intros (Hcom & Hend & Hlock & Hexcl & Hvis & Hdo) Hpc Hfree.
  rewrite Hpc in *. cbn in *. specialize (Hvis eq_refl). rewrite Hfree in Hlock.
  assert (op_locked (sc_op s) = false) as Hopl by (by destruct (op_locked (sc_op s))).
  assert (sc_running s = true) as Hrun by (destruct (sc_running s); [done|by specialize (Hend eq_refl)]).
  assert (between s) as Hb by (split_and!; [done|done|by rewrite Hopl]).
  unfold step_start. destruct (f_held (sc_flags s) || _ || _) eqn:Eg; [by apply loop_head_inv|].
  destruct (drained s); [by apply finish_inv|].
  apply orb_false_iff in Eg as [[Hheld Hst]%orb_false_iff Hg%bool_decide_eq_false].
  assert (f_visit_gen (sc_flags s) = f_hold_gen (sc_flags s)) as Hgen by lia.
  assert (sc_ptt s = false) as Hptt by (destruct (sc_ptt s); [specialize (Hvis (or_intror eq_refl)); lia|done]).
  set (s1 := log _ _).
  assert (scanner_inv s1) as H1.
  { destruct Hcom as (Hw & Hstop & Hop & Hge). unfold s1. inv_goal. by split; [|left]. }
  assert (∀ st, scanner_inv (emit st None false s1)) as He.
  { intros st. destruct (emit_same st None false s1) as (?&?&?&?&?&?&?&?&?&?). by eapply scanner_inv_ext. }
  by destruct k.
Qed.

Lemma hold_emit_same reason s :
  let s' := hold_emit reason s in
  sc_running s' = sc_running s ∧ sc_flags s' = sc_flags s ∧ sc_pc s' = sc_pc s ∧ sc_op s' = sc_op s ∧
  sc_lock s' = sc_lock s ∧ sc_ptt s' = sc_ptt s ∧ (walk_ok (sc_walk s) → walk_ok (sc_walk s')).
Proof.
  unfold hold_emit. cbn zeta. set (s1 := with_walk _ s). set (b := bool_decide _).
  destruct (emit_same SS_HELD (Some reason) b s1) as (?&?&?&?&?&?&E1&E2&E3&_). split_and!; try done.
  intros [Hi Hp]. unfold walk_ok. rewrite E1, E2, E3. cbn. split; [|done].
  destruct (tuned_pos (sc_walk s)) as [p|] eqn:E; [|done]. by apply tuned_pos_lt.
Qed.

Lemma runner_step_inv l s s' : scanner_inv s → runner_step l s = Some s' → scanner_inv s'.
Proof.
  intros Hinv. pose proof Hinv as (Hcom & Hend & Hlock & Hexcl & Hvis & Hdo).
  assert (sc_pc s ≠ P_End → sc_running s = true) as Hrun by (destruct (sc_running s); [done|by specialize (Hend eq_refl)]).
  assert (∀ pc, sc_pc s = pc → pc ≠ P_End → pc_locked pc = false → between s) as Hbet.
  { intros pc Hpc Hne Hl. split_and!; [done|by apply Hrun; congruence|]. by rewrite Hlock, Hpc, Hl. }
  assert (∀ pc g, sc_pc s = pc → pc ≠ P_End → pc_locked pc = true → (walk_ok (sc_walk s) → walk_ok (g (sc_walk s))) →
    between (set_lock None (with_walk g s))) as Hrel.
  { intros pc g Hpc Hne Hl Hg. assert (sc_running s = true) as Hr by (apply Hrun; congruence).
    destruct Hcom as (Hw & Hrest). unfold between, common. cbn. rewrite Hr in *.
    destruct (Hg Hw). rewrite Hpc in Hexcl. rewrite (Hexcl Hl).
    destruct Hrest as (? & ? & ?). split_and!; done. }
  unfold runner_step. destruct l; destruct (sc_pc s) eqn:Hpc; try done; try (by destruct a).
  - (* begin *) intros [= <-]. apply loop_head_inv. by apply (Hbet _ eq_refl).
  - (* lock *) destruct (sc_lock s) eqn:El; [done|]. intros [= <-]. by apply step_start_inv.
  - destruct (sc_lock s) eqn:El; [done|]. destruct (negb (sc_running s) || _) eqn:Eg; intros [= <-].
    + apply loop_head_inv. by apply (Hbet _ eq_refl).
    + apply orb_false_iff in Eg as [Hr%negb_false_iff Hst]. destruct (hold_emit_same "ptt" s) as (E1&E2&E3&E4&E5&E6&E7).
      destruct Hcom as (Hw & Hstop & Hop & Hge). unfold scanner_inv, common. cbn.
      rewrite E1, E2, E4, E6, Hr in *. destruct (op_locked (sc_op s)) eqn:Eo; [done|].
      split_and!; try done. by apply E7.
  - (* done *) destruct a; intros Hs; by eapply step_done_inv.
  - destruct a; try done. destruct (hold_route None s) as [e|]; intros [= <-].
    + destruct Hcom as (Hw & Hstop & Hop & Hge). unfold scanner_inv, common. cbn. rewrite Hlock.
      split_and!; try done. intros Hr. by rewrite Hrun in Hr.
    + apply loop_head_inv. by apply (Hrel P_HoldEmit (λ w, w)).
  - destruct a; try done. intros [= <-]. apply loop_head_inv.
    apply (Hrel (P_HoldRoute e) (set_routed (Some (en_ref e)))); done.
  - (* wake *) assert (between s) as Hb by (by apply (Hbet _ eq_refl)). assert (overtaken s) as Hov by (exact (Hvis eq_refl)).
    intros [= <-]. destruct listening; [by apply listen_loop_inv|by apply set_pc_inv].
  - (* poll *) assert (between s) as Hb by (by apply (Hbet _ eq_refl)).
    destruct (f_resume (sc_flags s)); [|destruct (drained s)]; intros [= <-]; [|by apply finish_inv|done].
    apply loop_head_inv, between_walk; [apply next_index_ok|done].
Qed.

Lemma outside_inv ptt paused s :
  (ptt = true → sc_ptt s = true) → scanner_inv s → scanner_inv (set_outside ptt paused s).
Proof.
  intros Hp (Hcom & Hend & Hlock & Hexcl & Hvis & Hdo). split_and!; cbn; try done.
  - intros Hv [Hh|Ht]; apply Hvis; auto.
  - intros Hd. destruct (Hdo Hd) as [E ?]. split; [|done]. destruct ptt; [|done]. specialize (Hp eq_refl). congruence.
Qed.

Lemma operator_step_inv l s s' : scanner_inv s → operator_step l s = Some s' → scanner_inv s'.
Proof.
  intros Hinv. pose proof Hinv as ((Hw & Hstop & Hop & Hge) & Hend & Hlock & Hexcl & Hvis & Hdo).
  unfold operator_step. destruct l; destruct (sc_op s) eqn:Eop; try done;
    try (intros [= <-]; by apply outside_inv); try (intros [= <-]; exact Hinv); cbn [op_stop op_locked op_hold] in *.
  - (* start *) destruct (sc_running s) eqn:Hr; [done|]. rewrite Hend in * by done.
    intros [= <-]. case_decide as Hnil.
    + cbn. inv_goal.
    + cbn. inv_goal. split; cbn; [|done]. destruct entries; [done|simpl; lia].
  - (* update *) destruct (negb (sc_running s) || _) eqn:Eg; [by intros [= <-]|].
    apply orb_false_iff in Eg as [Hr%negb_false_iff _]. rewrite Hr in *. case_decide.
    + rewrite Hstop. intros [= <-]. unfold scanner_inv, common. cbn. rewrite Hr. split_and!; done.
    + intros [= <-]. unfold scanner_inv, common. cbn. rewrite Hr, Eop. destruct Hw as [Hi Hp].
      split_and!; try done. split; [done|]. by intros l [= <-].
  - (* resume *) destruct (negb (sc_running s) || _) eqn:Eg; [by intros [= <-]|].
    apply orb_false_iff in Eg as [Hr%negb_false_iff _]. rewrite Hr in *.
    destruct (f_held (sc_flags s)) eqn:Eh; intros [= <-]; [|done].
    unfold scanner_inv, common. cbn. rewrite Hr, Eop. split_and!; try done; naive_solver.
  - (* skip *) destruct (negb (sc_running s) || _) eqn:Eg; [by intros [= <-]|].
    apply orb_false_iff in Eg as [Hr%negb_false_iff _]. rewrite Hr in *.
    destruct (f_held (sc_flags s)) eqn:Eh; intros [= <-].
    + unfold scanner_inv, common. cbn. rewrite Hr, Eop. pose proof (next_index_ok 1 _ Hw) as [? ?].
      split_and!; try done; naive_solver.
    + unfold scanner_inv, common. cbn. rewrite Hr, Eop, Eh. by split_and!.
  - (* hold *) unfold hold_begin. destruct (negb (sc_running s) || _ || _) eqn:Eg; [by intros [= <-]|]. intros [= <-].
    apply orb_false_iff in Eg as [[Hr%negb_false_iff Hh]%orb_false_iff Hs]. rewrite Hr in *.
    unfold scanner_inv, common. cbn. rewrite Hr. split_and!; try done; try lia; naive_solver.
  - (* stop *) destruct (negb (sc_running s) || _) eqn:Eg; [by intros [= <-]|]. intros [= <-].
    apply orb_false_iff in Eg as [Hr%negb_false_iff Hs]. rewrite Hr in *.
    unfold scanner_inv, common. cbn. rewrite Hr. split_and!; try done; naive_solver.
  - (* a hold gets the lock *) destruct (sc_lock s) eqn:El; [done|].
    destruct (pc_locked (sc_pc s)) eqn:Epl; [done|].
    assert (doing (sc_pc s) = false) as Hnd by (by destruct (sc_pc s)).
    destruct (negb (sc_running s) || _) eqn:Eg; intros [= <-].
    + unfold scanner_inv, common. cbn. rewrite Epl, Hnd, El. split_and!; try done.
    + apply orb_false_iff in Eg as [Hr%negb_false_iff Hs].
      destruct (hold_emit_same reason s) as (E1&E2&E3&E4&E5&E6&E7). unfold scanner_inv, common. cbn.
      rewrite E1, E2, E3, E6, Epl, Hnd, Hr in *. split_and!; try done. by apply E7.
  - (* a stop gets the lock *) destruct (sc_lock s) eqn:El; [done|]. intros [= <-].
    unfold send_stopped. cbn. destruct (sc_id s); inv_goal.
  - destruct (hold_route keyed s) as [e|]; intros [= <-]; unfold scanner_inv, common; cbn; rewrite ?Eop;
      destruct (pc_locked (sc_pc s)) eqn:Epl; try (by specialize (Hexcl eq_refl));
      (assert (doing (sc_pc s) = false) as Hnd by (by destruct (sc_pc s))); rewrite Hnd; by split_and!.
  - intros [= <-]. unfold scanner_inv, common; cbn. destruct (pc_locked (sc_pc s)) eqn:Epl; [by specialize (Hexcl eq_refl)|].
    assert (doing (sc_pc s) = false) as Hnd by (by destruct (sc_pc s)). rewrite Hnd. by split_and!.
  - (* key *) destruct (negb (sc_running s) || _) eqn:Eg; [|done]. intros [= <-].
    unfold scanner_inv, common; cbn. rewrite Eop. destruct (sc_running s) eqn:Hr.
    + cbn in Eg. split_and!; try done.
      * intros Hv _. by apply Hvis; [|left].
      * intros Hd. destruct (Hdo Hd) as [_ [E|?]]; [|done]. exfalso.
        assert (visiting (sc_pc s) = true) as Hv by (by destruct (sc_pc s)). specialize (Hvis Hv (or_introl Eg)). lia.
    + rewrite Hend in * by done. split_and!; done.
Qed.

Lemma exec_inv l s s' : scanner_inv s → exec l s = Some s' → scanner_inv s'.
Proof.
  intros Hinv. unfold exec. destruct (runner_step l s) as [s1|] eqn:E.
  - intros [= <-]. by eapply runner_step_inv.
  - intros Hs. by eapply operator_step_inv.
Qed.

Lemma reachable_inv s : reachable s → scanner_inv s.
Proof.
  intros [ls Hrun]. assert (scanner_inv idle_scanner) as H0 by (unfold idle_scanner; inv_goal). revert H0 Hrun.
  generalize idle_scanner. induction ls as [|l ls IH]; intros s0 H0; cbn [run_labels]; [by intros [= <-]|].
  intros (s1 & H1 & Hrun)%bind_Some. by eapply IH, Hrun; eapply exec_inv.
Qed.

(** ** Which transitions start a step *)

Definition is_step (e : Event) : bool := match e with EV_Step _ _ => true | _ => false end.
Definition steps (s : Scanner) : list Event := filter (λ e, is_step e = true) (sc_log s).

Lemma steps_log e s : is_step e = false → steps (log e s) = steps s.
Proof. intros He. unfold steps. cbn [log sc_log]. rewrite filter_cons_False; [done|congruence]. Qed.

Lemma steps_emit st reason untuned s : steps (emit st reason untuned s) = steps s.
Proof. unfold emit. cbn zeta. case_decide; [done|]. cbn. destruct (sc_id s); [by rewrite steps_log|done]. Qed.

Lemma steps_finish reason s : steps (finish reason s) = steps s.
Proof.
  unfold finish, send_stopped. cbn. destruct (f_stopping (sc_flags s)); [done|]. by destruct (sc_id s).
Qed.

Lemma steps_loop_head s : steps (loop_head s) = steps s.
Proof.
  unfold loop_head. destruct (f_held _); [done|]. destruct (f_stopping _); [done|].
  destruct (_ !! _); [|apply steps_finish]. cbn. destruct (scan_blocked _); [|done]. unfold hold_begin. cbn.
  by destruct (_ || _ || _).
Qed.

Lemma steps_visit_done b s : steps (visit_done b s) = steps s.
Proof.
  unfold visit_done. destruct b; [by rewrite steps_loop_head|]. cbn zeta.
  case_decide; [by rewrite steps_finish|by rewrite steps_loop_head].
Qed.

Lemma steps_loops v s : steps (listen_loop v s) = steps s ∧ steps (active_loop v s) = steps s.
Proof. unfold listen_loop, active_loop. destruct (w_skip _); [|done]. by rewrite steps_visit_done. Qed.

Lemma steps_step_done k v a now s s' : step_done k v a now s = Some s' → steps s' = steps s.
Proof.
  unfold step_done. intros Hs. repeat case_match; simplify_eq;
    rewrite ?steps_finish, ?steps_loop_head, ?steps_visit_done, ?(proj1 (steps_loops _ _)), ?(proj2 (steps_loops _ _)); try done.
  all: match goal with H : hold_begin _ = Some _ |- _ => unfold hold_begin in H; revert H; case_match; [done|] end.
  all: by intros [= <-].
Qed.

Lemma steps_exec l s s' :
  exec l s = Some s' →
  steps s' = steps s ∨
  (∃ k v, sc_pc s = P_Want k v ∧ steps s' = EV_Step k (en_ref (v_entry v)) :: steps s ∧
    f_held (sc_flags s) = false ∧ f_stopping (sc_flags s) = false ∧ f_visit_gen (sc_flags s) = f_hold_gen (sc_flags s)).
Proof.
  unfold exec. destruct (runner_step l s) as [s1|] eqn:E.
  - intros [= <-]. revert E. unfold runner_step. destruct l, (sc_pc s) eqn:Hpc; try done; try (by destruct a).
    + intros [= <-]. left. apply steps_loop_head.
    + destruct (sc_lock s); [done|]. intros [= <-]. unfold step_start.
      destruct (_ || _ || _) eqn:Eg; [left; apply steps_loop_head|]. destruct (drained s); [left; apply steps_finish|].
      apply orb_false_iff in Eg as [[Hh Hs]%orb_false_iff Hg%bool_decide_eq_false]. right. exists k, v.
      split_and!; [done| |done|done|lia].
      destruct k; rewrite ?steps_emit; done.
    + destruct (sc_lock s); [done|]. destruct (_ || _); intros [= <-]; left; [apply steps_loop_head|].
      unfold hold_emit. cbn zeta. change (steps (emit SS_HELD (Some "ptt") (bool_decide (tuned_pos (sc_walk s) = None))
        (with_walk (λ w, set_index (default (w_index w) (tuned_pos (sc_walk s))) w) s)) = steps s). by rewrite steps_emit.
    + destruct a; intros Hs; left; by eapply steps_step_done.
    + destruct a; try done. destruct (hold_route None s); intros [= <-]; left; [by rewrite steps_log|by rewrite steps_loop_head].
    + destruct a; try done. intros [= <-]. left. by rewrite steps_loop_head.
    + intros [= <-]. left. destruct listening; [apply steps_loops|done].
    + destruct (f_resume _); [|destruct (drained s)]; intros [= <-]; left; [by rewrite steps_loop_head|apply steps_finish|done].
  - unfold operator_step. intros Hs. left.
    destruct l, (sc_op s); try done; repeat case_match; simplify_eq; try done.
    all: unfold send_stopped, hold_emit; cbn; repeat case_match; try done; unfold steps; cbn;
      rewrite ?filter_cons_False by done; try done.
    + match goal with H : hold_begin _ = Some _ |- _ => unfold hold_begin in H; revert H; case_match; [done|] end.
      by intros [= <-].
    + fold (steps (emit SS_HELD (Some reason) (bool_decide (tuned_pos (sc_walk s) = None))
        (with_walk (λ w, set_index (default (w_index w) (tuned_pos (sc_walk s))) w) s))). by rewrite steps_emit.
Qed.

(** ** Parsing lemmas *)

Lemma text_within_spec lo hi v t :
  text_within lo hi v = Some t → v = JStr t ∧ lo ≤ Z.of_nat (String.length t) ≤ hi.
Proof. destruct v; try done. cbn. case_bool_decide; [|done]. by intros [= <-]. Qed.

Definition entry_ok (e : ScanEntry) : Prop :=
  1 ≤ Z.of_nat (String.length (en_ref e)) ≤ MAX_REF_LEN ∧ Z.of_nat (String.length (en_label e)) ≤ MAX_SCAN_LABEL_LEN ∧
  1 ≤ Z.of_nat (String.length (en_module e)) ≤ MAX_MODULE_LEN ∧
  Z.of_nat (String.length (en_rx_tone e)) ≤ MAX_TONE_LEN ∧ Z.of_nat (String.length (en_tx_tone e)) ≤ MAX_TONE_LEN ∧
  is_num (en_rx_frequency e) = Ok true ∧ is_num (en_tx_frequency e) = Ok true.

Lemma parse_entry_spec seen j e : parse_entry seen j = Ok (Some e) → entry_ok e ∧ en_ref e ∉ seen.
Proof.
  unfold parse_entry. destruct j as [| | | | | |fields]; try done.
  destruct (text_within 1 MAX_REF_LEN _) as [ref|] eqn:E1; [|done]. case_decide as Hs; [done|].
  destruct (text_within 0 MAX_SCAN_LABEL_LEN _) as [label|] eqn:E2; [|done].
  destruct (jget "slot" fields) as [| |slot| | | |]; try done.
  destruct (text_within 1 MAX_MODULE_LEN _) as [module|] eqn:E3; [|done].
  intros (rx & Hrx & H)%obind_Ok. destruct rx; [|done]. apply obind_Ok in H as (tx & Htx & H). destruct tx; [|done].
  cbn [negb] in H.
  destruct (text_within 0 MAX_TONE_LEN (jget "rx_tone" fields)) as [rt|] eqn:E4; [|done].
  destruct (text_within 0 MAX_TONE_LEN (jget "tx_tone" fields)) as [tt|] eqn:E5; [|done].
  injection H as <-. apply text_within_spec in E1, E2, E3, E4, E5. split; [|done].
  unfold entry_ok. cbn. naive_solver lia.
Qed.

Lemma parse_loop_spec raw : ∀ seen out l,
  (∀ r, r ∈ en_ref <$> out → r ∈ seen) → NoDup (en_ref <$> out) → Forall entry_ok out →
  parse_loop seen out raw = Ok (Some l) →
  NoDup (en_ref <$> l) ∧ Forall entry_ok l ∧ length l = (length out + length raw)%nat.
Proof.
  induction raw as [|j raw IH]; intros seen out l Hs Hnd Hok; cbn [parse_loop].
  { intros [= <-]. split_and!; [done|done|simpl; lia]. }
  intros ([e|] & He & Hrest)%obind_Ok; [|done]. apply parse_entry_spec in He as [He Hne].
  apply IH in Hrest as (H1 & H2 & H3).
  - split_and!; [done|done|]. rewrite length_app in H3. simpl in *. lia.
  - intros r. rewrite fmap_app, elem_of_app. intros [?|Hr]; [right; auto|]. apply list_elem_of_singleton in Hr as ->. by left.
  - rewrite fmap_app. apply list.NoDup_app. split_and!; [done| |apply NoDup_singleton].
    intros r Hr ->%list_elem_of_singleton. by apply Hne, Hs.
  - apply Forall_app. split; [done|by apply Forall_singleton].
Qed.

(** ** Properties *)

(** *** The runner leaves the operator's command alone *)

Lemma op_finish reason s : sc_op (finish reason s) = sc_op s.
Proof. unfold finish, send_stopped. cbn. destruct (f_stopping (sc_flags s)); [done|]. by destruct (sc_id s). Qed.

Lemma op_hold_begin s s' : hold_begin s = Some s' → sc_op s' = sc_op s.
Proof. unfold hold_begin. case_match; [done|]. by intros [= <-]. Qed.

Lemma op_loop_head s : sc_op (loop_head s) = sc_op s.
Proof.
  unfold loop_head. destruct (f_held _); [done|]. destruct (f_stopping _); [done|].
  destruct (_ !! _); [|apply op_finish]. cbn zeta. destruct (scan_blocked _); [|done].
  destruct (hold_begin _) as [s'|] eqn:E; [|done]. by apply op_hold_begin in E.
Qed.

Lemma op_visit_done b s : sc_op (visit_done b s) = sc_op s.
Proof.
  unfold visit_done. destruct b; [by rewrite op_loop_head|]. cbn zeta.
  case_decide; [by rewrite op_finish|by rewrite op_loop_head].
Qed.

Lemma op_loops v s : sc_op (listen_loop v s) = sc_op s ∧ sc_op (active_loop v s) = sc_op s.
Proof. unfold listen_loop, active_loop. destruct (w_skip _); [|done]. by rewrite op_visit_done. Qed.

Lemma op_step_done k v a now s s' : step_done k v a now s = Some s' → sc_op s' = sc_op s.
Proof.
  unfold step_done. intros Hs. repeat case_match; simplify_eq;
    rewrite ?op_finish, ?op_loop_head, ?op_visit_done, ?(proj1 (op_loops _ _)), ?(proj2 (op_loops _ _)); try done.
  all: match goal with H : hold_begin _ = Some _ |- _ => by apply op_hold_begin in H end.
Qed.

Lemma runner_step_op l s s' : runner_step l s = Some s' → sc_op s' = sc_op s.
Proof.
  unfold runner_step. destruct l, (sc_pc s) eqn:Hpc; try done; try (by destruct a).
  - intros [= <-]. apply op_loop_head.
  - destruct (sc_lock s); [done|]. intros [= <-]. unfold step_start.
    destruct (_ || _ || _); [apply op_loop_head|]. destruct (drained s); [apply op_finish|]. cbn zeta.
    destruct k; try done; by rewrite (proj1 (proj2 (proj2 (proj2 (emit_same _ _ _ _))))).
  - destruct (sc_lock s); [done|]. destruct (_ || _); intros [= <-]; [apply op_loop_head|].
    cbn. by destruct (hold_emit_same "ptt" s) as (_ & _ & _ & -> & _).
  - destruct a; intros Hs; by eapply op_step_done.
  - destruct a; try done. destruct (hold_route None s); intros [= <-]; [done|by rewrite op_loop_head].
  - destruct a; try done. intros [= <-]. by rewrite op_loop_head.
  - intros [= <-]. destruct listening; [apply op_loops|done].
  - destruct (f_resume _); [|destruct (drained s)]; intros [= <-]; [by rewrite op_loop_head|apply op_finish|done].
Qed.

(** A hold that took effect is over, whatever ends it. *)
Lemma hold_returns_free l s s' :
  scanner_inv s → exec l s = Some s' → op_locked (sc_op s) = true → sc_op s' = O_Idle →
  sc_lock s' = None ∧ pc_locked (sc_pc s') = false.
Proof.
  intros Hinv Hex Hl Hidle. pose proof (exec_inv _ _ _ Hinv Hex) as (_ & _ & Hlock' & _).
  destruct (pc_locked (sc_pc s')) eqn:Hpl; [|by rewrite Hidle in Hlock'].
  exfalso. destruct Hinv as (_ & _ & Hlock & Hexcl & _).
  assert (pc_locked (sc_pc s) = false) as Hpc by (destruct (pc_locked (sc_pc s)); [by rewrite Hexcl in Hl|done]).
  rewrite Hpc, Hl in Hlock. revert Hex. unfold exec.
  destruct (runner_step l s) as [s1|] eqn:E.
  - intros [= <-]. assert (sc_op s1 = sc_op s) as Ho by by eapply runner_step_op. rewrite Ho in Hidle.
    by rewrite Hidle in Hl.
  - clear E. unfold operator_step. intros Hs. destruct l, (sc_op s); try done; repeat case_match; simplify_eq; try done; cbn in *; congruence.
Qed.

(** C14. A hold stops the scanner before it returns, and a keyed PTT is never
    retuned.  In every interleaving: while a step of a visit is in flight (tuning,
    reading the carrier, moving tx_route, sending a state), no PTT is keyed or being
    keyed, and a hold that has been called has not returned yet; a hold that took
    effect returns when nothing of the scanner is in flight; so when the scan is held
    and no hold is waiting, all that can be in flight is the hold the scanner called
    itself, sending its frame or moving tx_route (a second hold returns at once and
    does not wait for that).  And a step starts only when the scan is neither held
    nor stopping and no PTT is keyed, even if the hold was resumed while the runner
    slept. *)
Theorem hold_quiesces s :
  reachable s →
  (∀ k v, sc_pc s = P_Doing k v → sc_ptt s = false ∧ (f_held (sc_flags s) = true → op_hold (sc_op s) = true)) ∧
  (∀ l s', exec l s = Some s' → op_locked (sc_op s) = true → sc_op s' = O_Idle →
    sc_lock s' = None ∧ pc_locked (sc_pc s') = false) ∧
  (f_held (sc_flags s) = true → op_hold (sc_op s) = false → pc_locked (sc_pc s) = true →
    sc_pc s = P_HoldEmit ∨ ∃ e, sc_pc s = P_HoldRoute e) ∧
  (∀ l s', exec l s = Some s' → steps s' ≠ steps s →
    f_held (sc_flags s) = false ∧ f_stopping (sc_flags s) = false ∧ sc_ptt s = false).
Proof.
  intros Hinv%reachable_inv. pose proof Hinv as (_ & _ & _ & _ & Hvis & Hdo).
  assert (∀ k v, sc_pc s = P_Doing k v → sc_ptt s = false ∧ (f_held (sc_flags s) = true → op_hold (sc_op s) = true)) as H1.
  { intros k v Hpc. rewrite Hpc in Hvis, Hdo. specialize (Hvis eq_refl). destruct (Hdo eq_refl) as [Hp Hg].
    split; [done|]. intros Hh. destruct Hg as [Hg|]; [|done]. specialize (Hvis (or_introl Hh)). lia. }
  split_and!; [done| | |].
  - intros l s' Hex Hl Hidle. by eapply hold_returns_free.
  - intros Hh Hop Hl. destruct (sc_pc s) eqn:Hpc; try done; [|by left|by right; eexists].
    destruct (H1 _ _ eq_refl) as [_ Hc]. specialize (Hc Hh). congruence.
  - intros l s' Hex Hst. destruct (steps_exec l s s' Hex) as [|(k & v & Hpc & _ & Hh & Hs & Hg)]; [done|].
    split_and!; [done|done|]. destruct (sc_ptt s); [|done]. rewrite Hpc in Hvis.
    specialize (Hvis eq_refl (or_intror eq_refl)). lia.
Qed.

Definition sample_entry (ref : string) (slot : Z) : ScanEntry :=
  mkEntry ref ref slot "fm" (JInt 145600000) (JInt 145000000) "" "".

(** A scan that has just started to tune its first entry. *)
Definition tuning_trace : list Label :=
  [L_Start "scan" [sample_entry "a" 1; sample_entry "b" 2] 2000000 5000000; L_Begin; L_Lock; L_Done A_Sent 0; L_Lock].

(** A PTT calls hold while the entry is being tuned; the hold waits for the step,
    sends its frame and moves the route: it is about to return. *)
Definition holding_trace : list Label :=
  tuning_trace ++ [L_Hold "ptt" (Some (1, "fm")); L_Done A_Applied 1; L_OpLock; L_OpDone].

Lemma hold_quiesces_witness :
  ∃ s s', run_labels holding_trace idle_scanner = Some s ∧ exec L_OpDone s = Some s' ∧
    f_held (sc_flags s') = true ∧ sc_op s' = O_Idle ∧ sc_lock s' = None ∧ pc_locked (sc_pc s') = false.
Proof.
  destruct (run_labels holding_trace idle_scanner) as [s|] eqn:E; [|vm_compute in E; discriminate].
  destruct (exec L_OpDone s) as [s'|] eqn:E'; [|vm_compute in E; injection E as <-; vm_compute in E'; discriminate].
  exists s, s'. split; [reflexivity|]. split; [exact E'|].
  destruct (hold_quiesces s (ex_intro _ holding_trace E)) as (_ & H & _).
  specialize (H L_OpDone s' E'). vm_compute in E. injection E as <-. vm_compute in E'. injection E' as <-.
  split; [reflexivity|]. split; [reflexivity|]. apply H; reflexivity.
Defined.

(** The scanner never runs off its list: in every reachable state with a
    running task the current index is a valid position, whatever updates,
    skips, holds and failures have moved it, a list waiting to be adopted is
    not empty, and a task that has ended leaves the scanner ready for a start. *)
Lemma scan_index_valid s :
  reachable s →
  (sc_running s = true → is_Some (w_entries (sc_walk s) !! w_index (sc_walk s)) ∧ w_pending (sc_walk s) ≠ Some []) ∧
  (sc_running s = false → sc_pc s = P_End ∧ sc_flags s = reset_flags).
Proof.
  intros ((Hw & _) & Hend & _)%reachable_inv. destruct (sc_running s); split; try done.
  - intros _. destruct Hw as [Hi Hp]. split; [by apply lookup_lt_is_Some_2|]. intros E. by apply (Hp [] E).
  - intros _. split; [by apply Hend|done].
Qed.

Lemma scan_index_valid_witness :
  ∃ s, run_labels (tuning_trace ++ [L_Done A_ApplyFailed 1; L_Lock]) idle_scanner = Some s ∧
    is_Some (w_entries (sc_walk s) !! w_index (sc_walk s)).
Proof.
  destruct (run_labels (tuning_trace ++ [L_Done A_ApplyFailed 1; L_Lock]) idle_scanner) as [s|] eqn:E;
    [|vm_compute in E; discriminate].
  exists s. split; [reflexivity|]. apply (scan_index_valid s (ex_intro _ _ E)). vm_compute in E. injection E as <-. reflexivity.
Defined.

(** An accepted entry list is well formed: at most [MAX_ENTRIES] entries,
    one per input, with distinct non-empty refs, bounded texts and finite
    frequencies. *)
Lemma parse_entries_well_formed raw l :
  parse_entries raw = Ok (Some l) →
  (length l ≤ MAX_ENTRIES)%nat ∧ NoDup (en_ref <$> l) ∧ Forall entry_ok l ∧ ∃ js, raw = JList js ∧ length js = length l.
Proof.
  destruct raw as [| | | | |js|]; try done. cbn [parse_entries]. case_decide as Hlen; [done|].
  intros (H1 & H2 & H3)%parse_loop_spec; [|by intros r ?%not_elem_of_nil|constructor|constructor].
  cbn [length] in H3. split_and!; [lia|done|done|]. exists js. split; [done|lia].
Qed.

(** [parse_entries] documents [None] for anything malformed; an integer no
    float can hold raises instead. *)
Lemma parse_entries_overflow :
  parse_entries (JList [JObj [("ref", JStr "a"); ("slot", JInt 1); ("module", JStr "fm"); ("rx_frequency", JInt (2 ^ 1024))]]) =
    Raise ScanOverflow.
Proof. vm_compute. reflexivity. Qed.

(** A PTT can be keyed while the runner's own hold is changing tx_route: the
    broker's hold returns at once because the scan is already held. *)
Definition early_hold_trace : list Label :=
  [L_Start "scan" [sample_entry "a" 1; sample_entry "b" 2] 2000000 5000000; L_Begin; L_Lock; L_Done A_Sent 0;
   L_Lock; L_Done A_Applied 0;
   L_Hold "ptt" (Some (2, "fm")); L_OpLock; L_OpDone; L_Key; L_Resume "scan";
   L_Lock; L_Lock; L_Unkey; L_Done A_Sent 1;
   L_Hold "ptt" (Some (2, "fm")); L_Key].

(** The route of a hold can change under a keyed PTT: there is an
    interleaving in which the broker has called hold for a PTT on slot 2, the
    call has returned and the PTT is keyed, while the hold of the runner itself
    is still moving tx_route to slot 1. *)
Lemma route_moves_under_keyed_ptt :
  ∃ s e, run_labels early_hold_trace idle_scanner = Some s ∧ sc_ptt s = true ∧ sc_op s = O_Idle ∧
    sc_pc s = P_HoldRoute e ∧ en_slot e = 1.
Proof. eexists _, _. split; [vm_compute; reflexivity|]. vm_compute. done. Qed.

