(* ===== verification/FirmwareModel.v ===== *)
(** * Module firmware: rows, targets and the reconciler

    Models [apps/module_firmware/models.py], the key predicates of [mcuboot.py],
    [reconciler.py] and the read-only drain predicate of [drain.py].  The desired
    firmware of a radio module comes from a target (station, group or fleet); a
    convergence row per module and release records how the update is going.

    Tables are lists ([Prelude]); [get_or_create] and [select_for_update().get]
    of a row are one step.  A Python object [module] that the caller read earlier
    is an argument of its own, because [reconcile_module] refreshes only four of
    its columns.  Audit texts are display only, except those the code compares
    (the successful commit and the two anomalies of the ingestion). *)

From Stdlib Require Import ZArith Lia.
From stdpp Require Import sorting.
From stdpp Require Import base gmap list strings.
From S2P Require Import Prelude Json Permissions ControlLock.

Local Open Scope Z_scope.

Create HintDb firmware.

(** ** Data *)

Definition QUARANTINE_ATTEMPT_LIMIT : Z := 3.
Definition DRAIN_TRANSIENT_LIMIT : Z := 5.

Inductive UidSource := STM32_UID | SYNTHETIC.
Inductive Lifecycle := LC_READY | LC_DEPLOYED | LC_DEFECT | LC_IN_LAB | LC_RETIRED.
Inductive Registration := UNREGISTERED | REGISTERED.
Inductive Convergence := C_OK | C_UPDATING | C_QUARANTINED | C_FAILED | C_NOT_UPDATABLE | C_UNKNOWN.

Inductive CState := S_OK | S_UPDATING | S_QUARANTINED | S_FAILED | S_NOT_UPDATABLE.
Inductive Phase := DOWNLOADING | FLASHING | VERIFYING.
Inductive ReasonCode := TRANSIENT_LIMIT | BOOT_KEY_MISMATCH.
Inductive ErrorMode := E_REJECTED | E_ROLLED_BACK | E_TRANSIENT.

#[export] Instance UidSource_eq_dec : EqDecision UidSource.
Proof. solve_decision. Defined.
#[export] Instance Lifecycle_eq_dec : EqDecision Lifecycle.
Proof. solve_decision. Defined.
#[export] Instance Registration_eq_dec : EqDecision Registration.
Proof. solve_decision. Defined.
#[export] Instance Convergence_eq_dec : EqDecision Convergence.
Proof. solve_decision. Defined.
#[export] Instance CState_eq_dec : EqDecision CState.
Proof. solve_decision. Defined.
#[export] Instance Phase_eq_dec : EqDecision Phase.
Proof. solve_decision. Defined.
#[export] Instance ReasonCode_eq_dec : EqDecision ReasonCode.
Proof. solve_decision. Defined.
#[export] Instance ErrorMode_eq_dec : EqDecision ErrorMode.
Proof. solve_decision. Defined.

Record Module_ := mkModule {
  mo_pk : Z;
  mo_uid : string;
  mo_uid_source : UidSource;
  mo_type : Z;
  mo_lifecycle : Lifecycle;
  mo_registration : Registration;
  mo_version : string;
  mo_variant : string;
  mo_convergence : Convergence;
  mo_boot_key : string;
  mo_first_seen : option Z;
  mo_last_seen : option Z
}.

Record Assignment := mkAssignment {
  as_pk : Z;
  as_module : Z;
  as_station : option Z;
  as_slot : string;
  as_from : Z;
  as_to : option Z
}.

Record FwRelease := mkFwRelease {
  rl_pk : Z;
  rl_type : Z;
  rl_variant : string;
  rl_version : string;
  rl_storage_key : string;
  rl_sha256 : string;
  rl_size : Z;
  rl_sim_storage_key : string;
  rl_sim_sha256 : string;
  rl_sim_size : option Z;
  rl_boot_key_hash : string;
  rl_archived_at : option Z
}.

Inductive Scope := FLEET | GROUP | STATION.

#[export] Instance Scope_eq_dec : EqDecision Scope.
Proof. solve_decision. Defined.

Record Target := mkTarget {
  tg_type : Z;
  tg_version : string;
  tg_scope : Scope;
  tg_group : option Z;
  tg_station : option Z;
  tg_canary_group : option Z
}.

(** [""] of a choice column is [None]. *)
Record Conv := mkConv {
  cs_pk : Z;
  cs_module : Z;
  cs_release : Z;
  cs_state : CState;
  cs_attempts : Z;
  cs_transient : Z;
  cs_phase : option Phase;
  cs_phase_at : option Z;
  cs_reason : option ReasonCode;
  cs_before : option CState;
  cs_instructed_at : option Z;
  cs_error_mode : option ErrorMode;
  cs_error_message : string;
  cs_created_at : Z;
  cs_updated_at : Z;
  cs_last_attempt_at : option Z
}.

#[export] Instance Module_eq_dec : EqDecision Module_.
Proof. solve_decision. Defined.
#[export] Instance Assignment_eq_dec : EqDecision Assignment.
Proof. solve_decision. Defined.
#[export] Instance FwRelease_eq_dec : EqDecision FwRelease.
Proof. solve_decision. Defined.
#[export] Instance Target_eq_dec : EqDecision Target.
Proof. solve_decision. Defined.
#[export] Instance Conv_eq_dec : EqDecision Conv.
Proof. solve_decision. Defined.

(** Attribute assignments. *)

Definition set_convergence (v : Convergence) (m : Module_) : Module_ :=
  mkModule (mo_pk m) (mo_uid m) (mo_uid_source m) (mo_type m) (mo_lifecycle m) (mo_registration m)
    (mo_version m) (mo_variant m) v (mo_boot_key m) (mo_first_seen m) (mo_last_seen m).

Definition set_cstate (v : CState) (c : Conv) : Conv :=
  mkConv (cs_pk c) (cs_module c) (cs_release c) v (cs_attempts c) (cs_transient c) (cs_phase c)
    (cs_phase_at c) (cs_reason c) (cs_before c) (cs_instructed_at c) (cs_error_mode c)
    (cs_error_message c) (cs_created_at c) (cs_updated_at c) (cs_last_attempt_at c).

Definition set_attempts (v : Z) (c : Conv) : Conv :=
  mkConv (cs_pk c) (cs_module c) (cs_release c) (cs_state c) v (cs_transient c) (cs_phase c)
    (cs_phase_at c) (cs_reason c) (cs_before c) (cs_instructed_at c) (cs_error_mode c)
    (cs_error_message c) (cs_created_at c) (cs_updated_at c) (cs_last_attempt_at c).

Definition set_transient (v : Z) (c : Conv) : Conv :=
  mkConv (cs_pk c) (cs_module c) (cs_release c) (cs_state c) (cs_attempts c) v (cs_phase c)
    (cs_phase_at c) (cs_reason c) (cs_before c) (cs_instructed_at c) (cs_error_mode c)
    (cs_error_message c) (cs_created_at c) (cs_updated_at c) (cs_last_attempt_at c).

Definition set_phase (v : option Phase) (at_ : option Z) (c : Conv) : Conv :=
  mkConv (cs_pk c) (cs_module c) (cs_release c) (cs_state c) (cs_attempts c) (cs_transient c) v
    at_ (cs_reason c) (cs_before c) (cs_instructed_at c) (cs_error_mode c)
    (cs_error_message c) (cs_created_at c) (cs_updated_at c) (cs_last_attempt_at c).

Definition set_reason (v : option ReasonCode) (c : Conv) : Conv :=
  mkConv (cs_pk c) (cs_module c) (cs_release c) (cs_state c) (cs_attempts c) (cs_transient c)
    (cs_phase c) (cs_phase_at c) v (cs_before c) (cs_instructed_at c) (cs_error_mode c)
    (cs_error_message c) (cs_created_at c) (cs_updated_at c) (cs_last_attempt_at c).

Definition set_before (v : option CState) (c : Conv) : Conv :=
  mkConv (cs_pk c) (cs_module c) (cs_release c) (cs_state c) (cs_attempts c) (cs_transient c)
    (cs_phase c) (cs_phase_at c) (cs_reason c) v (cs_instructed_at c) (cs_error_mode c)
    (cs_error_message c) (cs_created_at c) (cs_updated_at c) (cs_last_attempt_at c).

Definition set_instructed (v : option Z) (c : Conv) : Conv :=
  mkConv (cs_pk c) (cs_module c) (cs_release c) (cs_state c) (cs_attempts c) (cs_transient c)
    (cs_phase c) (cs_phase_at c) (cs_reason c) (cs_before c) v (cs_error_mode c)
    (cs_error_message c) (cs_created_at c) (cs_updated_at c) (cs_last_attempt_at c).

Definition set_error (mode : option ErrorMode) (message : string) (c : Conv) : Conv :=
  mkConv (cs_pk c) (cs_module c) (cs_release c) (cs_state c) (cs_attempts c) (cs_transient c)
    (cs_phase c) (cs_phase_at c) (cs_reason c) (cs_before c) (cs_instructed_at c) mode
    message (cs_created_at c) (cs_updated_at c) (cs_last_attempt_at c).

Definition set_last_attempt (v : option Z) (c : Conv) : Conv :=
  mkConv (cs_pk c) (cs_module c) (cs_release c) (cs_state c) (cs_attempts c) (cs_transient c)
    (cs_phase c) (cs_phase_at c) (cs_reason c) (cs_before c) (cs_instructed_at c) (cs_error_mode c)
    (cs_error_message c) (cs_created_at c) (cs_updated_at c) v.

(** [save(update_fields=[..., "updated_at"])]: [auto_now]. *)
Definition fw_stamp (now : Z) (c : Conv) : Conv :=
  mkConv (cs_pk c) (cs_module c) (cs_release c) (cs_state c) (cs_attempts c) (cs_transient c)
    (cs_phase c) (cs_phase_at c) (cs_reason c) (cs_before c) (cs_instructed_at c) (cs_error_mode c)
    (cs_error_message c) (cs_created_at c) now (cs_last_attempt_at c).

(** [phase = ""; phase_at = None; instructed_at = None]. *)
Definition end_attempt (c : Conv) : Conv := set_instructed None (set_phase None None c).

(** The events this component writes to [StationAuditLog]. *)
Inductive FwEvent :=
| MODULE_UPDATABLE_AGAIN | MODULE_NOT_UPDATABLE | MODULE_QUARANTINED | MODULE_QUARANTINE_RELEASED
| MODULE_FLASH_INSTRUCTED | MODULE_FLASH_STARTED | MODULE_FLASH_PHASE | MODULE_FLASH_SUCCESS
| MODULE_FLASH_FAILED | MODULE_FLASH_ROLLED_BACK | MODULE_FLASH_REJECTED | MODULE_FLASH_GAVE_UP
| MODULE_FLASH_RETRY | MODULE_FLASH_CONFLICT
| MODULE_DISCOVERED | UPDATED | FIRMWARE_UPDATE | MODULE_SWAPPED | MODULE_ASSIGNMENT_CHANGED
| MODULE_LIFECYCLE_CHANGED | MODULE_REGISTERED.

#[export] Instance Event_eq_dec : EqDecision FwEvent.
Proof. solve_decision. Defined.

Record Audit := mkAudit { au_module : Z; au_station : option Z; au_event : FwEvent; au_message : string }.

#[export] Instance Audit_eq_dec : EqDecision Audit.
Proof. solve_decision. Defined.

(** The columns of [Station] this component reads. *)
Record FwStation := mkFwStation {
  fs_pk : Z;
  fs_group : option Z;
  fs_last_seen : option Z;
  fs_capabilities : Json
}.

(** The tables; the audit log is newest first. *)
Record FwDb := mkFwDb {
  fw_stations : list FwStation;
  fw_locks : list (Z * Lock);
  fw_modules : list Module_;
  fw_releases : list FwRelease;
  fw_targets : list Target;
  fw_assignments : list Assignment;
  fw_conv : list Conv;
  fw_audit : list Audit
}.

Definition with_modules (v : list Module_) (db : FwDb) : FwDb :=
  mkFwDb (fw_stations db) (fw_locks db) v (fw_releases db) (fw_targets db) (fw_assignments db)
    (fw_conv db) (fw_audit db).

Definition with_assignments (v : list Assignment) (db : FwDb) : FwDb :=
  mkFwDb (fw_stations db) (fw_locks db) (fw_modules db) (fw_releases db) (fw_targets db) v
    (fw_conv db) (fw_audit db).

Definition with_conv (v : list Conv) (db : FwDb) : FwDb :=
  mkFwDb (fw_stations db) (fw_locks db) (fw_modules db) (fw_releases db) (fw_targets db)
    (fw_assignments db) v (fw_audit db).

Definition with_audit (v : list Audit) (db : FwDb) : FwDb :=
  mkFwDb (fw_stations db) (fw_locks db) (fw_modules db) (fw_releases db) (fw_targets db)
    (fw_assignments db) (fw_conv db) v.

Definition find_module (pk : Z) (db : FwDb) : option Module_ :=
  head (filter (λ m, mo_pk m = pk) (fw_modules db)).

Definition find_station (pk : Z) (db : FwDb) : option FwStation :=
  head (filter (λ s, fs_pk s = pk) (fw_stations db)).

Definition find_conv (pk : Z) (db : FwDb) : option Conv :=
  head (filter (λ c, cs_pk c = pk) (fw_conv db)).

Definition write_conv (c : Conv) (db : FwDb) : FwDb :=
  with_conv (update_where (λ r, cs_pk r = cs_pk c) (λ _, c) (fw_conv db)) db.

(** [_audit]: each event is a row of its own; later events are newer. *)
Definition audit (m : Z) (station : option Z) (events : list FwEvent) (db : FwDb) : FwDb :=
  with_audit (reverse ((λ e, mkAudit m station e "") <$> events) ++ fw_audit db) db.

(** ** Station *)

Inductive Artifact := ARTIFACT_DFU | ARTIFACT_SIM.

#[export] Instance Artifact_eq_dec : EqDecision Artifact.
Proof. solve_decision. Defined.

Definition artifact_name (a : Artifact) : string :=
  match a with ARTIFACT_DFU => "dfu" | ARTIFACT_SIM => "sim" end.

Definition is_online (now : Z) (s : FwStation) : bool :=
  match fs_last_seen s with
  | None => false
  | Some t => bool_decide (now - t < seconds 120)
  end.

Definition is_jstr (s : string) (j : Json) : bool :=
  match j with JStr t => bool_decide (t = s) | _ => false end.

Definition module_ota_backends (s : FwStation) : list Artifact :=
  match fs_capabilities s with
  | JObj caps =>
    match jget "module_ota" caps with
    | JObj ota =>
      match jget "backends" ota with
      | JList bs => filter (λ a, existsb (is_jstr (artifact_name a)) bs = true) [ARTIFACT_DFU; ARTIFACT_SIM]
      | _ => []
      end
    | _ => []
    end
  | _ => []
  end.

(** ** Boot keys ([mcuboot.py]) *)

Definition boot_key_mismatch (m : Module_) (r : FwRelease) : bool :=
  if decide (mo_uid_source m = SYNTHETIC) then false
  else if decide (mo_boot_key m = "" ∨ rl_boot_key_hash r = "") then false
  else bool_decide (mo_boot_key m ≠ rl_boot_key_hash r).

Definition key_hint_applies (m : Module_) (r : FwRelease) (mode : ErrorMode) : bool :=
  if decide (mode ≠ E_ROLLED_BACK ∨ mo_uid_source m = SYNTHETIC) then false
  else bool_decide (mo_boot_key m = "" ∨ rl_boot_key_hash r = "").

(** ** Targets *)

(** The loop keeps the first target of each scope that applies. *)
Definition scope_step (st : FwStation) (acc : option Target * option Target * option Target)
    (t : Target) : option Target * option Target * option Target :=
  let '(station_t, group_t, fleet_t) := acc in
  match tg_scope t with
  | STATION =>
    if decide (station_t = None ∧ tg_station t = Some (fs_pk st))
    then (Some t, group_t, fleet_t) else acc
  | GROUP =>
    if decide (group_t = None ∧ fs_group st ≠ None ∧ tg_group t = fs_group st)
    then (station_t, Some t, fleet_t) else acc
  | FLEET => if decide (fleet_t = None) then (station_t, group_t, Some t) else acc
  end.

Definition resolve_effective_target (st : FwStation) (targets : list Target) : option Target :=
  let '(station_t, group_t, fleet_t) := foldl (scope_step st) (None, None, None) targets in
  match station_t, group_t, fleet_t with
  | Some t, _, _ => Some t
  | None, Some t, _ => Some t
  | None, None, None => None
  | None, None, Some t =>
    if decide (tg_canary_group t ≠ None ∧ tg_canary_group t ≠ fs_group st) then None else Some t
  end.

(** The query's filter: fleet, the station's own and its group's target. *)
Definition applicable (st : FwStation) (t : Target) : Prop :=
  tg_scope t = FLEET ∨ (tg_scope t = STATION ∧ tg_station t = Some (fs_pk st)) ∨
  (fs_group st ≠ None ∧ tg_scope t = GROUP ∧ tg_group t = fs_group st).

#[export] Instance applicable_dec st t : Decision (applicable st t).
Proof. unfold applicable. apply _. Defined.

Definition effective_target (st : FwStation) (module_type : Z) (db : FwDb) : option Target :=
  resolve_effective_target st
    (filter (λ t, applicable st t ∧ tg_type t = module_type) (fw_targets db)).

Definition open_assignment (m : Z) (db : FwDb) : option Assignment :=
  head (filter (λ a, as_module a = m ∧ as_to a = None) (fw_assignments db)).

Definition assigned_station (m : Z) (db : FwDb) : option FwStation :=
  a ← open_assignment m db; s ← as_station a; find_station s db.

(** The default manager hides archived rows. *)
Definition fw_find_release (module_type : Z) (variant version : string) (db : FwDb) : option FwRelease :=
  head (filter (λ r, rl_archived_at r = None ∧ rl_type r = module_type ∧ rl_variant r = variant ∧
    rl_version r = version) (fw_releases db)).

Definition desired_release_for_module (m : Module_) (db : FwDb) : option FwRelease :=
  st ← assigned_station (mo_pk m) db;
  t ← effective_target st (mo_type m) db;
  fw_find_release (mo_type m) (mo_variant m) (tg_version t) db.

(** ** The state decision *)

(** [_set_convergence_rollup]: one column of the module row. *)
Definition set_convergence_rollup (m : Module_) (v : Convergence) (db : FwDb) : FwDb :=
  if decide (mo_convergence m = v) then db
  else with_modules (update_where (λ r, mo_pk r = mo_pk m) (set_convergence v) (fw_modules db)) db.

Definition sticky_rollup (s : CState) : option Convergence :=
  match s with
  | S_QUARANTINED => Some C_QUARANTINED
  | S_NOT_UPDATABLE => Some C_NOT_UPDATABLE
  | S_FAILED => Some C_FAILED
  | S_OK | S_UPDATING => None
  end.

(** The sticky state a [not_updatable] detour stands in for. *)
Definition sticky_of (c : Conv) : option CState :=
  if decide (cs_state c = S_NOT_UPDATABLE) then cs_before c else Some (cs_state c).

Definition row_gives_up (now : Z) (c : Conv) : Conv :=
  fw_stamp now (end_attempt (set_reason (Some TRANSIENT_LIMIT) (set_cstate S_FAILED c))).

Definition keys_match (m : Module_) (r : FwRelease) : bool :=
  bool_decide (mo_boot_key m ≠ "" ∧ mo_boot_key m = rl_boot_key_hash r).

(** Step 3: leave [not_updatable], back to the sticky state it hid or, when
    there is none, to [updating] with fresh counters. *)
Definition leave_not_updatable (now : Z) (m : Module_) (desired : FwRelease) (c : Conv)
    : Conv * list FwEvent :=
  match cs_state c, cs_before c with
  | S_NOT_UPDATABLE, Some b =>
    if keys_match m desired || bool_decide (mo_version m = rl_version desired) then
      (fw_stamp now (set_reason (if decide (b = S_FAILED) then Some TRANSIENT_LIMIT else None)
         (set_before None (set_cstate b c))), [MODULE_UPDATABLE_AGAIN])
    else (c, [])
  | S_NOT_UPDATABLE, None =>
    if keys_match m desired then
      (set_reason None (set_transient 0 (set_attempts 0 (set_cstate S_UPDATING c))),
        [MODULE_UPDATABLE_AGAIN])
    else (c, [])
  | _, _ => (c, [])
  end.

(** [_decide]: the row, the rollup and the audit events. *)
Definition decide_row (now : Z) (m : Module_) (desired : FwRelease) (c : Conv)
    : Conv * Convergence * list FwEvent :=
  if decide (mo_version m = rl_version desired ∧ sticky_of c ≠ Some S_QUARANTINED) then
    (fw_stamp now (end_attempt (set_before None (set_reason None (set_transient 0 (set_cstate S_OK c))))),
      C_OK, if decide (cs_state c = S_NOT_UPDATABLE) then [MODULE_UPDATABLE_AGAIN] else [])
  else if bool_decide (mo_version m ≠ rl_version desired) && boot_key_mismatch m desired then
    if decide (cs_state c = S_NOT_UPDATABLE) then (c, C_NOT_UPDATABLE, [])
    else
      (fw_stamp now (end_attempt (set_reason (Some BOOT_KEY_MISMATCH) (set_cstate S_NOT_UPDATABLE
         (set_before (if decide (cs_state c = S_QUARANTINED ∨ cs_state c = S_FAILED)
                      then Some (cs_state c) else None) c)))),
       C_NOT_UPDATABLE, [MODULE_NOT_UPDATABLE])
  else
    let '(c1, events) := leave_not_updatable now m desired c in
    match sticky_rollup (cs_state c1) with
    | Some v => (c1, v, events)
    | None =>
      if decide (DRAIN_TRANSIENT_LIMIT ≤ cs_transient c1) then
        (row_gives_up now c1, C_FAILED, events ++ [MODULE_FLASH_GAVE_UP])
      else (fw_stamp now (set_cstate S_UPDATING c1), C_UPDATING, events)
    end.

(** The row [get_or_create] inserts. *)
Definition new_conv (pk m r now : Z) : Conv :=
  mkConv pk m r S_UPDATING 0 0 None None None None None None "" now now None.

Definition next_pk (pks : list Z) : Z := Z.succ (foldr Z.max 0 pks).

Definition get_or_create (m r now : Z) (db : FwDb) : Conv * FwDb :=
  match head (filter (λ c, cs_module c = m ∧ cs_release c = r) (fw_conv db)) with
  | Some c => (c, db)
  | None =>
    let c := new_conv (next_pk (cs_pk <$> fw_conv db)) m r now in
    (c, with_conv (fw_conv db ++ [c]) db)
  end.

(** [module.refresh_from_db(fields=[...])]. *)
Definition refresh (obj : Module_) (db : FwDb) : Module_ :=
  match find_module (mo_pk obj) db with
  | Some row =>
    mkModule (mo_pk obj) (mo_uid obj) (mo_uid_source row) (mo_type obj) (mo_lifecycle obj)
      (mo_registration obj) (mo_version row) (mo_variant obj) (mo_convergence row) (mo_boot_key row)
      (mo_first_seen obj) (mo_last_seen obj)
  | None => obj
  end.

Definition reconcile_module (now : Z) (obj : Module_) (db : FwDb) : FwDb * option Conv :=
  let m := refresh obj db in
  match assigned_station (mo_pk m) db ≫= λ st, effective_target st (mo_type m) db with
  | None =>
    (set_convergence_rollup m (if decide (mo_convergence m = C_UNKNOWN) then C_UNKNOWN else C_OK) db,
     None)
  | Some target =>
    match fw_find_release (mo_type m) (mo_variant m) (tg_version target) db with
    | None =>
      (set_convergence_rollup m
         (if decide (mo_version m = tg_version target) then C_OK else C_UPDATING) db, None)
    | Some desired =>
      let '(c, db1) := get_or_create (mo_pk m) (rl_pk desired) now db in
      let '(c', rollup, events) := decide_row now m desired c in
      (audit (mo_pk m) (fs_pk <$> assigned_station (mo_pk m) db) events
         (set_convergence_rollup m rollup (write_conv c' db1)), Some c')
    end
  end.

(** ** Reported failures *)

(** [record_error] on the locked row; [rollup] is [module.firmware_convergence]
    before the call. *)
Definition record_error (now : Z) (rollup : Convergence) (mode : ErrorMode) (message : string)
    (c : Conv) : Conv * Convergence * list FwEvent :=
  let c0 := fw_stamp now (end_attempt (set_last_attempt (Some now) (set_error (Some mode) message c))) in
  let '(c1, gave_up) :=
    match mode with
    | E_REJECTED => (set_cstate S_QUARANTINED c0, false)
    | E_ROLLED_BACK =>
      let c1 := set_attempts (cs_attempts c0 + 1) c0 in
      (if decide (QUARANTINE_ATTEMPT_LIMIT ≤ cs_attempts c1) then set_cstate S_QUARANTINED c1 else c1,
       false)
    | E_TRANSIENT =>
      let c1 := set_transient (cs_transient c0 + 1) c0 in
      (c1, bool_decide (cs_state c1 = S_UPDATING ∧ DRAIN_TRANSIENT_LIMIT ≤ cs_transient c1))
    end in
  if gave_up then (row_gives_up now c1, C_FAILED, [MODULE_FLASH_GAVE_UP])
  else if decide (cs_state c1 = S_QUARANTINED) then
    (c1, C_QUARANTINED, if decide (rollup = C_QUARANTINED) then [] else [MODULE_QUARANTINED])
  else
    match sticky_rollup (cs_state c1) with
    | Some v => (c1, v, [])
    | None => (c1, C_UPDATING, [])
    end.

(** ** The drain predicate ([drain.py]) *)

Definition artifact_for (m : Module_) : Artifact :=
  if decide (mo_uid_source m = SYNTHETIC) then ARTIFACT_SIM else ARTIFACT_DFU.

Definition artifact_available (r : FwRelease) (a : Artifact) : bool :=
  match a with
  | ARTIFACT_DFU => bool_decide (rl_storage_key r ≠ "")
  | ARTIFACT_SIM => bool_decide (rl_sim_storage_key r ≠ "")
  end.

Definition executable_artifact (m : Module_) (release : option FwRelease) (backends : list Artifact)
    : option Artifact :=
  r ← release;
  if decide (artifact_for m ∈ backends ∧ artifact_available r (artifact_for m) = true)
  then Some (artifact_for m) else None.

#[global] Arguments executable_artifact : simpl never.

(** [order_by("slot")]: slots compare by code point. *)
Definition slot_le (a b : Assignment) : Prop := String.leb (as_slot a) (as_slot b) = true.

#[export] Instance slot_le_dec : RelDecision slot_le.
Proof. intros a b. unfold slot_le. apply _. Defined.

Definition station_assignments (station : Z) (db : FwDb) : list Assignment :=
  merge_sort slot_le (filter (λ a, as_station a = Some station ∧ as_to a = None) (fw_assignments db)).

(** One assignment of the loop in [pending_updates]. *)
Definition pending_one (backends : list Artifact) (db : FwDb) (a : Assignment) : option Conv :=
  m ← find_module (as_module a) db;
  if decide (artifact_for m ∉ backends) then None
  else
    desired ← desired_release_for_module m db;
    executable_artifact m (Some desired) backends;;
    head (filter (λ c, cs_module c = mo_pk m ∧ cs_release c = rl_pk desired ∧
      cs_state c = S_UPDATING ∧ cs_transient c < DRAIN_TRANSIENT_LIMIT) (fw_conv db)).

Definition pending_updates (st : FwStation) (db : FwDb) : list Conv :=
  let backends := module_ota_backends st in
  if decide (backends = []) then []
  else omap (pending_one backends db) (station_assignments (fs_pk st) db).

(** [drain_status]: [since] and the uids, or inactive. *)
Record DrainStatus := mkDrain { dr_since : Z; dr_modules : list Z }.

Definition drain_status (now : Z) (st : FwStation) (db : FwDb) : option DrainStatus :=
  if is_online now st then
    match pending_updates st db with
    | [] => None
    | c :: rest =>
      Some (mkDrain (foldl (λ acc d, Z.min acc (cs_created_at d)) (cs_created_at c) rest)
        (cs_module <$> c :: rest))
    end
  else None.

Definition is_draining (now : Z) (st : FwStation) (db : FwDb) : bool :=
  bool_decide (drain_status now st db ≠ None).

(** ** Well-formed rows

    What a convergence row means: a hidden state only under [not_updatable] and
    only a sticky one, the reason code that belongs to the state, counters below
    their limits while the row may still be offered, and an attempt in flight
    only while updating. *)

Definition reason_of (s : CState) : option ReasonCode :=
  match s with
  | S_FAILED => Some TRANSIENT_LIMIT
  | S_NOT_UPDATABLE => Some BOOT_KEY_MISMATCH
  | _ => None
  end.

Record row_ok (c : Conv) : Prop := mkRowOk {
  ro_before : ∀ b, cs_before c = Some b →
    cs_state c = S_NOT_UPDATABLE ∧ (b = S_QUARANTINED ∨ b = S_FAILED);
  ro_counters : 0 ≤ cs_attempts c ∧ 0 ≤ cs_transient c;
  ro_attempts : sticky_of c ≠ Some S_QUARANTINED → cs_attempts c < QUARANTINE_ATTEMPT_LIMIT;
  ro_transient : cs_state c = S_UPDATING → cs_transient c < DRAIN_TRANSIENT_LIMIT;
  ro_converged : cs_state c = S_OK → cs_transient c = 0;
  ro_reason : cs_reason c = reason_of (cs_state c);
  ro_phase : cs_phase c ≠ None → cs_state c = S_UPDATING;
  ro_instructed : cs_instructed_at c ≠ None → cs_state c = S_UPDATING
}.

(** Decide a goal about the fields of an explicitly built row. *)
Ltac row_cases :=
  repeat match goal with
  | |- context [decide ?P] => destruct (decide P)
  | |- context [if ?b then _ else _] => destruct b eqn:?
  end; simpl in *.

Ltac by_row_ok :=
  constructor; unfold sticky_of, QUARANTINE_ATTEMPT_LIMIT, DRAIN_TRANSIENT_LIMIT in *; simpl in *;
  intros; repeat case_decide; simplify_eq/=; try done; try lia; try naive_solver lia.

Lemma row_ok_new pk m r now : row_ok (new_conv pk m r now).
Proof. by_row_ok. Qed.

Lemma sticky_rollup_None s : sticky_rollup s = None → s = S_OK ∨ s = S_UPDATING.
Proof. destruct s; naive_solver. Qed.

Lemma leave_not_updatable_ok now m r c c' ev :
  row_ok c → leave_not_updatable now m r c = (c', ev) → row_ok c'.
Proof.
  intros [Hb Hc Ha Ht Ho Hr Hp Hi] Hl. unfold leave_not_updatable in Hl.
  destruct (cs_state c) eqn:Hs; try by simplify_eq; constructor; rewrite ?Hs.
  destruct (cs_before c) as [b|] eqn:Hbc.
  - destruct (Hb b eq_refl) as [_ Hcase].
    destruct (_ || _); simplify_eq/=; [|by constructor; rewrite ?Hs, ?Hbc].
    destruct Hcase as [-> | ->].
    all: constructor; unfold sticky_of in *; rewrite ?Hs, ?Hbc in *; simpl in *; try naive_solver lia.
  - destruct (keys_match m r); simplify_eq/=; [|by constructor; rewrite ?Hs, ?Hbc].
    constructor; unfold sticky_of, QUARANTINE_ATTEMPT_LIMIT, DRAIN_TRANSIENT_LIMIT in *;
      rewrite ?Hs, ?Hbc in *; simpl in *; try naive_solver lia.
Qed.

Lemma row_gives_up_ok now c :
  row_ok c → cs_state c = S_UPDATING ∨ cs_state c = S_OK → row_ok (row_gives_up now c).
Proof.
  intros [Hb Hc Ha Ht Ho Hr Hp Hi] Hs. unfold sticky_of in Ha.
  rewrite decide_False in Ha by (destruct Hs; congruence).
  constructor; unfold sticky_of in *; simpl in *; try done.
  - intros b Hbb. destruct (Hb b Hbb). destruct Hs; congruence.
  - intros _. apply Ha. destruct Hs as [-> | ->]; done.
Qed.

(** The decision keeps rows well formed. *)
Lemma decide_row_ok now m r c c' v ev :
  row_ok c → decide_row now m r c = (c', v, ev) → row_ok c'.
Proof.
  intros Hok Hd. pose proof Hok as [Hb Hc Ha Ht Ho Hr Hp Hi]. unfold decide_row in Hd.
  destruct (decide _) as [[Hv Hst]|_].
  { simplify_eq/=. constructor; unfold sticky_of in *; simpl; try done; try lia. auto. }
  destruct (_ && _).
  { destruct (decide _) as [Hs|Hs]; simplify_eq/=; [done|].
    constructor; unfold sticky_of in *; simpl; try done.
    - intros b. destruct (decide (_ ∨ _)) as [Hq|_]; [|done].
      intros [= <-]. destruct Hq as [-> | ->]; auto.
    - rewrite decide_False in Ha by done. intros Hn. apply Ha. intros Hq. apply Hn.
      rewrite decide_True; [done|]. left. congruence. }
  destruct (leave_not_updatable now m r c) as [c1 ev1] eqn:Hl.
  pose proof (leave_not_updatable_ok _ _ _ _ _ _ Hok Hl) as Hok1.
  destruct (sticky_rollup (cs_state c1)) eqn:Hsr; simplify_eq/=; [done|].
  apply sticky_rollup_None in Hsr.
  case_decide; simplify_eq/=; [apply row_gives_up_ok; tauto|].
  destruct Hok1 as [Hb1 Hc1 Ha1 Ht1 Ho1 Hr1 Hp1 Hi1].
  unfold sticky_of in Ha1. rewrite decide_False in Ha1 by (destruct Hsr; congruence).
  constructor; unfold sticky_of in *; simpl; try done; try lia.
  - intros b Hbb. destruct (Hb1 b Hbb). destruct Hsr; congruence.
  - intros _. apply Ha1. destruct Hsr as [-> | ->]; done.
  - rewrite Hr1. by destruct Hsr as [-> | ->].
Qed.

(** A reported failure keeps rows well formed; the handlers only report it on
    rows that are not given up. *)
Lemma record_error_ok now rollup mode msg c c' v ev :
  row_ok c → cs_state c = S_UPDATING ∨ (cs_state c = S_OK ∧ mode = E_ROLLED_BACK) →
  record_error now rollup mode msg c = (c', v, ev) → row_ok c'.
Proof.
  intros [Hb Hc Ha Ht Ho Hr Hp Hi] Hs Hrec. unfold sticky_of in Ha.
  assert (cs_state c ≠ S_NOT_UPDATABLE) as Hnu by (destruct Hs as [|[]]; congruence).
  rewrite decide_False in Ha by done.
  assert (cs_before c = None) as Hbn by (destruct (cs_before c) as [b|]; [destruct (Hb b eq_refl)|]; done).
  assert (cs_attempts c < QUARANTINE_ATTEMPT_LIMIT) as Hat
    by (apply Ha; destruct Hs as [|[]]; congruence).
  unfold record_error in Hrec. destruct mode; simpl in Hrec.
  - simplify_eq/=. constructor; simpl; try done; try lia.
    + by rewrite Hbn.
    + rewrite Hr. destruct Hs as [->|[-> _]]; done.
  - destruct (decide (QUARANTINE_ATTEMPT_LIMIT ≤ cs_attempts c + 1)) as [Hq|Hq]; simpl in Hrec.
    + simplify_eq/=.
      constructor; simpl; try done; try lia.
      * by rewrite Hbn.
      * rewrite Hr. destruct Hs as [->|[-> _]]; done.
    + rewrite decide_False in Hrec by (destruct Hs as [|[]]; congruence).
      destruct (sticky_rollup (cs_state c)); simplify_eq/=.
      all: constructor; unfold sticky_of; simpl; try done; try lia; by rewrite Hbn.
  - destruct Hs as [Hs|[_ ?]]; [|done].
    destruct (decide (DRAIN_TRANSIENT_LIMIT ≤ cs_transient c + 1)) as [Hq|Hq].
    + rewrite bool_decide_true in Hrec by done. simplify_eq/=.
      constructor; unfold sticky_of; simpl; try done; try lia; by rewrite Hbn.
    + rewrite bool_decide_false in Hrec by tauto. rewrite Hs in Hrec. simpl in Hrec. simplify_eq/=.
      constructor; unfold sticky_of; simpl; try done; try lia; by rewrite Hbn || rewrite Hs.
Qed.

(** ** Databases up to the reconciler's own columns

    A reconcile writes convergence rows, the rollup column of modules and the
    audit log; what it reads to resolve a desired release is none of these. *)

Record same_static (db1 db2 : FwDb) : Prop := mkSameStatic {
  ss_stations : fw_stations db1 = fw_stations db2;
  ss_locks : fw_locks db1 = fw_locks db2;
  ss_modules : set_convergence C_UNKNOWN <$> fw_modules db1 = set_convergence C_UNKNOWN <$> fw_modules db2;
  ss_releases : fw_releases db1 = fw_releases db2;
  ss_targets : fw_targets db1 = fw_targets db2;
  ss_assignments : fw_assignments db1 = fw_assignments db2
}.

#[export] Instance same_static_equiv : Equivalence same_static.
Proof.
  split.
  - intros db. by constructor.
  - intros db1 db2 []. by constructor.
  - intros db1 db2 db3 [] []. constructor; congruence.
Qed.

#[export] Instance assigned_station_proper : Proper ((=) ==> same_static ==> (=)) assigned_station.
Proof. intros m ? <- db1 db2 []. unfold assigned_station, open_assignment, find_station. by rewrite ss_assignments0, ss_stations0. Qed.

#[export] Instance effective_target_proper :
  Proper ((=) ==> (=) ==> same_static ==> (=)) effective_target.
Proof. intros st ? <- t ? <- db1 db2 []. unfold effective_target. by rewrite ss_targets0. Qed.

#[export] Instance find_release_proper :
  Proper ((=) ==> (=) ==> (=) ==> same_static ==> (=)) fw_find_release.
Proof. intros t ? <- v ? <- w ? <- db1 db2 []. unfold fw_find_release. by rewrite ss_releases0. Qed.

#[export] Instance desired_release_proper : Proper ((=) ==> same_static ==> (=)) desired_release_for_module.
Proof.
  intros m ? <- db1 db2 Hs. unfold desired_release_for_module. rewrite Hs.
  destruct (assigned_station _ db2) as [st|]; simpl; [|done]. rewrite Hs.
  destruct (effective_target _ _ db2) as [t|]; simpl; [|done]. by rewrite Hs.
Qed.

#[export] Instance station_assignments_proper : Proper ((=) ==> same_static ==> (=)) station_assignments.
Proof. intros s ? <- db1 db2 []. unfold station_assignments. by rewrite ss_assignments0. Qed.

(** Module lookups agree up to the rollup. *)
Lemma find_module_static pk db1 db2 :
  same_static db1 db2 →
  set_convergence C_UNKNOWN <$> find_module pk db1 = set_convergence C_UNKNOWN <$> find_module pk db2.
Proof.
  intros [_ _ Hm _ _ _]. unfold find_module. revert Hm. generalize (fw_modules db2).
  induction (fw_modules db1) as [|m l IH]; intros [|m2 l2] Hm; simpl in *; try done.
  injection Hm as H1 H2 H3 H4 H5 H6 H7 H8 H9 H10 H11 Hl.
  rewrite !filter_cons, H1. case_decide; simpl; [|by apply IH].
  f_equal. unfold set_convergence. congruence.
Qed.

(** Everything the drain and the check read from a module row, but the rollup. *)
Lemma find_module_same pk db1 db2 m1 m2 :
  same_static db1 db2 → find_module pk db1 = Some m1 → find_module pk db2 = Some m2 →
  set_convergence C_UNKNOWN m1 = set_convergence C_UNKNOWN m2.
Proof. intros Hs H1 H2. pose proof (find_module_static pk _ _ Hs) as H. rewrite H1, H2 in H. cbn in H. congruence. Qed.

Lemma set_rollup_static m v db : same_static (set_convergence_rollup m v db) db.
Proof.
  unfold set_convergence_rollup. case_decide; [done|]. constructor; simpl; try done.
  unfold update_where. rewrite <-list_fmap_compose. apply list_fmap_ext.
  intros i x _. simpl. by case_decide.
Qed.

Lemma write_conv_static c db : same_static (write_conv c db) db.
Proof. by constructor. Qed.

Lemma audit_static m st ev db : same_static (audit m st ev db) db.
Proof. by constructor. Qed.

Lemma get_or_create_static m r now db c db' :
  get_or_create m r now db = (c, db') → same_static db' db.
Proof. unfold get_or_create. intros. case_match; simplify_eq; by constructor. Qed.

#[export] Hint Resolve set_rollup_static write_conv_static audit_static get_or_create_static : firmware.

Lemma set_rollup_conv m v db : fw_conv (set_convergence_rollup m v db) = fw_conv db.
Proof. unfold set_convergence_rollup. by case_decide. Qed.

Lemma refresh_pk obj db : mo_pk (refresh obj db) = mo_pk obj.
Proof. unfold refresh. by case_match. Qed.

(** ** What a reconcile does *)

Lemma reconcile_none now obj db :
  desired_release_for_module (refresh obj db) db = None →
  ∃ v, reconcile_module now obj db = (set_convergence_rollup (refresh obj db) v db, None).
Proof.
  unfold desired_release_for_module, reconcile_module. intros Hd.
  destruct (assigned_station _ db) as [st|]; simpl in *; [|by eexists].
  destruct (effective_target _ _ db) as [t|]; simpl in *; [|by eexists].
  rewrite Hd. by eexists.
Qed.

Lemma reconcile_some now obj db desired :
  desired_release_for_module (refresh obj db) db = Some desired →
  reconcile_module now obj db =
    let m := refresh obj db in
    let '(c, db1) := get_or_create (mo_pk m) (rl_pk desired) now db in
    let '(c', rollup, events) := decide_row now m desired c in
    (audit (mo_pk m) (fs_pk <$> assigned_station (mo_pk m) db) events
       (set_convergence_rollup m rollup (write_conv c' db1)), Some c').
Proof.
  unfold desired_release_for_module, reconcile_module. intros Hd.
  destruct (assigned_station _ db) as [st|]; simpl in *; [|done].
  destruct (effective_target _ _ db) as [t|]; simpl in *; [|done].
  by rewrite Hd.
Qed.

Lemma reconcile_static now obj db : same_static (reconcile_module now obj db).1 db.
Proof.
  destruct (desired_release_for_module (refresh obj db) db) as [d|] eqn:Hd.
  - rewrite (reconcile_some _ _ _ _ Hd). simpl.
    destruct (get_or_create _ _ _ _) as [c db1] eqn:Hg.
    destruct (decide_row _ _ _ _) as [[c' v] ev]. simpl.
    rewrite audit_static, set_rollup_static, write_conv_static. by eapply get_or_create_static.
  - destruct (reconcile_none now _ _ Hd) as [v ->]. apply set_rollup_static.
Qed.

(** ** The convergence table *)

Definition conv_key (c : Conv) : Z * Z := (cs_module c, cs_release c).

(** The unique constraint, the primary key, and well-formed rows. *)
Record conv_ok (l : list Conv) : Prop := mkConvOk {
  co_pk : NoDup (cs_pk <$> l);
  co_key : NoDup (conv_key <$> l);
  co_rows : ∀ c, c ∈ l → row_ok c
}.

Definition same_row (c c' : Conv) : Prop :=
  cs_pk c' = cs_pk c ∧ conv_key c' = conv_key c.

Lemma leave_not_updatable_same now m r c : same_row c (leave_not_updatable now m r c).1.
Proof.
  unfold leave_not_updatable.
  destruct (cs_state c), (cs_before c); try done.
  - by destruct (_ || _).
  - by destruct (keys_match m r).
Qed.

Lemma decide_row_same now m r c c' v ev : decide_row now m r c = (c', v, ev) → same_row c c'.
Proof.
  unfold decide_row. intros Hd.
  destruct (decide _); [by simplify_eq|]. destruct (_ && _).
  { destruct (decide _); by simplify_eq. }
  pose proof (leave_not_updatable_same now m r c) as Hl.
  destruct (leave_not_updatable now m r c) as [c1 ev1]. simpl in Hl.
  destruct (sticky_rollup _); [by simplify_eq|]. by case_decide; simplify_eq.
Qed.

Lemma record_error_same now v0 mode msg c c' v ev :
  record_error now v0 mode msg c = (c', v, ev) → same_row c c'.
Proof.
  unfold record_error. intros Hr.
  destruct mode; simpl in Hr; repeat (case_match; simplify_eq/=; try done).
Qed.

Lemma write_row_elem c' c l x :
  NoDup (cs_pk <$> l) → c ∈ l → same_row c c' →
  x ∈ update_where (λ r, cs_pk r = cs_pk c') (λ _, c') l ↔ x = c' ∨ (x ∈ l ∧ cs_pk x ≠ cs_pk c').
Proof.
  intros Hnd Hc [Hpk _]. rewrite elem_of_update_where. split.
  - intros (y & Hy & [[Heq ->]|[Hne ->]]); auto.
  - intros [->|[Hx Hne]].
    + exists c. split; [done|]. left. split; [congruence|done].
    + exists x. split; [done|]. by right.
Qed.

(** Writing a row back keeps the table well formed. *)
Lemma write_row_ok c' c l :
  conv_ok l → c ∈ l → same_row c c' → row_ok c' →
  conv_ok (update_where (λ r, cs_pk r = cs_pk c') (λ _, c') l).
Proof.
  intros [Hpk Hkey Hrows] Hc Hsame Hok. pose proof Hsame as [Hp Hk].
  assert (∀ x, x ∈ l → cs_pk x = cs_pk c' → x = c) as Huniq.
  { intros x Hx Heq. eapply (NoDup_fmap_elem_inj cs_pk); try done. congruence. }
  constructor.
  - rewrite fmap_update_where_in; [done|]. naive_solver.
  - rewrite fmap_update_where_in; [done|]. intros x Hx Heq. by rewrite Hk, (Huniq x).
  - intros x Hx. apply (write_row_elem c' c) in Hx; [|done..]. naive_solver.
Qed.

Lemma next_pk_gt pks pk : pk ∈ pks → pk < next_pk pks.
Proof.
  unfold next_pk. induction pks as [|p pks IH]; [intros H; by apply not_elem_of_nil in H|].
  simpl. intros [->|H]%elem_of_cons; [lia|]. apply IH in H. lia.
Qed.

(** The row the reconciler works on: the existing one or a new one. *)
Lemma get_or_create_ok m r now db c db' :
  conv_ok (fw_conv db) → get_or_create m r now db = (c, db') →
  conv_ok (fw_conv db') ∧ c ∈ fw_conv db' ∧ conv_key c = (m, r) ∧
  (∀ x, x ∈ fw_conv db' ↔ x ∈ fw_conv db ∨ x = c) ∧
  (c ∈ fw_conv db ∨ (c = new_conv (cs_pk c) m r now ∧
    ∀ x, x ∈ fw_conv db → cs_pk x ≠ cs_pk c ∧ conv_key x ≠ (m, r))).
Proof.
  intros Hok Hg. unfold get_or_create in Hg.
  destruct (head _) as [c0|] eqn:Hh; simplify_eq/=.
  - apply head_filter_Some in Hh as [[Hm Hr] Hc]. unfold conv_key. rewrite Hm, Hr. set_solver.
  - rewrite head_filter_None in Hh. destruct Hok as [Hpk Hkey Hrows].
    split; [constructor|split; [set_solver|split; [done|split; [set_solver|right; split; [done|]]]]].
    4:{ intros x Hx. split.
        - simpl. assert (cs_pk x < next_pk (cs_pk <$> fw_conv db)); [|lia].
          apply next_pk_gt. by apply list_elem_of_fmap_2.
        - intros Hk. apply (Hh x Hx). unfold conv_key in Hk. by simplify_eq/=. }
    + rewrite fmap_app. apply list.NoDup_app. split; [done|]. split; [|apply NoDup_singleton].
      intros pk Hin ->%list_elem_of_singleton. simpl in Hin. apply next_pk_gt in Hin. lia.
    + rewrite fmap_app. apply list.NoDup_app. split; [done|]. split; [|apply NoDup_singleton].
      intros k Hin ->%list_elem_of_singleton. apply list_elem_of_fmap in Hin as (x & Hk & Hx).
      apply (Hh x Hx). unfold conv_key in Hk. by simplify_eq/=.
    + intros x [Hx| ->%list_elem_of_singleton]%elem_of_app; [auto|]. apply row_ok_new.
Qed.

(** The effect of a reconcile on the convergence table. *)
Lemma reconcile_rows now obj db db' res :
  conv_ok (fw_conv db) → reconcile_module now obj db = (db', res) →
  conv_ok (fw_conv db') ∧
  match res with
  | None => desired_release_for_module (refresh obj db) db = None ∧ fw_conv db' = fw_conv db
  | Some c' => ∃ d c v ev,
      desired_release_for_module (refresh obj db) db = Some d ∧
      decide_row now (refresh obj db) d c = (c', v, ev) ∧
      conv_key c = (mo_pk obj, rl_pk d) ∧ same_row c c' ∧
      (c ∈ fw_conv db ∨ (c = new_conv (cs_pk c) (mo_pk obj) (rl_pk d) now ∧
         ∀ x, x ∈ fw_conv db → cs_pk x ≠ cs_pk c ∧ conv_key x ≠ (mo_pk obj, rl_pk d))) ∧
      (∀ x, x ∈ fw_conv db' ↔ x = c' ∨ (x ∈ fw_conv db ∧ cs_pk x ≠ cs_pk c'))
  end.
Proof.
  intros Hok Hr. destruct (desired_release_for_module (refresh obj db) db) as [d|] eqn:Hd.
  - rewrite (reconcile_some _ _ _ _ Hd) in Hr. simpl in Hr. rewrite refresh_pk in Hr.
    destruct (get_or_create _ _ _ _) as [c db1] eqn:Hg.
    destruct (decide_row _ _ _ _) as [[c' v] ev] eqn:Hdec. simplify_eq/=.
    destruct (get_or_create_ok _ _ _ _ _ _ Hok Hg) as (Hok1 & Hc & Hkey & Helem & Hold).
    pose proof (decide_row_same _ _ _ _ _ _ _ Hdec) as Hsame.
    rewrite set_rollup_conv. simpl. split.
    { apply (write_row_ok c' c); try done. eapply decide_row_ok; [|done]. by apply Hok1. }
    exists d, c, v, ev. split_and!; try done.
    intros x. rewrite (write_row_elem c' c); [|apply Hok1|done..]. rewrite Helem.
    split; [|naive_solver]. intros [->|[[Hx| ->] Hne]]; auto. by destruct Hsame.
  - destruct (reconcile_none now _ _ Hd) as [v Hv]. rewrite Hv in Hr. simplify_eq.
    by rewrite set_rollup_conv.
Qed.
