(* ===== verification/FirmwareApi.v ===== *)
(** * Module firmware: the agent's endpoints and the operator's actions

    Models [reconcile_api_views.py] (check, status and commit, as the station
    agent calls them) and the reconciling services of [services.py] (retry,
    release of a quarantine, reconciling a whole module type) over the tables
    and the reconciler of [FirmwareModel].

    Each handler that runs in one transaction under the module, assignment and
    convergence row locks is one step.  The check is not one transaction: it
    reconciles module by module and then marks the chosen row with a conditional
    UPDATE; what other requests do in between is the argument [env].

    The theorems: what an instruction may be, that a draining station is never
    left without one, after which reports the server gives an update up, and that
    a row given up comes back only through the operator. *)

From Stdlib Require Import ZArith Lia.
From stdpp Require Import sorting.
From stdpp Require Import base gmap list strings.
From S2P Require Import Prelude Json Permissions ControlLock FirmwareModel.

Local Open Scope Z_scope.

(** ** The check *)

Record Instruction := mkInstruction {
  in_convergence : Z;
  in_uid : string;
  in_slot : string;
  in_type : Z;
  in_variant : string;
  in_version : string;
  in_artifact : Artifact;
  in_release : Z;           (* the download URL names the release and the artifact *)
  in_checksum : string;
  in_size : option Z
}.

Definition instruction (m : Module_) (slot : string) (c : Conv) (r : FwRelease) (a : Artifact)
    : Instruction :=
  mkInstruction (cs_pk c) (mo_uid m) slot (mo_type m) (mo_variant m) (rl_version r) a (rl_pk r)
    (match a with ARTIFACT_SIM => rl_sim_sha256 r | ARTIFACT_DFU => rl_sha256 r end)
    (match a with ARTIFACT_SIM => rl_sim_size r | ARTIFACT_DFU => Some (rl_size r) end).

(** [cs.target_release]: the base manager, archived rows included. *)
Definition target_release (c : Conv) (db : FwDb) : option FwRelease :=
  head (filter (λ r, rl_pk r = cs_release c) (fw_releases db)).

Definition lock_held (station : Z) (db : FwDb) : bool :=
  existsb (λ p, bool_decide (p.1 = station ∧ holder p.2 ≠ None)) (fw_locks db).

(** One iteration up to the instruction; the module was loaded with the
    assignments ([rows], before the loop) and is refreshed by the reconcile. *)
Definition check_one (now : Z) (backends : list Artifact) (rows db : FwDb) (a : Assignment)
    : FwDb * option (Instruction * Conv) :=
  match find_module (as_module a) rows with
  | None => (db, None)
  | Some obj =>
    let m := refresh obj db in
    let '(db', res) := reconcile_module now obj db in
    (db',
      c ← res;
      if decide (cs_state c ≠ S_UPDATING) then None
      else
        r ← target_release c db';
        artifact ← executable_artifact m (Some r) backends;
        Some (instruction m (as_slot a) c r artifact, c))
  end.

(** [resume = resume or x] and [first_drift = first_drift or x]. *)
Definition check_step (now : Z) (backends : list Artifact) (rows : FwDb)
    (acc : FwDb * option (Instruction * Conv) * option (Instruction * Conv)) (a : Assignment)
    : FwDb * option (Instruction * Conv) * option (Instruction * Conv) :=
  let '(db, resume, first_drift) := acc in
  let '(db', found) := check_one now backends rows db a in
  match found with
  | None => (db', resume, first_drift)
  | Some (i, c) =>
    if decide (cs_last_attempt_at c ≠ None) then
      (db', match resume with None => Some (i, c) | Some _ => resume end, first_drift)
    else (db', resume, match first_drift with None => Some (i, c) | Some _ => first_drift end)
  end.

Definition check_select (now : Z) (st : FwStation) (db : FwDb) : FwDb * option (Instruction * Conv) :=
  let '(db', resume, first_drift) :=
    foldl (check_step now (module_ota_backends st) db) (db, None, None)
      (station_assignments (fs_pk st) db) in
  (db', match resume with Some x => Some x | None => first_drift end).

Definition mark_instructed (now : Z) (c : Conv) (station : Z) (db : FwDb) : FwDb * bool :=
  let hit := λ r, cs_pk r = cs_pk c ∧ cs_state r = S_UPDATING ∧
    (cs_instructed_at r = None ∨ cs_phase r ≠ None) in
  if decide (filter hit (fw_conv db) ≠ []) then
    (audit (cs_module c) (Some station) [MODULE_FLASH_INSTRUCTED]
       (with_conv (update_where hit (λ r, set_instructed (Some now) (set_phase None None r))
          (fw_conv db)) db), true)
  else (db, bool_decide (cs_state <$> find_conv (cs_pk c) db = Some S_UPDATING)).

Inductive CheckResponse := NoContent | Instruct (i : Instruction).

(** [ReconcileCheckView.post]; [env] is what commits between the last
    reconcile and the mark. *)
Definition fw_check_view (now : Z) (env : FwDb → FwDb) (st : FwStation) (db : FwDb)
    : FwDb * CheckResponse :=
  if lock_held (fs_pk st) db then (db, NoContent)
  else
    match check_select now st db with
    | (db1, None) => (db1, NoContent)
    | (db1, Some (i, c)) =>
      let '(db2, fresh) := mark_instructed now c (fs_pk st) (env db1) in
      (db2, if fresh then Instruct i else NoContent)
    end.

(** ** Status reports *)

Inductive Reported := P_progress (p : Phase) | P_error (mode : ErrorMode).

Inductive Reply := Reply200 | Reply404 | Reply409.

Definition is_given_up (s : CState) : bool :=
  match s with S_QUARANTINED | S_FAILED | S_NOT_UPDATABLE => true | _ => false end.

Definition STATUS_TO_AUDIT (mode : ErrorMode) : FwEvent :=
  match mode with
  | E_TRANSIENT => MODULE_FLASH_FAILED
  | E_ROLLED_BACK => MODULE_FLASH_ROLLED_BACK
  | E_REJECTED => MODULE_FLASH_REJECTED
  end.

Definition DFU_STUCK_PREFIX : string := "Modul hängt im DFU-Modus".

(** The progress branch on the locked row. *)
Definition progress (now : Z) (p : Phase) (c : Conv) : Conv * list FwEvent :=
  let c1 := if decide (p = VERIFYING ∧ cs_transient c ≠ 0) then fw_stamp now (set_transient 0 c) else c in
  let c2 := if String.prefix DFU_STUCK_PREFIX (cs_error_message c1)
            then fw_stamp now (set_error (cs_error_mode c1) "" c1) else c1 in
  if decide (cs_phase c2 = Some p) then (c2, [])
  else
    let c3 := set_phase (Some p) (Some now) c2 in
    match cs_phase c2 with
    | None =>
      (fw_stamp now (match cs_last_attempt_at c3 with
                  | None => set_last_attempt (Some now) c3
                  | Some _ => c3
                  end), [MODULE_FLASH_STARTED])
    | Some _ => (fw_stamp now c3, [MODULE_FLASH_PHASE])
    end.

(** What a report does to the locked, updating row. *)
Definition report_row (now : Z) (rollup : Convergence) (rep : Reported) (message : string) (c : Conv)
    : Conv * option Convergence * list FwEvent :=
  match rep with
  | P_error mode =>
    let '(c', v, events) := record_error now rollup mode message c in
    (c', Some v, STATUS_TO_AUDIT mode :: events)
  | P_progress p => let '(c', events) := progress now p c in (c', None, events)
  end.

(** The unlocked lookup, then module and assignment of this station. *)
Definition authorised (station cpk : Z) (db : FwDb) : option (Module_ * Conv) :=
  c ← find_conv cpk db;
  m ← find_module (cs_module c) db;
  head (filter (λ a, as_module a = mo_pk m ∧ as_station a = Some station ∧ as_to a = None)
    (fw_assignments db));;
  Some (m, c).

Definition apply_row (m : Module_) (station : Z) (res : Conv * option Convergence * list FwEvent)
    (db : FwDb) : FwDb :=
  let '(c, v, events) := res in
  let db1 := write_conv c db in
  let db2 := match v with Some v => set_convergence_rollup m v db1 | None => db1 end in
  audit (mo_pk m) (Some station) events db2.

Definition status_view (now station cpk : Z) (rep : Reported) (message : string) (db : FwDb)
    : FwDb * Reply :=
  match authorised station cpk db with
  | None => (db, Reply404)
  | Some (m, c) =>
    if is_given_up (cs_state c) then
      (audit (mo_pk m) (Some station) [MODULE_FLASH_CONFLICT] db, Reply409)
    else if decide (cs_state c = S_OK) then (db, Reply409)
    else (apply_row m station (report_row now (mo_convergence m) rep message c) db, Reply200)
  end.

(** ** Commits *)

Definition is_flash_lifecycle (e : FwEvent) : bool :=
  match e with
  | MODULE_FLASH_INSTRUCTED | MODULE_FLASH_STARTED | MODULE_FLASH_PHASE | MODULE_FLASH_SUCCESS
  | MODULE_FLASH_FAILED | MODULE_FLASH_ROLLED_BACK | MODULE_FLASH_REJECTED | MODULE_FLASH_GAVE_UP
  | MODULE_FLASH_RETRY | MODULE_FLASH_CONFLICT => true
  | _ => false
  end.

Definition success_message (uid version : string) : string :=
  String.append "Module " (String.append uid (String.append " committed version "
    (String.append version "."))).

Definition is_repeated_commit (m : Z) (message : string) (db : FwDb) : bool :=
  match head (filter (λ e, au_module e = m ∧ is_flash_lifecycle (au_event e) = true) (fw_audit db)) with
  | Some e => bool_decide (au_event e = MODULE_FLASH_SUCCESS ∧ au_message e = message)
  | None => false
  end.

(** [repr] of a version without quotes or control characters. *)
Definition mismatch_message (version expected : string) : string :=
  String.append "Commit version '" (String.append version (String.append "' != target '"
    (String.append expected "'."))).

Definition fw_commit_view (now station cpk : Z) (version : string) (db : FwDb) : FwDb * Reply :=
  match authorised station cpk db with
  | None => (db, Reply404)
  | Some (m, c) =>
    if is_given_up (cs_state c) then
      (audit (mo_pk m) (Some station) [MODULE_FLASH_CONFLICT] db, Reply409)
    else
      match target_release c db with
      | None => (db, Reply404) (* the foreign key is protected: never *)
      | Some r =>
        if decide (version ≠ rl_version r) then
          let '(c', v, events) := record_error now (mo_convergence m) E_ROLLED_BACK
            (mismatch_message version (rl_version r)) c in
          (apply_row m station (c', Some v, MODULE_FLASH_ROLLED_BACK :: events) db, Reply409)
        else
          let message := success_message (mo_uid m) version in
          let db1 :=
            if is_repeated_commit (mo_pk m) message db then db
            else with_audit (mkAudit (mo_pk m) (Some station) MODULE_FLASH_SUCCESS message
                               :: fw_audit db) db in
          let c1 := fw_stamp now (end_attempt (set_transient 0 c)) in
          ((reconcile_module now m (write_conv c1 db1)).1, Reply200)
      end
  end.

(** ** Operator services *)

(** The loop of [reconcile_module_type]; [nudged] and [reconciled] are the
    stations that get a frame after the commit. *)
Definition type_step (now : Z) (acc : FwDb * list (option Z) * list (option Z)) (m : Module_)
    : FwDb * list (option Z) * list (option Z) :=
  let '(db, nudged, reconciled) := acc in
  match open_assignment (mo_pk m) db with
  | None => acc
  | Some a =>
    let '(db', res) := reconcile_module now m db in
    (db',
     match res with
     | Some c => if decide (cs_state c = S_UPDATING) then as_station a :: nudged else nudged
     | None => nudged
     end, as_station a :: reconciled)
  end.

Definition reconcile_module_type (now mtype : Z) (db : FwDb)
    : FwDb * list (option Z) * list (option Z) :=
  foldl (type_step now) (db, [], []) (filter (λ m, mo_type m = mtype) (fw_modules db)).

(** [quarantined_states_qs().filter(module=...)]: latest first. *)
Definition quarantined_states (m : Z) (db : FwDb) : list Conv :=
  sort_by2 (λ c, - cs_updated_at c) (λ c, - cs_pk c)
    (filter (λ c, cs_state c = S_QUARANTINED ∧ cs_module c = m) (fw_conv db)).

Definition open_assignment_target (m : Module_) (db : FwDb) : option Target :=
  st ← assigned_station (mo_pk m) db; effective_target st (mo_type m) db.

Definition current_quarantine (m : Module_) (db : FwDb) : option Conv :=
  if decide (mo_convergence m ≠ C_QUARANTINED) then None
  else
    let states := quarantined_states (mo_pk m) db in
    let matching :=
      t ← open_assignment_target m db;
      head (filter (λ c,
        match target_release c db with
        | Some r => bool_decide (rl_type r = mo_type m ∧ rl_variant r = mo_variant m ∧
                                 rl_version r = tg_version t)
        | None => false
        end = true) states) in
    match matching with Some c => Some c | None => head states end.

Definition released_row (now : Z) (c : Conv) : Conv :=
  fw_stamp now (set_before None (set_error None "" (set_transient 0 (set_attempts 0
    (set_cstate S_UPDATING c))))).

(** The module is re-read under its row lock first; [None]: nothing to release. *)
Definition release_quarantine (now mpk : Z) (db : FwDb) : FwDb * option Conv :=
  match find_module mpk db with
  | None => (db, None)
  | Some locked =>
    let '(db1, _) := reconcile_module now locked db in
    let locked1 := refresh locked db1 in
    match current_quarantine locked1 db1 with
    | None => (db1, None)
    | Some picked =>
      let '(db2, _) := reconcile_module now locked1 (write_conv (released_row now picked) db1) in
      (audit mpk (open_assignment mpk db2 ≫= as_station) [MODULE_QUARANTINE_RELEASED] db2, Some picked)
    end
  end.

Definition retried_row (now : Z) (c : Conv) : Conv :=
  fw_stamp now (end_attempt (set_before None (set_reason None (set_transient 0
    (set_cstate S_UPDATING c))))).

Definition retry_failed (now mpk : Z) (db : FwDb) : FwDb * option Conv :=
  match find_module mpk db with
  | None => (db, None)
  | Some locked =>
    match reconcile_module now locked db with
    | (db1, Some c) =>
      if decide (cs_state c = S_FAILED) then
        let '(db2, _) := reconcile_module now locked (write_conv (retried_row now c) db1) in
        (audit mpk (open_assignment mpk db2 ≫= as_station) [MODULE_FLASH_RETRY] db2, Some c)
      else (db1, None)
    | (db1, None) => (db1, None)
    end
  end.

(** ** Steps

    Everything that touches the convergence table: reconciles (heartbeats, target
    and release edits, imports), the two halves of a check, reports and commits,
    the two operator actions, and the notice dropped when a module is back on its
    control line ([_clear_dfu_stuck] of the ingestion).  [O_env] is any other
    transaction: it may change every other table. *)

Definition clear_dfu_stuck (m : Z) (db : FwDb) : FwDb :=
  with_conv (update_where (λ c, cs_module c = m ∧ String.prefix DFU_STUCK_PREFIX (cs_error_message c) = true)
    (λ c, set_error (cs_error_mode c) "" c) (fw_conv db)) db.

Inductive FwOp :=
| O_reconcile (now : Z) (obj : Module_)
| O_reconcile_type (now mtype : Z)
| O_select (now : Z) (st : FwStation)
| O_mark (now : Z) (c : Conv) (station : Z)
| O_status (now station cpk : Z) (rep : Reported) (message : string)
| O_commit (now station cpk : Z) (version : string)
| O_release (now mpk : Z)
| O_retry (now mpk : Z)
| O_online (mpk : Z)
| O_env.

(** The foreign key of assignments. *)
Definition fk_ok (db : FwDb) : Prop :=
  ∀ a, a ∈ fw_assignments db → ∃ m, m ∈ fw_modules db ∧ mo_pk m = as_module a.

Inductive fw_step : FwOp → FwDb → FwDb → Prop :=
| FS_reconcile now obj db : fw_step (O_reconcile now obj) db (reconcile_module now obj db).1
| FS_reconcile_type now t db : fw_step (O_reconcile_type now t) db (reconcile_module_type now t db).1.1
| FS_select now st db : fw_step (O_select now st) db (check_select now st db).1
| FS_mark now c st db : fw_step (O_mark now c st) db (mark_instructed now c st db).1
| FS_status now st pk rep msg db :
    fw_step (O_status now st pk rep msg) db (status_view now st pk rep msg db).1
| FS_commit now st pk v db : fw_step (O_commit now st pk v) db (fw_commit_view now st pk v db).1
| FS_release now m db : fw_step (O_release now m) db (release_quarantine now m db).1
| FS_retry now m db : fw_step (O_retry now m) db (retry_failed now m db).1
| FS_online m db : fw_step (O_online m) db (clear_dfu_stuck m db)
| FS_env db db' : fw_conv db' = fw_conv db → fk_ok db' → fw_step O_env db db'.

(** An execution, with the states the operations were run in. *)
Inductive fw_runs : list (FwDb * FwOp) → FwDb → FwDb → Prop :=
| FR_nil db : fw_runs [] db db
| FR_cons op tr db1 db2 db3 :
    fw_step op db1 db2 → fw_runs tr db2 db3 → fw_runs ((db1, op) :: tr) db1 db3.

(** ** Rows given up *)

Definition quarantined (c : Conv) : Prop := sticky_of c = Some S_QUARANTINED.
Definition failed (c : Conv) : Prop := sticky_of c = Some S_FAILED.

Lemma leave_not_updatable_sticky now m r c s :
  row_ok c → s = S_QUARANTINED ∨ s = S_FAILED → sticky_of c = Some s →
  sticky_of (leave_not_updatable now m r c).1 = Some s.
Proof.
  intros Hok Hs Hst. unfold leave_not_updatable.
  destruct (cs_state c) eqn:Hc; try done.
  unfold sticky_of in Hst. rewrite Hc in Hst. simpl in Hst. rewrite Hst.
  destruct (_ || _); simpl; unfold sticky_of; simpl.
  - rewrite decide_False; [done|]. destruct Hs; congruence.
  - rewrite Hc. simpl. done.
Qed.

(** The decision never releases a quarantine, and a failed row only when the
    module runs the version it was meant to get. *)
Lemma decide_row_sticky now m r c c' v ev :
  row_ok c → decide_row now m r c = (c', v, ev) →
  (quarantined c → quarantined c') ∧
  (failed c → failed c' ∨ (cs_state c' = S_OK ∧ mo_version m = rl_version r)).
Proof.
  intros Hok Hd. unfold decide_row, quarantined, failed in *.
  destruct (decide _) as [[Hv Hnq]|_].
  { simplify_eq/=. split; [done|]. by right. }
  destruct (_ && _).
  { destruct (decide _) as [Hs|Hs]; simplify_eq/=; [tauto|].
    unfold sticky_of. rewrite decide_False by done. simpl.
    split; [intros [= ->]; done|]. intros [= ->]. by left. }
  pose proof (leave_not_updatable_sticky now m r c) as Hst.
  destruct (leave_not_updatable now m r c) as [c1 ev1] eqn:Hl. simpl in Hst.
  destruct (sticky_rollup (cs_state c1)) eqn:Hsr.
  { simplify_eq. split; [by apply Hst; auto|]. intros Hf. left. by apply Hst; auto. }
  apply sticky_rollup_None in Hsr.
  assert (∀ s, s = S_QUARANTINED ∨ s = S_FAILED → sticky_of c = Some s → False) as Hno.
  { intros s Hs Hc. specialize (Hst s Hok Hs Hc). unfold sticky_of in Hst.
    rewrite decide_False in Hst by (destruct Hsr; congruence). destruct Hsr, Hs; congruence. }
  split; intros Hc; exfalso; [apply (Hno S_QUARANTINED)|apply (Hno S_FAILED)]; auto.
Qed.

(** The module of the row runs the version of the row's release. *)
Definition reached (db : FwDb) (c : Conv) : Prop :=
  ∃ m r, m ∈ fw_modules db ∧ mo_pk m = cs_module c ∧ r ∈ fw_releases db ∧ rl_pk r = cs_release c ∧
    mo_version m = rl_version r.

Lemma modules_static db1 db2 m :
  same_static db1 db2 → m ∈ fw_modules db1 →
  ∃ m', m' ∈ fw_modules db2 ∧ set_convergence C_UNKNOWN m' = set_convergence C_UNKNOWN m.
Proof.
  intros [_ _ Hm _ _ _] Hin. apply (list_elem_of_fmap_2 (set_convergence C_UNKNOWN)) in Hin.
  rewrite Hm in Hin. apply list_elem_of_fmap in Hin as (m' & Heq & Hin). eauto.
Qed.

Lemma reached_static db1 db2 c c' :
  same_static db1 db2 → same_row c c' → reached db1 c → reached db2 c'.
Proof.
  intros Hs [_ Hk] (m & r & Hm & Hpk & Hr & Hrk & Hv). injection Hk as Hk1 Hk2.
  destruct (modules_static _ _ _ Hs Hm) as (m' & Hm' & Heq). injection Heq as H1 H2 H3 H4 H5 H6 H7 H8.
  exists m', r. rewrite <-(ss_releases _ _ Hs). split_and!; congruence.
Qed.

Lemma fk_ok_static db1 db2 : same_static db1 db2 → fk_ok db1 → fk_ok db2.
Proof.
  intros Hs Hfk a Ha. rewrite <-(ss_assignments _ _ Hs) in Ha.
  destruct (Hfk a Ha) as (m & Hm & Hpk). destruct (modules_static _ _ _ Hs Hm) as (m' & Hm' & Heq).
  exists m'. injection Heq as H1 _ _ _ _ _ _ _ _ _ _. split; congruence.
Qed.

(** The module a desired release is resolved for is in the table. *)
Lemma refresh_row obj db d :
  fk_ok db → desired_release_for_module (refresh obj db) db = Some d →
  ∃ m, m ∈ fw_modules db ∧ mo_pk m = mo_pk obj ∧ mo_version (refresh obj db) = mo_version m.
Proof.
  intros Hfk Hd. unfold desired_release_for_module, assigned_station in Hd. rewrite refresh_pk in Hd.
  destruct (open_assignment (mo_pk obj) db) as [a|] eqn:Ha; [|done].
  apply head_filter_Some in Ha as [[Ha _] Hin].
  destruct (Hfk a Hin) as (m & Hm & Hpk). unfold refresh.
  destruct (find_module (mo_pk obj) db) as [row|] eqn:Hrow.
  - apply head_filter_Some in Hrow as [Hrp Hrow]. by exists row.
  - unfold find_module in Hrow. rewrite head_filter_None in Hrow. destruct (Hrow m Hm). congruence.
Qed.

Lemma desired_release_in m db d : desired_release_for_module m db = Some d → d ∈ fw_releases db.
Proof.
  unfold desired_release_for_module. intros Hd.
  destruct (assigned_station _ db); simpl in Hd; [|done].
  destruct (effective_target _ _ db); simpl in Hd; [|done].
  by apply head_filter_Some in Hd as [_ Hd].
Qed.

(** What a transaction may do to the rows: nothing is deleted, and [R] relates
    the old and the new version of every row. *)
Definition rows_stay (R : Conv → Conv → Prop) (db db' : FwDb) : Prop :=
  ∀ c, c ∈ fw_conv db → ∃ c', c' ∈ fw_conv db' ∧ same_row c c' ∧ R c c'.

(** Given-up rows stay so, unless the module reached its target. *)
Definition kept (db : FwDb) (c c' : Conv) : Prop :=
  (quarantined c → quarantined c') ∧ (failed c → failed c' ∨ reached db c).

Lemma kept_refl db c : kept db c c.
Proof. unfold kept. tauto. Qed.

Lemma rows_stay_refl (R : Conv → Conv → Prop) db db' :
  (∀ c, R c c) → fw_conv db' = fw_conv db → rows_stay R db db'.
Proof. intros HR Heq c Hc. exists c. rewrite Heq. split; [done|]. by split. Qed.

Lemma rows_stay_trans db1 db2 db3 :
  same_static db2 db1 → rows_stay (kept db1) db1 db2 → rows_stay (kept db2) db2 db3 →
  rows_stay (kept db1) db1 db3.
Proof.
  intros Hs H12 H23 c Hc. destruct (H12 c Hc) as (c2 & Hc2 & Hr2 & Hq2 & Hf2).
  destruct (H23 c2 Hc2) as (c3 & Hc3 & Hr3 & Hq3 & Hf3). exists c3. split; [done|].
  assert (same_row c c3) as Hr by (destruct Hr2, Hr3; split; congruence). split; [done|].
  split; [auto|]. intros [Hf|?]%Hf2; [|by right]. destruct (Hf3 Hf) as [?|Hre]; [by left|right].
  eapply (reached_static db2); [done| |done]. destruct Hr2; split; congruence.
Qed.

(** One row is rewritten, the others are left alone. *)
Lemma rows_stay_write (R : Conv → Conv → Prop) db c c' :
  conv_ok (fw_conv db) → (∀ x, R x x) → c ∈ fw_conv db → same_row c c' → R c c' →
  rows_stay R db (write_conv c' db).
Proof.
  intros Hok HR Hc Hsame Hcc x Hx.
  destruct (decide (cs_pk x = cs_pk c')) as [Heq|Hne].
  - exists c'. assert (x = c) as ->.
    { eapply (NoDup_fmap_elem_inj cs_pk); [apply Hok|done..|]. destruct Hsame; congruence. }
    split; [|done]. simpl. apply (write_row_elem c' c); try done; [apply Hok|]. by left.
  - exists x. split; [|by split]. simpl. apply (write_row_elem c' c); try done; [apply Hok|]. by right.
Qed.

Lemma reconcile_stays now obj db :
  conv_ok (fw_conv db) → fk_ok db → rows_stay (kept db) db (reconcile_module now obj db).1.
Proof.
  intros Hok Hfk. destruct (reconcile_module now obj db) as [db' res] eqn:Hr.
  destruct (reconcile_rows _ _ _ _ _ Hok Hr) as [Hok' Hres]. simpl.
  destruct res as [c'|]; [|by apply rows_stay_refl; [apply kept_refl|apply Hres]].
  destruct Hres as (d & c & v & ev & Hd & Hdec & Hkey & Hsame & Hold & Helem).
  intros x Hx. destruct (decide (cs_pk x = cs_pk c')) as [Heq|Hne].
  - exists c'. destruct Hold as [Hc|[_ Hnew]].
    + assert (x = c) as ->.
      { eapply (NoDup_fmap_elem_inj cs_pk); [apply Hok|done..|]. destruct Hsame; congruence. }
      split; [apply Helem; by left|]. split; [done|].
      destruct (decide_row_sticky _ _ _ _ _ _ _ (co_rows _ Hok c Hc) Hdec) as [Hq Hf].
      split; [done|]. intros [?|[_ Hv]]%Hf; [by left|right].
      destruct (refresh_row _ _ _ Hfk Hd) as (m & Hm & Hpk & Hmv). injection Hkey as Hk1 Hk2.
      exists m, d. split_and!; try congruence. by eapply desired_release_in.
    + destruct (Hnew x Hx) as [Hne _]. destruct Hsame; congruence.
  - exists x. split; [apply Helem; by right|]. split; [done|apply kept_refl].
Qed.

(** A transaction that keeps the table well formed, reads and writes only the
    reconciler's columns and keeps given-up rows. *)
Definition fw_good (db db' : FwDb) : Prop :=
  conv_ok (fw_conv db) → fk_ok db →
  conv_ok (fw_conv db') ∧ same_static db' db ∧ rows_stay (kept db) db db'.

Lemma good_refl db : fw_good db db.
Proof. intros Hok _. split; [done|]. split; [done|]. apply rows_stay_refl; [apply kept_refl|done]. Qed.

Lemma good_trans db1 db2 db3 : fw_good db1 db2 → fw_good db2 db3 → fw_good db1 db3.
Proof.
  intros H12 H23 Hok Hfk. destruct (H12 Hok Hfk) as (Hok2 & Hs2 & Hr2).
  destruct (H23 Hok2 (fk_ok_static _ _ (symmetry Hs2) Hfk)) as (Hok3 & Hs3 & Hr3).
  split; [done|]. split; [by etrans|]. by eapply rows_stay_trans.
Qed.

(** Rollups and audit entries do not matter to the rows. *)
Lemma good_ext db db1 db2 :
  fw_good db db1 → fw_conv db2 = fw_conv db1 → same_static db2 db1 → fw_good db db2.
Proof.
  intros Hg Hc Hs Hok Hfk. destruct (Hg Hok Hfk) as (Hok1 & Hs1 & Hr1).
  rewrite Hc. split; [done|]. split; [by etrans|]. intros c Hin. rewrite Hc. auto.
Qed.

Lemma good_reconcile now obj db : fw_good db (reconcile_module now obj db).1.
Proof.
  intros Hok Hfk. split_and!; [|apply reconcile_static|by apply reconcile_stays].
  destruct (reconcile_module now obj db) as [db' res] eqn:Hr.
  by destruct (reconcile_rows _ _ _ _ _ Hok Hr).
Qed.

Lemma good_write db c c' :
  c ∈ fw_conv db → same_row c c' → (row_ok c → row_ok c') → kept db c c' → fw_good db (write_conv c' db).
Proof.
  intros Hc Hsame Hrow Hkept Hok Hfk. split; [|split; [done|]].
  - apply (write_row_ok c' c); try done. apply Hrow. by apply Hok.
  - apply (rows_stay_write _ _ c); try done. apply kept_refl.
Qed.

Lemma kept_live db c c' : cs_state c = S_UPDATING ∨ cs_state c = S_OK → kept db c c'.
Proof.
  intros Hs. assert (cs_state c ≠ S_NOT_UPDATABLE) by (destruct Hs; congruence).
  unfold kept, quarantined, failed, sticky_of. rewrite decide_False by done.
  split; intros [= Hc]; destruct Hs; congruence.
Qed.

Lemma good_foldl {A S} (f : S → A → S) (proj : S → FwDb) (l : list A) s :
  (∀ s x, fw_good (proj s) (proj (f s x))) → fw_good (proj s) (proj (foldl f s l)).
Proof.
  intros Hstep. revert s. induction l as [|x l IH]; intros s; simpl; [apply good_refl|].
  eapply good_trans; [apply Hstep|apply IH].
Qed.

(** ** Every handler *)

Lemma good_check_one now bs rows db a : fw_good db (check_one now bs rows db a).1.
Proof.
  unfold check_one. destruct (find_module _ rows) as [obj|]; [|apply good_refl].
  pose proof (good_reconcile now obj db) as Hg. by destruct (reconcile_module now obj db).
Qed.

Lemma good_check_select now st db : fw_good db (check_select now st db).1.
Proof.
  unfold check_select.
  pose proof (good_foldl (check_step now (module_ota_backends st) db) (λ s, s.1.1)
    (station_assignments (fs_pk st) db) (db, None, None)) as Hg.
  destruct (foldl _ _ _) as [[db' r] f]. simpl in *. apply Hg.
  intros [[db0 r0] f0] a. simpl. pose proof (good_check_one now (module_ota_backends st) db db0 a) as H1.
  destruct (check_one _ _ _ _ _) as [db1 [[i c]|]]; simpl in *; [|done]. by case_decide.
Qed.

Lemma good_type now t db : fw_good db (reconcile_module_type now t db).1.1.
Proof.
  unfold reconcile_module_type. apply (good_foldl (type_step now) (λ s, s.1.1) _ (db, [], [])).
  intros [[db0 n] r] m. unfold type_step. simpl.
  destruct (open_assignment (mo_pk m) db0); simpl; [|apply good_refl].
  pose proof (good_reconcile now m db0) as Hg. by destruct (reconcile_module now m db0).
Qed.

Lemma mark_row_ok now c :
  row_ok c → cs_state c = S_UPDATING → row_ok (set_instructed (Some now) (set_phase None None c)).
Proof. intros [Hb Hc Ha Ht Ho Hr Hp Hi] Hs. by constructor. Qed.

Lemma good_mark now c st db : fw_good db (mark_instructed now c st db).1.
Proof.
  unfold mark_instructed. destruct (decide (filter _ _ ≠ [])) as [Hne|]; [|apply good_refl].
  apply filter_not_nil in Hne as (x & Hx & Hpk & Hs & Hcond). simpl.
  intros Hok. assert (∀ y, y ∈ fw_conv db → cs_pk y = cs_pk c → y = x) as Hu.
  { intros y Hy Heq. eapply (NoDup_fmap_elem_inj cs_pk); [apply Hok|done..|congruence]. }
  set (x' := set_instructed (Some now) (set_phase None None x)).
  assert (update_where (λ r, cs_pk r = cs_pk c ∧ cs_state r = S_UPDATING ∧
      (cs_instructed_at r = None ∨ cs_phase r ≠ None))
      (λ r, set_instructed (Some now) (set_phase None None r)) (fw_conv db) =
    fw_conv (write_conv x' db)) as Heq.
  { simpl. unfold update_where. apply list_fmap_ext. intros i y Hi; simpl.
    apply list_elem_of_lookup_2 in Hi.
    destruct (decide (cs_pk y = cs_pk x)) as [He|He].
    - rewrite (Hu y) by (done || congruence). rewrite decide_True; done.
    - rewrite decide_False; [done|]. intros (? & _). congruence. }
  revert Hok. change (fw_good db (audit (cs_module c) (Some st) [MODULE_FLASH_INSTRUCTED] (with_conv (update_where (λ r, cs_pk r = cs_pk c ∧ cs_state r = S_UPDATING ∧
      (cs_instructed_at r = None ∨ cs_phase r ≠ None))
      (λ r, set_instructed (Some now) (set_phase None None r)) (fw_conv db)) db))).
  rewrite Heq. apply (good_ext _ (write_conv x' db)); [|done|by constructor].
  apply (good_write _ x); [done|done| |by apply kept_live; left]. intros Hrow. by apply mark_row_ok.
Qed.

Lemma progress_same now p c : same_row c (progress now p c).1.
Proof. unfold progress. repeat case_match; done. Qed.

Lemma progress_state now p c : cs_state (progress now p c).1 = cs_state c.
Proof. unfold progress. repeat case_match; done. Qed.

Lemma set_transient_0_ok c : row_ok c → row_ok (set_transient 0 c).
Proof. intros [Hb Hc Ha Ht Ho Hr Hp Hi]. constructor; simpl; try done; lia. Qed.

Lemma set_error_ok mode msg c : row_ok c → row_ok (set_error mode msg c).
Proof. intros [Hb Hc Ha Ht Ho Hr Hp Hi]. by constructor. Qed.

Lemma stamp_ok now c : row_ok c → row_ok (fw_stamp now c).
Proof. intros [Hb Hc Ha Ht Ho Hr Hp Hi]. by constructor. Qed.

Lemma set_last_attempt_ok v c : row_ok c → row_ok (set_last_attempt v c).
Proof. intros [Hb Hc Ha Ht Ho Hr Hp Hi]. by constructor. Qed.

Lemma set_phase_ok p t c : cs_state c = S_UPDATING → row_ok c → row_ok (set_phase p t c).
Proof. intros Hs [Hb Hc Ha Ht Ho Hr Hp Hi]. by constructor. Qed.

Lemma end_attempt_ok c : row_ok c → row_ok (end_attempt c).
Proof. intros [Hb Hc Ha Ht Ho Hr Hp Hi]. by constructor. Qed.

#[local] Hint Resolve set_transient_0_ok set_error_ok stamp_ok set_last_attempt_ok set_phase_ok
  end_attempt_ok : firmware.

Lemma progress_ok now p c :
  row_ok c → cs_state c = S_UPDATING → row_ok (progress now p c).1.
Proof. intros Hok Hs. unfold progress. repeat case_match; simpl; auto 10 with firmware. Qed.

Lemma authorised_spec st pk db m c :
  authorised st pk db = Some (m, c) →
  c ∈ fw_conv db ∧ cs_pk c = pk ∧ m ∈ fw_modules db ∧ mo_pk m = cs_module c ∧
  ∃ a, a ∈ fw_assignments db ∧ as_module a = mo_pk m ∧ as_station a = Some st ∧ as_to a = None.
Proof.
  unfold authorised. intros Ha.
  destruct (find_conv pk db) as [c0|] eqn:Hc; simpl in Ha; [|done].
  destruct (find_module _ db) as [m0|] eqn:Hm; simpl in Ha; [|done].
  destruct (head _) as [a|] eqn:Has; simpl in Ha; [|done]. simplify_eq.
  apply head_filter_Some in Hc as [Hpk Hc]. apply head_filter_Some in Hm as [Hmp Hm].
  apply head_filter_Some in Has as [(H1 & H2 & H3) Has]. eauto 10.
Qed.

(** A row that is neither given up nor converged is updating. *)
Lemma live_cases s : is_given_up s = false → s = S_UPDATING ∨ s = S_OK.
Proof. destruct s; naive_solver. Qed.

Lemma good_apply_row db m st c c' v ev :
  c ∈ fw_conv db → same_row c c' → (row_ok c → row_ok c') → kept db c c' →
  fw_good db (apply_row m st (c', v, ev) db).
Proof.
  intros Hc Hsame Hrow Hk. unfold apply_row. eapply good_ext; [by apply (good_write _ c c')| |].
  - simpl. destruct v; [|done]. by rewrite set_rollup_conv.
  - rewrite audit_static. destruct v; [|done]. by rewrite set_rollup_static.
Qed.

Lemma good_status now st pk rep msg db : fw_good db (status_view now st pk rep msg db).1.
Proof.
  unfold status_view. destruct (authorised st pk db) as [[m c]|] eqn:Ha; [|apply good_refl].
  apply authorised_spec in Ha as (Hc & _).
  destruct (is_given_up (cs_state c)) eqn:Hg; simpl.
  { by apply (good_ext _ db); [apply good_refl|..]. }
  destruct (decide (cs_state c = S_OK)) as [|Hno]; simpl; [apply good_refl|].
  destruct (live_cases _ Hg) as [Hs|]; [|done].
  destruct (report_row now (mo_convergence m) rep msg c) as [[c' v] ev] eqn:Hr.
  unfold report_row in Hr. apply (good_apply_row _ _ _ c); [done|..|by apply kept_live; left].
  - destruct rep as [p|mode].
    + pose proof (progress_same now p c). destruct (progress now p c). by simplify_eq.
    + destruct (record_error _ _ _ _ _) as [[c1 v1] ev1] eqn:He. simplify_eq. by eapply record_error_same.
  - intros Hrow. destruct rep as [p|mode].
    + pose proof (progress_ok now p c Hrow Hs). destruct (progress now p c). by simplify_eq.
    + destruct (record_error _ _ _ _ _) as [[c1 v1] ev1] eqn:He. simplify_eq.
      eapply record_error_ok; [done|by left|done].
Qed.

Lemma good_commit now st pk ver db : fw_good db (fw_commit_view now st pk ver db).1.
Proof.
  unfold fw_commit_view. destruct (authorised st pk db) as [[m c]|] eqn:Ha; [|apply good_refl].
  apply authorised_spec in Ha as (Hc & _).
  destruct (is_given_up (cs_state c)) eqn:Hg; simpl.
  { by apply (good_ext _ db); [apply good_refl|..]. }
  destruct (target_release c db) as [r|]; simpl; [|apply good_refl].
  pose proof (live_cases _ Hg) as Hs.
  destruct (decide (ver ≠ rl_version r)); simpl.
  - destruct (record_error _ _ _ _ _) as [[c' v] ev] eqn:He.
    apply (good_apply_row db m st c c' (Some v) (MODULE_FLASH_ROLLED_BACK :: ev)); [done|by eapply record_error_same| |by apply kept_live].
    intros Hrow. eapply record_error_ok; [done|tauto|done].
  - eapply good_trans; [|apply good_reconcile].
    assert (fw_good db (write_conv (fw_stamp now (end_attempt (set_transient 0 c))) db)) as Hw.
    { apply (good_write _ c); [done|done| |by apply kept_live]. auto with firmware. }
    destruct (is_repeated_commit _ _ _); [done|]. by apply (good_ext _ _ _ Hw).
Qed.

(** ** Operator actions *)

Lemma released_row_ok now c : row_ok c → cs_state c = S_QUARANTINED → row_ok (released_row now c).
Proof.
  intros [Hb Hc Ha Ht Ho Hr Hp Hi] Hs. rewrite Hs in *.
  constructor; unfold sticky_of; simpl; try done; unfold QUARANTINE_ATTEMPT_LIMIT; lia.
Qed.

Lemma retried_row_ok now c : row_ok c → cs_state c = S_FAILED → row_ok (retried_row now c).
Proof.
  intros [Hb Hc Ha Ht Ho Hr Hp Hi] Hs. unfold sticky_of in Ha. rewrite Hs in *.
  constructor; unfold sticky_of; simpl; try done; try (unfold DRAIN_TRANSIENT_LIMIT; lia).
  intros _. by apply Ha.
Qed.

Lemma current_quarantine_spec m db c :
  current_quarantine m db = Some c →
  c ∈ fw_conv db ∧ cs_state c = S_QUARANTINED ∧ cs_module c = mo_pk m ∧ mo_convergence m = C_QUARANTINED.
Proof.
  unfold current_quarantine. case_decide as Hq; [done|].
  assert (∀ x, x ∈ quarantined_states (mo_pk m) db →
    x ∈ fw_conv db ∧ cs_state x = S_QUARANTINED ∧ cs_module x = mo_pk m) as Hin.
  { intros x. unfold quarantined_states. rewrite elem_of_sort_by2, list_elem_of_filter. tauto. }
  assert (mo_convergence m = C_QUARANTINED) as Hm by (destruct (mo_convergence m); done || by destruct Hq).
  destruct (open_assignment_target m db) as [t|]; simpl.
  - destruct (head (filter _ _)) as [x|] eqn:Hh; intros Hc; simplify_eq.
    + apply head_filter_Some in Hh as [_ Hh]. naive_solver.
    + apply head_elem_of in Hc. naive_solver.
  - intros Hc%head_elem_of. naive_solver.
Qed.

(** An operator action may restart quarantined rows of the modules in [Q] and
    failed rows of those in [F]. *)
Definition kept_but (Q F : Z → Prop) (db : FwDb) (c c' : Conv) : Prop :=
  (quarantined c → quarantined c' ∨ Q (cs_module c)) ∧
  (failed c → failed c' ∨ reached db c ∨ F (cs_module c)).

Definition good_but (Q F : Z → Prop) (db db' : FwDb) : Prop :=
  conv_ok (fw_conv db) → fk_ok db →
  conv_ok (fw_conv db') ∧ same_static db' db ∧ rows_stay (kept_but Q F db) db db'.

Lemma good_but_of_good Q F db db' : fw_good db db' → good_but Q F db db'.
Proof.
  intros Hg Hok Hfk. destruct (Hg Hok Hfk) as (? & ? & Hr). split_and!; try done.
  intros c Hc. destruct (Hr c Hc) as (c' & ? & ? & Hq & Hf). exists c'. split_and!; try done.
  split; [auto|]. intros [?|?]%Hf; auto.
Qed.

Lemma good_but_trans Q F db1 db2 db3 : good_but Q F db1 db2 → good_but Q F db2 db3 → good_but Q F db1 db3.
Proof.
  intros H12 H23 Hok Hfk. destruct (H12 Hok Hfk) as (Hok2 & Hs2 & Hr2).
  destruct (H23 Hok2 (fk_ok_static _ _ (symmetry Hs2) Hfk)) as (Hok3 & Hs3 & Hr3).
  split; [done|]. split; [by etrans|]. intros c Hc.
  destruct (Hr2 c Hc) as (c2 & Hc2 & Hsame2 & Hq2 & Hf2).
  destruct (Hr3 c2 Hc2) as (c3 & Hc3 & Hsame3 & Hq3 & Hf3).
  exists c3. assert (same_row c c3) as Hsame by (destruct Hsame2, Hsame3; split; congruence).
  assert (cs_module c2 = cs_module c) as Hm by (destruct Hsame2 as [_ Hk]; by injection Hk).
  rewrite Hm in *. split_and!; try done. split.
  - intros [Hq|?]%Hq2; auto.
  - intros [Hf|[?|?]]%Hf2; auto. destruct (Hf3 Hf) as [?|[Hre|?]]; auto. right; left.
    eapply (reached_static db2); [done| |done]. destruct Hsame2; split; congruence.
Qed.

Lemma good_but_write (Q F : Z → Prop) db c c' :
  c ∈ fw_conv db → same_row c c' → (row_ok c → row_ok c') → kept_but Q F db c c' →
  good_but Q F db (write_conv c' db).
Proof.
  intros Hc Hsame Hrow Hk Hok Hfk. split; [|split; [done|]].
  - apply (write_row_ok c' c); try done. apply Hrow. by apply Hok.
  - apply (rows_stay_write _ _ c); try done. intros x. split; auto.
Qed.

Lemma sticky_of_self c s : cs_state c = s → s ≠ S_NOT_UPDATABLE → sticky_of c = Some s.
Proof. intros <- Hs. unfold sticky_of. by rewrite decide_False. Qed.

Lemma good_release now mpk db :
  good_but (λ m, m = mpk) (λ _, False) db (release_quarantine now mpk db).1.
Proof.
  unfold release_quarantine.
  destruct (find_module mpk db) as [m|] eqn:Hm; [|apply good_but_of_good, good_refl].
  apply head_filter_Some in Hm as [Hpk _].
  pose proof (good_reconcile now m db) as H1. destruct (reconcile_module now m db) as [db1 res1]. simpl in H1.
  destruct (current_quarantine _ db1) as [p|] eqn:Hp; [|by apply good_but_of_good].
  apply current_quarantine_spec in Hp as (Hin & Hs & Hmod & _). rewrite refresh_pk in Hmod.
  assert (good_but (λ m, m = mpk) (λ _, False) db1 (write_conv (released_row now p) db1)) as H2.
  { apply (good_but_write _ _ _ p); [done|done| |].
    - intros ?. by apply released_row_ok.
    - split; [right; congruence|]. unfold failed. rewrite (sticky_of_self p S_QUARANTINED) by done. done. }
  pose proof (good_reconcile now (refresh m db1) (write_conv (released_row now p) db1)) as H3.
  destruct (reconcile_module now (refresh m db1) _) as [db2 res2]. simpl in *.
  apply (good_but_trans _ _ _ db1); [by apply good_but_of_good|]. eapply good_but_trans; [done|].
  apply good_but_of_good. by apply (good_ext _ db2).
Qed.

Lemma good_retry now mpk db :
  good_but (λ _, False) (λ m, m = mpk) db (retry_failed now mpk db).1.
Proof.
  unfold retry_failed.
  destruct (find_module mpk db) as [m|] eqn:Hm; [|apply good_but_of_good, good_refl].
  apply head_filter_Some in Hm as [Hpk _].
  pose proof (good_reconcile now m db) as H1.
  destruct (reconcile_module now m db) as [db1 [c|]] eqn:Hrec; [|by apply good_but_of_good].
  destruct (decide (cs_state c = S_FAILED)) as [Hs|]; [|by apply good_but_of_good]. simpl in H1.
  pose proof (good_reconcile now m (write_conv (retried_row now c) db1)) as H3.
  destruct (reconcile_module now m (write_conv _ _)) as [db2 res2]. simpl in *.
  intros Hok Hfk. destruct (reconcile_rows _ _ _ _ _ Hok Hrec) as [_ (d & c0 & v & ev & _ & _ & Hkey & Hsame & _ & Helem)].
  assert (c ∈ fw_conv db1) as Hc by (apply Helem; by left).
  assert (cs_module c = mpk) as Hmod by (destruct Hsame as [_ Hk]; unfold conv_key in *; congruence).
  revert Hok Hfk. apply (good_but_trans _ _ _ db1); [by apply good_but_of_good|].
  apply (good_but_trans _ _ _ (write_conv (retried_row now c) db1)).
  - apply (good_but_write _ _ _ c); [done|done| |].
    + intros ?. by apply retried_row_ok.
    + split; [|by auto]. unfold quarantined. rewrite (sticky_of_self c S_FAILED) by done. done.
  - apply good_but_of_good. by apply (good_ext _ db2).
Qed.

(** Dropping the notice touches neither identity nor state of a row. *)
Lemma good_online m db : fw_good db (clear_dfu_stuck m db).
Proof.
  intros [Hpk Hkey Hrows] _. unfold clear_dfu_stuck. simpl.
  set (P := λ c, cs_module c = m ∧ String.prefix DFU_STUCK_PREFIX (cs_error_message c) = true).
  set (clr := λ c, set_error (cs_error_mode c) "" c).
  split; [|split; [by constructor|]].
  - constructor.
    + unfold update_where. rewrite <-list_fmap_compose.
      rewrite (list_fmap_ext _ cs_pk (fw_conv db)); [done|].
      intros i c _. simpl. by case_decide.
    + unfold update_where. rewrite <-list_fmap_compose.
      rewrite (list_fmap_ext _ conv_key (fw_conv db)); [done|].
      intros i c _. simpl. by case_decide.
    + intros c' (c & Hc & [[_ ->]|[_ ->]])%elem_of_update_where; [|by apply Hrows].
      destruct (Hrows c Hc) as [Hb Hn Ha Ht Ho Hr Hp Hi]. by constructor.
  - intros c Hc. exists (if decide (P c) then clr c else c). split.
    + apply elem_of_update_where. exists c. split; [done|]. case_decide; auto.
    + case_decide; [|split; [done|apply kept_refl]]. split; [done|]. unfold kept. tauto.
Qed.

(** ** Executions *)

Definition releases_module (m : Z) (op : FwOp) : Prop := match op with O_release _ k => m = k | _ => False end.
Definition retries_module (m : Z) (op : FwOp) : Prop := match op with O_retry _ k => m = k | _ => False end.

Lemma step_keeps op db db' :
  fw_step op db db' → conv_ok (fw_conv db) → fk_ok db →
  conv_ok (fw_conv db') ∧ fk_ok db' ∧
  rows_stay (kept_but (λ m, releases_module m op) (λ m, retries_module m op) db) db db'.
Proof.
  intros Hstep Hok Hfk.
  assert (∀ Q F, good_but Q F db db' → conv_ok (fw_conv db') ∧ fk_ok db' ∧ rows_stay (kept_but Q F db) db db')
    as Hgo.
  { intros Q F Hg. destruct (Hg Hok Hfk) as (? & Hs & ?). split_and!; try done.
    by eapply fk_ok_static. }
  destruct Hstep; try by apply Hgo, good_but_of_good;
    auto using good_reconcile, good_type, good_check_select, good_mark, good_status, good_commit, good_online.
  - apply Hgo, good_release.
  - apply Hgo, good_retry.
  - rewrite H. split_and!; try done. apply rows_stay_refl; [|done]. intros c. split; auto.
Qed.

(** C31. Over any execution the convergence table stays well formed: one row per
    module and release; a row that may be offered has fewer than three rollbacks
    and fewer than five transient failures behind it; a phase or an open
    instruction exists only while updating; the reason code and the hidden state
    belong to the state. *)
Theorem firmware_rows_well_formed tr db db' :
  fw_runs tr db db' → conv_ok (fw_conv db) → fk_ok db → conv_ok (fw_conv db').
Proof.
  intros Hruns. induction Hruns as [|op tr db1 db2 db3 Hstep _ IH]; [done|].
  intros Hok Hfk. destruct (step_keeps _ _ _ Hstep Hok Hfk) as (? & ? & _). auto.
Qed.

(** C7. A quarantined row is released only by the operator's release of that module,
    and a failed one only by the operator's retry or by the module running the
    version it was meant to get: whatever heartbeats, checks, late reports,
    commits and target edits happen, also through a boot-key mismatch and back. *)
Theorem given_up_needs_operator tr db db' c :
  fw_runs tr db db' → conv_ok (fw_conv db) → fk_ok db → c ∈ fw_conv db →
  ∃ c', c' ∈ fw_conv db' ∧ same_row c c' ∧
    (quarantined c → quarantined c' ∨ ∃ s op, (s, op) ∈ tr ∧ releases_module (cs_module c) op) ∧
    (failed c → failed c' ∨ ∃ s op, (s, op) ∈ tr ∧ (retries_module (cs_module c) op ∨ reached s c)).
Proof.
  intros Hruns. revert c. induction Hruns as [db|op tr db1 db2 db3 Hstep _ IH]; intros c Hok Hfk Hc.
  { exists c. split; [done|]. split; [done|]. split; auto. }
  destruct (step_keeps _ _ _ Hstep Hok Hfk) as (Hok2 & Hfk2 & Hrows).
  destruct (Hrows c Hc) as (c2 & Hc2 & Hsame2 & Hq & Hf).
  destruct (IH c2 Hok2 Hfk2 Hc2) as (c3 & Hc3 & Hsame3 & Hq3 & Hf3).
  assert (cs_module c2 = cs_module c) as Hm by (destruct Hsame2 as [_ Hk]; by injection Hk).
  rewrite Hm in *. exists c3. split; [done|]. split; [destruct Hsame2, Hsame3; split; congruence|].
  split.
  - intros [Hc2q|?]%Hq; [|right; exists db1, op; set_solver].
    destruct (Hq3 Hc2q) as [?|(s & op' & ? & ?)]; [auto|]. right. exists s, op'. set_solver.
  - intros [Hc2f|[?|?]]%Hf; [|right; exists db1, op; set_solver..].
    destruct (Hf3 Hc2f) as [?|(s & op' & Hin & Hor)]; [auto|]. right. exists s, op'.
    split; [set_solver|]. destruct Hor as [?|Hre]; [auto|right].
    eapply (reached_static s); [done| |done]. destruct Hsame2; split; congruence.
Qed.

(** ** The drain and the check agree *)

(** The other constraints of the schema. *)
Record schema_ok (db : FwDb) : Prop := mkSchema {
  sc_modules : NoDup (mo_pk <$> fw_modules db);
  sc_releases : NoDup (rl_pk <$> fw_releases db);
  sc_assignments : NoDup (fw_assignments db);
  sc_open : ∀ a b, a ∈ fw_assignments db → b ∈ fw_assignments db → as_to a = None → as_to b = None →
    as_module a = as_module b → a = b
}.

(** An offered row: the module drifts, no boot key forbids the flash and the
    caps are not reached. *)
Lemma decide_row_updating now m r c c' v ev :
  row_ok c → decide_row now m r c = (c', v, ev) → cs_state c' = S_UPDATING →
  mo_version m ≠ rl_version r ∧ boot_key_mismatch m r = false ∧ cs_transient c' < DRAIN_TRANSIENT_LIMIT.
Proof.
  intros Hok Hd Hs. pose proof (decide_row_ok _ _ _ _ _ _ _ Hok Hd) as Hok'.
  pose proof (decide_row_sticky _ _ _ _ _ _ _ Hok Hd) as [Hq _].
  assert (mo_version m ≠ rl_version r) as Hv.
  { intros Hv. unfold decide_row in Hd. destruct (decide _) as [|Hn]; [by simplify_eq|].
    assert (quarantined c) as Hqc.
    { unfold quarantined. destruct (decide (sticky_of c = Some S_QUARANTINED)); [done|]. by destruct Hn. }
    apply Hq in Hqc. unfold quarantined in Hqc. by rewrite (sticky_of_self c' S_UPDATING) in Hqc. }
  split; [done|]. split; [|by apply Hok'].
  unfold decide_row in Hd. rewrite decide_False in Hd by tauto.
  rewrite bool_decide_true in Hd by done. destruct (boot_key_mismatch m r); [|done]. simpl in Hd.
  destruct (decide _); simplify_eq/=. congruence.
Qed.

Lemma refresh_type obj db : mo_type (refresh obj db) = mo_type obj.
Proof. unfold refresh. by case_match. Qed.

Lemma refresh_variant obj db : mo_variant (refresh obj db) = mo_variant obj.
Proof. unfold refresh. by case_match. Qed.

(** The desired release depends on identity, type and variant only. *)
Lemma desired_release_same m1 m2 db :
  mo_pk m1 = mo_pk m2 → mo_type m1 = mo_type m2 → mo_variant m1 = mo_variant m2 →
  desired_release_for_module m1 db = desired_release_for_module m2 db.
Proof. intros H1 H2 H3. unfold desired_release_for_module. by rewrite H1, H2, H3. Qed.

Lemma executable_same m1 m2 r bs :
  mo_uid_source m1 = mo_uid_source m2 → executable_artifact m1 r bs = executable_artifact m2 r bs.
Proof. intros H. unfold executable_artifact, artifact_for. by rewrite H. Qed.

(** A row looked up by the unique key. *)
Lemma head_filter_key (P : Conv → Prop) `{∀ c, Decision (P c)} l m r c :
  conv_ok l → c ∈ l → conv_key c = (m, r) → (∀ x, P x → conv_key x = (m, r)) →
  head (filter P l) = if decide (P c) then Some c else None.
Proof.
  intros Hok Hc Hk HP. case_decide as Hpc.
  - apply head_filter_unique; try done. intros y Hy HPy.
    eapply (NoDup_fmap_elem_inj conv_key); [apply Hok|done..|]. rewrite Hk. auto.
  - apply head_filter_None. intros y Hy HPy. assert (y = c) as ->; [|done].
    eapply (NoDup_fmap_elem_inj conv_key); [apply Hok|done..|]. rewrite Hk. auto.
Qed.

(** The module the loop sees in a later state of the same request. *)
Lemma refresh_static rows db db' pk obj :
  same_static db rows → same_static db' rows → find_module pk rows = Some obj →
  ∃ m', find_module pk db' = Some m' ∧ mo_pk m' = pk ∧ mo_pk obj = pk ∧ mo_type m' = mo_type obj ∧
    mo_variant m' = mo_variant obj ∧ mo_uid_source m' = mo_uid_source (refresh obj db).
Proof.
  intros Hs Hs' Ho. pose proof (find_module_static pk _ _ Hs') as H'. rewrite Ho in H'.
  destruct (find_module pk db') as [m'|] eqn:Hm'; [|done]. exists m'.
  pose proof Ho as Ho'. apply head_filter_Some in Ho' as [Hopk _].
  pose proof (find_module_static pk _ _ Hs) as H1. rewrite Ho in H1.
  destruct (find_module pk db) as [m1|] eqn:Hm1; [|done].
  cbn in H', H1. injection H' as E1 E2 E3 E4 E5 E6 E7 E8. injection H1 as F1 F2 F3 F4 F5 F6 F7 F8.
  unfold refresh. rewrite Hopk, Hm1. simpl. split_and!; congruence.
Qed.

(** One iteration of the check finds exactly what the drain sees afterwards. *)
Lemma check_one_pending now bs rows db a db' found :
  conv_ok (fw_conv db) → schema_ok rows → same_static db rows →
  check_one now bs rows db a = (db', found) → pending_one bs db' a = snd <$> found.
Proof.
  intros Hok Hsc Hs Hone. unfold check_one in Hone.
  destruct (find_module (as_module a) rows) as [obj|] eqn:Ho.
  2:{ simplify_eq. unfold pending_one. pose proof (find_module_static (as_module a) _ _ Hs) as H.
      rewrite Ho in H. by destruct (find_module (as_module a) db'). }
  destruct (reconcile_module now obj db) as [db1 res] eqn:Hrec. simplify_eq.
  pose proof (reconcile_static now obj db) as Hs1. rewrite Hrec in Hs1. simpl in Hs1.
  assert (same_static db' rows) as Hs' by by etrans.
  destruct (refresh_static _ _ _ _ _ Hs Hs' Ho) as (m' & Hm' & Hpk' & Hopk & Ht & Hv & Hu).
  destruct (reconcile_rows _ _ _ _ _ Hok Hrec) as [Hok1 Hres].
  unfold pending_one. rewrite Hm'. simpl.
  assert (desired_release_for_module m' db' = desired_release_for_module (refresh obj db) db) as Hd.
  { rewrite Hs1. apply desired_release_same; rewrite ?refresh_pk, ?refresh_type, ?refresh_variant; congruence. }
  rewrite Hd. destruct res as [c'|].
  2:{ destruct Hres as [Hn _]. rewrite Hn. simpl. by case_decide. }
  destruct Hres as (d & c & v & ev & Hdes & Hdec & Hkey & Hsame & Hold & Helem). rewrite Hdes. simpl.
  assert (target_release c' db' = Some d) as Htr.
  { assert (conv_key c' = (mo_pk obj, rl_pk d)) as Hk' by (destruct Hsame; congruence).
    injection Hk' as _ Hk2. unfold target_release. rewrite (ss_releases _ _ Hs').
    apply desired_release_in in Hdes. rewrite (ss_releases _ _ Hs) in Hdes.
    apply head_filter_unique; [|done|done]. intros y Hy Heq.
    eapply (NoDup_fmap_elem_inj rl_pk); [apply Hsc|done..|congruence]. }
  rewrite (executable_same m' (refresh obj db)) by done.
  assert (artifact_for m' = artifact_for (refresh obj db)) as Haf by (unfold artifact_for; by rewrite Hu).
  rewrite Haf.
  assert (c' ∈ fw_conv db') as Hin by (apply Helem; by left).
  assert (conv_key c' = (mo_pk m', rl_pk d)) as Hk' by (destruct Hsame; congruence).
  rewrite (head_filter_key _ _ (mo_pk m') (rl_pk d) c' Hok1 Hin Hk')
    by (intros x (? & ? & _); unfold conv_key; congruence).
  injection Hk' as Hk1 Hk2.
  case_decide as Hbs.
  - assert (executable_artifact (refresh obj db) (Some d) bs = None) as Hno.
    { unfold executable_artifact. simpl. rewrite decide_False; [done|tauto]. }
    case_decide; [done|]. rewrite Htr. simpl. by rewrite Hno.
  - destruct (decide (cs_state c' ≠ S_UPDATING)) as [Hns|Hup].
    + rewrite (decide_False (P := _ ∧ _)) by tauto.
      by destruct (executable_artifact _ _ _).
    + assert (cs_state c' = S_UPDATING) as Hup' by (destruct (cs_state c'); done || by destruct Hup).
      rewrite Htr. simpl. destruct (executable_artifact _ _ _); simpl; [|done].
      rewrite decide_True; [done|]. split_and!; try done. by apply (ro_transient c'), Hup'; apply Hok1.
Qed.

Lemma head_filter_agree {A} (P : A → Prop) `{∀ x, Decision (P x)} (l1 l2 : list A) :
  (∀ x y, x ∈ l1 → y ∈ l1 → P x → P y → x = y) → (∀ x, P x → x ∈ l1 ↔ x ∈ l2) →
  head (filter P l1) = head (filter P l2).
Proof.
  intros Hu Hiff. destruct (head (filter P l1)) as [x|] eqn:H1; symmetry.
  - apply head_filter_Some in H1 as [HP Hx]. apply head_filter_unique; [|by apply Hiff|done].
    intros y Hy HPy. apply Hiff in Hy; [|done]. auto.
  - rewrite head_filter_None in H1. apply head_filter_None. intros x Hx HP. apply Hiff in Hx; [|done].
    by apply (H1 x).
Qed.

(** What one assignment contributes does not depend on other modules' rows. *)
Lemma pending_one_frame bs db1 db2 a :
  same_static db1 db2 → conv_ok (fw_conv db1) →
  (∀ c, cs_module c = as_module a → c ∈ fw_conv db1 ↔ c ∈ fw_conv db2) →
  pending_one bs db1 a = pending_one bs db2 a.
Proof.
  intros Hs Hok Hrows. unfold pending_one.
  pose proof (find_module_static (as_module a) _ _ Hs) as H.
  destruct (find_module (as_module a) db1) as [m1|] eqn:H1;
    destruct (find_module (as_module a) db2) as [m2|] eqn:H2; try done.
  cbn in H. injection H as E1 E2 E3 E4 E5 E6 E7 E8. simpl.
  apply head_filter_Some in H1 as [Hpk1 _].
  assert (artifact_for m1 = artifact_for m2) as -> by (unfold artifact_for; by rewrite E3).
  case_decide; [done|]. rewrite Hs, (desired_release_same m1 m2) by congruence.
  destruct (desired_release_for_module m2 db2) as [d|]; simpl; [|done].
  rewrite (executable_same m1 m2) by done. destruct (executable_artifact m2 _ bs); simpl; [|done].
  rewrite E1. apply head_filter_agree.
  - intros x y Hx Hy (? & ? & _) (? & ? & _).
    eapply (NoDup_fmap_elem_inj conv_key); [apply Hok|done..|]. unfold conv_key. congruence.
  - intros x (Hx & _). apply Hrows. congruence.
Qed.

Lemma reconcile_frame now obj db db' res x :
  conv_ok (fw_conv db) → reconcile_module now obj db = (db', res) → cs_module x ≠ mo_pk obj →
  x ∈ fw_conv db' ↔ x ∈ fw_conv db.
Proof.
  intros Hok Hrec Hx. destruct (reconcile_rows _ _ _ _ _ Hok Hrec) as [_ Hres].
  destruct res as [c'|]; [|by destruct Hres as [_ ->]].
  destruct Hres as (d & c & v & ev & _ & _ & Hkey & Hsame & Hold & Helem). rewrite Helem.
  assert (cs_module c' = mo_pk obj) as Hc' by (destruct Hsame; unfold conv_key in *; congruence).
  split; [naive_solver|]. intros Hin. right. split; [done|]. intros Heq.
  destruct Hold as [Hc|[_ Hnew]].
  - assert (x = c) as ->; [|destruct Hsame; unfold conv_key in *; congruence].
    eapply (NoDup_fmap_elem_inj cs_pk); [apply Hok|done..|]. destruct Hsame; congruence.
  - destruct (Hnew x Hin) as [Hne _]. destruct Hsame; congruence.
Qed.

Lemma check_one_frame now bs rows db a db' found x :
  conv_ok (fw_conv db) → check_one now bs rows db a = (db', found) → cs_module x ≠ as_module a →
  x ∈ fw_conv db' ↔ x ∈ fw_conv db.
Proof.
  intros Hok Hone Hx. unfold check_one in Hone.
  destruct (find_module (as_module a) rows) as [obj|] eqn:Ho; [|by simplify_eq].
  destruct (reconcile_module now obj db) as [db1 res] eqn:Hrec. simplify_eq.
  eapply reconcile_frame; [done..|]. apply head_filter_Some in Ho as [-> _]. done.
Qed.

Lemma omap_ext_in {A B} (f g : A → option B) (l : list A) :
  (∀ x, x ∈ l → f x = g x) → omap f l = omap g l.
Proof.
  induction l as [|x l IH]; intros Hfg; [done|]. simpl. rewrite Hfg by set_solver.
  destruct (g x); [f_equal|]; apply IH; set_solver.
Qed.

Lemma head_snoc {A} (l : list A) x : head (l ++ [x]) = Some (default x (head l)).
Proof. by destruct l. Qed.

(** The accumulators of the loop: the first pending row already started and the
    first not yet started. *)
Lemma check_loop_pending now bs rows l :
  schema_ok rows → fk_ok rows → NoDup (as_module <$> l) →
  ∀ db, conv_ok (fw_conv db) → same_static db rows →
  ∀ db' r f, foldl (check_step now bs rows) (db, None, None) l = (db', r, f) →
  conv_ok (fw_conv db') ∧ same_static db' rows ∧
  (∀ x, cs_module x ∉ as_module <$> l → x ∈ fw_conv db' ↔ x ∈ fw_conv db) ∧
  snd <$> r = head (filter (λ c, cs_last_attempt_at c ≠ None) (omap (pending_one bs db') l)) ∧
  snd <$> f = head (filter (λ c, ¬ cs_last_attempt_at c ≠ None) (omap (pending_one bs db') l)).
Proof.
  intros Hsc Hfk. induction l as [|a l IH] using rev_ind; intros Hnd db Hok Hs db' r f Hfold.
  { simplify_eq/=. split_and!; done. }
  rewrite fmap_app, list.NoDup_app in Hnd. destruct Hnd as (Hnd & Hdis & _).
  rewrite foldl_snoc in Hfold.
  destruct (foldl _ _ l) as [[db1 r1] f1] eqn:Hl.
  destruct (IH Hnd db Hok Hs db1 r1 f1 Hl) as (Hok1 & Hs1 & Hframe1 & Hr1 & Hf1).
  unfold check_step in Hfold.
  destruct (check_one now bs rows db1 a) as [db2 found] eqn:Hone.
  pose proof (good_check_one now bs rows db1 a Hok1 (fk_ok_static _ _ (symmetry Hs1) Hfk)) as Hgood.
  rewrite Hone in Hgood. simpl in Hgood. destruct Hgood as (Hok2 & Hs2 & _).
  pose proof (check_one_pending _ _ _ _ _ _ _ Hok1 Hsc Hs1 Hone) as Hpend.
  assert (db2 = db') as -> by (destruct found as [[i c]|]; [case_decide|]; by simplify_eq).
  assert (omap (pending_one bs db') l = omap (pending_one bs db1) l) as Hsame.
  { apply omap_ext_in. intros b Hb. symmetry. apply pending_one_frame; [by symmetry|done|].
    intros x Hx. symmetry. eapply check_one_frame; [done..|]. intros Heq.
    apply (Hdis (as_module b)); [by apply list_elem_of_fmap_2|]. rewrite <-Hx, Heq. set_solver. }
  assert (∀ P `{∀ c, Decision (P c)}, head (filter P (omap (pending_one bs db') (l ++ [a]))) =
    match head (filter P (omap (pending_one bs db1) l)) with
    | Some c => Some c
    | None => match found with Some (_, c) => if decide (P c) then Some c else None | None => None end
    end) as Hhead.
  { intros P HP. rewrite omap_app, Hsame, filter_app. simpl. rewrite Hpend.
    destruct (filter P _) as [|c0 l0]; simpl; [|done]. destruct found as [[i c]|]; simpl; [|done].
    rewrite filter_cons. by destruct (decide (P c)). }
  split_and!; [done|by etrans| | |].
  - intros x Hx. rewrite fmap_app, not_elem_of_app in Hx. destruct Hx as [Hx1 Hx2].
    rewrite (check_one_frame _ _ _ _ _ _ _ x Hok1 Hone) by set_solver. by apply Hframe1.
  - rewrite Hhead, <-Hr1. destruct found as [[i c]|]; [|by injection Hfold as <- <-; destruct r1].
    destruct (decide (cs_last_attempt_at c ≠ None)); injection Hfold as <- <-; by destruct r1.
  - rewrite Hhead, <-Hf1. destruct found as [[i c]|]; [|by injection Hfold as <- <-; destruct f1].
    destruct (decide (cs_last_attempt_at c ≠ None)); injection Hfold as <- <-;
      [rewrite decide_False by tauto|rewrite decide_True by tauto]; by destruct f1.
Qed.

Lemma station_assignments_spec s db a :
  a ∈ station_assignments s db ↔ a ∈ fw_assignments db ∧ as_station a = Some s ∧ as_to a = None.
Proof. unfold station_assignments. rewrite merge_sort_Permutation, list_elem_of_filter. tauto. Qed.

Lemma station_modules_NoDup s db : schema_ok db → NoDup (as_module <$> station_assignments s db).
Proof.
  intros Hsc. apply NoDup_fmap_2_strong.
  - intros a b (Ha & _ & Hta)%station_assignments_spec (Hb & _ & Htb)%station_assignments_spec.
    by apply (sc_open _ Hsc).
  - unfold station_assignments. rewrite merge_sort_Permutation. apply NoDup_filter, Hsc.
Qed.

(** The chosen row is the first pending one already started, else the first. *)
Lemma check_select_pending now st db db' chosen :
  conv_ok (fw_conv db) → schema_ok db → fk_ok db → check_select now st db = (db', chosen) →
  conv_ok (fw_conv db') ∧ same_static db' db ∧
  snd <$> chosen = head (filter (λ c, cs_last_attempt_at c ≠ None) (pending_updates st db') ++
    filter (λ c, ¬ cs_last_attempt_at c ≠ None) (pending_updates st db')).
Proof.
  intros Hok Hsc Hfk Hsel. unfold check_select in Hsel.
  destruct (foldl _ _ _) as [[db1 r] f] eqn:Hfold. simplify_eq.
  destruct (check_loop_pending _ _ _ _ Hsc Hfk (station_modules_NoDup _ _ Hsc) _ Hok
    (reflexivity db) _ _ _ Hfold) as (Hok' & Hs' & _ & Hr & Hf).
  split; [done|]. split; [done|].
  assert (pending_updates st db' =
    omap (pending_one (module_ota_backends st) db') (station_assignments (fs_pk st) db)) as ->.
  { assert (station_assignments (fs_pk st) db' = station_assignments (fs_pk st) db) as Hsa by by rewrite Hs'.
    unfold pending_updates. rewrite Hsa. case_decide as Hb; [|done]. rewrite Hb.
    assert (∀ a, pending_one [] db' a = None) as Hnone.
    { intros a. unfold pending_one. destruct (find_module _ _) as [m|]; simpl; [|done].
      destruct (decide (artifact_for m ∉ [])) as [|Hin]; [done|]. destruct Hin. apply not_elem_of_nil. }
    clear -Hnone. induction (station_assignments (fs_pk st) db) as [|a l IH]; [done|]. simpl. by rewrite Hnone. }
  destruct r as [[i c]|]; simpl in *.
  - destruct (filter _ _) as [|c0 l0]; simplify_eq/=. done.
  - destruct (filter (λ c, cs_last_attempt_at c ≠ None) _); [|done]. done.
Qed.

Lemma pending_updates_rows st db c :
  c ∈ pending_updates st db → c ∈ fw_conv db ∧ cs_state c = S_UPDATING.
Proof.
  unfold pending_updates. case_decide; [intros Hn; by apply not_elem_of_nil in Hn|].
  intros (a & Ha & Hp)%list_elem_of_omap. unfold pending_one in Hp.
  destruct (find_module _ db) as [m|]; simpl in Hp; [|done]. case_decide; [done|].
  destruct (desired_release_for_module m db) as [d|]; simpl in Hp; [|done].
  destruct (executable_artifact _ _ _); simpl in Hp; [|done].
  apply head_filter_Some in Hp as [(_ & _ & ? & _) ?]. done.
Qed.

(** An undisturbed mark of an updating row succeeds. *)
Lemma mark_fresh now c st db :
  conv_ok (fw_conv db) → c ∈ fw_conv db → cs_state c = S_UPDATING → (mark_instructed now c st db).2 = true.
Proof.
  intros Hok Hc Hs. unfold mark_instructed. case_decide; [done|]. simpl.
  apply bool_decide_true. unfold find_conv. rewrite (head_filter_unique _ _ c); [by rewrite <-Hs|..]; try done.
  intros y Hy Heq. by eapply (NoDup_fmap_elem_inj cs_pk); [apply Hok|..].
Qed.

(** What an instruction says, against the tables the check started from. *)
Definition instruction_ok (bs : list Artifact) (rows : FwDb) (a : Assignment) (i : Instruction) : Prop :=
  ∃ m r, m ∈ fw_modules rows ∧ mo_pk m = as_module a ∧ in_slot i = as_slot a ∧
    in_uid i = mo_uid m ∧ in_type i = mo_type m ∧ in_variant i = mo_variant m ∧
    desired_release_for_module m rows = Some r ∧ in_release i = rl_pk r ∧ in_version i = rl_version r ∧
    mo_version m ≠ rl_version r ∧ boot_key_mismatch m r = false ∧
    in_artifact i = artifact_for m ∧ artifact_for m ∈ bs ∧ artifact_available r (artifact_for m) = true ∧
    in_checksum i = (match artifact_for m with ARTIFACT_SIM => rl_sim_sha256 r | ARTIFACT_DFU => rl_sha256 r end).

Lemma check_one_found now bs rows db a db' i c :
  conv_ok (fw_conv db) → schema_ok rows → same_static db rows →
  check_one now bs rows db a = (db', Some (i, c)) →
  in_convergence i = cs_pk c ∧ instruction_ok bs rows a i.
Proof.
  intros Hok Hsc Hs Hone. unfold check_one in Hone.
  destruct (find_module (as_module a) rows) as [obj|] eqn:Ho; [|done].
  destruct (reconcile_module now obj db) as [db1 res] eqn:Hrec. injection Hone as -> Hfound.
  destruct res as [c1|]; simpl in Hfound; [|done].
  destruct (decide (cs_state c1 ≠ S_UPDATING)) as [|Hup]; [done|].
  assert (cs_state c1 = S_UPDATING) as Hup' by (destruct (cs_state c1); done || by destruct Hup).
  destruct (target_release c1 db') as [r|] eqn:Htr; simpl in Hfound; [|done].
  destruct (executable_artifact _ _ _) as [art|] eqn:Hex; simpl in Hfound; [|done]. simplify_eq.
  destruct (reconcile_rows _ _ _ _ _ Hok Hrec) as [Hok1 (d & c0 & v & ev & Hdes & Hdec & Hkey & Hsame & Hold & _)].
  pose proof (reconcile_static now obj db) as Hs1. rewrite Hrec in Hs1. simpl in Hs1.
  pose proof Ho as Ho'. apply head_filter_Some in Ho' as [Hopk Hoin].
  assert (row_ok c0) as Hrow by (destruct Hold as [?|[-> _]]; [by apply Hok|apply row_ok_new]).
  destruct (decide_row_updating _ _ _ _ _ _ _ Hrow Hdec Hup') as (Hver & Hkeyok & _).
  assert (r = d) as ->.
  { unfold target_release in Htr. apply head_filter_Some in Htr as [Hrp Hrin].
    rewrite (ss_releases _ _ Hs1), (ss_releases _ _ Hs) in Hrin.
    apply desired_release_in in Hdes. rewrite (ss_releases _ _ Hs) in Hdes.
    eapply (NoDup_fmap_elem_inj rl_pk); [apply Hsc|done..|]. destruct Hsame; unfold conv_key in *; congruence. }
  assert (mo_version (refresh obj db) = mo_version obj ∧ mo_boot_key (refresh obj db) = mo_boot_key obj ∧
    mo_uid_source (refresh obj db) = mo_uid_source obj ∧ mo_uid (refresh obj db) = mo_uid obj)
    as (Hrv & Hrk & Hru & Hruid).
  { pose proof (find_module_static (as_module a) _ _ Hs) as H1. rewrite Ho in H1.
    unfold refresh. rewrite Hopk. destruct (find_module (as_module a) db) as [row|]; [|done].
    cbn in H1. injection H1 as E1 E2 E3 E4 E5 E6 E7 E8 E9. simpl. done. }
  unfold executable_artifact in Hex. simpl in Hex.
  destruct (decide _) as [[Hbs Hav]|]; [|done]. simplify_eq.
  assert (artifact_for (refresh obj db) = artifact_for obj) as Haf by (unfold artifact_for; by rewrite Hru).
  rewrite Haf in *. split; [done|]. exists obj, d. simpl.
  rewrite refresh_type, refresh_variant, Hruid.
  split_and!; try done; try congruence.
  - rewrite <-Hdes, (desired_release_same (refresh obj db) obj)
      by by rewrite ?refresh_pk, ?refresh_type, ?refresh_variant. by rewrite Hs.
  - unfold boot_key_mismatch in *. by rewrite Hru, Hrk in Hkeyok.
Qed.

(** Both accumulators only hold instructions of iterations of this loop. *)
Lemma check_loop_found now bs rows l :
  schema_ok rows → fk_ok rows →
  ∀ db, conv_ok (fw_conv db) → same_static db rows →
  ∀ db' r f, foldl (check_step now bs rows) (db, None, None) l = (db', r, f) →
  ∀ i c, r = Some (i, c) ∨ f = Some (i, c) →
  in_convergence i = cs_pk c ∧ ∃ a, a ∈ l ∧ instruction_ok bs rows a i.
Proof.
  intros Hsc Hfk db Hok Hs. induction l as [|a l IH] using rev_ind; intros db' r f Hfold i c Hrf.
  { simplify_eq/=. naive_solver. }
  rewrite foldl_snoc in Hfold. destruct (foldl _ _ l) as [[db1 r1] f1] eqn:Hl.
  assert (conv_ok (fw_conv db1) ∧ same_static db1 rows) as [Hok1 Hs1].
  { pose proof (good_foldl (check_step now bs rows) (λ s, s.1.1) l (db, None, None)) as Hg.
    rewrite Hl in Hg. simpl in Hg. destruct Hg as (? & ? & _); [|done|by eapply fk_ok_static|].
    - intros [[db0 r0] f0] b. simpl. pose proof (good_check_one now bs rows db0 b) as H1.
      destruct (check_one _ _ _ _ _) as [db2 [[i0 c0]|]]; simpl in *; [|done]. by case_decide.
    - split; [done|by etrans]. }
  assert (∀ i c, r1 = Some (i, c) ∨ f1 = Some (i, c) →
    in_convergence i = cs_pk c ∧ ∃ b, b ∈ l ++ [a] ∧ instruction_ok bs rows b i) as IH'.
  { intros i' c' H'. destruct (IH _ _ _ eq_refl _ _ H') as [? (b & ? & ?)]. split; [done|].
    exists b. set_solver. }
  unfold check_step in Hfold. destruct (check_one now bs rows db1 a) as [db2 [[i0 c0]|]] eqn:Hone.
  2:{ injection Hfold as <- <- <-. auto. }
  destruct (check_one_found _ _ _ _ _ _ _ _ Hok1 Hsc Hs1 Hone) as [Hpk Hin].
  assert ((i, c) = (i0, c0) ∨ r1 = Some (i, c) ∨ f1 = Some (i, c)) as [Heq|Hold]; [|simplify_eq|auto].
  - destruct (decide _); injection Hfold as <- <- <-; destruct r1, f1; naive_solver.
  - split; [done|]. exists a. set_solver.
Qed.

Lemma check_select_found now st db db' i c :
  conv_ok (fw_conv db) → schema_ok db → fk_ok db → check_select now st db = (db', Some (i, c)) →
  in_convergence i = cs_pk c ∧
  ∃ a, a ∈ station_assignments (fs_pk st) db ∧ instruction_ok (module_ota_backends st) db a i.
Proof.
  intros Hok Hsc Hfk Hsel. unfold check_select in Hsel.
  destruct (foldl _ _ _) as [[db1 r] f] eqn:Hfold.
  eapply (check_loop_found _ _ _ _ Hsc Hfk _ Hok (reflexivity db) _ _ _ Hfold).
  destruct r; simplify_eq; auto.
Qed.

(** The targets that apply to a station, by precedence. *)
Definition for_station (st : FwStation) (t : Target) : Prop :=
  tg_scope t = STATION ∧ tg_station t = Some (fs_pk st).
Definition for_group (st : FwStation) (t : Target) : Prop :=
  tg_scope t = GROUP ∧ fs_group st ≠ None ∧ tg_group t = fs_group st.

(** A version is wanted at a station: by a target of its own; or by one of its
    group when it has none of its own; or by the fleet target when it has
    neither, unless that is confined to another canary group. *)
Definition wanted_version (st : FwStation) (ty : Z) (version : string) (db : FwDb) : Prop :=
  ∃ t, t ∈ fw_targets db ∧ tg_type t = ty ∧ tg_version t = version ∧
    (for_station st t ∨
     (for_group st t ∧ ∀ o, o ∈ fw_targets db → tg_type o = ty → ¬ for_station st o) ∨
     (tg_scope t = FLEET ∧ (tg_canary_group t = None ∨ tg_canary_group t = fs_group st) ∧
      ∀ o, o ∈ fw_targets db → tg_type o = ty → ¬ for_station st o ∧ ¬ for_group st o)).

Definition scan_found (st : FwStation) (l : list Target)
    (acc : option Target * option Target * option Target) : Prop :=
  let ok := λ (P : Target → Prop) (o : option Target),
    match o with Some t => t ∈ l ∧ P t | None => ∀ t, t ∈ l → ¬ P t end in
  ok (for_station st) acc.1.1 ∧ ok (for_group st) acc.1.2 ∧ ok (λ t, tg_scope t = FLEET) acc.2.

Lemma scan_targets st l : scan_found st l (foldl (scope_step st) (None, None, None) l).
Proof.
  induction l as [|t l IH] using rev_ind; [split_and!; intros t Ht; by apply not_elem_of_nil in Ht|].
  rewrite foldl_snoc. destruct (foldl _ _ l) as [[s g] f]. destruct IH as (Hs & Hg & Hf).
  unfold scan_found, for_station, for_group in *. simpl in *.
  destruct (tg_scope t) eqn:Hsc; simpl; try case_decide; destruct s, g, f; simpl in *;
    repeat setoid_rewrite elem_of_app; repeat setoid_rewrite list_elem_of_singleton;
    split_and!; naive_solver congruence.
Qed.

Lemma effective_target_wanted st ty db t :
  effective_target st ty db = Some t → wanted_version st ty (tg_version t) db.
Proof.
  unfold effective_target, resolve_effective_target. set (l := filter _ _).
  assert (∀ o, o ∈ fw_targets db → tg_type o = ty → o ∈ l ∨ (¬ for_station st o ∧ ¬ for_group st o)) as Hall.
  { intros o Ho Hty. destruct (decide (applicable st o)) as [|Hn].
    - left. by apply list_elem_of_filter.
    - right. unfold applicable, for_station, for_group in *. naive_solver. }
  assert (∀ o, o ∈ l → o ∈ fw_targets db ∧ tg_type o = ty) as Hin.
  { intros o ((? & ?) & ?)%list_elem_of_filter. done. }
  pose proof (scan_targets st l) as (Hs & Hg & Hf).
  destruct (foldl _ _ l) as [[[s|] og] ofl]; simpl in *; [|destruct og as [g|]; [|destruct ofl as [f|]; [|done]]].
  - intros [= ->]. destruct Hs as [[? ?]%Hin ?]. exists t. auto.
  - intros [= ->]. destruct Hg as [[? ?]%Hin ?]. exists t. split_and!; try done. right; left.
    split; [done|]. intros o Ho Hty. destruct (Hall o Ho Hty) as [?|[? _]]; auto.
  - case_decide as Hc; [done|]. intros [= ->]. destruct Hf as [[? ?]%Hin ?].
    exists t. split_and!; try done. right; right. split; [done|]. split.
    + destruct (decide (tg_canary_group t = None)); [by left|]. right. apply dec_stable. tauto.
    + intros o Ho Hty. destruct (Hall o Ho Hty) as [?|?]; auto.
Qed.

(** What is handed out: a non-archived release for the type and variant of the
    module, in the version wanted at its station, not running, not forbidden by
    the boot key of a hardware module, and in the form it is flashed with. *)
Definition right_release (st : FwStation) (m : Module_) (db : FwDb) (i : Instruction) : Prop :=
  ∃ r, r ∈ fw_releases db ∧ rl_archived_at r = None ∧ rl_type r = mo_type m ∧ rl_variant r = mo_variant m ∧
    wanted_version st (mo_type m) (rl_version r) db ∧
    in_release i = rl_pk r ∧ in_version i = rl_version r ∧ mo_version m ≠ rl_version r ∧
    match mo_uid_source m with
    | SYNTHETIC => in_artifact i = ARTIFACT_SIM ∧ rl_sim_storage_key r ≠ "" ∧ in_checksum i = rl_sim_sha256 r
    | STM32_UID => in_artifact i = ARTIFACT_DFU ∧ rl_storage_key r ≠ "" ∧ in_checksum i = rl_sha256 r ∧
        (mo_boot_key m = "" ∨ rl_boot_key_hash r = "" ∨ mo_boot_key m = rl_boot_key_hash r)
    end.

Lemma instruction_ok_right bs db a i :
  schema_ok db → a ∈ fw_assignments db → as_to a = None → instruction_ok bs db a i →
  ∃ m st, m ∈ fw_modules db ∧ mo_pk m = as_module a ∧ in_slot i = as_slot a ∧ in_uid i = mo_uid m ∧
    in_type i = mo_type m ∧ in_variant i = mo_variant m ∧ in_artifact i ∈ bs ∧
    st ∈ fw_stations db ∧ as_station a = Some (fs_pk st) ∧ right_release st m db i.
Proof.
  intros Hsc Ha Hto (m & r & Hm & Hpk & ? & ? & ? & ? & Hdes & ? & ? & ? & Hkey & Hart & Hbs & Hav & Hsum).
  unfold desired_release_for_module in Hdes.
  destruct (assigned_station _ db) as [st|] eqn:Hst; simpl in Hdes; [|done].
  destruct (effective_target _ _ db) as [t|] eqn:Ht; simpl in Hdes; [|done].
  apply head_filter_Some in Hdes as [(? & ? & ? & Hv) ?]. apply effective_target_wanted in Ht.
  unfold assigned_station, open_assignment in Hst.
  destruct (head (filter _ _)) as [b|] eqn:Hb; simpl in Hst; [|done].
  apply head_filter_Some in Hb as [[Hbm Hbt] Hbin].
  assert (b = a) as -> by (apply (sc_open _ Hsc); congruence).
  destruct (as_station a) as [spk|] eqn:Hs; simpl in Hst; [|done].
  apply head_filter_Some in Hst as [? ?].
  exists m, st. rewrite Hart. split_and!; try done; try congruence. exists r.
  rewrite Hv in *. split_and!; try done; try congruence.
  unfold artifact_for, artifact_available, boot_key_mismatch in *.
  destruct (mo_uid_source m); simpl in *.
  - apply bool_decide_eq_true in Hav. split_and!; try done.
    destruct (decide (mo_boot_key m = "" ∨ _)) as [[?|?]|]; auto. apply bool_decide_eq_false in Hkey.
    right; right. by apply dec_stable.
  - by apply bool_decide_eq_true in Hav.
Qed.

(** C9. An instruction is handed out only while no operator held the station's lock,
    to the station the module is plugged into, for a non-archived release of the
    module's type and variant in the version of its effective target, which the
    module does not run yet, which its boot key does not forbid and which the
    agent's backend can flash; and the row is still updating when it is handed
    out, whatever other requests committed meanwhile. *)
Theorem instruction_sound now env st db db2 i :
  conv_ok (fw_conv db) → schema_ok db → fk_ok db → fw_check_view now env st db = (db2, Instruct i) →
  lock_held (fs_pk st) db = false ∧
  (∃ a m row, a ∈ fw_assignments db ∧ as_to a = None ∧ as_station a = Some (fs_pk st) ∧
     m ∈ fw_modules db ∧ mo_pk m = as_module a ∧ row ∈ fw_stations db ∧ fs_pk row = fs_pk st ∧
     in_slot i = as_slot a ∧ in_uid i = mo_uid m ∧ in_type i = mo_type m ∧ in_variant i = mo_variant m ∧
     in_artifact i ∈ module_ota_backends st ∧ right_release row m db i) ∧
  ∃ c, c ∈ fw_conv db2 ∧ cs_pk c = in_convergence i ∧ cs_state c = S_UPDATING.
Proof.
  intros Hok Hsc Hfk Hview. unfold fw_check_view in Hview.
  destruct (lock_held _ db); [done|]. split; [done|].
  destruct (check_select now st db) as [db1 [[i0 c]|]] eqn:Hsel; [|done].
  destruct (check_select_found _ _ _ _ _ _ Hok Hsc Hfk Hsel) as (Hpk & a & Ha & Hin).
  destruct (mark_instructed now c (fs_pk st) (env db1)) as [db3 fresh] eqn:Hmark.
  destruct fresh; simplify_eq. apply station_assignments_spec in Ha as (? & Hast & Hto).
  destruct (instruction_ok_right _ _ _ _ Hsc ltac:(done) ltac:(done) Hin)
    as (m & row & ? & ? & ? & ? & ? & ? & ? & ? & Hrow & ?).
  split. { exists a, m, row. split_and!; try done. congruence. }
  unfold mark_instructed in Hmark. destruct (decide _) as [Hne|].
  - apply filter_not_nil in Hne as (x & Hx & Hxp & Hxs & Hcond). simplify_eq/=.
    exists (set_instructed (Some now) (set_phase None None x)). split; [|by simpl; rewrite Hpk].
    apply elem_of_update_where. exists x. split; [done|]. by left.
  - injection Hmark as -> Hfresh. apply bool_decide_eq_true in Hfresh.
    destruct (find_conv (cs_pk c) db2) as [x|] eqn:Hf; [|done]. simpl in Hfresh.
    apply head_filter_Some in Hf as [? ?]. exists x. split_and!; [done|congruence|congruence].
Qed.

(** Preferring rows already started leaves a head when there is one at all. *)
Lemma preferred_nil {A} (P : A → Prop) `{∀ x, Decision (P x)} (l : list A) :
  head (filter P l ++ filter (λ x, ¬ P x) l) = None → l = [].
Proof.
  destruct l as [|x l]; [done|]. intros Hn. exfalso.
  assert (x ∈ filter P (x :: l) ++ filter (λ x, ¬ P x) (x :: l)) as Hx.
  { rewrite elem_of_app, !list_elem_of_filter. destruct (decide (P x)); set_solver. }
  destruct (filter P _ ++ filter _ _); [by apply not_elem_of_nil in Hx|done].
Qed.

(** C21. A station never drains for an update it is not handed: when no operator
    holds the lock, the check hands out an instruction for a pending row whenever
    one is pending after its reconciles, preferring one already started, unless
    that row stopped updating before it was marked; and when nothing was pending,
    the station does not drain, so a free lock is granted to the next operator. *)
Theorem drain_progress now env st db db2 resp :
  conv_ok (fw_conv db) → schema_ok db → fk_ok db → lock_held (fs_pk st) db = false →
  fw_check_view now env st db = (db2, resp) →
  let db1 := (check_select now st db).1 in
  let preferred := head (filter (λ c, cs_last_attempt_at c ≠ None) (pending_updates st db1) ++
      filter (λ c, ¬ cs_last_attempt_at c ≠ None) (pending_updates st db1)) in
  match resp with
  | Instruct i => ∃ c, preferred = Some c ∧ in_convergence i = cs_pk c
  | NoContent =>
    (db2 = db1 ∧ ∀ t user l, holder l = None → is_draining t st db2 = false ∧
       (acquire user (is_draining t st db2) t l).2 = Granted) ∨
    (db2 = env db1 ∧ ∃ c, preferred = Some c ∧ cs_state <$> find_conv (cs_pk c) db2 ≠ Some S_UPDATING)
  end.
Proof.
  intros Hok Hsc Hfk Hidle Hview. unfold fw_check_view in Hview. rewrite Hidle in Hview.
  destruct (check_select now st db) as [db1 chosen] eqn:Hsel.
  destruct (check_select_pending _ _ _ _ _ Hok Hsc Hfk Hsel) as (_ & _ & Hch).
  destruct chosen as [[i c]|]; simpl in Hch |- *.
  - unfold mark_instructed in Hview. destruct (decide _).
    { simplify_eq. exists c. split; [done|]. by destruct (check_select_found _ _ _ _ _ _ Hok Hsc Hfk Hsel). }
    destruct (bool_decide _) eqn:Hb; simplify_eq.
    + exists c. split; [done|]. by destruct (check_select_found _ _ _ _ _ _ Hok Hsc Hfk Hsel).
    + right. split; [done|]. exists c. split; [done|]. by apply bool_decide_eq_false in Hb.
  - simplify_eq. left. split; [done|]. intros t user l Hl. symmetry in Hch. apply preferred_nil in Hch.
    assert (is_draining t st db2 = false) as Hd.
    { unfold is_draining, drain_status. rewrite Hch. by destruct (is_online t st). }
    rewrite Hd. split; [done|]. unfold acquire. rewrite Hl, decide_True by auto. done.
Qed.

(** ** When the server gives an update up

    Reports for one row, as the status handler applies them: a row that is no
    longer updating refuses further ones. *)

Fixpoint run_reports (now : Z) (rollup : Convergence) (reps : list (Reported * string)) (c : Conv) : Conv :=
  match reps with
  | [] => c
  | (rep, msg) :: reps' =>
    run_reports now rollup reps'
      (if decide (cs_state c = S_UPDATING) then (report_row now rollup rep msg c).1.1 else c)
  end.

(** The policy, stated on the history alone. *)
Definition is_rollback (r : Reported) : bool := match r with P_error E_ROLLED_BACK => true | _ => false end.
Definition is_transient (r : Reported) : bool := match r with P_error E_TRANSIENT => true | _ => false end.
Definition is_verifying (r : Reported) : bool := match r with P_progress VERIFYING => true | _ => false end.

Definition count_of (p : Reported → bool) (l : list Reported) : Z := Z.of_nat (length (filter (λ r, p r = true) l)).

(** Transient failures since the image was last written. *)
Fixpoint since_verifying (acc : Z) (l : list Reported) : Z :=
  match l with
  | [] => acc
  | r :: l' =>
    since_verifying (if is_verifying r then 0 else if is_transient r then acc + 1 else acc) l'
  end.

(** Whether the last report of a history ends the update. *)
Definition ends_update (l : list Reported) (r : Reported) : option CState :=
  match r with
  | P_error E_REJECTED => Some S_QUARANTINED
  | P_error E_ROLLED_BACK => if decide (3 ≤ count_of is_rollback l + 1) then Some S_QUARANTINED else None
  | P_error E_TRANSIENT => if decide (5 ≤ since_verifying 0 l + 1) then Some S_FAILED else None
  | P_progress _ => None
  end.

(** The first report that ends it decides. *)
Fixpoint verdict (past l : list Reported) : CState :=
  match l with
  | [] => S_UPDATING
  | r :: l' => match ends_update past r with Some s => s | None => verdict (past ++ [r]) l' end
  end.

Lemma since_verifying_snoc acc l r :
  since_verifying acc (l ++ [r]) =
    if is_verifying r then 0 else if is_transient r then since_verifying acc l + 1 else since_verifying acc l.
Proof. revert acc. induction l as [|x l IH]; intros acc; simpl; [done|]. apply IH. Qed.

Lemma count_of_snoc p l r : count_of p (l ++ [r]) = count_of p l + (if p r then 1 else 0).
Proof.
  unfold count_of. rewrite filter_app, length_app, filter_cons, filter_nil.
  destruct (p r) eqn:Hp; [rewrite decide_True by done|rewrite decide_False by congruence]; simpl; lia.
Qed.

(** The counters of an updating row are those of its history. *)
Definition counters_match (past : list Reported) (c : Conv) : Prop :=
  cs_state c = S_UPDATING ∧ cs_attempts c = count_of is_rollback past ∧
  cs_transient c = since_verifying 0 past.

Lemma progress_counters now p c :
  cs_attempts (progress now p c).1 = cs_attempts c ∧
  cs_transient (progress now p c).1 = if decide (p = VERIFYING) then 0 else cs_transient c.
Proof.
  unfold progress.
  destruct (decide (p = VERIFYING ∧ cs_transient c ≠ 0)) as [[-> Hn]|Hn];
    [rewrite (decide_True (P := VERIFYING = VERIFYING)) by done|]; simpl;
    repeat case_match; simpl; split; try done; simplify_eq; destruct (decide (cs_transient c = 0)); try done;
    exfalso; apply Hn; auto.
Qed.

Lemma report_counters now rollup rep msg past c :
  counters_match past c →
  let c' := (report_row now rollup rep msg c).1.1 in
  match ends_update past rep with
  | Some s => cs_state c' = s
  | None => counters_match (past ++ [rep]) c'
  end.
Proof.
  intros (Hs & Ha & Ht). destruct rep as [p|mode]; simpl.
  - pose proof (progress_counters now p c) as [H1 H2]. pose proof (progress_state now p c) as H3.
    destruct (progress now p c) as [c' ev]. simpl in *. unfold counters_match.
    rewrite H1, H2, H3, count_of_snoc, since_verifying_snoc. simpl. rewrite Z.add_0_r.
    split_and!; try done. by destruct p.
  - unfold record_error. destruct mode; simpl; [done|..].
    + rewrite Ha. unfold QUARANTINE_ATTEMPT_LIMIT.
      destruct (decide (3 ≤ count_of is_rollback past + 1)); simpl; [done|].
      rewrite decide_False by congruence. rewrite Hs. simpl. unfold counters_match. simpl.
      by rewrite count_of_snoc, since_verifying_snoc.
    + rewrite Ht. unfold DRAIN_TRANSIENT_LIMIT.
      destruct (decide (5 ≤ since_verifying 0 past + 1)).
      * rewrite bool_decide_true by done. done.
      * rewrite bool_decide_false by tauto. rewrite Hs. simpl. unfold counters_match. simpl.
        rewrite count_of_snoc, since_verifying_snoc, Ha. simpl. by rewrite Z.add_0_r.
Qed.

Lemma run_reports_stopped now rollup reps c : cs_state c ≠ S_UPDATING → run_reports now rollup reps c = c.
Proof. revert c. induction reps as [|[r m] reps IH]; intros c Hs; simpl; [done|]. rewrite decide_False by done. auto. Qed.

Lemma run_reports_verdict now rollup reps past c :
  counters_match past c → cs_state (run_reports now rollup reps c) = verdict past (fst <$> reps).
Proof.
  revert past c. induction reps as [|[r m] reps IH]; intros past c Hc; simpl; [by destruct Hc|].
  pose proof (report_counters now rollup r m past c Hc) as Hr. cbv zeta in Hr.
  rewrite decide_True by by destruct Hc. destruct (ends_update past r) as [s|] eqn:He; [|by apply IH].
  rewrite run_reports_stopped; [done|]. rewrite Hr. unfold ends_update in He.
  clear -He. destruct r as [|[]]; [congruence..|destruct (decide _); congruence|destruct (decide _); congruence].
Qed.

Lemma since_verifying_nonneg acc l : 0 ≤ acc → 0 ≤ since_verifying acc l.
Proof. revert acc. induction l as [|r l IH]; intros acc H; simpl; [done|]. apply IH. repeat case_match; lia. Qed.

Definition is_error (r : Reported) : bool := match r with P_error _ => true | _ => false end.

(** While a history is undecided its errors are bounded by its successes. *)
Lemma verdict_bound past l :
  verdict past l = S_UPDATING → count_of is_rollback past ≤ 2 →
  count_of is_error past ≤ count_of is_rollback past + since_verifying 0 past + 4 * count_of is_verifying past →
  since_verifying 0 past ≤ 4 →
  count_of is_error (past ++ l) ≤ 2 + 4 * (count_of is_verifying (past ++ l) + 1).
Proof.
  revert past. induction l as [|r l IH]; intros past Hv Hrb Hsum Hsv; simpl in Hv.
  { rewrite app_nil_r. lia. }
  destruct (ends_update past r) as [s|] eqn:He.
  { unfold ends_update in He. destruct r as [|[]]; repeat case_decide; simplify_eq. }
  replace (past ++ r :: l) with ((past ++ [r]) ++ l) by by rewrite <-app_assoc.
  pose proof (since_verifying_nonneg 0 past).
  apply IH; [done|..]; rewrite ?count_of_snoc, ?since_verifying_snoc;
    destruct r as [[]|[]]; simpl in *; repeat case_decide; simplify_eq; lia.
Qed.

(** C20. For every sequence of reports on a new row the server's decision is the
    policy on that sequence: it quarantines at the first rejection and at the
    third rollback, and fails at the fifth transient failure since the image was
    last written; and a row still offered has seen a number of errors bounded by
    its successes, so retries cannot go on for ever. *)
Theorem attempts_policy now pk m r rollup reps :
  cs_state (run_reports now rollup reps (new_conv pk m r now)) = verdict [] (fst <$> reps) ∧
  (cs_state (run_reports now rollup reps (new_conv pk m r now)) = S_UPDATING →
   count_of is_error (fst <$> reps) ≤ 2 + 4 * (count_of is_verifying (fst <$> reps) + 1)).
Proof.
  assert (cs_state (run_reports now rollup reps (new_conv pk m r now)) = verdict [] (fst <$> reps)) as Hv
    by (by apply run_reports_verdict).
  split; [done|]. rewrite Hv. intros Hup. by apply (verdict_bound []).
Qed.

(** ** Examples

    One station with a module in slot 1 that runs 1.0 while the fleet target is
    2.0. *)

Definition ex_station : FwStation :=
  mkFwStation 1 None (Some 0) (JObj [("module_ota", JObj [("backends", JList [JStr "dfu"])])]).
Definition ex_module : Module_ :=
  mkModule 10 "0042" STM32_UID 3 LC_DEPLOYED REGISTERED "1.0" "uhf" C_UNKNOWN "" None None.
Definition ex_release : FwRelease :=
  mkFwRelease 7 3 "uhf" "2.0" "fm/2.0" "ab" 100 "" "" None "" None.
Definition ex_target : Target := mkTarget 3 "2.0" FLEET None None None.
Definition ex_assignment : Assignment := mkAssignment 5 10 (Some 1) "1" 0 None.
Definition ex_db (version : string) (conv : list Conv) : FwDb :=
  mkFwDb [ex_station] [(1, free_lock)]
    [mkModule 10 "0042" STM32_UID 3 LC_DEPLOYED REGISTERED version "uhf" C_UNKNOWN "" None None]
    [ex_release] [ex_target] [ex_assignment] conv [].
Definition ex_quarantined : Conv := set_cstate S_QUARANTINED (set_attempts 3 (new_conv 1 10 7 0)).

Lemma ex_conv_ok : conv_ok [ex_quarantined].
Proof.
  constructor; [apply NoDup_singleton..|].
  intros c ->%list_elem_of_singleton. constructor; unfold sticky_of; simpl; try done; lia.
Qed.

Lemma ex_nil_ok : conv_ok [].
Proof. constructor; [constructor..|]. intros c Hc. by apply not_elem_of_nil in Hc. Qed.

Lemma ex_schema version conv : schema_ok (ex_db version conv).
Proof.
  constructor; [apply NoDup_singleton..|].
  intros a b ->%list_elem_of_singleton ->%list_elem_of_singleton. done.
Qed.

Lemma ex_fk version conv : fk_ok (ex_db version conv).
Proof. intros a ->%list_elem_of_singleton. eexists. split; [apply list_elem_of_singleton; done|done]. Qed.

(** The check hands out the update; after five transient failures it does not. *)
Example ex_check :
  (fw_check_view 9 (λ d, d) ex_station (ex_db "1.0" [])).2 =
    Instruct (mkInstruction 1 "0042" "1" 3 "uhf" "2.0" ARTIFACT_DFU 7 "ab" (Some 100)) ∧
  is_draining 9 ex_station (fw_check_view 9 (λ d, d) ex_station (ex_db "1.0" [])).1 = true.
Proof. vm_compute. auto. Qed.

Lemma firmware_rows_well_formed_witness :
  conv_ok (fw_conv (status_view 9 1 1 (P_error E_TRANSIENT) "x"
    (check_select 9 ex_station (ex_db "1.0" [])).1).1).
Proof.
  apply (firmware_rows_well_formed
    [(ex_db "1.0" [], O_select 9 ex_station);
     ((check_select 9 ex_station (ex_db "1.0" [])).1, O_status 9 1 1 (P_error E_TRANSIENT) "x")]
    (ex_db "1.0" [])).
  - eapply FR_cons; [apply FS_select|]. eapply FR_cons; [apply FS_status|apply FR_nil].
  - apply ex_nil_ok.
  - apply ex_fk.
Defined.

Lemma given_up_needs_operator_witness :
  ∃ c', c' ∈ fw_conv (check_select 9 ex_station (ex_db "2.0" [ex_quarantined])).1 ∧
    same_row ex_quarantined c' ∧
    (quarantined ex_quarantined → quarantined c' ∨
      ∃ s op, (s, op) ∈ [(ex_db "2.0" [ex_quarantined], O_select 9 ex_station)] ∧
        releases_module (cs_module ex_quarantined) op) ∧
    (failed ex_quarantined → failed c' ∨
      ∃ s op, (s, op) ∈ [(ex_db "2.0" [ex_quarantined], O_select 9 ex_station)] ∧
        (retries_module (cs_module ex_quarantined) op ∨ reached s ex_quarantined)).
Proof.
  apply (given_up_needs_operator [(ex_db "2.0" [ex_quarantined], O_select 9 ex_station)]
    (ex_db "2.0" [ex_quarantined])).
  - eapply FR_cons; [apply FS_select|apply FR_nil].
  - apply ex_conv_ok.
  - apply ex_fk.
  - apply list_elem_of_singleton. reflexivity.
Defined.

(** The pending row is handed out; a module that runs the version leaves nothing
    pending, and the next operator gets the lock; a row quarantined between the
    reconcile and the mark is not handed out. *)
Lemma drain_progress_witness :
  (∃ c, head (filter (λ c, cs_last_attempt_at c ≠ None)
        (pending_updates ex_station (check_select 9 ex_station (ex_db "1.0" [])).1) ++
      filter (λ c, ¬ cs_last_attempt_at c ≠ None)
        (pending_updates ex_station (check_select 9 ex_station (ex_db "1.0" [])).1)) = Some c ∧
      1 = cs_pk c) ∧
  (acquire 4 (is_draining 9 ex_station (check_select 9 ex_station (ex_db "2.0" [])).1) 9 free_lock).2 = Granted ∧
  ∃ c, cs_state <$> find_conv (cs_pk c) (ex_db "1.0" [ex_quarantined]) ≠ Some S_UPDATING.
Proof.
  assert (fk_ok (ex_db "2.0" [])) as Hfk by apply ex_fk.
  split_and!.
  - apply (drain_progress 9 (λ d, d) ex_station (ex_db "1.0" [])
      (fw_check_view 9 (λ d, d) ex_station (ex_db "1.0" [])).1
      (Instruct (mkInstruction 1 "0042" "1" 3 "uhf" "2.0" ARTIFACT_DFU 7 "ab" (Some 100)))).
    + apply ex_nil_ok.
    + apply ex_schema.
    + apply ex_fk.
    + reflexivity.
    + vm_compute. reflexivity.
  - destruct (drain_progress 9 (λ _, ex_db "1.0" []) ex_station (ex_db "2.0" [])
      (check_select 9 ex_station (ex_db "2.0" [])).1 NoContent ex_nil_ok (ex_schema _ _) Hfk)
      as [[_ Hgrant]|[Heq _]]; [reflexivity|vm_compute; reflexivity| |].
    + apply Hgrant. reflexivity.
    + exfalso. vm_compute in Heq. discriminate.
  - destruct (drain_progress 9 (λ _, ex_db "1.0" [ex_quarantined]) ex_station (ex_db "1.0" [])
      (ex_db "1.0" [ex_quarantined]) NoContent ex_nil_ok (ex_schema _ _) (ex_fk _ _))
      as [[Heq _]|[_ (c & _ & Hc)]]; [reflexivity|vm_compute; reflexivity| |].
    + exfalso. vm_compute in Heq. discriminate.
    + exists c. exact Hc.
Defined.

Lemma instruction_sound_witness :
  ∃ m, m ∈ fw_modules (ex_db "1.0" []) ∧ right_release ex_station m (ex_db "1.0" [])
    (mkInstruction 1 "0042" "1" 3 "uhf" "2.0" ARTIFACT_DFU 7 "ab" (Some 100)).
Proof.
  destruct (instruction_sound 9 (λ d, d) ex_station (ex_db "1.0" [])
    (fw_check_view 9 (λ d, d) ex_station (ex_db "1.0" [])).1
    (mkInstruction 1 "0042" "1" 3 "uhf" "2.0" ARTIFACT_DFU 7 "ab" (Some 100)))
    as (_ & (a & m & row & _ & _ & _ & Hm & _ & Hrow & _ & _ & _ & _ & _ & _ & Hr) & _).
  - apply ex_nil_ok.
  - apply ex_schema.
  - apply ex_fk.
  - vm_compute. reflexivity.
  - apply list_elem_of_singleton in Hrow as ->. by exists m.
Defined.
