(* ===== verification/FirmwareStatus.v ===== *)
(** * Module firmware: the displayed update status

    Models [apps/module_firmware/update_status.py]: the read-only status of every
    module, resolved in bulk from five queries, and the priority table that turns
    the resolution into a display state.  The module documents that the display
    mirrors the reconciler and the check; the theorems say how far that holds.
    Display texts are not modelled. *)

From Stdlib Require Import ZArith Lia.
From stdpp Require Import base gmap list strings.
From S2P Require Import Prelude Json Permissions ControlLock FirmwareModel FirmwareApi.

Local Open Scope Z_scope.

(** ** Data *)

Inductive UpdateState :=
| U_NO_TARGET | U_CURRENT | U_QUARANTINED | U_NOT_UPDATABLE | U_FAILED | U_WAITING | U_RUNNING | U_PENDING.

Inductive WaitReason :=
| AGENT_NO_MODULE_OTA | NO_RELEASE_FOR_VARIANT | NO_ARTIFACT | STATION_OFFLINE | STATION_BUSY.

#[export] Instance UpdateState_eq_dec : EqDecision UpdateState.
Proof. solve_decision. Defined.

(** [reason_code]: empty, a wait reason, a stored reason or a quarantine mode. *)
Inductive StatusReason :=
| SR_none | SR_wait (w : WaitReason) | SR_row (r : ReasonCode) | SR_mode (m : ErrorMode).

Record UpdateStatus := mkStatus {
  us_state : UpdateState;
  us_phase : option Phase;
  us_reason : StatusReason;
  us_since : option Z
}.

(** [is_live]: the state can still change on its own. *)
Definition is_live (u : UpdateStatus) : bool :=
  match us_state u with U_RUNNING | U_WAITING | U_PENDING => true | _ => false end.

Definition waiting (w : WaitReason) : UpdateStatus := mkStatus U_WAITING None (SR_wait w) None.

Definition quarantine_status (c : Conv) : UpdateStatus :=
  mkStatus U_QUARANTINED None
    (match cs_error_mode c with
     | Some E_REJECTED => SR_mode E_REJECTED
     | Some E_ROLLED_BACK => SR_mode E_ROLLED_BACK
     | _ => SR_none
     end) (Some (cs_updated_at c)).

(** The row state the next reconcile will decide on, and whether its counters
    will be fresh. *)
Definition effective_state (m : Module_) (release : FwRelease) (c : Conv) : CState * bool :=
  let released := bool_decide (cs_state c = S_NOT_UPDATABLE) && keys_match m release in
  match released, cs_before c with
  | true, Some b => (b, false)
  | true, None => (S_UPDATING, true)
  | false, _ => (cs_state c, false)
  end.

(** [_decide]: first match wins. *)
Definition decide_status (now : Z) (m : Module_) (station : option FwStation) (target : option Target)
    (release : option FwRelease) (row : option Conv) (busy : list Z) : UpdateStatus :=
  match station, target with
  | Some st, Some t =>
    if decide (mo_version m = tg_version t) then mkStatus U_CURRENT None SR_none None
    else if match release with Some r => boot_key_mismatch m r | None => false end then
      mkStatus U_NOT_UPDATABLE None (SR_row BOOT_KEY_MISMATCH) (cs_updated_at <$> row)
    else
      let state := c ← row; r ← release; Some (effective_state m r c) in
      let live :=
        if negb (is_online now st) then waiting STATION_OFFLINE
        else
          match c ← row; cs_phase c with
          | Some p => mkStatus U_RUNNING (Some p) SR_none (c ← row; cs_phase_at c)
          | None =>
            if decide (artifact_for m ∉ module_ota_backends st) then waiting AGENT_NO_MODULE_OTA
            else
              match release with
              | None => waiting NO_RELEASE_FOR_VARIANT
              | Some r =>
                match executable_artifact m (Some r) (module_ota_backends st) with
                | None => waiting NO_ARTIFACT
                | Some _ =>
                  if decide (fs_pk st ∈ busy) then waiting STATION_BUSY
                  else mkStatus U_PENDING None SR_none (cs_created_at <$> row)
                end
              end
          end in
      match row, state with
      | Some c, Some (S_QUARANTINED, _) => quarantine_status c
      | Some c, Some (S_NOT_UPDATABLE, _) =>
        mkStatus U_NOT_UPDATABLE None (SR_row BOOT_KEY_MISMATCH) (Some (cs_updated_at c))
      | Some c, Some (S_FAILED, _) => mkStatus U_FAILED None (SR_row TRANSIENT_LIMIT) (Some (cs_updated_at c))
      | Some c, Some (S_UPDATING, fresh) =>
        if negb fresh && bool_decide (DRAIN_TRANSIENT_LIMIT ≤ cs_transient c)
        then mkStatus U_FAILED None (SR_row TRANSIENT_LIMIT) (Some (cs_updated_at c))
        else live
      | _, _ => live
      end
  | _, _ => mkStatus U_NO_TARGET None SR_none None
  end.

#[global] Arguments decide_status : simpl never.

(** ** The bulk resolution ([_resolve])

    A dict filled by a loop holds the last row of its key. *)

(** [_open_stations]: station of the open assignment. *)
Definition open_station (m : Z) (db : FwDb) : option FwStation :=
  a ← last (filter (λ a, as_module a = m ∧ as_to a = None) (fw_assignments db));
  s ← as_station a; find_station s db.

Definition bulk_target (m : Module_) (db : FwDb) : option Target :=
  st ← open_station (mo_pk m) db;
  resolve_effective_target st (filter (λ t, tg_type t = mo_type m) (fw_targets db)).

(** The keys of the releases query. *)
Definition release_keys (modules : list Module_) (db : FwDb) : list (Z * string * string) :=
  omap (λ m, t ← bulk_target m db; Some (mo_type m, mo_variant m, tg_version t)) modules.

Definition release_key_of (r : FwRelease) : Z * string * string := (rl_type r, rl_variant r, rl_version r).

Definition bulk_release (modules : list Module_) (m : Module_) (db : FwDb) : option FwRelease :=
  t ← bulk_target m db;
  last (filter (λ r, release_key_of r = (mo_type m, mo_variant m, tg_version t))
    (filter (λ r, rl_archived_at r = None ∧ release_key_of r ∈ release_keys modules db) (fw_releases db))).

(** [pairs]: module and desired release. *)
Definition bulk_pairs (modules : list Module_) (db : FwDb) : list (Z * Z) :=
  omap (λ m, r ← bulk_release modules m db; Some (mo_pk m, rl_pk r)) modules.

Definition bulk_row (modules : list Module_) (m : Module_) (db : FwDb) : option Conv :=
  last (filter (λ c, cs_module c = mo_pk m)
    (filter (λ c, conv_key c ∈ bulk_pairs modules db) (fw_conv db))).

Definition busy_stations (db : FwDb) : list Z :=
  fst <$> filter (λ p, holder p.2 ≠ None) (fw_locks db).

Definition bulk_update_status (now : Z) (modules : list Module_) (db : FwDb) : list (Z * UpdateStatus) :=
  (λ m, (mo_pk m, decide_status now m (open_station (mo_pk m) db) (bulk_target m db)
     (bulk_release modules m db) (bulk_row modules m db) (busy_stations db))) <$> modules.

(** ** Resolution in bulk is resolution one by one *)

(** The query's filter drops only targets the scan would skip. *)
Lemma scope_step_skip st acc t : ¬ applicable st t → scope_step st acc t = acc.
Proof.
  unfold applicable, scope_step. intros Hn. destruct acc as [[s g] f].
  destruct (tg_scope t) eqn:Hs; [naive_solver|rewrite decide_False by naive_solver; done..].
Qed.

Lemma resolve_filter st l :
  resolve_effective_target st (filter (applicable st) l) = resolve_effective_target st l.
Proof.
  unfold resolve_effective_target.
  assert (∀ acc, foldl (scope_step st) acc (filter (applicable st) l) = foldl (scope_step st) acc l) as H.
  { induction l as [|t l IH]; intros acc; [done|]. rewrite filter_cons. case_decide as Ht; simpl; [apply IH|].
    by rewrite scope_step_skip. }
  by rewrite H.
Qed.

Lemma effective_target_all st mt db :
  effective_target st mt db =
    resolve_effective_target st (filter (λ t, tg_type t = mt) (fw_targets db)).
Proof.
  unfold effective_target. rewrite <-(resolve_filter st (filter (λ t, tg_type t = mt) (fw_targets db))). f_equal.
  rewrite list_filter_filter. apply list_filter_iff. tauto.
Qed.

Lemma last_filter_unique {A} (P : A → Prop) `{∀ x, Decision (P x)} (l : list A) :
  (∀ x y, x ∈ l → y ∈ l → P x → P y → x = y) → last (filter P l) = head (filter P l).
Proof.
  intros Hu. destruct (last (filter P l)) as [x|] eqn:Hl.
  - apply last_Some_elem_of, list_elem_of_filter in Hl as [HP Hx].
    symmetry. apply head_filter_unique; auto.
  - apply last_None in Hl. by rewrite Hl.
Qed.

(** The unique constraints the single lookups rely on. *)
Record resolution_ok (db : FwDb) : Prop := mkResolution {
  rk_schema : schema_ok db;
  rk_release_key : NoDup (release_key_of <$> fw_releases db);
  rk_conv : conv_ok (fw_conv db)
}.

Lemma open_station_spec m db : schema_ok db → open_station m db = assigned_station m db.
Proof.
  intros Hsc. unfold open_station, assigned_station, open_assignment.
  rewrite last_filter_unique; [done|]. intros x y Hx Hy [<- ?] [? ?].
  by apply (sc_open _ Hsc).
Qed.

Lemma bulk_target_spec m db : schema_ok db → bulk_target m db = open_assignment_target m db.
Proof.
  intros Hsc. unfold bulk_target, open_assignment_target. rewrite open_station_spec by done.
  destruct (assigned_station _ db) as [st|]; simpl; [|done]. by rewrite effective_target_all.
Qed.

Lemma bulk_release_spec modules m db :
  resolution_ok db → m ∈ modules → bulk_release modules m db = desired_release_for_module m db.
Proof.
  intros [Hsc Hrk _] Hm. unfold bulk_release. rewrite bulk_target_spec by done.
  assert (∀ t, open_assignment_target m db = Some t →
    (mo_type m, mo_variant m, tg_version t) ∈ release_keys modules db) as Hkey.
  { intros t Ht. unfold release_keys. apply list_elem_of_omap. exists m. split; [done|].
    rewrite bulk_target_spec, Ht by done. done. }
  unfold desired_release_for_module, open_assignment_target in *.
  destruct (assigned_station (mo_pk m) db) as [st|]; simpl in *; [|done].
  destruct (effective_target st (mo_type m) db) as [t|]; simpl in *; [|done].
  specialize (Hkey t eq_refl). unfold fw_find_release. rewrite list_filter_filter.
  rewrite last_filter_unique.
  - f_equal. apply list_filter_iff. intros r. unfold release_key_of. split.
    + intros [Heq [? ?]]. by simplify_eq.
    + intros (? & -> & -> & ->). done.
  - intros x y Hx Hy [Hkx _] [Hky _]. eapply (NoDup_fmap_elem_inj release_key_of); [done..|congruence].
Qed.

Lemma bulk_row_spec modules m db :
  resolution_ok db → NoDup (mo_pk <$> modules) → m ∈ modules →
  bulk_row modules m db =
    (r ← desired_release_for_module m db;
     head (filter (λ c, conv_key c = (mo_pk m, rl_pk r)) (fw_conv db))).
Proof.
  intros Hres Hnd Hm. unfold bulk_row. rewrite list_filter_filter.
  assert (∀ c, cs_module c = mo_pk m → conv_key c ∈ bulk_pairs modules db ↔
    ∃ r, desired_release_for_module m db = Some r ∧ cs_release c = rl_pk r) as Hpairs.
  { intros c Hc. unfold bulk_pairs. rewrite list_elem_of_omap. split.
    - intros (m' & Hm' & Heq). rewrite bulk_release_spec in Heq by done.
      destruct (desired_release_for_module m' db) as [r|] eqn:Hd; simpl in Heq; [|done].
      injection Heq as H1 H2. assert (m' = m) as ->.
      { eapply (NoDup_fmap_elem_inj mo_pk); [done..|congruence]. }
      exists r. done.
    - intros (r & Hr & Hcr). exists m. split; [done|]. rewrite bulk_release_spec, Hr by done. simpl.
      unfold conv_key. congruence. }
  destruct (desired_release_for_module m db) as [r|] eqn:Hd; simpl.
  - rewrite last_filter_unique.
    + f_equal. apply list_filter_iff. intros c. unfold conv_key at 2. split.
      * intros [Hc Hp]. apply Hpairs in Hp as (r' & ? & ?); [|done]. simplify_eq. congruence.
      * intros Heq. injection Heq as H1 H2. split; [done|]. apply Hpairs; [done|]. by exists r.
    + intros x y Hx Hy [Hmx Hpx] [Hmy Hpy].
      apply Hpairs in Hpx as (r1 & ? & ?); [|done]. apply Hpairs in Hpy as (r2 & ? & ?); [|done].
      simplify_eq. eapply (NoDup_fmap_elem_inj conv_key); [apply Hres|done..|]. unfold conv_key. congruence.
  - apply last_None. destruct (filter _ _) as [|c l] eqn:Hf; [done|].
    assert (c ∈ filter (λ c, cs_module c = mo_pk m ∧ conv_key c ∈ bulk_pairs modules db) (fw_conv db)) as Hc
      by (rewrite Hf; set_solver).
    apply list_elem_of_filter in Hc as [[Hc Hp] _]. apply Hpairs in Hp as (r & ? & _); [|done]. done.
Qed.

(** ** The display against the reconciler *)

(** The row state a display state stands for. *)
Definition status_class (s : UpdateState) : option CState :=
  match s with
  | U_NO_TARGET => None
  | U_CURRENT => Some S_OK
  | U_QUARANTINED => Some S_QUARANTINED
  | U_NOT_UPDATABLE => Some S_NOT_UPDATABLE
  | U_FAILED => Some S_FAILED
  | U_WAITING | U_RUNNING | U_PENDING => Some S_UPDATING
  end.

(** The branches below the sticky states all stand for an updating row. *)
Ltac live_status :=
  repeat match goal with
  | |- context [if ?b then _ else _] => destruct b
  | |- context [match ?x with Some _ => _ | None => _ end] => destruct x
  end; simpl; try done.

Lemma decide_agrees now m r t c c' v ev st busy :
  row_ok c → rl_version r = tg_version t → decide_row now m r c = (c', v, ev) →
  let u := decide_status now m (Some st) (Some t) (Some r) (Some c) busy in
  status_class (us_state u) = Some (cs_state c') ∨
  (us_state u = U_CURRENT ∧ cs_state c' = S_QUARANTINED ∧ mo_version m = tg_version t).
Proof.
  intros Hok Hver Hdec u. pose proof (decide_row_sticky _ _ _ _ _ _ _ Hok Hdec) as [Hq _].
  unfold decide_row in Hdec. rewrite Hver in Hdec. subst u. unfold decide_status.
  destruct (decide (mo_version m = tg_version t)) as [Hv|Hv].
  { simpl. destruct (decide (sticky_of c = Some S_QUARANTINED)) as [Hs|Hs].
    - right. split_and!; try done. rewrite decide_False in Hdec by tauto.
      rewrite bool_decide_false in Hdec by tauto. simpl in Hdec.
      unfold leave_not_updatable in Hdec. unfold sticky_of in Hs.
      destruct (cs_state c) eqn:Hc; simplify_eq/=; [rewrite Hc in Hdec; simpl in Hdec; congruence|].
      rewrite Hs, (bool_decide_true (mo_version m = rl_version r)) in Hdec by congruence.
      rewrite orb_true_r in Hdec. simpl in Hdec. by simplify_eq/=.
    - left. rewrite decide_True in Hdec by done. by simplify_eq/=. }
  left. rewrite decide_False in Hdec by tauto. rewrite bool_decide_true in Hdec by done. simpl in Hdec.
  destruct (boot_key_mismatch m r).
  { destruct (decide _) as [Hs|]; simplify_eq/=; by rewrite ?Hs. }
  unfold leave_not_updatable, effective_state in *. simpl.
  assert (bool_decide (mo_version m = rl_version r) = false) as Hvr by (apply bool_decide_false; congruence).
  rewrite Hvr, orb_false_r in Hdec. pose proof (ro_before c Hok) as Hbef.
  pose proof (ro_converged c Hok) as Hconv. pose proof (ro_transient c Hok) as Htr.
  destruct (cs_state c) eqn:Hs; simpl in *.
  - rewrite Hs in Hdec. simpl in Hdec. rewrite decide_False in Hdec by (specialize (Hconv eq_refl); unfold DRAIN_TRANSIENT_LIMIT; lia).
    simplify_eq/=. live_status.
  - rewrite Hs in Hdec. simpl in Hdec. rewrite decide_False in Hdec by (specialize (Htr eq_refl); lia).
    simplify_eq/=. rewrite bool_decide_false by (specialize (Htr eq_refl); lia). live_status.
  - rewrite Hs in Hdec. simpl in Hdec. simplify_eq/=. by rewrite Hs.
  - rewrite Hs in Hdec. simpl in Hdec. simplify_eq/=. by rewrite Hs.
  - destruct (cs_before c) as [b|] eqn:Hb.
    + destruct (Hbef b eq_refl) as [_ Hcase]. destruct (keys_match m r); simpl in *.
      * destruct Hcase as [-> | ->]; simpl in Hdec; by simplify_eq/=.
      * rewrite Hs in Hdec. simpl in Hdec. simplify_eq/=. by rewrite Hs.
    + destruct (keys_match m r); simpl in *.
      * simplify_eq/=. live_status.
      * rewrite Hs in Hdec. simpl in Hdec. simplify_eq/=. by rewrite Hs.
Qed.

Lemma decide_status_new now m r t st busy pk mpk rpk :
  us_state (decide_status now m (Some st) (Some t) (Some r) None busy) =
  us_state (decide_status now m (Some st) (Some t) (Some r) (Some (new_conv pk mpk rpk now)) busy).
Proof. unfold decide_status, effective_state. simpl. live_status. Qed.

Lemma refresh_self m db : NoDup (mo_pk <$> fw_modules db) → m ∈ fw_modules db → refresh m db = m.
Proof.
  intros Hnd Hm. unfold refresh. assert (find_module (mo_pk m) db = Some m) as ->; [|by destruct m].
  apply head_filter_unique; [|done|done]. intros y Hy Heq. by eapply (NoDup_fmap_elem_inj mo_pk).
Qed.

(** Every status of the bulk is the priority table on the single lookups. *)
Lemma bulk_status_spec now modules m u db :
  resolution_ok db → NoDup (mo_pk <$> modules) → m ∈ modules →
  (mo_pk m, u) ∈ bulk_update_status now modules db →
  u = decide_status now m (assigned_station (mo_pk m) db) (open_assignment_target m db)
        (desired_release_for_module m db)
        (r ← desired_release_for_module m db;
         head (filter (λ c, conv_key c = (mo_pk m, rl_pk r)) (fw_conv db))) (busy_stations db).
Proof.
  intros Hres Hnd Hm Hu. unfold bulk_update_status in Hu.
  apply list_elem_of_fmap in Hu as (m' & Heq & Hm').
  assert (m' = m) as -> by (eapply (NoDup_fmap_elem_inj mo_pk); [done..|congruence]).
  injection Heq as ->. rewrite open_station_spec, bulk_target_spec by apply Hres.
  by rewrite bulk_release_spec, bulk_row_spec by done.
Qed.

(** A pending display needs everything the check asks for. *)
Lemma decide_status_pending now m st t r row busy :
  us_state (decide_status now m (Some st) (Some t) r row busy) = U_PENDING →
  is_online now st = true ∧ fs_pk st ∉ busy ∧
  ∃ r0, r = Some r0 ∧ executable_artifact m (Some r0) (module_ota_backends st) ≠ None.
Proof.
  unfold decide_status. simpl. intros H.
  repeat match type of H with
  | context [if decide ?P then _ else _] => destruct (decide P)
  | context [match executable_artifact ?a ?b ?c with _ => _ end] =>
    destruct (executable_artifact a b c) eqn:?
  | context [if ?b then _ else _] => destruct b eqn:?
  | context [match ?x with _ => _ end] => destruct x eqn:?
  end; simplify_eq/=; try done.
  all: split_and!; [by destruct (is_online now st)|done|]; eexists; split; [done|]; congruence.
Qed.

Lemma busy_held s db : lock_held s db = true ↔ s ∈ busy_stations db.
Proof.
  unfold lock_held, busy_stations. rewrite existsb_exists, list_elem_of_fmap. split.
  - intros (p & Hp & Hb). apply bool_decide_eq_true in Hb as [<- Hh]. exists p. split; [done|].
    apply list_elem_of_filter. split; [done|]. by apply list_elem_of_In.
  - intros (p & -> & Hp). apply list_elem_of_filter in Hp as [Hh Hp]. exists p.
    split; [by apply list_elem_of_In|]. by apply bool_decide_true.
Qed.

(** C29. The displayed status is what the next reconcile decides: quarantined, failed
    and not updatable rows are shown as such, and waiting, running or pending
    exactly when the row would be updating; "pending" means that the check would
    offer the update (online, unlocked, executable).  The one exception is a
    quarantined module that reports the target version, which is shown as
    current. *)
Theorem status_mirrors_reconcile now modules db m u db' res :
  resolution_ok db → NoDup (mo_pk <$> modules) → m ∈ modules → m ∈ fw_modules db →
  (mo_pk m, u) ∈ bulk_update_status now modules db → reconcile_module now m db = (db', res) →
  match res with
  | None => us_state u = U_NO_TARGET ∨ us_state u = U_CURRENT ∨ us_state u = U_WAITING
  | Some c => status_class (us_state u) = Some (cs_state c) ∨
      (us_state u = U_CURRENT ∧ cs_state c = S_QUARANTINED ∧ reached db c)
  end ∧
  (us_state u = U_PENDING →
   ∃ st r c, assigned_station (mo_pk m) db = Some st ∧ is_online now st = true ∧
     lock_held (fs_pk st) db = false ∧ desired_release_for_module m db = Some r ∧
     executable_artifact m (Some r) (module_ota_backends st) ≠ None ∧
     res = Some c ∧ cs_state c = S_UPDATING).
Proof.
  intros Hres Hnd Hm Hmdb Hu Hrec. pose proof (bulk_status_spec _ _ _ _ _ Hres Hnd Hm Hu) as Hspec.
  pose proof (reconcile_rows _ _ _ _ _ (rk_conv _ Hres) Hrec) as [_ Hrows].
  rewrite (refresh_self m db) in Hrows by (done || apply Hres).
  pose proof (decide_status_pending now m) as Hpend.
  destruct (desired_release_for_module m db) as [r|] eqn:Hd; simpl in Hspec.
  2:{ destruct res as [c|]; [by destruct Hrows as (? & ? & ? & ? & ? & _)|].
      unfold open_assignment_target in Hspec. destruct (assigned_station (mo_pk m) db) as [st|]; simpl in Hspec.
      2:{ subst u. unfold decide_status. simpl. split; [auto|done]. }
      destruct (effective_target st (mo_type m) db) as [t|]; [|subst u; unfold decide_status; simpl; split; [auto|done]].
      split; [|intros Hp; rewrite Hspec in Hp; apply Hpend in Hp as (_ & _ & r0 & ? & _); done].
      subst u. unfold decide_status. simpl. live_status; auto. }
  pose proof Hd as Hd'. unfold desired_release_for_module in Hd'. unfold open_assignment_target in Hspec.
  destruct (assigned_station (mo_pk m) db) as [st|]; simpl in *; [|done].
  destruct (effective_target st (mo_type m) db) as [t|]; simpl in *; [|done].
  apply head_filter_Some in Hd' as [(_ & _ & _ & Hver) Hrin].
  destruct res as [c'|]; [|by destruct Hrows].
  destruct Hrows as (d & c & v & ev & Heq & Hdec & Hkey & Hsame & Hold & _). simplify_eq.
  assert (row_ok c) as Hrow by (destruct Hold as [?|[-> _]]; [by apply Hres|apply row_ok_new]).
  pose proof (decide_agrees now m d t c c' v ev st (busy_stations db) Hrow Hver Hdec) as Hag. cbv zeta in Hag.
  set (u := decide_status _ _ _ _ _ _ _) in *.
  assert (us_state u = us_state (decide_status now m (Some st) (Some t) (Some d) (Some c) (busy_stations db))) as Hst.
  { subst u. destruct Hold as [Hin|[Hnew Hno]].
    - f_equal. f_equal. apply head_filter_unique; [|done|done]. intros y Hy Hk.
      eapply (NoDup_fmap_elem_inj conv_key); [apply Hres|done..|congruence].
    - rewrite Hnew. match goal with |- context [head ?l] => assert (head l = None) as -> end;
        [|apply decide_status_new]. apply head_filter_None. intros x Hx Hk. by destruct (Hno x Hx). }
  rewrite <-Hst in Hag. split.
  - destruct Hag as [?|(? & ? & Hv)]; [by left|right]. split_and!; try done.
    exists m, d. destruct Hsame as [_ Hk]. unfold conv_key in *. split_and!; try done; congruence.
  - intros Hp. destruct (Hpend st t _ _ _ Hp) as (Ho & Hb & r0 & Hr0 & Hex). simplify_eq.
    exists st, r0, c'. split_and!; try done.
    + destruct (lock_held (fs_pk st) db) eqn:Hl; [|done]. by apply busy_held in Hl.
    + rewrite Hp in Hag. naive_solver.
Qed.

(** A quarantined module that reports the target version: the reconciler keeps
    the quarantine, the display says current. *)
Lemma status_mirrors_reconcile_witness :
  (status_class U_CURRENT = Some S_QUARANTINED ∨
   (U_CURRENT = U_CURRENT ∧ S_QUARANTINED = S_QUARANTINED ∧
    reached (ex_db "2.0" [ex_quarantined]) ex_quarantined)) ∧
  (U_CURRENT = U_PENDING →
   ∃ st r c, assigned_station 10 (ex_db "2.0" [ex_quarantined]) = Some st ∧ is_online 9 st = true ∧
     lock_held (fs_pk st) (ex_db "2.0" [ex_quarantined]) = false ∧
     desired_release_for_module
       (mkModule 10 "0042" STM32_UID 3 LC_DEPLOYED REGISTERED "2.0" "uhf" C_UNKNOWN "" None None)
       (ex_db "2.0" [ex_quarantined]) = Some r ∧
     executable_artifact
       (mkModule 10 "0042" STM32_UID 3 LC_DEPLOYED REGISTERED "2.0" "uhf" C_UNKNOWN "" None None)
       (Some r) (module_ota_backends st) ≠ None ∧
     Some ex_quarantined = Some c ∧ cs_state c = S_UPDATING).
Proof.
  apply (status_mirrors_reconcile 9 (fw_modules (ex_db "2.0" [])) (ex_db "2.0" [ex_quarantined])
    (mkModule 10 "0042" STM32_UID 3 LC_DEPLOYED REGISTERED "2.0" "uhf" C_UNKNOWN "" None None)
    (mkStatus U_CURRENT None SR_none None)
    (reconcile_module 9
      (mkModule 10 "0042" STM32_UID 3 LC_DEPLOYED REGISTERED "2.0" "uhf" C_UNKNOWN "" None None)
      (ex_db "2.0" [ex_quarantined])).1 (Some ex_quarantined)).
  - constructor; [apply ex_schema|apply NoDup_singleton|apply ex_conv_ok].
  - apply NoDup_singleton.
  - apply list_elem_of_singleton. reflexivity.
  - apply list_elem_of_singleton. reflexivity.
  - apply list_elem_of_singleton. vm_compute. reflexivity.
  - vm_compute. reflexivity.
Defined.
