(* ===== verification/Mcuboot.v ===== *)
(** * MCUboot images: the signing key of a firmware image

    Models the parser of [apps/module_firmware/mcuboot.py]: the 16-hex prefix of
    the KEYHASH entry of a signed image, from its protected or its unprotected
    TLV area, and the normalisation of the key a module reports.  [struct.error]
    is [None]; offsets are integers, and reads outside the blob fail as
    [unpack_from] does.  The entry loop takes a fuel of the area's length, which
    is enough since every entry is at least four bytes ([area_loop_fuel]). *)

From Stdlib Require Import ZArith Lia Ascii.
From stdpp Require Import base sets list strings.
From S2P Require Import Prelude Json MediaCodec.

Local Open Scope Z_scope.

(** ** Parser *)

Definition BOOT_KEY_PREFIX_LEN : nat := 16.
Definition DEV_KEY_HASH_PREFIX : string := "e30466f6b8470c1f".
Definition IMAGE_MAGIC : Z := 2532554813.    (* 0x96F3B83D *)
Definition TLV_INFO_MAGIC : Z := 26887.      (* 0x6907 *)
Definition TLV_PROT_INFO_MAGIC : Z := 26888. (* 0x6908 *)
Definition TLV_KEYHASH : Z := 1.
Definition KEYHASH_LEN : Z := 32.

Definition blen (l : list Z) : Z := Z.of_nat (length l).

(** [blob[off:off + n]] within the blob. *)
Definition bslice (off n : Z) (blob : list Z) : list Z := take (Z.to_nat n) (drop (Z.to_nat off) blob).

(** [struct.unpack_from("<H"/"<I", blob, off)]: [w] bytes, little endian. *)
Definition unpack_from (w : Z) (blob : list Z) (off : Z) : option Z :=
  if decide (0 ≤ off ∧ off + w ≤ blen blob) then Some (le_unpack (bslice off w blob)) else None.

Definition hex_digit (d : Z) : ascii :=
  ascii_of_nat (Z.to_nat (if decide (d < 10) then 48 + d else 87 + d)).

(** [bytes.hex()] *)
Fixpoint hex (l : list Z) : list ascii :=
  match l with
  | [] => []
  | b :: l' => hex_digit (Z.shiftr b 4) :: hex_digit (Z.land b 15) :: hex l'
  end.

Definition hex_prefix (l : list Z) : string :=
  String.string_of_list_ascii (take BOOT_KEY_PREFIX_LEN (hex l)).

(** The entries of an area: [Some ""] when the loop ends without a key. *)
Fixpoint area_loop (fuel : nat) (blob : list Z) (pos end_ : Z) : option string :=
  match fuel with
  | O => Some EmptyString
  | S fuel' =>
    if decide (pos + 4 ≤ end_) then
      etype ← unpack_from 2 blob pos;
      elen ← unpack_from 2 blob (pos + 2);
      let pos := pos + 4 in
      if decide (end_ < pos + elen) then None
      else if decide (etype = TLV_KEYHASH ∧ elen = KEYHASH_LEN)
      then Some (hex_prefix (bslice pos KEYHASH_LEN blob))
      else area_loop fuel' blob (pos + elen) end_
    else Some EmptyString
  end.

Definition keyhash_in_area (blob : list Z) (off magic : Z) : option (string * Z) :=
  info_magic ← unpack_from 2 blob off;
  total ← unpack_from 2 blob (off + 2);
  if decide (info_magic ≠ magic ∨ total < 4 ∨ blen blob < off + total) then None
  else
    key ← area_loop (Z.to_nat total) blob (off + 4) (off + total);
    Some (key, off + total).

(** The body of the [try]. *)
Definition parse_image (blob : list Z) : option string :=
  magic ← unpack_from 4 blob 0;
  if decide (magic ≠ IMAGE_MAGIC) then Some EmptyString
  else
    hdr_size ← unpack_from 2 blob 8;
    img_size ← unpack_from 4 blob 12;
    let off := hdr_size + img_size in
    m ← unpack_from 2 blob off;
    if decide (m = TLV_PROT_INFO_MAGIC) then
      '(found, off') ← keyhash_in_area blob off TLV_PROT_INFO_MAGIC;
      if decide (found ≠ EmptyString) then Some found
      else fst <$> keyhash_in_area blob off' TLV_INFO_MAGIC
    else fst <$> keyhash_in_area blob off TLV_INFO_MAGIC.

Definition parse_boot_key_hash (blob : list Z) : string := default EmptyString (parse_image blob).

(** ** Reported keys *)

(** [str.lower] on ASCII; other characters cannot become hex digits. *)
Definition lower (c : ascii) : ascii :=
  if decide (65 ≤ ascii_code c ≤ 90) then ascii_of_nat (nat_of_ascii c + 32) else c.

Definition is_hex (c : ascii) : bool :=
  bool_decide (48 ≤ ascii_code c ≤ 57) || bool_decide (97 ≤ ascii_code c ≤ 102).

(** [_BOOT_KEY_RE.fullmatch]: exactly 16 lowercase hex digits. *)
Definition boot_key_re (l : list ascii) : bool :=
  bool_decide (length l = BOOT_KEY_PREFIX_LEN) && forallb is_hex l.

Definition normalize_boot_key (value : Json) : string :=
  match value with
  | JStr s =>
    let l := lower <$> String.list_ascii_of_string s in
    if boot_key_re l then String.string_of_list_ascii l else EmptyString
  | _ => EmptyString
  end.

Definition is_dev_key (prefix : string) : bool := bool_decide (prefix = DEV_KEY_HASH_PREFIX).

(** ** Images

    The layout of a signed image, as the specification of the parser: a header
    whose fields give its own and the body's size, an optional protected and an
    unprotected TLV area, and whatever follows (padding). *)

Definition tlv_entry (e : Z * list Z) : list Z := le_pack 2 e.1 ++ le_pack 2 (blen e.2) ++ e.2.

Definition tlv_entries (l : list (Z * list Z)) : list Z := mjoin (tlv_entry <$> l).

Definition tlv_area (magic : Z) (l : list (Z * list Z)) : list Z :=
  le_pack 2 magic ++ le_pack 2 (4 + blen (tlv_entries l)) ++ tlv_entries l.

Record SignedImage := mkImage {
  im_load_addr : Z;
  im_prot_size : Z;
  im_header_rest : list Z;
  im_body : list Z;
  im_protected : option (list (Z * list Z));
  im_tlvs : list (Z * list Z);
  im_trailer : list Z
}.

Definition image_head (im : SignedImage) : list Z :=
  le_pack 4 IMAGE_MAGIC ++ le_pack 4 (im_load_addr im) ++ le_pack 2 (16 + blen (im_header_rest im)) ++
  le_pack 2 (im_prot_size im) ++ le_pack 4 (blen (im_body im)) ++ im_header_rest im ++ im_body im.

Definition image_bytes (im : SignedImage) : list Z :=
  image_head im ++ match im_protected im with Some l => tlv_area TLV_PROT_INFO_MAGIC l | None => [] end ++
  tlv_area TLV_INFO_MAGIC (im_tlvs im) ++ im_trailer im.

Definition entries_ok (l : list (Z * list Z)) : Prop :=
  (∀ e, e ∈ l → 0 ≤ e.1 < 65536 ∧ blen e.2 < 65536) ∧ 4 + blen (tlv_entries l) < 65536.

(** The sizes fit their fields. *)
Definition image_ok (im : SignedImage) : Prop :=
  16 + blen (im_header_rest im) < 65536 ∧ blen (im_body im) < 4294967296 ∧
  (∀ l, im_protected im = Some l → entries_ok l) ∧ entries_ok (im_tlvs im).

(** The first key hash of an area. *)
Definition key_of (l : list (Z * list Z)) : option (list Z) :=
  snd <$> head (filter (λ e, e.1 = TLV_KEYHASH ∧ blen e.2 = KEYHASH_LEN) l).

(** ** Lemmas *)

Lemma blen_app a b : blen (a ++ b) = blen a + blen b.
Proof. unfold blen. rewrite length_app. lia. Qed.

Lemma blen_pack n z : blen (le_pack n z) = Z.of_nat n.
Proof. unfold blen. by rewrite length_le_pack. Qed.

Lemma blen_nonneg l : 0 ≤ blen l.
Proof. unfold blen. lia. Qed.

(** Reading past a prefix. *)
Lemma bslice_app a b c off n :
  off = blen a → n = blen b → bslice off n (a ++ b ++ c) = b.
Proof.
  intros -> ->. unfold bslice, blen. rewrite !Nat2Z.id, drop_app_length. apply take_app_length.
Qed.

Lemma unpack_from_app w a b c off z :
  off = blen a → b = le_pack (Z.to_nat w) z → 0 < w → 0 ≤ z < 256 ^ w →
  unpack_from w (a ++ b ++ c) off = Some z.
Proof.
  intros -> -> Hw Hz. unfold unpack_from.
  assert (w = blen (le_pack (Z.to_nat w) z)) as Hlen by (rewrite blen_pack; lia).
  rewrite decide_True.
  - f_equal. rewrite bslice_app by done. rewrite le_unpack_small; [done|]. by rewrite Z2Nat.id by lia.
  - rewrite !blen_app, <-Hlen. pose proof (blen_nonneg a). pose proof (blen_nonneg c). lia.
Qed.

(** More fuel than the area has bytes changes nothing. *)
Lemma area_loop_fuel blob end_ f1 f2 : ∀ pos,
  0 ≤ pos → end_ - pos ≤ Z.of_nat f1 → end_ - pos ≤ Z.of_nat f2 → is_bytes blob →
  area_loop f1 blob pos end_ = area_loop f2 blob pos end_.
Proof.
  revert f2. induction f1 as [|f1 IH]; intros [|f2] pos Hp H1 H2 Hb; simpl; try done.
  - by rewrite decide_False by lia.
  - by rewrite decide_False by lia.
  - case_decide; [|done]. destruct (unpack_from 2 blob pos); simpl; [|done].
    destruct (unpack_from 2 blob (pos + 2)) as [elen|] eqn:He; simpl; [|done].
    assert (0 ≤ elen) as Hel.
    { unfold unpack_from in He. case_decide; [|done]. simplify_eq.
      apply (le_unpack_bounds (bslice (pos + 2) 2 blob)). unfold bslice. apply Forall_take, Forall_drop, Hb. }
    case_decide; [done|]. case_decide; [done|]. apply IH; (done || lia).
Qed.

Lemma area_loop_S fuel blob pos end_ :
  area_loop (S fuel) blob pos end_ =
    if decide (pos + 4 ≤ end_) then
      etype ← unpack_from 2 blob pos;
      elen ← unpack_from 2 blob (pos + 2);
      if decide (end_ < pos + 4 + elen) then None
      else if decide (etype = TLV_KEYHASH ∧ elen = KEYHASH_LEN)
      then Some (hex_prefix (bslice (pos + 4) KEYHASH_LEN blob))
      else area_loop fuel blob (pos + 4 + elen) end_
    else Some EmptyString.
Proof. done. Qed.

(** The loop reads the entries back. *)
Lemma area_loop_entries l : ∀ fuel pre rest pos end_,
  pos = blen pre → end_ = pos + blen (tlv_entries l) → blen (tlv_entries l) ≤ Z.of_nat fuel →
  (∀ e, e ∈ l → 0 ≤ e.1 < 65536 ∧ blen e.2 < 65536) →
  area_loop fuel (pre ++ tlv_entries l ++ rest) pos end_ =
    Some (match key_of l with Some v => hex_prefix v | None => EmptyString end).
Proof.
  induction l as [|[t v] l IH]; intros fuel pre rest pos end_ -> -> Hf Hl.
  { unfold tlv_entries. simpl. destruct fuel; simpl; [done|]. rewrite decide_False; [done|].
    unfold blen. simpl. lia. }
  assert (tlv_entries ((t, v) :: l) = le_pack 2 t ++ le_pack 2 (blen v) ++ v ++ tlv_entries l) as Hent.
  { change (tlv_entries ((t, v) :: l)) with (tlv_entry (t, v) ++ tlv_entries l).
    unfold tlv_entry. cbn [fst snd]. by rewrite <-!app_assoc. }
  rewrite Hent in *. rewrite !blen_app, !blen_pack in *.
  pose proof (blen_nonneg v). pose proof (blen_nonneg (tlv_entries l)). pose proof (blen_nonneg pre).
  destruct (Hl (t, v) ltac:(set_solver)) as [Ht Hv]. simpl in Ht, Hv.
  destruct fuel as [|fuel]; [lia|]. rewrite area_loop_S.
  rewrite decide_True by lia.
  rewrite <-!app_assoc.
  rewrite (unpack_from_app 2 pre (le_pack 2 t) _ (blen pre) t) by (done || lia). cbn [mbind option_bind].
  rewrite (app_assoc pre (le_pack 2 t)).
  rewrite (unpack_from_app 2 (pre ++ le_pack 2 t) (le_pack 2 (blen v)) _ (blen pre + 2) (blen v));
    [|by rewrite blen_app, blen_pack|done|lia|done]. cbn [mbind option_bind].
  rewrite decide_False by lia.
  replace ((pre ++ le_pack 2 t) ++ le_pack 2 (blen v) ++ v ++ tlv_entries l ++ rest)
    with ((pre ++ le_pack 2 t ++ le_pack 2 (blen v)) ++ v ++ tlv_entries l ++ rest) by by rewrite <-!app_assoc.
  unfold key_of. rewrite filter_cons. cbn [fst snd].
  case_decide as Hk.
  - cbn [head fmap option_fmap option_map snd]. destruct Hk as [_ Hk]. rewrite bslice_app; [done| |done].
    rewrite !blen_app, !blen_pack. lia.
  - replace ((pre ++ le_pack 2 t ++ le_pack 2 (blen v)) ++ v ++ tlv_entries l ++ rest)
      with ((pre ++ le_pack 2 t ++ le_pack 2 (blen v) ++ v) ++ tlv_entries l ++ rest) by by rewrite <-!app_assoc.
    apply IH.
    + rewrite !blen_app, !blen_pack. lia.
    + lia.
    + lia.
    + intros e He. apply Hl. set_solver.
Qed.

Lemma blen_area magic l : blen (tlv_area magic l) = 4 + blen (tlv_entries l).
Proof. unfold tlv_area. rewrite !blen_app, !blen_pack. lia. Qed.

(** An area is read back, and the offset moves behind it. *)
Lemma keyhash_area magic l pre rest :
  0 ≤ magic < 65536 → entries_ok l →
  keyhash_in_area (pre ++ tlv_area magic l ++ rest) (blen pre) magic =
    Some (match key_of l with Some v => hex_prefix v | None => EmptyString end,
          blen pre + blen (tlv_area magic l)).
Proof.
  intros Hm [Hl Hsize]. pose proof (blen_nonneg (tlv_entries l)). pose proof (blen_nonneg pre).
  pose proof (blen_nonneg rest). unfold keyhash_in_area. rewrite blen_area. unfold tlv_area.
  rewrite <-!app_assoc.
  rewrite (unpack_from_app 2 pre (le_pack 2 magic) _ (blen pre) magic) by (done || lia). cbn [mbind option_bind].
  rewrite (app_assoc pre (le_pack 2 magic)).
  rewrite (unpack_from_app 2 (pre ++ le_pack 2 magic) (le_pack 2 (4 + blen (tlv_entries l))) _
    (blen pre + 2) (4 + blen (tlv_entries l)));
    [|by rewrite blen_app, blen_pack|done|lia|lia]. cbn [mbind option_bind].
  rewrite decide_False by (rewrite !blen_app, !blen_pack; lia).
  rewrite (app_assoc (pre ++ le_pack 2 magic)).
  rewrite (area_loop_entries l); [done|..]; try done; rewrite ?blen_app, ?blen_pack; lia.
Qed.

Lemma hex_digit_is_hex d : 0 ≤ d < 16 → is_hex (hex_digit d) = true ∧ lower (hex_digit d) = hex_digit d.
Proof.
  intros Hd. assert (d ∈ (Z.of_nat <$> seq 0 16)) as Hin.
  { apply list_elem_of_fmap. exists (Z.to_nat d). rewrite elem_of_seq. lia. }
  assert (forallb (λ d, is_hex (hex_digit d) && bool_decide (lower (hex_digit d) = hex_digit d))
    (Z.of_nat <$> seq 0 16) = true) as H by (vm_compute; reflexivity).
  rewrite forallb_forall in H. apply list_elem_of_In, H in Hin.
  apply andb_prop in Hin as [H1 H2]. by apply bool_decide_eq_true in H2.
Qed.

Lemma hex_ok l : is_bytes l → Forall (λ c, is_hex c = true ∧ lower c = c) (hex l).
Proof.
  induction 1 as [|b l Hb Hl IH]; simpl; [constructor|].
  repeat constructor; try done; apply hex_digit_is_hex.
  1,2: rewrite Z.shiftr_div_pow2 by lia; change (2 ^ 4) with 16;
    split; [apply Z.div_pos; lia|apply Z.div_lt_upper_bound; lia].
  all: change 15 with (Z.ones 4); rewrite Z.land_ones by lia; apply Z.mod_pos_bound; lia.
Qed.

Lemma length_hex l : length (hex l) = (2 * length l)%nat.
Proof. induction l as [|b l IH]; simpl; [done|]. rewrite IH. lia. Qed.

Lemma hex_prefix_ok l :
  is_bytes l → (8 ≤ length l)%nat → normalize_boot_key (JStr (hex_prefix l)) = hex_prefix l.
Proof.
  intros Hb Hl. unfold hex_prefix, normalize_boot_key. rewrite String.list_ascii_of_string_of_list_ascii.
  pose proof (hex_ok l Hb) as Hh. apply (Forall_take _ BOOT_KEY_PREFIX_LEN) in Hh.
  assert (length (take BOOT_KEY_PREFIX_LEN (hex l)) = BOOT_KEY_PREFIX_LEN) as Hlen.
  { rewrite length_take, length_hex. unfold BOOT_KEY_PREFIX_LEN. lia. }
  set (p := take BOOT_KEY_PREFIX_LEN (hex l)) in *. clearbody p.
  assert (lower <$> p = p) as Hlow.
  { rewrite <-(list_fmap_id p) at 2. apply Forall_fmap_ext. eapply Forall_impl; [exact Hh|]. by intros c [_ ?]. }
  rewrite Hlow. unfold boot_key_re. rewrite bool_decide_true by done.
  assert (forallb is_hex p = true) as ->.
  { apply forallb_forall. intros c Hc. apply list_elem_of_In in Hc. rewrite list.Forall_forall in Hh. by apply Hh. }
  done.
Qed.

Lemma hex_prefix_nonempty l : (8 ≤ length l)%nat → hex_prefix l ≠ EmptyString.
Proof.
  intros Hl Heq. assert (length (take BOOT_KEY_PREFIX_LEN (hex l)) = BOOT_KEY_PREFIX_LEN) as Hlen.
  { rewrite length_take, length_hex. unfold BOOT_KEY_PREFIX_LEN. lia. }
  unfold hex_prefix in Heq. destruct (take BOOT_KEY_PREFIX_LEN (hex l)); discriminate.
Qed.

(** A key read from an area is a normalised key. *)
Lemma area_loop_ok blob fuel : ∀ pos end_ key,
  is_bytes blob → 0 ≤ pos → end_ ≤ blen blob → area_loop fuel blob pos end_ = Some key →
  key = EmptyString ∨ normalize_boot_key (JStr key) = key.
Proof.
  induction fuel as [|fuel IH]; intros pos end_ key Hb Hp He; [intros [= <-]; by left|].
  rewrite area_loop_S. case_decide as H4; [|intros [= <-]; by left].
  destruct (unpack_from 2 blob pos) as [t|]; cbn [mbind option_bind]; [|done].
  destruct (unpack_from 2 blob (pos + 2)) as [n|] eqn:Hn; cbn [mbind option_bind]; [|done].
  assert (0 ≤ n) as Hn0.
  { unfold unpack_from in Hn. destruct (decide _); [|done]. simplify_eq.
    apply (le_unpack_bounds (bslice (pos + 2) 2 blob)). unfold bslice. apply Forall_take, Forall_drop, Hb. }
  case_decide as Hlt; [done|]. case_decide as Hk.
  - intros [= <-]. right. destruct Hk as [_ ->]. apply hex_prefix_ok.
    + unfold bslice. apply Forall_take, Forall_drop, Hb.
    + unfold bslice, blen, KEYHASH_LEN in *. rewrite length_take, length_drop. lia.
  - intros Hl. eapply (IH _ _ _ Hb); [|done|exact Hl]. lia.
Qed.

Lemma key_of_length l v : key_of l = Some v → (8 ≤ length v)%nat.
Proof.
  unfold key_of. intros Hk. destruct (head _) as [e|] eqn:Hh; simplify_eq/=.
  apply head_filter_Some in Hh as [[_ Hl] _]. unfold blen, KEYHASH_LEN in Hl. lia.
Qed.

Lemma blen_head im : blen (image_head im) = 16 + blen (im_header_rest im) + blen (im_body im).
Proof. unfold image_head. rewrite !blen_app, !blen_pack. lia. Qed.

(** The magic and the sizes in the header are read back. *)
Lemma parse_header im rest :
  16 + blen (im_header_rest im) < 65536 → blen (im_body im) < 4294967296 →
  unpack_from 4 (image_head im ++ rest) 0 = Some IMAGE_MAGIC ∧
  unpack_from 2 (image_head im ++ rest) 8 = Some (16 + blen (im_header_rest im)) ∧
  unpack_from 4 (image_head im ++ rest) 12 = Some (blen (im_body im)).
Proof.
  intros Hh Hb. pose proof (blen_nonneg (im_header_rest im)). pose proof (blen_nonneg (im_body im)).
  unfold image_head. rewrite <-!app_assoc. split; [|split].
  - apply (unpack_from_app 4 []); (done || lia).
  - rewrite (app_assoc (le_pack 4 IMAGE_MAGIC)).
    apply unpack_from_app; [by rewrite !blen_app, !blen_pack|done|lia|lia].
  - rewrite (app_assoc (le_pack 4 IMAGE_MAGIC)), (app_assoc (_ ++ _) (le_pack 2 _)),
      (app_assoc (_ ++ _) (le_pack 2 _)).
    apply unpack_from_app; [by rewrite !blen_app, !blen_pack|done|lia|lia].
Qed.

(** The first field of an area is its magic. *)
Lemma area_magic magic l pre rest :
  0 ≤ magic < 65536 → unpack_from 2 (pre ++ tlv_area magic l ++ rest) (blen pre) = Some magic.
Proof. intros Hm. unfold tlv_area. rewrite <-!app_assoc. by apply unpack_from_app. Qed.

Lemma parse_image_bytes im :
  image_ok im →
  parse_boot_key_hash (image_bytes im) =
    match (l ← im_protected im; key_of l), key_of (im_tlvs im) with
    | Some v, _ => hex_prefix v
    | None, Some v => hex_prefix v
    | None, None => EmptyString
    end.
Proof.
  intros (Hh & Hb & Hprot & Htlv). unfold parse_boot_key_hash, parse_image, image_bytes.
  destruct (parse_header im (match im_protected im with
    | Some l => tlv_area TLV_PROT_INFO_MAGIC l | None => [] end ++
    tlv_area TLV_INFO_MAGIC (im_tlvs im) ++ im_trailer im) Hh Hb) as (-> & -> & ->).
  cbn [mbind option_bind]. rewrite decide_False by tauto. rewrite <-blen_head.
  destruct (im_protected im) as [l|].
  - rewrite area_magic by done. cbn [mbind option_bind]. rewrite decide_True by done.
    rewrite keyhash_area by (done || by apply Hprot). cbn [mbind option_bind].
    destruct (key_of l) as [v|] eqn:Hk.
    + rewrite decide_True by (eapply hex_prefix_nonempty, key_of_length, Hk). done.
    + rewrite decide_False by tauto. rewrite app_assoc, <-blen_app, keyhash_area by done. simpl.
      by destruct (key_of (im_tlvs im)).
  - rewrite app_nil_l, area_magic by done. cbn [mbind option_bind]. rewrite decide_False by done.
    rewrite keyhash_area by done. simpl. by destruct (key_of (im_tlvs im)).
Qed.

Lemma keyhash_in_area_ok blob off magic key e :
  is_bytes blob → keyhash_in_area blob off magic = Some (key, e) →
  key = EmptyString ∨ normalize_boot_key (JStr key) = key.
Proof.
  intros Hb. unfold keyhash_in_area.
  destruct (unpack_from 2 blob off) as [m|] eqn:Hm; cbn [mbind option_bind]; [|done].
  destruct (unpack_from 2 blob (off + 2)) as [n|]; cbn [mbind option_bind]; [|done].
  case_decide as Hc; [done|].
  destruct (area_loop _ _ _ _) as [k|] eqn:Hl; cbn [mbind option_bind]; [|done]. intros [= -> _].
  eapply area_loop_ok; [done| | |done]; [|lia].
  unfold unpack_from in Hm. destruct (decide _); [lia|done].
Qed.

Lemma parse_normalised blob :
  is_bytes blob → parse_boot_key_hash blob = EmptyString ∨
  normalize_boot_key (JStr (parse_boot_key_hash blob)) = parse_boot_key_hash blob.
Proof.
  intros Hb. unfold parse_boot_key_hash. destruct (parse_image blob) as [k|] eqn:Hp; [|by left].
  simpl. unfold parse_image in Hp.
  destruct (unpack_from 4 blob 0) as [mg|]; cbn [mbind option_bind] in Hp; [|done].
  case_decide; [simplify_eq; by left|].
  destruct (unpack_from 2 blob 8) as [hs|]; cbn [mbind option_bind] in Hp; [|done].
  destruct (unpack_from 4 blob 12) as [is_|]; cbn [mbind option_bind] in Hp; [|done].
  destruct (unpack_from 2 blob (hs + is_)) as [m|]; cbn [mbind option_bind] in Hp; [|done].
  assert (∀ off magic, fst <$> keyhash_in_area blob off magic = Some k →
    k = EmptyString ∨ normalize_boot_key (JStr k) = k) as Harea.
  { intros off magic Hk. destruct (keyhash_in_area blob off magic) as [[k' e]|] eqn:Ha; simplify_eq/=.
    by eapply keyhash_in_area_ok. }
  case_decide; [|by eapply Harea].
  destruct (keyhash_in_area blob _ TLV_PROT_INFO_MAGIC) as [[found off']|] eqn:Ha;
    cbn [mbind option_bind] in Hp; [|done].
  case_decide; [|by eapply Harea]. simplify_eq. by eapply keyhash_in_area_ok.
Qed.

(** C33. For every signed image whose sizes fit their fields the parser returns the
    16-digit prefix of the first key hash of the protected area, else of the
    unprotected one, else nothing; whatever the header, the body, other entries
    and the trailing bytes are.  For arbitrary bytes it never fails, and what it
    returns is a key in the form in which modules report theirs. *)
Theorem boot_key_parsed :
  (∀ im, image_ok im →
    parse_boot_key_hash (image_bytes im) =
      match (l ← im_protected im; key_of l), key_of (im_tlvs im) with
      | Some v, _ => hex_prefix v
      | None, Some v => hex_prefix v
      | None, None => EmptyString
      end) ∧
  (∀ blob, is_bytes blob → parse_boot_key_hash blob = EmptyString ∨
    normalize_boot_key (JStr (parse_boot_key_hash blob)) = parse_boot_key_hash blob).
Proof.
  split; [apply parse_image_bytes|apply parse_normalised].
Qed.

(** An image whose unprotected area carries the development key. *)
Definition ex_image : SignedImage :=
  mkImage 0 0 [] [1; 2; 3] (Some [(5, [9])])
    [(16, [7; 7]); (1, [227; 4; 102; 246; 184; 71; 12; 31] ++ replicate 24 0)] [255].

Lemma boot_key_parsed_witness :
  parse_boot_key_hash (image_bytes ex_image) = DEV_KEY_HASH_PREFIX.
Proof.
  transitivity (hex_prefix ([227; 4; 102; 246; 184; 71; 12; 31] ++ replicate 24 0));
    [|vm_compute; reflexivity].
  apply (proj1 boot_key_parsed ex_image). split; [|split; [|split]].
  - vm_compute. reflexivity.
  - vm_compute. reflexivity.
  - intros l [= <-]. split; [|vm_compute; reflexivity].
    intros e ->%list_elem_of_singleton. vm_compute. intuition congruence.
  - split; [|vm_compute; reflexivity].
    unfold ex_image. cbn [im_tlvs]. intros e. rewrite !elem_of_cons. intros [->|[->|H]]; [vm_compute; intuition congruence..|].
    by apply not_elem_of_nil in H.
Defined.
