(* ===== verification/ModuleIngest.v ===== *)
(** * Module inventory: ingestion, assignments and lifecycle

    Models [apps/module_firmware/ingest.py] (what a reported module does to the
    tables: identity, slot assignment, lifecycle) and the operator transitions of
    [services.py] (registration, lifecycle), over the tables of [FirmwareModel].

    Every function runs under the station, module and assignment row locks it
    takes first, so each is one step.  The partial unique constraints of
    [ModuleAssignmentHistory] are checked by the database at the insert, which
    raises [IntegrityError]; that it never does is a theorem.  Identity fields are
    the strings the agent reports ([""] when absent); [boot_key] may be any JSON. *)

From Stdlib Require Import ZArith Lia.
From stdpp Require Import base gmap list strings.
From S2P Require Import Prelude Json Permissions ControlLock FirmwareModel FirmwareApi MediaCodec Mcuboot.

Local Open Scope Z_scope.

(** ** Data *)

Record ModuleType_ := mkModuleType { mt_pk : Z; mt_key : string }.

Record Identity := mkIdentity {
  id_uid : string;
  id_type : string;
  id_uid_source : string;
  id_version : string;
  id_variant : string;
  id_boot_key : Json
}.

Inductive IngestError := IntegrityError | LifecycleValueError | ModuleDoesNotExist.

Definition STICKY_LIFECYCLE (l : Lifecycle) : bool :=
  match l with LC_DEFECT | LC_IN_LAB | LC_RETIRED => true | _ => false end.

Definition set_lifecycle_field (v : Lifecycle) (m : Module_) : Module_ :=
  mkModule (mo_pk m) (mo_uid m) (mo_uid_source m) (mo_type m) v (mo_registration m) (mo_version m)
    (mo_variant m) (mo_convergence m) (mo_boot_key m) (mo_first_seen m) (mo_last_seen m).

Definition set_registration (v : Registration) (m : Module_) : Module_ :=
  mkModule (mo_pk m) (mo_uid m) (mo_uid_source m) (mo_type m) (mo_lifecycle m) v (mo_version m)
    (mo_variant m) (mo_convergence m) (mo_boot_key m) (mo_first_seen m) (mo_last_seen m).

(** [last_seen], [last_reported_version] and [reported_boot_key] of a report, and
    the variant, which fills a blank once. *)
Definition set_report (version variant key : string) (now : Z) (m : Module_) : Module_ :=
  mkModule (mo_pk m) (mo_uid m) (mo_uid_source m) (mo_type m) (mo_lifecycle m) (mo_registration m)
    version (if decide (mo_variant m = "") then variant else mo_variant m) (mo_convergence m) key
    (mo_first_seen m) (Some now).

Definition close_at (now : Z) (a : Assignment) : Assignment :=
  mkAssignment (as_pk a) (as_module a) (as_station a) (as_slot a) (as_from a) (Some now).

Definition update_module (pk : Z) (f : Module_ → Module_) (db : FwDb) : FwDb :=
  with_modules (update_where (λ m, mo_pk m = pk) f (fw_modules db)) db.

Definition close_assignment (now : Z) (a : Assignment) (db : FwDb) : FwDb :=
  with_assignments (update_where (λ b, as_pk b = as_pk a) (close_at now) (fw_assignments db)) db.

(** An audit entry whose text the code looks up again. *)
Definition log_entry (m : Z) (station : option Z) (e : FwEvent) (message : string) (db : FwDb) : FwDb :=
  with_audit (mkAudit m station e message :: fw_audit db) db.

Definition log_once (m : Z) (station : option Z) (message : string) (db : FwDb) : FwDb :=
  if existsb (λ e, bool_decide (au_module e = m ∧ au_event e = UPDATED ∧ au_message e = message)) (fw_audit db)
  then db else log_entry m station UPDATED message db.

(** ** Lifecycle *)

Definition has_open (pk : Z) (db : FwDb) : bool :=
  existsb (λ a, bool_decide (as_module a = pk ∧ as_to a = None)) (fw_assignments db).

Definition derived_lifecycle (pk : Z) (db : FwDb) : Lifecycle :=
  if has_open pk db then LC_DEPLOYED else LC_READY.

Definition derive_lifecycle (pk : Z) (station : option Z) (db : FwDb) : FwDb :=
  match find_module pk db with
  | None => db
  | Some m =>
    if STICKY_LIFECYCLE (mo_lifecycle m) then db
    else
      let target := derived_lifecycle pk db in
      if decide (mo_lifecycle m = target) then db
      else audit pk station [MODULE_LIFECYCLE_CHANGED] (update_module pk (set_lifecycle_field target) db)
  end.

(** ** Assignments *)

(** The two partial unique constraints. *)
Definition conflicts (a b : Assignment) : bool :=
  bool_decide (as_to a = None ∧ as_to b = None ∧
    (as_module a = as_module b ∨ (as_station a ≠ None ∧ as_station a = as_station b ∧ as_slot a = as_slot b))).

Definition create_assignment (m station : Z) (slot : string) (now : Z) (db : FwDb)
    : outcome IngestError FwDb :=
  let a := mkAssignment (next_pk (as_pk <$> fw_assignments db)) m (Some station) slot now None in
  if existsb (conflicts a) (fw_assignments db) then Raise IntegrityError
  else Ok (with_assignments (fw_assignments db ++ [a]) db).

Definition slot_occupant (m station : Z) (slot : string) (db : FwDb) : option Assignment :=
  head (filter (λ a, as_station a = Some station ∧ as_slot a = slot ∧ as_to a = None ∧ as_module a ≠ m)
    (fw_assignments db)).

(** [_apply_assignment]; the answer (changed or not) is not used. *)
Definition apply_assignment (m station : Z) (slot : string) (now : Z) (db : FwDb)
    : outcome IngestError FwDb :=
  let current := open_assignment m db in
  if match current with
     | Some c => bool_decide (as_station c = Some station ∧ as_slot c = slot)
     | None => false
     end then Ok db
  else
    let occupant := slot_occupant m station slot db in
    let db1 := match current with Some c => close_assignment now c db | None => db end in
    let db2 := match occupant with Some o => close_assignment now o db1 | None => db1 end in
    match create_assignment m station slot now db2 with
    | Raise e => Raise e
    | Ok db3 =>
      let db4 :=
        if decide (current = None ∧ occupant = None) then db3
        else audit m (Some station) [MODULE_SWAPPED] db3 in
      let db5 := match occupant with
                 | Some o => derive_lifecycle (as_module o) (Some station) db4
                 | None => db4
                 end in
      Ok (audit m (Some station) [MODULE_ASSIGNMENT_CHANGED] db5)
    end.

(** ** Ingestion *)

Definition uid_source_of (s : string) : UidSource := if decide (s = "synthetic") then SYNTHETIC else STM32_UID.

Definition type_mismatch_message (uid reported tracked : string) : string :=
  String.append "Type mismatch for uid " (String.append uid (String.append ": reported '"
    (String.append reported (String.append "', tracked as '" (String.append tracked "'. Ignored."))))).

Definition variant_mismatch_message (uid reported tracked : string) : string :=
  String.append "Variant mismatch for uid " (String.append uid (String.append ": reported '"
    (String.append reported (String.append "', tracked as '" (String.append tracked "'. Ignored."))))).

Definition find_type (types : list ModuleType_) (key : string) : option ModuleType_ :=
  head (filter (λ t, mt_key t = key) types).

Definition type_key_of (types : list ModuleType_) (pk : Z) : string :=
  match head (filter (λ t, mt_pk t = pk) types) with Some t => mt_key t | None => "" end.

Definition find_uid (uid : string) (db : FwDb) : option Module_ :=
  head (filter (λ m, mo_uid m = uid) (fw_modules db)).

(** The update of a module already known: [None] when its type does not match. *)
Definition update_known (types : list ModuleType_) (t : ModuleType_) (station : Z) (idn : Identity)
    (now : Z) (m : Module_) (db : FwDb) : FwDb * bool :=
  if decide (mo_type m ≠ mt_pk t) then
    (log_once (mo_pk m) (Some station)
       (type_mismatch_message (id_uid idn) (mt_key t) (type_key_of types (mo_type m))) db, false)
  else
    let db1 :=
      if decide (id_variant idn ≠ "" ∧ mo_variant m ≠ "" ∧ mo_variant m ≠ id_variant idn)
      then log_once (mo_pk m) (Some station)
             (variant_mismatch_message (id_uid idn) (id_variant idn) (mo_variant m)) db
      else db in
    let db2 := update_module (mo_pk m)
                 (set_report (id_version idn) (id_variant idn) (normalize_boot_key (id_boot_key idn)) now) db1 in
    (if decide (id_version idn ≠ "" ∧ mo_version m ≠ "" ∧ id_version idn ≠ mo_version m)
     then audit (mo_pk m) (Some station) [FIRMWARE_UPDATE] db2 else db2, true).

(** The common tail: assignment, lifecycle, DFU notice, reconcile. *)
Definition ingest_tail (pk station : Z) (slot : string) (now : Z) (came_online : bool) (db : FwDb)
    : outcome IngestError FwDb :=
  match apply_assignment pk station slot now db with
  | Raise e => Raise e
  | Ok db1 =>
    let db2 := derive_lifecycle pk (Some station) db1 in
    let db3 := if came_online then clear_dfu_stuck pk db2 else db2 in
    Ok (match find_module pk db3 with
        | Some m => (reconcile_module now m db3).1
        | None => db3
        end)
  end.

Definition new_module (pk : Z) (t : ModuleType_) (idn : Identity) (now : Z) : Module_ :=
  mkModule pk (id_uid idn) (uid_source_of (id_uid_source idn)) (mt_pk t) LC_READY UNREGISTERED
    (id_version idn) (id_variant idn) C_UNKNOWN (normalize_boot_key (id_boot_key idn))
    (Some now) (Some now).

(** [ingest_module]: the tables and the tracked module, if any. *)
Definition ingest_module (types : list ModuleType_) (station : Z) (slot module_id : string)
    (idn : Identity) (now : Z) (came_online : bool) (db : FwDb) : outcome IngestError (FwDb * option Z) :=
  if decide (id_uid idn = "") then Ok (db, None)
  else
    match find_type types (if decide (module_id = "") then id_type idn else module_id) with
    | None => Ok (db, None)
    | Some t =>
      match find_uid (id_uid idn) db with
      | None =>
        let pk := next_pk (mo_pk <$> fw_modules db) in
        let db1 := audit pk (Some station) [MODULE_DISCOVERED]
                     (with_modules (fw_modules db ++ [new_module pk t idn now]) db) in
        match ingest_tail pk station slot now came_online db1 with
        | Raise e => Raise e
        | Ok db2 => Ok (db2, Some pk)
        end
      | Some m =>
        let '(db1, ok) := update_known types t station idn now m db in
        if ok then
          match ingest_tail (mo_pk m) station slot now came_online db1 with
          | Raise e => Raise e
          | Ok db2 => Ok (db2, Some (mo_pk m))
          end
        else Ok (db1, None)
      end
    end.

(** ** Modules no longer reported *)

(** One stale assignment; [uids] maps a slot to the uid still reported in it. *)
Definition release_stale (now station : Z) (uids : gmap string string) (db : FwDb) (a : Assignment) : FwDb :=
  match find_module (as_module a) db with
  | None => db
  | Some m =>
    if decide (uids !! as_slot a = Some (mo_uid m)) then db
    else
      derive_lifecycle (mo_pk m) (Some station)
        (audit (mo_pk m) (Some station) [MODULE_ASSIGNMENT_CHANGED] (close_assignment now a db))
  end.

Definition reconcile_station (now station : Z) (tracked_slots : list string) (uids : gmap string string)
    (db : FwDb) : FwDb :=
  foldl (release_stale now station uids) db
    (filter (λ a, as_station a = Some station ∧ as_to a = None ∧ as_slot a ∉ tracked_slots)
      (fw_assignments db)).

(** ** Operator transitions ([services.py]) *)

Definition confirm_registration (pk : Z) (db : FwDb) : outcome IngestError FwDb :=
  match find_module pk db with
  | None => Raise ModuleDoesNotExist
  | Some m =>
    if decide (mo_registration m = REGISTERED) then Ok db
    else Ok (audit pk None [MODULE_REGISTERED] (update_module pk (set_registration REGISTERED) db))
  end.

Definition set_lifecycle (pk : Z) (status : Lifecycle) (db : FwDb) : outcome IngestError FwDb :=
  if decide (status = LC_DEPLOYED) then Raise LifecycleValueError
  else
    match find_module pk db with
    | None => Raise ModuleDoesNotExist
    | Some m =>
      if decide (status = LC_READY ∧ has_open pk db = true) then Raise LifecycleValueError
      else if decide (mo_lifecycle m = status) then Ok db
      else Ok (audit pk None [MODULE_LIFECYCLE_CHANGED] (update_module pk (set_lifecycle_field status) db))
    end.

(** ** The invariant

    [E] is the set of modules whose lifecycle may be out of date in the middle of
    an operation; between operations it is empty. *)

Definition lifecycle_ok (m : Module_) (db : FwDb) : Prop :=
  STICKY_LIFECYCLE (mo_lifecycle m) = true ∨ mo_lifecycle m = derived_lifecycle (mo_pk m) db.

Record inventory_ok (E : Z → Prop) (db : FwDb) : Prop := mkInventoryOk {
  io_pk : NoDup (mo_pk <$> fw_modules db);
  io_uid : NoDup (mo_uid <$> fw_modules db);
  io_as_pk : NoDup (as_pk <$> fw_assignments db);
  io_open : ∀ a b, a ∈ fw_assignments db → b ∈ fw_assignments db → conflicts a b = true → a = b;
  io_fk : fk_ok db;
  io_life : ∀ m, m ∈ fw_modules db → ¬ E (mo_pk m) → lifecycle_ok m db
}.

Lemma has_open_spec pk db :
  has_open pk db = true ↔ ∃ a, a ∈ fw_assignments db ∧ as_module a = pk ∧ as_to a = None.
Proof.
  unfold has_open. rewrite existsb_exists. split; intros (a & Ha & Hp); exists a.
  - apply bool_decide_eq_true in Hp. apply list_elem_of_In in Ha. tauto.
  - split; [by apply list_elem_of_In|]. by apply bool_decide_true.
Qed.

(** Same modules, same open assignments of a module: same derived lifecycle. *)
Lemma derived_same pk db db' :
  (∀ a, as_module a = pk → as_to a = None → a ∈ fw_assignments db' ↔ a ∈ fw_assignments db) →
  derived_lifecycle pk db' = derived_lifecycle pk db.
Proof.
  intros H. unfold derived_lifecycle. assert (has_open pk db' = has_open pk db) as ->; [|done].
  assert (has_open pk db' = true ↔ has_open pk db = true) as Hiff.
  { rewrite !has_open_spec. split; intros (a & Ha & Hm & Ho); exists a; (split; [by apply H|done]). }
  destruct (has_open pk db'), (has_open pk db); naive_solver.
Qed.

Lemma inventory_weaken (E F : Z → Prop) db : (∀ m, E m → F m) → inventory_ok E db → inventory_ok F db.
Proof. intros HEF []. constructor; try done. auto. Qed.

(** Operations that touch neither assignments nor lifecycles. *)
Lemma inventory_static E db db' : same_static db' db → inventory_ok E db → inventory_ok E db'.
Proof.
  intros Hs [H1 H2 H3 H4 H5 H6].
  assert (∀ B (g : Module_ → B), (∀ m, g m = g (set_convergence C_UNKNOWN m)) →
    g <$> fw_modules db' = g <$> fw_modules db) as Hcol.
  { intros B g Hg. pose proof (ss_modules _ _ Hs) as Hm.
    rewrite (list_fmap_ext g (g ∘ set_convergence C_UNKNOWN) (fw_modules db')) by (intros; apply Hg).
    rewrite (list_fmap_ext g (g ∘ set_convergence C_UNKNOWN) (fw_modules db)) by (intros; apply Hg).
    by rewrite !list_fmap_compose, Hm. }
  constructor.
  - by rewrite (Hcol _ mo_pk).
  - by rewrite (Hcol _ mo_uid).
  - by rewrite (ss_assignments _ _ Hs).
  - by rewrite (ss_assignments _ _ Hs).
  - eapply fk_ok_static; [|done]. by symmetry.
  - intros m Hm HE. destruct (modules_static _ _ _ Hs Hm) as (m' & Hm' & Heq).
    injection Heq as E1 E2 E3 E4 E5 E6. unfold lifecycle_ok in *. rewrite <-E1, <-E5.
    assert (derived_lifecycle (mo_pk m') db' = derived_lifecycle (mo_pk m') db) as ->.
    { apply derived_same. intros a _ _. by rewrite (ss_assignments _ _ Hs). }
    apply H6; [done|congruence].
Qed.

(** Updates of module columns other than pk, uid and lifecycle. *)
Lemma inventory_update E pk f db :
  (∀ m, mo_pk (f m) = mo_pk m ∧ mo_uid (f m) = mo_uid m ∧ mo_lifecycle (f m) = mo_lifecycle m) →
  inventory_ok E db → inventory_ok E (update_module pk f db).
Proof.
  intros Hf [H1 H2 H3 H4 H5 H6]. constructor; simpl; try done.
  - rewrite fmap_update_where; [done|]. intros m _. apply Hf.
  - rewrite fmap_update_where; [done|]. intros m _. apply Hf.
  - intros a Ha. destruct (H5 a Ha) as (m & Hm & Hpk).
    destruct (decide (mo_pk m = pk)) as [Heq|Hne].
    + exists (f m). split; [|by rewrite (proj1 (Hf m))]. apply elem_of_update_where. exists m. auto.
    + exists m. split; [|done]. apply elem_of_update_where. exists m. auto.
  - intros m Hm HE. apply elem_of_update_where in Hm as (x & Hx & [[_ ->]|[_ ->]]); [|by apply H6].
    destruct (Hf x) as (Hp & _ & Hl). unfold lifecycle_ok. rewrite Hp, Hl in *. by apply H6.
Qed.

Lemma update_static_audit E m st ev db : inventory_ok E db → inventory_ok E (audit m st ev db).
Proof. apply inventory_static. by constructor. Qed.

Lemma log_static E m st e msg db : inventory_ok E db → inventory_ok E (log_entry m st e msg db).
Proof. apply inventory_static. by constructor. Qed.

Lemma log_once_ok E m st msg db : inventory_ok E db → inventory_ok E (log_once m st msg db).
Proof. unfold log_once. case_match; [done|]. apply log_static. Qed.

Create HintDb inventory.
#[local] Hint Resolve update_static_audit log_static log_once_ok : inventory.

(** Writing a lifecycle that is sticky or the derived one. *)
Lemma inventory_set_lifecycle E pk v db :
  STICKY_LIFECYCLE v = true ∨ v = derived_lifecycle pk db →
  inventory_ok E db → inventory_ok (λ m, E m ∧ m ≠ pk) (update_module pk (set_lifecycle_field v) db).
Proof.
  intros Hv [H1 H2 H3 H4 H5 H6]. constructor; simpl; try done.
  - by rewrite fmap_update_where.
  - by rewrite fmap_update_where.
  - intros a Ha. destruct (H5 a Ha) as (m & Hm & Hpk).
    destruct (decide (mo_pk m = pk)); [exists (set_lifecycle_field v m)|exists m]; (split; [|done]);
      apply elem_of_update_where; exists m; auto.
  - intros m Hm HE. apply elem_of_update_where in Hm as (x & Hx & [[<- ->]|[Hne ->]]).
    + unfold lifecycle_ok. simpl. destruct Hv as [?| ->]; [by left|by right].
    + apply (H6 x Hx). tauto.
Qed.

Lemma find_module_in pk db m : find_module pk db = Some m → m ∈ fw_modules db ∧ mo_pk m = pk.
Proof. intros H. apply head_filter_Some in H. tauto. Qed.

(** After [_derive_lifecycle] the module's lifecycle is up to date. *)
Lemma derive_ok E pk st db :
  inventory_ok E db → inventory_ok (λ m, E m ∧ m ≠ pk) (derive_lifecycle pk st db).
Proof.
  intros Hok. unfold derive_lifecycle. destruct (find_module pk db) as [m|] eqn:Hm.
  - apply find_module_in in Hm as [Hm Hpk].
    assert (lifecycle_ok m db → inventory_ok (λ m, E m ∧ m ≠ pk) db) as Hdone.
    { intros Hl. destruct Hok as [H1 H2 H3 H4 H5 H6]. constructor; try done.
      intros x Hx HE. destruct (decide (mo_pk x = pk)) as [Heq|]; [|apply H6; tauto].
      assert (x = m) as ->; [|done]. eapply (NoDup_fmap_elem_inj mo_pk); [done..|congruence]. }
    destruct (STICKY_LIFECYCLE (mo_lifecycle m)) eqn:Hs; [by apply Hdone; left|].
    case_decide as Hd; [apply Hdone; right; congruence|].
    apply update_static_audit, inventory_set_lifecycle; [by right|done].
  - unfold find_module in Hm. rewrite head_filter_None in Hm. destruct Hok as [H1 H2 H3 H4 H5 H6].
    constructor; try done. intros x Hx HE. apply H6; [done|]. intros HEx. apply HE. split; [done|]. by apply Hm.
Qed.

Lemma close_elem now a db b :
  b ∈ fw_assignments (close_assignment now a db) ↔
  ∃ x, x ∈ fw_assignments db ∧ ((as_pk x = as_pk a ∧ b = close_at now x) ∨ (as_pk x ≠ as_pk a ∧ b = x)).
Proof. apply elem_of_update_where. Qed.

Lemma close_open now a db b :
  b ∈ fw_assignments (close_assignment now a db) → as_to b = None → b ∈ fw_assignments db ∧ as_pk b ≠ as_pk a.
Proof. intros (x & Hx & [[_ ->]|[Hne ->]])%close_elem Ho; done. Qed.

(** Closing a row only affects its module. *)
Lemma close_ok E now a db :
  a ∈ fw_assignments db → inventory_ok E db →
  inventory_ok (λ m, E m ∨ m = as_module a) (close_assignment now a db).
Proof.
  intros Ha [H1 H2 H3 H4 H5 H6]. constructor; try done.
  - simpl. by rewrite fmap_update_where.
  - intros x y Hx Hy Hc. pose proof Hc as Hc'. apply bool_decide_eq_true in Hc' as (Hox & Hoy & _).
    apply close_open in Hx as [Hx _]; [|done]. apply close_open in Hy as [Hy _]; [|done]. auto.
  - intros b (x & Hx & [[_ ->]|[_ ->]])%close_elem; apply (H5 x Hx).
  - intros m Hm HE. unfold lifecycle_ok. rewrite (derived_same _ db); [apply H6; tauto|].
    intros b Hbm Hbo. split; [intros Hb; by apply close_open in Hb as [? _]|].
    intros Hb. apply close_elem. exists b. split; [done|]. right. split; [|done].
    intros Heq. assert (b = a) as -> by by eapply (NoDup_fmap_elem_inj as_pk). apply HE. by right.
Qed.

(** The insert keeps the invariant and succeeds when the two constraints allow it. *)
Lemma create_ok E m station slot now db :
  inventory_ok E db → (∃ x, x ∈ fw_modules db ∧ mo_pk x = m) →
  (∀ a, a ∈ fw_assignments db → as_to a = None → as_module a ≠ m ∧
    ¬ (as_station a = Some station ∧ as_slot a = slot)) →
  ∃ db', create_assignment m station slot now db = Ok db' ∧ inventory_ok (λ x, E x ∨ x = m) db' ∧
    fw_modules db' = fw_modules db ∧
    ∀ b, b ∈ fw_assignments db' ↔ b ∈ fw_assignments db ∨
      b = mkAssignment (next_pk (as_pk <$> fw_assignments db)) m (Some station) slot now None.
Proof.
  intros [H1 H2 H3 H4 H5 H6] Hmod Hfree. unfold create_assignment.
  set (a := mkAssignment _ _ _ _ _ _).
  assert (∀ b, b ∈ fw_assignments db → conflicts a b = false ∧ conflicts b a = false) as Hnc.
  { intros b Hb. split; apply bool_decide_false; intros Hc; simpl in Hc;
      (destruct (decide (as_to b = None)) as [Hbo|]; [|tauto]); destruct (Hfree b Hb Hbo) as [Hm Hs]; naive_solver. }
  destruct (existsb (conflicts a) (fw_assignments db)) eqn:Hex.
  { apply existsb_exists in Hex as (b & Hb & Hc). apply list_elem_of_In in Hb.
    destruct (Hnc b Hb) as [Hf _]. congruence. }
  exists (with_assignments (fw_assignments db ++ [a]) db). split; [done|].
  split; [|split; [done|intros b; simpl; set_solver]].
  constructor; simpl; try done.
  - rewrite fmap_app. apply list.NoDup_app. split; [done|]. split; [|apply NoDup_singleton].
    intros pk Hin ->%list_elem_of_singleton. simpl in Hin. apply next_pk_gt in Hin. lia.
  - intros x y Hx Hy Hc. rewrite !elem_of_app, !list_elem_of_singleton in *.
    destruct Hx as [Hx| ->], Hy as [Hy| ->]; [auto|..]; [destruct (Hnc x Hx)|destruct (Hnc y Hy)|]; congruence.
  - intros b Hb. simpl in Hb. rewrite elem_of_app, list_elem_of_singleton in Hb. destruct Hb as [Hb| ->]; [by apply H5|done].
  - intros x Hx HE. unfold lifecycle_ok. rewrite (derived_same _ db); [apply H6; tauto|].
    intros b Hbm Hbo. simpl. rewrite elem_of_app, list_elem_of_singleton. split; [|tauto].
    intros [?| ->]; [done|]. exfalso. apply HE. right. by simpl in Hbm.
Qed.

(** The module sits in the slot. *)
Definition seated (m station : Z) (slot : string) (db : FwDb) : Prop :=
  ∃ a, a ∈ fw_assignments db ∧ as_module a = m ∧ as_station a = Some station ∧ as_slot a = slot ∧ as_to a = None.

Lemma derive_assignments pk st db : fw_assignments (derive_lifecycle pk st db) = fw_assignments db.
Proof. unfold derive_lifecycle. repeat case_match; done. Qed.

(** Closing the module's own row and the slot's occupant frees both constraints. *)
Lemma closed_free E m station slot now db :
  inventory_ok E db →
  let current := open_assignment m db in
  let occupant := slot_occupant m station slot db in
  let db1 := match current with Some c => close_assignment now c db | None => db end in
  let db2 := match occupant with Some o => close_assignment now o db1 | None => db1 end in
  ∀ a, a ∈ fw_assignments db2 → as_to a = None →
    as_module a ≠ m ∧ ¬ (as_station a = Some station ∧ as_slot a = slot).
Proof.
  intros Hok current occupant db1 db2 a Ha Ho.
  assert (a ∈ fw_assignments db1 ∧ ∀ o, occupant = Some o → as_pk a ≠ as_pk o) as [Ha1 Hocc].
  { subst db2. destruct occupant as [o|]; [|done]. apply close_open in Ha as [? ?]; [|done]. naive_solver. }
  assert (a ∈ fw_assignments db ∧ ∀ c, current = Some c → as_pk a ≠ as_pk c) as [Ha0 Hcur].
  { subst db1. destruct current as [c|]; [|done]. apply close_open in Ha1 as [? ?]; [|done]. naive_solver. }
  assert (as_module a ≠ m) as Hm.
  { intros Hm. destruct current as [c|] eqn:Hc.
    - apply head_filter_Some in Hc as [[Hcm Hco] Hcin]. apply (Hcur c eq_refl). f_equal.
      apply (io_open _ _ Hok); [done..|]. apply bool_decide_true. split_and!; [done..|]. left. congruence.
    - unfold current, open_assignment in Hc. rewrite head_filter_None in Hc. by apply (Hc a). }
  split; [done|]. intros [Hs Hsl]. destruct occupant as [o|] eqn:Hoc.
  - apply head_filter_Some in Hoc as [(Hos & Hosl & Hoo & _) Hoin]. apply (Hocc o eq_refl). f_equal.
    apply (io_open _ _ Hok); [done..|]. apply bool_decide_true. split_and!; [done..|]. right.
    split_and!; congruence.
  - unfold occupant, slot_occupant in Hoc. rewrite head_filter_None in Hoc. by apply (Hoc a).
Qed.

(** [_apply_assignment] never trips a constraint and seats the module. *)
Lemma apply_assignment_ok E m station slot now db :
  inventory_ok E db → (∃ x, x ∈ fw_modules db ∧ mo_pk x = m) →
  ∃ db', apply_assignment m station slot now db = Ok db' ∧ inventory_ok (λ x, E x ∨ x = m) db' ∧
    seated m station slot db'.
Proof.
  intros Hok Hmod. unfold apply_assignment.
  destruct (match open_assignment m db with Some c => _ | None => false end) eqn:Hsame.
  { destruct (open_assignment m db) as [c|] eqn:Hc; [|done]. apply bool_decide_eq_true in Hsame as [? ?].
    apply head_filter_Some in Hc as [[? ?] ?]. exists db. split; [done|].
    split; [by eapply inventory_weaken; [|done]; tauto|]. by exists c. }
  pose proof (closed_free E m station slot now db Hok) as Hfree. cbv zeta in Hfree.
  set (current := open_assignment m db) in *. set (occupant := slot_occupant m station slot db) in *.
  set (db1 := match current with Some c => close_assignment now c db | None => db end) in *.
  set (db2 := match occupant with Some o => close_assignment now o db1 | None => db1 end) in *.
  assert (fw_modules db2 = fw_modules db) as Hmods by (subst db2 db1; by destruct occupant, current).
  assert (inventory_ok (λ x, (E x ∨ x = m) ∨ Some x = as_module <$> occupant) db2) as Hok2.
  { assert (inventory_ok (λ x, E x ∨ x = m) db1) as Hok1.
    { subst db1. destruct current as [c|] eqn:Hc; [|by eapply inventory_weaken; [|done]; tauto].
      apply head_filter_Some in Hc as [[<- _] Hcin]. by apply close_ok. }
    subst db2. destruct occupant as [o|] eqn:Ho; [|by eapply inventory_weaken; [|done]; tauto].
    apply head_filter_Some in Ho as [(_ & _ & Hoo & Hom) Hoin].
    assert (o ∈ fw_assignments db1) as Hin1.
    { subst db1. destruct current as [c|] eqn:Hc; [|done]. apply close_elem. exists o. split; [done|].
      right. split; [|done]. intros Heq. apply Hom. apply head_filter_Some in Hc as [[Hcm _] Hcin].
      assert (o = c) as ->; [|done]. eapply (NoDup_fmap_elem_inj as_pk); [apply Hok|done..]. }
    eapply inventory_weaken; [|by apply close_ok]. simpl. naive_solver. }
  destruct (create_ok _ m station slot now db2 Hok2) as (db3 & -> & Hok3 & Hm3 & Hel3);
    [by rewrite Hmods|done|].
  assert (seated m station slot db3) as Hseat.
  { eexists. split; [apply Hel3; by right|]. done. }
  set (db4 := if decide (current = None ∧ occupant = None) then db3 else _).
  assert (inventory_ok (λ x, ((E x ∨ x = m) ∨ Some x = as_module <$> occupant) ∨ x = m) db4 ∧
    fw_assignments db4 = fw_assignments db3) as [Hok4 Has4].
  { subst db4. case_decide; [done|]. by split; [apply update_static_audit|]. }
  eexists. split; [done|]. split.
  - apply update_static_audit. destruct occupant as [o|].
    + eapply inventory_weaken; [|by apply derive_ok]. simpl. naive_solver.
    + eapply inventory_weaken; [|done]. simpl. naive_solver.
  - destruct Hseat as (a & Ha & Hrest). exists a. split; [|done].
    assert (fw_assignments (audit m (Some station) [MODULE_ASSIGNMENT_CHANGED]
      match occupant with Some o => derive_lifecycle (as_module o) (Some station) db4 | None => db4 end) =
      fw_assignments db3) as ->; [|done].
    simpl. destruct occupant; [by rewrite derive_assignments|done].
Qed.

Definition settled (db : FwDb) : Prop := inventory_ok (λ _, False) db.

Lemma ingest_tail_ok pk station slot now on db :
  settled db → (∃ x, x ∈ fw_modules db ∧ mo_pk x = pk) →
  ∃ db', ingest_tail pk station slot now on db = Ok db' ∧ settled db' ∧ seated pk station slot db'.
Proof.
  intros Hok Hmod. unfold ingest_tail.
  destruct (apply_assignment_ok _ pk station slot now db Hok Hmod) as (db1 & -> & Hok1 & Hseat).
  set (db2 := derive_lifecycle pk (Some station) db1).
  assert (settled db2) as Hok2.
  { eapply inventory_weaken; [|by apply derive_ok]. simpl. naive_solver. }
  assert (seated pk station slot db2) as Hseat2 by (unfold seated, db2; by rewrite derive_assignments).
  set (db3 := if on then clear_dfu_stuck pk db2 else db2).
  assert (same_static db3 db2) as Hs3 by (subst db3; destruct on; by constructor).
  eexists. split; [done|]. set (db4 := match find_module pk db3 with Some _ => _ | None => _ end).
  assert (same_static db4 db2) as Hs4.
  { subst db4. destruct (find_module pk db3); [|done]. by rewrite reconcile_static. }
  split; [by eapply inventory_static|].
  destruct Hseat2 as (a & Ha & Hr). exists a. by rewrite (ss_assignments _ _ Hs4).
Qed.

Lemma find_uid_spec uid db m : find_uid uid db = Some m → m ∈ fw_modules db ∧ mo_uid m = uid.
Proof. intros H. apply head_filter_Some in H. tauto. Qed.

Lemma update_known_ok types t station idn now m db db' ok :
  settled db → m ∈ fw_modules db → update_known types t station idn now m db = (db', ok) →
  settled db' ∧ (∃ x, x ∈ fw_modules db' ∧ mo_pk x = mo_pk m).
Proof.
  intros Hok Hm. unfold update_known. case_decide; intros Heq; simplify_eq.
  - split; [by apply log_once_ok|]. exists m. unfold log_once. by case_match.
  - set (db1 := if decide _ then log_once _ _ _ db else db).
    assert (settled db1 ∧ fw_modules db1 = fw_modules db) as [Hok1 Hm1].
    { subst db1. case_decide; [|done]. split; [by apply log_once_ok|]. unfold log_once. by case_match. }
    set (f := set_report _ _ _ _).
    assert (settled (update_module (mo_pk m) f db1)) as Hok2 by (apply inventory_update; [|done]; by intros x).
    assert (f m ∈ fw_modules (update_module (mo_pk m) f db1)) as Hin.
    { simpl. apply elem_of_update_where. exists m. rewrite Hm1. auto. }
    case_decide; (split; [try apply update_static_audit; exact Hok2|by exists (f m)]).
Qed.

Lemma new_module_ok t idn now db :
  settled db → find_uid (id_uid idn) db = None →
  let pk := next_pk (mo_pk <$> fw_modules db) in
  settled (with_modules (fw_modules db ++ [new_module pk t idn now]) db).
Proof.
  intros [H1 H2 H3 H4 H5 H6] Hnew pk. unfold find_uid in Hnew. rewrite head_filter_None in Hnew.
  constructor; simpl; try done.
  - rewrite fmap_app. apply list.NoDup_app. split; [done|]. split; [|apply NoDup_singleton].
    intros x Hx ->%list_elem_of_singleton. simpl in Hx. apply next_pk_gt in Hx. subst pk. lia.
  - rewrite fmap_app. apply list.NoDup_app. split; [done|]. split; [|apply NoDup_singleton].
    intros x Hx ->%list_elem_of_singleton. apply list_elem_of_fmap in Hx as (y & Hy & Hin).
    apply (Hnew y Hin). by rewrite <-Hy.
  - intros a Ha. destruct (H5 a Ha) as (m & Hm & Hp). exists m. simpl. set_solver.
  - intros m Hm HE. rewrite elem_of_app, list_elem_of_singleton in Hm. destruct Hm as [Hm| ->]; [by apply (H6 m)|].
    right. simpl. unfold derived_lifecycle. destruct (has_open _ _) eqn:Ho; [|done]. exfalso.
    apply has_open_spec in Ho as (a & Ha & Hap & _). simpl in Ha. destruct (H5 a Ha) as (m & Hm & Hp).
    assert (mo_pk m ∈ mo_pk <$> fw_modules db) as Hin by by apply list_elem_of_fmap_2.
    apply next_pk_gt in Hin. subst pk. lia.
Qed.

(** A report never trips a constraint; a tracked one seats its module. *)
Lemma ingest_ok types station slot mid idn now on db :
  settled db →
  ∃ db' r, ingest_module types station slot mid idn now on db = Ok (db', r) ∧ settled db' ∧
    (∀ pk, r = Some pk → seated pk station slot db').
Proof.
  intros Hok. unfold ingest_module. case_decide; [by exists db, None|].
  destruct (find_type _ _) as [t|]; [|by exists db, None].
  destruct (find_uid (id_uid idn) db) as [m|] eqn:Hu.
  - apply find_uid_spec in Hu as [Hm Huid].
    destruct (update_known _ _ _ _ _ _ _) as [db1 ok] eqn:Hk.
    destruct (update_known_ok _ _ _ _ _ _ _ _ _ Hok Hm Hk) as [Hok1 Hmod].
    destruct ok; [|by exists db1, None].
    destruct (ingest_tail_ok (mo_pk m) station slot now on db1 Hok1 Hmod) as (db2 & -> & Hok2 & Hs).
    exists db2, (Some (mo_pk m)). split_and!; try done. by intros pk [= <-].
  - set (pk := next_pk _). pose proof (new_module_ok t idn now db Hok Hu) as Hn. cbv zeta in Hn. fold pk in Hn.
    set (db1 := audit pk _ _ _).
    destruct (ingest_tail_ok pk station slot now on db1) as (db2 & -> & Hok2 & Hs).
    + by apply update_static_audit.
    + exists (new_module pk t idn now). simpl. split; [set_solver|done].
    + exists db2, (Some pk). split_and!; try done. by intros x [= <-].
Qed.

(** One stale row: either kept (its uid is still reported) or closed. *)
Lemma release_stale_ok now station uids db a :
  settled db → a ∈ fw_assignments db →
  settled (release_stale now station uids db a) ∧
  mo_uid <$> fw_modules (release_stale now station uids db a) = mo_uid <$> fw_modules db ∧
  mo_pk <$> fw_modules (release_stale now station uids db a) = mo_pk <$> fw_modules db ∧
  (fw_assignments (release_stale now station uids db a) = fw_assignments (close_assignment now a db) ∧
     (∀ m, m ∈ fw_modules db → mo_pk m = as_module a → uids !! as_slot a ≠ Some (mo_uid m)) ∨
   (fw_assignments (release_stale now station uids db a) = fw_assignments db ∧
    ∃ m, m ∈ fw_modules db ∧ mo_pk m = as_module a ∧ uids !! as_slot a = Some (mo_uid m))).
Proof.
  intros Hok Ha. unfold release_stale. destruct (find_module (as_module a) db) as [m|] eqn:Hm.
  - apply find_module_in in Hm as [Hm Hpk]. case_decide as Hu; [by split_and!; [..|right; eauto]|].
    split.
    { eapply inventory_weaken; [|apply derive_ok, update_static_audit; by apply close_ok].
      simpl. rewrite Hpk. tauto. }
    assert (∀ B (g : Module_ → B), (∀ v x, g (set_lifecycle_field v x) = g x) → ∀ pk st d,
      g <$> fw_modules (derive_lifecycle pk st d) = g <$> fw_modules d) as Hcol.
    { intros B g Hg pk st d. unfold derive_lifecycle. repeat case_match; try done. simpl.
      apply fmap_update_where. intros x _. apply Hg. }
    split_and!; [by rewrite Hcol|by rewrite Hcol|]. left. split; [by rewrite derive_assignments|].
    intros x Hx Hxp. assert (x = m) as ->; [|done].
    eapply (NoDup_fmap_elem_inj mo_pk); [apply Hok|done..|congruence].
  - exfalso. destruct (io_fk _ _ Hok a Ha) as (m & Hin & Hp). unfold find_module in Hm.
    rewrite head_filter_None in Hm. by apply (Hm m).
Qed.

(** A uid still reported for the module of a row. *)
Definition still_reported (uids : gmap string string) (db : FwDb) (a : Assignment) : Prop :=
  ∃ pk uid, (pk, uid) ∈ ((λ m, (mo_pk m, mo_uid m)) <$> fw_modules db) ∧ pk = as_module a ∧
    uids !! as_slot a = Some uid.

Lemma reconcile_loop now station uids l : ∀ db,
  settled db → NoDup (as_pk <$> l) → (∀ a, a ∈ l → a ∈ fw_assignments db) →
  let db' := foldl (release_stale now station uids) db l in
  settled db' ∧ (λ m, (mo_pk m, mo_uid m)) <$> fw_modules db' = (λ m, (mo_pk m, mo_uid m)) <$> fw_modules db ∧
  ∀ b, as_to b = None → b ∈ fw_assignments db' ↔
    b ∈ fw_assignments db ∧ (b ∈ l → still_reported uids db b).
Proof.
  induction l as [|a l IH]; intros db Hok Hnd Hin; simpl.
  { split_and!; try done. intros b _. split; [|tauto]. intros Hb. split; [done|].
    intros Hn. by apply not_elem_of_nil in Hn. }
  rewrite fmap_cons, list.NoDup_cons in Hnd. destruct Hnd as [Hna Hnd].
  assert (a ∈ fw_assignments db) as Ha by (apply Hin; set_solver).
  destruct (release_stale_ok now station uids db a Hok Ha) as (Hok1 & Huid & Hpk & Heff).
  set (db1 := release_stale now station uids db a) in *.
  assert ((λ m, (mo_pk m, mo_uid m)) <$> fw_modules db1 = (λ m, (mo_pk m, mo_uid m)) <$> fw_modules db) as Hcols.
  { clear -Huid Hpk. revert Huid Hpk. generalize (fw_modules db). induction (fw_modules db1) as [|x xs IH];
      intros [|y ys] H1 H2; simpl in *; try done. injection H1 as E1 E2. injection H2 as F1 F2.
    rewrite E1, F1. f_equal. by apply IH. }
  assert (∀ b, b ∈ fw_assignments db → as_pk b ≠ as_pk a → b ∈ fw_assignments db1) as Hkeep.
  { intros b Hb Hne. destruct Heff as [[-> _]|[-> _]]; [|done]. apply close_elem. exists b. auto. }
  destruct (IH db1 Hok1 Hnd) as (Hok2 & Hcols2 & Hopen).
  { intros b Hb. apply Hkeep; [apply Hin; set_solver|]. intros Heq. apply Hna. rewrite <-Heq.
    by apply list_elem_of_fmap_2. }
  split; [done|]. split; [by rewrite Hcols2|]. intros b Hbo. rewrite (Hopen b Hbo).
  assert (still_reported uids db1 b ↔ still_reported uids db b) as Hsr by (unfold still_reported; by rewrite Hcols).
  assert (∀ x, x ∈ fw_assignments db → as_pk x = as_pk a → x = a) as Hu.
  { intros x Hx Heq. by eapply (NoDup_fmap_elem_inj as_pk); [apply Hok|..]. }
  split.
  - intros [Hb1 Hrep].
    assert (b ∈ fw_assignments db ∧ (b = a → still_reported uids db b)) as [Hb Hba].
    { destruct Heff as [[Hc _]|[Hc (m & Hm & Hmp & Hmu)]]; rewrite Hc in Hb1.
      - apply close_open in Hb1 as [Hb Hne]; [|done]. split; [done|]. by intros ->.
      - split; [done|]. intros ->. exists (mo_pk m), (mo_uid m). split; [|done].
        apply list_elem_of_fmap. by exists m. }
    split; [done|]. intros [->|Hbl]%elem_of_cons; [auto|]. apply Hsr, Hrep, Hbl.
  - intros [Hb Hrep]. split; [|intros Hbl; apply Hsr, Hrep; set_solver].
    destruct (decide (as_pk b = as_pk a)) as [Heq|Hne]; [|by apply Hkeep].
    apply (Hu b Hb) in Heq as ->. destruct Heff as [[_ Hno]|[-> _]]; [|done]. exfalso.
    destruct (Hrep ltac:(set_solver)) as (pk & uid & Hpu & -> & Hslot).
    apply list_elem_of_fmap in Hpu as (m & Hm & Hmin). injection Hm as Hm1 Hm2.
    apply (Hno m Hmin); congruence.
Qed.

(** After a station's report, its open rows are those of the tracked slots and
    those whose uid is still reported (in an entry that was rejected). *)
Lemma reconcile_station_ok now station tracked uids db :
  settled db →
  settled (reconcile_station now station tracked uids db) ∧
  ∀ b, as_to b = None → b ∈ fw_assignments (reconcile_station now station tracked uids db) ↔
    b ∈ fw_assignments db ∧
    (as_station b = Some station → as_slot b ∉ tracked → still_reported uids db b).
Proof.
  intros Hok. unfold reconcile_station.
  destruct (reconcile_loop now station uids
    (filter (λ a, as_station a = Some station ∧ as_to a = None ∧ as_slot a ∉ tracked) (fw_assignments db))
    db Hok) as (Hok' & _ & Hopen).
  - eapply sublist_NoDup; [apply (io_as_pk _ _ Hok)|]. apply fmap_sublist, sublist_filter.
  - intros a Ha. apply list_elem_of_filter in Ha. tauto.
  - split; [done|]. intros b Hb. rewrite (Hopen b Hb), list_elem_of_filter. tauto.
Qed.

Lemma set_lifecycle_ok pk v db db' : settled db → set_lifecycle pk v db = Ok db' → settled db'.
Proof.
  intros Hok. unfold set_lifecycle. case_decide as Hdep; [done|].
  destruct (find_module pk db) as [m|]; [|done]. case_decide as Hready; [done|].
  case_decide as Hsame; intros [= <-]; [done|]. apply update_static_audit.
  eapply inventory_weaken; [|apply inventory_set_lifecycle; [|done]]; [simpl; tauto|].
  destruct v; try (left; reflexivity); [right|done].
  unfold derived_lifecycle. destruct (has_open pk db); [|done]. tauto.
Qed.

Lemma confirm_registration_ok pk db db' : settled db → confirm_registration pk db = Ok db' → settled db'.
Proof.
  intros Hok. unfold confirm_registration. destruct (find_module pk db); [|done].
  case_decide; intros [= <-]; [done|]. apply update_static_audit. by apply inventory_update.
Qed.

(** ** Runs

    The operations that touch modules or assignments, in any order, interleaved
    with the firmware operations, which keep both tables ([same_static]).  An
    operation that raises is rolled back. *)
Inductive InvOp :=
| IV_ingest (types : list ModuleType_) (station : Z) (slot module_id : string) (idn : Identity) (now : Z)
    (came_online : bool)
| IV_station (now station : Z) (tracked : list string) (uids : gmap string string)
| IV_register (pk : Z)
| IV_lifecycle (pk : Z) (status : Lifecycle)
| IV_reconcile (now : Z) (obj : Module_).

Definition apply_op (op : InvOp) (db : FwDb) : outcome IngestError FwDb :=
  match op with
  | IV_ingest types st slot mid idn now on =>
    match ingest_module types st slot mid idn now on db with Ok (db', _) => Ok db' | Raise e => Raise e end
  | IV_station now st tracked uids => Ok (reconcile_station now st tracked uids db)
  | IV_register pk => confirm_registration pk db
  | IV_lifecycle pk v => set_lifecycle pk v db
  | IV_reconcile now obj => Ok (reconcile_module now obj db).1
  end.

Fixpoint run_ops (ops : list InvOp) (db : FwDb) : FwDb * list IngestError :=
  match ops with
  | [] => (db, [])
  | op :: ops =>
    match apply_op op db with
    | Ok db' => run_ops ops db'
    | Raise e => let '(db', es) := run_ops ops db in (db', e :: es)
    end
  end.

Lemma apply_op_ok op db :
  settled db →
  match apply_op op db with Ok db' => settled db' | Raise e => e ≠ IntegrityError end.
Proof.
  intros Hok. destruct op as [types st slot mid idn now on|now st tr uids|pk|pk v|now obj]; simpl.
  - by destruct (ingest_ok types st slot mid idn now on db Hok) as (db' & r & -> & ? & _).
  - by apply reconcile_station_ok.
  - destruct (confirm_registration pk db) as [|e] eqn:H; [by eapply confirm_registration_ok|].
    unfold confirm_registration in H. repeat case_match; by simplify_eq.
  - destruct (set_lifecycle pk v db) as [|e] eqn:H; [by eapply set_lifecycle_ok|].
    unfold set_lifecycle in H. repeat case_match; by simplify_eq.
  - by eapply inventory_static; [apply reconcile_static|].
Qed.

Lemma run_ops_ok ops : ∀ db, settled db → settled (run_ops ops db).1 ∧ IntegrityError ∉ (run_ops ops db).2.
Proof.
  induction ops as [|op ops IH]; intros db Hok; simpl; [by split; [|apply not_elem_of_nil]|].
  pose proof (apply_op_ok op db Hok) as Hop. destruct (apply_op op db) as [db'|e]; [by apply IH|].
  destruct (IH db Hok) as [H1 H2]. destruct (run_ops ops db) as [db' es]. simpl in *. set_solver.
Qed.

(** C23. Whatever reports, pulled modules, operator transitions and firmware
    reconciliations happen, in any order, starting from empty module and assignment
    tables: no insert ever trips a database constraint, a module has at most one
    open assignment, a slot of a station at most one occupant, and a module whose
    lifecycle the operator has not taken over is [deployed] exactly when it has an
    open assignment and [ready] otherwise. *)
Theorem inventory_consistent ops db db' errors :
  fw_modules db = [] → fw_assignments db = [] → run_ops ops db = (db', errors) →
  IntegrityError ∉ errors ∧
  (∀ a b, a ∈ fw_assignments db' → b ∈ fw_assignments db' → as_to a = None → as_to b = None →
    (as_module a = as_module b → a = b) ∧
    (as_station a ≠ None → as_station a = as_station b → as_slot a = as_slot b → a = b)) ∧
  (∀ m, m ∈ fw_modules db' → STICKY_LIFECYCLE (mo_lifecycle m) = false →
    ((∃ a, a ∈ fw_assignments db' ∧ as_module a = mo_pk m ∧ as_to a = None) ∧ mo_lifecycle m = LC_DEPLOYED) ∨
    ((¬ ∃ a, a ∈ fw_assignments db' ∧ as_module a = mo_pk m ∧ as_to a = None) ∧ mo_lifecycle m = LC_READY)).
Proof.
  intros Hm Ha Hrun. assert (settled db) as Hok.
  { constructor; rewrite ?Hm, ?Ha; simpl; try apply NoDup_nil_2;
      intros ?; [intros ? Hn|unfold fk_ok in *; rewrite ?Ha; intros Hn|intros Hn]; by apply not_elem_of_nil in Hn. }
  destruct (run_ops_ok ops db Hok) as [Hset Herr]. rewrite Hrun in Hset, Herr. simpl in *.
  split; [done|]. split.
  - intros a b Hin Hin' Hoa Hob. split; intros; apply (io_open _ _ Hset); try done;
      apply bool_decide_true; tauto.
  - intros m Hmin Hst. rewrite <-has_open_spec. destruct (io_life _ _ Hset m Hmin) as [Hl|Hl]; [tauto|congruence|].
    unfold derived_lifecycle in Hl. destruct (has_open (mo_pk m) db'); auto.
Qed.

(** Two modules, a swap into the same slot, one retired by the operator. *)
Lemma inventory_consistent_witness :
  let types := [mkModuleType 1 "fm"] in
  let idn u := mkIdentity u "fm_transceiver" "" "1.0.0" "" JNull in
  let ops := [IV_ingest types 7 "1" "fm" (idn "a") 10 true; IV_ingest types 7 "1" "fm" (idn "b") 20 true;
              IV_lifecycle 1 LC_DEPLOYED; IV_lifecycle 1 LC_RETIRED; IV_station 30 7 [] ∅] in
  let db := mkFwDb [] [] [] [] [] [] [] [] in
  (run_ops ops db).2 = [LifecycleValueError] ∧
  (mo_lifecycle <$> fw_modules (run_ops ops db).1) = [LC_RETIRED; LC_READY] ∧
  IntegrityError ∉ (run_ops ops db).2.
Proof.
  split; [vm_compute; reflexivity|]. split; [vm_compute; reflexivity|].
  eapply inventory_consistent; [| |apply surjective_pairing]; reflexivity.
Defined.
