(* ===== verification/Capabilities.v ===== *)
(** * Capability descriptors and the command line of a slot

    Models [station_agent/descriptor.py] (validation of a command against the
    descriptor a module reports), the descriptor checks of
    [apps/control/persistence.py] on the server, [parse_message] of
    [station_agent/protocol.py] and the guard and command line of
    [SlotControl.execute] ([station_agent/slot_control.py]).

    Descriptors and values are JSON.  Python's comparison of an [int] with a [float]
    is exact, [==] on JSON values identifies [True] and [1] and [1.0]; both are
    written out.  An exception other than [ProtocolError] that a malformed descriptor
    causes ([TypeError], [AttributeError], [OverflowError]) is the value [PyError].
    [repr] of a float is a parameter of [format_value]. *)

From Stdlib Require Import ZArith Lia Ascii SpecFloat.
From stdpp Require Import base gmap list strings pretty.
From S2P Require Import Prelude Json.

Local Open Scope Z_scope.

(** ** Python operations on JSON values *)

(** [d.get(key)] that tells an absent key from [null]. *)
Fixpoint jlookup (key : string) (fields : list (string * Json)) : option Json :=
  match fields with
  | [] => None
  | (k, v) :: fields' => if decide (k = key) then Some v else jlookup key fields'
  end.

(** [bool(v)] *)
Definition truthy_json (v : Json) : bool :=
  match v with
  | JNull => false
  | JBool b => b
  | JInt z => negb (z =? 0)
  | JFloat f => match f with S754_zero _ => false | _ => true end
  | JStr s => match s with EmptyString => false | _ => true end
  | JList l => match l with [] => false | _ => true end
  | JObj l => match l with [] => false | _ => true end
  end.

(** A number, [bool] being an [int] for Python. *)
Inductive Num := NInt (z : Z) | NFloat (f : spec_float).

Definition num_of (v : Json) : option Num :=
  match v with
  | JBool b => Some (NInt (if b then 1 else 0))
  | JInt z => Some (NInt z)
  | JFloat f => Some (NFloat f)
  | _ => None
  end.

(** The exact comparison of an integer with a float. *)
Definition cmp_int_float (z : Z) (f : spec_float) : option comparison :=
  match f with
  | S754_nan => None
  | S754_infinity s => Some (if s then Gt else Lt)
  | S754_zero _ => Some (z ?= 0)
  | S754_finite s m e =>
    let v := if s then Zneg m else Zpos m in
    Some (if 0 <=? e then z ?= v * 2 ^ e else z * 2 ^ (- e) ?= v)
  end.

Definition num_cmp (a b : Num) : option comparison :=
  match a, b with
  | NInt x, NInt y => Some (x ?= y)
  | NInt x, NFloat g => cmp_int_float x g
  | NFloat f, NInt y => CompOpp <$> cmp_int_float y f
  | NFloat f, NFloat g => SFcompare f g
  end.

Definition num_lt (a b : Num) : bool := match num_cmp a b with Some Lt => true | _ => false end.
Definition num_le (a b : Num) : bool := match num_cmp a b with Some Lt | Some Eq => true | _ => false end.
Definition num_eq (a b : Num) : bool := match num_cmp a b with Some Eq => true | _ => false end.

(** [a == b] *)
Fixpoint py_eq (a b : Json) {struct a} : bool :=
  match a, b with
  | JNull, JNull => true
  | JStr s, JStr t => bool_decide (s = t)
  | JList l, JList k =>
    (fix go (l k : list Json) : bool :=
       match l, k with
       | [], [] => true
       | x :: l', y :: k' => py_eq x y && go l' k'
       | _, _ => false
       end) l k
  | JObj l, JObj k =>
    bool_decide (length l = length k) &&
    (fix go (l : list (string * Json)) : bool :=
       match l with
       | [] => true
       | (key, x) :: l' => match jlookup key k with Some y => py_eq x y | None => false end && go l'
       end) l
  | _, _ =>
    match num_of a, num_of b with
    | Some x, Some y => num_eq x y
    | _, _ => false
    end
  end.

Definition is_int (v : Json) : bool := match v with JInt _ => true | _ => false end.
Definition json_number (v : Json) : bool := match v with JInt _ | JFloat _ => true | _ => false end.
Definition is_str (v : Json) : bool := match v with JStr _ => true | _ => false end.
Definition is_bool (v : Json) : bool := match v with JBool _ => true | _ => false end.

(** ** Errors *)

Inductive ErrCode :=
| VALIDATION_FAILED | UNKNOWN_SLOT | UNKNOWN_MODULE | UNKNOWN_CAPABILITY | WRONG_OP | READ_ONLY
| OUT_OF_RANGE | BAD_VALUE | TIMEOUT.

#[export] Instance ErrCode_eq_dec : EqDecision ErrCode.
Proof. solve_decision. Defined.

Inductive CommandError := ProtocolError (code : ErrCode) | PyError.

#[export] Instance CommandError_eq_dec : EqDecision CommandError.
Proof. solve_decision. Defined.

(** A capability entry of a descriptor: a JSON object. *)
Definition Cap := list (string * Json).

(** ** [TOKEN_RE] and [_MODULE_ID_RE]

    Python's [$] also matches before a final newline. *)

Definition alnum (c : ascii) : bool :=
  let n := ascii_code c in
  bool_decide (48 ≤ n ≤ 57) || bool_decide (65 ≤ n ≤ 90) || bool_decide (97 ≤ n ≤ 122).

(** [[-A-Za-z0-9_.:+/]] *)
Definition token_char (c : ascii) : bool :=
  alnum c || existsb (λ k, bool_decide (ascii_code c = k)) [45; 95; 46; 58; 43; 47].

Definition newline : ascii := ascii_of_nat 10.

(** [re.match(r"^C+$", s)] for a character class [C]. *)
Fixpoint class_plus (cls : ascii → bool) (first : bool) (l : list ascii) : bool :=
  match l with
  | [] => negb first
  | [c] => cls c || (negb first && bool_decide (c = newline))
  | c :: l' => cls c && class_plus cls false l'
  end.

Definition TOKEN_RE (s : string) : bool := class_plus token_char true (String.list_ascii_of_string s).

(** ** [descriptor.py] *)

Section descriptor.
Local Open Scope outcome_scope.

(** [index_capabilities]: a name reported twice keeps its last entry. *)
Definition index_step (out : gmap string Cap) (c : Json) : gmap string Cap :=
  match c with
  | JObj cap => match jget "name" cap with JStr n => <[n := cap]> out | _ => out end
  | _ => out
  end.

Definition index_capabilities (capabilities : Json) : gmap string Cap :=
  match capabilities with JList l => foldl index_step ∅ l | _ => ∅ end.

(** [_OPS_FOR_KIND.get(kind, set())]; an unhashable kind raises. *)
Definition OPS_FOR_KIND (kind : Json) : outcome CommandError (list string) :=
  match kind with
  | JStr "setting" => Ok ["set"; "get"]
  | JStr "action" => Ok ["do"; "get"]
  | JStr "telemetry" => Ok ["get"]
  | JList _ | JObj _ => Raise PyError
  | _ => Ok []
  end.

Definition WRITE_OPS : list string := ["set"; "do"].

(** [value in values] *)
Definition py_in (v : Json) (values : Json) : outcome CommandError bool :=
  match values with
  | JList l => Ok (existsb (λ x, py_eq x v) l)
  | JStr s => match v with JStr t => Ok (match String.index 0 t s with Some _ => true | None => false end) | _ => Raise PyError end
  | JObj fields =>
    match v with
    | JStr t => Ok (match jlookup t fields with Some _ => true | None => false end)
    | JList _ | JObj _ => Raise PyError
    | _ => Ok false
    end
  | _ => Raise PyError
  end.

(** [r.get("min", -inf) <= value <= r.get("max", inf)], the second comparison only
    when the first holds. *)
Definition in_one_range (value : Num) (r : Json) : outcome CommandError bool :=
  match r with
  | JObj fields =>
    match num_of (default (JFloat (S754_infinity true)) (jlookup "min" fields)) with
    | None => Raise PyError
    | Some lo =>
      if num_le lo value then
        match num_of (default (JFloat (S754_infinity false)) (jlookup "max" fields)) with
        | None => Raise PyError
        | Some hi => Ok (num_le value hi)
        end
      else Ok false
    end
  | _ => Raise PyError
  end.

Fixpoint any_range (value : Num) (rs : list Json) : outcome CommandError unit :=
  match rs with
  | [] => Raise (ProtocolError OUT_OF_RANGE)
  | r :: rs' => let! b := in_one_range value r in if b then Ok tt else any_range value rs'
  end.

Definition check_range (cap : Cap) (value : Num) : outcome CommandError unit :=
  let ranges := jget "ranges" cap in
  if truthy_json ranges then
    match ranges with JList rs => any_range value rs | _ => Raise PyError end
  else Ok tt.

(** [float(value)] *)
Definition to_float (v : Json) : outcome CommandError Num :=
  match v with
  | JFloat f => Ok (NFloat f)
  | JInt z => if decide (FLOAT_OVERFLOW ≤ Z.abs z) then Raise PyError else Ok (NFloat (float_of_Z z))
  | _ => Raise PyError
  end.

Definition check_value (cap : Cap) (value : Json) : outcome CommandError unit :=
  match jget "type" cap with
  | JStr "bool" => if is_bool value then Ok tt else Raise (ProtocolError BAD_VALUE)
  | JStr "enum" =>
    let! b := py_in value (default (JList []) (jlookup "values" cap)) in
    if b then Ok tt else Raise (ProtocolError BAD_VALUE)
  | JStr "string" =>
    match value with
    | JStr s => if TOKEN_RE s then Ok tt else Raise (ProtocolError BAD_VALUE)
    | _ => Raise (ProtocolError BAD_VALUE)
    end
  | JStr "int" =>
    match value with
    | JInt z => check_range cap (NInt z)
    | _ => Raise (ProtocolError BAD_VALUE)
    end
  | JStr "float" =>
    if json_number value then let! x := to_float value in check_range cap x
    else Raise (ProtocolError BAD_VALUE)
  | _ => Raise (ProtocolError BAD_VALUE)
  end.

Definition validate_command (cap : option Cap) (op : string) (value : Json) : outcome CommandError unit :=
  match cap with
  | None => Raise (ProtocolError UNKNOWN_CAPABILITY)
  | Some cap =>
    let kind := default (JStr "") (jlookup "kind" cap) in
    let! allowed := OPS_FOR_KIND kind in
    if bool_decide (op ∈ WRITE_OPS) && (py_eq kind (JStr "telemetry") || truthy_json (jget "readonly" cap))
    then Raise (ProtocolError READ_ONLY)
    else if bool_decide (op ∉ allowed) then Raise (ProtocolError WRONG_OP)
    else if bool_decide (op = "get") then
      match value with JNull => Ok tt | _ => Raise (ProtocolError BAD_VALUE) end
    else match value with
         | JNull => Raise (ProtocolError BAD_VALUE)
         | _ => check_value cap value
         end
  end.

(** [min_interval_ms] *)
Definition min_interval_ms (cap : Cap) (dflt : Z) : Z :=
  match jget "min_interval_ms" cap with JInt z => if decide (0 < z) then z else dflt | _ => dflt end.

End descriptor.

(** ** The descriptor checks of the server ([persistence.py]) *)

(** [_in_range]: a bound that is a number (also a [bool]) limits the value. *)
Definition bounds_ok (cap : Cap) (value : Num) : bool :=
  negb (match num_of (jget "min" cap) with Some lo => num_lt value lo | None => false end) &&
  negb (match num_of (jget "max" cap) with Some hi => num_lt hi value | None => false end).

Definition value_fits (cap : Cap) (value : Json) : bool :=
  match jget "type" cap with
  | JStr "bool" => is_bool value
  | JStr "int" => match value with JInt z => bounds_ok cap (NInt z) | _ => false end
  | JStr "float" =>
    match value with JInt z => bounds_ok cap (NInt z) | JFloat f => bounds_ok cap (NFloat f) | _ => false end
  | JStr "string" => is_str value
  | JStr "enum" =>
    match jget "values" cap with
    | JList l => (is_str value || json_number value) && existsb (λ x, py_eq x value) l
    | _ => false
    end
  | _ => false
  end.

Definition is_settable (name : string) (cap : Cap) : bool :=
  py_eq (jget "name" cap) (JStr name) && py_eq (jget "kind" cap) (JStr "setting") &&
  negb (truthy_json (jget "readonly" cap)).

Fixpoint first_settable (name : string) (l : list Json) : option Cap :=
  match l with
  | [] => None
  | JObj cap :: l' => if is_settable name cap then Some cap else first_settable name l'
  | _ :: l' => first_settable name l'
  end.

Definition settable_cap (desc : Json) (name : string) : option Cap :=
  match desc with JList l => first_settable name l | _ => None end.

(** [is_setting_cap] ([registry.py]): the first entry of that name decides. *)
Fixpoint is_setting_cap (descriptor : list Cap) (name : string) : bool :=
  match descriptor with
  | [] => false
  | cap :: rest =>
    if py_eq (jget "name" cap) (JStr name) then py_eq (jget "kind" cap) (JStr "setting")
    else is_setting_cap rest name
  end.

(** ** The control line ([slot_control.py]) *)

(** [_MODULE_ID_RE]: [^[A-Za-z0-9_.-]{1,32}$] *)
Definition id_char (c : ascii) : bool :=
  alnum c || existsb (λ k, bool_decide (ascii_code c = k)) [95; 46; 45].

Definition MODULE_ID_RE (s : string) : bool :=
  let l := String.list_ascii_of_string s in
  class_plus id_char true l &&
  (bool_decide (length l ≤ 32)%nat || (bool_decide (length l = 33%nat) && bool_decide (last l = Some newline))).

Definition space : ascii := ascii_of_nat 32.
Definition cr : ascii := ascii_of_nat 13.

(** [" ".join(parts)] *)
Fixpoint join_words (parts : list (list ascii)) : list ascii :=
  match parts with
  | [] => []
  | [p] => p
  | p :: rest => p ++ space :: join_words rest
  end.

Definition chars (s : string) : list ascii := String.list_ascii_of_string s.

(** The bytes [execute] writes, [None] when it answers [bad_value] without touching
    the device. *)
Definition command_bytes (module_id cap : Json) (op : string) (token : option Json) : option (list ascii) :=
  match module_id, cap with
  | JStr m, JStr c =>
    if negb (MODULE_ID_RE m && MODULE_ID_RE c) then None
    else if negb (bool_decide (op ∈ ["set"; "get"; "do"])) then None
    else
      match token with
      | None => Some (join_words [chars "module"; chars m; chars op; chars c] ++ [cr; newline])
      | Some (JStr t) =>
        if TOKEN_RE t
        then Some (join_words [chars "module"; chars m; chars op; chars c; chars t] ++ [cr; newline])
        else None
      | Some _ => None
      end
  | _, _ => None
  end.

(** ** Values as firmware tokens *)

Definition Z_to_string (z : Z) : string := pretty z.

Section format.
(** [repr(float)] and [format(Decimal(text), "f")]. *)
Variable repr : spec_float → string.
Variable expand : string → string.

Definition has_exponent (s : string) : bool :=
  existsb (λ c, bool_decide (ascii_code c = 101) || bool_decide (ascii_code c = 69)) (chars s).

(** [format_value] of a value [check_value] has accepted; [None] is an exception
    ([int] or [float] of something else) or the text of a list or object. *)
Definition format_value (cap_type : Json) (value : Json) : option string :=
  match cap_type with
  | JStr "bool" => Some (if truthy_json value then "true" else "false")
  | JStr "int" => match value with JInt z => Some (Z_to_string z) | _ => None end
  | JStr "float" =>
    match to_float value with
    | Ok (NFloat f) => Some (if has_exponent (repr f) then expand (repr f) else repr f)
    | _ => None
    end
  | _ =>
    match value with
    | JStr s => Some s
    | JInt z => Some (Z_to_string z)
    | JBool b => Some (if b then "True" else "False")
    | JFloat f => Some (repr f)
    | JNull => Some "None"
    | _ => None
    end
  end.

End format.

(** ** Frames from the server ([protocol.py]) *)

Definition AGENT_PROTOCOL_VERSION : Z := 1.

(** [parse_message] after [json.loads] ([None]: not JSON). *)
Definition parse_message (parsed : option Json) : outcome CommandError (list (string * Json)) :=
  match parsed with
  | Some (JObj msg) =>
    if is_str (jget "type" msg) then
      if py_eq (jget "v" msg) (JInt AGENT_PROTOCOL_VERSION) then Ok msg
      else Raise (ProtocolError VALIDATION_FAILED)
    else Raise (ProtocolError VALIDATION_FAILED)
  | _ => Raise (ProtocolError VALIDATION_FAILED)
  end.

(** ** Lemmas *)

Lemma class_plus_spec cls l :
  class_plus cls true l = true →
  ∃ t, t ≠ [] ∧ Forall (λ c, cls c = true) t ∧ (l = t ∨ l = t ++ [newline]).
Proof.
  assert (∀ first l, class_plus cls first l = true →
    ∃ t, (first = true → t ≠ []) ∧ Forall (λ c, cls c = true) t ∧ (l = t ∨ l = t ++ [newline])) as Hgen.
  { clear l. intros first l. revert first. induction l as [|c l IH]; intros first H.
    - destruct first; [done|]. exists []. auto.
    - destruct l as [|d l'].
      + simpl in H. apply orb_prop in H as [H|H].
        * exists [c]. split_and!; [done|by constructor|auto].
        * apply andb_prop in H as [Hf Hn]. apply bool_decide_eq_true in Hn as ->.
          exists []. split_and!; [by destruct first|constructor|by right].
      + change (cls c && class_plus cls false (d :: l') = true) in H. apply andb_prop in H as [Hc Hr].
        destruct (IH false Hr) as (t & _ & Ht & Heq). exists (c :: t).
        split_and!; [done|by constructor|]. destruct Heq as [-> | ->]; auto. }
  intros H. destruct (Hgen true l H) as (t & Hne & Ht & Heq). exists t. auto.
Qed.

(** A piece without a newline consists of class characters only. *)
Lemma class_plus_chars cls l :
  class_plus cls true l = true → newline ∉ l → l ≠ [] ∧ Forall (λ c, cls c = true) l.
Proof.
  intros (t & Hne & Ht & [-> | ->])%class_plus_spec Hn; [done|]. exfalso. apply Hn. set_solver.
Qed.

Lemma id_char_token c : id_char c = true → token_char c = true.
Proof.
  unfold id_char, token_char. intros [->|H]%orb_prop; [done|]. apply orb_true_intro. right. simpl in *.
  destruct (bool_decide (ascii_code c = 95)), (bool_decide (ascii_code c = 46)),
    (bool_decide (ascii_code c = 45)); simpl in *; rewrite ?orb_true_r; done.
Qed.

Lemma token_char_plain c : token_char c = true → c ≠ space ∧ c ≠ cr ∧ c ≠ newline.
Proof. intros H. split_and!; intros ->; vm_compute in H; discriminate. Qed.

(** Splitting at a character, as the firmware's shell does. *)
Fixpoint split_on (sep : ascii) (l : list ascii) : list (list ascii) :=
  match l with
  | [] => [[]]
  | c :: l' =>
    if decide (c = sep) then [] :: split_on sep l'
    else match split_on sep l' with w :: ws => (c :: w) :: ws | [] => [[c]] end
  end.

Lemma split_on_app w rest :
  space ∉ w → split_on space (w ++ space :: rest) = w :: split_on space rest.
Proof.
  induction w as [|c w IH]; intros Hw; simpl; [done|].
  rewrite decide_False by set_solver. by rewrite IH by set_solver.
Qed.

Lemma split_on_last w : space ∉ w → split_on space w = [w].
Proof.
  induction w as [|c w IH]; intros Hw; simpl; [done|].
  rewrite decide_False by set_solver. by rewrite IH by set_solver.
Qed.

Lemma split_join ws : ws ≠ [] → Forall (λ w, space ∉ w) ws → split_on space (join_words ws) = ws.
Proof.
  induction ws as [|w ws IH]; [done|]. intros _ [Hw Hws]%Forall_cons.
  destruct ws as [|w' ws']; [by apply split_on_last|].
  change (join_words (w :: w' :: ws')) with (w ++ space :: join_words (w' :: ws')).
  rewrite split_on_app by done. by rewrite IH.
Qed.

Lemma elem_of_join c ws : c ∈ join_words ws → c = space ∨ ∃ w, w ∈ ws ∧ c ∈ w.
Proof.
  induction ws as [|w ws IH]; [by intros H%not_elem_of_nil|]. destruct ws as [|w' ws'].
  - simpl. intros H. right. exists w. set_solver.
  - change (join_words (w :: w' :: ws')) with (w ++ space :: join_words (w' :: ws')).
    rewrite elem_of_app, elem_of_cons. intros [H|[->|H]]; [right; exists w; set_solver|by left|].
    destruct (IH H) as [?|(x & Hx & ?)]; [by left|]. right. exists x. set_solver.
Qed.

(** A word the firmware can take: token characters only. *)
Definition plain_word (w : list ascii) : Prop := Forall (λ c, token_char c = true) w.

Lemma plain_word_sep w c : plain_word w → c ∈ w → c ≠ space ∧ c ≠ cr ∧ c ≠ newline.
Proof. intros Hw Hc. apply token_char_plain. unfold plain_word in Hw. rewrite list.Forall_forall in Hw. auto. Qed.

Lemma id_plain s : MODULE_ID_RE s = true → newline ∉ chars s → plain_word (chars s).
Proof.
  intros [H _]%andb_prop Hn. apply class_plus_chars in H as [_ H]; [|done].
  eapply Forall_impl; [exact H|]. intros c. apply id_char_token.
Qed.

Lemma token_plain s : TOKEN_RE s = true → newline ∉ chars s → plain_word (chars s).
Proof. intros H Hn. by apply class_plus_chars in H as [_ H]. Qed.

Lemma op_plain op : op ∈ ["set"; "get"; "do"] → plain_word (chars op).
Proof.
  rewrite !elem_of_cons. intros [->|[->|[->|H%not_elem_of_nil]]]; [..|done];
    repeat constructor.
Qed.

(** The words of a command line survive it. *)
Lemma line_words ws :
  ws ≠ [] → Forall plain_word ws →
  newline ∉ join_words ws ∧ cr ∉ join_words ws ∧ split_on space (join_words ws) = ws.
Proof.
  intros Hne Hall. rewrite list.Forall_forall in Hall. split_and!.
  - intros [H|(w & Hw & Hc)]%elem_of_join; [done|]. destruct (plain_word_sep w newline) as (? & ? & ?); auto.
  - intros [H|(w & Hw & Hc)]%elem_of_join; [done|]. destruct (plain_word_sep w cr) as (? & ? & ?); auto.
  - apply split_join; [done|]. apply list.Forall_forall. intros w Hw Hs.
    destruct (plain_word_sep w space) as (? & ? & ?); auto.
Qed.

(** When no piece ends in a newline (Python's [$] lets one through), what the
    transport writes to a slot is one line of exactly the words
    [module <id> <op> <cap> [token]], the id, capability and token made of token
    characters. *)
Lemma command_is_one_line m c op token bytes :
  command_bytes m c op token = Some bytes →
  (∀ s, JStr s ∈ m :: c :: option_list token → newline ∉ chars s) →
  ∃ ms cs ts, m = JStr ms ∧ c = JStr cs ∧ token = JStr <$> ts ∧ op ∈ ["set"; "get"; "do"] ∧
  ∃ body, bytes = body ++ [cr; newline] ∧ newline ∉ body ∧ cr ∉ body ∧
    split_on space body = chars <$> ["module"; ms; op; cs] ++ option_list ts ∧
    Forall plain_word (chars <$> ["module"; ms; op; cs] ++ option_list ts).
Proof.
  intros Hb Hn. unfold command_bytes in Hb. destruct m as [| | | |ms| |]; try done.
  destruct c as [| | | |cs| |]; try done.
  destruct (MODULE_ID_RE ms && MODULE_ID_RE cs) eqn:Hid; [|done]. simpl in Hb.
  apply andb_prop in Hid as [Hms Hcs].
  destruct (bool_decide (op ∈ ["set"; "get"; "do"])) eqn:Hop; [|done]. apply bool_decide_eq_true in Hop.
  apply id_plain in Hms; [|apply Hn; set_solver]. apply id_plain in Hcs; [|apply Hn; set_solver].
  assert (plain_word (chars "module")) as Hmod by repeat constructor. apply op_plain in Hop as Hopw.
  assert (∃ ts, token = JStr <$> ts ∧ Forall plain_word (chars <$> option_list ts) ∧
    bytes = join_words (chars <$> ["module"; ms; op; cs] ++ option_list ts) ++ [cr; newline])
    as (ts & -> & Hts & ->).
  { destruct token as [[| | | |t| |]|]; simplify_eq/=; try done.
    - destruct (TOKEN_RE t) eqn:Ht; [|done]. simplify_eq/=. exists (Some t).
      split_and!; [done| |done]. constructor; [|constructor]. apply token_plain; [done|].
      apply Hn. set_solver.
    - exists None. split_and!; [done|constructor|done]. }
  exists ms, cs, ts. split_and!; try done.
  assert (Forall plain_word (chars <$> ["module"; ms; op; cs] ++ option_list ts)) as Hall.
  { rewrite fmap_app. apply Forall_app. split; [|done]. repeat constructor; done. }
  clear Hb. destruct (line_words (chars <$> ["module"; ms; op; cs] ++ option_list ts)) as (H1 & H2 & H3); [done|done|].
  eexists. split_and!; [reflexivity|done..].
Qed.

Lemma command_is_one_line_witness :
  ∃ bytes, command_bytes (JStr "fm") (JStr "volume") "set" (Some (JStr "5")) = Some bytes ∧
  ∃ ms cs ts, JStr "fm" = JStr ms ∧ JStr "volume" = JStr cs ∧ Some (JStr "5") = JStr <$> ts ∧
    "set" ∈ ["set"; "get"; "do"] ∧
  ∃ body, bytes = body ++ [cr; newline] ∧ newline ∉ body ∧ cr ∉ body ∧
    split_on space body = chars <$> ["module"; ms; "set"; cs] ++ option_list ts ∧
    Forall plain_word (chars <$> ["module"; ms; "set"; cs] ++ option_list ts).
Proof.
  eexists. split; [vm_compute; reflexivity|]. eapply command_is_one_line; [vm_compute; reflexivity|].
  intros s Hs. change (option_list (Some (JStr "5"))) with [JStr "5"] in Hs. rewrite !elem_of_cons in Hs.
  destruct Hs as [[= ->]|[[= ->]|[[= ->]|H%not_elem_of_nil]]]; [..|done];
    vm_compute; intros H; repeat (apply elem_of_cons in H as [H|H]; [discriminate|]);
    by apply not_elem_of_nil in H.
Defined.

(** The exception of the theorem is real: a token that ends in a newline passes. *)
Example newline_token_accepted :
  command_bytes (JStr "fm") (JStr "callsign") "set"
    (Some (JStr (String "A" (String newline EmptyString)))) =
  Some (chars "module fm set callsign A" ++ [newline; cr; newline]).
Proof. vm_compute. reflexivity. Qed.

(** A descriptor entry without top-level bounds: the firmware reports them under
    [ranges]. *)
Definition no_top_bounds (cap : Cap) : Prop :=
  num_of (jget "min" cap) = None ∧ num_of (jget "max" cap) = None.

Lemma in_range_unbounded cap x : no_top_bounds cap → bounds_ok cap x = true.
Proof. intros [Hlo Hhi]. unfold bounds_ok. by rewrite Hlo, Hhi. Qed.

Lemma jget_jlookup key fields : jget key fields = default JNull (jlookup key fields).
Proof. induction fields as [|[k v] fields IH]; simpl; [done|]. by case_decide. Qed.

Lemma check_enum_in cap v values :
  jget "type" cap = JStr "enum" → check_value cap v = Ok tt → jget "values" cap = JList values →
  existsb (λ x, py_eq x v) values = true.
Proof.
  intros Hty Hc Hv. unfold check_value in Hc. rewrite Hty in Hc.
  rewrite jget_jlookup in Hv. destruct (jlookup "values" cap) as [w|]; simpl in *; [|done].
  subst w. simpl in Hc. by destruct (existsb _ values).
Qed.

(** C38. The server stores and re-applies every value the agent accepts for a
    descriptor as the firmware reports it (bounds under [ranges]): its check is
    weaker than the agent's, and for numbers much weaker, since it never looks at
    [ranges] - any integer passes for an integer capability. *)
Theorem server_check_weaker cap v :
  no_top_bounds cap →
  (check_value cap v = Ok tt →
   (jget "type" cap = JStr "enum" → (∃ values, jget "values" cap = JList values) ∧ (is_str v || json_number v) = true) →
   value_fits cap v = true) ∧
  (jget "type" cap = JStr "int" → ∀ z, value_fits cap (JInt z) = true).
Proof.
  intros Hb. split.
  - intros Hc Hen. pose proof Hc as Hc'. unfold check_value in Hc. unfold value_fits.
    destruct (jget "type" cap) as [| | | |ty| |] eqn:Hty; try done.
    destruct (decide (ty = "bool")) as [->|]; [by destruct v|].
    destruct (decide (ty = "enum")) as [->|].
    { destruct (Hen eq_refl) as [[values Hv] Hs]. rewrite Hv, Hs. simpl. by eapply check_enum_in. }
    destruct (decide (ty = "string")) as [->|]; [by destruct v|].
    destruct (decide (ty = "int")) as [->|]; [destruct v; try done; by apply in_range_unbounded|].
    destruct (decide (ty = "float")) as [->|]; [destruct v; try done; by apply in_range_unbounded|].
    exfalso. clear -Hc n n0 n1 n2 n3. repeat case_match; subst; done.
  - intros Hty z. unfold value_fits. rewrite Hty. by apply in_range_unbounded.
Qed.

(** The volume of the tests' descriptor: 200 is stored although the agent's range is 1 to 8. *)
Lemma server_check_weaker_witness :
  let cap := [("name", JStr "volume"); ("kind", JStr "setting"); ("type", JStr "int");
              ("ranges", JList [JObj [("min", JInt 1); ("max", JInt 8)]])] in
  check_value cap (JInt 5) = Ok tt ∧ value_fits cap (JInt 5) = true ∧
  check_value cap (JInt 200) = Raise (ProtocolError OUT_OF_RANGE) ∧ value_fits cap (JInt 200) = true.
Proof.
  intros cap. destruct (server_check_weaker cap (JInt 5)) as [H1 H2]; [split; vm_compute; reflexivity|].
  split; [vm_compute; reflexivity|]. split.
  - apply H1; [vm_compute; reflexivity|]. intros H. discriminate H.
  - split; [vm_compute; reflexivity|]. apply H2. reflexivity.
Defined.
