(* ===== verification/Registry.v ===== *)
(** * The control panel's module registry and persisted calibration

    Models [apps/control/registry.py] (the [StationModule] table: inventory
    snapshots, carry-over of settings on a re-plug, stale entries, offline and
    flashing marks), [apps/control/persistence.py] (values that survive a module
    reboot, re-applied on drift) and [apps/control/agent_presence.py] (which agent
    socket is the current one).

    A snapshot calls [ingest_module] and [reconcile_station] of [ModuleIngest] on the
    firmware tables; the whole snapshot is one transaction.  Slots are strings
    ([str(slot)]); [timezone.now()] is one instant per request.  Descriptor entries
    are objects ([is_setting_cap] raises on anything else).  A JSON object used as
    settings is a finite map.  Audit entries are the constructors of [PanelLog]. *)

From Stdlib Require Import ZArith Lia.
From stdpp Require Import base gmap list sorting strings pretty.
From S2P Require Import Prelude Json Permissions ControlLock Audio FirmwareModel FirmwareApi MediaCodec Mcuboot ModuleIngest Capabilities.

Local Open Scope Z_scope.

(** ** Data *)

Notation Settings := (gmap string Json).

Record StationModule := mkSM {
  sm_pk : Z;
  sm_station : Z;
  sm_slot : string;
  sm_module_id : string;
  sm_type : string;
  sm_model : string;
  sm_version : string;
  sm_tracked : option Z;
  sm_desc : list Cap;
  sm_state : Settings;
  sm_online : bool;
  sm_last_seen : option Z;
  sm_offline_with_station : bool;
  sm_updating : bool;
  sm_updated_at : Z
}.

Definition row_key (r : StationModule) : string * string := (sm_slot r, sm_module_id r).

Record PersistedCapability := mkPC {
  pc_pk : Z;
  pc_station : Z;
  pc_slot : string;
  pc_module_id : string;
  pc_capability : string;
  pc_value : Json;
  pc_updated_by : option Z
}.

Definition pc_key (r : PersistedCapability) : string * string := (pc_slot r, pc_module_id r).

Inductive PanelLog :=
| PL_moved (module : Z) (src : string * string) (dest_slot : string) (removed : list (string * string))
| PL_stale (module : Z) (removed : list (string * string)) (dest_slot : string)
| PL_pruned (slot module_id : string).

Record RegDb := mkRegDb {
  rg_fw : FwDb;
  rg_modules : list StationModule;
  rg_calib : list PersistedCapability;
  rg_log : list PanelLog
}.

Definition with_fw (v : FwDb) (db : RegDb) : RegDb := mkRegDb v (rg_modules db) (rg_calib db) (rg_log db).
Definition with_sm (v : list StationModule) (db : RegDb) : RegDb := mkRegDb (rg_fw db) v (rg_calib db) (rg_log db).
Definition with_calib (v : list PersistedCapability) (db : RegDb) : RegDb :=
  mkRegDb (rg_fw db) (rg_modules db) v (rg_log db).
Definition panel_log (e : PanelLog) (db : RegDb) : RegDb :=
  mkRegDb (rg_fw db) (rg_modules db) (rg_calib db) (rg_log db ++ [e]).

(** One module of a slot of the snapshot ([mod]); [None] for a missing [module]. *)
Record ModEntry := mkModEntry {
  me_module : option string;
  me_status : string;
  me_identity : Identity;
  me_model : string;
  me_capabilities : list Cap;
  me_state : Settings
}.

Record SlotEntry := mkSlotEntry { se_slot : option string; se_modules : list ModEntry }.

Definition MODULE_STATUS_UPDATING : string := "updating".

(** ** Row updates *)

Definition set_tracked (t : option Z) (r : StationModule) : StationModule :=
  mkSM (sm_pk r) (sm_station r) (sm_slot r) (sm_module_id r) (sm_type r) (sm_model r) (sm_version r) t
    (sm_desc r) (sm_state r) (sm_online r) (sm_last_seen r) (sm_offline_with_station r) (sm_updating r)
    (sm_updated_at r).

Definition set_last_state (s : Settings) (now : Z) (r : StationModule) : StationModule :=
  mkSM (sm_pk r) (sm_station r) (sm_slot r) (sm_module_id r) (sm_type r) (sm_model r) (sm_version r)
    (sm_tracked r) (sm_desc r) s (sm_online r) (sm_last_seen r) (sm_offline_with_station r) (sm_updating r) now.

(** [online], [last_seen], [offline_with_station], [firmware_updating]. *)
Definition set_presence (online : bool) (seen : option Z) (ows updating : bool) (r : StationModule) : StationModule :=
  mkSM (sm_pk r) (sm_station r) (sm_slot r) (sm_module_id r) (sm_type r) (sm_model r) (sm_version r)
    (sm_tracked r) (sm_desc r) (sm_state r) online seen ows updating (sm_updated_at r).

Definition touch_row (now : Z) (r : StationModule) : StationModule :=
  mkSM (sm_pk r) (sm_station r) (sm_slot r) (sm_module_id r) (sm_type r) (sm_model r) (sm_version r)
    (sm_tracked r) (sm_desc r) (sm_state r) (sm_online r) (sm_last_seen r) (sm_offline_with_station r)
    (sm_updating r) now.

Definition is_row (station : Z) (slot mid : string) (r : StationModule) : Prop :=
  sm_station r = station ∧ sm_slot r = slot ∧ sm_module_id r = mid.

#[export] Instance is_row_dec station slot mid r : Decision (is_row station slot mid r).
Proof. unfold is_row. apply _. Defined.

Definition find_row (station : Z) (slot mid : string) (db : RegDb) : option StationModule :=
  head (filter (is_row station slot mid) (rg_modules db)).

Definition update_row (pk : Z) (f : StationModule → StationModule) (db : RegDb) : RegDb :=
  with_sm (update_where (λ r, sm_pk r = pk) f (rg_modules db)) db.

(** [update_or_create]: the table and the row. *)
Definition update_or_create (station : Z) (slot mid : string) (upd : StationModule → StationModule)
    (create : Z → StationModule) (db : RegDb) : RegDb * StationModule :=
  match find_row station slot mid db with
  | Some r => (update_row (sm_pk r) upd db, upd r)
  | None => let r := create (next_pk (sm_pk <$> rg_modules db)) in (with_sm (rg_modules db ++ [r]) db, r)
  end.

(** The reported settings: setting capabilities only. *)
Definition filter_settings (desc : list Cap) (raw : Settings) : Settings :=
  filter (λ kv, is_setting_cap desc kv.1 = true) raw.

(** ** One entry of the snapshot *)

(** [_apply_updating_entry] *)
Definition apply_updating_entry (station : Z) (slot mid : string) (e : ModEntry) (now : Z) (db : RegDb) : RegDb :=
  (update_or_create station slot mid
     (λ r, touch_row now (set_presence true (Some now) false true r))
     (λ pk, mkSM pk station slot mid (id_type (me_identity e)) (me_model e) (id_version (me_identity e)) None
        (me_capabilities e) (filter_settings (me_capabilities e) (me_state e)) true (Some now) false true now)
     db).1.

(** The row of a reported module: every reported column is overwritten. *)
Definition reported_row (station : Z) (slot mid : string) (e : ModEntry) (now : Z) (pk : Z) (tracked : option Z)
    : StationModule :=
  mkSM pk station slot mid (id_type (me_identity e)) (me_model e) (id_version (me_identity e)) tracked
    (me_capabilities e) (filter_settings (me_capabilities e) (me_state e)) true (Some now) false false now.

Definition upsert_reported (station : Z) (slot mid : string) (e : ModEntry) (now : Z) (db : RegDb)
    : RegDb * StationModule :=
  update_or_create station slot mid
    (λ r, reported_row station slot mid e now (sm_pk r) (sm_tracked r))
    (λ pk, reported_row station slot mid e now pk None) db.

Definition came_online (station : Z) (slot mid : string) (db : RegDb) : bool :=
  negb (existsb (λ r, bool_decide (is_row station slot mid r) && sm_online r) (rg_modules db)).

(** The loop's variables. *)
Record Snap := mkSnap {
  sn_db : RegDb;
  sn_reported : list (string * string);
  sn_rows : list (StationModule * Z);
  sn_tracked : list string;
  sn_uids : gmap string string
}.

(** A rejected entry keeps its link only when it reports the linked module's uid. *)
Definition keep_link (uid : string) (sm : StationModule) (fw : FwDb) : bool :=
  match sm_tracked sm with
  | Some pk =>
    match find_module pk fw with
    | Some m => bool_decide (uid ≠ "" ∧ uid = mo_uid m)
    | None => false
    end
  | None => false
  end.

Section snapshot.
Local Open Scope outcome_scope.
Variables (types : list ModuleType_) (station now : Z).

Definition apply_reported (slot mid : string) (e : ModEntry) (s : Snap) : outcome IngestError Snap :=
  let uid := id_uid (me_identity e) in
  let uids := if decide (uid = "") then sn_uids s else <[slot := uid]> (sn_uids s) in
  let online := came_online station slot mid (sn_db s) in
  let '(db1, sm) := upsert_reported station slot mid e now (sn_db s) in
  let! r := ingest_module types station slot mid (me_identity e) now online (rg_fw db1) in
  let '(fw, tracked) := r in
  let db2 := with_fw fw db1 in
  let reported := sn_reported s ++ [(slot, mid)] in
  match tracked with
  | Some pk =>
    let db3 := if decide (sm_tracked sm = Some pk) then db2
               else update_row (sm_pk sm) (set_tracked (Some pk)) db2 in
    Ok (mkSnap db3 reported (sn_rows s ++ [(set_tracked (Some pk) sm, pk)]) (slot :: sn_tracked s) uids)
  | None =>
    let db3 := if keep_link uid sm fw then db2
               else update_row (sm_pk sm) (set_tracked None) db2 in
    Ok (mkSnap db3 reported (sn_rows s) (sn_tracked s) uids)
  end.

Definition apply_entry (slot : option string) (s : Snap) (e : ModEntry) : outcome IngestError Snap :=
  match slot, me_module e with
  | Some slot, Some mid =>
    if decide (me_status e = MODULE_STATUS_UPDATING) then
      Ok (mkSnap (apply_updating_entry station slot mid e now (sn_db s)) (sn_reported s ++ [(slot, mid)])
            (sn_rows s) (slot :: sn_tracked s) (sn_uids s))
    else apply_reported slot mid e s
  | _, _ => Ok s
  end.

Definition apply_slot (s : Snap) (se : SlotEntry) : outcome IngestError Snap :=
  ofold (apply_entry (se_slot se)) s (se_modules se).

End snapshot.

(** ** Rows no longer reported *)

Definition soft_offline (station now : Z) (reported : list (string * string)) (db : RegDb) : RegDb :=
  with_sm (update_where (λ r, sm_station r = station ∧ sm_online r = true ∧ row_key r ∉ reported)
    (λ r, set_presence false (Some now) (sm_offline_with_station r) false r) (rg_modules db)) db.

(** The outage of the station does not count towards the TTL. *)
Definition restart_ttl (station now : Z) (db : RegDb) : RegDb :=
  with_sm (update_where (λ r, sm_station r = station ∧ sm_offline_with_station r = true)
    (λ r, set_presence (sm_online r) (Some now) false (sm_updating r) r) (rg_modules db)) db.

Definition DEFAULT_STALE_MODULE_TTL_SECONDS : Z := 48 * 3600.

Definition expired (station now ttl : Z) (r : StationModule) : Prop :=
  sm_station r = station ∧ sm_online r = false ∧ sm_updating r = false ∧
  match sm_last_seen r with Some t => t < now - ttl | None => sm_updated_at r < now - ttl end.

#[export] Instance expired_dec station now ttl r : Decision (expired station now ttl r).
Proof. unfold expired. destruct (sm_last_seen r); apply _. Defined.

(** [_prune_expired]; [ttl] is the setting. *)
Definition prune_expired (station now ttl : Z) (db : RegDb) : RegDb :=
  let old := filter (expired station now ttl) (rg_modules db) in
  let db1 := with_sm (delete_where (λ r, sm_pk r ∈ sm_pk <$> old) (rg_modules db)) db in
  foldl (λ db r, panel_log (PL_pruned (sm_slot r) (sm_module_id r)) db) db1 old.

(** ** Re-plug *)

(** Where each tracked module sat before the snapshot: its latest row, all its keys. *)
Definition Before := gmap Z (((string * string) * Settings) * list (string * string)).

Definition seen_key (t : option Z) : Z * Z := match t with None => (0, 0) | Some t => (1, t) end.

(** [order_by(last_seen nulls first, updated_at, pk)] *)
Definition before_le (a b : StationModule) : Prop :=
  let x := seen_key (sm_last_seen a) in let y := seen_key (sm_last_seen b) in
  x.1 < y.1 ∨ (x.1 = y.1 ∧ (x.2 < y.2 ∨ (x.2 = y.2 ∧
    (sm_updated_at a < sm_updated_at b ∨ (sm_updated_at a = sm_updated_at b ∧ sm_pk a ≤ sm_pk b))))).

#[export] Instance before_le_dec : RelDecision before_le.
Proof. intros a b. unfold before_le. apply _. Defined.

#[export] Instance before_le_total : Total before_le.
Proof. intros a b. unfold before_le. lia. Qed.

#[export] Instance before_le_trans : Transitive before_le.
Proof. intros a b c. unfold before_le. lia. Qed.

Definition before_step (b : Before) (r : StationModule) : Before :=
  match sm_tracked r with
  | None => b
  | Some t =>
    let keys := match b !! t with Some (_, ks) => ks | None => [] end in
    <[t := ((row_key r, sm_state r), keys ++ [row_key r])]> b
  end.

Definition before_of (station : Z) (db : RegDb) : Before :=
  foldl before_step ∅
    (merge_sort before_le (filter (λ r, sm_station r = station ∧ is_Some (sm_tracked r)) (rg_modules db))).

Record Move := mkMove {
  mv_row : StationModule;
  mv_tracked : Z;
  mv_src : string * string;
  mv_dest : string * string;
  mv_prev : Settings
}.

Definition count_tracked (t : Z) (rows : list (StationModule * Z)) : nat :=
  length (filter (λ p, p.2 = t) rows).

Definition flashing_rows (station : Z) (db : RegDb) : list StationModule :=
  filter (λ r, sm_station r = station ∧ sm_updating r = true) (rg_modules db).

Definition flashing_module (station : Z) (db : RegDb) (t : Z) : bool :=
  existsb (λ r, bool_decide (sm_tracked r = Some t)) (flashing_rows station db).

Definition move_of (station : Z) (db : RegDb) (rows : list (StationModule * Z)) (before : Before)
    (p : StationModule * Z) : option Move :=
  let '(sm, t) := p in
  match before !! t with
  | None => None
  | Some ((src, prev), keys) =>
    if decide (count_tracked t rows ≠ 1%nat) then None
    else if flashing_module station db t then None
    else if bool_decide (src ∈ row_key <$> flashing_rows station db) then None
    else if bool_decide (row_key sm ∈ keys) then None
    else Some (mkMove sm t src (row_key sm) prev)
  end.

Definition moves_of (station : Z) (db : RegDb) (rows : list (StationModule * Z)) (before : Before) : list Move :=
  omap (move_of station db rows before) rows.

Definition calib_at (station : Z) (key : string * string) (rows : list PersistedCapability)
    : list PersistedCapability :=
  filter (λ r, pc_station r = station ∧ pc_key r = key) rows.

(** The settings that follow the module: not the calibrated ones (the re-apply
    restores those), and the freshly reported value wins. *)
Definition merged_state (station : Z) (calib : list PersistedCapability) (m : Move) : Settings :=
  let persisted := pc_capability <$> calib_at station (mv_src m) calib in
  sm_state (mv_row m) ∪
  filter (λ kv, kv.1 ∉ persisted ∧ is_setting_cap (sm_desc (mv_row m)) kv.1 = true) (mv_prev m).

(** The unique constraint of [PersistedCapability]. *)
Definition pc_conflict (a b : PersistedCapability) : bool :=
  bool_decide (pc_station a = pc_station b ∧ pc_key a = pc_key b ∧ pc_capability a = pc_capability b).

(** [bulk_create]: fresh keys, in order. *)
Fixpoint insert_calib (new rows : list PersistedCapability) : outcome IngestError (list PersistedCapability) :=
  match new with
  | [] => Ok rows
  | r :: new' =>
    if existsb (pc_conflict r) rows then Raise IntegrityError
    else insert_calib new' (rows ++ [mkPC (next_pk (pc_pk <$> rows)) (pc_station r) (pc_slot r) (pc_module_id r)
                                      (pc_capability r) (pc_value r) (pc_updated_by r)])
  end.

Definition moved_calib (station : Z) (calib : list PersistedCapability) (m : Move) : list PersistedCapability :=
  (λ r, mkPC 0 station (mv_dest m).1 (mv_dest m).2 (pc_capability r) (pc_value r) (pc_updated_by r)) <$>
  calib_at station (mv_src m) calib.

(** [_move_settings]; the merged settings extend the reported ones, so they differ
    exactly when a name is new. *)
Definition move_settings (station now : Z) (moves : list Move) (db : RegDb) : outcome IngestError RegDb :=
  let calib := rg_calib db in
  let involved := (mv_src <$> moves) ++ (mv_dest <$> moves) in
  let kept := delete_where (λ r, pc_station r = station ∧ pc_key r ∈ involved) calib in
  match insert_calib (moves ≫= moved_calib station calib) kept with
  | Raise e => Raise e
  | Ok calib' =>
    Ok (foldl (λ db m,
          let merged := merged_state station calib m in
          if decide (dom merged = dom (sm_state (mv_row m))) then db
          else update_row (sm_pk (mv_row m)) (set_last_state merged now) db)
        (with_calib calib' db) moves)
  end.

(** The stale cards of a module reported once elsewhere. *)
Definition stale_rows (station : Z) (reported_pks : list Z) (t : Z) (db : RegDb) : list StationModule :=
  filter (λ r, sm_station r = station ∧ sm_tracked r = Some t ∧ sm_pk r ∉ reported_pks ∧ sm_updating r = false)
    (rg_modules db).

Definition single (station : Z) (db : RegDb) (rows : list (StationModule * Z)) : list (StationModule * Z) :=
  filter (λ p, count_tracked p.2 rows = 1%nat ∧ flashing_module station db p.2 = false) rows.

Definition drop_stale (stale_by : Z → list StationModule) (moved_from : Z → option (string * string))
    (db : RegDb) (p : StationModule * Z) : RegDb :=
  let '(sm, t) := p in
  let stale := stale_by t in
  let removed := row_key <$> stale in
  match removed, moved_from t with
  | [], None => db
  | _, src =>
    let db1 := with_sm (delete_where (λ r, sm_pk r ∈ sm_pk <$> stale) (rg_modules db)) db in
    panel_log (match src with
               | Some src => PL_moved t src (sm_slot sm) removed
               | None => PL_stale t removed (sm_slot sm)
               end) db1
  end.

(** [_carry_over_moved] *)
Definition carry_over_moved (station now : Z) (rows : list (StationModule * Z)) (before : Before) (db : RegDb)
    : outcome IngestError RegDb :=
  let reported_pks := sm_pk ∘ fst <$> rows in
  let moves := moves_of station db rows before in
  let moved_from t := mv_src <$> head (filter (λ m, mv_tracked m = t) moves) in
  let singles := single station db rows in
  match (match moves with [] => Ok db | _ => move_settings station now moves db end) with
  | Raise e => Raise e
  | Ok db1 =>
    let stale_by t := stale_rows station reported_pks t db1 in
    Ok (foldl (drop_stale stale_by moved_from) db1 singles)
  end.

(** ** The snapshot *)

Definition apply_inventory (types : list ModuleType_) (station now ttl : Z) (slots : list SlotEntry) (db : RegDb)
    : outcome IngestError RegDb :=
  let before := before_of station db in
  match ofold (apply_slot types station now) (mkSnap db [] [] [] ∅) slots with
  | Raise e => Raise e
  | Ok s =>
    let db1 := soft_offline station now (sn_reported s) (sn_db s) in
    match slots with
    | [] => Ok db1
    | _ =>
      let db2 := restart_ttl station now db1 in
      match carry_over_moved station now (sn_rows s) before db2 with
      | Raise e => Raise e
      | Ok db3 =>
        let db4 := prune_expired station now ttl db3 in
        Ok (with_fw (reconcile_station now station (sn_tracked s) (sn_uids s) (rg_fw db4)) db4)
      end
    end
  end.

(** ** Other operations *)

(** [apply_state]: only setting capabilities reach [last_state]. *)
Definition apply_state (station : Z) (slot mid : string) (values : Settings) (now : Z) (db : RegDb) : RegDb :=
  match find_row station slot mid db with
  | None => db
  | Some r =>
    let settings := filter_settings (sm_desc r) values in
    if decide (dom settings = ∅) then db
    else update_row (sm_pk r) (set_last_state (settings ∪ sm_state r) now) db
  end.

Definition FIRMWARE_RESULT_NOT_FLASHED : string := "failed".

Definition set_firmware_updating (station : Z) (slot mid : option string) (value : bool) (result : option string)
    (now : Z) (db : RegDb) : RegDb :=
  match slot, mid with
  | Some slot, Some mid =>
    let upd P `{∀ r, Decision (P r)} f db :=
      with_sm (update_where (λ r, is_row station slot mid r ∧ P r) f (rg_modules db)) db in
    let flag v r := set_presence (sm_online r) (sm_last_seen r) (sm_offline_with_station r) v r in
    if value then upd (λ _, True) (flag true) db
    else
      let db1 :=
        if decide (result = Some FIRMWARE_RESULT_NOT_FLASHED) then db
        else upd (λ r, sm_updating r = true)
               (λ r, set_presence false (Some now) (sm_offline_with_station r) false r) db in
      upd (λ _, True) (flag false) db1
  | _, _ => db
  end.

Definition mark_station_offline (station now : Z) (db : RegDb) : RegDb :=
  let db1 := with_sm (update_where (λ r, sm_station r = station ∧ sm_online r = true)
    (λ r, set_presence false (Some now) true false r) (rg_modules db)) db in
  with_sm (update_where (λ r, sm_station r = station ∧ sm_updating r = true)
    (λ r, set_presence (sm_online r) (Some now) (sm_offline_with_station r) false r) (rg_modules db1)) db1.

(** ** Persisted calibration ([persistence.py]) *)

(** [save] (an upsert) *)
Definition save (station : Z) (slot mid cap : string) (value : Json) (user : option Z) (db : RegDb) : RegDb :=
  let P r := pc_station r = station ∧ pc_key r = (slot, mid) ∧ pc_capability r = cap in
  match head (filter P (rg_calib db)) with
  | Some r =>
    with_calib (update_where (λ x, pc_pk x = pc_pk r)
      (λ x, mkPC (pc_pk x) station slot mid cap value user) (rg_calib db)) db
  | None =>
    with_calib (rg_calib db ++ [mkPC (next_pk (pc_pk <$> rg_calib db)) station slot mid cap value user]) db
  end.

Definition persist_if_valid (station : Z) (slot : string) (module_id capability value : Json) (user : option Z)
    (db : RegDb) : RegDb * bool :=
  match capability, module_id with
  | JStr cap, JStr mid =>
    match find_row station slot mid db with
    | None => (db, false)
    | Some sm =>
      if negb (pol_persist (policy_for POLICY (JStr cap) (JStr (sm_type sm)))) then (db, false)
      else
        match settable_cap (JList (JObj <$> sm_desc sm)) cap with
        | None => (db, false)
        | Some c => if value_fits c value then (save station slot mid cap value user db, true) else (db, false)
        end
    end
  | _, _ => (db, false)
  end.

(** [_same]: [==], but a [bool] only equals a [bool]. *)
Definition same (a b : Json) : bool := py_eq a b && bool_decide (is_bool a = is_bool b).

(** A [set] frame; the request id carries the row's key. *)
Record SetFrame := mkSetFrame {
  sf_row : Z;
  sf_slot : Json;
  sf_module : string;
  sf_capability : string;
  sf_value : Json
}.

(** [str(slot)] of a slot that is a string or an integer. *)
Definition slot_str (slot : Json) : option string :=
  match slot with JStr s => Some s | JInt z => Some (pretty z) | _ => None end.

Definition obj_or_empty (v : Json) : list (string * Json) := match v with JObj l => l | _ => [] end.

(** Does the inventory entry disagree with the persisted row? *)
Definition reapply_row (mod_ : list (string * Json)) (slot : Json) (mid : string) (r : PersistedCapability)
    : option SetFrame :=
  let module_type := jget "type" (obj_or_empty (jget "identity" mod_)) in
  let state := obj_or_empty (jget "state" mod_) in
  if negb (pol_persist (policy_for POLICY (JStr (pc_capability r)) module_type)) then None
  else
    match settable_cap (jget "capabilities" mod_) (pc_capability r) with
    | None => None
    | Some c =>
      if negb (value_fits c (pc_value r)) then None
      else
        match jlookup (pc_capability r) state with
        | Some v =>
          if same v (pc_value r) then None
          else Some (mkSetFrame (pc_pk r) slot mid (pc_capability r) (pc_value r))
        | None => Some (mkSetFrame (pc_pk r) slot mid (pc_capability r) (pc_value r))
        end
    end.

Definition module_frames (station : Z) (calib : list PersistedCapability) (slot : Json) (s : string) (m : Json)
    : list SetFrame :=
  match m with
  | JObj mod_ =>
    match jget "module" mod_ with
    | JStr mid =>
      if py_eq (jget "status" mod_) (JStr "updating") ||
         match jget "updating" mod_ with JBool true => true | _ => false end then []
      else omap (reapply_row mod_ slot mid) (calib_at station (s, mid) calib)
    | _ => []
    end
  | _ => []
  end.

Definition slot_frames (station : Z) (calib : list PersistedCapability) (e : Json) : list SetFrame :=
  match e with
  | JObj entry =>
    match jget "modules" entry with
    | JList mods =>
      match slot_str (jget "slot" entry) with
      | None => []
      | Some s => mods ≫= module_frames station calib (jget "slot" entry) s
      end
    | _ => []
    end
  | _ => []
  end.

Definition reapply_frames (station : Z) (slots : Json) (db : RegDb) : list SetFrame :=
  match slots with
  | JList l => l ≫= slot_frames station (rg_calib db)
  | _ => []
  end.

(** ** The current agent socket ([agent_presence.py]) *)

Inductive AgentKind := K_CONTROL | K_AUDIO | K_TERMINAL.

#[export] Instance AgentKind_eq_dec : EqDecision AgentKind.
Proof. solve_decision. Defined.

#[export] Instance AgentKind_countable : Countable AgentKind.
Proof.
  refine (inj_countable' (λ k, match k with K_CONTROL => 0%nat | K_AUDIO => 1%nat | K_TERMINAL => 2%nat end)
    (λ n, match n with 0%nat => K_CONTROL | 1%nat => K_AUDIO | _ => K_TERMINAL end) _).
  by intros [].
Defined.

(** The table, unique per (station, kind). *)
Notation Presence := (gmap (Z * AgentKind) string).

Definition claim (station : Z) (kind : AgentKind) (channel : string) (p : Presence) : Presence * bool :=
  (<[(station, kind) := channel]> p,
   match p !! (station, kind) with Some c => bool_decide (c ≠ channel) | None => false end).

Definition presence_release (station : Z) (kind : AgentKind) (channel : string) (p : Presence) : Presence * bool :=
  if decide (p !! (station, kind) = Some channel) then (delete (station, kind) p, true) else (p, false).

(** ** Re-plug: calibration follows the module *)

(** The calibration of a (slot, module) key: capability, value, author. *)
Definition calibration (station : Z) (key : string * string) (rows : list PersistedCapability)
    : list (string * Json * option Z) :=
  (λ r, (pc_capability r, pc_value r, pc_updated_by r)) <$> calib_at station key rows.

(** The columns without the primary key. *)
Definition body (r : PersistedCapability) : (Z * (string * string)) * (string * Json * option Z) :=
  ((pc_station r, pc_key r), (pc_capability r, pc_value r, pc_updated_by r)).

(** The columns of the unique constraint. *)
Definition ck (r : PersistedCapability) : (Z * (string * string)) * string :=
  ((pc_station r, pc_key r), pc_capability r).

Lemma pc_conflict_ck a b : pc_conflict a b = true ↔ ck a = ck b.
Proof. unfold pc_conflict, ck. rewrite bool_decide_eq_true. split; [intros (-> & -> & ->); done|]. intros [= H1 H2 H3 H4]. unfold pc_key. split_and!; congruence. Qed.

Lemma calibration_body s k rows :
  calibration s k rows = snd <$> filter (λ b, b.1 = (s, k)) (body <$> rows).
Proof.
  unfold calibration, calib_at. induction rows as [|r rows IH]; [done|].
  rewrite fmap_cons, !filter_cons. simpl (body r).1.
  destruct (decide (pc_station r = s ∧ pc_key r = k)) as [[<- <-]|Hn].
  - rewrite decide_True by done. rewrite !fmap_cons. f_equal. exact IH.
  - rewrite decide_False; [exact IH|]. intros Heq. apply Hn. split; congruence.
Qed.

Lemma insert_calib_ok new : ∀ rows,
  NoDup (ck <$> rows ++ new) →
  ∃ rows', insert_calib new rows = Ok rows' ∧ body <$> rows' = body <$> rows ++ new.
Proof.
  induction new as [|r new IH]; intros rows Hnd; simpl.
  { exists rows. by rewrite app_nil_r. }
  destruct (existsb (pc_conflict r) rows) eqn:Hex.
  { exfalso. apply existsb_exists in Hex as (x & Hx & Hc). apply pc_conflict_ck in Hc.
    rewrite fmap_app, fmap_cons in Hnd. apply list.NoDup_app in Hnd as (_ & Hd & _).
    apply (Hd (ck x)); [apply list_elem_of_fmap_2; by apply list_elem_of_In|]. rewrite <-Hc. set_solver. }
  set (r' := mkPC _ _ _ _ _ _ _). assert (body r' = body r) as Hr' by done.
  assert (ck r' = ck r) as Hck by done.
  destruct (IH (rows ++ [r'])) as (rows' & Hrun & Hb).
  { rewrite <-app_assoc. simpl. rewrite fmap_app, fmap_cons, Hck in *. done. }
  exists rows'. split; [done|]. rewrite Hb, <-app_assoc. simpl. by rewrite !fmap_app, !fmap_cons, Hr'.
Qed.

Section moves.
Variables (station : Z) (calib : list PersistedCapability).

Definition moved_flat (moves : list Move) : list PersistedCapability := moves ≫= moved_calib station calib.

Lemma moved_body m :
  body <$> moved_calib station calib m = (λ v, ((station, mv_dest m), v)) <$> calibration station (mv_src m) calib.
Proof.
  unfold moved_calib, calibration. rewrite <-!list_fmap_compose. apply list_fmap_ext. intros i r _. simpl.
  unfold body, pc_key. simpl. by destruct (mv_dest m).
Qed.

Lemma filter_moved m s k :
  filter (λ b, b.1 = (s, k)) (body <$> moved_calib station calib m) =
  if decide (s = station ∧ k = mv_dest m) then body <$> moved_calib station calib m else [].
Proof.
  rewrite moved_body. induction (calibration station (mv_src m) calib) as [|v l IH]; simpl.
  - by case_decide.
  - rewrite filter_cons. simpl. destruct (decide (s = station ∧ k = mv_dest m)) as [[-> ->]|Hn].
    + rewrite decide_True by done. by f_equal.
    + rewrite decide_False; [done|]. intros Heq. apply Hn. split; congruence.
Qed.

Lemma flat_none moves s k :
  s ≠ station ∨ k ∉ mv_dest <$> moves → filter (λ b, b.1 = (s, k)) (body <$> moved_flat moves) = [].
Proof.
  intros Hk. unfold moved_flat. induction moves as [|m moves IH]; [done|].
  rewrite fmap_cons, not_elem_of_cons in Hk.
  rewrite bind_cons, fmap_app, filter_app, filter_moved. rewrite decide_False by tauto. simpl. apply IH. tauto.
Qed.

Lemma flat_at moves m :
  NoDup (mv_dest <$> moves) → m ∈ moves →
  snd <$> filter (λ b, b.1 = (station, mv_dest m)) (body <$> moved_flat moves) =
  calibration station (mv_src m) calib.
Proof.
  unfold moved_flat. induction moves as [|x moves IH]; [by intros _ H%not_elem_of_nil|].
  rewrite fmap_cons, list.NoDup_cons. intros [Hx Hnd] Hm.
  rewrite bind_cons, fmap_app, filter_app, fmap_app, filter_moved.
  apply elem_of_cons in Hm as [->|Hm].
  - rewrite decide_True by done. fold (moved_flat moves).
    rewrite flat_none by (by right). rewrite app_nil_r, moved_body, <-list_fmap_compose.
    rewrite <-(list_fmap_id (calibration _ _ _)) at 2. by apply list_fmap_ext.
  - rewrite decide_False; [simpl; by apply IH|]. intros [_ Heq]. apply Hx. rewrite <-Heq.
    by apply list_elem_of_fmap_2.
Qed.

Lemma calib_at_caps k : NoDup (ck <$> calib) → NoDup (pc_capability <$> calib_at station k calib).
Proof.
  intros Hnd. apply (NoDup_fmap_1 (λ c, ((station, k), c))).
  rewrite <-list_fmap_compose.
  assert ((λ c, ((station, k), c)) ∘ pc_capability <$> calib_at station k calib = ck <$> calib_at station k calib) as ->.
  { apply list_fmap_ext. intros i r Hi. apply list_elem_of_lookup_2 in Hi.
    unfold calib_at in Hi. apply list_elem_of_filter in Hi as [[<- <-] _]. done. }
  eapply sublist_NoDup; [exact Hnd|]. apply fmap_sublist, sublist_filter.
Qed.

Lemma moved_ck m x : x ∈ ck <$> moved_calib station calib m → x.1 = (station, mv_dest m).
Proof.
  intros (r & -> & Hr)%list_elem_of_fmap. unfold moved_calib in Hr.
  apply list_elem_of_fmap in Hr as (y & -> & _). simpl. by destruct (mv_dest m).
Qed.

Lemma flat_NoDup moves :
  NoDup (ck <$> calib) → NoDup (mv_dest <$> moves) → NoDup (ck <$> moved_flat moves).
Proof.
  intros Hc. unfold moved_flat. induction moves as [|m moves IH]; [intros; apply NoDup_nil_2|].
  rewrite fmap_cons, list.NoDup_cons. intros [Hm Hnd]. rewrite bind_cons, fmap_app.
  apply list.NoDup_app. split_and!; [| |auto].
  - unfold moved_calib. rewrite <-list_fmap_compose.
    assert (ck ∘ (λ r, mkPC 0 station (mv_dest m).1 (mv_dest m).2 (pc_capability r) (pc_value r) (pc_updated_by r))
      <$> calib_at station (mv_src m) calib =
      (λ c, ((station, mv_dest m), c)) <$> (pc_capability <$> calib_at station (mv_src m) calib)) as ->.
    { rewrite <-list_fmap_compose. apply list_fmap_ext. intros i r _. simpl. by destruct (mv_dest m). }
    apply NoDup_fmap_2; [intros ?? H; by injection H|]. by apply calib_at_caps.
  - intros x Hx%moved_ck (r & -> & Hr)%list_elem_of_fmap.
    apply list_elem_of_bind in Hr as (y & Hr & Hy). apply (list_elem_of_fmap_2 ck) in Hr.
    apply moved_ck in Hr. apply Hm. rewrite Hr in Hx. injection Hx as <-. by apply list_elem_of_fmap_2.
Qed.

End moves.

Lemma filter_kept station (keys : list (string * string)) s k rows :
  filter (λ b, b.1 = (s, k)) (body <$> delete_where (λ r, pc_station r = station ∧ pc_key r ∈ keys) rows) =
  if decide (s = station ∧ k ∈ keys) then [] else filter (λ b, b.1 = (s, k)) (body <$> rows).
Proof.
  unfold delete_where. induction rows as [|r rows IH]; [by case_decide|].
  rewrite filter_cons, !fmap_cons, filter_cons. simpl (body r).1.
  destruct (decide (¬ (pc_station r = station ∧ pc_key r ∈ keys))) as [Hk|Hk].
  - rewrite fmap_cons, filter_cons, IH. simpl (body r).1. destruct (decide (s = station ∧ k ∈ keys)) as [[-> Hin]|Hn]; [|done].
    rewrite decide_False; [done|]. intros Heq. apply Hk.
    assert (pc_station r = station ∧ pc_key r = k) as [-> ->] by (split; congruence). done.
  - rewrite IH. destruct (decide (s = station ∧ k ∈ keys)) as [Hin|Hn]; [done|].
    rewrite (decide_False (P := (pc_station r, pc_key r) = (s, k))); [done|]. intros Heq. apply Hn. apply dec_stable in Hk.
    assert (pc_station r = s ∧ pc_key r = k) as [<- <-] by (split; congruence). done.
Qed.

(** The settings written for the moves. *)
Definition write_states (station now : Z) (calib : list PersistedCapability) (db : RegDb) (moves : list Move) : RegDb :=
  foldl (λ db m,
    let merged := merged_state station calib m in
    if decide (dom merged = dom (sm_state (mv_row m))) then db
    else update_row (sm_pk (mv_row m)) (set_last_state merged now) db) db moves.

Lemma write_states_calib station now calib moves : ∀ db,
  rg_calib (write_states station now calib db moves) = rg_calib db ∧
  rg_fw (write_states station now calib db moves) = rg_fw db ∧
  rg_log (write_states station now calib db moves) = rg_log db.
Proof.
  induction moves as [|m moves IH]; intros db; [done|]. unfold write_states in *. simpl.
  case_decide; [apply IH|]. by destruct (IH (update_row (sm_pk (mv_row m))
    (set_last_state (merged_state station calib m) now) db)) as (-> & -> & ->).
Qed.

Lemma merged_same station calib m :
  dom (merged_state station calib m) = dom (sm_state (mv_row m)) → merged_state station calib m = sm_state (mv_row m).
Proof.
  intros Hd. apply map_eq. intros k. unfold merged_state in *. cbv zeta in *. rewrite lookup_union.
  destruct (sm_state (mv_row m) !! k) as [v|] eqn:Hk; [by rewrite union_Some_l|].
  apply not_elem_of_dom in Hk. rewrite <-Hd in Hk. apply not_elem_of_dom, lookup_union_None in Hk as [_ Hk].
  rewrite Hk. done.
Qed.

(** Every moved row ends with its merged settings, every other row keeps its own. *)
Lemma write_states_rows station now calib moves : ∀ db r,
  NoDup (sm_pk ∘ mv_row <$> moves) → r ∈ rg_modules db →
  (∀ m, m ∈ moves → sm_pk r = sm_pk (mv_row m) → sm_state r = sm_state (mv_row m)) →
  ∃ r', r' ∈ rg_modules (write_states station now calib db moves) ∧ sm_pk r' = sm_pk r ∧ row_key r' = row_key r ∧
    sm_station r' = sm_station r ∧ sm_tracked r' = sm_tracked r ∧
    (∀ m, m ∈ moves → sm_pk r = sm_pk (mv_row m) → sm_state r' = merged_state station calib m) ∧
    (sm_pk r ∉ sm_pk ∘ mv_row <$> moves → r' = r).
Proof.
  induction moves as [|m moves IH]; intros db r Hnd Hr Hst.
  { exists r. split_and!; try done. intros m Hm. by apply not_elem_of_nil in Hm. }
  rewrite fmap_cons, list.NoDup_cons in Hnd. destruct Hnd as [Hm Hnd]. unfold write_states in *. simpl.
  set (merged := merged_state station calib m).
  set (db1 := if decide (dom merged = dom (sm_state (mv_row m))) then db else _).
  destruct (decide (sm_pk r = sm_pk (mv_row m))) as [Hpk|Hpk].
  - assert (∃ r1, r1 ∈ rg_modules db1 ∧ sm_pk r1 = sm_pk r ∧ row_key r1 = row_key r ∧ sm_station r1 = sm_station r ∧
      sm_tracked r1 = sm_tracked r ∧ sm_state r1 = merged) as (r1 & Hr1 & Hp1 & Hk1 & Hs1 & Ht1 & Hm1).
    { subst db1. case_decide as Hd.
      - exists r. split_and!; try done. rewrite (Hst m) by set_solver. symmetry. by apply merged_same.
      - exists (set_last_state merged now r). split_and!; try done. apply elem_of_update_where. exists r. auto. }
    assert (∀ x, x ∈ moves → sm_pk r ≠ sm_pk (mv_row x)) as Hother.
    { intros x Hx Heq. apply Hm. rewrite list_elem_of_fmap. exists x. simpl. split; [congruence|done]. }
    destruct (IH db1 r1 Hnd Hr1) as (r' & Hin & ? & ? & ? & ? & Hmv & Hno).
    { intros x Hx Heq. rewrite Hp1 in Heq. by destruct (Hother x Hx). }
    assert (r' = r1) as ->.
    { apply Hno. rewrite Hp1, list_elem_of_fmap. intros (x & Heq & Hx). by apply (Hother x Hx). }
    exists r1. split_and!; try done; try congruence.
    + intros x [->|Hx]%elem_of_cons Heq; [done|]. by destruct (Hother x Hx).
    + intros Hn. exfalso. apply Hn. simpl. rewrite Hpk. apply elem_of_cons. by left.
  - assert (r ∈ rg_modules db1) as Hr1.
    { subst db1. case_decide; [done|]. apply elem_of_update_where. exists r. auto. }
    destruct (IH db1 r Hnd Hr1) as (r' & Hin & ? & ? & ? & ? & Hmv & Hno).
    { intros x Hx. apply Hst. set_solver. }
    exists r'. split_and!; try done.
    + intros x [->|Hx]%elem_of_cons Heq; [done|]. by apply Hmv.
    + intros Hn. apply Hno. simpl in Hn. rewrite not_elem_of_cons in Hn. tauto.
Qed.

(** Deleting the involved keys and inserting the movers' calibration. *)
Lemma moved_calib_ok station moves calib :
  NoDup (ck <$> calib) → NoDup (mv_dest <$> moves) →
  let involved := (mv_src <$> moves) ++ (mv_dest <$> moves) in
  let kept := delete_where (λ r, pc_station r = station ∧ pc_key r ∈ involved) calib in
  ∃ calib', insert_calib (moved_flat station calib moves) kept = Ok calib' ∧
    NoDup (ck <$> calib') ∧ body <$> calib' = body <$> kept ++ moved_flat station calib moves.
Proof.
  intros Hck Hd involved kept.
  assert (NoDup (ck <$> kept ++ moved_flat station calib moves)) as Hnd.
  { rewrite fmap_app. apply list.NoDup_app. split_and!.
    - eapply sublist_NoDup; [exact Hck|]. apply fmap_sublist, sublist_filter.
    - intros x (r & -> & Hr)%list_elem_of_fmap (y & Heq & Hy)%list_elem_of_fmap.
      apply elem_of_delete_where in Hr as [Hr _]. apply Hr.
      unfold moved_flat in Hy. apply list_elem_of_bind in Hy as (m & Hy & Hm).
      apply (list_elem_of_fmap_2 ck) in Hy. apply moved_ck in Hy. rewrite <-Heq in Hy. simpl in Hy.
      assert (pc_station r = station ∧ pc_key r = mv_dest m) as [-> ->] by (split; congruence).
      split; [done|]. unfold involved. rewrite elem_of_app. right. by apply list_elem_of_fmap_2.
    - by apply flat_NoDup. }
  destruct (insert_calib_ok _ kept Hnd) as (calib' & Hrun & Hb). exists calib'. split_and!; [done| |done].
  assert (∀ l : list PersistedCapability, ck <$> l = (λ b, (b.1, b.2.1.1)) <$> (body <$> l)) as Hckb.
  { intros l. rewrite <-list_fmap_compose. by apply list_fmap_ext. }
  rewrite Hckb, Hb, <-Hckb. exact Hnd.
Qed.

(** C12. Re-plugging modules, also as a swap or a rotation of several at once: the
    calibration of every module ends exactly where the module now is, a slot nobody
    moved into ends empty, and every other slot and station keeps its calibration;
    the unique constraint is never tripped.  Each moved row gets its previous
    settings merged under the freshly reported ones, every other row is untouched. *)
Theorem calibration_follows_module station now moves db :
  NoDup (ck <$> rg_calib db) → NoDup (mv_dest <$> moves) → NoDup (sm_pk ∘ mv_row <$> moves) →
  ∃ db', move_settings station now moves db = Ok db' ∧ NoDup (ck <$> rg_calib db') ∧
    (∀ m, m ∈ moves →
      calibration station (mv_dest m) (rg_calib db') = calibration station (mv_src m) (rg_calib db)) ∧
    (∀ k, k ∈ mv_src <$> moves → k ∉ mv_dest <$> moves → calibration station k (rg_calib db') = []) ∧
    (∀ s k, s ≠ station ∨ k ∉ (mv_src <$> moves) ++ (mv_dest <$> moves) →
      calibration s k (rg_calib db') = calibration s k (rg_calib db)) ∧
    (∀ r, r ∈ rg_modules db →
      (∀ m, m ∈ moves → sm_pk r = sm_pk (mv_row m) → sm_state r = sm_state (mv_row m)) →
      ∃ r', r' ∈ rg_modules db' ∧ sm_pk r' = sm_pk r ∧
        (∀ m, m ∈ moves → sm_pk r = sm_pk (mv_row m) →
          sm_state r' = merged_state station (rg_calib db) m) ∧
        (sm_pk r ∉ sm_pk ∘ mv_row <$> moves → r' = r)).
Proof.
  intros Hck Hd Hp. unfold move_settings.
  destruct (moved_calib_ok station moves (rg_calib db) Hck Hd) as (calib' & Hrun & Hnd & Hb).
  fold (moved_flat station (rg_calib db) moves). rewrite Hrun. eexists. split; [done|].
  fold (write_states station now (rg_calib db) (with_calib calib' db) moves).
  destruct (write_states_calib station now (rg_calib db) moves (with_calib calib' db)) as (-> & _ & _).
  simpl (rg_calib (with_calib calib' db)).
  assert (∀ s k, calibration s k calib' =
    snd <$> (if decide (s = station ∧ k ∈ (mv_src <$> moves) ++ (mv_dest <$> moves)) then []
             else filter (λ b, b.1 = (s, k)) (body <$> rg_calib db)) ++
            filter (λ b, b.1 = (s, k)) (body <$> moved_flat station (rg_calib db) moves)) as Hval.
  { intros s k. by rewrite calibration_body, Hb, fmap_app, filter_app, filter_kept. }
  split_and!; [done|..].
  - intros m Hm. rewrite Hval, decide_True; [by apply flat_at|].
    split; [done|]. rewrite elem_of_app. right. by apply list_elem_of_fmap_2.
  - intros k Hk Hn. rewrite Hval, decide_True by (split; [done|]; rewrite elem_of_app; by left).
    by rewrite flat_none by (by right).
  - intros s k Hk. rewrite Hval. rewrite decide_False by tauto. rewrite flat_none.
    + by rewrite app_nil_r, <-calibration_body.
    + destruct Hk as [?|Hk]; [by left|]. right. rewrite elem_of_app in Hk. tauto.
  - intros r Hr Hst. destruct (write_states_rows station now (rg_calib db) moves (with_calib calib' db) r Hp Hr Hst)
      as (r' & ? & ? & _ & _ & _ & ? & ?). by exists r'.
Qed.

(** Two calibrated modules swap their slots. *)
Lemma calibration_follows_module_witness :
  let row pk slot t := mkSM pk 7 slot "fm" "" "" "" (Some t) [] ∅ true (Some 0) false false 0 in
  let db := mkRegDb (mkFwDb [] [] [] [] [] [] [] []) [row 1 "1" 11; row 2 "2" 12]
    [mkPC 1 7 "1" "fm" "volume" (JInt 3) None; mkPC 2 7 "2" "fm" "volume" (JInt 5) None;
     mkPC 3 7 "2" "fm" "filter_hpf" (JBool true) None] [] in
  let moves := [mkMove (row 1 "1" 12) 12 ("2", "fm") ("1", "fm") ∅;
                mkMove (row 2 "2" 11) 11 ("1", "fm") ("2", "fm") ∅] in
  ∃ db', move_settings 7 100 moves db = Ok db' ∧
    calibration 7 ("1", "fm") (rg_calib db') =
      [("volume", JInt 5, None); ("filter_hpf", JBool true, None)] ∧
    calibration 7 ("2", "fm") (rg_calib db') = [("volume", JInt 3, None)].
Proof.
  intros row db moves.
  destruct (calibration_follows_module 7 100 moves db) as (db' & Hrun & _ & Hm & _);
    [apply (bool_decide_unpack _); vm_compute; exact I ..|].
  exists db'. split; [done|]. split.
  - rewrite (Hm (mkMove (row 1 "1" 12) 12 ("2", "fm") ("1", "fm") ∅)); [vm_compute; reflexivity|].
    apply elem_of_cons. by left.
  - rewrite (Hm (mkMove (row 2 "2" 11) 11 ("1", "fm") ("2", "fm") ∅)); [vm_compute; reflexivity|].
    apply elem_of_cons. right. apply elem_of_cons. by left.
Defined.

(** ** The snapshot *)

Definition rk (r : StationModule) : Z * (string * string) := (sm_station r, row_key r).

Record reg_ok (db : RegDb) : Prop := mkRegOk {
  ro_pk : NoDup (sm_pk <$> rg_modules db);
  ro_rk : NoDup (rk <$> rg_modules db);
  ro_fw : settled (rg_fw db);
  ro_ck : NoDup (ck <$> rg_calib db)
}.

(** [rows'] is [rows] with the row of key [k] replaced (or added) by [r]. *)
Record replaced (k : Z * (string * string)) (rows rows' : list StationModule) (r : StationModule) : Prop := mkReplaced {
  rp_key : rk r = k;
  rp_pk : NoDup (sm_pk <$> rows');
  rp_rk : NoDup (rk <$> rows');
  rp_elem : ∀ x, x ∈ rows' ↔ x = r ∨ (x ∈ rows ∧ rk x ≠ k);
  rp_old : (∃ old, old ∈ rows ∧ rk old = k ∧ sm_pk old = sm_pk r) ∨
           ((∀ x, x ∈ rows → rk x ≠ k) ∧ sm_pk r ∉ sm_pk <$> rows)
}.

Lemma is_row_rk station slot mid r : is_row station slot mid r ↔ rk r = (station, (slot, mid)).
Proof.
  unfold is_row, rk, row_key. split; [by intros (-> & -> & ->)|]. intros Heq. injection Heq as -> -> ->. done.
Qed.

Lemma fresh_pk {A} (f : A → Z) (l : list A) : next_pk (f <$> l) ∉ f <$> l.
Proof. intros H. apply next_pk_gt in H. lia. Qed.

Lemma update_or_create_ok station slot mid upd create db db' r :
  NoDup (sm_pk <$> rg_modules db) → NoDup (rk <$> rg_modules db) →
  (∀ x, is_row station slot mid x → sm_pk (upd x) = sm_pk x ∧ rk (upd x) = rk x) →
  (∀ pk, sm_pk (create pk) = pk ∧ rk (create pk) = (station, (slot, mid))) →
  update_or_create station slot mid upd create db = (db', r) →
  replaced (station, (slot, mid)) (rg_modules db) (rg_modules db') r ∧
  ((∃ old, old ∈ rg_modules db ∧ rk old = (station, (slot, mid)) ∧ r = upd old) ∨ (∃ pk, r = create pk)) ∧
  rg_fw db' = rg_fw db ∧ rg_calib db' = rg_calib db ∧ rg_log db' = rg_log db.
Proof.
  intros Hpk Hrk Hupd Hcr. unfold update_or_create. destruct (find_row station slot mid db) as [old|] eqn:Hf;
    intros Heq; injection Heq as <- <-.
  - unfold find_row in Hf. apply head_filter_Some in Hf as [Hrow Hin].
    assert (∀ x, x ∈ rg_modules db → sm_pk x = sm_pk old → x = old) as Hu.
    { intros x Hx Heq. by eapply (NoDup_fmap_elem_inj sm_pk). }
    destruct (Hupd old Hrow) as [Hup Hur]. apply is_row_rk in Hrow. split_and!; try done; [|by left; exists old].
    split.
    + congruence.
    + simpl. rewrite fmap_update_where_in; [done|]. intros x Hx Heq. apply (Hu x Hx) in Heq as ->. done.
    + simpl. rewrite fmap_update_where_in; [done|]. intros x Hx Heq. apply (Hu x Hx) in Heq as ->. done.
    + intros x. simpl. rewrite elem_of_update_where. split.
      * intros (y & Hy & [[Heq ->]|[Hne ->]]); [apply (Hu y Hy) in Heq as ->; by left|]. right. split; [done|].
        intros Heq. apply Hne. f_equal. eapply (NoDup_fmap_elem_inj rk); [done..|congruence].
      * intros [->|[Hx Hne]]; [exists old; auto|]. exists x. split; [done|]. right. split; [|done].
        intros Heq. apply Hne. by rewrite (Hu x Hx Heq).
    + left. exists old. auto.
  - unfold find_row in Hf. rewrite head_filter_None in Hf. set (pk := next_pk _). destruct (Hcr pk) as [Hp Hr].
    assert (∀ x, x ∈ rg_modules db → rk x ≠ (station, (slot, mid))) as Hno.
    { intros x Hx Heq. apply (Hf x Hx). by apply is_row_rk. }
    assert (sm_pk (create pk) ∉ sm_pk <$> rg_modules db) as Hfr by (rewrite Hp; apply fresh_pk).
    split_and!; try done; [|by right; exists pk]. split; [done|..].
    + simpl. rewrite fmap_app. apply list.NoDup_app. split; [done|]. split; [|apply NoDup_singleton].
      intros x Hx ->%list_elem_of_singleton. done.
    + simpl. rewrite fmap_app. apply list.NoDup_app. split; [done|]. split; [|apply NoDup_singleton].
      intros x Hx ->%list_elem_of_singleton. apply list_elem_of_fmap in Hx as (y & Heq & Hy).
      apply (Hno y Hy). congruence.
    + intros x. simpl. rewrite elem_of_app, list_elem_of_singleton. split; [|tauto].
      intros [Hx| ->]; [right; split; [done|by apply Hno]|by left].
    + right. done.
Qed.

Lemma replaced_update k rows rows' r f :
  replaced k rows rows' r → sm_pk (f r) = sm_pk r → rk (f r) = rk r →
  replaced k rows (update_where (λ x, sm_pk x = sm_pk r) f rows') (f r).
Proof.
  intros [H1 H2 H3 H4 H5] Hp Hr.
  assert (r ∈ rows') as Hin by (apply H4; by left).
  assert (∀ x, x ∈ rows' → sm_pk x = sm_pk r → x = r) as Hu.
  { intros x Hx Heq. by eapply (NoDup_fmap_elem_inj sm_pk). }
  split.
  - congruence.
  - rewrite fmap_update_where_in; [done|]. intros x Hx Heq. apply (Hu x Hx) in Heq as ->. done.
  - rewrite fmap_update_where_in; [done|]. intros x Hx Heq. apply (Hu x Hx) in Heq as ->. done.
  - intros x. rewrite elem_of_update_where. split.
    + intros (y & Hy & [[Heq ->]|[Hne ->]]); [apply (Hu y Hy) in Heq as ->; by left|].
      apply H4 in Hy as [->|?]; [done|by right].
    + intros [->|[Hx Hne]]; [exists r; auto|]. exists x. split; [apply H4; auto|]. right. split; [|done].
      intros Heq. apply Hne. rewrite (Hu x); [done|apply H4; auto|done].
  - by rewrite Hp.
Qed.

(** The loop invariant over the entries, from the tables [db0]. *)
Record snap_ok (station : Z) (db0 : RegDb) (s : Snap) : Prop := mkSnapOk {
  so_pk : NoDup (sm_pk <$> rg_modules (sn_db s));
  so_rk : NoDup (rk <$> rg_modules (sn_db s));
  so_fw : settled (rg_fw (sn_db s));
  so_calib : rg_calib (sn_db s) = rg_calib db0 ∧ rg_log (sn_db s) = rg_log db0;
  so_new : ∀ r, r ∈ rg_modules (sn_db s) →
    (r ∈ rg_modules db0 ∧ ¬ (sm_station r = station ∧ row_key r ∈ sn_reported s)) ∨
    (sm_station r = station ∧ row_key r ∈ sn_reported s ∧ sm_online r = true);
  so_old : ∀ r, r ∈ rg_modules db0 → ∃ r', r' ∈ rg_modules (sn_db s) ∧ sm_pk r' = sm_pk r ∧ rk r' = rk r;
  so_rep : ∀ k, k ∈ sn_reported s → ∃ r, r ∈ rg_modules (sn_db s) ∧ rk r = (station, k);
  so_rows : ∀ sm t, (sm, t) ∈ sn_rows s →
    sm ∈ rg_modules (sn_db s) ∧ sm_station sm = station ∧ row_key sm ∈ sn_reported s ∧ sm_tracked sm = Some t;
  so_nodup : NoDup (row_key ∘ fst <$> sn_rows s);
  so_link : ∀ r t, r ∈ rg_modules (sn_db s) → sm_tracked r = Some t →
    (r, t) ∈ sn_rows s ∨ (∃ r0, r0 ∈ rg_modules db0 ∧ sm_pk r0 = sm_pk r ∧ sm_tracked r0 = Some t)
}.

(** Where the link of the row of an entry comes from. *)
Definition link_from (rows : list StationModule) (k : Z * (string * string)) (r : StationModule)
    (more : list (StationModule * Z)) : Prop :=
  sm_tracked r = None ∨ (∃ old, old ∈ rows ∧ rk old = k ∧ sm_pk old = sm_pk r ∧ sm_tracked r = sm_tracked old) ∨
  (∃ t, sm_tracked r = Some t ∧ (r, t) ∈ more).

(** One entry: its key is new, its row replaced, and at most one tracked row added. *)
Lemma snap_step station db0 s k db' more tracked uids r :
  snap_ok station db0 s → k ∉ sn_reported s →
  replaced (station, k) (rg_modules (sn_db s)) (rg_modules db') r →
  sm_online r = true → link_from (rg_modules (sn_db s)) (station, k) r more →
  settled (rg_fw db') → rg_calib db' = rg_calib (sn_db s) → rg_log db' = rg_log (sn_db s) →
  (more = [] ∨ ∃ t, more = [(r, t)] ∧ sm_tracked r = Some t) →
  snap_ok station db0 (mkSnap db' (sn_reported s ++ [k]) (sn_rows s ++ more) tracked uids).
Proof.
  intros [P1 P2 P3 [P4 P4'] P5 P6 P7 P8 P9 P10] Hk [R1 R2 R3 R4 R5] Hon Hlink Hfw Hc Hl Hmore.
  assert (row_key r = k ∧ sm_station r = station) as [Hkr Hsr] by (unfold rk in R1; split; congruence).
  assert (r ∈ rg_modules db') as Hr by (apply R4; by left).
  assert (∀ x, x ∈ rg_modules db' → x ≠ r → x ∈ rg_modules (sn_db s) ∧ rk x ≠ (station, k)) as Hother.
  { intros x Hx Hne. by apply R4 in Hx as [?|?]. }
  assert (∀ sm t, (sm, t) ∈ sn_rows s → sm ∈ rg_modules db') as Hrows.
  { intros sm t Hin. destruct (P8 _ _ Hin) as (Hm & Hs & Hkk & _). apply R4. right. split; [done|].
    intros Heq. apply Hk. unfold rk in Heq. injection Heq as _ <-. done. }
  assert (∀ sm t, (sm, t) ∈ more → sm = r ∧ sm_tracked sm = Some t) as Hm1.
  { intros sm t Hin. destruct Hmore as [->|(u & -> & Hu)]; [by apply not_elem_of_nil in Hin|].
    apply list_elem_of_singleton in Hin. by injection Hin as -> ->. }
  constructor; simpl; try done.
  - split; congruence.
  - intros x Hx. apply R4 in Hx as [->|[Hx Hne]]; [right; rewrite Hkr, Hsr, Hon; set_solver|].
    destruct (P5 x Hx) as [[? Hn]|(? & ? & ?)]; [|right; split_and!; try done; set_solver].
    left. split; [done|]. rewrite elem_of_app, list_elem_of_singleton. intros [Hst [?|Heq]]; [tauto|].
    apply Hne. unfold rk. congruence.
  - intros x Hx. destruct (P6 x Hx) as (y & Hy & Hyp & Hyr). destruct (decide (rk y = (station, k))) as [Heq|Hne].
    + destruct R5 as [(old & Ho & Hor & Hop)|[Hno _]]; [|by destruct (Hno y Hy)].
      assert (y = old) as -> by (eapply (NoDup_fmap_elem_inj rk); [exact P2|done..|congruence]).
      exists r. split; [done|]. split; congruence.
    + exists y. split; [apply R4; auto|done].
  - intros x Hx. rewrite elem_of_app, list_elem_of_singleton in Hx. destruct Hx as [Hx| ->]; [|by exists r].
    destruct (P7 x Hx) as (y & Hy & Hyr). exists y. split; [|done]. apply R4. right. split; [done|].
    intros Heq. apply Hk. congruence.
  - intros sm t Hin. apply elem_of_app in Hin as [Hin|Hin].
    + destruct (P8 _ _ Hin) as (_ & ? & ? & ?). split_and!; [by eapply Hrows|done|set_solver|done].
    + destruct (Hm1 _ _ Hin) as [-> ?]. split_and!; [done|done|set_solver|done].
  - rewrite fmap_app. apply list.NoDup_app. split; [done|]. split.
    + intros x (p & -> & Hp)%list_elem_of_fmap (q & Heq & Hq)%list_elem_of_fmap. destruct p as [sm t], q as [sm' t'].
      simpl in Heq. destruct (Hm1 _ _ Hq) as [-> _]. destruct (P8 _ _ Hp) as (_ & _ & Hin & _).
      apply Hk. by rewrite <-Hkr, <-Heq.
    + destruct Hmore as [->|(u & -> & _)]; [apply NoDup_nil_2|apply NoDup_singleton].
  - intros x t Hx Ht. apply R4 in Hx as [->|[Hx Hne]].
    + destruct Hlink as [Hn|[(old & Ho & Hor & Hop & Hot)|(u & Hu & Hin)]]; [congruence| |].
      * destruct (P10 old t Ho) as [Hin|(r0 & ? & ? & ?)]; [congruence| |right; exists r0; split_and!; congruence].
        destruct (P8 _ _ Hin) as (_ & _ & Hkk & _). exfalso. apply Hk. unfold rk in Hor. by injection Hor as _ <-.
      * left. assert (u = t) as -> by congruence. apply elem_of_app. by right.
    + destruct (P10 x t Hx Ht) as [?|?]; [left; apply elem_of_app; by left|by right].
Qed.

Section snapshot_proofs.
Variables (types : list ModuleType_) (station now : Z).

Lemma set_tracked_same sm t : sm_tracked sm = t → set_tracked t sm = sm.
Proof. intros <-. by destruct sm. Qed.

Lemma apply_reported_ok db0 s slot mid e :
  snap_ok station db0 s → (slot, mid) ∉ sn_reported s →
  ∃ s', apply_reported types station now slot mid e s = Ok s' ∧ snap_ok station db0 s' ∧
    sn_reported s' = sn_reported s ++ [(slot, mid)].
Proof.
  intros Hok Hk. unfold apply_reported.
  destruct (upsert_reported station slot mid e now (sn_db s)) as [db1 sm] eqn:Hup.
  unfold upsert_reported in Hup.
  apply update_or_create_ok in Hup as (Hrep & Hsrc & Hf & Hc & Hl); [|apply Hok|apply Hok| |by intros].
  2:{ intros x Hx. split; [done|]. apply is_row_rk in Hx. by rewrite Hx. }
  assert (sm_online sm = true) as Hon by (destruct Hsrc as [(old & _ & _ & ->)|(pk & ->)]; done).
  assert (link_from (rg_modules (sn_db s)) (station, (slot, mid)) sm []) as Hlink.
  { destruct Hsrc as [(old & Ho & Hor & ->)|(pk & ->)]; [right; left; by exists old|by left]. }
  destruct (ingest_ok types station slot mid (me_identity e) now (came_online station slot mid (sn_db s)) (rg_fw db1))
    as (fw & tr & -> & Hfw & _); [rewrite Hf; apply Hok|]. simpl.
  destruct tr as [pk|].
  - eexists. split; [done|]. split; [|done].
    apply snap_step with (r := set_tracked (Some pk) sm); try done.
    + case_decide as Hd; [by rewrite (set_tracked_same sm)|]. by apply replaced_update.
    + right. right. exists pk. split; [done|]. by apply list_elem_of_singleton.
    + by case_decide.
    + by case_decide.
    + by case_decide.
    + right. by exists pk.
  - destruct (keep_link _ _ _) eqn:Hkeep.
    + eexists. split; [done|]. split; [|done]. rewrite <-(app_nil_r (sn_rows s)).
      apply snap_step with (r := sm); try done. by left.
    + eexists. split; [done|]. split; [|done]. rewrite <-(app_nil_r (sn_rows s)).
      apply snap_step with (r := set_tracked None sm); try done; [by apply replaced_update|by left|by left].
Qed.

Lemma apply_entry_ok db0 s slot e :
  snap_ok station db0 s →
  (∀ sl mid, slot = Some sl → me_module e = Some mid → (sl, mid) ∉ sn_reported s) →
  ∃ s', apply_entry types station now slot s e = Ok s' ∧ snap_ok station db0 s' ∧
    sn_reported s' = sn_reported s ++
      match slot, me_module e with Some sl, Some mid => [(sl, mid)] | _, _ => [] end.
Proof.
  intros Hok Hk. unfold apply_entry. destruct slot as [sl|]; [|exists s; by rewrite app_nil_r].
  destruct (me_module e) as [mid|]; [|exists s; by rewrite app_nil_r].
  specialize (Hk sl mid eq_refl eq_refl). case_decide; [|by apply apply_reported_ok].
  eexists. split; [done|]. split; [|done]. unfold apply_updating_entry.
  destruct (update_or_create _ _ _ _ _ _) as [db1 sm] eqn:Hup. simpl.
  apply update_or_create_ok in Hup as (Hrep & Hsrc & Hf & Hc & Hl); [|apply Hok|apply Hok|by intros x|by intros].
  rewrite <-(app_nil_r (sn_rows s)). apply snap_step with (r := sm); try done; try (by left).
  - destruct Hsrc as [(old & _ & _ & ->)|(pk & ->)]; done.
  - destruct Hsrc as [(old & Ho & Hor & ->)|(pk & ->)]; [right; left; by exists old|by left].
  - rewrite Hf. apply Hok.
Qed.

(** The keys of an entry and of a snapshot. *)
Definition entry_keys (slot : option string) (e : ModEntry) : list (string * string) :=
  match slot, me_module e with Some sl, Some mid => [(sl, mid)] | _, _ => [] end.

Definition reported_keys (slots : list SlotEntry) : list (string * string) :=
  slots ≫= λ se, se_modules se ≫= entry_keys (se_slot se).

Lemma apply_slot_ok db0 slot mods : ∀ s,
  snap_ok station db0 s → NoDup (sn_reported s ++ (mods ≫= entry_keys slot)) →
  ∃ s', ofold (apply_entry types station now slot) s mods = Ok s' ∧ snap_ok station db0 s' ∧
    sn_reported s' = sn_reported s ++ (mods ≫= entry_keys slot).
Proof.
  induction mods as [|e mods IH]; intros s Hok Hnd; [exists s; by rewrite app_nil_r|].
  rewrite bind_cons in *. destruct (apply_entry_ok db0 s slot e Hok) as (s1 & Hs1 & Hok1 & Hr1).
  { intros sl mid -> Hm Hin. apply list.NoDup_app in Hnd as (_ & Hd & _). apply (Hd _ Hin).
    unfold entry_keys. rewrite Hm. set_solver. }
  simpl. rewrite Hs1. simpl. fold (entry_keys slot e) in Hr1.
  destruct (IH s1 Hok1) as (s2 & -> & Hok2 & Hr2); [by rewrite Hr1, <-app_assoc|].
  exists s2. split_and!; [done..|]. by rewrite Hr2, Hr1, <-app_assoc.
Qed.

Lemma apply_slots_ok db0 slots : ∀ s,
  snap_ok station db0 s → NoDup (sn_reported s ++ reported_keys slots) →
  ∃ s', ofold (apply_slot types station now) s slots = Ok s' ∧ snap_ok station db0 s' ∧
    sn_reported s' = sn_reported s ++ reported_keys slots.
Proof.
  unfold reported_keys. induction slots as [|se slots IH]; intros s Hok Hnd; [exists s; by rewrite app_nil_r|].
  rewrite bind_cons in *. destruct (apply_slot_ok db0 (se_slot se) (se_modules se) s Hok) as (s1 & Hs1 & Hok1 & Hr1).
  { rewrite app_assoc in Hnd. by apply list.NoDup_app in Hnd as [? _]. }
  simpl. unfold apply_slot at 1. rewrite Hs1. simpl.
  destruct (IH s1 Hok1) as (s2 & -> & Hok2 & Hr2); [by rewrite Hr1, <-app_assoc|].
  exists s2. split_and!; [done..|]. by rewrite Hr2, Hr1, <-app_assoc.
Qed.

Lemma snap_init db : reg_ok db → snap_ok station db (mkSnap db [] [] [] ∅).
Proof.
  intros [H1 H2 H3 H4]. constructor; simpl; try done.
  - intros r Hr. left. split; [done|]. intros [_ Hn]. by apply not_elem_of_nil in Hn.
  - intros r Hr. by exists r.
  - intros k Hk. by apply not_elem_of_nil in Hk.
  - intros sm t Hn. by apply not_elem_of_nil in Hn.
  - apply NoDup_nil_2.
  - intros r t Hr Ht. right. by exists r.
Qed.

End snapshot_proofs.

(** ** After the entries *)

(** A column that determines another is free of duplicates when the other is. *)
Lemma NoDup_fmap_refine {A B C} (f : A → B) (g : A → C) (l : list A) :
  (∀ x y, x ∈ l → y ∈ l → g x = g y → f x = f y) → NoDup (f <$> l) → NoDup (g <$> l).
Proof.
  induction l as [|x l IH]; [intros; apply NoDup_nil_2|]. intros Hfg.
  rewrite !fmap_cons, !list.NoDup_cons. intros [Hx Hnd]. split.
  - intros (y & Heq & Hy)%list_elem_of_fmap. apply Hx. rewrite (Hfg x y); [by apply list_elem_of_fmap_2|set_solver..|done].
  - apply IH; [|done]. intros y z Hy Hz. apply Hfg; set_solver.
Qed.

(** Same row up to settings; a row that was written has a fresh time stamp. *)
Record same_panel (now : Z) (a b : StationModule) : Prop := mkSamePanel {
  sp_pk : sm_pk a = sm_pk b;
  sp_rk : rk a = rk b;
  sp_tracked : sm_tracked a = sm_tracked b;
  sp_online : sm_online a = sm_online b;
  sp_seen : sm_last_seen a = sm_last_seen b;
  sp_ows : sm_offline_with_station a = sm_offline_with_station b;
  sp_upd : sm_updating a = sm_updating b;
  sp_at : sm_updated_at a = sm_updated_at b ∨ sm_updated_at a = now
}.

#[export] Instance same_panel_refl now : Reflexive (same_panel now).
Proof. intros a. constructor; auto. Qed.

#[export] Instance same_panel_trans now : Transitive (same_panel now).
Proof. intros a b c [] []. constructor; try congruence. destruct sp_at0, sp_at1; (left + right); congruence. Qed.

Lemma write_states_panel station now calib moves : ∀ db,
  Forall2 (same_panel now) (rg_modules (write_states station now calib db moves)) (rg_modules db).
Proof.
  induction moves as [|m moves IH]; intros db; [apply Forall2_same_length_lookup; split; [done|];
    intros i x y Hx Hy; simpl in *; simplify_eq; done|].
  unfold write_states in *. simpl. case_decide; [apply IH|]. etrans; [apply IH|]. simpl.
  apply Forall2_fmap_l, Forall2_same_length_lookup. split; [done|]. intros i x y Hx Hy. simplify_eq.
  simpl. case_decide; [|done]. constructor; auto.
Qed.

Lemma Forall2_panel_cols now rows rows' :
  Forall2 (same_panel now) rows rows' → sm_pk <$> rows = sm_pk <$> rows' ∧ rk <$> rows = rk <$> rows'.
Proof. induction 1 as [|x y l k [] _ [IH1 IH2]]; [done|]. by rewrite !fmap_cons, IH1, IH2, sp_pk0, sp_rk0. Qed.

(** The rows that survive the removal of stale cards. *)
Lemma drop_stale_ok stale_by moved_from singles : ∀ db,
  let db' := foldl (drop_stale stale_by moved_from) db singles in
  rg_fw db' = rg_fw db ∧ rg_calib db' = rg_calib db ∧ rg_modules db' `sublist_of` rg_modules db ∧
  ∀ r, r ∈ rg_modules db → r ∈ rg_modules db' ∨ ∃ p x, p ∈ singles ∧ x ∈ stale_by p.2 ∧ sm_pk r = sm_pk x.
Proof.
  induction singles as [|[sm t] singles IH]; intros db; simpl.
  { split_and!; try done. auto. }
  destruct (IH (drop_stale stale_by moved_from db (sm, t))) as (Hf & Hc & Hsub & Hel). unfold drop_stale in *.
  set (db1 := match row_key <$> stale_by t with [] => _ | _ => _ end) in *.
  assert (rg_fw db1 = rg_fw db ∧ rg_calib db1 = rg_calib db ∧ rg_modules db1 `sublist_of` rg_modules db ∧
    ∀ r, r ∈ rg_modules db → r ∈ rg_modules db1 ∨ ∃ x, x ∈ stale_by t ∧ sm_pk r = sm_pk x) as (H1 & H2 & H3 & H4).
  { assert (∀ r, r ∈ rg_modules db → r ∈ delete_where (λ r, sm_pk r ∈ sm_pk <$> stale_by t) (rg_modules db) ∨
      ∃ x, x ∈ stale_by t ∧ sm_pk r = sm_pk x) as Hdel.
    { intros r Hr. destruct (decide (sm_pk r ∈ sm_pk <$> stale_by t)) as [Hin|Hn].
      - right. apply list_elem_of_fmap in Hin as (x & ? & ?). by exists x.
      - left. by apply elem_of_delete_where. }
    subst db1. destruct (row_key <$> stale_by t), (moved_from t); simpl; split_and!; try done;
      try apply sublist_filter; auto. }
  split_and!; [congruence|congruence|by etrans|].
  intros r Hr. destruct (H4 r Hr) as [Hr1|(x & Hx & Heq)].
  - destruct (Hel r Hr1) as [?|(p & x & ? & ? & ?)]; [by left|]. right. exists p, x. set_solver.
  - right. exists (sm, t), x. set_solver.
Qed.

Lemma moves_sublist station db rows before l :
  (row_key ∘ mv_row <$> omap (move_of station db rows before) l) `sublist_of` (row_key ∘ fst <$> l) ∧
  (∀ m, m ∈ omap (move_of station db rows before) l →
    mv_dest m = row_key (mv_row m) ∧ (mv_row m, mv_tracked m) ∈ l).
Proof.
  induction l as [|[sm t] l [IH1 IH2]]; simpl; [split; [done|]; intros m Hm; by apply not_elem_of_nil in Hm|].
  destruct (before !! t) as [[[src prev] keys]|]; simpl; [|split; [by apply sublist_cons|set_solver]].
  repeat case_match; try (split; [by apply sublist_cons|set_solver]).
  simplify_eq. split; [by apply sublist_skip|]. intros x [->|Hx]%elem_of_cons; [simpl; set_solver|].
  destruct (IH2 x Hx). set_solver.
Qed.

Lemma carry_over_ok station now rows before db :
  NoDup (sm_pk <$> rg_modules db) → NoDup (rk <$> rg_modules db) → NoDup (ck <$> rg_calib db) →
  NoDup (row_key ∘ fst <$> rows) →
  ∃ db', carry_over_moved station now rows before db = Ok db' ∧ rg_fw db' = rg_fw db ∧
    NoDup (sm_pk <$> rg_modules db') ∧ NoDup (rk <$> rg_modules db') ∧ NoDup (ck <$> rg_calib db') ∧
    (∀ r', r' ∈ rg_modules db' → ∃ r, r ∈ rg_modules db ∧ same_panel now r' r) ∧
    (∀ r, r ∈ rg_modules db → (∃ r', r' ∈ rg_modules db' ∧ same_panel now r' r) ∨
      (∃ sm t, (sm, t) ∈ rows ∧ sm_tracked r = Some t ∧ sm_station r = station ∧
        sm_pk r ∉ sm_pk ∘ fst <$> rows ∧ sm_updating r = false)).
Proof.
  intros Hpk Hrk Hck Hrows. unfold carry_over_moved.
  set (moves := moves_of station db rows before).
  destruct (moves_sublist station db rows before rows) as [Hsub Hmv]. fold (moves_of station db rows before) in Hsub, Hmv.
  fold moves in Hsub, Hmv.
  assert (NoDup (mv_dest <$> moves)) as Hd.
  { assert (mv_dest <$> moves = row_key ∘ mv_row <$> moves) as ->; [|by eapply sublist_NoDup].
    apply list_fmap_ext. intros i m Hi. apply list_elem_of_lookup_2 in Hi. apply (Hmv m Hi). }
  assert (∃ db1, match moves with [] => Ok db | _ => move_settings station now moves db end = Ok db1 ∧
    rg_fw db1 = rg_fw db ∧ NoDup (ck <$> rg_calib db1) ∧
    Forall2 (same_panel now) (rg_modules db1) (rg_modules db)) as (db1 & -> & Hf1 & Hck1 & Hpan).
  { destruct (moved_calib_ok station moves (rg_calib db) Hck Hd) as (calib' & Hrun & Hnd & _).
    assert (move_settings station now moves db =
      Ok (write_states station now (rg_calib db) (with_calib calib' db) moves)) as Hms.
    { unfold move_settings. fold (moved_flat station (rg_calib db) moves). by rewrite Hrun. }
    destruct moves as [|m moves'].
    - by exists db.
    - eexists. split; [exact Hms|]. set (mv := m :: moves').
      destruct (write_states_calib station now (rg_calib db) mv (with_calib calib' db)) as (-> & -> & _).
      split_and!; [done|done|]. apply (write_states_panel station now (rg_calib db) mv (with_calib calib' db)). }
  destruct (Forall2_panel_cols _ _ _ Hpan) as [Hcp Hcr].
  eexists. split; [done|]. set (stale_by := λ t, stale_rows station _ t db1).
  destruct (drop_stale_ok stale_by (λ t, mv_src <$> head (filter (λ m, mv_tracked m = t) moves))
    (single station db rows) db1) as (Hf & Hc & Hsl & Hel).
  assert (∀ r1, r1 ∈ rg_modules db1 → ∃ r, r ∈ rg_modules db ∧ same_panel now r1 r) as Hback.
  { intros r1 Hr1. apply list_elem_of_lookup in Hr1 as [i Hi].
    destruct (Forall2_lookup_l _ _ _ _ _ Hpan Hi) as (r & Hr & Hsp). exists r.
    split; [by eapply list_elem_of_lookup_2|done]. }
  split_and!.
  - by rewrite Hf.
  - eapply sublist_NoDup; [|by apply fmap_sublist]. by rewrite Hcp.
  - eapply sublist_NoDup; [|by apply fmap_sublist]. by rewrite Hcr.
  - by rewrite Hc.
  - intros r' Hr'. apply Hback. by eapply elem_of_sublist.
  - intros r Hr. apply list_elem_of_lookup in Hr as [i Hi].
    destruct (Forall2_lookup_r _ _ _ _ _ Hpan Hi) as (r1 & Hr1 & Hsp).
    apply list_elem_of_lookup_2 in Hr1, Hi. destruct (Hel r1 Hr1) as [Hin|([sm t] & x & Hp & Hx & Heq)].
    { left. by exists r1. }
    right. exists sm, t. simpl in Hx. unfold stale_by, stale_rows in Hx.
    apply list_elem_of_filter in Hx as [(Hxs & Hxt & Hxp & Hxu) Hxin].
    assert (x = r1) as -> by (eapply (NoDup_fmap_elem_inj sm_pk); [by rewrite Hcp|done..]).
    unfold single in Hp. apply list_elem_of_filter in Hp as [_ Hp].
    destruct Hsp as [E1 E2 E3 E4 E5 E6 E7 E8]. unfold rk in E2. injection E2 as E2 _ _.
    split_and!; [done|congruence|congruence|congruence|congruence].
Qed.

(** The two bulk updates after the entries, on one row. *)
Definition settle_row (station now : Z) (reported : list (string * string)) (r : StationModule) : StationModule :=
  let r1 := if decide (sm_station r = station ∧ sm_online r = true ∧ row_key r ∉ reported)
            then set_presence false (Some now) (sm_offline_with_station r) false r else r in
  if decide (sm_station r1 = station ∧ sm_offline_with_station r1 = true)
  then set_presence (sm_online r1) (Some now) false (sm_updating r1) r1 else r1.

Lemma settle_rows station now reported db :
  rg_modules (restart_ttl station now (soft_offline station now reported db)) =
  settle_row station now reported <$> rg_modules db.
Proof. simpl. unfold update_where. rewrite <-list_fmap_compose. by apply list_fmap_ext. Qed.

Lemma settle_row_cols station now reported r :
  let r' := settle_row station now reported r in
  sm_pk r' = sm_pk r ∧ rk r' = rk r ∧ sm_tracked r' = sm_tracked r ∧
  (sm_station r = station → row_key r ∉ reported → sm_online r' = false) ∧
  (row_key r ∈ reported → sm_online r' = sm_online r).
Proof. unfold settle_row. repeat case_decide; simpl in *; split_and!; try done; intros; try tauto;
  destruct (sm_online r); tauto. Qed.

(** A row whose [last_seen] the updates leave old was offline before. *)
Lemma settle_row_expired station now reported ttl r :
  0 ≤ ttl → expired station now ttl (settle_row station now reported r) →
  expired station now ttl r ∧ sm_offline_with_station r = false.
Proof.
  intros Httl. unfold settle_row. repeat case_decide; simpl in *.
  - intros (_ & _ & _ & Hs). simpl in Hs. lia.
  - intros (_ & _ & _ & Hs). simpl in Hs. lia.
  - intros (_ & _ & _ & Hs). simpl in Hs. lia.
  - intros He. split; [done|]. destruct He as [Hst _]. destruct (sm_offline_with_station r); [tauto|done].
Qed.

Lemma same_panel_expired station now ttl a b :
  0 ≤ ttl → same_panel now a b → expired station now ttl a → expired station now ttl b.
Proof.
  intros Httl [E1 E2 E3 E4 E5 E6 E7 E8] (H1 & H2 & H3 & H4). unfold rk in E2. injection E2 as E2 _ _.
  unfold expired. rewrite <-E2, <-E4, <-E5, <-E7. split_and!; try done.
  destruct (sm_last_seen a); [done|]. destruct E8 as [<-|E8]; [done|]. lia.
Qed.

Lemma prune_ok station now ttl db :
  NoDup (sm_pk <$> rg_modules db) →
  let db' := prune_expired station now ttl db in
  rg_fw db' = rg_fw db ∧ rg_calib db' = rg_calib db ∧ rg_modules db' `sublist_of` rg_modules db ∧
  ∀ r, r ∈ rg_modules db → r ∈ rg_modules db' ∨ expired station now ttl r.
Proof.
  intros Hpk. unfold prune_expired. set (old := filter _ _). set (db1 := with_sm _ db).
  assert (∀ l d, let d' := foldl (λ db r, panel_log (PL_pruned (sm_slot r) (sm_module_id r)) db) d l in
    rg_fw d' = rg_fw d ∧ rg_calib d' = rg_calib d ∧ rg_modules d' = rg_modules d) as Hlog.
  { intros l. induction l as [|x l IH]; intros d; [done|]. simpl. by destruct (IH (panel_log
      (PL_pruned (sm_slot x) (sm_module_id x)) d)) as (-> & -> & ->). }
  destruct (Hlog old db1) as (-> & -> & ->). split_and!; [done|done|apply sublist_filter|].
  intros r Hr. destruct (decide (sm_pk r ∈ sm_pk <$> old)) as [Hin|Hn].
  - right. apply list_elem_of_fmap in Hin as (x & Heq & Hx). unfold old in Hx.
    apply list_elem_of_filter in Hx as [He Hx].
    assert (x = r) as -> by (by eapply (NoDup_fmap_elem_inj sm_pk)). done.
  - left. simpl. by apply elem_of_delete_where.
Qed.

(** What becomes of a row in a snapshot: [kept], or gone for one of two reasons. *)
Definition kept_in (r : StationModule) (db' : RegDb) : Prop :=
  ∃ r', r' ∈ rg_modules db' ∧ sm_pk r' = sm_pk r ∧ rk r' = rk r.

Definition moved_away (r : StationModule) (db' : RegDb) : Prop :=
  ∃ t r', sm_tracked r = Some t ∧ r' ∈ rg_modules db' ∧ sm_pk r' ≠ sm_pk r ∧ sm_station r' = sm_station r ∧
    sm_tracked r' = Some t ∧ sm_online r' = true.

(** The stages after the entries, on the tables of a snapshot that reports [slots]. *)
Lemma snapshot_finish_ok station now ttl before db0 s :
  reg_ok db0 → snap_ok station db0 s → 0 ≤ ttl →
  ∃ db3, carry_over_moved station now (sn_rows s) before
      (restart_ttl station now (soft_offline station now (sn_reported s) (sn_db s))) = Ok db3 ∧
  let db4 := prune_expired station now ttl db3 in
  rg_fw db4 = rg_fw (sn_db s) ∧
  NoDup (sm_pk <$> rg_modules db4) ∧ NoDup (rk <$> rg_modules db4) ∧ NoDup (ck <$> rg_calib db4) ∧
  (∀ r, r ∈ rg_modules db4 → sm_station r = station → sm_online r = true → row_key r ∈ sn_reported s) ∧
  (∀ r, r ∈ rg_modules db0 → kept_in r db4 ∨
     (sm_station r = station ∧
      ((expired station now ttl r ∧ sm_offline_with_station r = false) ∨ moved_away r db4))).
Proof.
  intros [D1 D2 D3 D4] Hs Httl. set (db2 := restart_ttl station now _).
  assert (rg_modules db2 = settle_row station now (sn_reported s) <$> rg_modules (sn_db s)) as Hrows2 by apply settle_rows.
  set (g := settle_row station now (sn_reported s)) in *.
  assert (∀ r, sm_pk (g r) = sm_pk r ∧ rk (g r) = rk r ∧ sm_tracked (g r) = sm_tracked r ∧
    (sm_station r = station → row_key r ∉ sn_reported s → sm_online (g r) = false) ∧
    (row_key r ∈ sn_reported s → sm_online (g r) = sm_online r)) as Hg by (intros r; apply settle_row_cols).
  assert (sm_pk <$> rg_modules db2 = sm_pk <$> rg_modules (sn_db s)) as Hp2.
  { rewrite Hrows2, <-list_fmap_compose. apply list_fmap_ext. intros i r _. apply Hg. }
  assert (rk <$> rg_modules db2 = rk <$> rg_modules (sn_db s)) as Hr2.
  { rewrite Hrows2, <-list_fmap_compose. apply list_fmap_ext. intros i r _. apply Hg. }
  destruct (carry_over_ok station now (sn_rows s) before db2) as (db3 & -> & Hf3 & P3 & R3 & C3 & Hback & Hfwd).
  { rewrite Hp2. apply Hs. }
  { rewrite Hr2. apply Hs. }
  { simpl. destruct (so_calib _ _ _ Hs) as [-> _]. done. }
  { apply Hs. }
  exists db3. split; [done|]. destruct (prune_ok station now ttl db3 P3) as (Hf4 & Hc4 & Hsub & Hpr).
  cbv zeta. set (db4 := prune_expired station now ttl db3) in *.
  assert (∀ r, r ∈ rg_modules (sn_db s) → g r ∈ rg_modules db2) as Hin2.
  { intros r Hr. rewrite Hrows2. by apply list_elem_of_fmap_2. }
  (* a tracked row survives, online *)
  assert (∀ sm t, (sm, t) ∈ sn_rows s → ∃ r', r' ∈ rg_modules db4 ∧ sm_pk r' = sm_pk sm ∧
    sm_station r' = station ∧ sm_tracked r' = Some t ∧ sm_online r' = true) as Htr.
  { intros sm t Hin. destruct (so_rows _ _ _ Hs _ _ Hin) as (Hsm & Hst & Hk & Ht).
    destruct (so_new _ _ _ Hs _ Hsm) as [[_ Hn]|(_ & _ & Hon)]; [tauto|].
    destruct (Hg sm) as (G1 & G2 & G3 & _ & G5).
    destruct (Hfwd (g sm) (Hin2 _ Hsm)) as [(r' & Hr' & [E1 E2 E3 E4 _ _ _ _])|(sm' & t' & _ & _ & _ & Hnp & _)].
    - assert (sm_online r' = true) as Hon' by (rewrite E4, (G5 Hk); done). exists r'. split.
      + destruct (Hpr r' Hr') as [?|(_ & Hoff & _)]; [done|congruence].
      + split_and!; [congruence| |congruence|done]. rewrite G2 in E2. unfold rk in E2. injection E2 as E2 _ _. congruence.
    - exfalso. apply Hnp. rewrite G1. apply list_elem_of_fmap. by exists (sm, t). }
  split_and!.
  - by rewrite Hf4, Hf3.
  - eapply sublist_NoDup; [exact P3|]. by apply fmap_sublist.
  - eapply sublist_NoDup; [exact R3|]. by apply fmap_sublist.
  - by rewrite Hc4.
  - intros r Hr Hst Hon. destruct (Hback r) as (r2 & Hr2' & [E1 E2 E3 E4 _ _ _ _]); [by eapply elem_of_sublist|].
    rewrite Hrows2 in Hr2'. apply list_elem_of_fmap in Hr2' as (r1 & -> & Hr1).
    destruct (Hg r1) as (_ & G2 & _ & G4 & _). rewrite G2 in E2. unfold rk in E2. injection E2 as E5 E6 E7.
    destruct (decide (row_key r1 ∈ sn_reported s)) as [Hin|Hn].
    + unfold row_key in *. congruence.
    + rewrite (G4 ltac:(congruence) Hn) in E4. congruence.
  - intros r Hr. destruct (so_old _ _ _ Hs r Hr) as (r1 & Hr1 & Hp1 & Hk1).
    destruct (Hg r1) as (G1 & G2 & G3 & G4 & G5).
    assert (sm_station r1 = sm_station r ∧ row_key r1 = row_key r) as [Hst1 Hky1] by (unfold rk in Hk1; split; congruence).
    destruct (Hfwd (g r1) (Hin2 _ Hr1)) as [(r3 & Hr3 & Hsp)|(sm & t & Hin & Ht & Hst & Hnp & _)].
    + pose proof Hsp as [E1 E2 _ _ _ _ _ _]. destruct (Hpr r3 Hr3) as [H4|He].
      { left. exists r3. split; [done|]. split; congruence. }
      right. apply (same_panel_expired _ _ _ _ (g r1)) in He as He'; [|done..].
      apply settle_row_expired in He' as [He1 Hows]; [|done]. split; [destruct He1 as [? _]; congruence|]. left.
      destruct (so_new _ _ _ Hs r1 Hr1) as [[Hin0 _]|(_ & _ & Hon)].
      * assert (r1 = r) as -> by (eapply (NoDup_fmap_elem_inj sm_pk); [exact D1|done..]). done.
      * destruct He1 as (_ & Hoff & _). congruence.
    + right. assert (sm_station r = station) as Hst' by (unfold rk in G2; congruence). split; [done|]. right.
      destruct (so_link _ _ _ Hs r1 t Hr1) as [Hl|(r0 & Hr0 & Hr0p & Hr0t)]; [congruence| |].
      * exfalso. apply Hnp. rewrite G1. apply list_elem_of_fmap. by exists (r1, t).
      * assert (r0 = r) as -> by (eapply (NoDup_fmap_elem_inj sm_pk); [exact D1|done..|congruence]).
        destruct (Htr sm t Hin) as (r' & Hr' & Hp' & Hs' & Ht' & Ho'). exists t, r'. split_and!; try done; [|congruence].
        intros Heq. apply Hnp. rewrite G1. apply list_elem_of_fmap. exists (sm, t). simpl. split; [congruence|done].
Qed.

(** C30. An inventory snapshot that reports every (slot, module) once is applied
    without tripping a constraint and keeps the tables well formed.  Afterwards only
    reported modules of the station are online; a row of any station stays unless it
    belongs to this station and either was already offline (not because the station
    dropped) and unseen for longer than the TTL, or its physical module is now
    online in another row.  An empty snapshot removes nothing. *)
Theorem inventory_snapshot types station now ttl slots db :
  reg_ok db → NoDup (reported_keys slots) → 0 ≤ ttl →
  ∃ db', apply_inventory types station now ttl slots db = Ok db' ∧ reg_ok db' ∧
    (∀ r, r ∈ rg_modules db' → sm_station r = station → sm_online r = true → row_key r ∈ reported_keys slots) ∧
    (∀ r, r ∈ rg_modules db → kept_in r db' ∨
      (slots ≠ [] ∧ sm_station r = station ∧
       ((expired station now ttl r ∧ sm_offline_with_station r = false) ∨ moved_away r db'))).
Proof.
  intros Hok Hnd Httl. unfold apply_inventory.
  destruct (apply_slots_ok types station now db slots (mkSnap db [] [] [] ∅)) as (s & -> & Hs & Hrep);
    [by apply snap_init|done|]. simpl in Hrep. rewrite <-Hrep.
  destruct slots as [|se slots'].
  - eexists. split; [done|]. simpl in Hrep. split_and!.
    + constructor; simpl; [rewrite fmap_update_where; [apply Hs|done]|rewrite fmap_update_where; [apply Hs|done]|apply Hs|].
      destruct (so_calib _ _ _ Hs) as [-> _]. apply Hok.
    + intros r Hr Hst Hon. simpl in Hr. apply elem_of_update_where in Hr as (x & Hx & [[_ ->]|[Hn ->]]); [done|].
      destruct (decide (row_key x ∈ sn_reported s)); [done|]. exfalso. tauto.
    + intros r Hr. left. destruct (so_old _ _ _ Hs r Hr) as (r1 & Hr1 & Hp & Hk). unfold kept_in. simpl.
      destruct (decide (sm_station r1 = station ∧ sm_online r1 = true ∧ row_key r1 ∉ sn_reported s)) as [Hd|Hd].
      * exists (set_presence false (Some now) (sm_offline_with_station r1) false r1). split; [|by split].
        apply elem_of_update_where. exists r1. auto.
      * exists r1. split; [|by split]. apply elem_of_update_where. exists r1. auto.
  - destruct (snapshot_finish_ok station now ttl (before_of station db) db s Hok Hs Httl)
      as (db3 & -> & Hf & Hp & Hk & Hc & Hon & Hkept).
    eexists. split; [done|]. split_and!.
    + constructor; simpl; try done. apply reconcile_station_ok. rewrite Hf. apply Hs.
    + exact Hon.
    + intros r Hr. destruct (Hkept r Hr) as [?|[Hst ?]]; [by left|]. right. done.
Qed.

(** A module re-plugged from slot 1 to slot 2 loses its old card, an entry unseen
    for longer than the TTL is pruned. *)
Lemma inventory_snapshot_witness :
  let types := [mkModuleType 1 "fm"] in
  let idn := mkIdentity "a" "fm_transceiver" "" "1.0.0" "" JNull in
  let fw := (run_ops [IV_ingest types 7 "1" "fm" idn 10 true] (mkFwDb [] [] [] [] [] [] [] [])).1 in
  let row pk slot t on := mkSM pk 7 slot "fm" "" "" "" t [] ∅ on (Some 10) false false 10 in
  let db := mkRegDb fw [row 1 "1" (Some 1) true; row 2 "3" None false] [] [] in
  let slots := [mkSlotEntry (Some "2") [mkModEntry (Some "fm") "" idn "" [] ∅]] in
  ∃ db', apply_inventory types 7 1000000 DEFAULT_STALE_MODULE_TTL_SECONDS slots db = Ok db' ∧ reg_ok db' ∧
    row_key <$> rg_modules db' = [("2", "fm")] ∧
    rg_log db' = [PL_moved 1 ("1", "fm") "2" [("1", "fm")]; PL_pruned "3" "fm"].
Proof.
  intros types idn fw row db slots.
  destruct (inventory_snapshot types 7 1000000 DEFAULT_STALE_MODULE_TTL_SECONDS slots db) as (db' & Hrun & Hok & _).
  - constructor; [apply (bool_decide_unpack _); vm_compute; exact I|
      apply (bool_decide_unpack _); vm_compute; exact I| |apply NoDup_nil_2].
    apply run_ops_ok. constructor; simpl; try apply NoDup_nil_2; intros ?; [intros ? Hn|intros Hn|intros Hn];
      by apply not_elem_of_nil in Hn.
  - apply (bool_decide_unpack _); vm_compute; exact I.
  - vm_compute. discriminate.
  - exists db'. split; [done|]. split; [done|]. revert Hrun. vm_compute. intros [= <-]. split; reflexivity.
Defined.

(** ** Persisted calibration: store and restore *)

Lemma filter_one {A B} (P : A → Prop) `{∀ x, Decision (P x)} (f : A → B) (l : list A) x :
  NoDup (f <$> l) → (∀ y, y ∈ l → P y → f y = f x) → x ∈ l → P x → filter P l = [x].
Proof.
  induction l as [|y l IH]; [by intros _ _ Hn%not_elem_of_nil|].
  rewrite fmap_cons, list.NoDup_cons. intros [Hy Hnd] Hu Hx HP. rewrite filter_cons.
  assert (∀ z, z ∈ l → f z = f y → False) as Hz by (intros z Hz Heq; apply Hy; rewrite <-Heq; by apply list_elem_of_fmap_2).
  apply elem_of_cons in Hx as [<-|Hx].
  - rewrite decide_True by done. f_equal.
    destruct (filter P l) as [|z l'] eqn:Hf; [done|]. exfalso.
    assert (z ∈ filter P l) as [HPz Hin]%list_elem_of_filter by (rewrite Hf; set_solver).
    apply (Hz z Hin), Hu; [set_solver|done].
  - rewrite decide_False; [apply IH; try done; set_solver|]. intros HPy. apply (Hz x Hx). symmetry. apply Hu; [set_solver|done].
Qed.

Definition at_cap (station : Z) (slot mid cap : string) (r : PersistedCapability) : Prop :=
  pc_station r = station ∧ pc_key r = (slot, mid) ∧ pc_capability r = cap.

Lemma at_cap_ck station slot mid cap r : at_cap station slot mid cap r ↔ ck r = ((station, (slot, mid)), cap).
Proof. unfold at_cap, ck. split; [by intros (-> & -> & ->)|]. intros Heq. split_and!; congruence. Qed.

Lemma save_ok station slot mid cap value user db :
  NoDup (pc_pk <$> rg_calib db) → NoDup (ck <$> rg_calib db) →
  let db' := save station slot mid cap value user db in
  NoDup (ck <$> rg_calib db') ∧ ∃ r, r ∈ rg_calib db' ∧ at_cap station slot mid cap r ∧ pc_value r = value.
Proof.
  intros Hpk Hck. unfold save. destruct (head _) as [r|] eqn:Hh.
  - apply head_filter_Some in Hh as [Hat Hr]. split.
    + simpl. rewrite fmap_update_where_in; [done|]. intros x Hx Heq.
      assert (x = r) as -> by (by eapply (NoDup_fmap_elem_inj pc_pk)). symmetry. by apply at_cap_ck.
    + exists (mkPC (pc_pk r) station slot mid cap value user). simpl. split; [|done].
      apply elem_of_update_where. exists r. auto.
  - rewrite head_filter_None in Hh. split.
    + simpl. rewrite fmap_app. apply list.NoDup_app. split; [done|]. split; [|apply NoDup_singleton].
      intros x (y & -> & Hy)%list_elem_of_fmap Heq%list_elem_of_singleton. apply (Hh y Hy). by apply at_cap_ck.
    + eexists. split; [simpl; apply elem_of_app; right; by apply list_elem_of_singleton|done].
Qed.

Lemma reapply_row_cap mod_ slot mid r f : reapply_row mod_ slot mid r = Some f → sf_capability f = pc_capability r.
Proof. unfold reapply_row. intros H. repeat case_match; by simplify_eq. Qed.

Lemma filter_frames mod_ slot mid cap (l : list PersistedCapability) :
  filter (λ f, sf_capability f = cap) (omap (reapply_row mod_ slot mid) l) =
  omap (reapply_row mod_ slot mid) (filter (λ r, pc_capability r = cap) l).
Proof.
  induction l as [|r l IH]; [done|]. rewrite filter_cons. simpl.
  destruct (reapply_row mod_ slot mid r) as [f|] eqn:Hf.
  - apply reapply_row_cap in Hf as Hc. rewrite filter_cons, Hc. case_decide; simpl; rewrite ?Hf; [f_equal|]; exact IH.
  - case_decide; simpl; rewrite ?Hf; exact IH.
Qed.

Definition not_updating (mod_ : list (string * Json)) : Prop :=
  py_eq (jget "status" mod_) (JStr "updating") = false ∧ jget "updating" mod_ ≠ JBool true.

(** Calibration survives a module reboot: a value the server accepted for a
    capability is, at the next inventory of that module with the same type and
    descriptor, re-sent exactly once when the module reports another value or none,
    and not at all when the module already agrees (so re-applying settles). *)
Lemma persisted_value_restored station slot mid cap value user db db' sm mod_ :
  NoDup (pc_pk <$> rg_calib db) → NoDup (ck <$> rg_calib db) →
  persist_if_valid station slot (JStr mid) (JStr cap) value user db = (db', true) →
  find_row station slot mid db = Some sm →
  jget "module" mod_ = JStr mid →
  jget "type" (obj_or_empty (jget "identity" mod_)) = JStr (sm_type sm) →
  jget "capabilities" mod_ = JList (JObj <$> sm_desc sm) → not_updating mod_ →
  let frames := reapply_frames station (JList [JObj [("slot", JStr slot); ("modules", JList [JObj mod_])]]) db' in
  ∃ row, filter (λ f, sf_capability f = cap) frames =
    match jlookup cap (obj_or_empty (jget "state" mod_)) with
    | Some v => if same v value then [] else [mkSetFrame row (JStr slot) mid cap value]
    | None => [mkSetFrame row (JStr slot) mid cap value]
    end.
Proof.
  intros Hpk Hck Hper Hrow Hmid Hty Hdesc [Hup1 Hup2]. unfold persist_if_valid in Hper. rewrite Hrow in Hper.
  destruct (pol_persist (policy_for POLICY (JStr cap) (JStr (sm_type sm)))) eqn:Hpol; [|done].
  destruct (settable_cap (JList (JObj <$> sm_desc sm)) cap) as [c|] eqn:Hcap; [|done].
  destruct (value_fits c value) eqn:Hfit; [|done]. simpl in Hper. injection Hper as <-.
  destruct (save_ok station slot mid cap value user db Hpk Hck) as (Hck' & r & Hr & Hat & Hval).
  set (db' := save station slot mid cap value user db) in *. exists (pc_pk r).
  assert (filter (λ x, pc_capability x = cap) (calib_at station (slot, mid) (rg_calib db')) = [r]) as Hone.
  { unfold calib_at. rewrite list_filter_filter.
    apply (filter_one _ ck); [done| |done|by destruct Hat as (? & ? & ?)].
    intros y _ (? & ? & ?). transitivity ((station, (slot, mid)), cap); [|symmetry]; by apply at_cap_ck. }
  assert (reapply_frames station (JList [JObj [("slot", JStr slot); ("modules", JList [JObj mod_])]]) db' =
    omap (reapply_row mod_ (JStr slot) mid) (calib_at station (slot, mid) (rg_calib db'))) as ->.
  { simpl. rewrite Hmid, Hup1. simpl. destruct (jget "updating" mod_) as [|[]| | | | |]; rewrite ?app_nil_r; done. }
  rewrite filter_frames, Hone. simpl. unfold reapply_row. destruct Hat as (_ & _ & Hrc).
  rewrite Hrc, Hty, Hpol, Hdesc, Hcap, Hval, Hfit. simpl.
  destruct (jlookup cap _) as [v|]; [by destruct (same v value)|done].
Qed.

(** The volume of an FM module, re-sent after a reboot to the default. *)
Lemma persisted_value_restored_witness :
  let desc := [[("name", JStr "volume"); ("kind", JStr "setting"); ("type", JStr "int")]] in
  let sm := mkSM 1 7 "1" "fm" "fm_transceiver" "" "" None desc ∅ true (Some 0) false false 0 in
  let db := mkRegDb (mkFwDb [] [] [] [] [] [] [] []) [sm] [] [] in
  let mod_ v := [("module", JStr "fm"); ("identity", JObj [("type", JStr "fm_transceiver")]);
                 ("capabilities", JList (JObj <$> desc)); ("state", JObj [("volume", JInt v)])] in
  ∃ db' row, persist_if_valid 7 "1" (JStr "fm") (JStr "volume") (JInt 5) (Some 3) db = (db', true) ∧
    filter (λ f, sf_capability f = "volume")
      (reapply_frames 7 (JList [JObj [("slot", JStr "1"); ("modules", JList [JObj (mod_ 1)])]]) db') =
    [mkSetFrame row (JStr "1") "fm" "volume" (JInt 5)].
Proof.
  intros desc sm db mod_. eexists. 
  destruct (persisted_value_restored 7 "1" "fm" "volume" (JInt 5) (Some 3) db
    (save 7 "1" "fm" "volume" (JInt 5) (Some 3) db) sm (mod_ 1)) as [row Hrow];
    [apply NoDup_nil_2|apply NoDup_nil_2|vm_compute; reflexivity|vm_compute; reflexivity|reflexivity|reflexivity
    |reflexivity|split; [reflexivity|discriminate]|].
  exists row. split; [vm_compute; reflexivity|]. exact Hrow.
Defined.

(** ** Which socket may tear down *)

Inductive PresenceEvent := PE_claim (channel : string) | PE_release (channel : string).

Definition run_presence (station : Z) (kind : AgentKind) (h : list PresenceEvent) : Presence :=
  foldl (λ p e, match e with
                | PE_claim c => (claim station kind c p).1
                | PE_release c => (presence_release station kind c p).1
                end) ∅ h.

(** A disconnect runs the station-wide teardown exactly when its own claim is the
    latest one and was not released: a stale disconnect never does. *)
Lemma teardown_only_by_current station kind h c :
  (presence_release station kind c (run_presence station kind h)).2 = true ↔
  ∃ h1 h2, h = h1 ++ PE_claim c :: h2 ∧ Forall (λ e, e ≠ PE_release c ∧ ∀ c', e ≠ PE_claim c') h2.
Proof.
  assert ((presence_release station kind c (run_presence station kind h)).2 = true ↔
    run_presence station kind h !! (station, kind) = Some c) as ->.
  { unfold presence_release. by case_decide. }
  unfold run_presence. induction h as [|e h IH] using rev_ind; simpl.
  { split; [done|]. intros (h1 & h2 & Heq & _). by destruct h1. }
  rewrite foldl_snoc. set (p := foldl _ ∅ h) in *. simpl. destruct e as [c'|c']; simpl.
  - rewrite lookup_insert_eq. split.
    + intros [= ->]. exists h, []. auto.
    + intros (h1 & h2 & Heq & Hall). destruct h2 as [|x h2 _] using rev_ind.
      * apply app_inj_tail in Heq as [_ [= ->]]. done.
      * rewrite app_comm_cons, app_assoc in Heq. apply app_inj_tail in Heq as [_ <-].
        apply Forall_app in Hall as [_ Hx]. apply Forall_singleton in Hx as [_ Hx]. by destruct (Hx c').
  - unfold presence_release. split.
    + case_decide as Hd; simpl; [by rewrite lookup_delete_eq|]. intros Hc. apply IH in Hc as (h1 & h2 & -> & Hall).
      exists h1, (h2 ++ [PE_release c']). split; [by rewrite <-app_assoc|]. apply Forall_app. split; [done|].
      apply Forall_singleton. split; [|done]. intros [= ->]. apply Hd. apply IH. by exists h1, h2.
    + intros (h1 & h2 & Heq & Hall). destruct h2 as [|x h2 _] using rev_ind.
      * by apply app_inj_tail in Heq as [_ [=]].
      * rewrite app_comm_cons, app_assoc in Heq. apply app_inj_tail in Heq as [-> <-].
        apply Forall_app in Hall as [Hall Hx]. apply Forall_singleton in Hx as [Hne _].
        assert (p !! (station, kind) = Some c) as Hc by (apply IH; by exists h1, h2).
        rewrite decide_False; [done|]. rewrite Hc. intros [= ->]. done.
Qed.
