(* ===== verification/PttSafety.v ===== *)
(** * Transmit safety of the agent: the PTT dead-man

    Models the concurrency of [station_agent/broker.py] around push-to-talk: the key
    and unkey commands of [handle_command], [handle_keepalive], the dead-man task
    ([_arm_dead_man], [_disarm_dead_man], [_dead_man]), the fail-safe [_unkey],
    [on_disconnect] with [stop], [slot_busy], and the pause protocol of
    [station_agent/module_ota.py] ([_pause_when_idle], [_barrier]) with
    [station_agent/slot_pause.py].

    The event loop runs one coroutine at a time up to its next [await]: every step
    below is what happens between two awaits.  A round trip to a device is two steps,
    reaching the wire (under the device lock, at most one per slot) and the result.
    Cancelling a task that sleeps or waits for the slot lock ends it there; when it
    waits for the executor thread, the thread still finishes.  The receive loop
    handles one frame at a time, so at most one PTT command is under way, and none
    when [on_disconnect] runs.  Time passes only up to the next dead-man deadline.
    [keyed] is the transmitters; a module that executes a command may still fail to
    answer.  The steps model one connection. *)

From Stdlib Require Import ZArith Lia.
From stdpp Require Import base gmap list strings sets.
From S2P Require Import Prelude.

Local Open Scope Z_scope.

(** (slot, module) *)
Notation Key := (Z * string)%type.

(** ** State *)

Inductive WirePhase := Queued | OnWire.

#[export] Instance WirePhase_eq_dec : EqDecision WirePhase.
Proof. solve_decision. Defined.

(** A PTT command being handled ([_ptt_inflight]). *)
Record PttCmd := mkCmd { cm_key : Key; cm_value : bool; cm_phase : WirePhase }.

(** A fail-safe unkey under way, of a dead-man task or of [on_disconnect] ([None]). *)
Record Unkey := mkUnkey { uk_key : Key; uk_task : option nat; uk_phase : WirePhase }.

(** [on_disconnect]: waiting for its current unkey, with the rest of its snapshot. *)
Inductive Disc := Connected | Awaiting (rest : list (Key * nat)) | Closed | Crashed.

#[export] Instance Disc_eq_dec : EqDecision Disc.
Proof. solve_decision. Defined.

(** A slot paused by the firmware flasher: [Flashing] in an update cycle,
    [Recovering] when it finishes an interrupted one ([_finish_from_marker]). *)
Inductive Flash := Paused | Drained | Flashing | Recovering.

Record Broker := mkBroker {
  b_now : Z;
  b_next : nat;
  b_ptt : gmap Key (nat * Z);
  b_unkeys : list Unkey;
  b_unkeying : gset Key;
  b_cmd : option PttCmd;
  b_orphans : list Key;
  b_disc : Disc;
  b_flash : gmap Z Flash;
  b_keyed : gset Key;
  b_unsure : gset Key;
  b_dropped : gset Key
}.

(** Setters. *)
Definition put_ptt (v : gmap Key (nat * Z)) (b : Broker) : Broker :=
  mkBroker (b_now b) (b_next b) v (b_unkeys b) (b_unkeying b) (b_cmd b) (b_orphans b) (b_disc b) (b_flash b)
    (b_keyed b) (b_unsure b) (b_dropped b).
Definition set_unkeys (v : list Unkey) (b : Broker) : Broker :=
  mkBroker (b_now b) (b_next b) (b_ptt b) v (b_unkeying b) (b_cmd b) (b_orphans b) (b_disc b) (b_flash b)
    (b_keyed b) (b_unsure b) (b_dropped b).
Definition set_unkeying (v : gset Key) (b : Broker) : Broker :=
  mkBroker (b_now b) (b_next b) (b_ptt b) (b_unkeys b) v (b_cmd b) (b_orphans b) (b_disc b) (b_flash b)
    (b_keyed b) (b_unsure b) (b_dropped b).
Definition set_cmd (v : option PttCmd) (b : Broker) : Broker :=
  mkBroker (b_now b) (b_next b) (b_ptt b) (b_unkeys b) (b_unkeying b) v (b_orphans b) (b_disc b) (b_flash b)
    (b_keyed b) (b_unsure b) (b_dropped b).
Definition set_orphans (v : list Key) (b : Broker) : Broker :=
  mkBroker (b_now b) (b_next b) (b_ptt b) (b_unkeys b) (b_unkeying b) (b_cmd b) v (b_disc b) (b_flash b)
    (b_keyed b) (b_unsure b) (b_dropped b).
Definition set_disc (v : Disc) (b : Broker) : Broker :=
  mkBroker (b_now b) (b_next b) (b_ptt b) (b_unkeys b) (b_unkeying b) (b_cmd b) (b_orphans b) v (b_flash b)
    (b_keyed b) (b_unsure b) (b_dropped b).
Definition set_flash (v : gmap Z Flash) (b : Broker) : Broker :=
  mkBroker (b_now b) (b_next b) (b_ptt b) (b_unkeys b) (b_unkeying b) (b_cmd b) (b_orphans b) (b_disc b) v
    (b_keyed b) (b_unsure b) (b_dropped b).
Definition set_keyed (v : gset Key) (b : Broker) : Broker :=
  mkBroker (b_now b) (b_next b) (b_ptt b) (b_unkeys b) (b_unkeying b) (b_cmd b) (b_orphans b) (b_disc b)
    (b_flash b) v (b_unsure b) (b_dropped b).
Definition set_unsure (v : gset Key) (b : Broker) : Broker :=
  mkBroker (b_now b) (b_next b) (b_ptt b) (b_unkeys b) (b_unkeying b) (b_cmd b) (b_orphans b) (b_disc b)
    (b_flash b) (b_keyed b) v (b_dropped b).
Definition set_dropped (v : gset Key) (b : Broker) : Broker :=
  mkBroker (b_now b) (b_next b) (b_ptt b) (b_unkeys b) (b_unkeying b) (b_cmd b) (b_orphans b) (b_disc b)
    (b_flash b) (b_keyed b) (b_unsure b) v.
Definition set_now (v : Z) (b : Broker) : Broker :=
  mkBroker v (b_next b) (b_ptt b) (b_unkeys b) (b_unkeying b) (b_cmd b) (b_orphans b) (b_disc b)
    (b_flash b) (b_keyed b) (b_unsure b) (b_dropped b).

Definition init : Broker := mkBroker 0 0 ∅ [] ∅ None [] Connected ∅ ∅ ∅ ∅.

(** ** Operations *)

(** [slot_busy]; a connection that is gone answers no. *)
Definition slot_busy (slot : Z) (b : Broker) : bool :=
  match b_disc b with
  | Closed => false
  | _ =>
    bool_decide (∃ k, k ∈ dom (b_ptt b) ∪ b_unkeying b ∧ k.1 = slot) ||
    match b_cmd b with Some c => bool_decide ((cm_key c).1 = slot) | None => false end
  end.

(** [_arm_dead_man]: a new task replaces the old one, cancelled in its sleep. *)
Definition arm_dead_man (k : Key) (b : Broker) : Broker :=
  mkBroker (b_now b) (S (b_next b)) (<[k := (b_next b, b_now b)]> (b_ptt b)) (b_unkeys b) (b_unkeying b)
    (b_cmd b) (b_orphans b) (b_disc b) (b_flash b) (b_keyed b) (b_unsure b) (b_dropped b).

Definition disarm_dead_man (k : Key) (b : Broker) : Broker := put_ptt (delete k (b_ptt b)) b.

(** [_unkey] up to its first await. *)
Definition start_unkey (k : Key) (task : option nat) (b : Broker) : Broker :=
  set_unkeys (b_unkeys b ++ [mkUnkey k task Queued]) (set_unkeying (b_unkeying b ∪ {[k]}) b).

(** The [finally] of [_unkey]. *)
Definition end_unkey (k : Key) (b : Broker) : Broker := set_unkeying (b_unkeying b ∖ {[k]}) b.

(** [task.cancel()] of a dead-man task that already fired. *)
Definition cancel_fired (task : nat) (b : Broker) : Broker :=
  match list_find (λ u, uk_task u = Some task) (b_unkeys b) with
  | None => b
  | Some (i, u) =>
    let b1 := end_unkey (uk_key u) (set_unkeys (delete i (b_unkeys b)) b) in
    match uk_phase u with
    | Queued => set_dropped (b_dropped b1 ∪ {[uk_key u]}) b1
    | OnWire => set_orphans (uk_key u :: b_orphans b1) b1
    end
  end.

(** One turn of the loop of [on_disconnect], up to the await of its unkey; after the
    last one [stop] clears what is left. *)
Definition unwind (rest : list (Key * nat)) (b : Broker) : Broker :=
  match rest with
  | [] => set_disc Closed (put_ptt ∅ b)
  | (k, task) :: rest' =>
    match b_ptt b !! k with
    | Some _ => set_disc (Awaiting rest') (start_unkey k None (disarm_dead_man k b))
    | None => set_disc Crashed (cancel_fired task b)
    end
  end.

Definition on_disconnect (b : Broker) : Broker :=
  unwind ((λ e, (e.1, e.2.1)) <$> map_to_list (b_ptt b)) b.

(** The unkey at [i] is over: [on_disconnect] goes on with its next module. *)
Definition finish_unkey (i : nat) (u : Unkey) (b : Broker) : Broker :=
  let b1 := end_unkey (uk_key u) (set_unkeys (delete i (b_unkeys b)) b) in
  match uk_task u, b_disc b1 with
  | None, Awaiting rest => unwind rest b1
  | _, _ => b1
  end.

(** No round trip on the slot's line. *)
Definition line_free (slot : Z) (b : Broker) : Prop :=
  (∀ c, b_cmd b = Some c → cm_phase c = OnWire → (cm_key c).1 ≠ slot) ∧
  (∀ u, u ∈ b_unkeys b → uk_phase u = OnWire → (uk_key u).1 ≠ slot) ∧
  (∀ k, k ∈ b_orphans b → k.1 ≠ slot).

Section steps.
(** The dead-man timeout, and how many modules may be keyed when the link drops. *)
Variables (timeout : Z) (max_keyed : nat).

Inductive step : Broker → Broker → Prop :=
| St_command k v b :
    b_disc b = Connected → b_cmd b = None → step b (set_cmd (Some (mkCmd k v Queued)) b)
(* refused before the wire: paused slot, unknown slot, busy line, device error *)
| St_refused c b :
    b_cmd b = Some c → cm_phase c = Queued → step b (set_cmd None b)
| St_cmd_wire c b :
    b_cmd b = Some c → cm_phase c = Queued → (cm_key c).1 ∉ dom (b_flash b) → line_free (cm_key c).1 b →
    step b (set_cmd (Some (mkCmd (cm_key c) (cm_value c) OnWire))
              (set_keyed (if cm_value c then b_keyed b ∪ {[cm_key c]} else b_keyed b ∖ {[cm_key c]}) b))
| St_cmd_ok c b :
    b_cmd b = Some c → cm_phase c = OnWire →
    step b (set_cmd None (set_unsure (b_unsure b ∖ {[cm_key c]})
              (if cm_value c then arm_dead_man (cm_key c) b else disarm_dead_man (cm_key c) b)))
(* the module acted but its answer was lost *)
| St_cmd_lost c b :
    b_cmd b = Some c → cm_phase c = OnWire →
    step b (set_cmd None (set_unsure (b_unsure b ∪ {[cm_key c]}) b))
| St_keepalive k e b :
    b_disc b = Connected → b_cmd b = None → b_ptt b !! k = Some e → step b (arm_dead_man k b)
| St_fire k task at_ b :
    b_ptt b !! k = Some (task, at_) → at_ + timeout ≤ b_now b →
    step b (start_unkey k (Some task) (disarm_dead_man k b))
| St_unkey_wire i u b :
    b_unkeys b !! i = Some u → uk_phase u = Queued → line_free (uk_key u).1 b →
    step b (set_keyed (b_keyed b ∖ {[uk_key u]})
              (set_unkeys (<[i := mkUnkey (uk_key u) (uk_task u) OnWire]> (b_unkeys b)) b))
| St_unkey_ok i u b :
    b_unkeys b !! i = Some u → uk_phase u = OnWire →
    step b (finish_unkey i u (set_unsure (b_unsure b ∖ {[uk_key u]}) b))
| St_unkey_fail i u b :
    b_unkeys b !! i = Some u → step b (finish_unkey i u (set_unsure (b_unsure b ∪ {[uk_key u]}) b))
| St_orphan i b :
    step b (set_orphans (delete i (b_orphans b)) b)
| St_tick t b :
    b_now b ≤ t → (∀ k e, b_ptt b !! k = Some e → t ≤ e.2 + timeout) → step b (set_now t b)
| St_disconnect b :
    b_disc b = Connected → b_cmd b = None → (size (b_ptt b) ≤ max_keyed)%nat → step b (on_disconnect b)
| St_pause slot b :
    b_flash b !! slot = None → step b (set_flash (<[slot := Paused]> (b_flash b)) b)
| St_barrier slot b :
    b_flash b !! slot = Some Paused → line_free slot b → step b (set_flash (<[slot := Drained]> (b_flash b)) b)
| St_flash slot b :
    b_flash b !! slot = Some Drained →
    step b (if slot_busy slot b then set_flash (delete slot (b_flash b)) b
            else set_flash (<[slot := Flashing]> (b_flash b)) b)
(* the recovery asks nobody whether the slot is busy *)
| St_recover slot b :
    b_flash b !! slot = Some Drained → step b (set_flash (<[slot := Recovering]> (b_flash b)) b)
| St_resume slot b :
    step b (set_flash (delete slot (b_flash b)) b).

Inductive ptt_reachable : Broker → Prop :=
| R_init : ptt_reachable init
| R_step b b' : ptt_reachable b → step b b' → ptt_reachable b'.

(** ** The invariant *)

Definition key_on_wire (b : Broker) (k : Key) : Prop :=
  ∃ c, b_cmd b = Some c ∧ cm_key c = k ∧ cm_value c = true ∧ cm_phase c = OnWire.

Record inv (b : Broker) : Prop := mkInv {
  i_cover : ∀ k, k ∈ b_keyed b →
    k ∈ dom (b_ptt b) ∨ k ∈ b_unkeying b ∨ key_on_wire b k ∨ k ∈ b_unsure b ∨ k ∈ b_dropped b;
  i_pending : ∀ k, k ∈ b_unkeying b → ∃ u, u ∈ b_unkeys b ∧ uk_key u = k;
  i_wire : ∀ u, u ∈ b_unkeys b → uk_phase u = OnWire → uk_key u ∉ b_keyed b;
  i_excl : ∀ u c, u ∈ b_unkeys b → uk_phase u = OnWire → b_cmd b = Some c → cm_phase c = OnWire →
    (cm_key c).1 ≠ (uk_key u).1;
  i_off : ∀ c, b_cmd b = Some c → cm_phase c = OnWire → cm_value c = false → cm_key c ∉ b_keyed b;
  i_cmd : ∀ c, b_cmd b = Some c → b_disc b = Connected;
  i_time : ∀ k e, b_ptt b !! k = Some e → e.2 ≤ b_now b ≤ e.2 + timeout;
  i_disc : ∀ rest, b_disc b = Awaiting rest → ∀ k, k ∈ dom (b_ptt b) → k ∈ rest.*1;
  i_paused : ∀ slot f c, b_flash b !! slot = Some f → f ≠ Paused → b_cmd b = Some c → cm_phase c = OnWire →
    (cm_key c).1 ≠ slot;
  i_flash : ∀ k, b_flash b !! k.1 = Some Flashing → k ∈ b_keyed b →
    k ∈ b_unsure b ∨ k ∈ b_dropped b ∨ (b_disc b = Closed ∧ k ∈ b_unkeying b);
  i_closed : b_disc b = Closed → b_ptt b = ∅
}.

Lemma inv_init : inv init.
Proof. constructor; simpl; try done; intros; exfalso; set_solver. Qed.

Lemma unsure_add k b : inv b → inv (set_unsure (b_unsure b ∪ {[k]}) b).
Proof.
  intros [H1 H2 H3 H4 H5 H6 H7 H8 H9 H10 H11]. constructor; simpl; try done.
  - intros x Hx. destruct (H1 x Hx) as [?|[?|[?|[?|?]]]]; [auto..| |auto]. right. right. right. left. set_solver.
  - intros x Hf Hx. destruct (H10 x Hf Hx) as [?|[?|?]]; set_solver.
Qed.

Lemma unsure_remove k b : inv b → k ∉ b_keyed b → inv (set_unsure (b_unsure b ∖ {[k]}) b).
Proof.
  intros [H1 H2 H3 H4 H5 H6 H7 H8 H9 H10 H11] Hk. constructor; simpl; try done.
  - intros x Hx. destruct (H1 x Hx) as [?|[?|[?|[?|?]]]]; [auto..| |auto]. right. right. right. left. set_solver.
  - intros x Hf Hx. destruct (H10 x Hf Hx) as [?|[?|?]]; set_solver.
Qed.

Lemma elem_of_delete_other (l : list Unkey) i u x :
  l !! i = Some u → x ∈ l → uk_key x ≠ uk_key u → x ∈ delete i l.
Proof.
  intros Hi Hx Hne. apply list_elem_of_lookup in Hx as [j Hj].
  assert (i ≠ j) by (intros ->; congruence). rewrite delete_take_drop.
  apply elem_of_app. destruct (decide (j < i)%nat).
  - left. apply list_elem_of_lookup. exists j. by rewrite lookup_take_lt.
  - right. apply list_elem_of_lookup. exists (j - S i)%nat. rewrite lookup_drop. rewrite <-Hj. f_equal. lia.
Qed.

Lemma elem_of_delete_sub (l : list Unkey) i x : x ∈ delete i l → x ∈ l.
Proof. intros H. eapply elem_of_sublist; [exact H|]. apply sublist_delete. Qed.

(** An unkey ends: its module is off, or known to be unsure or dropped. *)
Lemma end_ok i u b :
  inv b → b_unkeys b !! i = Some u →
  (uk_key u ∉ b_keyed b ∨ uk_key u ∈ b_unsure b ∨ uk_key u ∈ b_dropped b) →
  inv (end_unkey (uk_key u) (set_unkeys (delete i (b_unkeys b)) b)).
Proof.
  intros [H1 H2 H3 H4 H5 H6 H7 H8 H9 H10 H11] Hi Hk. constructor; simpl; try done.
  - intros x Hx. destruct (H1 x Hx) as [?|[Hu|[?|[?|?]]]]; auto 6.
    destruct (decide (x = uk_key u)) as [->|Hne]; [|set_solver]. destruct Hk as [?|[?|?]]; [done|auto 6..].
  - intros x Hx. rewrite elem_of_difference in Hx. destruct Hx as [Hx Hne].
    destruct (H2 x Hx) as (v & Hv & <-). exists v. split; [|done]. eapply elem_of_delete_other; [done|done|set_solver].
  - intros v Hv%elem_of_delete_sub. by apply H3.
  - intros v c Hv%elem_of_delete_sub. by apply H4.
  - intros x Hf Hx. destruct (H10 x Hf Hx) as [?|[?|[Hcl Hu]]]; auto.
    destruct (decide (x = uk_key u)) as [->|Hne]; [|right; right; set_solver]. destruct Hk as [?|[?|?]]; [done|auto..].
Qed.

Lemma start_ok k task b : inv b → inv (start_unkey k task (disarm_dead_man k b)).
Proof.
  intros [H1 H2 H3 H4 H5 H6 H7 H8 H9 H10 H11]. constructor; simpl; try done.
  - intros x Hx. destruct (decide (x = k)) as [->|Hne]; [set_solver|].
    destruct (H1 x Hx) as [?|[?|[?|[?|?]]]]; [left; rewrite dom_delete; set_solver|set_solver|auto 6..].
  - intros x Hx. destruct (decide (x = k)) as [->|Hne].
    + eexists. split; [apply elem_of_app; right; by apply list_elem_of_singleton|done].
    + destruct (H2 x ltac:(set_solver)) as (u & Hu & Hk). exists u. split; [apply elem_of_app; by left|done].
  - intros u [Hu|Hu%list_elem_of_singleton]%elem_of_app; [by apply H3|by subst u].
  - intros u c [Hu|Hu%list_elem_of_singleton]%elem_of_app; [by apply H4|by subst u].
  - intros x e He. apply lookup_delete_Some in He as [_ He]. by apply (H7 x).
  - intros rest Hr x Hx. rewrite dom_delete in Hx. apply (H8 rest Hr). set_solver.
  - intros x Hf Hx. destruct (H10 x Hf Hx) as [?|[?|?]]; set_solver.
  - intros Hc. rewrite (H11 Hc). apply delete_empty.
Qed.

Lemma set_disc_ok d b :
  inv b → b_cmd b = None → (d = Closed → b_ptt b = ∅) → b_disc b ≠ Closed →
  (∀ rest, d = Awaiting rest → ∀ k, k ∈ dom (b_ptt b) → k ∈ rest.*1) → inv (set_disc d b).
Proof.
  intros [H1 H2 H3 H4 H5 H6 H7 H8 H9 H10 H11] Hc Hcl Hnc Hrest. constructor; simpl; try done.
  - intros c Hcc. congruence.
  - intros k Hf Hk. destruct (H10 k Hf Hk) as [?|[?|[? _]]]; [auto..|done].
Qed.

Lemma cancel_ok task b : inv b → inv (cancel_fired task b).
Proof.
  intros Hok. unfold cancel_fired. destruct (list_find _ (b_unkeys b)) as [[i u]|] eqn:Hf; [|done].
  apply list_find_Some in Hf as (Hi & _ & _). assert (u ∈ b_unkeys b) as Hu by (by eapply list_elem_of_lookup_2).
  destruct (uk_phase u) eqn:Hp.
  - assert (inv (set_dropped (b_dropped b ∪ {[uk_key u]}) b)) as Hok1.
    { destruct Hok as [H1 H2 H3 H4 H5 H6 H7 H8 H9 H10 H11]. constructor; simpl; try done.
      - intros x Hx. destruct (H1 x Hx) as [?|[?|[?|[?|?]]]]; auto 6. do 4 right. set_solver.
      - intros x Hfl Hx. destruct (H10 x Hfl Hx) as [?|[?|?]]; set_solver. }
    apply (end_ok i u _ Hok1 Hi). simpl. right. right. set_solver.
  - assert (inv (end_unkey (uk_key u) (set_unkeys (delete i (b_unkeys b)) b))) as [H1 H2 H3 H4 H5 H6 H7 H8 H9 H10 H11].
    { apply end_ok; [done..|]. left. by apply (i_wire _ Hok). }
    constructor; done.
Qed.

Lemma cancel_cols task b :
  b_cmd (cancel_fired task b) = b_cmd b ∧ b_disc (cancel_fired task b) = b_disc b ∧
  b_ptt (cancel_fired task b) = b_ptt b.
Proof. unfold cancel_fired. repeat case_match; done. Qed.

Lemma unwind_ok rest b :
  inv b → b_cmd b = None → b_disc b ≠ Closed → (∀ k, k ∈ dom (b_ptt b) → k ∈ rest.*1) → inv (unwind rest b).
Proof.
  intros Hok Hc Hnc Hrest. unfold unwind. destruct rest as [|[k task] rest].
  - assert (b_ptt b = ∅) as Hp.
    { apply dom_empty_inv_L, elem_of_equiv_empty_L. intros k Hk. apply Hrest in Hk. by apply not_elem_of_nil in Hk. }
    assert (put_ptt ∅ b = b) as -> by (rewrite <-Hp; by destruct b). by apply set_disc_ok.
  - destruct (b_ptt b !! k) as [e|] eqn:Hk.
    + apply set_disc_ok; [by apply start_ok|done|done|done|]. intros r [= <-] x Hx. simpl in Hx.
      rewrite dom_delete in Hx. specialize (Hrest x). simpl in Hrest. set_solver.
    + destruct (cancel_cols task b) as (E1 & E2 & E3).
      apply set_disc_ok; [by apply cancel_ok|congruence|done|congruence|done].
Qed.

Lemma ptt_finish_ok i u b :
  inv b → b_unkeys b !! i = Some u →
  (uk_key u ∉ b_keyed b ∨ uk_key u ∈ b_unsure b ∨ uk_key u ∈ b_dropped b) → inv (finish_unkey i u b).
Proof.
  intros Hok Hi Hk. unfold finish_unkey. pose proof (end_ok i u b Hok Hi Hk) as He.
  set (b1 := end_unkey _ _) in *. destruct (uk_task u); [done|].
  destruct (b_disc b1) as [|rest| |] eqn:Hd; try done.
  apply unwind_ok; [done| |congruence|by apply (i_disc _ He)].
  destruct (b_cmd b1) as [c|] eqn:Hc; [|done]. apply (i_cmd _ He) in Hc. congruence.
Qed.

(** A PTT command comes and goes without reaching the wire. *)
Lemma set_cmd_ok o b :
  inv b → (∀ c, b_cmd b = Some c → cm_phase c = Queued) → (∀ c, o = Some c → cm_phase c = Queued ∧ b_disc b = Connected) →
  inv (set_cmd o b).
Proof.
  intros [H1 H2 H3 H4 H5 H6 H7 H8 H9 H10 H11] Hq Ho. constructor; simpl; try done.
  - intros x Hx. destruct (H1 x Hx) as [?|[?|[(c & Hc & _ & _ & Hp)|[?|?]]]]; auto 6.
    specialize (Hq c Hc). congruence.
  - intros u c Hu _ Hc Hp. destruct (Ho c Hc) as [? _]. congruence.
  - intros c Hc Hp. destruct (Ho c Hc) as [? _]. congruence.
  - intros c Hc. by apply (Ho c).
  - intros slot f c _ _ Hc Hp. destruct (Ho c Hc) as [? _]. congruence.
Qed.

Lemma cmd_wire_ok c b :
  inv b → b_cmd b = Some c → (cm_key c).1 ∉ dom (b_flash b) → line_free (cm_key c).1 b →
  inv (set_cmd (Some (mkCmd (cm_key c) (cm_value c) OnWire))
    (set_keyed (if cm_value c then b_keyed b ∪ {[cm_key c]} else b_keyed b ∖ {[cm_key c]}) b)).
Proof.
  intros [H1 H2 H3 H4 H5 H6 H7 H8 H9 H10 H11] Hc Hfl (_ & Hfree & _).
  assert (∀ x, x ∈ (if cm_value c then b_keyed b ∪ {[cm_key c]} else b_keyed b ∖ {[cm_key c]}) →
    x ∈ b_keyed b ∨ (x = cm_key c ∧ cm_value c = true)) as Hx.
  { intros x. destruct (cm_value c); set_solver. }
  constructor; simpl.
  - intros x [Hk|[-> Hv]]%Hx.
    + destruct (H1 x Hk) as [?|[?|[(c' & Hc' & <- & Hv & _)|[?|?]]]]; auto 6.
      right. right. left. eexists. split; [done|]. split_and!; simpl; congruence.
    + right. right. left. by eexists.
  - done.
  - intros u Hu Hp [Hk|[Heq _]]%Hx; [by apply (H3 u)|]. apply (Hfree u Hu Hp). by rewrite Heq.
  - intros u d Hu Hp [= <-] _. simpl. intros Heq. by apply (Hfree u Hu Hp).
  - intros d [= <-] _ Hv. simpl in *. rewrite Hv. set_solver.
  - intros d _. by apply (H6 c).
  - done.
  - done.
  - intros slot f d Hs _ [= <-] _. simpl. intros <-. apply Hfl, elem_of_dom. by exists f.
  - intros x Hs [Hk|[-> _]]%Hx; [by apply H10|]. exfalso. apply Hfl, elem_of_dom. by exists Flashing.
  - done.
Qed.

Lemma cmd_ok_ok c b :
  0 ≤ timeout → inv b → b_cmd b = Some c → cm_phase c = OnWire →
  inv (set_cmd None (set_unsure (b_unsure b ∖ {[cm_key c]})
    (if cm_value c then arm_dead_man (cm_key c) b else disarm_dead_man (cm_key c) b))).
Proof.
  intros Ht [H1 H2 H3 H4 H5 H6 H7 H8 H9 H10 H11] Hc Hp.
  assert (∀ x, x ∈ b_keyed b → x ≠ cm_key c → x ∈ dom (b_ptt b) ∨ x ∈ b_unkeying b ∨
    x ∈ b_unsure b ∖ {[cm_key c]} ∨ x ∈ b_dropped b) as Hother.
  { intros x Hx Hne. destruct (H1 x Hx) as [?|[?|[(d & Hd & <- & _)|[?|?]]]]; [auto|auto|congruence|set_solver|auto]. }
  assert (∀ x, b_flash b !! x.1 = Some Flashing → x ∈ b_keyed b →
    x ∈ b_unsure b ∖ {[cm_key c]} ∨ x ∈ b_dropped b ∨ (b_disc b = Closed ∧ x ∈ b_unkeying b)) as Hfl.
  { intros x Hf Hx. destruct (decide (x = cm_key c)) as [->|Hne].
    - by destruct (H9 (cm_key c).1 Flashing c Hf ltac:(done) Hc Hp).
    - destruct (H10 x Hf Hx) as [?|[?|?]]; set_solver. }
  destruct (cm_value c) eqn:Hv; constructor; simpl; try done.
  - intros x Hx. destruct (decide (x = cm_key c)) as [->|Hne]; [left; rewrite dom_insert_L; set_solver|].
    rewrite dom_insert_L. destruct (Hother x Hx Hne) as [?|[?|[?|?]]]; [left; set_solver|auto 6..].
  - intros x e. rewrite lookup_insert_Some. intros [[<- <-]|[_ He]]; [simpl; lia|by apply (H7 x)].
  - intros rest Hr. specialize (H6 c Hc). congruence.
  - intros Hcl. specialize (H6 c Hc). congruence.
  - intros x Hx. assert (x ≠ cm_key c) as Hne by (intros ->; by apply (H5 c)).
    rewrite dom_delete_L. destruct (Hother x Hx Hne) as [?|[?|[?|?]]]; [left; set_solver|auto 6..].
  - intros x e [_ He]%lookup_delete_Some. by apply (H7 x).
  - intros rest Hr. specialize (H6 c Hc). congruence.
  - intros Hcl. specialize (H6 c Hc). congruence.
Qed.

Lemma keepalive_ok k e b :
  0 ≤ timeout → inv b → b_disc b = Connected → b_ptt b !! k = Some e → inv (arm_dead_man k b).
Proof.
  intros Ht [H1 H2 H3 H4 H5 H6 H7 H8 H9 H10 H11] Hd Hk. constructor; simpl; try done.
  - intros x Hx. rewrite dom_insert_L. destruct (H1 x Hx) as [?|[?|[?|[?|?]]]]; [left; set_solver|auto 6..].
  - intros x e'. rewrite lookup_insert_Some. intros [[<- <-]|[_ He]]; [simpl; lia|by apply (H7 x)].
  - intros rest Hr. congruence.
  - intros Hcl. congruence.
Qed.

Lemma unkey_wire_ok i u b :
  inv b → b_unkeys b !! i = Some u → line_free (uk_key u).1 b →
  inv (set_keyed (b_keyed b ∖ {[uk_key u]})
    (set_unkeys (<[i := mkUnkey (uk_key u) (uk_task u) OnWire]> (b_unkeys b)) b)).
Proof.
  intros [H1 H2 H3 H4 H5 H6 H7 H8 H9 H10 H11] Hi (Hfree & _ & _).
  assert (∀ v, v ∈ <[i := mkUnkey (uk_key u) (uk_task u) OnWire]> (b_unkeys b) →
    v ∈ b_unkeys b ∨ v = mkUnkey (uk_key u) (uk_task u) OnWire) as Hv.
  { intros v [j Hj]%list_elem_of_lookup. apply list_lookup_insert_Some in Hj as [(_ & -> & _)|[_ Hj]]; [by right|].
    left. by eapply list_elem_of_lookup_2. }
  constructor; simpl; try done.
  - intros x Hx. destruct (H1 x ltac:(set_solver)) as [?|[?|[?|[?|?]]]]; auto 6.
  - intros x Hx. destruct (H2 x Hx) as (v & [j Hj]%list_elem_of_lookup & <-). destruct (decide (i = j)) as [<-|Hne].
    + exists (mkUnkey (uk_key u) (uk_task u) OnWire). split; [|simpl; congruence].
      eapply list_elem_of_lookup_2, list_lookup_insert_eq. by eapply lookup_lt_Some.
    + exists v. split; [|done]. eapply (list_elem_of_lookup_2 _ j). by rewrite list_lookup_insert_ne.
  - intros v [Hin| ->]%Hv Hp; [specialize (H3 v Hin Hp); set_solver|simpl; set_solver].
  - intros v c [Hin| ->]%Hv Hp Hc Hcp; [by apply H4|]. simpl. by apply Hfree.
  - intros c Hc Hp Hvv. specialize (H5 c Hc Hp Hvv). set_solver.
  - intros x Hf Hx. apply H10; [done|set_solver].
Qed.

Lemma flash_ok slot f b :
  inv b → (f ≠ Some Paused → f ≠ None → line_free slot b ∨ b_flash b !! slot = Some Drained) →
  (f = Some Flashing → slot_busy slot b = false) →
  inv (set_flash (partial_alter (λ _, f) slot (b_flash b)) b).
Proof.
  intros [H1 H2 H3 H4 H5 H6 H7 H8 H9 H10 H11] Hdr Hb. constructor; simpl; try done.
  - intros s g c Hs Hg Hc Hp. destruct (decide (slot = s)) as [<-|Hne].
    + rewrite lookup_partial_alter_eq in Hs. destruct Hdr as [[Hfree _]|Hd]; [congruence|congruence| |].
      * by apply Hfree.
      * by apply (H9 slot Drained c Hd).
    + rewrite lookup_partial_alter_ne in Hs by done. by apply (H9 s g c).
  - intros k Hs Hk. destruct (decide (slot = k.1)) as [Heq|Hne].
    + rewrite <-Heq, lookup_partial_alter_eq in Hs. specialize (Hb Hs). unfold slot_busy in Hb.
      destruct (decide (b_disc b = Closed)) as [Hcl|Hncl].
      { destruct (H1 k Hk) as [Hp|[?|[(c & Hc & _)|[?|?]]]]; auto.
        - rewrite (H11 Hcl), dom_empty in Hp. set_solver.
        - specialize (H6 c Hc). congruence. }
      assert (bool_decide (∃ k, k ∈ dom (b_ptt b) ∪ b_unkeying b ∧ k.1 = slot) = false ∧
        match b_cmd b with Some c => bool_decide ((cm_key c).1 = slot) | None => false end = false) as [Hb1 Hb2].
      { apply orb_false_iff. by destruct (b_disc b). }
      apply bool_decide_eq_false in Hb1. destruct (H1 k Hk) as [?|[?|[(c & Hc & Hck & _)|[?|?]]]]; auto.
      * exfalso. apply Hb1. exists k. set_solver.
      * exfalso. apply Hb1. exists k. set_solver.
      * rewrite Hc, Hck in Hb2. apply bool_decide_eq_false in Hb2. congruence.
    + rewrite lookup_partial_alter_ne in Hs by done. by apply H10.
Qed.

Lemma inv_step b b' : 0 ≤ timeout → inv b → step b b' → inv b'.
Proof.
  intros Ht Hok Hs. destruct Hs as [k v b Hd Hc|c b Hc Hp|c b Hc Hp Hfl Hl|c b Hc Hp|c b Hc Hp|k e b Hd Hc Hk
    |k task t b Hk Hle|i u b Hi Hp Hl|i u b Hi Hp|i u b Hi|i b|t b Hle Hdl|b Hd Hc Hsz|slot b Hf|slot b Hf Hl|slot b Hf|slot b Hf|slot b].
  - apply set_cmd_ok; [done|congruence|]. by intros c [= <-].
  - apply set_cmd_ok; [done|congruence|done].
  - by apply cmd_wire_ok.
  - by apply cmd_ok_ok.
  - assert (inv (set_unsure (b_unsure b ∪ {[cm_key c]}) b)) as [H1 H2 H3 H4 H5 H6 H7 H8 H9 H10 H11] by (by apply unsure_add).
    constructor; simpl; try done. intros x Hx. destruct (H1 x Hx) as [?|[?|[(d & Hd & <- & _)|[?|?]]]]; auto 6.
    simpl in Hd. right. right. right. left. assert (d = c) as -> by congruence. set_solver.
  - by eapply keepalive_ok.
  - by apply start_ok.
  - by apply unkey_wire_ok.
  - assert (uk_key u ∉ b_keyed b) by (apply (i_wire _ Hok); [by eapply list_elem_of_lookup_2|done]).
    apply ptt_finish_ok; [by apply unsure_remove|done|by left].
  - apply ptt_finish_ok; [by apply unsure_add|done|]. right. left. simpl. set_solver.
  - destruct Hok. by constructor.
  - destruct Hok as [H1 H2 H3 H4 H5 H6 H7 H8 H9 H10 H11]. constructor; simpl; try done.
    intros k e He. specialize (H7 k e He). specialize (Hdl k e He). lia.
  - unfold on_disconnect. apply unwind_ok; [done..|congruence|]. intros k [e He]%elem_of_dom.
    rewrite <-list_fmap_compose. apply list_elem_of_fmap. exists (k, e). split; [done|]. by apply elem_of_map_to_list.
  - by apply (flash_ok slot (Some Paused)).
  - apply (flash_ok slot (Some Drained)); [done| |done]. auto.
  - destruct (slot_busy slot b) eqn:Hb; [by apply (flash_ok slot None)|].
    apply (flash_ok slot (Some Flashing)); [done| |done]. auto.
  - apply (flash_ok slot (Some Recovering)); [done| |done]. auto.
  - by apply (flash_ok slot None).
Qed.

Lemma ptt_reachable_inv b : 0 ≤ timeout → ptt_reachable b → inv b.
Proof. intros Ht. induction 1; [apply inv_init|by eapply inv_step]. Qed.

End steps.

(** ** With at most one module keyed when the link drops *)

Lemma unwind_nil b : b_dropped (unwind [] b) = b_dropped b ∧ b_disc (unwind [] b) = Closed.
Proof. done. Qed.

(** [on_disconnect] then never meets a dead-man that fired in between. *)
Record calm (b : Broker) : Prop := mkCalm {
  ca_dropped : b_dropped b = ∅;
  ca_crash : b_disc b ≠ Crashed;
  ca_rest : ∀ rest, b_disc b = Awaiting rest → rest = []
}.

Lemma finish_calm i u b : calm b → calm (finish_unkey i u b).
Proof.
  intros [H1 H2 H3]. unfold finish_unkey. simpl. destruct (uk_task u); [by constructor|].
  destruct (b_disc b) as [|rest| |] eqn:Hd; try (constructor; simpl; congruence).
  rewrite (H3 rest eq_refl). by constructor.
Qed.

Lemma disconnect_calm b :
  calm b → (size (b_ptt b) ≤ 1)%nat → calm (on_disconnect b).
Proof.
  intros [H1 H2 H3] Hsz. unfold on_disconnect. rewrite <-length_map_to_list in Hsz.
  destruct (map_to_list (b_ptt b)) as [|[k e] [|]] eqn:Hl; simpl in *; [by constructor| |lia].
  assert (b_ptt b !! k = Some e) as -> by (apply elem_of_map_to_list; rewrite Hl; set_solver).
  constructor; simpl; [done|done|congruence].
Qed.

Lemma reachable_calm timeout b : ptt_reachable timeout 1 b → calm b.
Proof.
  induction 1 as [|b b' _ Hc Hs]; [by constructor|].
  destruct Hs as [k v b Hd _|c b _ _|c b _ _ _ _|c b _ _|c b _ _|k e b _ _ _|k task t b _ _|i u b _ _ _|i u b _ _|i u b _
    |i b|t b _ _|b _ _ Hsz|slot b _|slot b _ _|slot b _|slot b _|slot b];
    try (destruct Hc; by constructor); try (by apply finish_calm; destruct Hc; constructor).
  - destruct Hc, (cm_value c); by constructor.
  - by apply disconnect_calm.
  - destruct Hc, (slot_busy slot b); by constructor.
Qed.

(** ** Theorems *)

(** C11. The PTT dead-man, over every interleaving of commands, keepalives, timers,
    round trips, pauses and a lost link with at most one module keyed: a transmitter
    that is on, and whose last command was answered, either was keyed or kept alive
    within the timeout and its dead-man is armed, or its fail-safe unkey is waiting
    for the line, or its key command is still on the wire; and until the connection
    is gone the slot counts as busy. *)
Theorem ptt_dead_man timeout b k :
  0 ≤ timeout → ptt_reachable timeout 1 b → k ∈ b_keyed b → k ∉ b_unsure b →
  ((∃ task at_, b_ptt b !! k = Some (task, at_) ∧ at_ ≤ b_now b ≤ at_ + timeout) ∨
   (∃ u, u ∈ b_unkeys b ∧ uk_key u = k ∧ uk_phase u = Queued ∧ k ∈ b_unkeying b) ∨
   key_on_wire b k) ∧
  (b_disc b ≠ Closed → slot_busy k.1 b = true).
Proof.
  intros Ht Hr Hk Hu. pose proof (ptt_reachable_inv _ _ _ Ht Hr) as Hinv.
  destruct (reachable_calm _ _ Hr) as [Hdrop _ _].
  assert (k ∈ dom (b_ptt b) ∨ k ∈ b_unkeying b ∨ key_on_wire b k) as Hcov.
  { destruct (i_cover _ _ Hinv k Hk) as [?|[?|[?|[?|?]]]]; auto; [done|set_solver]. }
  split.
  - destruct Hcov as [[[task t] Hp]%elem_of_dom|[Hun|Hw]]; [left|right; left|by right; right].
    + exists task, t. split; [done|]. apply (i_time _ _ Hinv k _ Hp).
    + destruct (i_pending _ _ Hinv k Hun) as (u & Hin & Hkey). exists u. split_and!; try done.
      destruct (uk_phase u) eqn:Hp; [done|]. exfalso. apply (i_wire _ _ Hinv u Hin Hp). by rewrite Hkey.
  - intros Hd. unfold slot_busy. destruct (b_disc b) eqn:Hdc; try done;
      (destruct Hcov as [?|[?|(c & -> & <- & _)]];
       [rewrite bool_decide_true; [done|exists k; set_solver]
       |rewrite bool_decide_true; [done|exists k; set_solver]
       |by rewrite (bool_decide_true (_.1 = _)), orb_true_r]).
Qed.


(** ** Two modules keyed when the link drops *)

(** Nothing of this connection acts any more. *)
Definition dead (b : Broker) : Prop :=
  b_disc b = Crashed ∧ b_ptt b = ∅ ∧ b_unkeys b = [] ∧ b_cmd b = None.

Lemma dead_step timeout n b b' : dead b → step timeout n b b' → dead b' ∧ b_keyed b' = b_keyed b.
Proof.
  intros (Hd & Hp & Hu & Hc) Hs. destruct Hs; simplify_eq; try congruence; try done.
  - rewrite Hp in *. by rewrite lookup_empty in *.
  - rewrite Hu in *. done.
  - rewrite Hu in *. done.
  - rewrite Hu in *. done.
  - by destruct (slot_busy slot b).
Qed.

Lemma dead_forever timeout n b b' : rtc (step timeout n) b b' → dead b → b_keyed b' = b_keyed b.
Proof.
  induction 1 as [|b1 b2 b3 Hs _ IH]; [done|]. intros Hd. apply dead_step in Hs as [Hd' <-]; [|done]. by apply IH.
Qed.

Definition line_freeb (slot : Z) (b : Broker) : bool :=
  match b_cmd b with
  | Some c => negb (bool_decide (cm_phase c = OnWire) && bool_decide ((cm_key c).1 = slot))
  | None => true
  end &&
  forallb (λ u, negb (bool_decide (uk_phase u = OnWire) && bool_decide ((uk_key u).1 = slot))) (b_unkeys b) &&
  forallb (λ k, negb (bool_decide (k.1 = slot))) (b_orphans b).

Lemma line_freeb_ok slot b : line_freeb slot b = true → line_free slot b.
Proof.
  unfold line_freeb. rewrite !andb_true_iff, !forallb_forall. intros [[Hc Hu] Ho]. split_and!.
  - intros c Hcc Hp Heq. rewrite Hcc in Hc. by rewrite !bool_decide_true in Hc.
  - intros u Hin Hp Heq. apply list_elem_of_In, Hu in Hin. by rewrite !bool_decide_true in Hin.
  - intros k Hin Heq. apply list_elem_of_In, Ho in Hin. by rewrite bool_decide_true in Hin.
Qed.

(** [do ptt true] on module [k], answered. *)
Definition key_up (k : Key) (b : Broker) : Broker :=
  let b1 := set_cmd (Some (mkCmd k true Queued)) b in
  let b2 := set_cmd (Some (mkCmd k true OnWire)) (set_keyed (b_keyed b1 ∪ {[k]}) b1) in
  set_cmd None (set_unsure (b_unsure b2 ∖ {[k]}) (arm_dead_man k b2)).

Lemma key_up_reachable timeout n k b :
  ptt_reachable timeout n b → b_disc b = Connected → b_cmd b = None → k.1 ∉ dom (b_flash b) →
  line_freeb k.1 b = true → ptt_reachable timeout n (key_up k b).
Proof.
  intros Hr Hd Hc Hf Hl. unfold key_up. set (b1 := set_cmd (Some (mkCmd k true Queued)) b).
  assert (ptt_reachable timeout n b1) as H1 by (eapply R_step; [exact Hr|by apply St_command]).
  set (b2 := set_cmd (Some (mkCmd k true OnWire)) _).
  assert (ptt_reachable timeout n b2) as H2.
  { eapply R_step; [exact H1|]. apply (St_cmd_wire _ _ (mkCmd k true Queued) b1); [done..|].
    apply line_freeb_ok. unfold line_freeb in *. rewrite Hc in Hl. simpl. exact Hl. }
  eapply R_step; [exact H2|]. by apply (St_cmd_ok _ _ (mkCmd k true OnWire) b2).
Qed.

(** Both modules of slot 1 keyed, and the link lost: the first unkey is queued. *)
Definition two_keyed : Broker := key_up (1, "b") (key_up (1, "a") init).

Lemma two_keyed_disconnect :
  let b := on_disconnect two_keyed in
  b_unkeys b = [mkUnkey (1, "a") None Queued] ∧ b_disc b = Awaiting [((1, "b"), 1%nat)] ∧
  b_ptt b = {[(1, "b") := (1%nat, 0)]} ∧ line_freeb 1 b = true ∧ b_cmd b = None ∧ b_unsure b = ∅ ∧ b_now b = 0 ∧
  b_keyed b = {[(1, "a"); (1, "b")]} ∧ (size (b_ptt two_keyed) ≤ 2)%nat.
Proof. split_and!; [vm_compute; reflexivity..|]. apply (bool_decide_unpack _). vm_compute. exact I. Qed.

Lemma two_keyed_reachable : ptt_reachable 1500 2 two_keyed.
Proof.
  unfold two_keyed. apply key_up_reachable; [apply key_up_reachable; [constructor|done|done|set_solver|done]|..];
    [vm_compute; reflexivity|vm_compute; reflexivity|set_solver|vm_compute; reflexivity].
Qed.

(** From there: the second dead-man fires while the first unkey is on the wire. *)
Lemma second_unkey_dropped b2 :
  ptt_reachable 1500 2 b2 →
  b_unkeys b2 = [mkUnkey (1, "a") None Queued] → b_disc b2 = Awaiting [((1, "b"), 1%nat)] →
  b_ptt b2 = {[(1, "b") := (1%nat, 0)]} → line_freeb 1 b2 = true → b_cmd b2 = None → b_unsure b2 = ∅ →
  b_now b2 = 0 → (1, "b") ∈ b_keyed b2 →
  ∃ b, ptt_reachable 1500 2 b ∧ dead b ∧ (1, "b") ∈ b_keyed b ∧ b_unsure b = ∅.
Proof.
  intros H2 Hu Hd Hpt Hl Hc Hun Hnow Hk.
  set (b3 := set_keyed (b_keyed b2 ∖ {[(1, "a")]}) (set_unkeys [mkUnkey (1, "a") None OnWire] b2)).
  assert (ptt_reachable 1500 2 b3) as H3.
  { eapply R_step; [exact H2|].
    pose proof (St_unkey_wire 1500 2 0 (mkUnkey (1, "a") None Queued) b2) as Hs. rewrite Hu in Hs.
    by apply Hs, line_freeb_ok. }
  assert (ptt_reachable 1500 2 (set_now 1500 b3)) as H4.
  { eapply R_step; [exact H3|]. apply St_tick; [simpl; lia|]. simpl. rewrite Hpt.
    intros x e [<- <-]%lookup_singleton_Some. simpl. lia. }
  set (b5 := set_unkeys [mkUnkey (1, "a") None OnWire; mkUnkey (1, "b") (Some 1%nat) Queued]
    (set_unkeying (b_unkeying b2 ∪ {[(1, "b")]}) (put_ptt ∅ (set_now 1500 b3)))).
  assert (ptt_reachable 1500 2 b5) as H5.
  { eapply R_step; [exact H4|]. pose proof (St_fire 1500 2 (1, "b") 1 0 (set_now 1500 b3)) as Hs.
    unfold start_unkey, disarm_dead_man in Hs. simpl in Hs. rewrite Hpt, delete_singleton_eq in Hs.
    apply Hs; [apply lookup_singleton_eq|lia]. }
  eexists. split; [eapply R_step; [exact H5|by apply (St_unkey_ok 1500 2 0 (mkUnkey (1, "a") None OnWire))]|].
  unfold finish_unkey, dead. simpl. rewrite Hd. simpl. rewrite Hun. split_and!; [done..| |set_solver].
  apply elem_of_difference. split; [done|]. rewrite elem_of_singleton. intros [=].
Qed.

(** C37. The limit of the guarantee: when two modules are keyed and the link drops,
    the second one's dead-man can fire while [on_disconnect] waits for the first
    unkey; [on_disconnect] then cancels that dead-man's unkey before it reaches the
    line and fails on the missing entry.  The transmitter stays on: no step of the
    connection ever turns it off again. *)
Theorem disconnect_can_leave_keyed :
  ∃ b k, ptt_reachable 1500 2 b ∧ k ∈ b_keyed b ∧ k ∉ b_unsure b ∧ b_disc b = Crashed ∧
    ∀ b', rtc (step 1500 2) b b' → k ∈ b_keyed b'.
Proof.
  destruct two_keyed_disconnect as (Hu & Hd & Hpt & Hl & Hc & Hun & Hnow & Hkd & Hsz).
  destruct (second_unkey_dropped (on_disconnect two_keyed)) as (b & Hr & Hdead & Hk & Huns);
    [|exact Hu|exact Hd|exact Hpt|exact Hl|exact Hc|exact Hun|exact Hnow|..].
  - eapply R_step; [apply two_keyed_reachable|]. apply St_disconnect; [vm_compute; reflexivity..|exact Hsz].
  - rewrite Hkd. apply elem_of_union. right. by apply elem_of_singleton.
  - clear Hu Hd Hpt Hl Hc Hun Hnow Hkd Hsz. exists b, (1, "b").
    split_and!; [done|done|rewrite Huns; apply not_elem_of_empty|by destruct Hdead|].
    intros b' Hrtc. by rewrite (dead_forever _ _ _ _ Hrtc Hdead).
Qed.

(** A key command whose answer is lost leaves a keyed module without a dead-man. *)
Example lost_answer_unarmed :
  ∃ b, ptt_reachable 1500 1 b ∧ (1, "a") ∈ b_keyed b ∧ b_ptt b = ∅ ∧ b_disc b = Connected ∧ slot_busy 1 b = false.
Proof.
  set (k := (1, "a") : Key). set (b1 := set_cmd (Some (mkCmd k true Queued)) init).
  assert (ptt_reachable 1500 1 b1) as H1 by (eapply R_step; [constructor|by apply St_command]).
  eexists. split; [|split; [|split; [|split]]].
  - eapply R_step; [eapply R_step; [exact H1|apply (St_cmd_wire _ _ (mkCmd k true Queued) b1);
      [done|done|simpl; apply not_elem_of_empty|by apply line_freeb_ok]]|eapply St_cmd_lost; done].
  - simpl. set_solver.
  - done.
  - done.
  - vm_compute. reflexivity.
Qed.

(** Pause and barrier of an idle line. *)
Definition drain (slot : Z) (b : Broker) : Broker :=
  let b1 := set_flash (<[slot := Paused]> (b_flash b)) b in set_flash (<[slot := Drained]> (b_flash b1)) b1.

Lemma drain_reachable timeout n slot b :
  ptt_reachable timeout n b → b_flash b !! slot = None → line_freeb slot b = true → ptt_reachable timeout n (drain slot b).
Proof.
  intros Hr Hf Hl. eapply (R_step _ _ (set_flash (<[slot := Paused]> (b_flash b)) b)).
  - eapply R_step; [exact Hr|by apply St_pause].
  - apply (St_barrier _ _ slot (set_flash (<[slot := Paused]> (b_flash b)) b)); [apply lookup_insert_eq|by apply line_freeb_ok].
Qed.

(** The first exception of [no_flash_while_keyed] besides lost answers: the dead-man
    fires, the link drops before the unkey has the line, and the flasher, told that
    nobody is connected, starts. *)
Example flash_after_disconnect :
  ∃ b, ptt_reachable 1500 1 b ∧ b_flash b !! 1 = Some Flashing ∧ (1, "a") ∈ b_keyed b ∧ b_unsure b = ∅.
Proof.
  set (b1 := key_up (1, "a") init).
  assert (ptt_reachable 1500 1 b1) as H1 by (apply key_up_reachable; [constructor|done|done|set_solver|done]).
  assert (ptt_reachable 1500 1 (set_now 1500 b1)) as H2.
  { eapply R_step; [exact H1|]. apply St_tick; [vm_compute; discriminate|]. intros k e He. simpl in He.
    apply lookup_insert_Some in He as [[_ <-]|[_ He]]; [vm_compute; discriminate|by rewrite lookup_empty in He]. }
  assert (ptt_reachable 1500 1 (start_unkey (1, "a") (Some 0%nat) (disarm_dead_man (1, "a") (set_now 1500 b1)))) as H3.
  { eapply R_step; [exact H2|]. apply (St_fire _ _ _ _ 0); [apply lookup_insert_eq|vm_compute; discriminate]. }
  set (b3 := start_unkey _ _ _) in H3.
  assert (ptt_reachable 1500 1 (on_disconnect b3)) as H4.
  { eapply R_step; [exact H3|]. apply St_disconnect; [done..|]. apply (bool_decide_unpack _). vm_compute. exact I. }
  pose proof (drain_reachable _ _ 1 _ H4 ltac:(vm_compute; reflexivity) ltac:(vm_compute; reflexivity)) as H5.
  set (b5 := drain 1 (on_disconnect b3)) in H5.
  exists (set_flash (<[1 := Flashing]> (b_flash b5)) b5). split_and!.
  - eapply R_step; [exact H5|]. assert (slot_busy 1 b5 = false) as Hb by (vm_compute; reflexivity).
    pose proof (St_flash 1500 1 1 b5 ltac:(apply lookup_insert_eq)) as Hs. rewrite Hb in Hs. exact Hs.
  - apply lookup_insert_eq.
  - apply (bool_decide_unpack _). vm_compute. exact I.
  - vm_compute. reflexivity.
Qed.

(** Recovery pauses the slot and goes to the device whatever is keyed. *)
Example recovery_while_keyed :
  ∃ b, ptt_reachable 1500 1 b ∧ b_flash b !! 1 = Some Recovering ∧ (1, "a") ∈ b_keyed b ∧
    b_unsure b = ∅ ∧ b_disc b = Connected ∧ slot_busy 1 b = true.
Proof.
  set (b1 := key_up (1, "a") init).
  assert (ptt_reachable 1500 1 b1) as H1 by (apply key_up_reachable; [constructor|done|done|set_solver|done]).
  pose proof (drain_reachable _ _ 1 _ H1 ltac:(vm_compute; reflexivity) ltac:(vm_compute; reflexivity)) as H2.
  exists (set_flash (<[1 := Recovering]> (b_flash (drain 1 b1))) (drain 1 b1)). split_and!.
  - eapply R_step; [exact H2|]. apply (St_recover _ _ 1 (drain 1 b1)). apply lookup_insert_eq.
  - apply lookup_insert_eq.
  - apply (bool_decide_unpack _). vm_compute. exact I.
  - vm_compute. reflexivity.
  - done.
  - vm_compute. reflexivity.
Qed.

(** A keyed module in the middle of its timeout. *)
Lemma ptt_dead_man_witness :
  let b := set_now 1000 (key_up (1, "a") init) in
  (1, "a") ∈ b_keyed b ∧ slot_busy 1 b = true ∧
  ∃ task at_, b_ptt b !! (1, "a") = Some (task, at_) ∧ at_ ≤ b_now b ≤ at_ + 1500.
Proof.
  intros b. assert (ptt_reachable 1500 1 b) as Hr.
  { apply (R_step _ _ (key_up (1, "a") init)); [apply key_up_reachable; [constructor|done|done|set_solver|done]|].
    apply St_tick; [vm_compute; discriminate|]. intros k e He. simpl in He.
    apply lookup_insert_Some in He as [[_ <-]|[_ He]]; [vm_compute; discriminate|by rewrite lookup_empty in He]. }
  assert ((1, "a") ∈ b_keyed b) as Hk by (simpl; set_solver).
  destruct (ptt_dead_man 1500 b (1, "a")) as [Hcov Hbusy]; [lia|done|done|simpl; set_solver|].
  split; [done|]. split; [apply Hbusy; done|].
  destruct Hcov as [?|[(u & Hu & _)|(c & Hc & _)]]; [done|by apply not_elem_of_nil in Hu|done].
Defined.

