(* ===== verification/AgentBroker.v ===== *)
(** * The command broker of the agent

    Models the request handling of [station_agent/broker.py] ([handle_command],
    [_execute], [_execute_virtual], [_handle_virtual_command], [apply_preset],
    [handle_apply_preset], [set_inventory], [emit_inventory]), the inventory
    debouncer of [station_agent/control_client.py] and the paused entries of
    [station_agent/slot_pause.py].

    A handler is a function of the broker's tables, the device and the virtual
    modules to the frames it sends and the lines it writes to devices, in order; it
    returns [Raise PyError] when an exception escapes it.  The device (what a control
    line answers, also a timeout, or that the access raises) and the virtual modules
    are parameters.  The PTT
    dead-man and the interleaving of handlers are in [PttSafety], the scanner's hold
    in [Scanner]. *)

From Stdlib Require Import ZArith Lia Ascii SpecFloat.
From stdpp Require Import base gmap list sorting strings pretty.
From S2P Require Import Prelude Json Capabilities.

Local Open Scope Z_scope.

(** ** Data *)

Definition err_name (c : ErrCode) : string :=
  match c with
  | VALIDATION_FAILED => "validation_failed"
  | UNKNOWN_SLOT => "unknown_slot"
  | UNKNOWN_MODULE => "unknown_module"
  | UNKNOWN_CAPABILITY => "unknown_capability"
  | WRONG_OP => "wrong_op"
  | READ_ONLY => "read_only"
  | OUT_OF_RANGE => "out_of_range"
  | BAD_VALUE => "bad_value"
  | TIMEOUT => "timeout"
  end.

(** [{"ok": True, "value": v}] or [{"ok": False, "error": code}]. *)
Inductive ExecResult := EOk (value : Json) | EErr (code : string).

(** A line written to a control device. *)
Record Call := mkCall { cl_path : string; cl_bytes : list ascii }.

Inductive BrokerFrame :=
| F_ok (request_id value : Json)
| F_error (request_id : Json) (code : string)
| F_preset (request_id : Json) (ok : bool) (results : list (string * ExecResult))
| F_state (slot : Z) (module : string) (values : list (string * Json)).

(** A virtual module: its command handler ([None]: it raised) and its state. *)
Record Virtual := mkVirtual {
  vm_handle : string → string → Json → option ExecResult;
  vm_state : option (list (string * Json))
}.

(** A descriptor kept by the broker. *)
Record Descriptor_ := mkDesc { de_identity : Json; de_capabilities : Json; de_status : option string }.

(** The broker's tables; [bt_paused] is [slot_pause]. *)
Record Tables := mkTables {
  bt_descriptors : list ((Z * string) * Descriptor_);
  bt_controls : gmap Z string;
  bt_virtual : gmap (Z * string) Virtual;
  bt_paused : gset Z
}.

Definition find_desc (slot : Z) (module : string) (t : Tables) : option Descriptor_ :=
  snd ∘ snd <$> list_find (λ p, p.1 = (slot, module)) (bt_descriptors t).

(** A handler that sends frames and writes lines. *)
Definition Trace := (list BrokerFrame * list Call)%type.

Section broker.
Context (repr : spec_float → string) (expand : string → string).
(** What the device at a path answers to a line; [None]: the access raises. *)
Context (dev : string → list ascii → option ExecResult).

(** [_execute_virtual] *)
Definition execute_virtual (vm : Virtual) (cap : string) : ExecResult :=
  match vm_state vm with
  | None => EErr (err_name VALIDATION_FAILED)
  | Some st => match jlookup cap st with Some v => EOk v | None => EErr (err_name UNKNOWN_CAPABILITY) end
  end.

(** [_execute] with [SlotControl.execute] *)
Definition execute (t : Tables) (slot : Z) (module op cap : string) (token : option Json) (failsafe : bool)
    : option ExecResult * list Call :=
  match bt_virtual t !! (slot, module) with
  | Some vm => (Some (execute_virtual vm cap), [])
  | None =>
    if negb failsafe && bool_decide (slot ∈ bt_paused t) then (Some (EErr "updating"), [])
    else
      match bt_controls t !! slot with
      | None => (Some (EErr (err_name UNKNOWN_SLOT)), [])
      | Some path =>
        match command_bytes (JStr module) (JStr cap) op token with
        | None => (Some (EErr "bad_value"), [])
        | Some bytes => (dev path bytes, [mkCall path bytes])
        end
      end
  end.

(** The token of a validated value; what has no text of one word ([JNull]) the
    transport refuses. *)
Definition token_of (cap : Cap) (value : Json) : Json :=
  match format_value repr expand (jget "type" cap) value with Some s => JStr s | None => JNull end.

(** A request id that can be answered: a non-empty string or an integer. *)
Definition valid_rid (rid : Json) : bool :=
  match rid with JStr s => bool_decide (s ≠ "") | JInt _ => true | _ => false end.

(** [_handle_virtual_command] *)
Definition handle_virtual_command (rid : Json) (slot : Z) (module : string) (vm : Virtual) (op cap : string)
    (value : Json) : Trace :=
  match vm_handle vm op cap value with
  | None => ([F_error rid (err_name VALIDATION_FAILED)], [])
  | Some (EOk v) => ([F_ok rid v; F_state slot module [(cap, v)]], [])
  | Some (EErr code) => ([F_error rid code], [])
  end.

Definition unknown_code (slot : Z) (t : Tables) : string :=
  if bool_decide (slot ∈ dom (bt_controls t)) then err_name UNKNOWN_MODULE else err_name UNKNOWN_SLOT.

(** [handle_command] from the descriptor on, for an address and operation that are
    well typed. *)
Definition run_command (t : Tables) (rid : Json) (slot : Z) (module capability op : string) (value : Json)
    : outcome CommandError Trace :=
  match find_desc slot module t with
  | None => Ok ([F_error rid (unknown_code slot t)], [])
  | Some d =>
    match bt_virtual t !! (slot, module) with
    | Some vm => Ok (handle_virtual_command rid slot module vm op capability value)
    | None =>
      let cap := index_capabilities (de_capabilities d) !! capability in
      match validate_command cap op value with
      | Raise (ProtocolError code) => Ok ([F_error rid (err_name code)], [])
      | Raise PyError => Raise PyError
      | Ok _ =>
        let token := if decide (op = "get") then None else Some (token_of (default [] cap) value) in
        let '(res, calls) := execute t slot module op capability token false in
        match res with
        | Some (EOk v) => Ok ([F_ok rid v; F_state slot module [(capability, v)]], calls)
        | Some (EErr code) => Ok ([F_error rid code], calls)
        | None => Raise PyError
        end
      end
    end
  end.

(** [handle_command] *)
Definition handle_command (t : Tables) (msg : list (string * Json)) : outcome CommandError Trace :=
  let rid := jget "request_id" msg in
  if negb (valid_rid rid) then Ok ([], [])
  else
    match jget "slot" msg, jget "module" msg, jget "capability" msg, jget "op" msg with
    | JInt slot, JStr module, JStr capability, JStr op =>
      run_command t rid slot module capability op (jget "value" msg)
    | _, _, _, _ => Ok ([F_error rid (err_name VALIDATION_FAILED)], [])
    end.

(** ** Presets *)

Definition PRESET_ORDER : list string := ["tx_frequency"; "rx_frequency"; "tx_tone"; "rx_tone"; "bandwidth"].

(** An error of the whole device: the remaining settings inherit it. *)
Definition aborts (code : string) : bool := bool_decide (code ∈ ["timeout"; "updating"; "unknown_slot"]).

Record PresetAcc := mkPresetAcc {
  pa_results : list (string * ExecResult);
  pa_abort : option string;
  pa_calls : list Call
}.

(** One setting of [apply_preset]: an exception of the device access is answered
    [internal_error] and ends the attempts; one of the validation escapes. *)
Definition preset_step (t : Tables) (slot : Z) (module : string) (caps : gmap string Cap)
    (values : list (string * Json)) (acc : PresetAcc) (name : string) : outcome CommandError PresetAcc :=
  match jlookup name values with
  | None => Ok acc
  | Some value =>
    match pa_abort acc with
    | Some code => Ok (mkPresetAcc (pa_results acc ++ [(name, EErr code)]) (pa_abort acc) (pa_calls acc))
    | None =>
      match validate_command (caps !! name) "set" value with
      | Raise (ProtocolError code) =>
        Ok (mkPresetAcc (pa_results acc ++ [(name, EErr (err_name code))]) None (pa_calls acc))
      | Raise PyError => Raise PyError
      | Ok _ =>
        let '(res, calls) :=
          execute t slot module "set" name (Some (token_of (default [] (caps !! name)) value)) false in
        match res with
        | None => Ok (mkPresetAcc (pa_results acc ++ [(name, EErr "internal_error")]) (Some "internal_error")
                        (pa_calls acc ++ calls))
        | Some r =>
          let abort := match r with EErr code => if aborts code then Some code else None | EOk _ => None end in
          Ok (mkPresetAcc (pa_results acc ++ [(name, r)]) abort (pa_calls acc ++ calls))
        end
      end
    end
  end.

Definition all_error (values : list (string * Json)) (code : string) : list (string * ExecResult) :=
  (λ n, (n, EErr code)) <$> filter (λ n, jlookup n values ≠ None) PRESET_ORDER.

Definition apply_preset (t : Tables) (slot : Z) (module : string) (values : list (string * Json))
    : outcome CommandError PresetAcc :=
  match find_desc slot module t with
  | None => Ok (mkPresetAcc (all_error values (unknown_code slot t)) None [])
  | Some d =>
    match bt_virtual t !! (slot, module) with
    | Some _ => Ok (mkPresetAcc (all_error values (err_name WRONG_OP)) None [])
    | None =>
      ofold (preset_step t slot module (index_capabilities (de_capabilities d)) values)
        (mkPresetAcc [] None []) PRESET_ORDER
    end
  end.

Definition is_ok (r : ExecResult) : bool := match r with EOk _ => true | EErr _ => false end.

Definition ok_values (rs : list (string * ExecResult)) : list (string * Json) :=
  omap (λ p, match p.2 with EOk v => Some (p.1, v) | EErr _ => None end) rs.

(** [handle_apply_preset]; [busy] is [slot_busy]. *)
Definition handle_apply_preset (t : Tables) (busy : Z → bool) (msg : list (string * Json))
    : outcome CommandError Trace :=
  let rid := jget "request_id" msg in
  if negb (valid_rid rid) then Ok ([], [])
  else
    match jget "slot" msg, jget "module" msg, jget "values" msg with
    | JInt slot, JStr module, JObj values =>
      if negb (existsb (λ n, bool_decide (is_Some (jlookup n values))) PRESET_ORDER) ||
         existsb (λ p, bool_decide (p.1 ∉ PRESET_ORDER)) values
      then Ok ([F_error rid (err_name VALIDATION_FAILED)], [])
      else if busy slot then Ok ([F_error rid "ptt_active"], [])
      else
        match apply_preset t slot module values with
        | Raise e => Raise e
        | Ok acc =>
          let rs := pa_results acc in
          let oks := ok_values rs in
          Ok (F_preset rid (forallb (λ p, is_ok p.2) rs) rs ::
                match oks with [] => [] | _ => [F_state slot module oks] end, pa_calls acc)
        end
    | _, _, _ => Ok ([F_error rid (err_name VALIDATION_FAILED)], [])
    end.

(** ** Inventory *)

Record DiscModule := mkDiscModule {
  dm_id : string;
  dm_identity : Json;
  dm_capabilities : Json;
  dm_status : option string
}.

Record DiscSlot := mkDiscSlot { ds_slot : Z; ds_control : string; ds_modules : list DiscModule }.

(** [d[k] = v] of a dict: an old key keeps its place. *)
Fixpoint dict_put {A} (k : Z * string) (v : A) (l : list ((Z * string) * A)) : list ((Z * string) * A) :=
  match l with
  | [] => [(k, v)]
  | (k', v') :: l' => if decide (k' = k) then (k, v) :: l' else (k', v') :: dict_put k v l'
  end.

Definition add_slot (t : Tables) (e : DiscSlot) : Tables :=
  mkTables
    (foldl (λ ds m, dict_put (ds_slot e, dm_id m) (mkDesc (dm_identity m) (dm_capabilities m) (dm_status m)) ds)
      (bt_descriptors t) (ds_modules e))
    (<[ds_slot e := ds_control e]> (bt_controls t)) (bt_virtual t) (bt_paused t).

(** [set_inventory]; [vdesc] are the virtual modules' descriptors. *)
Definition set_inventory (vdesc : list ((Z * string) * Descriptor_)) (discovered : list DiscSlot) (t : Tables)
    : Tables :=
  let t1 := foldl add_slot (mkTables [] ∅ (bt_virtual t) (bt_paused t)) discovered in
  mkTables (foldl (λ ds p, dict_put p.1 p.2 ds) (bt_descriptors t1) vdesc) (bt_controls t1) (bt_virtual t1)
    (bt_paused t1).

Record ModuleOut := mkModuleOut {
  mo_module : string;
  mo_ident : Json;
  mo_caps : list Json;
  mo_state : list (string * Json);
  mo_status : option string
}.

Definition caps_list (caps : Json) : list Json := match caps with JList l => l | _ => [] end.

(** A [get] for every setting of the module. *)
Definition read_cap (t : Tables) (slot : Z) (module : string) (acc : list (string * Json) * list Call) (c : Json)
    : outcome CommandError (list (string * Json) * list Call) :=
  match c with
  | JObj cap =>
    match py_eq (jget "kind" cap) (JStr "setting"), jget "name" cap with
    | true, JStr name =>
      if decide (name = "") then Ok acc
      else
        let '(res, calls) := execute t slot module "get" name None false in
        match res with
        | Some (EOk v) => Ok (acc.1 ++ [(name, v)], acc.2 ++ calls)
        | Some (EErr _) => Ok (acc.1, acc.2 ++ calls)
        | None => Raise PyError
        end
    | _, _ => Ok acc
    end
  | _ => Ok acc
  end.

Definition emit_module (t : Tables) (slot : Z) (module : string) (d : Descriptor_)
    : outcome CommandError (ModuleOut * list Call) :=
  let caps := caps_list (de_capabilities d) in
  match bt_virtual t !! (slot, module) with
  | Some vm =>
    match vm_state vm with
    | Some st => Ok (mkModuleOut module (de_identity d) caps st None, [])
    | None => Raise PyError
    end
  | None =>
    obind (ofold (read_cap t slot module) ([], []) (if decide (slot ∈ bt_paused t) then [] else caps))
      (λ r, Ok (mkModuleOut module (de_identity d) caps r.1 (de_status d), r.2))
  end.

Definition emit_slot (t : Tables) (acc : list (Z * list ModuleOut) * list Call) (slot : Z)
    : outcome CommandError (list (Z * list ModuleOut) * list Call) :=
  obind
    (ofold (λ acc p, obind (emit_module t slot p.1.2 p.2) (λ r, Ok (acc.1 ++ [r.1], acc.2 ++ r.2)))
      ([], acc.2) (filter (λ p, p.1.1 = slot) (bt_descriptors t)))
    (λ r, Ok (acc.1 ++ [(slot, r.1)], r.2)).

(** [emit_inventory]: slots in ascending order. *)
Definition slots_of (t : Tables) : list Z :=
  sort_by id (remove_dups ((λ p, p.1.1) <$> bt_descriptors t)).

Definition emit_inventory (t : Tables) : outcome CommandError (list (Z * list ModuleOut) * list Call) :=
  ofold (emit_slot t) ([], []) (slots_of t).

End broker.

(** ** The debounced inventory ([_SlotInventoryDebouncer]) *)

Record Debouncer := mkDebouncer { db_last : gmap Z DiscSlot; db_miss : gmap Z nat }.

(** [slot_pause.updating_entry] *)
Definition updating_entry (e : DiscSlot) : DiscSlot :=
  mkDiscSlot (ds_slot e) (ds_control e)
    ((λ m, mkDiscModule (dm_id m) (dm_identity m) (dm_capabilities m) (Some "updating")) <$> ds_modules e).

Section debounce.
(** [max_misses]; the paused slots with their snapshot. *)
Variables (max_misses : nat) (paused : gmap Z (option DiscSlot)).

Definition present (discovered : list DiscSlot) : gmap Z DiscSlot :=
  list_to_map (reverse ((λ e, (ds_slot e, e)) <$> filter (λ e, paused !! ds_slot e = None) discovered)).

Definition misses (d : Debouncer) (slot : Z) : nat := default 0%nat (db_miss d !! slot).

(** What happens to one remembered slot. *)
Definition keep_slot (seen : gmap Z DiscSlot) (d : Debouncer) (slot : Z) : bool :=
  match seen !! slot, paused !! slot with
  | Some _, _ | None, Some _ => true
  | None, None => bool_decide (S (misses d slot) ≤ max_misses)%nat
  end.

Definition new_miss (seen : gmap Z DiscSlot) (d : Debouncer) (slot : Z) : nat :=
  match seen !! slot, paused !! slot with
  | Some _, _ | None, Some _ => 0%nat
  | None, None => S (misses d slot)
  end.

Definition update_state (discovered : list DiscSlot) (d : Debouncer) : Debouncer :=
  let seen := present discovered in
  let last := filter (λ p, keep_slot seen d p.1 = true) (seen ∪ db_last d) in
  mkDebouncer last (map_imap (λ slot _, Some (new_miss seen d slot)) last).

(** The entry shown for a paused slot. *)
Definition paused_entry (last : gmap Z DiscSlot) (slot : Z) (snapshot : option DiscSlot) : option DiscSlot :=
  match snapshot with
  | Some e => Some (updating_entry e)
  | None => updating_entry <$> last !! slot
  end.

Definition effective (last : gmap Z DiscSlot) : gmap Z DiscSlot :=
  map_imap (λ slot snap, paused_entry last slot snap) paused ∪ last.

Definition update (discovered : list DiscSlot) (d : Debouncer) : Debouncer * list DiscSlot :=
  let d' := update_state discovered d in
  (d', snd <$> sort_by fst (map_to_list (effective (db_last d')))).

End debounce.

Definition forget (slot : Z) (d : Debouncer) : Debouncer :=
  mkDebouncer (delete slot (db_last d)) (delete slot (db_miss d)).

(** ** Properties of the handlers *)

(** What a write that passes the validation may address. *)
Lemma validate_write cap op value :
  validate_command (Some cap) op value = Ok tt →
  op ∈ ["set"; "get"; "do"] ∧
  (op ∈ WRITE_OPS → truthy_json (jget "readonly" cap) = false ∧ value ≠ JNull ∧ check_value cap value = Ok tt ∧
    jlookup "kind" cap = Some (JStr (if decide (op = "set") then "setting" else "action"))).
Proof.
  unfold validate_command. set (kind := default (JStr "") (jlookup "kind" cap)). intros H.
  apply obind_Ok in H as (allowed & Hal & H).
  destruct (bool_decide (op ∈ WRITE_OPS) && _) eqn:Hro; [done|].
  destruct (bool_decide (op ∉ allowed)) eqn:Hop; [done|]. apply bool_decide_eq_false, dec_stable in Hop.
  assert (∃ ks, kind = JStr ks ∧ ((ks = "setting" ∧ allowed = ["set"; "get"]) ∨ (ks = "action" ∧ allowed = ["do"; "get"]) ∨
    (ks = "telemetry" ∧ allowed = ["get"]))) as (ks & Hks & Hcase).
  { unfold OPS_FOR_KIND in Hal. destruct kind as [| | | |ks| |]; simplify_eq/=; try (by apply not_elem_of_nil in Hop); try done.
    exists ks. split; [done|].
    destruct (decide (ks = "setting")) as [->|]; [simplify_eq; auto|].
    destruct (decide (ks = "action")) as [->|]; [simplify_eq; auto|].
    destruct (decide (ks = "telemetry")) as [->|]; [simplify_eq; auto|].
    exfalso. revert Hal Hop. repeat case_match; subst; try done; intros [= <-] Hop; by apply not_elem_of_nil in Hop. }
  assert (op = "set" ∧ ks = "setting" ∨ op = "do" ∧ ks = "action" ∨ op = "get") as Hops.
  { destruct Hcase as [[-> ->]|[[-> ->]|[-> ->]]]; rewrite !elem_of_cons in Hop;
      destruct Hop as [->|Hop]; auto; try (destruct Hop as [->|Hop]; auto); by apply not_elem_of_nil in Hop. }
  split; [destruct Hops as [[-> _]|[[-> _]| ->]]; rewrite !elem_of_cons; auto|].
  intros Hw. rewrite (bool_decide_true _ Hw) in Hro. simpl in Hro. apply orb_false_iff in Hro as [Htel Hr]. split; [done|].
  assert (op ≠ "get") as Hng.
  { intros ->. unfold WRITE_OPS in Hw. rewrite !elem_of_cons in Hw. destruct Hw as [?|[?|Hn]]; [done|done|]. by apply not_elem_of_nil in Hn. }
  rewrite (bool_decide_false (op = "get")) in H by done.
  assert (jlookup "kind" cap = Some (JStr (if decide (op = "set") then "setting" else "action"))) as Hkind.
  { assert (ks ≠ "") as Hne by (destruct Hcase as [[-> _]|[[-> _]|[-> _]]]; done).
    assert (jlookup "kind" cap = Some (JStr ks)) as ->.
    { subst kind. destruct (jlookup "kind" cap); simpl in Hks; congruence. }
    destruct Hops as [[-> ->]|[[-> ->]|?]]; done. }
  by destruct value.
Qed.

(** A read carries no value. *)
Lemma validate_get cap op value : validate_command cap op value = Ok tt → op = "get" → value = JNull.
Proof.
  unfold validate_command. destruct cap as [cap|]; [|done]. intros H ->. apply obind_Ok in H as (al & _ & H).
  destruct (_ && _); [done|]. destruct (bool_decide _); [done|]. rewrite bool_decide_true in H by done.
  by destruct value.
Qed.

Section broker_proofs.
Context (repr : spec_float → string) (expand : string → string) (dev : string → list ascii → option ExecResult).

(** A line is written only to the control device of a physical, unpaused slot. *)
Lemma execute_calls t slot module op cap token res calls :
  execute dev t slot module op cap token false = (res, calls) →
  calls = [] ∨ ∃ c, calls = [c] ∧
    bt_virtual t !! (slot, module) = None ∧ slot ∉ bt_paused t ∧ bt_controls t !! slot = Some (cl_path c) ∧
    command_bytes (JStr module) (JStr cap) op token = Some (cl_bytes c).
Proof.
  unfold execute. intros H. destruct (bt_virtual t !! (slot, module)); [simplify_eq; by left|].
  destruct (bool_decide (slot ∈ bt_paused t)) eqn:Hp; cbn [negb andb] in H; [simplify_eq; by left|].
  apply bool_decide_eq_false in Hp. destruct (bt_controls t !! slot) as [path|]; [|simplify_eq; by left].
  destruct (command_bytes _ _ _ _) as [bytes|]; simplify_eq; [right|by left].
  by exists (mkCall path bytes).
Qed.

(** The reply to a request. *)
Definition replies (rid : Json) (frames : list BrokerFrame) : Prop :=
  ∃ f rest, frames = f :: rest ∧ ((∃ v, f = F_ok rid v) ∨ ∃ code, f = F_error rid code) ∧
    Forall (λ g, match g with F_state _ _ _ => True | _ => False end) rest.

Lemma replies_error rid code : replies rid [F_error rid code].
Proof. exists (F_error rid code), []. eauto. Qed.

Lemma replies_ok rid v slot module values : replies rid [F_ok rid v; F_state slot module values].
Proof. exists (F_ok rid v), [F_state slot module values]. split_and!; [done|eauto|by repeat constructor]. Qed.

(** The text of a value on the control line, by the declared type. *)
Definition spells (cap : Cap) (value : Json) (text : string) : Prop :=
  ∃ ty, jget "type" cap = JStr ty ∧
    match ty with
    | "bool" => ∃ b : bool, value = JBool b ∧ text = (if b then "true" else "false")
    | "int" => ∃ z : Z, value = JInt z ∧ text = pretty z
    | "float" => ∃ f : spec_float, to_float value = Ok (NFloat f) ∧
        text = (if has_exponent (repr f) then expand (repr f) else repr f)
    | "string" => value = JStr text
    | "enum" => py_in value (default (JList []) (jlookup "values" cap)) = Ok true ∧
        match value with
        | JStr s => text = s
        | JInt z => text = pretty z
        | JFloat f => text = repr f
        | JBool b => text = (if b then "True" else "False")
        | _ => False
        end
    | _ => False
    end.

(** The line a command may write: read from its bytes, the addressed module, the
    operation, the capability and, for a write, the text of the value. *)
Definition allowed_call (t : Tables) (slot : Z) (module capability op : string) (value : Json) (c : Call) : Prop :=
  ∃ d cap, find_desc slot module t = Some d ∧ bt_virtual t !! (slot, module) = None ∧
    slot ∉ bt_paused t ∧ bt_controls t !! slot = Some (cl_path c) ∧
    index_capabilities (de_capabilities d) !! capability = Some cap ∧
    let head := chars "module " ++ chars module ++ chars " " ++ chars op ++ chars " " ++ chars capability in
    (op = "get" ∧ value = JNull ∧ cl_bytes c = head ++ [cr; newline] ∨
     ∃ text, (op = "set" ∧ jlookup "kind" cap = Some (JStr "setting") ∨
              op = "do" ∧ jlookup "kind" cap = Some (JStr "action")) ∧
       truthy_json (jget "readonly" cap) = false ∧ check_value cap value = Ok tt ∧ spells cap value text ∧
       cl_bytes c = head ++ chars " " ++ chars text ++ [cr; newline]).

Lemma token_spells cap value text :
  check_value cap value = Ok tt → value ≠ JNull → token_of repr expand cap value = JStr text →
  spells cap value text.
Proof.
  unfold check_value, token_of, spells, format_value.
  destruct (jget "type" cap) as [| | | |ty| |]; try done. intros Hc Hnn Ht. exists ty. split; [done|].
  destruct (decide (ty = "bool")) as [->|].
  { destruct value; try done. exists b. simpl in Ht. by destruct b; simplify_eq/=. }
  destruct (decide (ty = "enum")) as [->|].
  { apply obind_Ok in Hc as (b & Hb & Hc). destruct b; [|done]. split; [done|].
    destruct value; simplify_eq/=; try done. }
  destruct (decide (ty = "string")) as [->|]; [destruct value; by simplify_eq/=|].
  destruct (decide (ty = "int")) as [->|]; [destruct value; simplify_eq/=; eauto|].
  destruct (decide (ty = "float")) as [->|].
  { destruct (to_float value) as [[?|f]|] eqn:Hf; simplify_eq/=. eauto. }
  exfalso. clear -Hc n n0 n1 n2 n3. revert Hc. repeat case_match; subst; try done.
Qed.

Lemma command_bytes_token module op cap token bytes :
  command_bytes (JStr module) (JStr cap) op token = Some bytes →
  let head := chars "module " ++ chars module ++ chars " " ++ chars op ++ chars " " ++ chars cap in
  (token = None ∧ bytes = head ++ [cr; newline]) ∨
  ∃ text, token = Some (JStr text) ∧ bytes = head ++ chars " " ++ chars text ++ [cr; newline].
Proof.
  unfold command_bytes. destruct (negb _); [done|]. destruct (negb _); [done|].
  destruct token as [[| | | |text| |]|]; try done; [destruct (TOKEN_RE text); [|done]|];
    intros [= <-]; [right; exists text|left]; (split; [done|]);
    simpl; rewrite <-?app_assoc; simpl; rewrite <-?app_assoc; simpl; rewrite <-?app_assoc; done.
Qed.

Lemma run_command_ok t rid slot module capability op value frames calls :
  run_command repr expand dev t rid slot module capability op value = Ok (frames, calls) →
  replies rid frames ∧ (calls = [] ∨ ∃ c, calls = [c] ∧ allowed_call t slot module capability op value c).
Proof.
  unfold run_command. destruct (find_desc slot module t) as [d|] eqn:Hd;
    [|intros [= <- <-]; split; [apply replies_error|by left]].
  destruct (bt_virtual t !! (slot, module)) as [vm|] eqn:Hv.
  { unfold handle_virtual_command. destruct (vm_handle vm op capability value) as [[v|code]|]; intros [= <- <-];
      (split; [apply replies_ok || apply replies_error|by left]). }
  cbv zeta. set (cap := index_capabilities _ !! capability).
  destruct (validate_command cap op value) as [[]|[code|]] eqn:Hval;
    [|intros [= <- <-]; split; [apply replies_error|by left]|done].
  destruct (execute _ _ _ _ _ _ _ _) as [res calls'] eqn:He. apply execute_calls in He.
  assert (calls' = [] ∨ ∃ c, calls' = [c] ∧ allowed_call t slot module capability op value c) as Hcalls.
  { destruct He as [?|(c & -> & _ & Hp & Hpath & Hbytes)]; [by left|right]. exists c. split; [done|].
    destruct cap as [cp|] eqn:Hcap; [|done].
    pose proof (validate_get _ _ _ Hval) as Hget. apply validate_write in Hval as [Hop Hw].
    exists d, cp. split_and!; try done. apply command_bytes_token in Hbytes. cbv zeta in *.
    destruct (decide (op = "get")) as [->|Hng]; [left; destruct Hbytes as [[_ ?]|(? & ? & _)]; by eauto|right].
    assert (op = "set" ∨ op = "do") as Hsd.
    { rewrite !elem_of_cons in Hop. destruct Hop as [?|[?|[?|Hn%not_elem_of_nil]]]; [auto|done|auto|done]. }
    assert (op ∈ WRITE_OPS) as Hwr.
    { unfold WRITE_OPS. rewrite !elem_of_cons. destruct Hsd; auto. }
    destruct (Hw Hwr) as (Hro & Hnn & Hcv & Hkind).
    destruct Hbytes as [[? _]|(text & Htok & Hb)]; [done|]. injection Htok as Htok. exists text.
    split_and!; try done; [|by apply token_spells].
    destruct Hsd as [-> | ->]; auto. }
  destruct res as [[v|code]|]; [intros [= <- <-]..|done]; (split; [apply replies_ok || apply replies_error|done]).
Qed.

(** Why a command handler raises: the validation did, or the access to the
    device after it. *)
Lemma run_command_raise t rid slot module capability op value e :
  run_command repr expand dev t rid slot module capability op value = Raise e →
  ∃ d, find_desc slot module t = Some d ∧ bt_virtual t !! (slot, module) = None ∧
    let cap := index_capabilities (de_capabilities d) !! capability in
    (validate_command cap op value = Raise PyError ∨
     ∃ path bytes, bt_controls t !! slot = Some path ∧ dev path bytes = None).
Proof.
  unfold run_command. destruct (find_desc slot module t) as [d|]; [|done].
  destruct (bt_virtual t !! (slot, module)) as [vm|] eqn:Hv; [done|]. cbv zeta. intros H. exists d.
  split_and!; [done..|]. destruct (validate_command _ op value) as [[]|[code|]]; [right|done|by left].
  unfold execute in H. rewrite Hv in H. destruct (negb false && _); [done|].
  destruct (bt_controls t !! slot) as [path|]; [|done].
  destruct (command_bytes _ _ _ _) as [bytes|]; [|done].
  destruct (dev path bytes) as [[?|?]|] eqn:Hdev; try done. by exists path, bytes.
Qed.

(** C22. A command frame with a usable request id is answered exactly once, and
    at most one line goes to a device: to the control line of the addressed slot,
    when the slot is not paused for a flash, the module is a physical one in the
    inventory and its descriptor lists the capability.  The bytes are the module,
    the operation, the capability and, for a write, the text of the value: a write
    reaches only a setting ([set]) or an action ([do]) that is not read-only, with a
    value that passed the checks of its declared type.  A frame without a usable id
    does nothing.  An exception escapes only from the validation of the value or
    from the access to the device. *)
Theorem command_validated t msg :
  match handle_command repr expand dev t msg with
  | Ok (frames, calls) =>
    (valid_rid (jget "request_id" msg) = false → frames = [] ∧ calls = []) ∧
    (valid_rid (jget "request_id" msg) = true → replies (jget "request_id" msg) frames) ∧
    (calls = [] ∨ ∃ c slot module capability op, calls = [c] ∧
      jget "slot" msg = JInt slot ∧ jget "module" msg = JStr module ∧ jget "capability" msg = JStr capability ∧
      jget "op" msg = JStr op ∧ allowed_call t slot module capability op (jget "value" msg) c)
  | Raise _ => ∃ slot module capability op d, jget "slot" msg = JInt slot ∧ jget "module" msg = JStr module ∧
      jget "capability" msg = JStr capability ∧ jget "op" msg = JStr op ∧ find_desc slot module t = Some d ∧
      (validate_command (index_capabilities (de_capabilities d) !! capability) op (jget "value" msg) =
         Raise PyError ∨
       ∃ path bytes, bt_controls t !! slot = Some path ∧ dev path bytes = None)
  end.
Proof.
  unfold handle_command. set (rid := jget "request_id" msg).
  destruct (valid_rid rid); simpl; [|split_and!; [done|done|by left]].
  destruct (jget "slot" msg) as [| |slot| | | |], (jget "module" msg) as [| | | |module| |],
    (jget "capability" msg) as [| | | |capability| |], (jget "op" msg) as [| | | |op| |];
    try (split_and!; [done|intros _; apply replies_error|by left]).
  destruct (run_command _ _ _ _ _ _ _ _ _ _) as [[frames calls]|e] eqn:Hrun.
  - apply run_command_ok in Hrun as [Hr Hc]. split; [done|]. split; [done|].
    destruct Hc as [?|(c & -> & Hal)]; [by left|right]. by exists c, slot, module, capability, op.
  - apply run_command_raise in Hrun as (d & ? & _ & ?). by exists slot, module, capability, op, d.
Qed.

End broker_proofs.

(** A volume within its range reaches the line; a value no [float] can hold, for a
    float capability, makes the handler raise. *)
Definition example_desc : Descriptor_ :=
  mkDesc JNull (JList [JObj [("name", JStr "volume"); ("kind", JStr "setting"); ("type", JStr "int");
                             ("ranges", JList [JObj [("min", JInt 1); ("max", JInt 8)]])];
                       JObj [("name", JStr "frequency"); ("kind", JStr "setting"); ("type", JStr "float")]]) None.

Definition example_tables : Tables := mkTables [((1, "fm"), example_desc)] {[1 := "/dev/slot1"]} ∅ ∅.

Definition example_msg (cap : string) (value : Json) : list (string * Json) :=
  [("request_id", JStr "r1"); ("slot", JInt 1); ("module", JStr "fm"); ("capability", JStr cap);
   ("op", JStr "set"); ("value", value)].

(** The bytes on the line for volume 5, and an exception for a number no float holds. *)
Example volume_on_the_line :
  handle_command (λ _, "") (λ s, s) (λ _ _, Some (EOk (JInt 5))) example_tables (example_msg "volume" (JInt 5)) =
  Ok ([F_ok (JStr "r1") (JInt 5); F_state 1 "fm" [("volume", JInt 5)]],
      [mkCall "/dev/slot1" (chars "module fm set volume 5" ++ [cr; newline])]).
Proof. vm_compute. reflexivity. Qed.

Example huge_value_escapes :
  handle_command (λ _, "") (λ s, s) (λ _ _, Some (EOk JNull)) example_tables
    (example_msg "frequency" (JInt (10 ^ 400))) = Raise PyError.
Proof. vm_compute. reflexivity. Qed.

(** ** Presets *)

(** The codes the validation raises are not those of a whole device. *)
Lemma check_range_codes cap x code : check_range cap x = Raise (ProtocolError code) → code = OUT_OF_RANGE.
Proof.
  unfold check_range. destruct (truthy_json _); [|done]. destruct (jget "ranges" cap) as [| | | | |rs|]; try done.
  induction rs as [|r rs IH]; simpl; [by intros [= <-]|]. intros [H|(b & Hb & H)]%obind_Raise.
  - unfold in_one_range in H. repeat case_match; done.
  - destruct b; [done|]. by apply IH.
Qed.

Lemma check_value_codes cap value code :
  check_value cap value = Raise (ProtocolError code) → code = BAD_VALUE ∨ code = OUT_OF_RANGE.
Proof.
  unfold check_value. destruct (jget "type" cap) as [| | | |ty| |]; try (intros [= <-]; by left).
  destruct (decide (ty = "bool")) as [->|]; [destruct (is_bool value); [done|]; intros [= <-]; by left|].
  destruct (decide (ty = "enum")) as [->|].
  { intros [H|(b & _ & H)]%obind_Raise.
    - unfold py_in in H. repeat case_match; done.
    - destruct b; [done|]. injection H as <-. by left. }
  destruct (decide (ty = "string")) as [->|].
  { destruct value; try (intros [= <-]; by left). destruct (TOKEN_RE _); [done|]. intros [= <-]. by left. }
  destruct (decide (ty = "int")) as [->|].
  { destruct value; try (intros [= <-]; by left). intros H%check_range_codes. by right. }
  destruct (decide (ty = "float")) as [->|].
  { destruct (json_number value); [|intros [= <-]; by left]. intros [H|(x & _ & H)]%obind_Raise.
    - unfold to_float in H. repeat case_match; done.
    - apply check_range_codes in H. by right. }
  intros H. left. revert H. repeat case_match; subst; try done; by intros [= <-].
Qed.

Lemma validate_codes cap op value code :
  validate_command cap op value = Raise (ProtocolError code) → aborts (err_name code) = false.
Proof.
  intros H. assert (code ∈ [UNKNOWN_CAPABILITY; READ_ONLY; WRONG_OP; BAD_VALUE; OUT_OF_RANGE]) as Hin.
  { unfold validate_command in H. destruct cap as [cap|]; [|injection H as <-; set_solver].
    apply obind_Raise in H as [H|(al & _ & H)]; [unfold OPS_FOR_KIND in H; repeat case_match; done|].
    destruct (bool_decide (op ∈ WRITE_OPS) && _); [injection H as <-; set_solver|].
    destruct (bool_decide (op ∉ al)); [injection H as <-; set_solver|].
    destruct (bool_decide (op = "get")); [destruct value; try done; injection H as <-; set_solver|].
    assert (check_value cap value = Raise (ProtocolError code) → code = BAD_VALUE ∨ code = OUT_OF_RANGE) as Hcv.
    { clear H. apply check_value_codes. }
    destruct value; try (injection H as <-; set_solver); destruct (Hcv H) as [-> | ->]; set_solver. }
  rewrite !elem_of_cons in Hin. destruct Hin as [->|[->|[->|[->|[->|Hn%not_elem_of_nil]]]]]; done.
Qed.

Section preset_proofs.
Context (repr : spec_float → string) (expand : string → string) (dev : string → list ascii → option ExecResult).

(** The state of the preset loop after the names [done]. *)
Record preset_ok (values : list (string * Json)) (seen : list string) (acc : PresetAcc) : Prop := mkPresetOk {
  po_names : fst <$> pa_results acc = filter (λ n, jlookup n values ≠ None) seen;
  po_calls : (length (pa_calls acc) ≤ length (pa_results acc))%nat;
  po_run : pa_abort acc = None → Forall (λ p, match p.2 with EErr c => aborts c = false | EOk _ => True end) (pa_results acc);
  po_abort : ∀ code, pa_abort acc = Some code → (aborts code = true ∨ code = "internal_error") ∧
    ∃ rs1 n rs2, pa_results acc = rs1 ++ (n, EErr code) :: rs2 ∧
      Forall (λ p, match p.2 with EErr c => aborts c = false | EOk _ => True end) rs1 ∧
      Forall (λ p, p.2 = EErr code) rs2 ∧ (length (pa_calls acc) ≤ S (length rs1))%nat
}.

Lemma preset_step_ok t slot module caps values seen acc name acc' :
  preset_ok values seen acc → preset_step repr expand dev t slot module caps values acc name = Ok acc' →
  preset_ok values (seen ++ [name]) acc'.
Proof.
  intros [H1 H2 H3 H4]. unfold preset_step. destruct (jlookup name values) as [value|] eqn:Hv.
  2:{ intros [= <-]. constructor; try done. rewrite filter_app, H1, filter_cons_False by (rewrite Hv; tauto). by rewrite app_nil_r. }
  assert (∀ r, fst <$> pa_results acc ++ [(name, r)] = filter (λ n, jlookup n values ≠ None) (seen ++ [name])) as Hn.
  { intros r. rewrite fmap_app, filter_app, H1, filter_cons_True by (by rewrite Hv). done. }
  destruct (pa_abort acc) as [code|] eqn:Hab.
  - intros [= <-]. destruct (H4 code eq_refl) as (Hac & rs1 & n & rs2 & Hrs & Hf1 & Hf2 & Hl).
    constructor; simpl; [apply Hn|rewrite length_app; simpl; lia|done|]. intros c [= <-]. split; [done|].
    exists rs1, n, (rs2 ++ [(name, EErr code)]). split_and!; [by rewrite Hrs, <-app_assoc|done| |done].
    apply Forall_app. split; [done|]. by constructor.
  - specialize (H3 eq_refl). destruct (validate_command (caps !! name) "set" value) as [[]|[code|]] eqn:Hval; [| |done].
    + destruct (execute dev t slot module "set" name _ false) as [res calls] eqn:He. apply execute_calls in He.
      assert (length calls ≤ 1)%nat as Hlen by (destruct He as [->|(c & -> & _)]; simpl; lia).
      destruct res as [res|]; intros [= <-]; constructor; simpl; try (apply Hn); try (rewrite !length_app; simpl; lia); try done.
      * intros Ha. apply Forall_app. split; [done|]. constructor; [|constructor]. simpl.
        destruct res as [|code]; [done|]. by destruct (aborts code).
      * intros code Ha. destruct res as [|c]; [done|]. destruct (aborts c) eqn:Hc; [|done]. injection Ha as <-.
        split; [by left|]. exists (pa_results acc), name, []. rewrite length_app. split_and!; [done|done|constructor|lia].
      * intros code [= <-]. split; [by right|]. exists (pa_results acc), name, []. rewrite length_app.
        split_and!; [done|done|constructor|lia].
    + intros [= <-]. constructor; simpl; [apply Hn|rewrite length_app; simpl; lia| |done].
      intros _. apply Forall_app. split; [done|]. constructor; [|constructor]. simpl. by eapply validate_codes.
Qed.

(** Applying a preset to a physical module: every requested setting is answered
    once, in the fixed order transmit before receive and bandwidth last, with at most
    one line written per setting; a failure of the whole device (timeout, paused,
    gone) is the last line, and every later setting inherits its error. *)
Lemma preset_in_order t slot module values d acc :
  find_desc slot module t = Some d → bt_virtual t !! (slot, module) = None →
  apply_preset repr expand dev t slot module values = Ok acc →
  fst <$> pa_results acc = filter (λ n, jlookup n values ≠ None) PRESET_ORDER ∧
  (length (pa_calls acc) ≤ length (pa_results acc))%nat ∧
  (∀ rs1 n code rs2, pa_results acc = rs1 ++ (n, EErr code) :: rs2 → aborts code = true →
    Forall (λ p, ∀ c, p.2 = EErr c → aborts c = false) rs1 →
    Forall (λ p, p.2 = EErr code) rs2 ∧ (length (pa_calls acc) ≤ S (length rs1))%nat).
Proof.
  intros Hd Hv. unfold apply_preset. rewrite Hd, Hv. intros Hrun.
  apply (ofold_invariant (λ seen _ acc, preset_ok values seen acc)) in Hrun as [H1 H2 H3 H4].
  - split_and!; [done|done|]. intros rs1 n code rs2 Heq Hab Hall.
    destruct (pa_abort acc) as [c|].
    + destruct (H4 c eq_refl) as (Hac & r1 & m & r2 & Heq2 & Hf1 & Hf2 & Hl).
      destruct Hac as [Hac|Hint].
      2:{ subst c. exfalso. assert (Forall (λ p, match p.2 with EErr c => aborts c = false | EOk _ => True end)
            (pa_results acc)) as Hfa.
          { rewrite Heq2. apply Forall_app. split; [done|]. constructor; [done|].
            eapply Forall_impl; [exact Hf2|]. intros p Hp. by rewrite Hp. }
          rewrite Heq in Hfa. apply Forall_app in Hfa as [_ [Hfa _]%Forall_cons]. simpl in Hfa. congruence. }
      (* both splits are at the first whole-device failure *)
      assert (rs1 = r1) as ->.
      { rewrite Heq in Heq2. clear -Heq2 Hall Hf1 Hab Hac. revert r1 Heq2 Hf1.
        induction rs1 as [|x rs1 IH]; intros [|y r1] Heq Hf1; simpl in Heq; [done|..].
        - injection Heq as <- _. apply Forall_cons in Hf1 as [Hx _]. simpl in Hx. congruence.
        - injection Heq as -> _. apply Forall_cons in Hall as [Hx _]. specialize (Hx c eq_refl). congruence.
        - injection Heq as <- Heq. f_equal. apply Forall_cons in Hall as [_ Hall]. apply Forall_cons in Hf1 as [_ Hf1].
          by apply (IH Hall r1). }
      rewrite Heq in Heq2. apply app_inv_head in Heq2. injection Heq2 as -> -> ->. done.
    + exfalso. specialize (H3 eq_refl). rewrite Heq in H3. apply Forall_app in H3 as [_ H3].
      apply Forall_cons in H3 as [H3 _]. simpl in H3. congruence.
  - intros seen x rest st st' _ Hok Hs. by eapply preset_step_ok.
  - by constructor.
Qed.

End preset_proofs.

(** The first line times out: the second setting is not sent.  A refused value
    does not stop the rest. *)
Example preset_stops_and_continues :
  let cap n := JObj [("name", JStr n); ("kind", JStr "setting"); ("type", JStr "int")] in
  let d := mkDesc JNull (JList [cap "rx_frequency"; cap "tx_frequency"]) None in
  let t := mkTables [((1, "fm"), d)] {[1 := "/dev/slot1"]} ∅ ∅ in
  let run answer v := apply_preset (λ _, "") (λ s, s) (λ _ _, answer) t 1 "fm"
    [("rx_frequency", JInt 145); ("tx_frequency", v)] in
  (∃ c, run (Some (EErr "timeout")) (JInt 144) =
     Ok (mkPresetAcc [("tx_frequency", EErr "timeout"); ("rx_frequency", EErr "timeout")] (Some "timeout") [c])) ∧
  (∃ c, run None (JInt 144) =
     Ok (mkPresetAcc [("tx_frequency", EErr "internal_error"); ("rx_frequency", EErr "internal_error")]
          (Some "internal_error") [c])) ∧
  (∃ c, run (Some (EOk (JInt 145))) (JStr "x") =
     Ok (mkPresetAcc [("tx_frequency", EErr "bad_value"); ("rx_frequency", EOk (JInt 145))] None [c])).
Proof. split_and!; eexists; vm_compute; reflexivity. Qed.

(** ** Debouncing *)

(** Scans, each with the slots paused at that time. *)
Definition run_scans (max_misses : nat) (scans : list (gmap Z (option DiscSlot) * list DiscSlot)) (d : Debouncer)
    : Debouncer :=
  foldl (λ d s, update_state max_misses s.1 s.2 d) d scans.

(** The slot is neither found nor paused. *)
Definition missing (slot : Z) (s : gmap Z (option DiscSlot) * list DiscSlot) : Prop :=
  s.1 !! slot = None ∧ slot ∉ ds_slot <$> s.2.

Lemma present_missing paused discovered slot :
  slot ∉ ds_slot <$> discovered → present paused discovered !! slot = None.
Proof.
  intros Hn. unfold present. apply not_elem_of_list_to_map_1. intros ((x & e) & Heq & Hin)%list_elem_of_fmap.
  apply elem_of_reverse, list_elem_of_fmap in Hin as (e' & Hp & He). simplify_eq/=.
  apply list_elem_of_filter in He as [_ He]. apply Hn. by apply list_elem_of_fmap_2.
Qed.

(** One scan, seen from one slot. *)
Lemma update_slot max_misses paused discovered d slot :
  let d' := update_state max_misses paused discovered d in
  let seen := present paused discovered in
  (∀ e, seen !! slot = Some e → db_last d' !! slot = Some e ∧ misses d' slot = 0%nat) ∧
  (seen !! slot = None → ∀ e, db_last d !! slot = Some e →
    (is_Some (paused !! slot) → db_last d' !! slot = Some e ∧ misses d' slot = 0%nat) ∧
    (paused !! slot = None →
      if decide (S (misses d slot) ≤ max_misses)%nat
      then db_last d' !! slot = Some e ∧ misses d' slot = S (misses d slot) else db_last d' !! slot = None)) ∧
  (seen !! slot = None → db_last d !! slot = None → db_last d' !! slot = None).
Proof.
  unfold update_state. set (seen := present paused discovered). unfold misses. simpl.
  set (kept := filter _ _). assert (∀ e, kept !! slot = Some e ↔ (seen ∪ db_last d) !! slot = Some e ∧ keep_slot max_misses paused seen d slot = true) as Hk.
  { intros e. unfold kept. by rewrite map_lookup_filter_Some. }
  assert (∀ e, kept !! slot = Some e → map_imap (λ s (_ : DiscSlot), Some (new_miss paused seen d s)) kept !! slot =
    Some (new_miss paused seen d slot)) as Hm by (intros e He; by rewrite map_lookup_imap, He).
  split_and!.
  - intros e He. assert (kept !! slot = Some e) as Hke.
    { apply Hk. split; [by apply lookup_union_Some_l|]. unfold keep_slot. by rewrite He. }
    split; [done|]. rewrite (Hm e Hke). simpl. unfold new_miss. by rewrite He.
  - intros Hs e He. assert ((seen ∪ db_last d) !! slot = Some e) as Hu by (rewrite lookup_union_r; done). split.
    + intros [o Ho]. assert (kept !! slot = Some e) as Hke by (apply Hk; split; [done|]; unfold keep_slot; by rewrite Hs, Ho).
      split; [done|]. rewrite (Hm e Hke). simpl. unfold new_miss. by rewrite Hs, Ho.
    + intros Ho. case_decide as Hd.
      * assert (kept !! slot = Some e) as Hke.
        { apply Hk. split; [done|]. unfold keep_slot. rewrite Hs, Ho. by apply bool_decide_true. }
        split; [done|]. rewrite (Hm e Hke). simpl. unfold new_miss. by rewrite Hs, Ho.
      * apply eq_None_not_Some. intros [x Hx]. apply Hk in Hx as [_ Hx]. unfold keep_slot in Hx.
        rewrite Hs, Ho in Hx. by apply bool_decide_eq_true in Hx.
  - intros Hs Hn. apply eq_None_not_Some. intros [x Hx]. apply Hk in Hx as [Hx _].
    rewrite lookup_union_r in Hx by done. congruence.
Qed.

Lemma run_missing max_misses slot scans : ∀ d e,
  Forall (missing slot) scans → db_last d !! slot = Some e →
  db_last (run_scans max_misses scans d) !! slot =
    if decide (length scans = 0%nat ∨ misses d slot + length scans ≤ max_misses)%nat then Some e else None.
Proof.
  induction scans as [|[paused disc] scans IH]; intros d e Hall He.
  { rewrite decide_True; [done|by left]. }
  apply Forall_cons in Hall as [[Hp Hd] Hall]. simpl in Hp, Hd.
  destruct (update_slot max_misses paused disc d slot) as (_ & Hmiss & Hnone).
  apply (present_missing paused) in Hd. destruct (Hmiss Hd e He) as [_ Hm]. specialize (Hm Hp).
  set (d1 := update_state max_misses paused disc d) in *.
  change (run_scans max_misses ((paused, disc) :: scans) d) with (run_scans max_misses scans d1).
  destruct (decide (S (misses d slot) ≤ max_misses)%nat) as [Hle|Hgt].
  - destruct Hm as [Hl Hms]. rewrite (IH d1 e Hall Hl), Hms. simpl. repeat case_decide; try done; exfalso; lia.
  - rewrite (decide_False (P := _ ∨ _)) by (simpl; lia).
    assert (∀ scans d, Forall (missing slot) scans → db_last d !! slot = None → db_last (run_scans max_misses scans d) !! slot = None) as Hno.
    { clear. intros scans. induction scans as [|[p ds] scans IH]; intros d Hall Hn; [done|].
      apply Forall_cons in Hall as [[Hp Hd] Hall]. simpl in Hp, Hd. apply (IH _ Hall).
      destruct (update_slot max_misses p ds d slot) as (_ & _ & Hnone). apply Hnone; [|done]. by apply present_missing. }
    by apply Hno.
Qed.

(** Hysteresis of the inventory: a slot found by one scan and then missed by [n]
    consecutive scans (not paused) is still remembered, with its last good entry, as
    long as [n] is at most [max_misses], and dropped after that; one scan that finds
    it, or a pause for a flash, starts the count again. *)
Lemma inventory_debounced max_misses slot e paused discovered d scans :
  present paused discovered !! slot = Some e ∨
    (present paused discovered !! slot = None ∧ is_Some (paused !! slot) ∧ db_last d !! slot = Some e) →
  Forall (missing slot) scans →
  db_last (run_scans max_misses scans (update_state max_misses paused discovered d)) !! slot =
    if decide (length scans ≤ max_misses)%nat then Some e else None.
Proof.
  intros Hseen Hall. destruct (update_slot max_misses paused discovered d slot) as (Hfound & Hmiss & _).
  assert (db_last (update_state max_misses paused discovered d) !! slot = Some e ∧
    misses (update_state max_misses paused discovered d) slot = 0%nat) as [Hl Hm].
  { destruct Hseen as [Hs|(Hs & Hp & He)]; [by apply Hfound|]. by apply (Hmiss Hs e He). }
  rewrite (run_missing max_misses slot scans _ e Hall Hl), Hm. simpl. repeat case_decide; try done; exfalso; lia.
Qed.

Lemma inventory_debounced_witness :
  let e := mkDiscSlot 1 "/dev/slot1" [] in
  db_last (run_scans 2 [(∅, []); (∅, [])] (update_state 2 ∅ [e] (mkDebouncer ∅ ∅))) !! 1 = Some e ∧
  db_last (run_scans 2 [(∅, []); (∅, []); (∅, [])] (update_state 2 ∅ [e] (mkDebouncer ∅ ∅))) !! 1 = None.
Proof.
  intros e. split; (erewrite inventory_debounced; [vm_compute; reflexivity|left; vm_compute; reflexivity|]);
    repeat constructor; simpl; apply not_elem_of_nil.
Defined.
