(* ===== verification/ModuleOta.v ===== *)
(** * The agent's module firmware cycle

    Models [station_agent/module_ota.py] (one cycle: instruction, checks, idle gate,
    pause, download, flash, verify, report; recovery after a restart) and the
    validation of [station_agent/module_ota_marker.py].

    A cycle is a function of what its environment answers ([CycleEnv]: the server, the
    control line, the flasher, the file system) to the list of its actions, in order,
    and its result; [None] in the environment is an exception.  Times are integer
    milliseconds.  [str(x)] of a JSON value that is not a string is the parameter
    [py_str]; strings are ASCII. *)

From Stdlib Require Import ZArith Lia Ascii.
From stdpp Require Import base gmap list strings.
From S2P Require Import Prelude Json Capabilities MediaCodec Mcuboot.

Local Open Scope Z_scope.

(** ** Instructions *)

Definition API_PREFIX : string := "/api/v1/module-firmware/".

Record Instr := mkInstr {
  in_conv : Z;
  in_slot : Z;
  in_uid : string;
  in_variant : string;
  in_target : string;
  in_artifact : string;
  in_url : string;
  in_sha : string;
  in_size : Z
}.

Definition hex_char (c : ascii) : bool :=
  let n := ascii_code c in
  bool_decide (48 ≤ n ≤ 57) || bool_decide (97 ≤ n ≤ 102) || bool_decide (65 ≤ n ≤ 70).

(** [_SHA_RE]: 64 hex digits, then Python's [$]. *)
Definition SHA_RE (s : string) : bool :=
  let l := chars s in
  forallb hex_char (take 64 l) &&
  (bool_decide (length l = 64%nat) || (bool_decide (length l = 65%nat) && bool_decide (last l = Some newline))).

Definition lower_str (s : string) : string := String.string_of_list_ascii (lower <$> chars s).

Definition contains (needle hay : string) : bool :=
  match String.index 0 needle hay with Some _ => true | None => false end.

Section instruction.
Variable py_str : Json → string.

Definition to_str (v : Json) : string := match v with JStr s => s | _ => py_str v end.

(** [int(str(v))]; only a string or an integer has the text of one. *)
Definition int_str (v : Json) : option Z :=
  match v with JInt z => Some z | JStr s => int_of_string s | _ => None end.

(** [_parse_instruction]: [KeyError], [TypeError] and [ValueError] give [None]. *)
Definition parse_instruction (data : Json) : option Instr :=
  match data with
  | JObj d =>
    match jlookup "convergence_id" d with
    | Some (JInt conv) =>
      match jlookup "slot" d with
      | Some sv =>
        match int_str sv with
        | Some slot =>
          match jlookup "size_bytes" d with
          | Some (JInt size) =>
            if decide (size ≤ 0) then None
            else
              match jlookup "module_uid" d, jlookup "target_version" d, jlookup "artifact" d,
                    jlookup "download_url" d, jlookup "checksum_sha256" d with
              | Some uid, Some target, Some artifact, Some url, Some sha =>
                let variant := jget "variant" d in
                let i := mkInstr conv slot (to_str uid) (if truthy_json variant then to_str variant else "")
                           (to_str target) (to_str artifact) (to_str url) (lower_str (to_str sha)) size in
                if decide (in_uid i = "" ∨ in_target i = "") then None
                else if negb (SHA_RE (in_sha i)) then None
                else if bool_decide (after_prefix API_PREFIX (in_url i) = None) || contains ".." (in_url i)
                        || existsb is_space (chars (in_url i)) then None
                else Some i
              | _, _, _, _, _ => None
              end
          | _ => None
          end
        | None => None
        end
      | None => None
      end
    | _ => None
    end
  | _ => None
  end.

(** C35. An instruction the agent acts on downloads only from the firmware API of its
    own server: the path starts with the API prefix and has no [..] and no white
    space; the size is positive, the module and target are named and the checksum is
    64 hex digits (or those and a final newline, which never matches a digest). *)
Theorem instruction_checked data i :
  parse_instruction data = Some i →
  (∃ rest, after_prefix API_PREFIX (in_url i) = Some rest) ∧ contains ".." (in_url i) = false ∧
  Forall (λ c, is_space c = false) (chars (in_url i)) ∧ 0 < in_size i ∧ in_uid i ≠ "" ∧ in_target i ≠ "" ∧
  (64 ≤ length (chars (in_sha i)) ≤ 65)%nat ∧
  Forall (λ c, hex_char c = true) (take 64 (chars (in_sha i))).
Proof.
  unfold parse_instruction. destruct data as [| | | | | |d]; try done.
  destruct (jlookup "convergence_id" d) as [[| |conv| | | |]|]; try done.
  destruct (jlookup "slot" d) as [sv|]; [|done]. destruct (int_str sv) as [slot|]; [|done].
  destruct (jlookup "size_bytes" d) as [[| |size| | | |]|]; try done. case_decide as Hsize; [done|].
  destruct (jlookup "module_uid" d) as [uid|]; [|done]. destruct (jlookup "target_version" d) as [target|]; [|done].
  destruct (jlookup "artifact" d) as [artifact|]; [|done]. destruct (jlookup "download_url" d) as [url|]; [|done].
  destruct (jlookup "checksum_sha256" d) as [sha|]; [|done]. cbv zeta. set (j := mkInstr _ _ _ _ _ _ _ _ _).
  case_decide as Hne; [done|]. destruct (SHA_RE (in_sha j)) eqn:Hsha; [|done]. cbn [negb].
  destruct (_ || _ || _) eqn:Hurl; [done|]. intros [= <-].
  apply orb_false_iff in Hurl as [Hurl Hsp]. apply orb_false_iff in Hurl as [Hpre Hdot].
  apply bool_decide_eq_false in Hpre. unfold SHA_RE in Hsha. apply andb_prop in Hsha as [Hcls Hlen].
  assert (length (chars (in_sha j)) = 64%nat ∨
    (length (chars (in_sha j)) = 65%nat ∧ last (chars (in_sha j)) = Some newline)) as Hl.
  { apply orb_prop in Hlen as [H|[H1 H2]%andb_prop].
    - left. by apply bool_decide_eq_true in H.
    - right. apply bool_decide_eq_true in H1, H2. done. }
  split_and!; try tauto; try lia.
  - destruct (after_prefix API_PREFIX (in_url j)) as [rest|]; [by exists rest|done].
  - apply list.Forall_forall. intros c Hc. destruct (is_space c) eqn:Hs; [|done].
    assert (existsb is_space (chars (in_url j)) = true) as Ht; [|congruence].
    apply existsb_exists. exists c. split; [by apply list_elem_of_In|done].
  - simpl in *. lia.
  - apply list.Forall_forall. intros c Hc. rewrite forallb_forall in Hcls. apply Hcls. by apply list_elem_of_In.
Qed.

End instruction.

(** ** The marker on disk *)

Record Marker := mkMarker {
  mk_conv : Z;
  mk_slot : Z;
  mk_uid : string;
  mk_target : string;
  mk_old : string;
  mk_artifact : string;
  mk_path : string;
  mk_phase : string;
  mk_attempts : Z;
  mk_snapshot : option Json;
  mk_sha : string
}.

Definition MARKER_REQUIRED : list string :=
  ["convergence_id"; "slot"; "module_uid"; "target_version"; "old_version"; "artifact"; "path"; "phase"].
Definition MARKER_OPTIONAL : list string := ["dfu_attempts"; "started_at"; "snapshot"; "checksum_sha256"].

(** [isinstance(v, int)], which [True] and [False] satisfy. *)
Definition as_int (v : Json) : option Z :=
  match v with JInt z => Some z | JBool b => Some (if b then 1 else 0) | _ => None end.

Definition as_str (v : Json) : option string := match v with JStr s => Some s | _ => None end.

(** [Marker.load]: the marker of the parsed file, [None] when it is refused (and
    deleted).  [in_dir] is [path_in_dir] for the firmware directory. *)
Definition load_marker (in_dir : string → bool) (data : Json) : option Marker :=
  match data with
  | JObj d0 =>
    let d := filter (λ p, p.1 ≠ "state_dir") d0 in
    if negb (forallb (λ p, bool_decide (p.1 ∈ MARKER_REQUIRED ++ MARKER_OPTIONAL)) d) then None
    else if negb (forallb (λ n, bool_decide (is_Some (jlookup n d))) MARKER_REQUIRED) then None
    else
      match as_int (jget "convergence_id" d), as_int (jget "slot" d), as_str (jget "phase" d) with
      | Some conv, Some slot, Some phase =>
        if bool_decide (phase ∉ ["downloaded"; "flashing"]) then None
        else
          match as_str (jget "module_uid" d), as_str (jget "target_version" d), as_str (jget "old_version" d),
                as_str (jget "artifact" d), as_str (jget "path" d) with
          | Some uid, Some target, Some old, Some artifact, Some path =>
            match default (JInt 0) (jlookup "dfu_attempts" d) with
            | JInt attempts =>
              match (match jget "snapshot" d with JNull => Some None | JObj o => Some (Some (JObj o)) | _ => None end) with
              | Some snapshot =>
                match default (JStr "") (jlookup "checksum_sha256" d) with
                | JStr sha =>
                  if bool_decide (sha ≠ "") && negb (SHA_RE sha) then None
                  else if in_dir path
                  then Some (mkMarker conv slot uid target old artifact path phase attempts snapshot (lower_str sha))
                  else None
                | _ => None
                end
              | None => None
              end
            | _ => None
            end
          | _, _, _, _, _ => None
          end
      | _, _, _ => None
      end
  | _ => None
  end.

(** ** Verification *)

Definition VERIFY_TIMEOUT_MS : Z := 180000.
Definition VERIFY_POLL_MS : Z := 5000.
Definition CONFIRM_GRACE_MS : Z := 3 * VERIFY_POLL_MS.

Inductive VerifyResult :=
| V_confirmed
| V_wrong_version (version : string)
| V_unconfirmed
| V_no_answer.

Section verify.
(** The version the module reports when read at a time ([None]: no answer), how long
    the read takes, and the backend's settle and confirm times. *)
Variables (read : Z → option string) (latency : Z → Z) (target : string) (started settle confirm : Z).

Definition settle_until : Z := started + settle.
Definition deadline : Z := started + VERIFY_TIMEOUT_MS.

(** When the loop gives up. *)
Definition verify_end (confirm_until : option Z) : Z :=
  match confirm_until with None => deadline | Some c => Z.max deadline (c + CONFIRM_GRACE_MS) end.

Definition sleep_time (now : Z) (confirm_until : option Z) : Z :=
  let stop := verify_end confirm_until in
  let wake := match confirm_until with Some c => if decide (now < c) then c else stop | None => stop end in
  let remaining := wake - now in
  if decide (0 < remaining) then Z.min VERIFY_POLL_MS remaining else VERIFY_POLL_MS.

(** [_verify] from a read at [t] on. *)
Fixpoint verify (fuel : nat) (t : Z) (confirm_until : option Z) : option VerifyResult :=
  match fuel with
  | O => None
  | S fuel' =>
    let now := t + latency t in
    let go confirm_until :=
      if decide (verify_end confirm_until ≤ now)
      then Some (match confirm_until with Some _ => V_unconfirmed | None => V_no_answer end)
      else verify fuel' (now + sleep_time now confirm_until) confirm_until in
    match read t with
    | Some version =>
      if decide (settle_until ≤ now) then
        if decide (version ≠ target) then Some (V_wrong_version version)
        else
          let c := match confirm_until with Some c => c | None => now + confirm end in
          if decide (c ≤ now) then Some V_confirmed else go (Some c)
      else go confirm_until
    | None => go confirm_until
    end
  end.

(** Enough rounds: each takes at least a millisecond. *)
Definition verify_fuel : nat := Z.to_nat (VERIFY_TIMEOUT_MS + confirm + CONFIRM_GRACE_MS) + 3.

Lemma sleep_pos now c : now < verify_end c → 1 ≤ sleep_time now c.
Proof. unfold sleep_time, VERIFY_POLL_MS. intros H. repeat case_match; simpl in *; lia. Qed.

(** The times of the reads. *)
Fixpoint polls (fuel : nat) (t : Z) (confirm_until : option Z) : list Z :=
  match fuel with
  | O => []
  | S fuel' =>
    let now := t + latency t in
    let go confirm_until :=
      if decide (verify_end confirm_until ≤ now) then [t]
      else t :: polls fuel' (now + sleep_time now confirm_until) confirm_until in
    match read t with
    | Some version =>
      if decide (settle_until ≤ now) then
        if decide (version ≠ target) then [t]
        else
          let c := match confirm_until with Some c => c | None => now + confirm end in
          if decide (c ≤ now) then [t] else go (Some c)
      else go confirm_until
    | None => go confirm_until
    end
  end.

Definition trusted (t : Z) : Prop := settle_until ≤ t + latency t.

(** What one round does: it ends, or goes on with a later read. *)
Lemma verify_round fuel t c :
  (∀ t, 0 ≤ latency t) →
  (∃ r, verify (S fuel) t c = Some r ∧ polls (S fuel) t c = [t] ∧
    (r = V_confirmed → read t = Some target ∧ trusted t ∧
      match c with Some c => c ≤ t + latency t | None => confirm ≤ 0 end)) ∨
  (∃ t' c', verify (S fuel) t c = verify fuel t' c' ∧ polls (S fuel) t c = t :: polls fuel t' c' ∧ t + 1 ≤ t' ∧
    t + latency t < t' ∧ t + latency t < verify_end c' ∧
    (trusted t → read t = None ∨ read t = Some target) ∧
    (c' = c ∨ (c = None ∧ c' = Some (t + latency t + confirm) ∧ read t = Some target ∧ trusted t))).
Proof.
  intros Hlat. cbn [verify polls]. set (now := t + latency t). assert (t ≤ now) by (specialize (Hlat t); lia).
  assert (∀ c', now < verify_end c' → t + 1 ≤ now + sleep_time now c' ∧ now < now + sleep_time now c') as Hsl.
  { intros c' Hc. apply sleep_pos in Hc. lia. }
  destruct (read t) as [v|] eqn:Hr.
  - destruct (decide (settle_until ≤ now)) as [Hs|Hs].
    + destruct (decide (v ≠ target)) as [Hv|Hv]; [left; eexists; split_and!; [done|done|done]|]. apply dec_stable in Hv as ->.
      set (c1 := match c with Some c => c | None => now + confirm end).
      destruct (decide (c1 ≤ now)) as [Hc|Hc].
      { left. eexists. split_and!; [done|done|]. intros _. split_and!; [done|done|]. subst c1. destruct c; [done|lia]. }
      destruct (decide (verify_end (Some c1) ≤ now)) as [He|He]; [left; eexists; split_and!; [done|done|done]|].
      right. exists (now + sleep_time now (Some c1)), (Some c1). destruct (Hsl (Some c1)) as [? ?]; [lia|].
      split_and!; try done; [lia|auto|]. subst c1. destruct c; [by left|by right].
    + destruct (decide (verify_end c ≤ now)) as [He|He]; [left; eexists; split_and!; [done|done|by destruct c]|].
      right. exists (now + sleep_time now c), c. destruct (Hsl c) as [? ?]; [lia|]. split_and!; try done; [lia|by left].
  - destruct (decide (verify_end c ≤ now)) as [He|He]; [left; eexists; split_and!; [done|done|by destruct c]|].
    right. exists (now + sleep_time now c), c. destruct (Hsl c) as [? ?]; [lia|]. split_and!; try done; [lia|auto|by left].
Qed.

Lemma verify_total_confirm fuel : ∀ t c,
  (∀ t, 0 ≤ latency t) → Z.max 0 (verify_end (Some c) - t) < Z.of_nat fuel →
  is_Some (verify fuel t (Some c)).
Proof.
  induction fuel as [|fuel IH]; intros t c Hlat Hf; [lia|].
  destruct (verify_round fuel t (Some c) Hlat) as [(r & -> & _)|(t' & c' & -> & _ & Ht & Hn & He & _ & Hc)]; [done|].
  destruct Hc as [->|(? & _)]; [|done]. apply IH; [done|]. specialize (Hlat t). lia.
Qed.

Lemma verify_total_none fuel : ∀ t,
  (∀ t, 0 ≤ latency t) → 0 ≤ confirm →
  Z.max 0 (deadline - t) + confirm + CONFIRM_GRACE_MS + 1 < Z.of_nat fuel → is_Some (verify fuel t None).
Proof.
  induction fuel as [|fuel IH]; intros t Hlat Hc Hf; [unfold CONFIRM_GRACE_MS, VERIFY_POLL_MS in *; lia|].
  destruct (verify_round fuel t None Hlat) as [(r & -> & _)|(t' & c' & -> & _ & Ht & Hn & He & _ & Hc')]; [done|].
  pose proof (Hlat t). destruct Hc' as [->|(_ & -> & _)].
  - apply IH; [done..|]. simpl in He. lia.
  - apply verify_total_confirm; [done|]. simpl in *. unfold CONFIRM_GRACE_MS, VERIFY_POLL_MS in *. lia.
Qed.

(** A confirmed verification: its last read. *)
Lemma verify_confirmed fuel : ∀ t c,
  (∀ t, 0 ≤ latency t) → verify fuel t c = Some V_confirmed →
  Forall (λ u, trusted u → read u = None ∨ read u = Some target) (polls fuel t c) ∧
  ∃ t2, t2 ∈ polls fuel t c ∧ read t2 = Some target ∧ trusted t2 ∧
    match c with
    | Some c => c ≤ t2 + latency t2
    | None => ∃ t1, t1 ∈ polls fuel t c ∧ read t1 = Some target ∧ trusted t1 ∧
        t1 + latency t1 + confirm ≤ t2 + latency t2
    end.
Proof.
  induction fuel as [|fuel IH]; intros t c Hlat Hv; [done|].
  destruct (verify_round fuel t c Hlat) as [(r & Hr & Hp & Hconf)|(t' & c' & Hr & Hp & Ht & _ & _ & Hread & Hc)];
    rewrite Hr in Hv; rewrite Hp.
  - injection Hv as ->. destruct (Hconf eq_refl) as (Hrd & Htr & Hc). split; [constructor; [auto|constructor]|].
    exists t. split_and!; [by apply list_elem_of_singleton|done|done|]. destruct c; [done|].
    exists t. split_and!; [by apply list_elem_of_singleton|done|done|lia].
  - destruct (IH t' c' Hlat Hv) as (Hall & t2 & Hin & Hrd & Htr & Hend).
    split; [by constructor|]. exists t2. split_and!; [set_solver|done|done|].
    destruct Hc as [->|(-> & -> & Hr1 & Ht1)].
    + destruct c; [done|]. destruct Hend as (t1 & ? & ? & ? & ?). exists t1. set_solver.
    + exists t. split_and!; [set_solver|done|done|lia].
Qed.

End verify.

(** C32. Verification after a flash always ends; it confirms only when, after the
    settle time, the module reported the target version at one read and again at a
    read a full confirm window later, and no trusted read in the whole run showed
    another version: an image that is still on trial is never committed. *)
Theorem verify_confirms_stable read latency target started settle confirm :
  (∀ t, 0 ≤ latency t) → 0 ≤ confirm →
  ∃ r, verify read latency target started settle confirm (verify_fuel confirm) started None = Some r ∧
  (r = V_confirmed →
    Forall (λ u, started + settle ≤ u + latency u → read u = None ∨ read u = Some target)
      (polls read latency target started settle confirm (verify_fuel confirm) started None) ∧
    ∃ t1 t2, t1 ∈ polls read latency target started settle confirm (verify_fuel confirm) started None ∧
      t2 ∈ polls read latency target started settle confirm (verify_fuel confirm) started None ∧
      read t1 = Some target ∧ read t2 = Some target ∧ started + settle ≤ t1 + latency t1 ∧
      t1 + latency t1 + confirm ≤ t2 + latency t2).
Proof.
  intros Hlat Hc. destruct (verify_total_none read latency target started settle confirm (verify_fuel confirm) started)
    as [r Hr]; [done|done|unfold verify_fuel, deadline, VERIFY_TIMEOUT_MS, CONFIRM_GRACE_MS, VERIFY_POLL_MS; lia|].
  exists r. split; [done|]. intros ->.
  destruct (verify_confirmed read latency target started settle confirm _ started None Hlat Hr)
    as (Hall & t2 & H2 & Hr2 & Ht2 & t1 & H1 & Hr1 & Ht1 & Hle).
  split; [done|]. exists t1, t2. split_and!; done.
Qed.

(** A module that comes back after ten seconds and keeps the target. *)
Lemma verify_confirms_stable_witness :
  let read t := if decide (10000 ≤ t) then Some "2.0.0" else None in
  verify read (λ _, 100) "2.0.0" 0 45000 40000 60 0 None = Some V_confirmed ∧
  ∃ r, verify read (λ _, 100) "2.0.0" 0 45000 40000 (verify_fuel 40000) 0 None = Some r.
Proof.
  intros read. split; [vm_compute; reflexivity|].
  destruct (verify_confirms_stable read (λ _, 100) "2.0.0" 0 45000 40000) as (r & Hr & _); [lia|lia|]. by exists r.
Defined.

(** ** The cycle *)

Inductive FlashOutcome := FO_OK | FO_REJECTED | FO_TRANSIENT | FO_ROLLED_BACK | FO_DFU_STUCK.

#[export] Instance FlashOutcome_eq_dec : EqDecision FlashOutcome.
Proof. solve_decision. Defined.

(** What the cycle does, in order. *)
Inductive Act :=
| A_status (conv : Z) (status : string)
| A_commit (conv : Z) (version : string)
| A_pause (slot : Z)
| A_resume (slot : Z)
| A_event (slot : Z) (module event : string)
| A_refresh (force : bool)
| A_save (phase : string)
| A_clear (removed : bool)
| A_forget (slot : Z)
| A_remove (path : string)
| A_flash (slot : Z) (path : string)
| A_after_verify (slot : Z) (success : bool).

(** What the environment answers; [None] is an exception. *)
Record CycleEnv := mkCycleEnv {
  ce_backends : list string;
  ce_file : option Json;                      (* the marker file *)
  ce_in_dir : string → bool;                  (* [path_in_dir] *)
  ce_check : option (option Json);            (* the server's answer, if it has one *)
  ce_identity : option (option (string * string));   (* variant, version; inner [None]: another module or none *)
  ce_stuck : bool;
  ce_busy : bool;
  ce_module_id : string;                      (* of the slot's last entry *)
  ce_barrier : bool;                          (* the device lock was obtained *)
  ce_busy_again : bool;
  ce_download : option bool;
  ce_save : bool;
  ce_flash : option FlashOutcome;
  ce_read : Z → option string;                (* the version read while verifying *)
  ce_latency : Z → Z;
  ce_started : Z; ce_settle : Z; ce_confirm : Z;
  ce_after_verify : bool;                     (* it returns *)
  ce_commit : option Z;                       (* HTTP status *)
  ce_reflash : bool;                          (* [backend.recover] flashes the image again *)
  ce_recover : option (option FlashOutcome);
  ce_clear : bool;                            (* the marker file can be removed *)
  ce_path : string                            (* the image file *)
}.

(** Actions, then a value or an exception. *)
Definition Cycle (A : Type) : Type := (list Act * option A)%type.

Definition ret {A} (a : A) : Cycle A := ([], Some a).
Definition raise {A} : Cycle A := ([], None).
Definition act (a : Act) : Cycle unit := ([a], Some tt).
Definition bindR {A B} (m : Cycle A) (k : A → Cycle B) : Cycle B :=
  match m with
  | (l, Some a) => let '(l', r) := k a in (l ++ l', r)
  | (l, None) => (l, None)
  end.

Declare Scope run_scope.
Notation "x <~ m ;; k" := (bindR m (λ x, k)) (at level 90, m at level 85, right associativity) : run_scope.
Notation "m ;;; k" := (bindR m (λ _, k)) (at level 90, right associativity) : run_scope.
Local Open Scope run_scope.

(** [try: m except Exception: handler]. *)
Definition catch {A} (m handler : Cycle A) : Cycle A :=
  match m with
  | (l, Some a) => (l, Some a)
  | (l, None) => let '(l', r) := handler in (l ++ l', r)
  end.

Section cycle.
Variable e : CycleEnv.

Definition of_option {A} (o : option A) : Cycle A := match o with Some a => ret a | None => raise end.

(** [_commit] *)
Definition commit (conv : Z) (version : string) : Cycle string :=
  act (A_commit conv version) ;;;
  ret (match ce_commit e with
       | Some 409 => "rolled_back"
       | _ => "success"
       end).

Definition outcome_status (o : FlashOutcome) : string :=
  match o with
  | FO_REJECTED => "rejected"
  | FO_TRANSIENT => "failed"
  | FO_ROLLED_BACK | FO_DFU_STUCK | FO_OK => "rolled_back"
  end.

(** [_report_outcome] *)
Definition report_outcome (conv slot : Z) (module : string) (o : FlashOutcome) : Cycle string :=
  (if decide (o = FO_DFU_STUCK)
   then act (A_event slot module "firmware_dfu_stuck") ;;; act (A_forget slot) else ret tt) ;;;
  act (A_status conv (outcome_status o)) ;;;
  ret (outcome_status o).

Definition verified (target : string) : option VerifyResult :=
  verify (ce_read e) (ce_latency e) target (ce_started e) (ce_settle e) (ce_confirm e) (verify_fuel (ce_confirm e))
    (ce_started e) None.

Definition after_verify (slot : Z) (success : bool) : Cycle unit :=
  if ce_after_verify e then act (A_after_verify slot success) else raise.

(** [_verify], reported. *)
Definition run_verify (conv slot : Z) (target : string) : Cycle string :=
  r <~ of_option (verified target) ;;
  match r with
  | V_confirmed => after_verify slot true ;;; commit conv target
  | _ => after_verify slot false ;;; act (A_status conv "rolled_back") ;;; ret "rolled_back"
  end.

Definition save_marker (phase : string) : Cycle unit := if ce_save e then act (A_save phase) else raise.

(** [_download_and_flash] *)
Definition download_and_flash (i : Instr) (module : string) : Cycle string :=
  act (A_status (in_conv i) "downloading") ;;;
  ok <~ of_option (ce_download e) ;;
  if negb ok then act (A_status (in_conv i) "failed") ;;; ret "failed"
  else
    save_marker "downloaded" ;;;
    act (A_status (in_conv i) "flashing") ;;;
    save_marker "flashing" ;;;
    act (A_flash (in_slot i) (ce_path e)) ;;;
    o <~ of_option (ce_flash e) ;;
    if decide (o = FO_OK) then
      act (A_status (in_conv i) "verifying") ;;; run_verify (in_conv i) (in_slot i) (in_target i)
    else report_outcome (in_conv i) (in_slot i) module o.

(** [_finish] *)
Definition finish_cycle (slot : Z) (module path : string) : Cycle unit :=
  act (A_resume slot) ;;; act (A_event slot module "firmware_update_finished") ;;; act (A_refresh true) ;;;
  act (A_remove path) ;;; act (A_clear (ce_clear e)).

(** [_pause_when_idle] *)
Definition pause_when_idle (slot : Z) : Cycle bool :=
  act (A_pause slot) ;;;
  (if ce_barrier e && negb (ce_busy_again e) then ret true else act (A_resume slot) ;;; ret false).

(** The body of [_finish_from_marker]; a backend that flashes the image again does it
    inside [recover]. *)
Definition recovery (m : Marker) (module : string) : Cycle string :=
  if decide (mk_phase m = "downloaded") then
    i <~ of_option (ce_identity e) ;;
    match i with
    | Some (_, version) =>
      if decide (version = mk_target m) then commit (mk_conv m) version
      else act (A_status (mk_conv m) "failed") ;;; ret "failed"
    | None => act (A_status (mk_conv m) "failed") ;;; ret "failed"
    end
  else
    (if ce_reflash e then act (A_flash (mk_slot m) (mk_path m)) else ret tt) ;;;
    o <~ of_option (ce_recover e) ;;
    match o with
    | None | Some FO_OK => run_verify (mk_conv m) (mk_slot m) (mk_target m)
    | Some o => report_outcome (mk_conv m) (mk_slot m) module o
    end.

Definition finish_from_marker (m : Marker) (module : string) : Cycle string :=
  act (A_pause (mk_slot m)) ;;;
  if ce_barrier e then
    r <~ catch (recovery m module) (act (A_status (mk_conv m) "failed") ;;; ret "failed") ;;
    finish_cycle (mk_slot m) module (mk_path m) ;;; ret r
  else act (A_resume (mk_slot m)) ;;; act (A_refresh false) ;;; ret "busy".

(** The checks of [run_once] before the slot is paused: [inl] is the result. *)
Definition precheck (i : Instr) : Cycle (string + unit) :=
  if bool_decide (in_artifact i ∉ ce_backends e) then act (A_status (in_conv i) "failed") ;;; ret (inl "failed")
  else
    id <~ of_option (ce_identity e) ;;
    match id with
    | None =>
      (if ce_stuck e then
         (if decide (ce_module_id e = "") then ret tt
          else act (A_event (in_slot i) (ce_module_id e) "firmware_dfu_stuck")) ;;;
         act (A_forget (in_slot i))
       else ret tt) ;;;
      act (A_status (in_conv i) "failed") ;;; ret (inl "failed")
    | Some (variant, version) =>
      if bool_decide (variant ≠ "") && bool_decide (in_variant i ≠ "") && bool_decide (variant ≠ in_variant i)
      then act (A_status (in_conv i) "rejected") ;;; ret (inl "rejected")
      else if decide (version = in_target i) then
        r <~ commit (in_conv i) (in_target i) ;; ret (inl r)
      else if ce_busy e || bool_decide (ce_module_id e = "") then ret (inl "busy")
      else ret (inr tt)
    end.

(** [run_once] on a parsed instruction. *)
Definition run_instruction (i : Instr) : Cycle string :=
  p <~ precheck i ;;
  match p with
  | inl r => ret r
  | inr _ =>
    idle <~ pause_when_idle (in_slot i) ;;
    if negb idle then ret "busy"
    else
      r <~ catch (act (A_event (in_slot i) (ce_module_id e) "firmware_update_started") ;;; act (A_refresh false) ;;;
                  download_and_flash i (ce_module_id e))
                 (act (A_status (in_conv i) "failed") ;;; ret "failed") ;;
      finish_cycle (in_slot i) (ce_module_id e) (ce_path e) ;;; ret r
  end.

(** [Marker.load] on the file. *)
Definition marker_on_disk : option Marker := ce_file e ≫= load_marker (ce_in_dir e).

(** [run_once]; [snapshot_module] is [_module_id] of the marker's snapshot.  A marker
    file that is refused is removed. *)
Definition run_once (py_str : Json → string) (snapshot_module : Marker → string) : Cycle (option string) :=
  match ce_backends e with
  | [] => ret None
  | _ =>
    match marker_on_disk with
    | Some m => r <~ finish_from_marker m (snapshot_module m) ;; ret (Some r)
    | None =>
      (if bool_decide (is_Some (ce_file e)) then act (A_clear (ce_clear e)) else ret tt) ;;;
      c <~ of_option (ce_check e) ;;
      match c with
      | None => ret None
      | Some data =>
        match parse_instruction py_str data with
        | None => ret None
        | Some i => r <~ run_instruction i ;; ret (Some r)
        end
      end
    end
  end.

End cycle.

(** ** What a cycle leaves behind *)

(** The paused slots and the marker on disk after the actions. *)
Record Left := mkLeft { lf_paused : gset Z; lf_marker : option string }.

Definition do_act (s : Left) (a : Act) : Left :=
  match a with
  | A_pause slot => mkLeft (lf_paused s ∪ {[slot]}) (lf_marker s)
  | A_resume slot => mkLeft (lf_paused s ∖ {[slot]}) (lf_marker s)
  | A_save phase => mkLeft (lf_paused s) (Some phase)
  | A_clear removed => if removed then mkLeft (lf_paused s) None else s
  | _ => s
  end.

Definition after (s : Left) (acts : list Act) : Left := foldl do_act s acts.

Lemma after_app s l l' : after s (l ++ l') = after (after s l) l'.
Proof. apply foldl_app. Qed.

(** A flash runs only on a paused slot, with its marker on disk, for a slot and image
    that [okf] allows; a commit only for what [okc] allows. *)
Definition permitted (okf okc : Z → string → Prop) (s : Left) (a : Act) : Prop :=
  match a with
  | A_flash slot path => (slot ∈ lf_paused s ∧ lf_marker s = Some "flashing") ∧ okf slot path
  | A_commit conv version => okc conv version
  | _ => True
  end.

Fixpoint permitted_all (okf okc : Z → string → Prop) (s : Left) (acts : list Act) : Prop :=
  match acts with
  | [] => True
  | a :: acts' => permitted okf okc s a ∧ permitted_all okf okc (do_act s a) acts'
  end.

Lemma permitted_app okf okc s l l' :
  permitted_all okf okc s (l ++ l') ↔ permitted_all okf okc s l ∧ permitted_all okf okc (after s l) l'.
Proof. revert s. induction l as [|a l IH]; intros s; simpl; [tauto|]. rewrite IH. tauto. Qed.

Lemma permitted_at okf okc s pre a post :
  permitted_all okf okc s (pre ++ a :: post) → permitted okf okc (after s pre) a.
Proof. rewrite permitted_app. simpl. tauto. Qed.

(** [wp okf okc s m Q]: from [s], the actions of [m] are permitted and end in a state
    and result that satisfy [Q]. *)
Definition wp {A} (okf okc : Z → string → Prop) (s : Left) (m : Cycle A) (Q : Left → option A → Prop) : Prop :=
  permitted_all okf okc s m.1 ∧ Q (after s m.1) m.2.

Section wp.
Variables okf okc : Z → string → Prop.

Lemma wp_ret {A} s (a : A) Q : Q s (Some a) → wp okf okc s (ret a) Q.
Proof. by split. Qed.

Lemma wp_raise {A} s (Q : Left → option A → Prop) : Q s None → wp okf okc s raise Q.
Proof. by split. Qed.

Lemma wp_act s a Q : permitted okf okc s a → Q (do_act s a) (Some tt) → wp okf okc s (act a) Q.
Proof. by split. Qed.

Lemma wp_bind {A B} s (m : Cycle A) (k : A → Cycle B) (Q : Left → option B → Prop) :
  wp okf okc s m (λ s' r, match r with Some a => wp okf okc s' (k a) Q | None => Q s' None end) →
  wp okf okc s (bindR m k) Q.
Proof.
  unfold wp. destruct m as [l [a|]]; simpl; [|done]. destruct (k a) as [l' r]; simpl.
  rewrite permitted_app, after_app. tauto.
Qed.

Lemma wp_catch {A} s (m h : Cycle A) Q :
  wp okf okc s m (λ s' r, match r with Some _ => Q s' r | None => wp okf okc s' h Q end) → wp okf okc s (catch m h) Q.
Proof.
  unfold wp. destruct m as [l [a|]]; simpl; [done|]. destruct h as [l' r]; simpl.
  rewrite permitted_app, after_app. tauto.
Qed.

Lemma wp_mono {A} s (m : Cycle A) (Q R : Left → option A → Prop) :
  (∀ s' r, Q s' r → R s' r) → wp okf okc s m Q → wp okf okc s m R.
Proof. intros HQR [? ?]. split; auto. Qed.

Lemma wp_of_option {A} s (o : option A) Q : Q s o → wp okf okc s (of_option o) Q.
Proof. destruct o; [apply wp_ret|apply wp_raise]. Qed.

End wp.

(** Symbolic execution of a cycle. *)
Ltac wp_step :=
  match goal with
  | |- wp _ _ _ (bindR _ _) _ => apply wp_bind
  | |- wp _ _ _ (act _) _ => apply wp_act; [try exact I|cbn [do_act lf_paused lf_marker]]
  | |- wp _ _ _ (ret _) _ => apply wp_ret
  | |- wp _ _ _ raise _ => apply wp_raise
  | |- wp _ _ _ (of_option ?o) _ => apply wp_of_option; destruct o eqn:?
  | |- wp _ _ _ (if decide ?P then _ else _) _ => destruct (decide P)
  | |- wp _ _ _ (if ?b then _ else _) _ => destruct b eqn:?
  end.

Section cycle_proofs.
Variables (e : CycleEnv) (okf okc : Z → string → Prop).

(** Steps that keep the paused slots and the marker. *)
Definition keeps {A} (s : Left) (m : Cycle A) : Prop := wp okf okc s m (λ s' _, s' = s).

Lemma commit_ok s conv version : okc conv version → wp okf okc s (commit e conv version) (λ s' r, s' = s ∧ is_Some r).
Proof. intros Hok. unfold commit. repeat wp_step; done. Qed.

Lemma commit_keeps s conv version : okc conv version → keeps s (commit e conv version).
Proof. intros Hok. eapply wp_mono; [|by apply commit_ok]. by intros s' r [? _]. Qed.

Lemma report_keeps s conv slot module o : keeps s (report_outcome conv slot module o).
Proof. unfold keeps, report_outcome. repeat wp_step; done. Qed.

Lemma verify_keeps s conv slot target :
  (verified e target = Some V_confirmed → okc conv target) → keeps s (run_verify e conv slot target).
Proof.
  intros Hok. unfold keeps, run_verify, after_verify. repeat wp_step; [|done].
  destruct v; repeat wp_step; try done. apply commit_keeps. auto.
Qed.

(** From a paused slot, download and flash keep it paused. *)
Lemma download_and_flash_ok s i module :
  (verified e (in_target i) = Some V_confirmed → okc (in_conv i) (in_target i)) →
  (ce_download e = Some true → okf (in_slot i) (ce_path e)) → in_slot i ∈ lf_paused s →
  wp okf okc s (download_and_flash e i module) (λ s' _, lf_paused s' = lf_paused s).
Proof.
  intros Hok Hf Hp. unfold download_and_flash, save_marker.
  repeat wp_step; cbn [negb] in *; try done.
  - split; [done|]. apply Hf. by destruct b.
  - eapply wp_mono; [|by apply verify_keeps]. by intros s' r ->.
  - eapply wp_mono; [|apply report_keeps]. by intros s' r ->.
Qed.

Lemma finish_cycle_ok s slot module path Q :
  Q (mkLeft (lf_paused s ∖ {[slot]}) (if ce_clear e then None else lf_marker s)) (Some tt) →
  wp okf okc s (finish_cycle e slot module path) Q.
Proof. intros HQ. unfold finish_cycle. repeat wp_step; try done. by destruct (ce_clear e). Qed.

Lemma recovery_keeps s m module :
  mk_phase m ∈ ["downloaded"; "flashing"] → lf_marker s = Some (mk_phase m) → mk_slot m ∈ lf_paused s →
  (verified e (mk_target m) = Some V_confirmed → okc (mk_conv m) (mk_target m)) →
  (∀ v, ce_identity e = Some (Some v) → v.2 = mk_target m → okc (mk_conv m) (mk_target m)) →
  okf (mk_slot m) (mk_path m) → keeps s (recovery e m module).
Proof.
  intros Hph Hmk Hp Hv Hi Hf. unfold keeps, recovery. destruct (decide (mk_phase m = "downloaded")) as [|Hne].
  - wp_step. wp_step; [|done]. destruct o as [[va ve]|]; repeat wp_step; try done. subst ve. apply commit_keeps. by eapply Hi.
  - assert (mk_phase m = "flashing") as Hfl by set_solver.
    assert (keeps s (o <~ of_option (ce_recover e);; match o with
      | None | Some FO_OK => run_verify e (mk_conv m) (mk_slot m) (mk_target m)
      | Some o => report_outcome (mk_conv m) (mk_slot m) module o end)) as Hrest.
    { unfold keeps. repeat wp_step; [|done]. destruct o as [[]|]; try apply report_keeps; by apply verify_keeps. }
    wp_step. destruct (ce_reflash e); wp_step; try exact Hrest. split; [|done]. split; [done|congruence].
Qed.

Lemma precheck_keeps s i :
  (∀ v, ce_identity e = Some (Some v) → v.2 = in_target i → okc (in_conv i) (in_target i)) →
  wp okf okc s (precheck e i) (λ s' _, s' = s).
Proof.
  intros Hi. unfold precheck. repeat wp_step; try done.
  destruct o as [[va ve]|]; repeat wp_step; try done.
  eapply wp_mono; [|apply commit_ok; by apply (Hi (va, ve))]. intros s' r [-> [x ->]]. by repeat wp_step.
Qed.

(** The state a cycle may end in, from no paused slot: the marker is gone, or stays as
    it was because the line was busy, or because it could not be removed. *)
Definition clean_end {A} (kept : Prop) (marker : option string) (s : Left) (_ : option A) : Prop :=
  lf_paused s = ∅ ∧ (lf_marker s = None ∨ (kept ∧ lf_marker s = marker) ∨ ce_clear e = false).

Lemma finish_clean {A} kept marker paused m slot (r : option A) :
  paused = {[slot]} → clean_end kept marker (mkLeft (paused ∖ {[slot]}) (if ce_clear e then None else m)) r.
Proof. intros ->. split; [cbn; set_solver|]. cbn. destruct (ce_clear e); auto. Qed.

Lemma run_instruction_ok i m0 :
  (m0 = None ∨ ce_clear e = false) →
  (verified e (in_target i) = Some V_confirmed → okc (in_conv i) (in_target i)) →
  (∀ v, ce_identity e = Some (Some v) → v.2 = in_target i → okc (in_conv i) (in_target i)) →
  (ce_download e = Some true → okf (in_slot i) (ce_path e)) →
  wp okf okc (mkLeft ∅ m0) (run_instruction e i) (clean_end False None).
Proof.
  intros Hm Hv Hi Hf. assert (∀ A (r : option A), clean_end False None (mkLeft ∅ m0) r) as Hstart.
  { intros A r. split; [done|]. cbn. destruct Hm; auto. }
  unfold run_instruction. wp_step. eapply wp_mono; [|by apply precheck_keeps].
  intros s' r ->. destruct r as [[r|[]]|]; [by wp_step| |done].
  unfold pause_when_idle. repeat wp_step; cbn [negb] in *; try done; repeat wp_step;
    try (replace ((∅ ∪ {[in_slot i]}) ∖ {[in_slot i]}) with (∅ : gset Z) by set_solver; apply Hstart).
  apply wp_catch. repeat wp_step. eapply wp_mono; [|apply download_and_flash_ok; [done|done|cbn; set_solver]].
  intros s' r Hp. cbn in Hp.
  destruct r; repeat wp_step; apply finish_cycle_ok; wp_step; apply finish_clean; rewrite Hp; set_solver.
Qed.

Lemma finish_from_marker_ok m module :
  mk_phase m ∈ ["downloaded"; "flashing"] →
  (verified e (mk_target m) = Some V_confirmed → okc (mk_conv m) (mk_target m)) →
  (∀ v, ce_identity e = Some (Some v) → v.2 = mk_target m → okc (mk_conv m) (mk_target m)) →
  okf (mk_slot m) (mk_path m) →
  wp okf okc (mkLeft ∅ (Some (mk_phase m))) (finish_from_marker e m module)
    (clean_end (ce_barrier e = false) (Some (mk_phase m))).
Proof.
  intros Hph Hv Hi Hf. unfold finish_from_marker. repeat wp_step.
  - apply wp_catch. eapply wp_mono; [|apply recovery_keeps; [done|done|cbn; set_solver|done..]]. intros s' r ->.
    destruct r; repeat wp_step; apply finish_cycle_ok; wp_step; apply finish_clean; cbn; set_solver.
  - split; [cbn; set_solver|]. right. by left.
Qed.

End cycle_proofs.

Lemma load_marker_phase in_dir data m : load_marker in_dir data = Some m → mk_phase m ∈ ["downloaded"; "flashing"].
Proof.
  unfold load_marker. intros H. repeat case_match; simplify_eq; try done. all: cbn.
  all: match goal with H : bool_decide (_ ∉ ["downloaded"; "flashing"]) = false |- _ => apply bool_decide_eq_false in H; by apply dec_stable end.
Qed.

(** The marker file before the cycle: its phase, if it is one. *)
Definition file_phase (e : CycleEnv) : option string := (λ _, default "" (mk_phase <$> marker_on_disk e)) <$> ce_file e.

(** What is committed is the update in hand, [conv] to [version]: the server's
    instruction when no marker is on disk, else the marker's. *)
Definition in_hand (e : CycleEnv) (py_str : Json → string) (conv : Z) (version : string) : Prop :=
  match marker_on_disk e with
  | Some m => conv = mk_conv m ∧ version = mk_target m
  | None => ∃ data i, ce_check e = Some (Some data) ∧ parse_instruction py_str data = Some i ∧
      conv = in_conv i ∧ version = in_target i
  end.

Definition image_in_hand (e : CycleEnv) (py_str : Json → string) (slot : Z) (path : string) : Prop :=
  match marker_on_disk e with
  | Some m => slot = mk_slot m ∧ path = mk_path m
  | None => ∃ data i, ce_check e = Some (Some data) ∧ parse_instruction py_str data = Some i ∧
      slot = in_slot i ∧ path = ce_path e ∧ ce_download e = Some true
  end.

Lemma run_once_ok e py_str snapshot_module :
  wp (image_in_hand e py_str)
    (λ conv version, in_hand e py_str conv version ∧
      (verified e version = Some V_confirmed ∨ ∃ variant, ce_identity e = Some (Some (variant, version))))
    (mkLeft ∅ (file_phase e)) (run_once e py_str snapshot_module)
    (λ s _, lf_paused s = ∅ ∧
      (ce_backends e ≠ [] → lf_marker s = None ∨ (ce_barrier e = false ∧ lf_marker s = file_phase e) ∨ ce_clear e = false)).
Proof.
  unfold run_once. destruct (ce_backends e) as [|b bs]; [by wp_step|].
  destruct (marker_on_disk e) as [m|] eqn:Hm.
  - assert (∃ data, ce_file e = Some data ∧ load_marker (ce_in_dir e) data = Some m) as (data & Hfile & Hload).
    { unfold marker_on_disk in Hm. by apply bind_Some in Hm. }
    assert (file_phase e = Some (mk_phase m)) as Hph by (unfold file_phase; by rewrite Hm, Hfile).
    rewrite Hph. wp_step. eapply wp_mono; [|apply (finish_from_marker_ok e)].
    + intros s' r [H1 H2]. destruct r; [wp_step|]; done.
    + by eapply load_marker_phase.
    + intros Hv. split; [|by left]. unfold in_hand. by rewrite Hm.
    + intros [va ve] Hid Heq. cbn in Heq. subst ve. split; [unfold in_hand; by rewrite Hm|]. right. by exists va.
    + unfold image_in_hand. by rewrite Hm.
  - assert (∀ A (k : Cycle A) Q, (∀ m0, m0 = None ∨ ce_clear e = false → wp (image_in_hand e py_str)
      (λ conv version, in_hand e py_str conv version ∧
        (verified e version = Some V_confirmed ∨ ∃ variant, ce_identity e = Some (Some (variant, version))))
      (mkLeft ∅ m0) k Q) →
      wp (image_in_hand e py_str)
      (λ conv version, in_hand e py_str conv version ∧
        (verified e version = Some V_confirmed ∨ ∃ variant, ce_identity e = Some (Some (variant, version))))
      (mkLeft ∅ (file_phase e))
      ((if bool_decide (is_Some (ce_file e)) then act (A_clear (ce_clear e)) else ret tt) ;;; k) Q) as Hclear.
    { intros A k Q Hk. wp_step. case_bool_decide as Hf; wp_step.
      - destruct (ce_clear e) eqn:Hcl; apply Hk; auto.
      - apply Hk. left. unfold file_phase. destruct (ce_file e); [|done]. by destruct Hf. }
    apply Hclear. clear Hclear. intros m0 Hm0.
    assert (∀ A (r : option A), clean_end e False None (mkLeft ∅ m0) r) as Hstart.
    { intros A r. split; [done|]. destruct Hm0; auto. }
    assert (∀ A s (r : option A), clean_end e False None s r → lf_paused s = ∅ ∧
      (b :: bs ≠ [] → lf_marker s = None ∨ (ce_barrier e = false ∧ lf_marker s = file_phase e) ∨ ce_clear e = false)) as Hend.
    { intros A s r [H1 H2]. split; [done|]. intros _. destruct H2 as [?|[[[] _]|?]]; auto. }
    wp_step. wp_step; [|apply (Hend unit _ None), Hstart].
    destruct o as [data|]; [|wp_step; apply (Hend unit _ None), Hstart].
    destruct (parse_instruction py_str data) as [i|] eqn:Hi; [|wp_step; apply (Hend unit _ None), Hstart].
    wp_step. eapply wp_mono; [|apply (run_instruction_ok e); [done|..]].
    + intros s' r H. destruct r; [wp_step|]; by eapply Hend.
    + intros Hv. split; [|by left]. unfold in_hand. rewrite Hm. by exists data, i.
    + intros [va ve] Hid Heq. cbn in Heq. subst ve. split; [|right; by exists va]. unfold in_hand. rewrite Hm. by exists data, i.
    + intros Hd. unfold image_in_hand. rewrite Hm. by exists data, i.
Qed.

(** *** Exceptions *)

Lemma bindR_None {A B} (m : Cycle A) (k : A → Cycle B) l :
  bindR m k = (l, None) → m = (l, None) ∨ ∃ a l1 l2, m = (l1, Some a) ∧ k a = (l2, None) ∧ l = l1 ++ l2.
Proof.
  destruct m as [l1 [a|]]; simpl; [|by intros [= <-]; left]. destruct (k a) as [l2 r] eqn:Hk. intros [= <- ->].
  right. by exists a, l1, l2.
Qed.

Lemma finish_never_raises e slot module path l (r : string) :
  (finish_cycle e slot module path ;;; ret r) ≠ (l, None).
Proof. done. Qed.

Lemma catch_never_raises {A} (m : Cycle A) a (x : A) l : catch m (act a ;;; ret x) ≠ (l, None).
Proof. destruct m as [l' [y|]]; simpl; by intros [=]. Qed.

Lemma run_once_raises e py_str snapshot_module acts slot :
  run_once e py_str snapshot_module = (acts, None) → A_pause slot ∉ acts.
Proof.
  unfold run_once. destruct (ce_backends e) as [|b bs]; [done|]. destruct (marker_on_disk e) as [m|].
  - intros [H|(a & l1 & l2 & _ & H & _)]%bindR_None; [|done]. exfalso. revert H. unfold finish_from_marker.
    intros [H|(a & l1 & l2 & _ & H & _)]%bindR_None; [done|]. destruct (ce_barrier e).
    + apply bindR_None in H as [H|(x & l3 & l4 & _ & H & _)]; [by apply catch_never_raises in H|by apply finish_never_raises in H].
    + done.
  - intros [H|(a & l1 & l2 & H1 & H & ->)]%bindR_None; [by case_bool_decide|].
    assert (A_pause slot ∉ l1) as Hl1 by (case_bool_decide; injection H1 as <- _; set_solver).
    rewrite elem_of_app. intros [Hin|Hin]; [done|]. revert H Hin.
    intros [H|(c & l3 & l4 & H3 & H & ->)]%bindR_None; [destruct (ce_check e); [done|]; injection H as <-; set_solver|].
    destruct (ce_check e); [|done]. injection H3 as <- <-. destruct o as [data|]; [|done].
    destruct (parse_instruction py_str data) as [i|]; [|done]. simpl.
    apply bindR_None in H as [H|(x & l5 & l6 & _ & H & _)]; [|done]. revert H. unfold run_instruction.
    intros [H|(p & l5 & l6 & _ & H & _)]%bindR_None.
    + clear H1. revert H. unfold precheck. case_bool_decide; [simpl; by intros [=]|].
      intros [Hn|(x & l7 & l8 & _ & Hn & _)]%bindR_None; [destruct (ce_identity e); [done|]; injection Hn as <-; set_solver|].
      exfalso. destruct x as [[va ve]|]; [|by repeat case_match].
      repeat case_match; done.
    + exfalso. destruct p as [r|[]]; [done|]. apply bindR_None in H as [H|(idle & l7 & l8 & _ & H & _)].
      * unfold pause_when_idle in H. by destruct (ce_barrier e && _).
      * destruct idle; [|done]. simpl in H.
        apply bindR_None in H as [H|(x & l9 & l10 & _ & H & _)]; [by apply catch_never_raises in H|by apply finish_never_raises in H].
Qed.



Lemma instruction_checked_witness :
  let url := "/api/v1/module-firmware/artifact/7/" in
  let data := JObj [("convergence_id", JInt 4); ("slot", JStr "2"); ("size_bytes", JInt 10); ("module_uid", JStr "u");
    ("target_version", JStr "2.0"); ("artifact", JStr "dfu"); ("download_url", JStr url);
    ("checksum_sha256", JStr "0123456789ABCDEF0123456789abcdef0123456789abcdef0123456789abcdef")] in
  ∃ i, parse_instruction (λ _, "") data = Some i ∧ in_url i = url ∧ contains ".." (in_url i) = false.
Proof.
  intros url data. eexists. split; [vm_compute; reflexivity|]. split; [reflexivity|].
  eapply (instruction_checked (λ _, "") data). vm_compute. reflexivity.
Defined.
