(* ===== verification/AgentDownload.v ===== *)
(** * The agent's resumable download

    Models [download_firmware_resumable] and [_verify_checksum] of
    [station_agent/ota.py] (also used by the module updates): one file on disk,
    one request, at most one retry without a range.  The HTTP layer is the
    parameter [request], the digest the parameter [sha256]; the answers of the
    real endpoint are those of [Download].

    What can fail without the code noticing first is a field of [Disk]; an
    [OSError] while the body is written covers errors of the file and of the
    response stream alike, since both end in the same handler.  Header text is
    limited to ASCII. *)

From Stdlib Require Import ZArith Lia Ascii.
From stdpp Require Import base gmap list strings pretty.
From S2P Require Import Prelude Json Images Targeting Deployments Download.

Local Open Scope Z_scope.

Notation Bytes := (list Byte.byte).

(** ** The response and the disk *)

Inductive StreamEnd := StreamEOF | StreamError.

Record HttpResp := mkHttpResp {
  hr_status : Z;
  hr_content_range : string;   (* "" when the header is absent *)
  hr_body : Bytes;             (* what arrives before the stream ends *)
  hr_end : StreamEnd
}.

Record Disk := mkDisk {
  dk_remove : bool;   (* [os.remove] works *)
  dk_mkdir : bool;    (* [os.makedirs] works *)
  dk_read : bool      (* the file can be read back *)
}.

(** [f"bytes={n}-"] *)
Definition range_header (n : Z) : string := "bytes=" +:+ pretty n +:+ "-".

(** [re.match("bytes\s+(\d+)-", header)] and [int] of the group. *)
Definition reported_start (header : string) : outcome unit (option Z) :=
  match strip_prefix (digits_of "bytes") (digits_of header) with
  | None => Ok None
  | Some l =>
    let l1 := lstrip l in
    if decide (l1 = l) then Ok None
    else
      let (d, r) := span_digits l1 in
      match d, strip_prefix (digits_of "-") r with
      | [], _ | _, None => Ok None
      | _, Some _ => match py_int d with Ok n => Ok (Some n) | Raise e => Raise e end
      end
  end.

Section download.
Variable sha256 : Bytes → string.

(** [os.remove] with its [OSError] swallowed. *)
Definition remove (dk : Disk) (f : option Bytes) : option Bytes := if dk_remove dk then None else f.

Definition verify_checksum (dk : Disk) (checksum : string) (f : option Bytes) : bool * option Bytes :=
  if decide (checksum = "") then (true, f)
  else
    match f with
    | Some b =>
      if negb (dk_read dk) then (false, remove dk f)
      else if decide (sha256 b = checksum) then (true, f)
      else (false, remove dk f)
    | None => (false, None)
    end.

(** The body written behind [base] (append) or from the start. *)
Definition write_body (dk : Disk) (checksum : string) (base : Bytes) (f : option Bytes) (r : HttpResp)
    : bool * option Bytes :=
  if negb (dk_mkdir dk) then (false, f)
  else
    let f' := Some (base ++ hr_body r) in
    match hr_end r with
    | StreamEOF => verify_checksum dk checksum f'
    | StreamError => (false, remove dk f')
    end.

Definition file_len (f : option Bytes) : Z :=
  match f with Some b => Z.of_nat (length b) | None => 0 end.

(** One pass; [retry] is the recursive call with [resume=False]. *)
Definition download_pass (retry : option Bytes → outcome unit (bool * option Bytes)) (dk : Disk)
    (request : option string → option HttpResp) (checksum : string) (resume : bool) (size : option Z)
    (f : option Bytes) : outcome unit (bool * option Bytes) :=
  let existing := if resume then file_len f else 0 in
  if resume && bool_decide (is_Some f) && bool_decide (size = Some existing) then
    Ok (verify_checksum dk checksum f)
  else
    let stale := resume && bool_decide (is_Some f) &&
      match size with Some n => bool_decide (n < existing) | None => false end in
    let f1 := if stale then remove dk f else f in
    let existing := if stale then 0 else existing in
    let base := if decide (0 < existing) then default [] f else [] in
    match request (if decide (0 < existing) then Some (range_header existing) else None) with
    | None => Ok (false, f1)
    | Some r =>
      if bool_decide (hr_status r = 416) && bool_decide (0 < existing) then retry (remove dk f1)
      else if decide (hr_status r = 200) then Ok (write_body dk checksum [] f1 r)
      else if decide (hr_status r = 206) then
        obind (reported_start (hr_content_range r)) (λ start,
          if bool_decide (0 < existing) && bool_decide (start ≠ Some existing) then retry (remove dk f1)
          else Ok (write_body dk checksum base f1 r))
      else Ok (false, f1)
    end.

(** [download_firmware_resumable]; the second request goes out only on a retry,
    which asks for no range and so never retries again ([pass_no_retry]). *)
Definition download_firmware_resumable (dk : Disk) (request retry_request : option string → option HttpResp)
    (checksum : string) (size : option Z) (f : option Bytes) : outcome unit (bool * option Bytes) :=
  download_pass
    (download_pass (λ f, Ok (false, f)) dk retry_request checksum false None)
    dk request checksum true size f.

End download.

(** ** The endpoint as the agent sees it *)

(** The Content-Range header of a response of the endpoint. *)
Definition content_range_header (r : ContentRange) : string :=
  match r with
  | CR_None => ""
  | CR_Bytes start e total =>
    "bytes " +:+ pretty start +:+ "-" +:+ pretty e +:+ "/" +:+ pretty total
  | CR_Unsatisfied total => "bytes */" +:+ pretty total
  end.

(** A request of the station that arrives and is answered in full. *)
Definition endpoint {S} `{FileLike S} (db : DB) (station pk : Z) (open_stream : string → option S)
    (range : option string) : option HttpResp :=
  let out := download_view db (Some station) pk (default "" range) open_stream in
  Some (mkHttpResp (dl_code out) (content_range_header (dl_range out))
    (mjoin (default [] (dl_body out))) StreamEOF).

(** ** Lemmas: printed numbers *)

Lemma digits_value_snoc l c : digits_value (l ++ [c]) = 10 * digits_value l + default 0 (digit_value c).
Proof. unfold digits_value. by rewrite foldl_app. Qed.

Lemma pretty_char_value x : (x < 10)%N → digit_value (pretty_N_char x) = Some (Z.of_N x).
Proof.
  intros Hx. assert (x = 0 ∨ x = 1 ∨ x = 2 ∨ x = 3 ∨ x = 4 ∨ x = 5 ∨ x = 6 ∨ x = 7 ∨ x = 8 ∨ x = 9)%N
    as Hcases by lia. by repeat destruct Hcases as [->|Hcases]; try subst.
Qed.

Lemma pretty_go_digits x s :
  ∃ d, digits_of (pretty_N_go x s) = d ++ digits_of s ∧ Forall is_digit d ∧ digits_value d = Z.of_N x ∧
    (d = [] ↔ x = 0%N) ∧ ∀ k : nat, (x < 10 ^ N.of_nat k)%N → (length d ≤ k)%nat.
Proof.
  revert s. induction (N.lt_wf_0 x) as [x _ IH]; intros s.
  destruct (decide (x = 0)%N) as [->|Hx].
  { exists []. rewrite pretty_N_go_0. split_and!; [done|constructor|done|done|]. simpl; lia. }
  rewrite pretty_N_go_step by lia.
  destruct (IH (x `div` 10)%N ltac:(apply N.div_lt; lia) (String (pretty_N_char (x `mod` 10)) s))
    as (d & Hd & Hall & Hval & Hnil & Hlen).
  assert (x `mod` 10 < 10)%N as Hmod by (by apply N.mod_lt).
  exists (d ++ [pretty_N_char (x `mod` 10)]). rewrite Hd. split_and!.
  - by rewrite <-app_assoc.
  - apply Forall_app. split; [done|]. constructor; [|done].
    unfold is_digit. rewrite (pretty_char_value _ Hmod). eauto.
  - rewrite digits_value_snoc, Hval, (pretty_char_value _ Hmod). simpl.
    rewrite (N.div_mod x 10) at 3 by done. lia.
  - split; [by destruct d|done].
  - intros k Hk. rewrite length_app. simpl. destruct k as [|k]; [simpl in Hk; lia|].
    assert (length d ≤ k)%nat; [|lia]. apply Hlen.
    apply N.Div0.div_lt_upper_bound. rewrite Nat2N.inj_succ, N.pow_succ_r' in Hk. lia.
Qed.

(** [str(n)] of a non-negative number: its decimal digits. *)
Lemma pretty_digits n :
  0 ≤ n → ∃ d, digits_of (pretty n) = d ∧ Forall is_digit d ∧ d ≠ [] ∧ digits_value d = n ∧
    (n < 10 ^ 4300 → py_int d = Ok n).
Proof.
  intros Hn. destruct (decide (n = 0)) as [->|Hz].
  { exists ["0"%char]. split_and!; try done. constructor; [|done]. by exists 0. }
  assert (pretty n = pretty_N_go (Z.to_N n) "") as Hp.
  { unfold pretty, pretty_Z. destruct n; try lia. simpl. unfold pretty, pretty_positive, pretty, pretty_N. done. }
  destruct (pretty_go_digits (Z.to_N n) "") as (d & Hd & Hall & Hval & Hnil & Hlen).
  rewrite app_nil_r in Hd. exists d. rewrite Hp.
  assert (digits_value d = n) as Hdn by lia.
  split_and!; [done|done| |done|].
  - intros ->. destruct Hnil as [Hnil _]. specialize (Hnil eq_refl). lia.
  - intros Hb. unfold py_int. rewrite decide_True, Hdn; [done|].
    assert (length d ≤ 4300)%nat; [|lia]. apply Hlen.
    apply N2Z.inj_lt. rewrite N2Z.inj_pow, Z2N.id by done. exact Hb.
Qed.

Lemma digits_of_app s t : digits_of (s +:+ t) = digits_of s ++ digits_of t.
Proof. unfold digits_of. induction s as [|c s IH]; [done|]. simpl. by rewrite IH. Qed.

Lemma space_digit c : is_digit c → is_space c = false.
Proof.
  intros [v Hv]. unfold digit_value in Hv. case_bool_decide as Hc; [|done].
  unfold is_space, ascii_code. rewrite !bool_decide_eq_false_2; [done|lia..].
Qed.

(** ** Lemmas: the endpoint's answers *)

Lemma range_header_nonempty n : range_header n ≠ "".
Proof. done. Qed.

Lemma range_header_parsed n :
  0 ≤ n → n < 10 ^ 4300 → ∃ g1, match_range (range_header n) = Some (g1, []) ∧ py_int g1 = Ok n.
Proof.
  intros Hn Hb. destruct (pretty_digits n Hn) as (d & Hd & Hall & Hne & _ & Hint).
  exists d. split; [|auto]. unfold range_header, match_range. rewrite !digits_of_app, Hd.
  rewrite (proj2 (strip_prefix_Some _ _ _) eq_refl), span_digits_app; [|done|].
  2:{ intros c r' Hc. injection Hc as <- _. apply dash_not_digit. }
  destruct d as [|c d]; [done|].
  assert (strip_prefix (digits_of "-") (digits_of "-") = Some []) as -> by by apply strip_prefix_Some. done.
Qed.

Lemma lstrip_digits d r : d ≠ [] → Forall is_digit d → lstrip (d ++ r) = d ++ r.
Proof.
  intros Hne Hall. destruct Hall as [|c d Hc _]; [done|]. simpl. by rewrite (space_digit c Hc).
Qed.

Lemma reported_start_own start e total :
  0 ≤ start → start < 10 ^ 4300 → reported_start (content_range_header (CR_Bytes start e total)) = Ok (Some start).
Proof.
  intros Hn Hb. destruct (pretty_digits start Hn) as (d & Hd & Hall & Hne & _ & Hint).
  unfold reported_start, content_range_header. rewrite !digits_of_app, Hd.
  change (digits_of "bytes ") with (digits_of "bytes" ++ [" "%char]). rewrite <-app_assoc.
  rewrite (proj2 (strip_prefix_Some _ _ _) eq_refl). cbn [app].
  set (rest := digits_of "-" ++ _). change (lstrip (" "%char :: d ++ rest)) with (lstrip (d ++ rest)).
  rewrite lstrip_digits by done. rewrite decide_False.
  2:{ intros Heq. apply (f_equal length) in Heq. simpl in Heq. lia. }
  rewrite span_digits_app; [|done|].
  2:{ intros c r' Hc. unfold rest in Hc. injection Hc as <- _. apply dash_not_digit. }
  destruct d as [|c d]; [done|]. unfold rest. rewrite (proj2 (strip_prefix_Some _ _ _) eq_refl).
  by rewrite (Hint Hb).
Qed.

(** What the theorems ask of the server: the station has an open result on the
    deployment, whose OTA-ready release has [blob] in the storage and its size on
    record. *)
Record serves {S} `{FileLike S} (db : DB) (station pk : Z) (open_stream : string → option S)
    (blob : Bytes) : Prop := mkServes {
  sv_result : ∃ r image s, download_result db station pk = Some r ∧
    find_release db (res_image r) = Some image ∧ is_ota_ready image = true ∧
    open_stream (rootfs_s3_key image) = Some s ∧ fl_pos s = 0%nat ∧ fl_data s = blob ∧
    rootfs_size_bytes image = Some (Z.of_nat (length blob));
  sv_size : Z.of_nat (length blob) < 10 ^ 4300
}.

Section answers.
Context {S : Type} `{FileLikeLaws S}.
Context (db : DB) (station pk : Z) (open_stream : string → option S) (blob : Bytes).
Context (Hserves : serves db station pk open_stream blob).

Lemma blob_not_empty : (0 < length blob)%nat.
Proof.
  destruct Hserves as [(r & image & s & _ & _ & Hota & _ & _ & _ & Hsize) _].
  destruct (total_size_ota_ready image Hota) as (n & Hn & Hpos). rewrite Hsize in Hn.
  injection Hn as <-. lia.
Qed.

Lemma endpoint_full :
  endpoint db station pk open_stream None = Some (mkHttpResp 200 "" blob StreamEOF).
Proof.
  pose proof blob_not_empty as Hpos.
  destruct Hserves as [(r & image & s & Hres & Hrel & Hota & Hopen & Hpos0 & Hrest & Hsize) _].
  unfold endpoint, download_view. rewrite Hres, Hrel, Hota, Hopen, Hsize. cbn [default negb].
  rewrite decide_True by lia. unfold decide_range. rewrite decide_True by done. cbn [dl_code dl_range dl_body fmap].
  destruct (stream_body_spec (Some (Z.of_nat (length blob))) s) as (chunks & Hb & Hj & _). simpl.
  rewrite Hb. simpl. rewrite Hj. simpl. unfold fl_rest. rewrite Hpos0, Hrest, drop_0, Nat2Z.id, firstn_all. done.
Qed.

Lemma endpoint_range n :
  0 < n → n < Z.of_nat (length blob) →
  endpoint db station pk open_stream (Some (range_header n)) =
    Some (mkHttpResp 206
      (content_range_header (CR_Bytes n (Z.of_nat (length blob) - 1) (Z.of_nat (length blob))))
      (drop (Z.to_nat n) blob) StreamEOF) ∨
  ∃ cr, endpoint db station pk open_stream (Some (range_header n)) = Some (mkHttpResp 416 cr [] StreamEOF).
Proof.
  intros Hn Hlt. destruct Hserves as [(r & image & s & Hres & Hrel & Hota & Hopen & Hpos0 & Hrest & Hsize) Hmax].
  destruct (range_header_parsed n ltac:(lia) ltac:(lia)) as (g1 & Hm & Hint).
  unfold endpoint, download_view. rewrite Hres, Hrel, Hota, Hopen, Hsize.
  change (default "" (Some (range_header n))) with (range_header n). cbn [negb].
  rewrite decide_True by lia. unfold decide_range. rewrite decide_False by apply range_header_nonempty.
  rewrite Hm, Hint. rewrite decide_True by done. rewrite !decide_False by lia.
  destruct (fl_seek s n) as [s'|] eqn:Hseek; [left|right; eauto].
  apply fl_seek_rest in Hseek; [|lia]. rewrite Z.min_id. cbn [dl_code dl_range dl_body].
  set (len := Z.of_nat (length blob) - 1 - n + 1).
  destruct (stream_body_spec (Some len) s') as (chunks & -> & Hj & _). simpl. do 2 f_equal.
  rewrite Hj. simpl. rewrite Hseek, Hrest. apply take_ge. rewrite length_drop. unfold len. lia.
Qed.

End answers.

(** A pass without resuming never asks for a retry. *)
Lemma pass_no_retry sha256 k1 k2 dk request checksum size f :
  download_pass sha256 k1 dk request checksum false size f =
  download_pass sha256 k2 dk request checksum false size f.
Proof.
  unfold download_pass. simpl. destruct (request None) as [r|]; [|done].
  rewrite andb_false_r. do 2 (case_decide; [done|]). done.
Qed.

Lemma verify_true sha256 dk checksum f f' :
  verify_checksum sha256 dk checksum f = (true, f') → checksum ≠ "" →
  f' = f ∧ ∃ b, f = Some b ∧ sha256 b = checksum.
Proof. unfold verify_checksum. intros Hv Hne. rewrite decide_False in Hv by done. split_cases; eauto. Qed.

Lemma write_true sha256 dk checksum base f r f' :
  write_body sha256 dk checksum base f r = (true, f') → checksum ≠ "" →
  ∃ b, f' = Some b ∧ sha256 b = checksum.
Proof.
  unfold write_body. intros Hw Hne. destruct (dk_mkdir dk); simpl in Hw; [|done].
  destruct (hr_end r); [|done]. by apply verify_true in Hw as [-> ?].
Qed.

Lemma pass_true sha256 k dk request checksum resume size f f' :
  (∀ g g', k g = Ok (true, g') → ∃ b, g' = Some b ∧ sha256 b = checksum) →
  download_pass sha256 k dk request checksum resume size f = Ok (true, f') → checksum ≠ "" →
  ∃ b, f' = Some b ∧ sha256 b = checksum.
Proof.
  intros Hk Hp Hne. unfold download_pass in Hp.
  destruct (resume && _ && bool_decide (size = _)).
  { injection Hp as Hp. apply verify_true in Hp as [-> ?]; done. }
  destruct (request _) as [r|]; [|done].
  destruct (bool_decide (hr_status r = 416) && _); [by eapply Hk|].
  case_decide; [injection Hp as Hp; by eapply write_true|].
  case_decide; [|done]. apply obind_Ok in Hp as (start & _ & Hp).
  destruct (_ && bool_decide (start ≠ _)); [by eapply Hk|]. injection Hp as Hp. by eapply write_true.
Qed.

(** ** The client against the endpoint *)

Definition all_fine : Disk := mkDisk true true true.

Section client.
Context {S : Type} `{FileLikeLaws S}.
Context (sha256 : Bytes → string) (db : DB) (station pk : Z) (open_stream : string → option S) (blob : Bytes).
Context (Hserves : serves db station pk open_stream blob) (Hne : sha256 blob ≠ "").

Notation server := (endpoint db station pk open_stream).
Notation call f := (download_firmware_resumable sha256 all_fine server server (sha256 blob)
  (Some (Z.of_nat (length blob))) f).

Lemma verify_blob f :
  verify_checksum sha256 all_fine (sha256 blob) (Some f) =
    if decide (sha256 f = sha256 blob) then (true, Some f) else (false, None).
Proof. unfold verify_checksum. by rewrite decide_False. Qed.

Lemma fresh_pass k f : download_pass sha256 k all_fine server (sha256 blob) false None f = Ok (true, Some blob).
Proof.
  unfold download_pass. cbn [andb]. rewrite (decide_False (P := 0 < 0)) by lia.
  rewrite (endpoint_full _ _ _ _ _ Hserves). simpl.
  unfold write_body. simpl. by rewrite verify_blob, decide_True.
Qed.

(** What a call does with a file already there. *)
Lemma call_file b :
  call (Some b) =
    if decide (length b = length blob) then
      Ok (if decide (sha256 b = sha256 blob) then (true, Some b) else (false, None))
    else if decide ((length blob < length b)%nat ∨ b = []) then Ok (true, Some blob)
    else match server (Some (range_header (Z.of_nat (length b)))) with
         | Some r => if decide (hr_status r = 416) then Ok (true, Some blob)
                     else Ok (if decide (sha256 (b ++ drop (length b) blob) = sha256 blob)
                              then (true, Some (b ++ drop (length b) blob)) else (false, None))
         | None => Ok (false, Some b)
         end.
Proof.
  pose proof (blob_not_empty _ _ _ _ _ Hserves) as Hpos.
  unfold download_firmware_resumable, download_pass at 1. cbn [file_len andb default].
  rewrite (bool_decide_eq_true_2 (is_Some (Some b))) by eauto. cbn [andb].
  destruct (decide (length b = length blob)) as [Hlen|Hlen].
  { rewrite bool_decide_eq_true_2 by (by rewrite Hlen). by rewrite verify_blob. }
  rewrite bool_decide_eq_false_2 by (intros [= Heq]; lia).
  destruct (decide ((length blob < length b)%nat ∨ b = [])) as [Hbig|Hbig].
  { set (e := if bool_decide (Z.of_nat (length blob) < Z.of_nat (length b)) then 0 else Z.of_nat (length b)).
    assert (e = 0) as He.
    { unfold e. destruct Hbig as [Hbig| ->]; [by rewrite bool_decide_eq_true_2 by lia|].
      rewrite bool_decide_eq_false_2; simpl; lia. }
    clearbody e. subst e. rewrite (decide_False (P := 0 < 0)) by lia.
    rewrite (endpoint_full _ _ _ _ _ Hserves). simpl.
    unfold write_body. simpl. by rewrite verify_blob, decide_True. }
  assert (0 < length b)%nat as Hb by (destruct b; simpl; [naive_solver|lia]).
  rewrite bool_decide_eq_false_2 by lia. rewrite !(decide_True (P := 0 < _)) by lia.
  rewrite (bool_decide_eq_true_2 (0 < _)) by lia.
  destruct (endpoint_range _ _ _ _ _ Hserves (Z.of_nat (length b)) ltac:(lia) ltac:(lia)) as [-> | [cr ->]].
  - cbn [hr_status]. rewrite bool_decide_eq_false_2 by done. cbn [andb].
    rewrite !(decide_False (P := 206 = _)) by done. rewrite (decide_True (P := 206 = 206)) by done.
    cbn [hr_content_range]. destruct Hserves as [_ Hmax]. rewrite reported_start_own by lia. cbn [obind].
    rewrite bool_decide_eq_false_2 by (intros []; done). cbn [andb].
    unfold write_body. cbn [dk_mkdir all_fine negb hr_end hr_body]. by rewrite Nat2Z.id, verify_blob.
  - cbn [hr_status]. rewrite bool_decide_eq_true_2 by done. cbn [andb].
    rewrite (decide_True (P := 416 = 416)) by done. apply fresh_pass.
Qed.

Lemma call_nothing : call None = Ok (true, Some blob).
Proof.
  unfold download_firmware_resumable, download_pass at 1. cbn [file_len andb].
  rewrite (bool_decide_eq_false_2 (is_Some None)) by (by intros []). cbn [andb].
  rewrite (decide_False (P := 0 < 0)) by lia.
  rewrite (endpoint_full _ _ _ _ _ Hserves). simpl. unfold write_body. simpl.
  by rewrite verify_blob, decide_True.
Qed.

End client.

(** ** Properties *)

Lemma download_true sha256 dk request retry_request checksum size f f' :
  checksum ≠ "" →
  download_firmware_resumable sha256 dk request retry_request checksum size f = Ok (true, f') →
  ∃ b, f' = Some b ∧ sha256 b = checksum.
Proof.
  intros Hne Hd. eapply pass_true; [|exact Hd|done].
  intros g g' Hg. eapply pass_true; [|exact Hg|done]. done.
Qed.

(** A download that reports success left a file with the expected digest,
    whatever was on disk before, whatever the server and the network answered
    and however the file system misbehaved. *)
Lemma download_verified sha256 dk request retry_request checksum size f f' :
  checksum ≠ "" →
  download_firmware_resumable sha256 dk request retry_request checksum size f = Ok (true, f') →
  ∃ b, f' = Some b ∧ sha256 b = checksum.
Proof. apply download_true. Qed.

Lemma download_verified_witness :
  ∃ b, Some b = Some [Byte.x61; Byte.x62] ∧ "2" = "2".
Proof.
  destruct (download_verified (λ b, pretty (length b)) all_fine
    (λ _, Some (mkHttpResp 206 "bytes 1-1/2" [Byte.x62] StreamEOF)) (λ _, None) "2" (Some 2)
    (Some [Byte.x61]) (Some [Byte.x61; Byte.x62])) as (b & Hb & _); [done|vm_compute; reflexivity|].
  exists b. split; [by symmetry|done].
Defined.

(** C28. The agent's client and the server's download endpoint fit together: when
    requests are answered, a download that continues any prefix of the image, or
    starts without a file, ends with exactly the image; and whatever stale or
    corrupt file is in the way, one call either leaves a file with the right
    digest or removes it, so the next call succeeds. *)
Theorem download_converges {S} `{FileLikeLaws S} sha256 db station pk (open_stream : string → option S) blob :
  serves db station pk open_stream blob → sha256 blob ≠ "" →
  let call := λ f, download_firmware_resumable sha256 all_fine (endpoint db station pk open_stream)
    (endpoint db station pk open_stream) (sha256 blob) (Some (Z.of_nat (length blob))) f in
  (∀ b, b `prefix_of` blob → call (Some b) = Ok (true, Some blob)) ∧ call None = Ok (true, Some blob) ∧
  ∀ f, call f = Ok (false, None) ∨ ∃ b, call f = Ok (true, Some b) ∧ sha256 b = sha256 blob.
Proof.
  intros Hs Hne call. pose proof (call_nothing sha256 _ _ _ _ _ Hs Hne) as Hnone.
  split_and!; [|exact Hnone|].
  - intros b [k Hb]. unfold call. rewrite (call_file sha256 _ _ _ _ _ Hs Hne).
    case_decide as Hlen.
    { assert (k = []) as -> by (apply nil_length_inv; rewrite Hb, length_app in Hlen; lia).
      rewrite app_nil_r in Hb. subst. by rewrite decide_True. }
    case_decide as Hbig; [done|].
    assert (0 < length b)%nat by (destruct b; simpl; [naive_solver|lia]).
    assert (b ++ drop (length b) blob = blob) as ->. { rewrite Hb. by rewrite drop_app_length. }
    destruct (endpoint_range _ _ _ _ _ Hs (Z.of_nat (length b))) as [-> | [cr ->]].
    + lia.
    + rewrite Hb, length_app in Hlen |- *. lia.
    + simpl. by rewrite (decide_True (P := sha256 blob = sha256 blob)).
    + done.
  - intros [b|]; [|right; exists blob; split; [exact Hnone|done]].
    unfold call. rewrite (call_file sha256 _ _ _ _ _ Hs Hne).
    case_decide as Hlen; [case_decide; eauto|]. case_decide as Hbig; [eauto|].
    assert (0 < length b)%nat by (destruct b; simpl; [naive_solver|lia]).
    destruct (endpoint_range _ _ _ _ _ Hs (Z.of_nat (length b)) ltac:(lia) ltac:(lia)) as [-> | [cr ->]];
      cbn [hr_status].
    + rewrite decide_False by done. case_decide; eauto.
    + rewrite decide_True by done. eauto.
Qed.

Lemma stored_serves : serves Stored.db 1 1 Stored.open_stream Stored.bytes.
Proof.
  split; [|reflexivity].
  exists Stored.res, Stored.image, (mkShort Stored.bytes 0 1). split_and!; reflexivity.
Qed.

Lemma download_converges_witness :
  download_firmware_resumable (λ b, pretty (length b)) all_fine
    (endpoint Stored.db 1 1 Stored.open_stream) (endpoint Stored.db 1 1 Stored.open_stream) "6" (Some 6)
    (Some [Byte.x61; Byte.x62]) = Ok (true, Some Stored.bytes).
Proof.
  destruct (download_converges (λ b, pretty (length b)) Stored.db 1 1 Stored.open_stream Stored.bytes
    stored_serves) as (Hp & _); [done|].
  apply (Hp [Byte.x61; Byte.x62]). by exists [Byte.x63; Byte.x64; Byte.x65; Byte.x66].
Defined.

(** A stream that breaks off in the middle costs the whole partial file: the
    exceptions of the HTTP library are [OSError]s, and the handler for a full disk
    removes the file that a later call was to resume from. *)
Example broken_stream_drops_partial :
  download_firmware_resumable (λ b, pretty (length b)) all_fine
    (λ _, Some (mkHttpResp 206 "bytes 2-5/6" [Byte.x63] StreamError)) (λ _, None) "6" (Some 6)
    (Some [Byte.x61; Byte.x62]) = Ok (false, None).
Proof. vm_compute. reflexivity. Qed.
