(* ===== verification/BootMarkers.v ===== *)
(** * Boot markers on the kernel command line

    Models [station_agent/boot_markers.py]: the tokeniser that follows the
    kernel's [next_arg], the two markers of the boot scripts, and the gate that
    keeps a trial boot from being committed; and [station_agent/health_check.py],
    which runs the gate with the other checks.  The command line is read byte for
    byte (latin-1), so a character is a byte.

    The scanning loops work on suffixes of the text instead of indices; the loop
    over the arguments takes the length of the text as fuel, which is enough since
    every round consumes a character ([args_loop_fuel]).  The texts of messages are
    reduced to the check that speaks and its verdict. *)

From Stdlib Require Import ZArith Lia Ascii.
From stdpp Require Import base list sets strings.
From S2P Require Import Prelude Json.

Local Open Scope Z_scope.

Notation text := (list ascii).

Definition txt (s : string) : text := String.list_ascii_of_string s.

(** ** Tokens *)

Definition quote : ascii := ascii_of_nat 34.
Definition equals : ascii := ascii_of_nat 61.

(** Kernel [isspace]: tab to carriage return, blank, 0xa0. *)
Definition KERNEL_SPACE (c : ascii) : bool :=
  bool_decide (9 ≤ ascii_code c ≤ 13) || bool_decide (ascii_code c = 32) || bool_decide (ascii_code c = 160).

Fixpoint skip_space (l : text) : text :=
  match l with
  | c :: l' => if KERNEL_SPACE c then skip_space l' else l
  | [] => []
  end.

(** The inner loop: the token up to white space outside quotes, and the rest. *)
Fixpoint scan_token (in_quote : bool) (l : text) : text * text :=
  match l with
  | [] => ([], [])
  | c :: l' =>
    if KERNEL_SPACE c && negb in_quote then ([], l)
    else
      let '(tok, rest) := scan_token (if decide (c = quote) then negb in_quote else in_quote) l' in
      (c :: tok, rest)
  end.

(** The text before and after the first [=]. *)
Fixpoint split_equals (l : text) : text * option text :=
  match l with
  | [] => ([], None)
  | c :: l' =>
    if decide (c = equals) then ([], Some l')
    else let '(p, v) := split_equals l' in (c :: p, v)
  end.

Definition ends_in_quote (l : text) : bool := bool_decide (last l = Some quote).

(** Parameter and value of one token; [quoted]: a quote opened the token. *)
Definition token_arg (quoted : bool) (tok : text) : text * option text :=
  match split_equals tok with
  | (param, None) => (if quoted && ends_in_quote tok then removelast param else param, None)
  | (param, Some v) =>
    let lead := bool_decide (head v = Some quote) in
    let v1 := if lead then tail v else v in
    (param, Some (if (lead || quoted) && ends_in_quote tok then removelast v1 else v1))
  end.

Fixpoint args_loop (fuel : nat) (l : text) : list (text * option text) :=
  match fuel with
  | O => []
  | S fuel' =>
    match l with
    | [] => []
    | c :: l' =>
      let quoted := bool_decide (c = quote) in
      let '(tok, rest) := scan_token quoted (if quoted then l' else l) in
      token_arg quoted tok :: args_loop fuel' (skip_space rest)
    end
  end.

Definition kernel_args (cmdline : text) : list (text * option text) :=
  args_loop (S (length cmdline)) (skip_space cmdline).

(** ** Markers *)

Definition STAGE2_KEY : text := txt "oe5xrx.stage2".
Definition OVERLAYS_KEY : text := txt "oe5xrx.overlays".

Inductive OverlayState := OV_ok | OV_failed | OV_malformed.

#[export] Instance OverlayState_eq_dec : EqDecision OverlayState.
Proof. solve_decision. Defined.

Definition alnum_char (c : ascii) : bool :=
  bool_decide (48 ≤ ascii_code c ≤ 57) || bool_decide (65 ≤ ascii_code c ≤ 90) ||
  bool_decide (97 ≤ ascii_code c ≤ 122).

(** [_OVERLAY_NAME_RE.fullmatch] *)
Definition OVERLAY_NAME_RE (n : text) : bool :=
  match n with
  | [] => false
  | c :: rest =>
    alnum_char c && bool_decide (length rest ≤ 63)%nat &&
    forallb (λ c, alnum_char c || bool_decide (c ∈ txt "._+-")) rest
  end.

(** [raw.partition(":")]: what stands before and behind the first colon. *)
Fixpoint partition_at (sep : ascii) (l : text) : text * option text :=
  match l with
  | [] => ([], None)
  | c :: l' => if decide (c = sep) then ([], Some l') else let '(a, b) := partition_at sep l' in (c :: a, b)
  end.

(** [rest.split(",")] *)
Fixpoint split_at (sep : ascii) (l : text) : list text :=
  match l with
  | [] => [[]]
  | c :: l' =>
    if decide (c = sep) then [] :: split_at sep l'
    else match split_at sep l' with w :: ws => (c :: w) :: ws | [] => [[c]] end
  end.

Definition parse_overlays (raw : text) : OverlayState * list text :=
  if decide (raw = txt "ok") then (OV_ok, [])
  else
    let '(state, rest) := partition_at ":" raw in
    match rest with
    | None => (OV_malformed, [])
    | Some rest =>
      if decide (state ≠ txt "ok" ∧ state ≠ txt "failed") then (OV_malformed, [])
      else if decide (rest = []) then (if decide (state = txt "ok") then (OV_ok, []) else (OV_malformed, []))
      else
        let names := split_at "," rest in
        if forallb OVERLAY_NAME_RE names then
          (if decide (state = txt "ok") then OV_ok else OV_failed, names)
        else (OV_malformed, [])
    end.

Record BootMarkers := mkMarkers {
  bm_stage2 : option text;
  bm_overlays : option OverlayState;
  bm_overlay_names : list text;
  bm_failed_overlays : list text
}.

Definition legacy (m : BootMarkers) : bool :=
  bool_decide (bm_stage2 m = None ∧ bm_overlays m = None).

Inductive Blocker := B_stage2 | B_overlays_failed | B_overlays_malformed.

Definition commit_blockers (m : BootMarkers) : list Blocker :=
  (match bm_stage2 m with
   | Some v => if decide (v = txt "ok") then [] else [B_stage2]
   | None => []
   end) ++
  match bm_overlays m with
  | Some OV_failed => [B_overlays_failed]
  | Some OV_malformed => [B_overlays_malformed]
  | _ => []
  end.

(** The generic metrics: stage 2 clean, and how many overlays failed. *)
Definition metric_values (m : BootMarkers) : option bool * option nat :=
  ((λ v, bool_decide (v = txt "ok")) <$> bm_stage2 m,
   (λ s, match s with
         | OV_failed => length (bm_failed_overlays m)
         | OV_malformed => 1%nat
         | OV_ok => 0%nat
         end) <$> bm_overlays m).

(** The loop of [parse_boot_markers]: values of the markers on the kernel's side
    of a bare [--] and on init's side. *)
Record Sides := mkSides {
  sd_kernel : list (text * text);
  sd_init : list (text * text);
  sd_after : bool
}.

Definition marker_step (s : Sides) (a : text * option text) : Sides :=
  let '(param, value) := a in
  if decide (param = txt "--" ∧ value = None ∧ sd_after s = false) then
    mkSides (sd_kernel s) (sd_init s) true
  else if decide (param = STAGE2_KEY ∨ param = OVERLAYS_KEY) then
    let entry := (param, default [] value) in
    if sd_after s then mkSides (sd_kernel s) (entry :: sd_init s) true
    else mkSides (entry :: sd_kernel s) (sd_init s) false
  else s.

(** [d.get(key)] of a dictionary built by assignments, the newest first. *)
Fixpoint dict_find (k : text) (d : list (text * text)) : option text :=
  match d with
  | [] => None
  | (k', v) :: d' => if decide (k' = k) then Some v else dict_find k d'
  end.

Definition parse_boot_markers (cmdline : text) : BootMarkers :=
  let s := foldl marker_step (mkSides [] [] false) (kernel_args cmdline) in
  let found := sd_kernel s ++ sd_init s in
  let stage2 := dict_find STAGE2_KEY found in
  match dict_find OVERLAYS_KEY found with
  | None => mkMarkers stage2 None [] []
  | Some raw =>
    let '(state, names) := parse_overlays raw in
    mkMarkers stage2 (Some state) (if decide (state = OV_ok) then names else [])
      (if decide (state = OV_failed) then names else [])
  end.

(** ** The gate *)

(** Reading [/proc/cmdline]; a missing file with or without a mounted procfs. *)
Inductive CmdlineRead := Read (cmdline : text) | Missing (procfs : bool) | Unreadable.

Inductive Check := C_network | C_disk | C_systemd | C_boot.
Inductive HealthVerdict := V_ok | V_skip | V_warn | V_fail.

#[export] Instance Check_eq_dec : EqDecision Check.
Proof. solve_decision. Defined.
#[export] Instance Verdict_eq_dec : EqDecision HealthVerdict.
Proof. solve_decision. Defined.

Definition check_boot_markers (r : CmdlineRead) : bool * (Check * HealthVerdict) :=
  match r with
  | Missing true => (false, (C_boot, V_fail))
  | Missing false => (true, (C_boot, V_skip))
  | Unreadable => (false, (C_boot, V_fail))
  | Read l =>
    let m := parse_boot_markers l in
    if legacy m then (true, (C_boot, V_ok))
    else if decide (commit_blockers m = []) then (true, (C_boot, V_ok))
    else (false, (C_boot, V_fail))
  end.

(** [run_health_checks]: the other checks report a verdict; anything but a pass
    ([ok] or [skip]) fails. *)
Definition passes (v : HealthVerdict) : bool := match v with V_ok | V_skip => true | _ => false end.

Record Health := mkHealth {
  he_network : option HealthVerdict;   (* [None]: no server url *)
  he_disk : HealthVerdict;
  he_systemd : HealthVerdict;
  he_cmdline : CmdlineRead
}.

Definition run_health_checks (h : Health) (boot_gate : bool) : bool * list (Check * HealthVerdict) :=
  let plain := (match he_network h with Some v => [(C_network, v)] | None => [] end) ++
    [(C_disk, he_disk h); (C_systemd, he_systemd h)] in
  let results := ((λ p, (passes p.2, p)) <$> plain) ++
    (if boot_gate then [check_boot_markers (he_cmdline h)] else []) in
  (forallb fst results, snd <$> results).

(** ** Specification: command lines as written

    The four ways to write an argument, and a line as arguments separated by
    white space. *)

Inductive Arg :=
| Flag (p : text)
| Bare (p v : text)
| ValueQuoted (p v : text)
| ArgQuoted (p v : text).

Definition render (a : Arg) : text :=
  match a with
  | Flag p => p
  | Bare p v => p ++ equals :: v
  | ValueQuoted p v => p ++ equals :: quote :: v ++ [quote]
  | ArgQuoted p v => quote :: p ++ equals :: v ++ [quote]
  end.

Definition meaning (a : Arg) : text * option text :=
  match a with
  | Flag p => (p, None)
  | Bare p v | ValueQuoted p v | ArgQuoted p v => (p, Some v)
  end.

Definition plain_char (c : ascii) : Prop := KERNEL_SPACE c = false ∧ c ≠ quote.
Definition param_ok (p : text) : Prop := p ≠ [] ∧ Forall plain_char p ∧ equals ∉ p.

Definition arg_ok (a : Arg) : Prop :=
  match a with
  | Flag p => param_ok p
  | Bare p v => param_ok p ∧ Forall plain_char v
  | ValueQuoted p v | ArgQuoted p v => param_ok p ∧ quote ∉ v
  end.

Definition spaces (l : text) : Prop := Forall (λ c, KERNEL_SPACE c = true) l.

Fixpoint render_line (l : list (text * Arg)) (trail : text) : text :=
  match l with
  | [] => trail
  | (sep, a) :: l' => sep ++ render a ++ render_line l' trail
  end.

Definition line_ok (l : list (text * Arg)) : Prop :=
  Forall (λ p, spaces p.1 ∧ arg_ok p.2) l ∧ Forall (λ p, p.1 ≠ []) (tail l).

(** The last value a parameter is given in a list of arguments. *)
Definition last_value (k : text) (args : list (text * option text)) : option text :=
  (λ a, default [] a.2) <$> last (filter (λ a, a.1 = k) args).

Definition bare_dashes (a : text * option text) : Prop := a.1 = txt "--" ∧ a.2 = None.

(** Up to the first bare [--] and behind it. *)
Fixpoint kernel_side (args : list (text * option text)) : list (text * option text) :=
  match args with
  | [] => []
  | a :: args' => if decide (bare_dashes a) then [] else a :: kernel_side args'
  end.

Fixpoint init_side (args : list (text * option text)) : list (text * option text) :=
  match args with
  | [] => []
  | a :: args' => if decide (bare_dashes a) then args' else init_side args'
  end.

Definition effective_marker (k : text) (args : list (text * option text)) : option text :=
  match last_value k (kernel_side args) with
  | Some v => Some v
  | None => last_value k (init_side args)
  end.

Fixpoint join_commas (ws : list text) : text :=
  match ws with
  | [] => []
  | [w] => w
  | w :: ws' => w ++ ","%char :: join_commas ws'
  end.

Definition overlays_clean (raw : text) : Prop :=
  raw = txt "ok" ∨ raw = txt "ok:" ∨
  ∃ names, names ≠ [] ∧ Forall (λ n, OVERLAY_NAME_RE n = true) names ∧ raw = txt "ok:" ++ join_commas names.

(** ** Lemmas: the tokeniser *)

(** What may follow a token: nothing, or white space. *)
Definition breaks (l : text) : Prop := ∀ c l', l = c :: l' → KERNEL_SPACE c = true.

Lemma equals_plain : plain_char equals.
Proof. split; [vm_compute; reflexivity|by vm_compute]. Qed.

Lemma skip_spaces sep l : spaces sep → skip_space (sep ++ l) = skip_space l.
Proof. intros Hs. induction Hs as [|c sep Hc _ IH]; [done|]. simpl. by rewrite Hc. Qed.

Lemma skip_none c l : KERNEL_SPACE c = false → skip_space (c :: l) = c :: l.
Proof. intros Hc. simpl. by rewrite Hc. Qed.

Lemma scan_break l : breaks l → scan_token false l = ([], l).
Proof. destruct l as [|c l]; [done|]. intros Hb. simpl. by rewrite (Hb c l eq_refl). Qed.

Lemma scan_plain w l : Forall plain_char w → breaks l → scan_token false (w ++ l) = (w, l).
Proof.
  intros Hw Hl. induction Hw as [|c w [Hs Hq] _ IH]; [by apply scan_break|].
  simpl. rewrite Hs. simpl. rewrite decide_False by done. by rewrite IH.
Qed.

Lemma scan_plain_app w l : Forall plain_char w →
  scan_token false (w ++ l) = let '(t, r) := scan_token false l in (w ++ t, r).
Proof.
  intros Hw. induction Hw as [|c w [Hs Hq] _ IH]; [simpl; by destruct (scan_token false l)|].
  simpl. rewrite Hs. simpl. rewrite decide_False by done. rewrite IH. by destruct (scan_token false l).
Qed.

Lemma scan_in_quote w l : quote ∉ w →
  scan_token true (w ++ l) = let '(t, r) := scan_token true l in (w ++ t, r).
Proof.
  intros Hw. induction w as [|c w IH]; [simpl; by destruct (scan_token true l)|].
  apply not_elem_of_cons in Hw as [Hc Hw]. simpl. rewrite andb_false_r, decide_False by done.
  rewrite IH by done. by destruct (scan_token true l).
Qed.

Lemma scan_close q l : scan_token q (quote :: l) = let '(t, r) := scan_token (negb q) l in (quote :: t, r).
Proof. by destruct q. Qed.

Lemma split_equals_param p v : equals ∉ p → split_equals (p ++ equals :: v) = (p, Some v).
Proof.
  intros Hp. induction p as [|c p IH]; [done|]. apply not_elem_of_cons in Hp as [Hc Hp].
  simpl. rewrite decide_False by done. by rewrite IH.
Qed.

Lemma split_equals_none p : equals ∉ p → split_equals p = (p, None).
Proof.
  intros Hp. induction p as [|c p IH]; [done|]. apply not_elem_of_cons in Hp as [Hc Hp].
  simpl. rewrite decide_False by done. by rewrite IH.
Qed.

Lemma ends_in_quote_snoc l : ends_in_quote (l ++ [quote]) = true.
Proof. unfold ends_in_quote. rewrite last_snoc. by apply bool_decide_eq_true. Qed.

Lemma removelast_snoc {A} (l : list A) x : removelast (l ++ [x]) = l.
Proof. apply removelast_last. Qed.

Lemma plain_head v : Forall plain_char v → head v ≠ Some quote.
Proof. destruct 1 as [|c v [_ Hq] _]; [done|]. intros [= ->]. done. Qed.

(** One round of the loop on an argument as written. *)
Lemma arg_round fuel a l : arg_ok a → breaks l →
  args_loop (S fuel) (render a ++ l) = meaning a :: args_loop fuel (skip_space l).
Proof.
  intros Ha Hl. assert (∀ p, param_ok p → ∃ c p', p = c :: p' ∧ KERNEL_SPACE c = false ∧ c ≠ quote) as Hhead.
  { intros p (Hne & Hp & _). destruct Hp as [|c p' [? ?] _]; naive_solver. }
  destruct a as [p|p v|p v|p v]; simpl in Ha |- *.
  - destruct (Hhead p Ha) as (c & p' & -> & Hs & Hq). destruct Ha as (_ & Hp & He).
    cbn [app args_loop]. rewrite bool_decide_eq_false_2 by done. rewrite (app_comm_cons p' l c), scan_plain by done.
    unfold token_arg. by rewrite split_equals_none.
  - destruct Ha as [Hp Hv]. destruct (Hhead p Hp) as (c & p' & -> & Hs & Hq). destruct Hp as (_ & Hp & He).
    cbn [app args_loop]. rewrite bool_decide_eq_false_2 by done.
    change (c :: (p' ++ equals :: v) ++ l) with (((c :: p') ++ equals :: v) ++ l).
    rewrite scan_plain by (try apply Forall_app; auto using equals_plain).
    unfold token_arg. rewrite split_equals_param by done.
    by rewrite (bool_decide_eq_false_2 _ (plain_head v Hv)).
  - destruct Ha as [Hp Hv]. destruct (Hhead p Hp) as (c & p' & -> & Hs & Hq). destruct Hp as (_ & Hp & He).
    cbn [app args_loop]. rewrite bool_decide_eq_false_2 by done.
    replace (c :: (p' ++ equals :: quote :: v ++ [quote]) ++ l)
      with (((c :: p') ++ [equals]) ++ quote :: v ++ quote :: l) by (simpl; by rewrite <-!app_assoc; simpl; rewrite <-app_assoc).
    rewrite scan_plain_app by (apply Forall_app; auto using equals_plain).
    rewrite scan_close. simpl negb. rewrite scan_in_quote by done.
    rewrite scan_close. simpl negb. rewrite scan_break by done.
    unfold token_arg. rewrite <-app_assoc. simpl app. rewrite app_comm_cons, split_equals_param by done. simpl.
    assert (ends_in_quote (c :: p' ++ equals :: quote :: v ++ [quote]) = true) as ->.
    { replace (c :: p' ++ equals :: quote :: v ++ [quote]) with ((c :: p' ++ equals :: quote :: v) ++ [quote])
        by (simpl; rewrite <-app_assoc; done). apply ends_in_quote_snoc. }
    by rewrite removelast_snoc.
  - destruct Ha as [Hp Hv]. destruct Hp as (Hne & Hp & He).
    assert (quote ∉ p) as Hqp. { rewrite list.Forall_forall in Hp. intros Hin. by destruct (Hp _ Hin). }
    replace ((p ++ equals :: v ++ [quote]) ++ l) with ((p ++ equals :: v) ++ quote :: l)
      by (rewrite <-!app_assoc; simpl; by rewrite <-app_assoc).
    rewrite scan_in_quote.
    2:{ rewrite elem_of_app, elem_of_cons. intros [?|[Heq|?]]; [done|by vm_compute in Heq|done]. }
    rewrite scan_close. simpl negb. rewrite scan_break by done.
    unfold token_arg. rewrite <-app_assoc. simpl app. rewrite split_equals_param by done.
    assert (ends_in_quote (p ++ equals :: v ++ [quote]) = true) as ->.
    { replace (p ++ equals :: v ++ [quote]) with ((p ++ equals :: v) ++ [quote]) by (by rewrite <-app_assoc).
      apply ends_in_quote_snoc. }
    assert (bool_decide (head (v ++ [quote]) = Some quote) = bool_decide (v = [])) as ->.
    { destruct v as [|c v]; [done|]. apply not_elem_of_cons in Hv as [Hc _].
      rewrite !bool_decide_eq_false_2; [done|done|]. intros [= ->]. done. }
    rewrite orb_true_r. case_bool_decide as Hvn; [by subst|]. by rewrite removelast_snoc.
Qed.

Lemma render_line_breaks l trail :
  spaces trail → Forall (λ p, spaces p.1 ∧ p.1 ≠ []) l → breaks (render_line l trail).
Proof.
  intros Ht Hl c l' Heq. destruct Hl as [|[sep a] l [Hs Hne] _]; simpl in *.
  - subst. by inversion Ht.
  - destruct Hs as [|d sep Hd _]; [done|]. simpl in Heq. by injection Heq as <- _.
Qed.

Lemma render_head a : arg_ok a → ∃ c l, render a = c :: l ∧ KERNEL_SPACE c = false.
Proof.
  assert (∀ p, param_ok p → ∃ c p', p = c :: p' ∧ KERNEL_SPACE c = false) as Hhead.
  { intros p (Hne & Hp & _). destruct Hp as [|c p' [? ?] _]; naive_solver. }
  destruct a as [p|p v|p v|p v]; simpl; intros Ha.
  - destruct (Hhead p Ha) as (c & p' & -> & ?). eauto.
  - destruct Ha as [Ha _]. destruct (Hhead p Ha) as (c & p' & -> & ?). simpl. eauto.
  - destruct Ha as [Ha _]. destruct (Hhead p Ha) as (c & p' & -> & ?). simpl. eauto.
  - eexists _, _. split; [done|]. by vm_compute.
Qed.

Lemma args_loop_line fuel l trail :
  spaces trail → Forall (λ p, spaces p.1 ∧ arg_ok p.2) l → Forall (λ p, p.1 ≠ []) (tail l) →
  (length (render_line l trail) < fuel)%nat →
  args_loop fuel (skip_space (render_line l trail)) = (meaning ∘ snd) <$> l.
Proof.
  intros Ht. revert fuel. induction l as [|[sep a] l IH]; intros fuel Hl Htl Hf; simpl in *.
  - rewrite <-(app_nil_r trail), skip_spaces by done. simpl. by destruct fuel.
  - inversion Hl as [|? ? [Hsep Ha] Hl']; subst. simpl in *. rewrite !length_app in Hf.
    rewrite skip_spaces by done.
    destruct (render_head a Ha) as (c & k & Hk & Hc). rewrite Hk at 1. simpl app.
    rewrite skip_none by done. rewrite app_comm_cons, <-Hk.
    assert (0 < length (render a))%nat by (rewrite Hk; simpl; lia).
    destruct fuel as [|fuel]; [lia|]. rewrite arg_round; [|done|].
    + f_equal. apply IH; [done| |lia]. destruct l as [|q l]; [constructor|]. by inversion Htl.
    + apply render_line_breaks; [done|]. apply Forall_and. split; [|done].
      eapply Forall_impl; [exact Hl'|]. naive_solver.
Qed.

Lemma skip_space_length l : (length (skip_space l) ≤ length l)%nat.
Proof. induction l as [|c l IH]; simpl; [lia|]. destruct (KERNEL_SPACE c); simpl; lia. Qed.

Lemma skip_space_head l c l' : skip_space l = c :: l' → KERNEL_SPACE c = false.
Proof.
  induction l as [|d l IH]; simpl; [done|]. destruct (KERNEL_SPACE d) eqn:Hd; [done|]. by intros [= <- <-].
Qed.

Lemma scan_length q l : (length (scan_token q l).2 ≤ length l)%nat.
Proof.
  revert q. induction l as [|c l IH]; intros q; simpl; [lia|].
  destruct (KERNEL_SPACE c && negb q); [done|].
  specialize (IH (if decide (c = quote) then negb q else q)). destruct (scan_token _ l). simpl in *. lia.
Qed.

(** More fuel than characters changes nothing. *)
Lemma args_loop_fuel f1 f2 l : (length l < f1)%nat → (length l < f2)%nat →
  args_loop f1 (skip_space l) = args_loop f2 (skip_space l).
Proof.
  revert f2 l. induction f1 as [|f1 IH]; intros f2 l H1 H2; [lia|]. destruct f2 as [|f2]; [lia|].
  simpl. pose proof (skip_space_length l) as Hlen.
  destruct (skip_space l) as [|c l'] eqn:Hl; [done|]. apply skip_space_head in Hl. simpl in Hlen.
  destruct (scan_token _ _) as [tok rest] eqn:Hscan. f_equal.
  assert (length rest ≤ length l')%nat.
  { case_bool_decide as Hq.
    - pose proof (scan_length true l') as Hr. by rewrite Hscan in Hr.
    - simpl in Hscan. rewrite Hl, decide_False in Hscan by done. simpl in Hscan.
      pose proof (scan_length false l') as Hr. destruct (scan_token false l'). by injection Hscan as <- <-. }
  apply IH; lia.
Qed.

Lemma kernel_args_line l trail : line_ok l → spaces trail →
  kernel_args (render_line l trail) = (meaning ∘ snd) <$> l.
Proof. intros [Hl Htl] Ht. apply args_loop_line; auto. Qed.

(** ** Lemmas: the markers *)

Definition is_key (k : text) : Prop := k = STAGE2_KEY ∨ k = OVERLAYS_KEY.

Lemma key_not_dashes k : is_key k → k ≠ txt "--".
Proof. by intros [->| ->]. Qed.

Lemma last_value_cons k a l : last_value k (a :: l) =
  match last_value k l with Some v => Some v | None => if decide (a.1 = k) then Some (default [] a.2) else None end.
Proof.
  unfold last_value. rewrite filter_cons. case_decide; [|by destruct (last _)].
  rewrite last_cons. by destruct (last (filter _ l)).
Qed.

Lemma after_fold k args s : sd_after s = true → is_key k →
  let s' := foldl marker_step s args in
  sd_kernel s' = sd_kernel s ∧
  dict_find k (sd_init s') =
    match last_value k args with Some v => Some v | None => dict_find k (sd_init s) end.
Proof.
  revert s. induction args as [|[p v] args IH]; intros [K I A] Ha Hk; simpl in *; [done|]. subst A.
  rewrite decide_False by naive_solver.
  rewrite last_value_cons. simpl. case_decide as Hp.
  - destruct (IH (mkSides K ((p, default [] v) :: I) true) eq_refl Hk) as [-> ->]. simpl.
    split; [done|]. destruct (last_value k args); [done|]. by case_decide.
  - destruct (IH (mkSides K I true) eq_refl Hk) as [-> ->]. simpl.
    split; [done|]. destruct (last_value k args); [done|]. rewrite decide_False; [done|].
    intros ->. naive_solver.
Qed.

Lemma before_fold k args s : sd_after s = false → is_key k →
  let s' := foldl marker_step s args in
  dict_find k (sd_kernel s') =
    match last_value k (kernel_side args) with Some v => Some v | None => dict_find k (sd_kernel s) end ∧
  dict_find k (sd_init s') =
    match last_value k (init_side args) with Some v => Some v | None => dict_find k (sd_init s) end.
Proof.
  revert s. induction args as [|[p v] args IH]; intros [K I A] Ha Hk; simpl in *; [done|]. subst A.
  destruct (decide (p = txt "--" ∧ v = None)) as [Hd|Hd].
  - rewrite (decide_True (P := p = txt "--" ∧ v = None ∧ false = false)) by naive_solver.
    rewrite !(decide_True (P := bare_dashes (p, v))) by done.
    destruct (after_fold k args (mkSides K I true) eq_refl Hk) as [-> ->]. done.
  - rewrite (decide_False (P := p = txt "--" ∧ v = None ∧ false = false)) by naive_solver.
    rewrite !(decide_False (P := bare_dashes (p, v))) by done. rewrite last_value_cons. simpl.
    case_decide as Hp.
    + destruct (IH (mkSides ((p, default [] v) :: K) I false) eq_refl Hk) as [-> ->]. simpl.
      split; [|done]. destruct (last_value k _); [done|]. by case_decide.
    + destruct (IH (mkSides K I false) eq_refl Hk) as [-> ->]. simpl.
      split; [|done]. destruct (last_value k _); [done|]. rewrite decide_False; [done|].
      intros ->. naive_solver.
Qed.

Lemma dict_find_app k d1 d2 :
  dict_find k (d1 ++ d2) = match dict_find k d1 with Some v => Some v | None => dict_find k d2 end.
Proof. induction d1 as [|[k' v] d1 IH]; simpl; [done|]. by case_decide. Qed.

Lemma found_effective k cmdline : is_key k →
  let s := foldl marker_step (mkSides [] [] false) (kernel_args cmdline) in
  dict_find k (sd_kernel s ++ sd_init s) = effective_marker k (kernel_args cmdline).
Proof.
  intros Hk. simpl. rewrite dict_find_app.
  destruct (before_fold k (kernel_args cmdline) (mkSides [] [] false) eq_refl Hk) as [-> ->].
  unfold effective_marker. destruct (last_value k _); [done|]. by destruct (last_value k _).
Qed.

Lemma partition_spec sep l a b :
  partition_at sep l = (a, b) → sep ∉ a ∧ match b with Some r => l = a ++ sep :: r | None => l = a end.
Proof.
  revert a b. induction l as [|c l IH]; intros a b; simpl.
  - intros [= <- <-]. split; [apply not_elem_of_nil|done].
  - case_decide as Hc; [intros [= <- <-]; subst; split; [apply not_elem_of_nil|done]|].
    destruct (partition_at sep l) as [a' b'] eqn:Hp. intros [= <- <-]. destruct (IH a' b' eq_refl) as [Hn Hl].
    split; [apply not_elem_of_cons; split; [congruence|done]|]. destruct b'; by subst.
Qed.

Lemma split_at_join ws : ws ≠ [] → Forall (λ w, ","%char ∉ w) ws → split_at "," (join_commas ws) = ws.
Proof.
  assert (∀ w, ","%char ∉ w → split_at "," w = [w]) as Hword.
  { induction w as [|c w IH]; intros Hw; [done|]. apply not_elem_of_cons in Hw as [Hc Hw].
    simpl. rewrite decide_False by congruence. by rewrite IH. }
  assert (∀ w l, ","%char ∉ w → split_at "," (w ++ ","%char :: l) = w :: split_at "," l) as Happ.
  { intros w l. induction w as [|c w IH]; intros Hw; [done|]. apply not_elem_of_cons in Hw as [Hc Hw].
    simpl. rewrite decide_False by congruence. by rewrite IH. }
  intros Hne Hall. induction Hall as [|w ws Hw Hall IH]; [done|destruct ws as [|w' ws]].
  - by apply Hword.
  - change (join_commas (w :: w' :: ws)) with (w ++ ","%char :: join_commas (w' :: ws)).
    rewrite Happ by done. f_equal. by apply IH.
Qed.

Lemma join_split l : join_commas (split_at "," l) = l.
Proof.
  induction l as [|c l IH]; [done|]. simpl. case_decide as Hc.
  - subst. destruct (split_at "," l) as [|w ws] eqn:Hs; [by destruct l as [|d l]; simpl in Hs; [|case_decide; [|destruct (split_at "," l)]]|].
    simpl. f_equal. exact IH.
  - destruct (split_at "," l) as [|w ws]; [simpl in IH; by subst|]. destruct ws as [|w' ws]; simpl in *; by rewrite IH.
Qed.

Lemma split_at_not_nil l : split_at "," l ≠ [].
Proof. destruct l; simpl; [done|]. case_decide; [done|]. by destruct (split_at "," l). Qed.

Lemma name_no_comma n : OVERLAY_NAME_RE n = true → ","%char ∉ n.
Proof.
  unfold OVERLAY_NAME_RE. destruct n as [|c n]; [done|]. rewrite !andb_true_iff, forallb_forall.
  intros [[Hc _] Hn] [Heq|Hin]%elem_of_cons; [subst; by vm_compute in Hc|].
  apply list_elem_of_In in Hin. apply Hn in Hin. by vm_compute in Hin.
Qed.

Lemma overlays_ok_spec raw : (parse_overlays raw).1 = OV_ok ↔ overlays_clean raw.
Proof.
  unfold parse_overlays, overlays_clean. case_decide as Hok; [split; [by left|done]|].
  destruct (partition_at ":" raw) as [st rest] eqn:Hp. apply partition_spec in Hp as [Hn Hraw].
  destruct rest as [rest|].
  2:{ subst. split; [done|]. intros [?|[-> | (names & _ & _ & ->)]]; [done|..];
      destruct Hn; simpl; set_solver. }
  assert (∀ tl, raw = txt "ok:" ++ tl → st = txt "ok" ∧ rest = tl) as Hst.
  { intros tl Heq. rewrite Hraw in Heq. clear -Heq Hn.
    destruct st as [|a [|b [|c st]]]; simpl in Heq; try (injection Heq; intros; subst; try done; by destruct Hn; set_solver). }
  case_decide as Hs.
  { split; [done|]. intros [?|[Heq|(names & _ & _ & Heq)]]; [done|..].
    - destruct (Hst [] ltac:(by rewrite Heq)) as [-> _]. naive_solver.
    - destruct (Hst _ Heq) as [-> _]. naive_solver. }
  case_decide as Hr.
  { subst rest. case_decide as Hst'.
    - subst. split; [|done]. intros _. right; left. done.
    - split; [done|]. intros [?|[Heq|(names & _ & _ & Heq)]]; [done|..].
      + destruct (Hst [] ltac:(by rewrite Heq)) as [? _]. done.
      + destruct (Hst _ Heq) as [? _]. done. }
  destruct (forallb OVERLAY_NAME_RE (split_at "," rest)) eqn:Hnames; simpl.
  - case_decide as Hst'; simpl.
    + split; [|done]. intros _. right; right. exists (split_at "," rest). subst st.
      split_and!; [apply split_at_not_nil| |by rewrite join_split].
      rewrite forallb_forall in Hnames. apply list.Forall_forall. intros n Hin. by apply Hnames, list_elem_of_In.
    + split; [done|]. intros [?|[Heq|(names & _ & _ & Heq)]]; [done|..].
      * destruct (Hst [] ltac:(by rewrite Heq)) as [? _]. done.
      * destruct (Hst _ Heq) as [? _]. done.
  - split; [done|]. intros [?|[Heq|(names & Hne & Hall & Heq)]]; [done|..].
    + destruct (Hst [] ltac:(by rewrite Heq)) as [_ ->]. done.
    + destruct (Hst _ Heq) as [_ ->]. rewrite split_at_join in Hnames; [|done|].
      * apply not_true_iff_false in Hnames. destruct Hnames. apply forallb_forall.
        intros n Hin. rewrite list.Forall_forall in Hall. by apply Hall, list_elem_of_In.
      * eapply Forall_impl; [exact Hall|]. apply name_no_comma.
Qed.

(** A trial boot whose stage 2 failed: [quiet oe5xrx.stage2=failed]. *)
Definition gate_line : list (text * Arg) :=
  [([], Flag (txt "quiet")); ([ascii_of_nat 32], Bare STAGE2_KEY (txt "failed"))].

Lemma check_boot_iff l :
  (check_boot_markers (Read l)).1 = true ↔
  (∀ v, effective_marker STAGE2_KEY (kernel_args l) = Some v → v = txt "ok") ∧
  (∀ v, effective_marker OVERLAYS_KEY (kernel_args l) = Some v → overlays_clean v).
Proof.
  pose proof (found_effective STAGE2_KEY l (or_introl eq_refl)) as H1.
  pose proof (found_effective OVERLAYS_KEY l (or_intror eq_refl)) as H2. simpl in H1, H2.
  unfold check_boot_markers, parse_boot_markers. cbv zeta. rewrite H1, H2.
  setoid_rewrite <- overlays_ok_spec.
  destruct (effective_marker OVERLAYS_KEY (kernel_args l)) as [raw|];
    [destruct (parse_overlays raw) as [st names] eqn:Hp|];
    destruct (effective_marker STAGE2_KEY (kernel_args l)) as [v|];
    unfold legacy, commit_blockers; simpl;
    repeat first [rewrite bool_decide_eq_false_2 by naive_solver | rewrite bool_decide_eq_true_2 by naive_solver];
    try destruct st; simpl;
    (split; [intros Hc; split; intros ? [= <-] | intros [Hs Ho]]);
    try specialize (Hs _ eq_refl); try specialize (Ho _ eq_refl); rewrite ?Hp in *; simpl in *; try done;
    repeat (case_decide; simpl in *); congruence.
Qed.

(** The commit gate on a trial boot.  A boot whose command line could be read
    passes exactly when the effective stage-2 marker (the kernel side of a bare
    [--] before init's side, the last value on a side) is absent or [ok], and the
    effective overlays marker is absent or names a clean state; an unreadable
    command line, or a missing one under a mounted procfs, never passes; and the
    whole health check passes only if the gate does. *)
Lemma boot_gate_exact l trail h :
  line_ok l → spaces trail →
  ((check_boot_markers (Read (render_line l trail))).1 = true ↔
   (∀ v, effective_marker STAGE2_KEY ((λ p, meaning p.2) <$> l) = Some v → v = txt "ok") ∧
   (∀ v, effective_marker OVERLAYS_KEY ((λ p, meaning p.2) <$> l) = Some v → overlays_clean v)) ∧
  (check_boot_markers Unreadable).1 = false ∧ (check_boot_markers (Missing true)).1 = false ∧
  ((run_health_checks h true).1 = true → (check_boot_markers (he_cmdline h)).1 = true).
Proof.
  intros Hl Ht. rewrite check_boot_iff, kernel_args_line by done. split_and!; try done.
  unfold run_health_checks. simpl. rewrite forallb_app, andb_true_iff. simpl. rewrite andb_true_r. naive_solver.
Qed.

Lemma boot_gate_exact_witness :
  line_ok gate_line ∧ (check_boot_markers (Read (render_line gate_line []))).1 = false.
Proof.
  assert (line_ok gate_line) as Hl.
  { split; repeat constructor; simpl; try done;
      apply (bool_decide_eq_true_1 _); by vm_compute. }
  split; [exact Hl|]. apply not_true_iff_false. intros Hc.
  apply (boot_gate_exact gate_line [] (mkHealth None V_ok V_ok Unreadable) Hl (Forall_nil_2 _)) in Hc as [Hc _].
  by specialize (Hc (txt "failed") eq_refl).
Defined.
