(* ===== verification/Bootloader.v ===== *)
(** * The A/B bootloader environment and the record of boots

    Models [station_agent/bootloader.py] (which slot runs, the variables the agent
    shares with the boot scripts, arming and committing a trial boot) and
    [station_agent/bootinfo.py] (how a boot is counted and explained).

    The variables are a map from names to texts, written by one run of a tool that
    sets all of them or none; a run that reports a failure (a time-out, say) may
    still have written.  The boot scripts themselves are not part of the agent:
    [BootScript] is what they do to the variables at a boot, with the laws the
    agent's comments state. *)

From Stdlib Require Import ZArith Lia Ascii.
From stdpp Require Import base list gmap strings pretty.
From S2P Require Import Prelude Json Images Targeting Deployments Download AgentDownload BootMarkers.

Local Open Scope Z_scope.

(** ** Slots *)

Inductive Slot := SlotA | SlotB.

#[export] Instance Slot_eq_dec : EqDecision Slot.
Proof. solve_decision. Defined.

Definition other (s : Slot) : Slot := match s with SlotA => SlotB | SlotB => SlotA end.
Definition slot_name (s : Slot) : string := match s with SlotA => "a" | SlotB => "b" end.

(** [\w] of a character outside the letters of other alphabets. *)
Definition word_char (c : ascii) : bool := alnum_char c || bool_decide (c = "_"%char).

(** [_CMDLINE_PATTERN] at the head of a text: the anchor, the slot, a word boundary. *)
Definition slot_here (l : text) : option Slot :=
  match strip_prefix (txt "root=PARTLABEL=root_") l with
  | Some (c :: rest) =>
    if match rest with d :: _ => word_char d | [] => false end then None
    else if decide (c = "a"%char) then Some SlotA
    else if decide (c = "b"%char) then Some SlotB
    else None
  | _ => None
  end.

(** [_CMDLINE_PATTERN.search] *)
Fixpoint search_slot (l : text) : option Slot :=
  match slot_here l with
  | Some s => Some s
  | None => match l with [] => None | _ :: l' => search_slot l' end
  end.

Definition slot_from_cmdline (r : CmdlineRead) : option Slot :=
  match r with Read l => search_slot l | _ => None end.

(** The devices behind [/] and behind the partition labels; [None]: [os.stat] failed. *)
Definition slot_from_root_mount (root_dev : option Z) (part_dev : Slot → option Z) : option Slot :=
  match root_dev with
  | None => None
  | Some d =>
    if decide (part_dev SlotA = Some d) then Some SlotA
    else if decide (part_dev SlotB = Some d) then Some SlotB
    else None
  end.

(** [None]: the [RuntimeError] of a station that cannot tell its slot. *)
Definition get_active_slot (r : CmdlineRead) (root_dev : option Z) (part_dev : Slot → option Z) : option Slot :=
  match slot_from_cmdline r with
  | Some s => Some s
  | None => slot_from_root_mount root_dev part_dev
  end.

Definition get_inactive_slot (r : CmdlineRead) (root_dev : option Z) (part_dev : Slot → option Z) : option Slot :=
  other <$> get_active_slot r root_dev part_dev.

(** ** The environment *)

Notation Env := (gmap string string).

Inductive Bootloader := Grub | Uboot | NoBootloader.

#[export] Instance Bootloader_eq_dec : EqDecision Bootloader.
Proof. solve_decision. Defined.

Definition detect_bootloader (has_grub has_uboot : bool) : Bootloader :=
  if has_grub then Grub else if has_uboot then Uboot else NoBootloader.

(** The [bootloader] field of the configuration; other names have no backend. *)
Definition get_bootloader (field : string) (has_grub has_uboot : bool) : Bootloader :=
  if decide (field = "auto") then detect_bootloader has_grub has_uboot
  else if decide (field = "grub") then Grub
  else if decide (field = "uboot") then Uboot
  else NoBootloader.

(** One run of the tool: a run that failed wrote everything or nothing. *)
Inductive Tool := T_ok | T_failed (applied : bool).

(** [_run]: the answer, and whether the change was made. *)
Definition run_tool (t : Tool) : bool * bool :=
  match t with T_ok => (true, true) | T_failed applied => (false, applied) end.

Definition env_write (t : Tool) (f : Env → Env) (e : Env) : bool * Env :=
  let '(ok, applied) := run_tool t in (ok, if applied then f e else e).

Definition get_env (bl : Bootloader) (readable : bool) (key : string) (e : Env) : option string :=
  match bl with NoBootloader => None | _ => if readable then e !! key else None end.

Definition read_env (bl : Bootloader) (readable : bool) (e : Env) : option Env :=
  match bl with NoBootloader => None | _ => if readable then Some e else None end.

Definition committed_env (e : Env) : Env := <["bootcount" := "0"]> (<["upgrade_available" := "0"]> e).

Definition commit_boot_local (bl : Bootloader) (t : Tool) (e : Env) : bool * Env :=
  match bl with NoBootloader => (true, e) | _ => env_write t committed_env e end.

Definition pending_env (s : Slot) (e : Env) : Env :=
  <["boot_part" := slot_name s]> (<["upgrade_available" := "1"]> (<["bootcount" := "0"]> e)).

Definition set_upgrade_pending (bl : Bootloader) (t : Tool) (s : Slot) (e : Env) : bool * Env :=
  match bl with NoBootloader => (true, e) | _ => env_write t (pending_env s) e end.

Definition DEFAULT_BOOTLIMIT : Z := 3.
Definition MAX_ARMABLE_BOOTLIMIT : Z := 8.

Definition isdigit (l : text) : bool :=
  bool_decide (l ≠ []) && forallb (λ c, bool_decide (is_Some (digit_value c))) l.

(** [int(s)] where [s.isdigit()]. *)
Definition number (s : string) : option Z :=
  let l := strip (txt s) in if isdigit l then Some (digits_value l) else None.

(** The limit the boot scripts use, where the agent can read it. *)
Definition boot_limit (e : Env) : option Z :=
  match e !! "bootlimit" with
  | None => Some DEFAULT_BOOTLIMIT
  | Some raw =>
    if decide (raw = "") then Some DEFAULT_BOOTLIMIT
    else match number raw with
         | Some n => if decide (1 ≤ n ≤ MAX_ARMABLE_BOOTLIMIT) then Some n else None
         | None => None
         end
  end.

Definition arm_trial_rollback (bl : Bootloader) (readable : bool) (t : Tool) (e : Env) : bool * Env :=
  match read_env bl readable e with
  | None => (false, e)
  | Some env =>
    match boot_limit env with
    | None => (false, e)
    | Some limit =>
      match number (default "" (env !! "bootcount")) with
      | Some n => if decide (limit ≤ n) then (true, e) else env_write t <["bootcount" := pretty limit]> e
      | None => env_write t <["bootcount" := pretty limit]> e
      end
    end
  end.

(** ** The boot scripts *)

Class BootScript := boot : Env → Env * Slot.

(** A boot outside a trial changes nothing but the count.  In a trial the count
    grows, and once it passes the limit the script goes back to the other slot
    and ends the trial. *)
Definition next_boot (e : Env) (part : Slot) (limit count : Z) : Env * Slot :=
  if decide (limit < count) then
    (<["boot_part" := slot_name (other part)]> (<["upgrade_available" := "0"]> (<["bootcount" := "1"]> e)), other part)
  else (<["bootcount" := pretty count]> e, part).

Class BootScriptLaws `{BootScript} := {
  boot_committed e part :
    e !! "boot_part" = Some (slot_name part) → e !! "upgrade_available" ≠ Some "1" →
    ∃ c, boot e = (<["bootcount" := c]> e, part);
  boot_trial e part limit n :
    e !! "boot_part" = Some (slot_name part) → e !! "upgrade_available" = Some "1" →
    boot_limit e = Some limit → number (default "" (e !! "bootcount")) = Some n → 0 ≤ n ≤ limit →
    ∃ n', n < n' ∧ boot e = next_boot e part limit n'
}.

(** A script that counts in decimal. *)
Definition decimal_boot : BootScript := λ e,
  let part := if decide (e !! "boot_part" = Some "b") then SlotB else SlotA in
  let n := default 0 (number (default "" (e !! "bootcount"))) in
  if decide (e !! "upgrade_available" = Some "1") then
    next_boot e part (default DEFAULT_BOOTLIMIT (boot_limit e)) (n + 1)
  else (<["bootcount" := pretty (n + 1)]> e, part).

(** ** Boots as the agent records them *)

Inductive Reason := Re_crash | Re_ota_rollback | Re_watchdog | Re_clean | Re_undervoltage | Re_unknown.

Record Evidence := mkEvidence {
  ev_pstore_crash : bool;
  ev_ota_rollback : bool;
  ev_watchdog : bool;
  ev_undervoltage : bool;
  ev_clean_marker : bool
}.

Definition no_evidence : Evidence := mkEvidence false false false false false.

Definition compute_reboot_reason (ev : Evidence) : Reason :=
  if ev_pstore_crash ev then Re_crash
  else if ev_ota_rollback ev then Re_ota_rollback
  else if ev_watchdog ev then Re_watchdog
  else if ev_clean_marker ev then Re_clean
  else if ev_undervoltage ev then Re_undervoltage
  else Re_unknown.

Record BootState := mkBootState { bs_boot_id : string; bs_boot_count : Z; bs_reason : Reason }.

(** The files of the state directory and the crash dumps of [pstore]. *)
Record StateDir := mkStateDir {
  sd_state : option BootState;     (* [None]: absent or unreadable *)
  sd_clean : bool;
  sd_pending : bool;
  sd_dumps : bool
}.

(** What a call of [detect_boot] sees beside the state directory. *)
Record BootProbe := mkProbe {
  pr_boot_id : option string;
  pr_bootloader : Bootloader;
  pr_readable : bool;
  pr_env : Env;
  pr_watchdog : bool;
  pr_undervoltage : option bool;   (* [None]: the collector raised *)
  pr_writable : bool               (* the new state can be stored *)
}.

Definition bootloader_rollback (pr : BootProbe) (d : StateDir) : bool :=
  sd_pending d &&
  bool_decide (get_env (pr_bootloader pr) (pr_readable pr) "upgrade_available" (pr_env pr) = Some "0") &&
  match get_env (pr_bootloader pr) (pr_readable pr) "bootcount" (pr_env pr) with
  | None => false
  | Some c => bool_decide (c ≠ "0")
  end.

(** [_dmesg_watchdog] over the lines of the previous boot's log; [contains] is [in]. *)
Definition dmesg_watchdog (contains : string → string → bool) (lines : option (list string)) : bool :=
  match lines with
  | None => false
  | Some ls => existsb (λ l, (contains "watchdog" l || contains "bcm2835-wdt" l) &&
      (contains "reset" l || contains "reboot" l || contains "timeout" l)) ls
  end.

Definition gather_evidence (pr : BootProbe) (d : StateDir) : Evidence :=
  match pr_undervoltage pr with
  | None => no_evidence
  | Some u => mkEvidence (sd_dumps d) (bootloader_rollback pr d) (pr_watchdog pr) u (sd_clean d)
  end.

(** The answer (boot, count, reason) and the files afterwards. *)
Definition detect_boot (pr : BootProbe) (d : StateDir) : (option string * Z * Reason) * StateDir :=
  let count := match sd_state d with Some s => bs_boot_count s | None => 0 end in
  match pr_boot_id pr with
  | None => ((None, count, Re_unknown), d)
  | Some id =>
    match sd_state d with
    | Some s =>
      if decide (bs_boot_id s = id) then
        ((Some id, count, bs_reason s), mkStateDir (sd_state d) false (sd_pending d) (sd_dumps d))
      else
        let reason := compute_reboot_reason (gather_evidence pr d) in
        if pr_writable pr then
          ((Some id, count + 1, reason), mkStateDir (Some (mkBootState id (count + 1) reason)) false false false)
        else ((Some id, 0, Re_unknown), d)
    | None =>
      let reason := compute_reboot_reason (gather_evidence pr d) in
      if pr_writable pr then
        ((Some id, count + 1, reason), mkStateDir (Some (mkBootState id (count + 1) reason)) false false false)
      else ((Some id, 0, Re_unknown), d)
    end
  end.

Definition mark_clean_shutdown (writable : bool) (d : StateDir) : StateDir :=
  mkStateDir (sd_state d) (sd_clean d || writable) (sd_pending d) (sd_dumps d).

Definition mark_pending_upgrade (writable : bool) (d : StateDir) : StateDir :=
  mkStateDir (sd_state d) (sd_clean d) (sd_pending d || writable) (sd_dumps d).

(** ** Lemmas: slots and numbers *)

Lemma other_other s : other (other s) = s.
Proof. by destruct s. Qed.

Lemma other_ne s : other s ≠ s.
Proof. by destruct s. Qed.

Lemma slot_name_inj s t : slot_name s = slot_name t → s = t.
Proof. by destruct s, t. Qed.

Lemma ne_other s t : s ≠ t → s = other t.
Proof. by destruct s, t. Qed.

#[export] Hint Rewrite other_other : slots.

Lemma number_pretty n : 0 ≤ n → number (pretty n) = Some n.
Proof.
  intros Hn. destruct (pretty_digits n Hn) as (d & Hd & Hall & Hne & Hv & _).
  unfold number. change (txt (pretty n)) with (digits_of (pretty n)). rewrite Hd.
  assert (strip d = d) as ->.
  { unfold strip. rewrite <-(app_nil_r d) at 1. rewrite lstrip_digits, app_nil_r by done.
    rewrite <-(app_nil_r (reverse d)), lstrip_digits, app_nil_r, reverse_involutive; [done| |by apply Forall_reverse].
    intros Hr. apply Hne. by apply (f_equal reverse) in Hr; rewrite reverse_involutive in Hr. }
  assert (isdigit d = true) as ->; [|by rewrite Hv].
  unfold isdigit. rewrite bool_decide_eq_true_2 by done. simpl. apply forallb_forall.
  intros c Hc. apply bool_decide_eq_true_2. rewrite list.Forall_forall in Hall. by apply Hall, list_elem_of_In.
Qed.

Lemma strip_prefix_app' (p l : text) : strip_prefix p (p ++ l) = Some l.
Proof. by apply strip_prefix_Some. Qed.

(** A command line as the boot scripts write it names its slot, wherever the
    anchor stands, if no other anchor comes before it. *)
Lemma search_slot_found pre s post :
  (∀ k, (k < length pre)%nat → slot_here (drop k (pre ++ txt "root=PARTLABEL=root_" ++ txt (slot_name s) ++ post)) = None) →
  match post with c :: _ => word_char c = false | [] => True end →
  search_slot (pre ++ txt "root=PARTLABEL=root_" ++ txt (slot_name s) ++ post) = Some s.
Proof.
  intros Hpre Hpost. induction pre as [|c pre IH].
  - assert (slot_here (txt "root=PARTLABEL=root_" ++ txt (slot_name s) ++ post) = Some s) as Hh.
    { unfold slot_here. rewrite strip_prefix_app'. destruct s, post; simpl in *; by rewrite ?Hpost. }
    remember (txt "root=PARTLABEL=root_" ++ txt (slot_name s) ++ post) as l. change ([] ++ l) with l.
    by destruct l; cbn [search_slot]; rewrite Hh.
  - pose proof (Hpre 0%nat ltac:(simpl; lia)) as H0. rewrite drop_0 in H0. simpl app in H0 |- *. cbn [search_slot].
    rewrite H0. apply IH. intros k Hk. apply (Hpre (S k)). simpl. lia.
Qed.

(** ** Lemmas: the environment *)

Lemma env_write_cases t f e ok e' : env_write t f e = (ok, e') → e' = e ∨ e' = f e.
Proof. destruct t as [|[]]; intros [= <- <-]; auto. Qed.

Lemma env_write_true t f e e' : env_write t f e = (true, e') → e' = f e.
Proof. by destruct t as [|[]]; intros [=]. Qed.

Lemma boot_limit_range e limit : boot_limit e = Some limit → 1 ≤ limit ≤ 8.
Proof.
  unfold boot_limit, DEFAULT_BOOTLIMIT, MAX_ARMABLE_BOOTLIMIT.
  destruct (e !! "bootlimit"); repeat case_decide; try (intros [= <-]; lia).
  destruct (number _); [case_decide|]; intros [=]; lia.
Qed.

Lemma boot_limit_insert k v e : k ≠ "bootlimit" → boot_limit (<[k := v]> e) = boot_limit e.
Proof. intros Hk. unfold boot_limit. by rewrite lookup_insert_ne. Qed.

(** Arming only ever raises the count to the limit. *)
Lemma arm_cases bl readable t e ok e' :
  arm_trial_rollback bl readable t e = (ok, e') →
  e' = e ∨ ∃ limit, boot_limit e = Some limit ∧ e' = <["bootcount" := pretty limit]> e.
Proof.
  unfold arm_trial_rollback, read_env.
  destruct bl; [..|intros [= <- <-]; by left]; (destruct readable; [|intros [= <- <-]; by left]);
    destruct (boot_limit e) as [limit|]; try (intros [= <- <-]; by left);
    destruct (number _); try case_decide; try (intros [= <- <-]; by left); intros Hw%env_write_cases; naive_solver.
Qed.

Lemma arm_true bl readable t e e' n :
  arm_trial_rollback bl readable t e = (true, e') → number (default "" (e !! "bootcount")) = Some n →
  ∃ limit, boot_limit e = Some limit ∧
    ((limit ≤ n ∧ e' = e) ∨ (n < limit ∧ e' = <["bootcount" := pretty limit]> e)).
Proof.
  unfold arm_trial_rollback, read_env.
  destruct bl; [..|done]; (destruct readable; [|done]);
    destruct (boot_limit e) as [limit|]; try done; intros Ha Hn; rewrite Hn in Ha;
    exists limit; (split; [done|]); case_decide as Hl;
    try (injection Ha as <-; by left); apply env_write_true in Ha; right; (split; [lia|done]).
Qed.

#[export] Instance decimal_boot_laws : @BootScriptLaws decimal_boot.
Proof.
  split.
  - intros e part Hp Hu. unfold boot, decimal_boot. rewrite (decide_False (P := _ !! "upgrade_available" = _)) by done.
    rewrite Hp. eexists. f_equal. by destruct part.
  - intros e part limit n Hp Hu Hl Hn Hr. exists (n + 1). split; [lia|].
    unfold boot, decimal_boot. rewrite (decide_True (P := _ !! "upgrade_available" = _)) by done.
    rewrite Hp, Hl, Hn. by destruct part.
Qed.

(** Arming the rollback works with one reboot.  In a trial whose count has not
    passed the limit, after [arm_trial_rollback] reported success the next boot
    is the boot script's own rollback: the station runs the other slot and the
    trial is over. *)
Lemma armed_rollback_next_boot `{BootScriptLaws} bl readable t e e' part limit n :
  e !! "boot_part" = Some (slot_name part) → e !! "upgrade_available" = Some "1" →
  boot_limit e = Some limit → number (default "" (e !! "bootcount")) = Some n → 0 ≤ n ≤ limit →
  arm_trial_rollback bl readable t e = (true, e') →
  (boot e').2 = other part ∧ (boot e').1 !! "upgrade_available" = Some "0" ∧
  (boot e').1 !! "boot_part" = Some (slot_name (other part)).
Proof.
  intros Hp Hu Hl Hn Hr Harm. destruct (arm_true _ _ _ _ _ _ Harm Hn) as (limit' & Hl' & Hcase).
  assert (limit' = limit) as -> by congruence.
  assert (∃ n', limit < n' ∧ boot e' = next_boot e' part limit n') as (n' & Hn' & ->).
  { destruct Hcase as [[Hle ->]|[Hlt ->]].
    - destruct (boot_trial e part limit n) as (n' & ? & ?); [done..|]. exists n'. split; [lia|done].
    - destruct (boot_trial (<["bootcount" := pretty limit]> e) part limit limit) as (n' & ? & ?).
      + by rewrite lookup_insert_ne.
      + by rewrite lookup_insert_ne.
      + by rewrite boot_limit_insert.
      + rewrite lookup_insert_eq. apply number_pretty. lia.
      + lia.
      + eauto. }
  unfold next_boot. rewrite decide_True by lia. simpl. split_and!; [done| |by rewrite lookup_insert_eq].
  by rewrite lookup_insert_ne, lookup_insert_eq.
Qed.

(** A trial of slot b with two of three boots used. *)
Definition trial_env : Env :=
  <["boot_part" := "b"]> (<["upgrade_available" := "1"]> {[ "bootcount" := "2" ]}).

Lemma armed_rollback_next_boot_witness :
  (@boot decimal_boot (arm_trial_rollback Grub true T_ok trial_env).2).2 = SlotA.
Proof.
  apply (@armed_rollback_next_boot decimal_boot decimal_boot_laws Grub true T_ok trial_env _ SlotB 3 2);
    try reflexivity; lia.
Defined.

(** ** Boots are counted once *)

Definition boot_count (d : StateDir) : Z := match sd_state d with Some s => bs_boot_count s | None => 0 end.
Definition known_boot (d : StateDir) : option string := bs_boot_id <$> sd_state d.

(** How often the boot changes along a sequence of readable identities. *)
Fixpoint boot_changes (current : option string) (ids : list string) : Z :=
  match ids with
  | [] => 0
  | id :: ids' => (if decide (current = Some id) then 0 else 1) + boot_changes (Some id) ids'
  end.

Definition detect_all (prs : list BootProbe) (d : StateDir) : StateDir := foldl (λ d pr, (detect_boot pr d).2) d prs.

(** One call: the answer repeats what is stored, the count moves with the identity
    only, and no marker survives. *)
Lemma detect_step pr d id :
  pr_boot_id pr = Some id → pr_writable pr = true →
  let '(answer, d') := detect_boot pr d in
  known_boot d' = Some id ∧ boot_count d' = boot_count d + (if decide (known_boot d = Some id) then 0 else 1) ∧
  answer.1.2 = boot_count d' ∧ sd_clean d' = false ∧
  (known_boot d ≠ Some id → sd_pending d' = false ∧ answer.2 = compute_reboot_reason (gather_evidence pr d)).
Proof.
  intros Hid Hw. unfold detect_boot, known_boot, boot_count. rewrite Hid, Hw.
  destruct d as [[[id0 n r]|] c p du]; simpl; [|done].
  case_decide as Heq; subst; simpl.
  - rewrite decide_True by done. split_and!; [done|lia|done|done|]. done.
  - rewrite decide_False by congruence. done.
Qed.

(** Reboots are counted once each.  However often the agent asks (at every
    heartbeat, after every restart of the process), the stored count has grown
    by exactly the number of times the kernel's boot identity changed. *)
Lemma reboots_counted_once prs ids d :
  Forall2 (λ pr id, pr_boot_id pr = Some id ∧ pr_writable pr = true) prs ids →
  boot_count (detect_all prs d) = boot_count d + boot_changes (known_boot d) ids.
Proof.
  intros Hall. revert d. induction Hall as [|pr id prs ids [Hid Hw] _ IH]; intros d; simpl; [lia|].
  pose proof (detect_step pr d id Hid Hw) as Hs. unfold detect_all in *. simpl.
  destruct (detect_boot pr d) as [answer d'] eqn:Hd. simpl. destruct Hs as (Hk & Hc & _).
  rewrite IH, Hk, Hc. lia.
Qed.

Definition boot_probe (id : string) : BootProbe := mkProbe (Some id) Grub true trial_env false (Some false) true.

Lemma reboots_counted_once_witness :
  boot_count (detect_all (boot_probe <$> ["x"; "x"; "y"; "y"; "x"]) (mkStateDir None true true false)) = 3.
Proof.
  rewrite (reboots_counted_once _ ["x"; "x"; "y"; "y"; "x"]); [reflexivity|].
  repeat constructor.
Defined.

(** What a new boot is blamed on: a rollback of the bootloader only if the agent
    had armed a trial since the boot it knew last and the variables show a trial
    abandoned, and an earlier crash dump outranks it; a clean shutdown only if the
    marker was written, and it outranks a low-voltage flag. *)
Lemma reboot_blame pr d id :
  pr_boot_id pr = Some id → pr_writable pr = true → known_boot d ≠ Some id →
  let reason := (detect_boot pr d).1.2 in
  (reason = Re_ota_rollback → sd_pending d = true ∧ sd_dumps d = false ∧
     get_env (pr_bootloader pr) (pr_readable pr) "upgrade_available" (pr_env pr) = Some "0" ∧
     get_env (pr_bootloader pr) (pr_readable pr) "bootcount" (pr_env pr) ≠ Some "0") ∧
  (reason = Re_clean → sd_clean d = true) ∧ (reason = Re_undervoltage → sd_clean d = false) ∧
  (reason = Re_crash ↔ is_Some (pr_undervoltage pr) ∧ sd_dumps d = true).
Proof.
  intros Hid Hw Hk. pose proof (detect_step pr d id Hid Hw) as Hs.
  destruct (detect_boot pr d) as [[[i n] r] d']. destruct Hs as (_ & _ & _ & _ & Hs).
  destruct (Hs Hk) as [_ Hr]. simpl in Hr |- *. subst r. clear Hs.
  unfold gather_evidence. destruct (pr_undervoltage pr) as [u|]; simpl.
  2:{ split_and!; try done. split; [done|]. by intros [[? ?] _]. }
  unfold compute_reboot_reason, bootloader_rollback. simpl.
  destruct (sd_dumps d); [naive_solver|]. destruct (sd_pending d); simpl.
  2:{ destruct (pr_watchdog pr), (sd_clean d), u; naive_solver. }
  case_bool_decide as Hu; simpl; [|destruct (pr_watchdog pr), (sd_clean d), u; naive_solver].
  destruct (get_env _ _ "bootcount" _) as [c|] eqn:Hc; [case_bool_decide|];
    destruct (pr_watchdog pr), (sd_clean d), u; naive_solver.
Qed.
