(* ===== verification/AgentOta.v ===== *)
(** * The agent's image update cycle

    Models [station_agent/agent.py] ([_handle_ota], [_verify_and_commit],
    [_reboot_into_previous_slot]) and the rest of [station_agent/ota.py]
    ([apply_update], [install_to_slot], [commit_boot], [report_status]) on a
    machine with two slots, the boot scripts' variables, the files of the download
    directory and the messages sent to the server.

    A program returns a result and the sequence of states it went through: one
    state for every effect that survives a power loss.  A power loss in the middle
    of a cycle leaves any of these states, so a statement about all of them is a
    statement about every crash ([crash_triple]).

    What the programs meet outside is the [World] of a cycle: the server's answer,
    the outcome of each tool, file and request.  Parameters: the digest, the
    decompressor's output ([w_stream]), what [tune2fs] makes of a file system
    ([relabel]) and the release tag a root file system carries ([release]). *)

From Stdlib Require Import ZArith Lia Ascii.
From stdpp Require Import base list gmap strings pretty relations.
From S2P Require Import Prelude Json Images Targeting Deployments Download AgentDownload BootMarkers Bootloader.

Local Open Scope Z_scope.

(** ** The machine *)

Inductive Msg := Status (pk : Z) (status : string) | Commit (version : string).

#[export] Instance Msg_eq_dec : EqDecision Msg.
Proof. solve_decision. Defined.

Record Machine := mkMachine {
  m_slots : Slot → Bytes;
  m_running : Slot;
  m_env : Env;
  m_files : gmap string Bytes;             (* the download directory *)
  m_pending : option Slot;                 (* pending_upgrade.marker *)
  m_last : option (string * string);       (* last_ota_result.json: result and version *)
  m_sent : list Msg;                       (* newest first *)
  m_proven : Slot → bool                   (* ghost: committed since it was written last *)
}.

Definition upd {A} (f : Slot → A) (s : Slot) (x : A) : Slot → A := λ t, if decide (t = s) then x else f t.

Definition set_slot (s : Slot) (b : Bytes) (m : Machine) : Machine :=
  mkMachine (upd (m_slots m) s b) (m_running m) (m_env m) (m_files m) (m_pending m) (m_last m) (m_sent m)
    (upd (m_proven m) s false).
Definition set_env (e : Env) (m : Machine) : Machine :=
  mkMachine (m_slots m) (m_running m) e (m_files m) (m_pending m) (m_last m) (m_sent m) (m_proven m).
Definition set_files (fs : gmap string Bytes) (m : Machine) : Machine :=
  mkMachine (m_slots m) (m_running m) (m_env m) fs (m_pending m) (m_last m) (m_sent m) (m_proven m).
Definition put_pending (s : Slot) (m : Machine) : Machine :=
  mkMachine (m_slots m) (m_running m) (m_env m) (m_files m) (Some s) (m_last m) (m_sent m) (m_proven m).
Definition put_last (r : string * string) (m : Machine) : Machine :=
  mkMachine (m_slots m) (m_running m) (m_env m) (m_files m) (m_pending m) (Some r) (m_sent m) (m_proven m).
Definition send (x : Msg) (m : Machine) : Machine :=
  mkMachine (m_slots m) (m_running m) (m_env m) (m_files m) (m_pending m) (m_last m) (x :: m_sent m) (m_proven m).

(** The running slot passed its checks and its boot was made permanent. *)
Definition prove_running (m : Machine) : Machine :=
  mkMachine (m_slots m) (m_running m) (m_env m) (m_files m) (m_pending m) (m_last m) (m_sent m)
    (upd (m_proven m) (m_running m) true).

(** ** Programs *)

(** The result, the state at the end and the states left behind, oldest first. *)
Definition Prog (A : Type) : Type := Machine → A * (Machine * list Machine).

#[export] Instance Prog_ret : MRet Prog := λ A a m, (a, (m, [])).
#[export] Instance Prog_bind : MBind Prog := λ A B k p m,
  let '(a, (m1, past1)) := p m in
  let '(b, (m2, past2)) := k a m1 in
  (b, (m2, past1 ++ past2)).

Definition machine : Prog Machine := λ m, (m, (m, [])).
Definition effect (f : Machine → Machine) : Prog unit := λ m, (tt, (f m, [m])).

(** The states a power loss can leave, and the state at the end. *)
Definition crash_states {A} (p : Prog A) (m : Machine) : list Machine :=
  let '(_, (m', past)) := p m in past ++ [m'].
Definition result {A} (p : Prog A) (m : Machine) : A := (p m).1.
Definition final {A} (p : Prog A) (m : Machine) : Machine := (p m).2.1.

(** ** The world of a cycle *)

Record Offer := mkOffer {
  o_pk : Z;               (* 0: missing *)
  o_url : string;
  o_tag : string;
  o_checksum : string;
  o_size : Z;             (* 0: missing *)
  o_status : string
}.

(** One read of the decompressor: data, whether writing it stops with an error
    after so many bytes, and whether a flush after it works. *)
Record Chunk := mkChunk { ck_data : Bytes; ck_short : option nat; ck_sync : bool }.
Inductive ReadEnd := End_of_stream | Truncated | Corrupt | Read_error.

Inductive Reboot := Rb_shutdown | Rb_stuck | Rb_timeout | Rb_failed.

Record World := mkWorld {
  w_bootloader : Bootloader;
  w_check : option (Z * option Offer);     (* answer to the check: code, body if it is JSON *)
  w_disk : Disk;
  w_request : option string → option HttpResp;
  w_retry : option string → option HttpResp;
  w_root_dev : option Z;
  w_part_dev : Slot → option Z;
  w_device : bool;                         (* the target partition exists *)
  w_open : bool;
  w_stream : Bytes → list Chunk * ReadEnd;
  w_fsync : bool;
  w_label : Tool;
  w_arm : Tool;
  w_state_dir : bool;                      (* the state directory is writable *)
  w_reboot : Reboot;
  w_read_upgrade : bool;
  w_read_count : bool;
  w_list : bool;
  w_health : Health;
  w_commit : Tool;
  w_commit_code : option Z;                (* answer to the commit request *)
  w_rollback : Tool
}.

Section programs.
Variable sha256 : Bytes → string.
Variable relabel : Slot → Bytes → Bytes.
Variable release : Bytes → string.

(** ** ota.py *)

(** [check_for_update] *)
Definition check_for_update (w : World) : option Offer :=
  match w_check w with
  | None => None
  | Some (code, body) => if decide (code = 200) then body else None
  end.

(** [report_status]: the answer of the server is only logged. *)
Definition report (o : Offer) (status : string) : Prog unit := effect (send (Status (o_pk o) status)).

Definition write_last_ota_result (w : World) (r : string) (o : Offer) : Prog unit :=
  if w_state_dir w then effect (put_last (r, o_tag o)) else mret tt.

(** [_write_all]: the bytes from [off] on; [false]: an [OSError]. *)
Definition overlay (off : nat) (data old : Bytes) : Bytes :=
  take off old ++ data ++ drop (off + length data) old.

Definition write_all (t : Slot) (off : nat) (c : Chunk) : Prog bool :=
  m ← machine;
  match ck_short c with
  | None => effect (set_slot t (overlay off (ck_data c) (m_slots m t)));; mret true
  | Some k => effect (set_slot t (overlay off (take k (ck_data c)) (m_slots m t)));; mret false
  end.

Definition SYNC_INTERVAL : Z := Z.shiftl 64 20.

Fixpoint write_chunks (t : Slot) (off : nat) (since : Z) (cs : list Chunk) (e : ReadEnd) : Prog bool :=
  match cs with
  | [] => mret (match e with End_of_stream => true | _ => false end)
  | c :: cs' =>
    if decide (ck_data c = []) then mret true
    else
      ok ← write_all t off c;
      let off' := (off + length (ck_data c))%nat in
      let since' := since + Z.of_nat (length (ck_data c)) in
      if negb ok then mret false
      else if decide (SYNC_INTERVAL ≤ since') then
        (if ck_sync c then write_chunks t off' 0 cs' e else mret false)
      else write_chunks t off' since' cs' e
  end.

(** [install_to_slot]; [false]: the [OSError] or [ValueError] the caller catches. *)
Definition install_to_slot (w : World) (file : option Bytes) (t : Slot) : Prog bool :=
  if negb (w_open w) then mret false
  else
    match file with
    | None => mret false
    | Some b =>
      let '(cs, e) := w_stream w b in
      ok ← write_chunks t 0 0 cs e;
      mret (ok && w_fsync w)
    end.

(** [set_slot_fs_label] *)
Definition set_slot_fs_label (w : World) (t : Slot) : Prog bool :=
  m ← machine;
  let '(ok, applied) := run_tool (w_label w) in
  (if applied then effect (set_slot t (relabel t (m_slots m t))) else mret tt);;
  mret ok.

Definition inactive_slot (w : World) : option Slot :=
  get_inactive_slot (he_cmdline (w_health w)) (w_root_dev w) (w_part_dev w).

(** The environment of a tool's run on the machine. *)
Definition env_tool (f : Env → bool * Env) (after : Machine → Machine) : Prog bool :=
  m ← machine;
  let '(ok, e') := f (m_env m) in
  (if decide (e' = m_env m) then mret tt else effect (λ m, after (set_env e' m)));;
  mret ok.

(** [apply_update]; [None]: the [RuntimeError] of slot detection. *)
Definition apply_update (w : World) (name : string) : Prog (option bool) :=
  match inactive_slot w with
  | None => mret None
  | Some t =>
    if negb (w_device w) then mret (Some false)
    else
      m ← machine;
      ok ← install_to_slot w (m_files m !! name) t;
      if negb ok then mret (Some false)
      else
        labelled ← set_slot_fs_label w t;
        if negb labelled && bool_decide (w_bootloader w = Grub) then mret (Some false)
        else
          armed ← env_tool (set_upgrade_pending (w_bootloader w) (w_arm w) t) id;
          if negb armed then mret (Some false)
          else
            (if w_state_dir w then effect (put_pending t) else mret tt);;
            mret (Some true)
  end.

(** [commit_boot].  The ghost flag follows the variables: the boot is permanent once
    they say so, whatever the tool reported. *)
Definition commit_boot (w : World) (o : Offer) : Prog bool :=
  ok ← env_tool (commit_boot_local (w_bootloader w) (w_commit w)) prove_running;
  if negb ok then mret false
  else effect (send (Commit (o_tag o)));; mret (bool_decide (w_commit_code w = Some 200)).

(** ** agent.py *)

(** [_reboot_into_previous_slot]: nothing of the reboot itself is kept. *)
Definition reboot_into_previous_slot (w : World) : Prog unit :=
  _ ← env_tool (arm_trial_rollback (w_bootloader w) (w_list w) (w_rollback w)) id;
  mret tt.

(** Health checks, then commit or rollback; [gate]: the trial is still open. *)
Definition check_and_commit (w : World) (o : Offer) (gate : bool) : Prog unit :=
  let '(passed, messages) := run_health_checks (w_health w) gate in
  if passed then
    ok ← commit_boot w o;
    write_last_ota_result w (if ok : bool then "success" else "failed") o
  else
    report o "rolled_back";;
    write_last_ota_result w "rolled_back" o;;
    (if decide ((C_boot, V_fail) ∈ messages) then reboot_into_previous_slot w else mret tt).

Definition verify_and_commit (w : World) (o : Offer) : Prog unit :=
  report o "verifying";;
  m ← machine;
  let running_version := release (m_slots m (m_running m)) in
  if decide (running_version = "" ∨ running_version ≠ o_tag o) then
    report o "rolled_back";; write_last_ota_result w "rolled_back" o
  else
    let upgrade_available := get_env (w_bootloader w) (w_read_upgrade w) "upgrade_available" (m_env m) in
    let bootcount := get_env (w_bootloader w) (w_read_count w) "bootcount" (m_env m) in
    if decide (upgrade_available = Some "1") then check_and_commit w o true
    else if decide (upgrade_available = Some "0" ∧ bootcount = Some "0") then check_and_commit w o false
    else report o "rolled_back".

(** The file name: characters outside [A-Za-z0-9._-] become underscores. *)
Definition safe_char (c : ascii) : ascii :=
  if alnum_char c || bool_decide (c ∈ txt "._-") then c else "_"%char.
Definition safe_version (tag : string) : string :=
  if decide (tag = "") then "image" else String.string_of_list_ascii (safe_char <$> txt tag).
Definition dest_name (tag : string) : string := "firmware-" +:+ safe_version tag +:+ ".rootfs.bz2".

(** [glob("firmware-*.wic.bz2")] *)
Definition is_legacy (name : string) : bool :=
  match strip_prefix (txt "firmware-") (txt name) with
  | Some l => bool_decide (is_Some (strip_prefix (reverse (txt ".wic.bz2")) (reverse l)))
  | None => false
  end.

Definition sweep_legacy (w : World) : Prog unit :=
  m ← machine;
  if dk_remove (w_disk w) then effect (set_files (filter (λ p, is_legacy p.1 = false) (m_files m))) else mret tt.

Definition put_file (name : string) (f : option Bytes) (fs : gmap string Bytes) : gmap string Bytes :=
  match f with Some b => <[name := b]> fs | None => delete name fs end.

(** The download of the cycle.  An exception (a start of thousands of digits) ends
    the cycle; only an oversized file has been dropped by then. *)
Definition download (w : World) (o : Offer) : Prog (option bool) :=
  m ← machine;
  let name := dest_name (o_tag o) in
  let f := m_files m !! name in
  let size := if decide (o_size o = 0) then None else Some (o_size o) in
  match download_firmware_resumable sha256 (w_disk w) (w_request w) (w_retry w) (o_checksum o) size f with
  | Ok (ok, f') => effect (set_files (put_file name f' (m_files m)));; mret (Some ok)
  | Raise _ =>
    let stale := bool_decide (is_Some f) && match size with Some n => bool_decide (n < file_len f) | None => false end in
    (if stale then effect (set_files (put_file name (remove (w_disk w) f) (m_files m))) else mret tt);; mret None
  end.

(** The download phase; [false]: the cycle is over. *)
Definition fetch (w : World) (o : Offer) : Prog bool :=
  m ← machine;
  if decide (o_status o = "installing" ∧ is_Some (m_files m !! dest_name (o_tag o))) then mret true
  else
    report o "downloading";;
    r ← download w o;
    match r with
    | Some true => mret true
    | Some false => report o "failed";; write_last_ota_result w "failed" o;; mret false
    | None => mret false
    end.

(** [systemctl reboot] and the wait for the shutdown signal. *)
Definition reboot_phase (w : World) (o : Offer) : Prog unit :=
  match w_reboot w with
  | Rb_shutdown => mret tt
  | Rb_stuck | Rb_timeout | Rb_failed => report o "failed";; write_last_ota_result w "failed" o
  end.

Definition install_phase (w : World) (o : Offer) : Prog unit :=
  report o "installing";;
  r ← apply_update w (dest_name (o_tag o));
  match r with
  | Some true => report o "rebooting";; reboot_phase w o
  | _ => report o "failed";; write_last_ota_result w "failed" o
  end.

Definition handle_ota (w : World) : Prog unit :=
  match check_for_update w with
  | None => mret tt
  | Some o =>
    if decide (o_pk o = 0 ∨ o_url o = "") then mret tt
    else if decide (o_status o = "rebooting" ∨ o_status o = "verifying") then verify_and_commit w o
    else
      sweep_legacy w;;
      ok ← fetch w o;
      if ok : bool then install_phase w o else mret tt
  end.

End programs.

(** ** Power *)

(** A power loss or a reboot: the boot script picks the slot; the download directory
    may come back with other contents. *)
Definition power `{BootScript} (fs : gmap string Bytes) (m : Machine) : Machine :=
  let '(e, s) := boot (m_env m) in
  mkMachine (m_slots m) s e fs (m_pending m) (m_last m) (m_sent m) (m_proven m).

Fixpoint power_cycles `{BootScript} (n : nat) (m : Machine) : Machine :=
  match n with O => m | S n' => power_cycles n' (power (m_files m) m) end.

(** ** Reasoning about crashes

    [wp I p Q m]: from [m], every state [p] leaves behind on its way satisfies [I]
    and it ends in a state that satisfies [Q]. *)

Definition wp {A} (I : Machine → Prop) (p : Prog A) (Q : A → Machine → Prop) (m : Machine) : Prop :=
  let '(a, (m', past)) := p m in Forall I past ∧ Q a m'.

Section wp.
Context (I : Machine → Prop).

Lemma crash_wp_ret {A} (a : A) Q m : Q a m → wp I (mret a) Q m.
Proof. by split. Qed.

Lemma crash_wp_bind {A B} (p : Prog A) (k : A → Prog B) Q m :
  wp I p (λ a, wp I (k a) Q) m → wp I (p ≫= k) Q m.
Proof.
  unfold wp, mbind, Prog_bind. destruct (p m) as [a [m1 past1]]. intros [H1 H2].
  destruct (k a m1) as [b [m2 past2]]. destruct H2 as [H2 HQ]. split; [by apply Forall_app|done].
Qed.

Lemma wp_effect f Q m : I m → Q tt (f m) → wp I (effect f) Q m.
Proof. intros HI HQ. split; [by constructor|done]. Qed.

Lemma wp_machine Q m : Q m m → wp I machine Q m.
Proof. by split. Qed.

Lemma crash_wp_mono {A} (J : Machine → Prop) (p : Prog A) (Q R : A → Machine → Prop) m :
  (∀ m, J m → I m) → (∀ a m, Q a m → R a m) → wp J p Q m → wp I p R m.
Proof.
  intros HJ HQ. unfold wp. destruct (p m) as [a [m' past]]. intros [Hp Hq].
  split; [by eapply Forall_impl|by apply HQ].
Qed.

Lemma wp_crash {A} (p : Prog A) (Q : A → Machine → Prop) m :
  (∀ a m, Q a m → I m) → wp I p Q m → Forall I (crash_states p m) ∧ Q (result p m) (final p m).
Proof.
  unfold wp, crash_states, result, final. destruct (p m) as [a [m' past]]. intros HQ [Hp Hq].
  split; [|done]. apply Forall_app. split; [done|]. constructor; [by eapply HQ|done].
Qed.

(** A tool that writes the variables. *)
Lemma wp_env_tool f after Q m :
  I m →
  (∀ ok, f (m_env m) = (ok, m_env m) → Q ok m) →
  (∀ ok e', f (m_env m) = (ok, e') → Q ok (after (set_env e' m))) →
  wp I (env_tool f after) Q m.
Proof.
  intros HI H1 H2. unfold env_tool. apply crash_wp_bind, wp_machine.
  destruct (f (m_env m)) as [ok e'] eqn:Hf. apply crash_wp_bind. case_decide as He.
  - subst e'. apply crash_wp_ret, crash_wp_ret. auto.
  - apply wp_effect; [done|]. apply crash_wp_ret. eauto.
Qed.

End wp.

Ltac wp_step :=
  lazymatch goal with
  | |- wp _ (mret _) _ _ => apply crash_wp_ret
  | |- wp _ (_ ≫= _) _ _ => apply crash_wp_bind
  | |- wp _ machine _ _ => apply wp_machine
  | |- wp _ (if ?b then _ else _) _ _ => destruct b eqn:?
  end.

(** ** Effects that touch neither slots nor variables *)

Definition same_core (m m' : Machine) : Prop :=
  m_slots m' = m_slots m ∧ m_running m' = m_running m ∧ m_env m' = m_env m ∧ m_proven m' = m_proven m.

Definition quiet {A} (p : Prog A) : Prop := ∀ m, wp (same_core m) p (λ _, same_core m) m.

#[export] Instance same_core_equiv : PreOrder same_core.
Proof. split; [done|]. intros x y z (?&?&?&?) (?&?&?&?). repeat split; congruence. Qed.

Lemma quiet_ret {A} (a : A) : quiet (mret a).
Proof. intros m. by apply crash_wp_ret. Qed.

Lemma quiet_machine : quiet machine.
Proof. intros m. by apply wp_machine. Qed.

Lemma quiet_effect f : (∀ m, same_core m (f m)) → quiet (effect f).
Proof. intros Hf m. by apply wp_effect. Qed.

Lemma quiet_bind {A B} (p : Prog A) (k : A → Prog B) : quiet p → (∀ a, quiet (k a)) → quiet (p ≫= k).
Proof.
  intros Hp Hk m. apply crash_wp_bind. eapply crash_wp_mono; [done| |apply Hp].
  intros a m1 H1. eapply crash_wp_mono; [| |apply Hk]; intros; simpl in *; by etrans.
Qed.

Create HintDb quiet.
#[export] Hint Resolve quiet_ret quiet_machine quiet_bind : quiet.

Lemma quiet_report o st : quiet (report o st).
Proof. by apply quiet_effect. Qed.

Lemma quiet_last w r o : quiet (write_last_ota_result w r o).
Proof. unfold write_last_ota_result. destruct (w_state_dir w); [by apply quiet_effect|apply quiet_ret]. Qed.

#[export] Hint Resolve quiet_report quiet_last : quiet.

Lemma quiet_sweep w : quiet (sweep_legacy w).
Proof. apply quiet_bind; [apply quiet_machine|]. intros m. case_match; [by apply quiet_effect|apply quiet_ret]. Qed.

Lemma quiet_reboot w o : quiet (reboot_phase w o).
Proof. unfold reboot_phase. destruct (w_reboot w); auto with quiet. Qed.

Lemma quiet_download sha256 w o : quiet (download sha256 w o).
Proof.
  apply quiet_bind; [apply quiet_machine|]. intros m. cbv zeta.
  destruct (download_firmware_resumable _ _ _ _ _ _ _) as [[ok f']|[]].
  - apply quiet_bind; [by apply quiet_effect|auto with quiet].
  - apply quiet_bind; [|auto with quiet]. case_match; [by apply quiet_effect|apply quiet_ret].
Qed.

Lemma quiet_fetch sha256 w o : quiet (fetch sha256 w o).
Proof.
  apply quiet_bind; [apply quiet_machine|]. intros m. case_decide; [apply quiet_ret|].
  apply quiet_bind; [auto with quiet|]. intros _. apply quiet_bind; [apply quiet_download|].
  intros [[]|]; auto 6 with quiet.
Qed.

#[export] Hint Resolve quiet_sweep quiet_reboot quiet_fetch : quiet.

(** An invariant of slots and variables survives them. *)
Definition core_closed (I : Machine → Prop) : Prop := ∀ m m', same_core m m' → I m → I m'.

Lemma wp_quiet {A} I (p : Prog A) (Q : A → Machine → Prop) m :
  quiet p → core_closed I → I m → (∀ a m', same_core m m' → Q a m') → wp I p Q m.
Proof. intros Hp HI Hm HQ. eapply crash_wp_mono; [| |apply Hp]; [|done]. intros m' Hs. by eapply HI. Qed.

(** ** Effects on one slot *)

Lemma upd_eq {A} (f : Slot → A) s x : upd f s x s = x.
Proof. unfold upd. by rewrite decide_True. Qed.

Lemma upd_ne {A} (f : Slot → A) s t x : t ≠ s → upd f s x t = f t.
Proof. intros. unfold upd. by rewrite decide_False. Qed.

(** [writes t m m']: between [m] and [m'] only slot [t] was written, and it counts as
    proven only if it was not. *)
Definition writes (t : Slot) (m m' : Machine) : Prop :=
  m_running m' = m_running m ∧ m_env m' = m_env m ∧
  m_slots m' (other t) = m_slots m (other t) ∧ m_proven m' (other t) = m_proven m (other t) ∧
  (m_proven m' t = true → m_proven m t = true ∧ m_slots m' t = m_slots m t).

#[export] Instance writes_preorder t : PreOrder (writes t).
Proof.
  split; [by repeat split|]. intros x y z (? & ? & ? & ? & Hx) (? & ? & ? & ? & Hy).
  unfold writes. split_and!; try congruence. intros Hz. destruct (Hy Hz) as [Hz' ?].
  destruct (Hx Hz') as [? ?]. split; congruence.
Qed.

Lemma writes_set_slot t b m : writes t m (set_slot t b m).
Proof.
  unfold writes. simpl. rewrite upd_eq, !upd_ne by apply other_ne. by split_and!.
Qed.

Lemma wp_write_all t off c m0 m : writes t m0 m → wp (writes t m0) (write_all t off c) (λ _, writes t m0) m.
Proof.
  intros Hw. unfold write_all. wp_step. wp_step. destruct (ck_short c); wp_step;
    (apply wp_effect; [done|]); wp_step; (etrans; [exact Hw|apply writes_set_slot]).
Qed.

Lemma wp_write_chunks t cs e m0 : ∀ off since m,
  writes t m0 m → wp (writes t m0) (write_chunks t off since cs e) (λ _, writes t m0) m.
Proof.
  induction cs as [|c cs IH]; intros off since m Hw; simpl; [by wp_step|].
  case_decide; [by wp_step|]. wp_step. eapply crash_wp_mono; [done| |by apply wp_write_all].
  intros ok m1 H1. simpl. repeat first [wp_step | case_decide]; auto.
Qed.

Lemma wp_install w f t m : wp (writes t m) (install_to_slot w f t) (λ _, writes t m) m.
Proof.
  unfold install_to_slot. wp_step; [by wp_step|]. destruct f as [b|]; [|by wp_step].
  destruct (w_stream w b) as [cs e]. wp_step. eapply crash_wp_mono; [done| |by apply wp_write_chunks].
  intros ok m1 H1. by wp_step.
Qed.

Lemma wp_label relabel w t m0 m : writes t m0 m → wp (writes t m0) (set_slot_fs_label relabel w t) (λ _, writes t m0) m.
Proof.
  intros Hw. unfold set_slot_fs_label. do 2 wp_step. destruct (run_tool (w_label w)) as [ok applied].
  wp_step. wp_step; [|wp_step; by wp_step]. apply wp_effect; [done|]. wp_step. etrans; [exact Hw|apply writes_set_slot].
Qed.

(** [apply_update]: writes to the inactive slot, then possibly the variables. *)
Lemma wp_apply relabel (I : Machine → Prop) w name m :
  core_closed I → I m →
  (∀ t m', inactive_slot w = Some t → writes t m m' → I m') →
  (∀ t m', inactive_slot w = Some t → writes t m m' → I (set_env (pending_env t (m_env m)) m')) →
  wp I (apply_update relabel w name) (λ _, I) m.
Proof.
  intros Hcore HI Hw He. unfold apply_update. destruct (inactive_slot w) as [t|] eqn:Ht; [|by wp_step].
  wp_step; [by wp_step|]. wp_step. wp_step. wp_step.
  eapply crash_wp_mono; [| |apply wp_install]; [by eauto|]. intros ok m1 H1. simpl.
  wp_step; [wp_step; by eauto|]. wp_step.
  eapply crash_wp_mono; [| |apply wp_label, H1]; [by eauto|]. intros lab m2 H2. simpl.
  wp_step; [wp_step; by eauto|]. wp_step.
  assert (∀ armed m3, I m3 → wp I (if negb armed then mret (Some false)
    else (if w_state_dir w then effect (put_pending t) else mret tt);; mret (Some true)) (λ _, I) m3) as Hlast.
  { intros armed m3 H3. wp_step; [by wp_step|]. wp_step. wp_step; [|wp_step; by wp_step].
    apply wp_effect; [done|]. wp_step. by apply (Hcore m3). }
  apply wp_env_tool; [by eauto|..].
  - intros armed _. apply Hlast. eauto.
  - intros armed e' Hf. apply Hlast. simpl.
    assert (e' = m_env m2 ∨ e' = pending_env t (m_env m2)) as Hcase.
    { unfold set_upgrade_pending in Hf. destruct (w_bootloader w); [by eapply env_write_cases..|].
      injection Hf as <- <-. by left. }
    assert (m_env m2 = m_env m) as Henv by apply H2. destruct Hcase as [->| ->].
    + apply (Hcore m2); [by repeat split|by eapply Hw].
    + rewrite Henv. by eapply He.
Qed.

(** The whole cycle, from what it may do to the machine. *)
Section cycle.
Context (sha256 : Bytes → string) (relabel : Slot → Bytes → Bytes) (release : Bytes → string).
Context (I : Machine → Prop) (w : World).
Context (Hcore : core_closed I).

(** What the invariant must allow: writing the inactive slot and arming it, if the
    offer asks for an installation; committing and arming the rollback, if it asks
    for the verification of the version that runs. *)
Record allows (m : Machine) : Prop := {
  al_write o t m' : check_for_update w = Some o → o_status o ≠ "rebooting" → o_status o ≠ "verifying" →
    inactive_slot w = Some t → writes t m m' → I m';
  al_arm o t m' : check_for_update w = Some o → o_status o ≠ "rebooting" → o_status o ≠ "verifying" →
    inactive_slot w = Some t → writes t m m' → I (set_env (pending_env t (m_env m)) m');
  al_commit o : check_for_update w = Some o →
    release (m_slots m (m_running m)) = o_tag o →
    (m_env m !! "upgrade_available" = Some "1" ∨
     m_env m !! "upgrade_available" = Some "0" ∧ m_env m !! "bootcount" = Some "0") →
    (run_health_checks (w_health w) (bool_decide (m_env m !! "upgrade_available" = Some "1"))).1 = true →
    I (prove_running (set_env (committed_env (m_env m)) m));
  al_rollback limit : boot_limit (m_env m) = Some limit →
    I (set_env (<["bootcount" := pretty limit]> (m_env m)) m)
}.

Lemma allows_core m m' : same_core m m' → allows m → allows m'.
Proof.
  intros Hs [H1 H2 H3 H4]. pose proof Hs as (Hsl & Hr & He & Hp). split.
  - intros o t m2 Ho Hn1 Hn2 Ht Hw. eapply H1; [done..|]. unfold writes in *. by rewrite <-Hsl, <-Hr, <-He, <-Hp.
  - intros o t m2 Ho Hn1 Hn2 Ht Hw. rewrite He. eapply H2; [done..|]. unfold writes in *. by rewrite <-Hsl, <-Hr, <-He, <-Hp.
  - rewrite Hsl, Hr, He. intros o Ho Hv Hu Hh. eapply Hcore; [|by eapply H3]. repeat split; simpl; congruence.
  - rewrite He. intros limit Hl. eapply Hcore; [|by eapply H4]. repeat split; simpl; congruence.
Qed.

Lemma wp_commit o m :
  I m → I (prove_running (set_env (committed_env (m_env m)) m)) → wp I (commit_boot w o) (λ _, I) m.
Proof.
  intros HI Hc. unfold commit_boot. wp_step.
  assert (∀ ok m1, I m1 → wp I (if negb ok then mret false
    else effect (send (Commit (o_tag o)));; mret (bool_decide (w_commit_code w = Some 200))) (λ _, I) m1) as Hlast.
  { intros ok m1 H1. wp_step; [by wp_step|]. wp_step. apply wp_effect; [done|]. wp_step. by apply (Hcore m1). }
  unfold env_tool. do 2 wp_step. unfold commit_boot_local.
  destruct (w_bootloader w); [destruct (env_write _ _ _) as [ok e'] eqn:Hf; apply env_write_cases in Hf..|].
  3:{ wp_step. rewrite decide_True by done. do 2 wp_step. by apply Hlast. }
  all: wp_step; destruct (decide (e' = m_env m)); [wp_step; wp_step; by apply Hlast|].
  all: apply wp_effect; [done|]; wp_step; apply Hlast; destruct Hf as [->| ->]; done.
Qed.

Lemma wp_check o m gate :
  I m → allows m → check_for_update w = Some o → release (m_slots m (m_running m)) = o_tag o →
  (m_env m !! "upgrade_available" = Some "1" ∨
   m_env m !! "upgrade_available" = Some "0" ∧ m_env m !! "bootcount" = Some "0") →
  gate = bool_decide (m_env m !! "upgrade_available" = Some "1") →
  wp I (check_and_commit w o gate) (λ _, I) m.
Proof.
  intros HI Ha Ho Hv Hu ->. unfold check_and_commit.
  destruct (run_health_checks _ _) as [passed messages] eqn:Hh. wp_step.
  - wp_step. eapply crash_wp_mono; [done| |apply wp_commit; [done|]].
    + intros ok m1 H1. apply wp_quiet; [auto with quiet|done..|]. intros ? m2 Hs. by apply (Hcore m1).
    + eapply (al_commit _ Ha); eauto. by rewrite Hh.
  - wp_step. apply wp_quiet; [auto with quiet|done..|]. intros _ m1 H1.
    wp_step. apply wp_quiet; [auto with quiet|done|by apply (Hcore m)|]. intros _ m2 H2.
    assert (same_core m m2) as Hs by by etrans. pose proof (allows_core _ _ Hs Ha) as Ha2.
    assert (I m2) as HI2 by by apply (Hcore m).
    destruct (decide ((C_boot, V_fail) ∈ messages)); [|by wp_step]. unfold reboot_into_previous_slot. wp_step.
    apply wp_env_tool; [done| |].
    + intros ok _. by wp_step.
    + intros ok e' [-> |(limit & Hl & ->)]%arm_cases; wp_step; [by apply (Hcore m2)|]. by apply (al_rollback _ Ha2).
Qed.

Lemma wp_verify o m :
  I m → allows m → check_for_update w = Some o → wp I (verify_and_commit release w o) (λ _, I) m.
Proof.
  intros HI Ha Ho. unfold verify_and_commit. wp_step.
  apply wp_quiet; [auto with quiet|done..|]. intros _ m1 Hs. do 2 wp_step.
  assert (I m1) as HI1 by by apply (Hcore m). pose proof (allows_core _ _ Hs Ha) as Ha1.
  assert (∀ m2, same_core m1 m2 → I m2) as Hend by (intros; by apply (Hcore m1)).
  case_decide as Hv.
  { apply wp_quiet; [auto with quiet|done..|]. auto. }
  assert (∀ bl b k v, get_env bl b k (m_env m1) = Some v → m_env m1 !! k = Some v) as Hget.
  { intros [] []; by simpl. }
  assert (release (m_slots m1 (m_running m1)) = o_tag o) as Hv' by (apply dec_stable; tauto).
  case_decide as Hu.
  { apply Hget in Hu. apply wp_check; try done; [by left|by rewrite bool_decide_eq_true_2]. }
  case_decide as Hu0.
  { destruct Hu0 as [Hu0 Hc]. apply Hget in Hu0, Hc. apply wp_check; try done; [by right|].
    rewrite bool_decide_eq_false_2; congruence. }
  apply wp_quiet; [auto with quiet|done..|]. auto.
Qed.

Lemma wp_handle m : I m → allows m → wp I (handle_ota sha256 relabel release w) (λ _, I) m.
Proof.
  intros HI Ha. unfold handle_ota. destruct (check_for_update w) as [o|] eqn:Ho; [|by wp_step].
  case_decide; [by wp_step|]. case_decide as Hst; [by apply wp_verify|].
  wp_step. apply wp_quiet; [auto with quiet|done..|]. intros _ m1 H1. wp_step.
  assert (I m1) as HI1 by by apply (Hcore m).
  apply wp_quiet; [auto with quiet|done..|]. intros ok m2 H2.
  assert (same_core m m2) as Hs by by etrans. pose proof (allows_core _ _ Hs Ha) as Ha2.
  assert (I m2) as HI2 by by apply (Hcore m).
  wp_step; [|by wp_step]. unfold install_phase. wp_step.
  apply wp_quiet; [auto with quiet|done..|]. intros _ m3 H3.
  pose proof (allows_core _ _ H3 Ha2) as Ha3. assert (I m3) as HI3 by by apply (Hcore m2).
  wp_step. eapply crash_wp_mono; [done| |apply wp_apply; [done|done|..]].
  - intros r m4 H4. assert (∀ m5, same_core m4 m5 → I m5) as Hend by (intros; by apply (Hcore m4)).
    destruct r as [[]|]; apply wp_quiet; auto 6 with quiet.
  - intros t m' Ht Hw. eapply (al_write _ Ha3); eauto.
  - intros t m' Ht Hw. eapply (al_arm _ Ha3); eauto.
Qed.
End cycle.

(** ** What a cycle never touches *)

Definition active_slot (w : World) : option Slot :=
  get_active_slot (he_cmdline (w_health w)) (w_root_dev w) (w_part_dev w).

(** The probes see the slot that runs, or nothing. *)
Definition probe_sound (w : World) (m : Machine) : Prop :=
  active_slot w = None ∨ active_slot w = Some (m_running m).

Lemma inactive_other w m t : probe_sound w m → inactive_slot w = Some t → t = other (m_running m).
Proof.
  unfold probe_sound, active_slot, inactive_slot, get_inactive_slot. intros [->| ->]; [done|].
  simpl. by intros [= <-].
Qed.

Definition untouched (m m' : Machine) : Prop :=
  m_running m' = m_running m ∧ m_slots m' (m_running m) = m_slots m (m_running m) ∧
  ∀ s, m_proven m' s = true → m_slots m' s = m_slots m s.

Lemma untouched_core m : core_closed (untouched m).
Proof. intros m1 m2 (Hs & Hr & He & Hp). unfold untouched. by rewrite Hs, Hr, Hp. Qed.

Lemma untouched_writes m m' : writes (other (m_running m)) m m' → untouched m m'.
Proof.
  intros (Hr & He & Hs & Hp & Ht). rewrite other_other in Hs, Hp. split_and!; [done..|].
  intros s. destruct (decide (s = m_running m)) as [->|Hne]; [done|]. rewrite (ne_other _ _ Hne). naive_solver.
Qed.

Lemma untouched_allows release w m : probe_sound w m → allows release (untouched m) w m.
Proof.
  intros Hp. split.
  - intros o t m' _ _ _ Ht Hw. rewrite (inactive_other _ _ _ Hp Ht) in Hw. by apply untouched_writes.
  - intros o t m' _ _ _ Ht Hw. rewrite (inactive_other _ _ _ Hp Ht) in Hw. by apply (untouched_writes m m').
  - done.
  - done.
Qed.

(** Whatever the server offers, whatever fails and wherever the power goes
    away, an update cycle never writes to the slot the station runs from and
    never switches the slot under it; and a slot that still counts as proven
    holds exactly the bytes it held before.  The station only has to tell its
    slot correctly or not at all. *)
Lemma cycle_keeps_running_slot sha256 relabel release w m m' :
  probe_sound w m →
  m' ∈ crash_states (handle_ota sha256 relabel release w) m →
  m_running m' = m_running m ∧ m_slots m' (m_running m) = m_slots m (m_running m) ∧
  ∀ s, m_proven m' s = true → m_slots m' s = m_slots m s.
Proof.
  intros Hp Hin. destruct (wp_crash (untouched m) (handle_ota sha256 relabel release w) (λ _, untouched m) m)
    as [Hall _]; [done| |by eapply list.Forall_forall in Hall].
  apply wp_handle; [apply untouched_core|done|by apply untouched_allows].
Qed.

(** ** The A/B discipline *)

Section ab.
Context `{BootScriptLaws}.
Context (sha256 : Bytes → string) (relabel : Slot → Bytes → Bytes) (release : Bytes → string).

(** Outside a trial the station runs the slot it will boot, and that slot is proven. *)
Definition settled (part : Slot) (m : Machine) : Prop :=
  m_env m !! "boot_part" = Some (slot_name part) ∧ m_env m !! "upgrade_available" ≠ Some "1" ∧
  m_running m = part ∧ m_proven m part = true.

(** In a trial of [part] the other slot is proven. *)
Definition trial (part : Slot) (limit n : Z) (m : Machine) : Prop :=
  m_env m !! "boot_part" = Some (slot_name part) ∧ m_env m !! "upgrade_available" = Some "1" ∧
  number (default "" (m_env m !! "bootcount")) = Some n ∧ 0 ≤ n ≤ limit ∧ m_proven m (other part) = true.

Definition Inv (limit : Z) (m : Machine) : Prop :=
  boot_limit (m_env m) = Some limit ∧ ∃ part, settled part m ∨ ∃ n, trial part limit n m.

(** The station runs the slot that is on trial. *)
Definition on_trial (m : Machine) : Prop :=
  m_env m !! "upgrade_available" = Some "1" ∧ m_env m !! "boot_part" = Some (slot_name (m_running m)).

(** The discipline: no installation is offered to a station on trial, and a
    verification while the old slot still runs names another version. *)
Definition disciplined (w : World) (m : Machine) : Prop :=
  probe_sound w m ∧ ∀ o, check_for_update w = Some o →
  (o_status o ≠ "rebooting" → o_status o ≠ "verifying" → ~ on_trial m) ∧
  (m_env m !! "upgrade_available" = Some "1" → ~ on_trial m → release (m_slots m (m_running m)) ≠ o_tag o).

(** Cycles that end, cycles cut by a power loss, and boots. *)
Inductive ab_step : Machine → Machine → Prop :=
| ab_cycle m w : disciplined w m → ab_step m (final (handle_ota sha256 relabel release w) m)
| ab_crash m w m' fs : disciplined w m → m' ∈ crash_states (handle_ota sha256 relabel release w) m →
    ab_step m (power fs m')
| ab_power m fs : ab_step m (power fs m).

Lemma Inv_core limit : core_closed (Inv limit).
Proof. intros m m' (_ & Hr & He & Hp). unfold Inv, settled, trial. by rewrite Hr, He, Hp. Qed.

(** Off trial the slot that runs is the one to protect. *)
Lemma Inv_running limit m : Inv limit m → ~ on_trial m →
  m_proven m (m_running m) = true ∧
  (m_env m !! "upgrade_available" ≠ Some "1" ∧ m_env m !! "boot_part" = Some (slot_name (m_running m)) ∨
   m_env m !! "boot_part" = Some (slot_name (other (m_running m))) ∧ ∃ n, trial (other (m_running m)) limit n m).
Proof.
  intros (Hl & part & [(Hb & Hu & -> & Hp)|(n & Ht)]) Hn; [by eauto|].
  pose proof Ht as (Hb & Hu & Hc & Hr & Hp).
  assert (m_running m = other part) as Hrun.
  { apply ne_other. intros Heq. apply Hn. split; [done|]. by rewrite Heq. }
  rewrite Hrun, other_other. eauto 10.
Qed.

Lemma Inv_writes limit m m' :
  Inv limit m → ~ on_trial m → writes (other (m_running m)) m m' → Inv limit m'.
Proof.
  intros HI Hn (Hr & He & Hs & Hp & _). rewrite other_other in Hp. pose proof HI as [Hl _].
  destruct (Inv_running limit m HI Hn) as [Hpr [[Hu Hb]|[Hb (n & Ht)]]]; (split; [by rewrite He|]).
  - exists (m_running m). left. unfold settled. by rewrite He, Hr, Hp.
  - exists (other (m_running m)). right. exists n. unfold trial in *. rewrite He, other_other, Hp.
    naive_solver.
Qed.

Lemma number_zero : number "0" = Some 0.
Proof. reflexivity. Qed.

Lemma Inv_arm limit m m' :
  Inv limit m → ~ on_trial m → writes (other (m_running m)) m m' →
  Inv limit (set_env (pending_env (other (m_running m)) (m_env m)) m').
Proof.
  intros HI Hn (_ & He & _ & Hp & _). rewrite other_other in Hp. pose proof HI as [Hl _].
  destruct (Inv_running limit m HI Hn) as [Hpr _]. pose proof (boot_limit_range _ _ Hl).
  split; simpl.
  - unfold pending_env. by rewrite !boot_limit_insert.
  - exists (other (m_running m)). right. exists 0. unfold trial, pending_env. simpl. rewrite other_other, Hp.
    rewrite lookup_insert_eq, !(lookup_insert_ne _ "boot_part"), lookup_insert_eq, lookup_insert_ne, lookup_insert_eq by done.
    split_and!; try done; lia.
Qed.

Lemma Inv_commit limit m :
  Inv limit m → (m_env m !! "upgrade_available" = Some "1" → on_trial m) →
  Inv limit (prove_running (set_env (committed_env (m_env m)) m)).
Proof.
  intros [Hl (part & Hcase)] Ht. split; simpl.
  { unfold committed_env. by rewrite !boot_limit_insert. }
  exists (m_running m). left. unfold settled, committed_env. simpl. rewrite upd_eq.
  rewrite !(lookup_insert_ne _ "bootcount"), lookup_insert_eq, lookup_insert_ne by done.
  split_and!; try done. destruct Hcase as [(Hb & _ & <- & _)|(n & _ & Hu & _)]; [done|]. apply Ht, Hu.
Qed.

Lemma Inv_rollback limit m :
  Inv limit m → Inv limit (set_env (<["bootcount" := pretty limit]> (m_env m)) m).
Proof.
  intros [Hl (part & Hcase)]. pose proof (boot_limit_range _ _ Hl). split; simpl; [by rewrite boot_limit_insert|].
  exists part. destruct Hcase as [(? & ? & ? & ?)|(n & ? & ? & ? & ? & ?)]; [left|right; exists limit];
    unfold settled, trial; simpl; rewrite ?lookup_insert_eq, !(lookup_insert_ne _ "bootcount") by done.
  - done.
  - split_and!; try done; [apply number_pretty; lia|lia..].
Qed.

Lemma Inv_allows limit w m : Inv limit m → disciplined w m → allows release (Inv limit) w m.
Proof.
  intros HI [Hp Hd]. split.
  - intros o t m' Ho H1 H2 Ht Hw. rewrite (inactive_other _ _ _ Hp Ht) in Hw.
    destruct (Hd o Ho) as [Hn _]. by eapply Inv_writes; eauto.
  - intros o t m' Ho H1 H2 Ht Hw. rewrite (inactive_other _ _ _ Hp Ht) in Hw |- *.
    destruct (Hd o Ho) as [Hn _]. by eapply Inv_arm; eauto.
  - intros o Ho Hv _ _. apply Inv_commit; [done|]. intros Hu. destruct (Hd o Ho) as [_ Hr].
    destruct (decide (m_env m !! "boot_part" = Some (slot_name (m_running m)))) as [Hb|Hb]; [done|].
    exfalso. apply Hr; [done| |done]. by intros [_ ?].
  - intros limit' Hl. pose proof HI as [Hl' _]. assert (limit' = limit) as -> by congruence. by apply Inv_rollback.
Qed.

Lemma Inv_power limit fs m : Inv limit m → Inv limit (power fs m).
Proof.
  intros [Hl (part & Hcase)]. unfold power.
  destruct Hcase as [(Hb & Hu & Hr & Hp)|(n & Hb & Hu & Hn & Hr & Hp)].
  - destruct (boot_committed _ _ Hb Hu) as [c ->]. split; simpl; [by rewrite boot_limit_insert|].
    exists part. left. unfold settled. simpl. by rewrite !lookup_insert_ne.
  - destruct (boot_trial _ _ _ _ Hb Hu Hl Hn Hr) as (n' & Hlt & ->). unfold next_boot. case_decide.
    + split; simpl; [by rewrite !boot_limit_insert|]. exists (other part). left. unfold settled. simpl.
      rewrite lookup_insert_eq, lookup_insert_ne, lookup_insert_eq by done. done.
    + split; simpl; [by rewrite boot_limit_insert|]. exists part. right. exists n'. unfold trial. simpl.
      rewrite !(lookup_insert_ne _ "bootcount"), lookup_insert_eq by done. simpl.
      split_and!; try done; [apply number_pretty; lia|lia..].
Qed.

Lemma Inv_step limit m m' : Inv limit m → ab_step m m' → Inv limit m'.
Proof.
  assert (∀ m w, Inv limit m → disciplined w m →
    Forall (Inv limit) (crash_states (handle_ota sha256 relabel release w) m) ∧
    Inv limit (final (handle_ota sha256 relabel release w) m)) as Hcycle.
  { intros m0 w HI Hd. apply (wp_crash _ _ (λ _, Inv limit)); [done|].
    apply wp_handle; [apply Inv_core|done|by apply Inv_allows]. }
  intros HI Hstep. revert HI. destruct Hstep as [m0 w Hd|m0 w m1 fs Hd Hin|m0 fs]; intros HI;
    [by apply Hcycle| |by apply Inv_power].
  apply Inv_power. destruct (Hcycle m0 w HI Hd) as [Hall _]. by eapply list.Forall_forall in Hall.
Qed.

(** The boots a trial has left. *)
Lemma trial_ends limit part n m :
  boot_limit (m_env m) = Some limit → trial part limit n m →
  ∃ k, (k ≤ Z.to_nat (limit - n) + 1)%nat ∧ m_running (power_cycles k m) = other part ∧
    m_proven (power_cycles k m) = m_proven m ∧ m_slots (power_cycles k m) = m_slots m.
Proof.
  remember (Z.to_nat (limit - n)) as j eqn:Hj. revert n m Hj. induction (lt_wf j) as [j _ IH].
  intros n m Hj Hl (Hb & Hu & Hn & Hr & Hp).
  destruct (boot_trial _ _ _ _ Hb Hu Hl Hn Hr) as (n' & Hlt & Hboot). unfold next_boot in Hboot. case_decide.
  - exists 1%nat. split; [lia|]. simpl. unfold power. rewrite Hboot. done.
  - destruct (IH (Z.to_nat (limit - n')) ltac:(lia) n' (power (m_files m) m)) as (k & Hk & Hk'); [done|..].
    + unfold power. rewrite Hboot. simpl. by rewrite boot_limit_insert.
    + unfold power, trial. rewrite Hboot. simpl.
      rewrite !(lookup_insert_ne _ "bootcount"), lookup_insert_eq by done. simpl.
      split_and!; try done; [apply number_pretty; lia|lia..].
    + exists (S k). split; [lia|]. simpl. unfold power in Hk' |- *. by rewrite Hboot in Hk' |- *.
Qed.

End ab.

(** C2. The A/B update is safe.  Start from a station that runs a proven slot and let
    it go through any sequence of update cycles, cycles cut by a power loss after
    any effect, and reboots, with every tool, request and file failing at will.
    If no installation is offered while the station runs an uncommitted trial,
    and no verification of the version of the old slot while a trial waits for its
    first boot, then at every moment: off trial the station runs a proven slot;
    and after at most [bootlimit + 1] boots without any help of the agent it runs
    a slot that was committed and not written since. *)
Theorem ab_safe `{BootScriptLaws} sha256 relabel release part limit m0 m :
  boot_limit (m_env m0) = Some limit → settled part m0 →
  rtc (ab_step sha256 relabel release) m0 m →
  (~ on_trial m → m_proven m (m_running m) = true) ∧
  ∃ k, (k ≤ Z.to_nat limit + 1)%nat ∧
    m_proven (power_cycles k m) (m_running (power_cycles k m)) = true ∧
    m_slots (power_cycles k m) = m_slots m.
Proof.
  intros Hl Hs Hsteps. assert (Inv limit m) as HI.
  { assert (Inv limit m0) as Hstart by (split; [done|]; eauto). clear Hl Hs part. induction Hsteps; [done|].
    eauto using Inv_step. }
  split; [intros Hn; by eapply Inv_running|].
  destruct HI as [Hlim (p & [(_ & _ & Hr & Hp)|(n & Ht)])].
  - exists 0%nat. simpl. split_and!; [lia|by rewrite Hr|done].
  - pose proof Ht as (_ & _ & _ & Hrange & Hp).
    destruct (trial_ends limit p n m Hlim Ht) as (k & Hk & Hrun & Hpr & Hsl).
    exists k. rewrite Hrun, Hpr. split_and!; [lia|done|done].
Qed.

(** ** What a trial boots *)

Section image.
Context (sha256 : Bytes → string) (relabel : Slot → Bytes → Bytes) (release : Bytes → string).
Context (bunzip2 : Bytes → Bytes).

(** The decompressor hands out the whole image and no empty block before its end. *)
Definition stream_ok (w : World) : Prop := ∀ b cs e, w_stream w b = (cs, e) →
  Forall (λ c, ck_data c ≠ []) cs ∧ (e = End_of_stream → mjoin (ck_data <$> cs) = bunzip2 b).

Lemma overlay_app off d d2 old :
  (off ≤ length old)%nat → overlay (off + length d) d2 (overlay off d old) = overlay off (d ++ d2) old.
Proof.
  intros Hoff. unfold overlay.
  assert (length (take off old) = off) as Hlen by (rewrite length_take; lia).
  rewrite !app_assoc, (take_app_length' (take off old ++ d)) by (rewrite length_app; lia).
  rewrite drop_app_ge, drop_drop, <-app_assoc by (rewrite length_app; lia).
  rewrite <-!app_assoc. do 4 f_equal. rewrite !length_app. lia.
Qed.

Lemma length_overlay off d old : (off ≤ length old)%nat → (off + length d ≤ length (overlay off d old))%nat.
Proof. intros. unfold overlay. rewrite !length_app, length_take. lia. Qed.

Lemma overlay_nil off old : overlay off [] old = old.
Proof. unfold overlay. simpl. by rewrite Nat.add_0_r, take_drop. Qed.

Definition same_env (e : Env) (m : Machine) : Prop := m_env m = e.

Lemma wp_chunks_image t cs e env : ∀ off since m,
  Forall (λ c, ck_data c ≠ []) cs → m_env m = env → (off ≤ length (m_slots m t))%nat →
  wp (same_env env) (write_chunks t off since cs e)
    (λ ok m', m_env m' = env ∧ (ok = true → e = End_of_stream ∧
       m_slots m' t = overlay off (mjoin (ck_data <$> cs)) (m_slots m t))) m.
Proof.
  induction cs as [|c cs IH]; intros off since m Hne He Hoff; simpl.
  { wp_step. split; [done|]. rewrite overlay_nil. by destruct e. }
  inversion_clear Hne as [|? ? Hc Hcs]. rewrite decide_False by done. wp_step. unfold write_all.
  do 2 wp_step. destruct (ck_short c) as [k|]; wp_step; (apply wp_effect; [done|]); wp_step; simpl.
  { wp_step. done. }
  assert (∀ since', wp (same_env env) (write_chunks t (off + length (ck_data c)) since' cs e)
    (λ ok m', m_env m' = env ∧ (ok = true → e = End_of_stream ∧
      m_slots m' t = overlay off (ck_data c ++ mjoin (ck_data <$> cs)) (m_slots m t)))
    (set_slot t (overlay off (ck_data c) (m_slots m t)) m)) as Hrec.
  { intros since'. eapply crash_wp_mono; [done| |apply IH]; [|done|done|].
    - intros ok m' [He' Hok]. split; [done|]. intros Ht. destruct (Hok Ht) as [? ->]. split; [done|].
      simpl. rewrite upd_eq. by apply overlay_app.
    - simpl. rewrite upd_eq. by apply length_overlay. }
  case_decide; [|apply Hrec]. wp_step; [apply Hrec|by wp_step].
Qed.

(** The slot holds the image [b] packs, or that image with its label set. *)
Definition holds (t : Slot) (b old : Bytes) (m : Machine) : Prop :=
  m_slots m t = overlay 0 (bunzip2 b) old ∨ m_slots m t = relabel t (overlay 0 (bunzip2 b) old).

(** Armed only with an image of the right digest on the slot. *)
Definition armed_ok (w : World) (checksum : string) (m0 m : Machine) : Prop :=
  m_env m = m_env m0 ∨ ∃ t b, inactive_slot w = Some t ∧ m_env m = pending_env t (m_env m0) ∧
    sha256 b = checksum ∧ holds t b (m_slots m0 t) m.

Lemma armed_ok_core w checksum m0 : core_closed (armed_ok w checksum m0).
Proof. intros m m' (Hs & _ & He & _). unfold armed_ok, holds. by rewrite Hs, He. Qed.

Lemma wp_apply_image w name b m :
  stream_ok w → m_files m !! name = Some b →
  wp (armed_ok w (sha256 b) m) (apply_update relabel w name) (λ _, armed_ok w (sha256 b) m) m.
Proof.
  intros Hst Hf. unfold apply_update. destruct (inactive_slot w) as [t|] eqn:Ht; [|wp_step; by left].
  wp_step; [wp_step; by left|]. do 3 wp_step. rewrite Hf. unfold install_to_slot.
  wp_step; [wp_step; simpl; wp_step; by left|]. destruct (w_stream w b) as [cs e] eqn:Hs.
  destruct (Hst _ _ _ Hs) as [Hne Hall]. wp_step.
  eapply crash_wp_mono; [| |apply (wp_chunks_image t cs e (m_env m)); [done|done|lia]].
  { intros m1 H1. by left. }
  intros ok m1 [He1 Hok]. wp_step. wp_step; [wp_step; by left|].
  assert (ok = true) as -> by (by destruct ok). destruct (Hok eq_refl) as [-> Himg]. rewrite Hall in Himg by done.
  wp_step. unfold set_slot_fs_label. do 2 wp_step. destruct (run_tool (w_label w)) as [lab applied].
  assert (∀ m2, m_env m2 = m_env m → holds t b (m_slots m t) m2 →
    wp (armed_ok w (sha256 b) m) (if negb lab && bool_decide (w_bootloader w = Grub) then mret (Some false)
      else armed ← env_tool (set_upgrade_pending (w_bootloader w) (w_arm w) t) id;
        if negb armed then mret (Some false)
        else (if w_state_dir w then effect (put_pending t) else mret tt);; mret (Some true))
      (λ _, armed_ok w (sha256 b) m) m2) as Hrest.
  { intros m2 He2 Hh2. destruct (negb lab && _); [wp_step; by left|]. wp_step.
    assert (∀ armed m3, armed_ok w (sha256 b) m m3 →
      wp (armed_ok w (sha256 b) m) (if negb armed then mret (Some false)
        else (if w_state_dir w then effect (put_pending t) else mret tt);; mret (Some true))
      (λ _, armed_ok w (sha256 b) m) m3) as Hlast.
    { intros armed m3 H3. wp_step; [by wp_step|]. wp_step. wp_step; [|wp_step; by wp_step].
      apply wp_effect; [done|]. by wp_step. }
    apply wp_env_tool; [by left|..]; [intros; apply Hlast; by left|].
    intros armed e' Hset. apply Hlast.
    assert (e' = m_env m2 ∨ e' = pending_env t (m_env m2)) as [-> | ->].
    { unfold set_upgrade_pending in Hset. destruct (w_bootloader w); [by eapply env_write_cases..|].
      injection Hset as <- <-. by left. }
    - left. done.
    - right. exists t, b. simpl. by rewrite He2. }
  wp_step. wp_step; [apply wp_effect; [by left|]; wp_step|do 2 wp_step]; apply Hrest; try done; [right|left]; simpl;
    rewrite ?upd_eq, Himg; done.
Qed.

(** The file a fetch that succeeds leaves behind, outside a resumed installation. *)
Lemma wp_fetch w o m :
  o_checksum o ≠ "" → o_status o ≠ "installing" →
  wp (same_core m) (fetch sha256 w o)
    (λ ok m', same_core m m' ∧
      (ok = true → ∃ b, m_files m' !! dest_name (o_tag o) = Some b ∧ sha256 b = o_checksum o)) m.
Proof.
  intros Hc Hi. unfold fetch. do 2 wp_step. rewrite decide_False by tauto. wp_step.
  apply wp_effect; [done|]. wp_step. unfold download. do 2 wp_step. cbv zeta. simpl m_files.
  destruct (download_firmware_resumable _ _ _ _ _ _ _) as [[ok f']|[]] eqn:Hd.
  - wp_step. apply wp_effect; [done|]. do 1 wp_step. destruct ok.
    + wp_step. split; [done|]. intros _.
      destruct (download_true _ _ _ _ _ _ _ _ Hc Hd) as (b & -> & Hb). exists b.
      split; [|done]. simpl. by rewrite lookup_insert_eq.
    + wp_step. apply wp_effect; [done|]. wp_step. apply wp_quiet; [auto with quiet| |done|].
      { intros m1 m2 ? ?. by etrans. }
      intros _ m2 H2. wp_step. split; [|done]. etrans; [|exact H2]. done.
  - wp_step. wp_step; [apply wp_effect; [done|]; do 2 wp_step|do 3 wp_step]; (split; [done|done]).
Qed.

End image.

(** C17. What a trial boots.  In an update cycle that starts with a download, at every
    moment (so also after a power loss at any point) the variables are either
    those from before the cycle or say to try the inactive slot; and in the second
    case that slot starts with the whole image packed in a file that has the digest
    the server named, up to the file system label set on it. *)
Theorem armed_slot_holds_image sha256 relabel release bunzip2 w o m m' :
  stream_ok bunzip2 w → check_for_update w = Some o → o_checksum o ≠ "" →
  o_status o ∉ ["rebooting"; "verifying"; "installing"] →
  m' ∈ crash_states (handle_ota sha256 relabel release w) m →
  m_env m' = m_env m ∨ ∃ t b, inactive_slot w = Some t ∧ m_env m' = pending_env t (m_env m) ∧
    sha256 b = o_checksum o ∧
    (m_slots m' t = overlay 0 (bunzip2 b) (m_slots m t) ∨
     m_slots m' t = relabel t (overlay 0 (bunzip2 b) (m_slots m t))).
Proof.
  intros Hst Ho Hc Hs Hin.
  set (I := armed_ok sha256 relabel bunzip2 w (o_checksum o) m).
  assert (core_closed I) as Hcore by apply armed_ok_core. assert (I m) as HIm by by left.
  destruct (wp_crash I (handle_ota sha256 relabel release w) (λ _, I) m) as [Hall _]; [done| |].
  2:{ by eapply list.Forall_forall in Hall. }
  rewrite !not_elem_of_cons in Hs. unfold handle_ota. rewrite Ho. case_decide; [by wp_step|].
  rewrite decide_False by naive_solver. wp_step.
  apply wp_quiet; [auto with quiet|done..|]. intros _ m1 H1. wp_step.
  assert (∀ m2, same_core m1 m2 → I m2) as Hsame.
  { intros m2 H2. left. destruct H1 as (_ & _ & <- & _). apply H2. }
  eapply crash_wp_mono; [exact Hsame| |apply wp_fetch; naive_solver].
  intros ok m2 [H2 Hok]. simpl. wp_step; [|wp_step; by apply Hsame].
  destruct (Hok eq_refl) as (b & Hf & Hb). unfold install_phase. wp_step. apply wp_effect; [by apply Hsame|].
  wp_step. assert (same_core m (send (Status (o_pk o) "installing") m2)) as Hm3.
  { etrans; [exact H1|]. etrans; [exact H2|]. done. }
  remember (send (Status (o_pk o) "installing") m2) as m3 eqn:Heq.
  assert (∀ m4, armed_ok sha256 relabel bunzip2 w (sha256 b) m3 m4 → I m4) as Hback.
  { destruct Hm3 as (Hs3 & _ & He3 & _). intros m4. unfold I, armed_ok. rewrite He3, Hs3, Hb. done. }
  eapply crash_wp_mono; [exact Hback| |apply wp_apply_image; [done|by rewrite Heq]].
  intros r m4 H4%Hback. assert (∀ m5, same_core m4 m5 → I m5) as Hend by (intros; by apply (Hcore m4)).
  destruct r as [[]|]; apply wp_quiet; auto 6 with quiet.
Qed.

(** ** A small station *)

Module Small.

Definition sha (b : Bytes) : string := pretty (length b).
Definition label (_ : Slot) (b : Bytes) : Bytes := b.

(** The release tag is in the first byte. *)
Definition release_tag (b : Bytes) : string :=
  match b with Byte.x61 :: _ => "v1" | Byte.x62 :: _ => "v2" | _ => "" end.

(** "Packed" images are the images, read in blocks of one byte. *)
Definition stream (b : Bytes) : list Chunk * ReadEnd := ((λ x, mkChunk [x] None true) <$> b, End_of_stream).

Definition cmdline (s : Slot) : CmdlineRead :=
  Read (txt "quiet root=PARTLABEL=root_" ++ txt (slot_name s) ++ txt " rw").

Definition world (s : Slot) (o : option Offer) : World :=
  mkWorld Uboot (Some (200, o)) all_fine
    (λ _, Some (mkHttpResp 200 "" [Byte.x62; Byte.x62; Byte.x62] StreamEOF)) (λ _, None)
    None (λ _, None) true true stream true T_ok T_ok true Rb_shutdown true true true
    (mkHealth (Some V_ok) V_ok V_ok (cmdline s)) T_ok (Some 200) T_ok.

Definition offer (tag status : string) : Offer := mkOffer 7 "/firmware" tag "3" 0 status.

Definition env (part upgrade count : string) : Env :=
  <["boot_part" := part]> (<["upgrade_available" := upgrade]> {[ "bootcount" := count ]}).

(** Slot a runs a committed v1; slot b is empty. *)
Definition start : Machine :=
  mkMachine (λ s, match s with SlotA => [Byte.x61; Byte.x61; Byte.x61] | SlotB => [Byte.x00; Byte.x00; Byte.x00] end)
    SlotA (env "a" "0" "1") ∅ None None [] (λ s, bool_decide (s = SlotA)).

Notation ota := (handle_ota sha label release_tag).

(** An update from v1 to v2: installed, booted, verified. *)
Definition installed : Machine := final (ota (world SlotA (Some (offer "v2" "pending")))) start.
Definition booted : Machine := @power decimal_boot ∅ installed.
Definition verified : Machine := final (ota (world SlotB (Some (offer "v2" "rebooting")))) booted.

Example update_runs :
  m_env installed = env "b" "1" "0" ∧ m_running booted = SlotB ∧
  m_env verified = env "b" "0" "0" ∧ m_proven verified SlotB = true ∧
  m_slots verified SlotB = [Byte.x62; Byte.x62; Byte.x62] ∧ m_last verified = Some ("success", "v2") ∧
  m_sent verified = [Commit "v2"; Status 7 "verifying"; Status 7 "rebooting"; Status 7 "installing"; Status 7 "downloading"].
Proof. split_and!; vm_compute; reflexivity. Qed.

End Small.

Lemma cycle_keeps_running_slot_witness :
  m_slots Small.installed SlotA = [Byte.x61; Byte.x61; Byte.x61].
Proof.
  destruct (cycle_keeps_running_slot Small.sha Small.label Small.release_tag
    (Small.world SlotA (Some (Small.offer "v2" "pending"))) Small.start Small.installed) as (_ & Hs & _).
  - right. vm_compute. reflexivity.
  - unfold crash_states, Small.installed, final. destruct (handle_ota _ _ _ _ _) as [a [m' past]].
    apply elem_of_app. right. apply list_elem_of_singleton. reflexivity.
  - exact Hs.
Defined.

Lemma armed_slot_holds_image_witness :
  ∃ t b, m_env Small.installed = pending_env t (m_env Small.start) ∧ Small.sha b = "3" ∧
    m_slots Small.installed t = overlay 0 b (m_slots Small.start t).
Proof.
  destruct (armed_slot_holds_image Small.sha Small.label Small.release_tag id
    (Small.world SlotA (Some (Small.offer "v2" "pending"))) (Small.offer "v2" "pending") Small.start Small.installed)
    as [He|(t & b & _ & He & Hb & Hs)].
  - intros b cs e [= <- <-]. split.
    + apply Forall_fmap, Forall_true. done.
    + intros _. induction b as [|x b IH]; [done|]. exact (f_equal (cons x) IH).
  - reflexivity.
  - discriminate.
  - apply (bool_decide_eq_true_1 _). vm_compute. reflexivity.
  - unfold crash_states, Small.installed, final. destruct (handle_ota _ _ _ _ _) as [a [m' past]].
    apply elem_of_app. right. apply list_elem_of_singleton. reflexivity.
  - apply (f_equal (λ e : Env, e !! "boot_part")) in He. vm_compute in He. discriminate He.
  - exists t, b. split_and!; [exact He|exact Hb|]. by destruct Hs.
Defined.

Lemma ab_safe_witness :
  ∃ k, (k ≤ 4)%nat ∧
    let m := @power_cycles decimal_boot k Small.booted in
    m_proven m (m_running m) = true ∧ m_slots m = m_slots Small.booted.
Proof.
  destruct (@ab_safe decimal_boot decimal_boot_laws Small.sha Small.label Small.release_tag SlotA 3 Small.start Small.booted)
    as [_ (k & Hk & Hp & Hs)].
  - reflexivity.
  - unfold settled. split_and!; vm_compute; [reflexivity|discriminate|reflexivity..].
  - eapply rtc_l; [|apply rtc_once, ab_power].
    apply (ab_cycle _ _ _ Small.start (Small.world SlotA (Some (Small.offer "v2" "pending")))).
    split; [right; vm_compute; reflexivity|]. intros o [= <-]. split; [intros _ _ [Hu _]|intros Hu]; vm_compute in Hu; discriminate Hu.
  - exists k. split; [exact Hk|]. split; [exact Hp|exact Hs].
Defined.

(** ** What the discipline is for *)

(** A station whose trial of slot b failed a check that is not a boot marker: it
    reported [rolled_back] and keeps running slot b with the trial open. *)
Definition unhealthy : Machine :=
  final (Small.ota (mkWorld Uboot (Some (200, Some (Small.offer "v2" "rebooting"))) all_fine (λ _, None) (λ _, None)
    None (λ _, None) true true Small.stream true T_ok T_ok true Rb_shutdown true true true
    (mkHealth (Some V_fail) V_ok V_ok (Small.cmdline SlotB)) T_ok (Some 200) T_ok)) Small.booted.

(** Another offer is then installed over slot a, the only proven image: when the
    power goes away after the first block, no slot holds a committed image any
    more, and the boot script's rollback boots the torn slot a. *)
Example install_over_the_fallback :
  m_sent unhealthy !! 0%nat = Some (Status 7 "rolled_back") ∧ on_trial unhealthy ∧ m_proven unhealthy SlotA = true ∧
  ∃ m, m ∈ crash_states (Small.ota (Small.world SlotB (Some (Small.offer "v1" "pending")))) unhealthy ∧
    m_slots m SlotA = [Byte.x62; Byte.x61; Byte.x61] ∧ m_proven m SlotA = false ∧ m_proven m SlotB = false ∧
    m_running (@power_cycles decimal_boot 3 m) = SlotA ∧
    m_env (@power_cycles decimal_boot 3 m) !! "upgrade_available" = Some "0".
Proof.
  split_and!; [reflexivity|split; vm_compute; reflexivity|reflexivity|].
  destruct (crash_states (Small.ota (Small.world SlotB (Some (Small.offer "v1" "pending")))) unhealthy !! 5%nat) as [m|] eqn:Hm;
    [|vm_compute in Hm; discriminate Hm].
  exists m. split; [by eapply list_elem_of_lookup_2|]. vm_compute in Hm. injection Hm as <-. by vm_compute.
Qed.

(** A deployment of the version that already runs: slot b was written with v1 and
    armed, the reboot and the report about it failed, so the server still says
    [rebooting].  The next cycle verifies the old slot a and commits slot b, which
    never booted: the next boot runs it without a way back. *)
Definition waiting_trial : Machine :=
  mkMachine (λ s, match s with SlotA => [Byte.x61; Byte.x61] | SlotB => [Byte.x61; Byte.x00] end)
    SlotA (Small.env "b" "1" "0") ∅ (Some SlotB) None [] (λ s, bool_decide (s = SlotA)).

Example commit_of_a_slot_never_booted :
  let m := final (Small.ota (Small.world SlotA (Some (Small.offer "v1" "rebooting")))) waiting_trial in
  m_sent m !! 0%nat = Some (Commit "v1") ∧ m_env m = Small.env "b" "0" "0" ∧ m_proven m SlotB = false ∧
  m_running (@power_cycles decimal_boot 1 m) = SlotB ∧ m_running (@power_cycles decimal_boot 9 m) = SlotB.
Proof. split_and!; vm_compute; reflexivity. Qed.

(** A trial the boot script gave back is reported, but the outcome file keeps what
    an earlier update left there. *)
Example rollback_keeps_the_old_outcome :
  let back := mkMachine (m_slots Small.verified) SlotB (Small.env "b" "0" "1") ∅ None (Some ("success", "v2")) []
    (m_proven Small.verified) in
  let m := final (Small.ota (Small.world SlotB (Some (Small.offer "v2" "rebooting")))) back in
  m_sent m = [Status 7 "rolled_back"; Status 7 "verifying"] ∧ m_last m = Some ("success", "v2").
Proof. split_and!; vm_compute; reflexivity. Qed.
