(* ===== verification/Repeaters.v ===== *)
(** * Repeaters for a station and the scan list

    Models [apps/repeaters/models.py] (visible rows), [apps/repeaters/selection.py]
    (which repeaters the modules of a station can work), [apps/repeaters/scan.py]
    (the effective scan list) and [_resolve_repeater] of
    [apps/control/consumers.py] (the plan of a click on a repeater).

    Frequencies are decimals; here they are integers in a unit that makes all of
    them whole.  A dictionary keeps the order in which its keys were first set.
    The great-circle distance and the bearing are floating-point trigonometry:
    [rp_distance] is the distance to the station at hand, [None] without
    coordinates.  The text filter of the list view is an argument. *)

From Stdlib Require Import ZArith Lia.
From stdpp Require Import base list gmap sorting strings pretty.
From S2P Require Import Prelude.

Local Open Scope Z_scope.

(** ** Modules and bands *)

(** A row of the registry with its descriptor read: the names of its capabilities and
    the ranges of [rx_frequency] that parse. *)
Record RadioModule := mkRadio {
  rm_slot : string;
  rm_module : string;
  rm_type : string;
  rm_online : bool;
  rm_caps : list string;
  rm_ranges : list (string * Z * Z)
}.

Record ModuleRef := mkRef { mr_slot : string; mr_module : string; mr_band : string }.

Definition REQUIRED_CAPS : list string := ["rx_frequency"; "tx_frequency"; "tx_tone"; "rx_tone"].

(** The rows come ordered by slot and module. *)
Definition usable_modules (ms : list RadioModule) : list RadioModule :=
  filter (λ m, rm_online m = true ∧ Forall (λ c, c ∈ rm_caps m) REQUIRED_CAPS) ms.

Definition has_capability (m : RadioModule) (name : string) : bool := bool_decide (name ∈ rm_caps m).

(** [d.setdefault(k, []).append(v)] *)
Fixpoint push {A} (k : string) (v : A) (d : list (string * list A)) : list (string * list A) :=
  match d with
  | [] => [(k, [v])]
  | (k', vs) :: d' => if decide (k' = k) then (k', vs ++ [v]) :: d' else (k', vs) :: push k v d'
  end.

(** [d.get(k) or []] *)
Fixpoint band_get {A} (k : string) (d : list (string * list A)) : list A :=
  match d with
  | [] => []
  | (k', vs) :: d' => if decide (k' = k) then vs else band_get k d'
  end.

(** One entry per module and range, in order. *)
Definition module_spans (m : RadioModule) : list (ModuleRef * (Z * Z)) :=
  (λ r, (mkRef (rm_slot m) (rm_module m) r.1.1, (r.1.2, r.2))) <$> rm_ranges m.

Definition spans (ms : list RadioModule) : list (ModuleRef * (Z * Z)) := usable_modules ms ≫= module_spans.

Definition station_bands (ms : list RadioModule) : list (string * list ModuleRef) :=
  foldl (λ d s, push (mr_band s.1) s.1 d) [] (spans ms).

Definition band_ranges (ms : list RadioModule) (bands : list (string * list ModuleRef)) : list (string * list (Z * Z)) :=
  foldl (λ d s, if decide (mr_band s.1 ∈ bands.*1) then push (mr_band s.1) s.2 d else d) [] (spans ms).

Definition in_span (freq : Z) (s : Z * Z) : bool := bool_decide (s.1 ≤ freq ≤ s.2).

Fixpoint match_band (freq : Z) (ranges : list (string * list (Z * Z))) : option string :=
  match ranges with
  | [] => None
  | (name, ss) :: ranges' => if existsb (in_span freq) ss then Some name else match_band freq ranges'
  end.

Definition band_of (freq : Z) (bands : list (string * list ModuleRef)) (ms : list RadioModule) : option string :=
  match_band freq (band_ranges ms bands).

Definition module_band_of (m : RadioModule) (freq : Z) : option string :=
  match_band freq (foldl (λ d r, push r.1.1 (r.1.2, r.2) d) [] (rm_ranges m)).

(** ** Repeaters *)

Record Repeater := mkRepeater {
  rp_pk : Z;
  rp_callsign : string;
  rp_output : Z;
  rp_input : Z;
  rp_input_tone : string;
  rp_output_tone : string;
  rp_bandwidth : string;
  rp_distance : option Z;
  rp_active : bool;
  rp_replaces : option Z
}.

(** [RepeaterQuerySet.visible] *)
Definition replaced_pks (table : list Repeater) : list Z :=
  omap rp_replaces (filter (λ r, rp_active r = true) table).
Definition visible (table : list Repeater) : list Repeater :=
  filter (λ r, rp_active r = true ∧ rp_pk r ∉ replaced_pks table) table.

Record RepeaterRow := mkRow { rr_repeater : Repeater; rr_rx_band : string; rr_tx_band : string; rr_cross_band : bool }.

(** The sort keys: by distance (unknown last) and call sign, or by call sign. *)
Definition row_le (has_coords : bool) (a b : RepeaterRow) : Prop :=
  let ca := rp_callsign (rr_repeater a) in
  let cb := rp_callsign (rr_repeater b) in
  if has_coords then
    match rp_distance (rr_repeater a), rp_distance (rr_repeater b) with
    | Some x, Some y => x < y ∨ x = y ∧ String.leb ca cb = true
    | Some _, None => True
    | None, Some _ => False
    | None, None => String.leb ca cb = true
    end
  else String.leb ca cb = true.

#[export] Instance row_le_dec h : RelDecision (row_le h).
Proof. intros a b. unfold row_le. destruct h; [destruct (rp_distance _), (rp_distance _)|]; apply _. Defined.

Definition repeaters_for_station (ms : list RadioModule) (table : list Repeater) (has_coords : bool)
    (matches : Repeater → bool) (radius : option Z) : list RepeaterRow :=
  let bands := station_bands ms in
  if decide (bands = []) then []
  else
    let ranges := band_ranges ms bands in
    merge_sort (row_le has_coords) (omap (λ r,
      match match_band (rp_output r) ranges, match_band (rp_input r) ranges with
      | Some rx, Some tx =>
        if has_coords && match radius, rp_distance r with
                         | Some km, Some d => bool_decide (km < d)
                         | Some _, None => true
                         | None, _ => false
                         end then None
        else Some (mkRow r rx tx (bool_decide (rx ≠ tx)))
      | _, _ => None
      end) (filter (λ r, matches r = true) (visible table))).

(** ** The scan list *)

Inductive ScanItem :=
| ItemRepeater (pk : Z) (repeater : Z) (label : string)
| ItemFrequency (pk : Z) (frequency : Z) (tone label : string).

Record ScanList := mkScanList { sl_pk : Z; sl_owner : Z; sl_items : list ScanItem }.

Record RadioEntry := mkRadioEntry {
  re_ref : string;
  re_label : string;
  re_slot : string;
  re_module : string;
  re_rx : Z;
  re_tx : Z;
  re_rx_tone : string;
  re_tx_tone : string
}.

(** What a source asks to scan, before it is given to a module. *)
Record Wish := mkWish {
  wi_ref : string;
  wi_label : string;
  wi_rx : Z;
  wi_tx : Z;
  wi_rx_tone : string;
  wi_tx_tone : string
}.

Definition resolve_module (band : string) (bands : list (string * list ModuleRef)) (band_map : list (string * string))
    : option ModuleRef :=
  let candidates := band_get band bands in
  match snd ∘ snd <$> list_find (λ p, p.1 = band) band_map with
  | Some wanted =>
    match list_find (λ r, mr_slot r = wanted) candidates with
    | Some (_, r) => Some r
    | None => head candidates
    end
  | None => head candidates
  end.

Definition entry_key (e : RadioEntry) : Z * string := (re_rx e, re_rx_tone e).

(** [add]: the list so far stands for [seen] as well. *)
Definition add_scan_entry (ranges : list (string * list (Z * Z))) (bands : list (string * list ModuleRef))
    (band_map : list (string * string)) (entries : list RadioEntry) (w : Wish) : list RadioEntry :=
  match match_band (wi_rx w) ranges with
  | None => entries
  | Some rx_band =>
    if decide (match_band (wi_tx w) ranges ≠ Some rx_band) then entries
    else if decide ((wi_rx w, wi_rx_tone w) ∈ entry_key <$> entries) then entries
    else
      match resolve_module rx_band bands band_map with
      | None => entries
      | Some m => entries ++ [mkRadioEntry (wi_ref w) (wi_label w) (mr_slot m) (mr_module m)
          (wi_rx w) (wi_tx w) (wi_rx_tone w) (wi_tx_tone w)]
      end
  end.

Definition or_else (a b : string) : string := if decide (a = "") then b else a.

Definition repeater_wish (r : Repeater) (label : string) : Wish :=
  mkWish ("r:" +:+ pretty (rp_pk r)) (or_else label (rp_callsign r)) (rp_output r) (rp_input r)
    (rp_output_tone r) (rp_input_tone r).

(** [frequency_label] prints a frequency for an item without a label. *)
Definition item_wish (frequency_label : Z → string) (table : list Repeater) (i : ScanItem) : option Wish :=
  match i with
  | ItemRepeater _ pk label =>
    (λ p, repeater_wish p.2 label) <$> list_find (λ r, rp_pk r = pk) (visible table)
  | ItemFrequency pk f tone label =>
    Some (mkWish ("f:" +:+ pretty pk) (or_else label (frequency_label f)) f f "none" tone)
  end.

Definition list_wishes (frequency_label : Z → string) (table : list Repeater) (lists : list ScanList) (user : Z)
    (list_id : Z) : list Wish :=
  match list_find (λ l, sl_pk l = list_id ∧ sl_owner l = user) lists with
  | Some (_, l) => omap (item_wish frequency_label table) (sl_items l)
  | None => []
  end.

(** What the lists and the surroundings ask for, in the order of the request. *)
Definition scan_wishes (frequency_label : Z → string) (ms : list RadioModule) (table : list Repeater)
    (lists : list ScanList) (has_coords : bool) (user : Z) (radius : option Z) (list_ids : list Z) : list Wish :=
  (list_ids ≫= list_wishes frequency_label table lists user) ++
  match radius with
  | Some _ => (λ row, repeater_wish (rr_repeater row) "") <$>
      repeaters_for_station ms table has_coords (λ _, true) radius
  | None => []
  end.

(** [build_scan_entries]; [None]: [NoCoordinates]. *)
Definition build_scan_entries (frequency_label : Z → string) (ms : list RadioModule) (table : list Repeater)
    (lists : list ScanList) (has_coords : bool) (user : Z) (radius : option Z) (list_ids : list Z)
    (band_map : list (string * string)) : option (list RadioEntry) :=
  if bool_decide (is_Some radius) && negb has_coords then None
  else
    let bands := station_bands ms in
    if decide (bands = []) then Some []
    else Some (foldl (add_scan_entry (band_ranges ms bands) bands band_map) []
      (scan_wishes frequency_label ms table lists has_coords user radius list_ids)).

(** ** A click on a repeater *)

Record Plan := mkPlan {
  pl_slot : string;
  pl_module : string;
  pl_module_type : string;
  pl_callsign : string;
  pl_values : list (string * (Z + string))
}.

Inductive Resolved := NotApplicable | NotSupported | Resolved_ (p : Plan).

(** The first candidate that holds both frequencies in one of its bands; and whether
    one before it holds them in two. *)
Fixpoint pick_module (r : Repeater) (candidates : list RadioModule) (cross : bool) : option RadioModule * bool :=
  match candidates with
  | [] => (None, cross)
  | m :: ms =>
    let rx := module_band_of m (rp_output r) in
    let tx := module_band_of m (rp_input r) in
    if decide (is_Some rx ∧ rx = tx) then (Some m, cross)
    else pick_module r ms (cross || bool_decide (is_Some rx ∧ is_Some tx))
  end.

Definition plan_values (r : Repeater) (m : RadioModule) : list (string * (Z + string)) :=
  [("tx_frequency", inl (rp_input r)); ("rx_frequency", inl (rp_output r));
   ("tx_tone", inr (or_else (rp_input_tone r) "none")); ("rx_tone", inr (or_else (rp_output_tone r) "none"))] ++
  (if bool_decide (rp_bandwidth r ≠ "") && has_capability m "bandwidth" then [("bandwidth", inr (rp_bandwidth r))] else []).

(** [_resolve_repeater] of a well-formed request. *)
Definition resolve_repeater (ms : list RadioModule) (table : list Repeater) (repeater_id : Z) (slot : string)
    (module_id : option string) : Resolved :=
  match list_find (λ r, rp_pk r = repeater_id) (visible table) with
  | None => NotApplicable
  | Some (_, r) =>
    let candidates := filter (λ m, rm_slot m = slot ∧ (module_id = None ∨ module_id = Some (rm_module m))) (usable_modules ms) in
    if decide (candidates = []) then NotApplicable
    else
      match pick_module r candidates false with
      | (Some m, _) => Resolved_ (mkPlan slot (rm_module m) (rm_type m) (rp_callsign r) (plan_values r m))
      | (None, true) => NotSupported
      | (None, false) =>
        let bands := station_bands ms in
        let rx := band_of (rp_output r) bands ms in
        let tx := band_of (rp_input r) bands ms in
        if decide (is_Some rx ∧ is_Some tx ∧ rx ≠ tx) then NotSupported else NotApplicable
      end
  end.

(** ** Lemmas: dictionaries of bands *)

Lemma band_get_push {A} k k' (v : A) d :
  band_get k (push k' v d) = if decide (k' = k) then band_get k d ++ [v] else band_get k d.
Proof.
  induction d as [|[k0 vs] d IH]; simpl; [by case_decide|].
  repeat (case_decide; simpl); subst; try done; by rewrite IH, ?decide_True, ?decide_False.
Qed.

Lemma push_keys {A} k (v : A) d x : x ∈ (push k v d).*1 ↔ x = k ∨ x ∈ d.*1.
Proof.
  induction d as [|[k0 vs] d IH]; simpl; [set_solver|]. case_decide; subst; simpl; set_solver.
Qed.

Lemma push_NoDup {A} k (v : A) d : NoDup d.*1 → NoDup (push k v d).*1.
Proof.
  induction d as [|[k0 vs] d IH]; simpl; intros Hd; [by apply NoDup_singleton|].
  apply NoDup_cons in Hd as [Hn Hd]. case_decide; simpl; apply NoDup_cons; split; auto.
  rewrite push_keys. naive_solver.
Qed.

Section collect.
Context {S A : Type} (f : S → string) (g : S → A).

(** A dictionary filled from a list: under a key, the items with that key in order. *)
Definition collect (xs : list S) (d : list (string * list A)) : list (string * list A) :=
  foldl (λ d s, push (f s) (g s) d) d xs.

Lemma band_get_collect k xs d : band_get k (collect xs d) = band_get k d ++ (g <$> filter (λ s, f s = k) xs).
Proof.
  revert d. induction xs as [|x xs IH]; intros d; simpl; [by rewrite app_nil_r|].
  unfold collect in *. rewrite IH, band_get_push, filter_cons. case_decide; [|done]. by rewrite <-app_assoc.
Qed.

Lemma collect_keys xs d x : x ∈ (collect xs d).*1 ↔ x ∈ d.*1 ∨ ∃ s, s ∈ xs ∧ f s = x.
Proof.
  revert d. induction xs as [|y xs IH]; intros d; simpl; [set_solver|].
  unfold collect in *. rewrite IH, push_keys. set_solver.
Qed.

Lemma collect_NoDup xs d : NoDup d.*1 → NoDup (collect xs d).*1.
Proof. revert d. induction xs as [|y xs IH]; intros d Hd; [done|]. by apply IH, push_NoDup. Qed.
End collect.

Lemma station_bands_collect ms : station_bands ms = collect (λ s, mr_band s.1) fst (spans ms) [].
Proof. done. Qed.

(** Every band with a range is one of the station's. *)
Lemma band_ranges_collect ms : band_ranges ms (station_bands ms) = collect (λ s, mr_band s.1) snd (spans ms) [].
Proof.
  unfold band_ranges, collect. rewrite station_bands_collect.
  assert (∀ xs d, (∀ s, s ∈ xs → s ∈ spans ms) →
    foldl (λ d s, if decide (mr_band s.1 ∈ (collect (λ s, mr_band s.1) fst (spans ms) []).*1)
      then push (mr_band s.1) s.2 d else d) d xs = foldl (λ d s, push (mr_band s.1) s.2 d) d xs) as Hgen.
  { induction xs as [|x xs IH]; intros d Hx; [done|]. simpl. rewrite decide_True.
    - apply IH. set_solver.
    - apply collect_keys. right. exists x. split; [|done]. apply Hx. left. }
  by apply Hgen.
Qed.

Lemma match_band_Some freq d b :
  NoDup d.*1 → match_band freq d = Some b → ∃ s, s ∈ band_get b d ∧ s.1 ≤ freq ≤ s.2.
Proof.
  induction d as [|[k ss] d IH]; simpl; [done|]. intros [Hn Hd]%NoDup_cons.
  destruct (existsb (in_span freq) ss) eqn:He.
  - intros [= <-]. rewrite decide_True by done. apply existsb_exists in He as (s & Hs & Hin).
    exists s. split; [by apply list_elem_of_In|]. by apply bool_decide_eq_true in Hin.
  - intros Hm. destruct (IH Hd Hm) as (s & Hs & Hr). exists s. split; [|done].
    rewrite decide_False; [done|]. intros ->. destruct Hn. clear -Hs.
    induction d as [|[k' ss'] d IHd]; [by apply not_elem_of_nil in Hs|]. simpl in *. case_decide; set_solver.
Qed.

Lemma match_band_total freq d b :
  (∃ s, s ∈ band_get b d ∧ s.1 ≤ freq ≤ s.2) → is_Some (match_band freq d).
Proof.
  intros (s & Hs & Hr). induction d as [|[k ss] d IH]; simpl in *; [by apply not_elem_of_nil in Hs|].
  destruct (existsb (in_span freq) ss) eqn:He; [by eauto|]. case_decide; [|auto]. exfalso.
  assert (existsb (in_span freq) ss = true); [|congruence]. apply existsb_exists. exists s.
  split; [by apply list_elem_of_In|]. by apply bool_decide_eq_true.
Qed.

(** A module that advertises a band, by name, over a range. *)
Definition offers (ms : list RadioModule) (slot mid band : string) (lo hi : Z) : Prop :=
  ∃ m, m ∈ usable_modules ms ∧ rm_slot m = slot ∧ rm_module m = mid ∧ (band, lo, hi) ∈ rm_ranges m.

Lemma elem_spans ms r s : (r, s) ∈ spans ms ↔ offers ms (mr_slot r) (mr_module r) (mr_band r) s.1 s.2.
Proof.
  unfold spans, offers. rewrite list_elem_of_bind. unfold module_spans. split.
  - intros (m & Hx & Hm). apply list_elem_of_fmap in Hx as ([[b lo] hi] & [= -> ->] & Hr). simpl. eauto 10.
  - intros (m & Hm & Hs & Hmid & Hr). exists m. split; [|done]. apply list_elem_of_fmap.
    exists (mr_band r, s.1, s.2). split; [|done]. destruct r, s; simpl in *. by subst.
Qed.

Lemma elem_station_bands ms b r : r ∈ band_get b (station_bands ms) ↔
  mr_band r = b ∧ ∃ lo hi, offers ms (mr_slot r) (mr_module r) b lo hi.
Proof.
  rewrite station_bands_collect, band_get_collect. simpl. rewrite list_elem_of_fmap. split.
  - intros ([r' s] & -> & [Hb Hin]%list_elem_of_filter). simpl in *. apply elem_spans in Hin.
    split; [done|]. rewrite Hb in Hin. eauto.
  - intros (Hb & lo & hi & Ho). exists (r, (lo, hi)). split; [done|]. apply list_elem_of_filter.
    split; [done|]. apply elem_spans. by rewrite Hb.
Qed.

Lemma elem_band_ranges ms b s : s ∈ band_get b (band_ranges ms (station_bands ms)) ↔
  ∃ slot mid, offers ms slot mid b s.1 s.2.
Proof.
  rewrite band_ranges_collect, band_get_collect. simpl. rewrite list_elem_of_fmap. split.
  - intros ([r s'] & -> & [Hb Hin]%list_elem_of_filter). simpl in *. apply elem_spans in Hin. rewrite Hb in Hin. eauto.
  - intros (slot & mid & Ho). exists (mkRef slot mid b, s). split; [done|]. apply list_elem_of_filter.
    split; [done|]. by apply elem_spans.
Qed.

(** A frequency is in a band of the station iff a usable module covers it. *)
Lemma station_match ms freq b :
  match_band freq (band_ranges ms (station_bands ms)) = Some b →
  ∃ slot mid lo hi, offers ms slot mid b lo hi ∧ lo ≤ freq ≤ hi.
Proof.
  intros Hm. apply match_band_Some in Hm as (s & Hs & Hr).
  - apply elem_band_ranges in Hs as (slot & mid & Ho). eauto 10.
  - rewrite band_ranges_collect. apply collect_NoDup, NoDup_nil_2.
Qed.

(** ** Lemmas: the scan list *)

Section entries.
Context (ms : list RadioModule) (band_map : list (string * string)).

Definition wanted_slot (band : string) : option string := snd ∘ snd <$> list_find (λ p, p.1 = band) band_map.

(** The module of a band: on the wanted slot if one there has the band. *)
Lemma resolve_module_spec band r :
  resolve_module band (station_bands ms) band_map = Some r →
  (∃ lo hi, offers ms (mr_slot r) (mr_module r) band lo hi) ∧
  (∀ slot mid lo hi, wanted_slot band = Some slot → offers ms slot mid band lo hi → mr_slot r = slot).
Proof.
  assert (∀ r, head (band_get band (station_bands ms)) = Some r →
    ∃ lo hi, offers ms (mr_slot r) (mr_module r) band lo hi) as Hhead.
  { intros r' Hr. apply head_Some_elem_of, elem_station_bands in Hr as [_ Hr]. done. }
  unfold resolve_module, wanted_slot. destruct (snd ∘ snd <$> _) as [slot|]; [|naive_solver].
  destruct (list_find _ (band_get band _)) as [[i r']|] eqn:Hf.
  - intros [= ->]. apply list_find_Some in Hf as (Hl & Hs & _). apply list_elem_of_lookup_2, elem_station_bands in Hl as [_ Hl].
    split; [done|]. intros slot' mid lo hi [= <-] _. done.
  - intros Hr. split; [by apply Hhead|]. intros slot' mid lo hi [= <-] Ho. exfalso.
    apply list_find_None in Hf. rewrite list.Forall_forall in Hf. apply (Hf (mkRef slot mid band)); [|done].
    apply elem_station_bands. eauto.
Qed.

Lemma resolve_module_total band :
  (∃ slot mid lo hi, offers ms slot mid band lo hi) → is_Some (resolve_module band (station_bands ms) band_map).
Proof.
  intros (slot & mid & lo & hi & Ho).
  assert (is_Some (head (band_get band (station_bands ms)))) as Hh.
  { destruct (band_get band (station_bands ms)) eqn:Hb; [|by eauto].
    assert (mkRef slot mid band ∈ band_get band (station_bands ms)) as Hin by (apply elem_station_bands; eauto).
    rewrite Hb in Hin. by apply not_elem_of_nil in Hin. }
  unfold resolve_module. destruct (snd ∘ snd <$> _); [|done]. destruct (list_find _ _) as [[]|]; [by eauto|done].
Qed.

(** An entry that serves a wish of [asked] on a module that has the band of both its
    frequencies, on the slot the band map wants if a module there has it. *)
Definition entry_ok (asked : Wish → Prop) (e : RadioEntry) : Prop :=
  ∃ band, (∃ w, asked w ∧ re_rx e = wi_rx w ∧ re_tx e = wi_tx w ∧
      re_rx_tone e = wi_rx_tone w ∧ re_tx_tone e = wi_tx_tone w) ∧
    (∃ lo hi, offers ms (re_slot e) (re_module e) band lo hi) ∧
    (∃ s m lo hi, offers ms s m band lo hi ∧ lo ≤ re_rx e ≤ hi) ∧
    (∃ s m lo hi, offers ms s m band lo hi ∧ lo ≤ re_tx e ≤ hi) ∧
    (∀ slot mid lo hi, wanted_slot band = Some slot → offers ms slot mid band lo hi → re_slot e = slot).

(** Both frequencies lie in one band of the station. *)
Definition same_band (w : Wish) : Prop :=
  ∃ band, match_band (wi_rx w) (band_ranges ms (station_bands ms)) = Some band ∧
    match_band (wi_tx w) (band_ranges ms (station_bands ms)) = Some band.

Notation add := (add_scan_entry (band_ranges ms (station_bands ms)) (station_bands ms) band_map).

Lemma add_entry_cases es w :
  (add es w = es ∧ (same_band w → (wi_rx w, wi_rx_tone w) ∈ entry_key <$> es)) ∨
  (∃ e, add es w = es ++ [e] ∧ entry_key e = (wi_rx w, wi_rx_tone w) ∧ entry_key e ∉ entry_key <$> es ∧ entry_ok (eq w) e).
Proof.
  unfold add_scan_entry, same_band. destruct (match_band (wi_rx w) _) as [band|] eqn:Hrx; [|left; naive_solver].
  case_decide as Htx; [left; split; [done|]; naive_solver|].
  case_decide as Hseen; [by left|].
  pose proof (station_match _ _ _ Hrx) as Hrx'. pose proof (station_match _ _ _ Htx) as Htx'.
  destruct (resolve_module band _ band_map) as [m|] eqn:Hm.
  - right. eexists. split; [done|]. split; [done|]. split; [done|].
    destruct (resolve_module_spec _ _ Hm) as [Ho Hw]. exists band. simpl. split_and!; try done.
    by exists w.
  - exfalso. destruct (resolve_module_total band) as [m Hm']; [|congruence].
    destruct Hrx' as (s & mid & lo & hi & Ho & _). eauto.
Qed.

Lemma entry_ok_mono (P Q : Wish → Prop) e : (∀ w, P w → Q w) → entry_ok P e → entry_ok Q e.
Proof. intros Hw (band & (w & Hin & ?) & ?). exists band. split; [|done]. exists w. auto. Qed.

Lemma add_all ws es :
  NoDup (entry_key <$> es) →
  ∃ new, foldl add es ws = es ++ new ∧ NoDup (entry_key <$> es ++ new) ∧ Forall (entry_ok (.∈ ws)) new ∧
    ∀ w, w ∈ ws → same_band w → (wi_rx w, wi_rx_tone w) ∈ entry_key <$> es ++ new.
Proof.
  revert es. induction ws as [|w ws IH]; intros es Hd; simpl.
  { exists []. rewrite app_nil_r. split_and!; try done. intros w Hw. by apply not_elem_of_nil in Hw. }
  destruct (add_entry_cases es w) as [[-> Hin]|(e & -> & Hk & Hn & Hok)].
  - destruct (IH es Hd) as (new & -> & Hd' & Hall & Hc). exists new. split_and!; try done.
    + eapply Forall_impl; [exact Hall|]. intros e. apply entry_ok_mono. set_solver.
    + intros w' [->|Hw']%elem_of_cons Hb; [|auto]. rewrite fmap_app, elem_of_app. left. auto.
  - destruct (IH (es ++ [e])) as (new & -> & Hd' & Hall & Hc).
    { rewrite fmap_app. apply NoDup_app. split_and!; [done| |by apply NoDup_singleton]. intros x Hx Hx'. simpl in Hx'. apply list_elem_of_singleton in Hx' as ->. done. }
    exists (e :: new). rewrite <-app_assoc in *. simpl in *. split_and!; try done.
    + constructor; [by eapply entry_ok_mono; [|exact Hok]; set_solver|].
      eapply Forall_impl; [exact Hall|]. intros e'. apply entry_ok_mono. set_solver.
    + intros w' [->|Hw']%elem_of_cons Hb; [|auto]. rewrite fmap_app, elem_of_app. right. rewrite <-Hk. set_solver.
Qed.
End entries.

(** ** Properties *)

(** What a request asks to scan: a visible repeater or a frequency on a list of the
    user that it names, or a visible repeater within the radius. *)
Definition wish_source (table : list Repeater) (lists : list ScanList) (user : Z) (radius : option Z) (list_ids : list Z)
    (w : Wish) : Prop :=
  (∃ l i, l ∈ lists ∧ sl_owner l = user ∧ sl_pk l ∈ list_ids ∧ i ∈ sl_items l ∧
     match i with
     | ItemRepeater _ pk _ => ∃ r, r ∈ visible table ∧ rp_pk r = pk ∧ wi_rx w = rp_output r ∧ wi_tx w = rp_input r ∧
         wi_rx_tone w = rp_output_tone r ∧ wi_tx_tone w = rp_input_tone r
     | ItemFrequency _ f tone _ => wi_rx w = f ∧ wi_tx w = f ∧ wi_rx_tone w = "none" ∧ wi_tx_tone w = tone
     end) ∨
  (∃ r km d, radius = Some km ∧ rp_distance r = Some d ∧ d ≤ km ∧ r ∈ visible table ∧
     wi_rx w = rp_output r ∧ wi_tx w = rp_input r ∧
     wi_rx_tone w = rp_output_tone r ∧ wi_tx_tone w = rp_input_tone r).

Lemma row_in_radius ms table km row :
  row ∈ repeaters_for_station ms table true (λ _, true) (Some km) →
  rr_repeater row ∈ visible table ∧ ∃ d, rp_distance (rr_repeater row) = Some d ∧ d ≤ km.
Proof.
  unfold repeaters_for_station. case_decide; [by intros ?%not_elem_of_nil|].
  rewrite (merge_sort_Permutation (row_le true)), list_elem_of_omap. intros (r & Hr & Hrow).
  apply list_elem_of_filter in Hr as [_ Hr].
  destruct (match_band _ _) as [rx|]; [|done]. destruct (match_band _ _) as [tx|]; [|done]. simpl in Hrow.
  destruct (rp_distance r) as [d|] eqn:Hd; [|done]. case_bool_decide; [done|]. injection Hrow as <-. simpl.
  split; [done|]. exists d. split; [done|lia].
Qed.

Lemma scan_wishes_sources frequency_label ms table lists has_coords user radius list_ids w :
  bool_decide (is_Some radius) && negb has_coords = false →
  w ∈ scan_wishes frequency_label ms table lists has_coords user radius list_ids →
  wish_source table lists user radius list_ids w.
Proof.
  intros Hc [Hw|Hw]%elem_of_app.
  - left. apply list_elem_of_bind in Hw as (id & Hw & Hid). unfold list_wishes in Hw.
    destruct (list_find _ lists) as [[k l]|] eqn:Hl; [|by apply not_elem_of_nil in Hw].
    apply list_find_Some in Hl as (Hl%list_elem_of_lookup_2 & [Hpk Ho] & _).
    apply list_elem_of_omap in Hw as (i & Hi & Hw). exists l, i. rewrite Hpk. split_and!; try done.
    destruct i as [ipk pk label|ipk f tone label]; simpl in Hw; [|by injection Hw as <-].
    destruct (list_find _ (visible table)) as [[k' r]|] eqn:Hr; [|done]. simpl in Hw. injection Hw as <-.
    apply list_find_Some in Hr as (Hr%list_elem_of_lookup_2 & Hrpk & _). exists r. by split_and!.
  - right. destruct radius as [km|]; [|by apply not_elem_of_nil in Hw]. destruct has_coords; [|done].
    apply list_elem_of_fmap in Hw as (row & -> & Hrow). destruct (row_in_radius _ _ _ _ Hrow) as (Hv & d & Hd & Hle).
    exists (rr_repeater row), km, d. by split_and!.
Qed.

Lemma NoDup_fmap_sub {A} (key : A → Z) (P : A → Prop) `{∀ x, Decision (P x)} (l : list A) :
  NoDup (key <$> l) → NoDup (key <$> filter P l).
Proof.
  induction l as [|x l IH]; [done|]. rewrite fmap_cons, NoDup_cons. intros [Hx Hnd].
  rewrite filter_cons. case_decide; [|auto]. rewrite fmap_cons. apply NoDup_cons. split; [|auto].
  intros (y & Hy & [_ Hin]%list_elem_of_filter)%list_elem_of_fmap. apply Hx. rewrite Hy. by apply list_elem_of_fmap_2.
Qed.

Lemma list_find_unique {A} (key : A → Z) (P : A → Prop) `{∀ x, Decision (P x)} (l : list A) x :
  NoDup (key <$> l) → x ∈ l → P x → (∀ y, P y → key y = key x) → ∃ i, list_find P l = Some (i, x).
Proof.
  intros Hnd Hx HP Hkey. destruct (list_find_elem_of P l x Hx HP) as [[i y] Hf]. exists i. rewrite Hf.
  apply list_find_Some in Hf as (Hy%list_elem_of_lookup_2 & HPy & _).
  by rewrite (NoDup_fmap_elem_inj key l y x Hnd Hy Hx (Hkey y HPy)).
Qed.

(** Everything asked for in one band is a wish. *)
Lemma scan_wishes_complete frequency_label ms table lists has_coords user radius list_ids w :
  bool_decide (is_Some radius) && negb has_coords = false →
  NoDup (sl_pk <$> lists) → NoDup (rp_pk <$> table) →
  wish_source table lists user radius list_ids w → same_band ms w →
  ∃ w', w' ∈ scan_wishes frequency_label ms table lists has_coords user radius list_ids ∧
    wi_rx w' = wi_rx w ∧ wi_tx w' = wi_tx w ∧ wi_rx_tone w' = wi_rx_tone w.
Proof.
  intros Hc Hl Ht Hsrc (band & Hrx & Htx).
  destruct Hsrc as [(l & i & Hin & Ho & Hid & Hi & Hw)|(r & km & d & -> & Hd & Hle & Hv & Hr & Hx & Hrt & _)].
  - destruct (list_find_unique sl_pk (λ l', sl_pk l' = sl_pk l ∧ sl_owner l' = user) lists l) as [k Hk];
      [done|done|done|by intros y [? _]|].
    assert (∀ w', item_wish frequency_label table i = Some w' →
      w' ∈ scan_wishes frequency_label ms table lists has_coords user radius list_ids) as Hmem.
    { intros w' Hw'. apply elem_of_app. left. apply list_elem_of_bind. exists (sl_pk l). split; [|done].
      unfold list_wishes. rewrite Hk. apply list_elem_of_omap. by exists i. }
    destruct i as [ipk pk label|ipk f tone label].
    + destruct Hw as (r & Hv & Hpk & ? & ? & ? & _).
      assert (NoDup (rp_pk <$> visible table)) as Hnd by (by apply NoDup_fmap_sub).
      destruct (list_find_unique rp_pk (λ r', rp_pk r' = pk) (visible table) r) as [k' Hk'];
        [done|done|done|intros y Hy; congruence|].
      exists (repeater_wish r label). split; [apply Hmem; simpl; by rewrite Hk'|]. split_and!; simpl; congruence.
    + destruct Hw as (? & ? & ? & _). eexists. split; [by apply Hmem|]. split_and!; simpl; congruence.
  - destruct has_coords; [|done]. rewrite Hr in Hrx. rewrite Hx in Htx.
    exists (repeater_wish r ""). split; [|split_and!; simpl; congruence].
    apply elem_of_app. right. apply list_elem_of_fmap. exists (mkRow r band band false). split; [done|].
    unfold repeaters_for_station. case_decide as Hb.
    { apply station_match in Hrx as (slot & mid & lo & hi & Ho & _). exfalso.
      assert (mkRef slot mid band ∈ band_get band (station_bands ms)) as Hin by (apply elem_station_bands; eauto).
      rewrite Hb in Hin. by apply not_elem_of_nil in Hin. }
    rewrite (merge_sort_Permutation (row_le true)), list_elem_of_omap. exists r.
    split; [by apply list_elem_of_filter|]. rewrite Hrx, Htx, Hd. simpl.
    rewrite bool_decide_eq_false_2 by lia. rewrite bool_decide_eq_false_2 by tauto. done.
Qed.


(** Two modules with a band of one name, each for its own half. *)
Definition half_bands : list RadioModule :=
  [mkRadio "1" "low" "fm_transceiver" true REQUIRED_CAPS [("2m", 14400000, 14500000)];
   mkRadio "2" "high" "fm_transceiver" true REQUIRED_CAPS [("2m", 14500001, 14600000)]].

Definition half_table : list Repeater :=
  [mkRepeater 1 "OE5XLL" 14567500 14507500 "none" "none" "" None true None].

Definition half_lists : list ScanList := [mkScanList 4 9 [ItemRepeater 1 1 ""]; mkScanList 5 8 [ItemRepeater 2 1 ""]].


(** The module of an entry advertises the band, but it need not reach the frequency:
    the first module of the band gets the entry although only the second covers it. *)
Example scan_entry_out_of_range :
  re_module <$> default [] (build_scan_entries pretty half_bands half_table half_lists false 9 None [4] []) = ["low"] ∧
  (λ m, (rm_module m, module_band_of m 14567500)) <$> usable_modules half_bands =
    [("low", None); ("high", Some "2m")].
Proof. by vm_compute. Qed.

Lemma module_band_Some m freq b :
  module_band_of m freq = Some b → ∃ lo hi, (b, lo, hi) ∈ rm_ranges m ∧ lo ≤ freq ≤ hi.
Proof.
  unfold module_band_of. change (foldl _ [] (rm_ranges m)) with
    (collect (λ r : string * Z * Z, r.1.1) (λ r, (r.1.2, r.2)) (rm_ranges m) []).
  intros Hm. apply match_band_Some in Hm as (s & Hs & Hr); [|apply collect_NoDup, NoDup_nil_2].
  rewrite band_get_collect in Hs. simpl in Hs. apply list_elem_of_fmap in Hs as ([[b' lo] hi] & -> & [Hb Hin]%list_elem_of_filter).
  simpl in *. subst b'. eauto.
Qed.

Lemma pick_module_Some r cands cross m c :
  pick_module r cands cross = (Some m, c) →
  m ∈ cands ∧ ∃ b, module_band_of m (rp_output r) = Some b ∧ module_band_of m (rp_input r) = Some b.
Proof.
  revert cross. induction cands as [|m' cands IH]; intros cross; simpl; [done|]. case_decide as Hd.
  - intros [= -> ->]. destruct Hd as [[b Hb] Heq]. split; [left|]. exists b. split; congruence.
  - intros [Hin Hb]%IH. split; [by right|done].
Qed.

Lemma pick_module_None r cands cross c m :
  pick_module r cands cross = (None, c) → m ∈ cands →
  module_band_of m (rp_output r) = None ∨ module_band_of m (rp_output r) ≠ module_band_of m (rp_input r).
Proof.
  revert cross. induction cands as [|m' cands IH]; intros cross; simpl; [by intros _ ?%not_elem_of_nil|].
  case_decide as Hd; [done|]. intros Hp [->|Hin]%elem_of_cons; [|by eapply IH].
  destruct (module_band_of m' (rp_output r)); [right|by left]. intros Heq. apply Hd. split; [by eexists|done].
Qed.

(** A click on a repeater tunes the radio where it can go.  The plan names a visible
    repeater and a usable module of the chosen slot (the chosen module, if one was
    named) whose own ranges hold both frequencies in one band; and it is refused
    only if no such module is there. *)
Lemma repeater_plan_sound ms table repeater_id slot module_id :
  match resolve_repeater ms table repeater_id slot module_id with
  | Resolved_ p =>
    ∃ r m b lo hi lo' hi', r ∈ visible table ∧ rp_pk r = repeater_id ∧ m ∈ usable_modules ms ∧
      rm_slot m = slot ∧ (module_id = None ∨ module_id = Some (rm_module m)) ∧
      pl_slot p = slot ∧ pl_module p = rm_module m ∧ pl_module_type p = rm_type m ∧ pl_values p = plan_values r m ∧
      (b, lo, hi) ∈ rm_ranges m ∧ lo ≤ rp_output r ≤ hi ∧ (b, lo', hi') ∈ rm_ranges m ∧ lo' ≤ rp_input r ≤ hi'
  | _ =>
    ∀ r m, list_find (λ r, rp_pk r = repeater_id) (visible table) ≫= (λ p, Some p.2) = Some r →
      m ∈ usable_modules ms → rm_slot m = slot → (module_id = None ∨ module_id = Some (rm_module m)) →
      module_band_of m (rp_output r) = None ∨ module_band_of m (rp_output r) ≠ module_band_of m (rp_input r)
  end.
Proof.
  unfold resolve_repeater. destruct (list_find _ (visible table)) as [[k r]|] eqn:Hr; [|done].
  apply list_find_Some in Hr as (Hr%list_elem_of_lookup_2 & Hpk & _).
  set (cands := filter _ (usable_modules ms)).
  assert (∀ m, m ∈ cands ↔ (rm_slot m = slot ∧ (module_id = None ∨ module_id = Some (rm_module m))) ∧ m ∈ usable_modules ms)
    as Hcands by (intros m; unfold cands; by rewrite list_elem_of_filter).
  assert (∀ c, pick_module r cands false = (None, c) → ∀ r' m, Some (k, r) ≫= (λ p, Some p.2) = Some r' →
    m ∈ usable_modules ms → rm_slot m = slot → (module_id = None ∨ module_id = Some (rm_module m)) →
    module_band_of m (rp_output r') = None ∨ module_band_of m (rp_output r') ≠ module_band_of m (rp_input r')) as Hnone.
  { intros c Hp r' m [= <-] Hm Hs Hid. eapply pick_module_None; [exact Hp|]. by apply Hcands. }
  destruct (decide (cands = [])) as [He|].
  { intros r' m _ Hm Hs Hid. exfalso. assert (m ∈ cands) as Hin by by apply Hcands. rewrite He in Hin.
    by apply not_elem_of_nil in Hin. }
  destruct (pick_module r cands false) as [[m|] c] eqn:Hp.
  2:{ destruct c; [by apply (Hnone true)|]. case_decide; by apply (Hnone false). }
  apply pick_module_Some in Hp as (Hm & b & Hrx & Htx). apply Hcands in Hm as [[Hs Hid] Hm].
  apply module_band_Some in Hrx as (lo & hi & Hin & Hle). apply module_band_Some in Htx as (lo' & hi' & Hin' & Hle').
  exists r, m, b, lo, hi, lo', hi'. destruct Hle, Hle'. by split_and!.
Qed.
