(* ===== verification/ScanControl.v ===== *)
(** * Server side of a scan

    Models [apps/control/scan.py]: the validation of a browser's request, the one
    [ActiveScan] row of a station and every change to it, the frames it causes, and
    the push of a rebuilt list when a scan list is edited.

    A station has at most one row ([OneToOneField]), so the table is a map.  Random
    scan ids and the clock are arguments; the audit log keeps who and what.  The
    scan list is the one of [Repeaters]; [km] converts a radius into the unit of
    its distances.  A transaction is flat (no savepoints). *)

From Stdlib Require Import ZArith Lia SpecFloat Ascii.
From stdpp Require Import base list gmap strings pretty.
From S2P Require Import Prelude Json Metrics Capabilities Permissions ControlLock Audio Scanner BootMarkers Bootloader Repeaters.

Local Open Scope Z_scope.

Definition SCAN_CAPABILITIES : list string := ["rx_frequency"; "tx_frequency"; "rx_tone"; "tx_tone"].
Definition SCAN_ACTIONS : list string := ["stop"; "skip"; "hold"; "resume"].
Definition MAX_LISTS : nat := 50.
Definition MAX_BAND_MAP : nat := 16.
Definition MAX_RADIUS_KM : Z := 1000.

(** ** The request *)

Record ScanParams := mkParams {
  sp_radius : option spec_float;
  sp_lists : list Z;
  sp_band_map : list (string * string);
  sp_listen : spec_float;
  sp_hang : spec_float
}.

(** [0.2], [60.0], [2.0] and [600.0], [5.0] *)
Definition LISTEN_MIN : spec_float := S754_finite false 7205759403792794 (-55).
Definition LISTEN_MAX : spec_float := float_of_Z 60.
Definition HANG_MAX : spec_float := float_of_Z 600.

(** [0 < radius <= MAX_RADIUS_KM] of a number. *)
Definition radius_in_range (v : Json) : bool :=
  match v with
  | JInt z => bool_decide (0 < z ≤ MAX_RADIUS_KM)
  | JFloat f => SFltb (float_of_Z 0) f && SFleb f (float_of_Z MAX_RADIUS_KM)
  | _ => false
  end.

(** [d[k] = v] on an ordered dictionary. *)
Fixpoint band_set (k v : string) (d : list (string * string)) : list (string * string) :=
  match d with
  | [] => [(k, v)]
  | (k', v') :: d' => if decide (k' = k) then (k, v) :: d' else (k', v') :: band_set k v d'
  end.

Definition slot_text (v : Json) : option string :=
  match v with JStr s => Some s | JInt z => Some (pretty z) | _ => None end.

Fixpoint clean_map (d : list (string * string)) (l : list (string * Json)) : option (list (string * string)) :=
  match l with
  | [] => Some d
  | (band, slot) :: l' =>
    match slot_text slot with
    | Some s => clean_map (band_set (String.substring 0 16 band) (String.substring 0 64 s) d) l'
    | None => None
    end
  end.

(** [list(dict.fromkeys(l))] *)
Definition dedupe (l : list Z) : list Z := foldl (λ acc x, if decide (x ∈ acc) then acc else acc ++ [x]) [] l.

Definition int_list (l : list Json) : option (list Z) :=
  mapM (λ v, match v with JInt z => Some z | _ => None end) l.

(** [None]: malformed; an exception: a number no float can hold. *)
Definition parse_start (msg : list (string * Json)) : outcome ScanError (option ScanParams) :=
  let radius := jget "radius_km" msg in
  obind (match radius with JNull => Ok true | _ => obind (is_num radius) (λ ok, Ok (ok && radius_in_range radius)) end) (λ ok,
  if negb ok then Ok None
  else
    let raw_lists := jget "list_ids" msg in
    match (if truthy_json raw_lists then match raw_lists with JList l => Some l | _ => None end else Some []) with
    | None => Ok None
    | Some l =>
      if decide (MAX_LISTS < length l)%nat then Ok None
      else
        match int_list l with
        | None => Ok None
        | Some ids =>
          let raw_map := jget "band_map" msg in
          match (if truthy_json raw_map then match raw_map with JObj o => Some o | _ => None end else Some []) with
          | None => Ok None
          | Some o =>
            if decide (MAX_BAND_MAP < length o)%nat then Ok None
            else
              match clean_map [] o with
              | None => Ok None
              | Some m =>
                if negb (bool_decide (is_Some (py_float radius))) && bool_decide (ids = []) then Ok None
                else
                  obind (clamp_window (jget "listen_s" msg) LISTEN_MIN LISTEN_MAX (float_of_Z 2)) (λ listen,
                  obind (clamp_window (jget "hang_s" msg) (float_of_Z 0) HANG_MAX (float_of_Z 5)) (λ hang,
                  Ok (Some (mkParams (py_float radius) (dedupe ids) m listen hang))))
              end
          end
        end
    end).

(** ** Frames *)

Record WireEntry := mkWire { we_slot : Z + string; we_entry : RadioEntry }.

(** [int(slot) if slot.isdigit() else slot] *)
Definition wire_slot (slot : string) : Z + string :=
  let l := txt slot in if isdigit l then inl (foldl (λ acc c, 10 * acc + default 0 (Targeting.digit_value c)) 0 l) else inr slot.

Definition wire_entries (es : list RadioEntry) : list WireEntry :=
  (λ e, mkWire (wire_slot (re_slot e)) e) <$> take MAX_ENTRIES es.

Inductive ScanFrame :=
| Fr_start (scan_id : string) (entries : list WireEntry) (listen hang : spec_float)
| Fr_update (scan_id : string) (entries : list WireEntry)
| Fr_control (scan_id action : string).

(** ** The row *)

Record ScanRow := mkScanRow {
  as_user : Z;
  as_scan_id : string;
  as_params : ScanParams;
  as_state : string;
  as_started_at : Z
}.

Inductive ScanAudit := Started (user : Z) (entries : nat) | Stopped (user : Z) (reason : string).

Record ScanDb := mkScanDb {
  sdb_rows : gmap Z ScanRow;       (* by station *)
  sdb_audit : list ScanAudit       (* newest first *)
}.

(** What the list is built from: the station's modules and position, repeaters, lists. *)
Record Surroundings := mkSurr {
  su_modules : list RadioModule;
  su_coords : bool;
  su_repeaters : list Repeater;
  su_lists : list ScanList
}.

Section scan.
Variable km : spec_float → Z.
Variable frequency_label : Z → string.

Definition build (su : Surroundings) (user : Z) (p : ScanParams) : option (list RadioEntry) :=
  build_scan_entries frequency_label (su_modules su) (su_repeaters su) (su_lists su) (su_coords su) user
    (km <$> sp_radius p) (sp_lists p) (sp_band_map p).

(** [all(...)]: the first refusal ends it, an exception escapes. *)
Fixpoint all_ok {A} (f : A → outcome PermError bool) (l : list A) : outcome PermError bool :=
  match l with
  | [] => Ok true
  | x :: l' => obind (f x) (λ ok, if ok : bool then all_ok f l' else Ok false)
  end.

Definition may_write_all (user : User) (module_types : list Json) : outcome PermError bool :=
  all_ok (λ p, can_write (Some user) (JStr p.1) p.2)
    (SCAN_CAPABILITIES ≫= λ cap, (λ t, (cap, t)) <$> module_types).

Inductive ScanCode := Invalid_scan | Scan_forbidden | No_coordinates | Empty_scan_list.
Inductive ScanExc := Exc_number | Exc_permission.

Definition entry_types (su : Surroundings) (es : list RadioEntry) : list Json :=
  let types := (λ m, JStr (rm_type m)) <$> filter (λ m, rm_module m ∈ re_module <$> es) (su_modules su) in
  match types with [] => [JNull] | _ => types end.

Definition lift_perm (o : outcome PermError bool) : outcome ScanExc bool :=
  match o with Ok b => Ok b | Raise _ => Raise Exc_permission end.

(** [start_scan]: a refusal, or the frame; [scan_id] is the fresh random id. *)
Definition start_scan (su : Surroundings) (station : Z) (user : User) (msg : list (string * Json)) (scan_id : string)
    (now : Z) (db : ScanDb) : outcome ScanExc (ScanDb * (ScanCode + ScanFrame)) :=
  match parse_start msg with
  | Raise _ => Raise Exc_number
  | Ok None => Ok (db, inl Invalid_scan)
  | Ok (Some p) =>
    obind (lift_perm (may_write_all user [JNull])) (λ ok,
    if negb ok then Ok (db, inl Scan_forbidden)
    else
      match build su (u_pk user) p with
      | None => Ok (db, inl No_coordinates)
      | Some [] => Ok (db, inl Empty_scan_list)
      | Some es =>
        obind (lift_perm (may_write_all user (entry_types su es))) (λ ok,
        if negb ok then Ok (db, inl Scan_forbidden)
        else
          let audit := match sdb_rows db !! station with
                       | Some prev => Stopped (as_user prev) "replaced" :: sdb_audit db
                       | None => sdb_audit db
                       end in
          Ok (mkScanDb (<[station := mkScanRow (u_pk user) scan_id p "starting" now]> (sdb_rows db))
                (Started (u_pk user) (length es) :: audit),
              inr (Fr_start scan_id (wire_entries es) (sp_listen p) (sp_hang p))))
      end)
  end.

Definition current_scan_id (station : Z) (db : ScanDb) : option string := as_scan_id <$> sdb_rows db !! station.
Definition current_scan (station : Z) (db : ScanDb) : option (string * string) :=
  (λ r, (as_scan_id r, as_state r)) <$> sdb_rows db !! station.

Definition coarse_state (state : string) : option string :=
  if decide (state ∈ ["scanning"; "active"; "hang"]) then Some "active"
  else if decide (state = "held") then Some "held" else None.

Definition set_state (s : string) (r : ScanRow) : ScanRow :=
  mkScanRow (as_user r) (as_scan_id r) (as_params r) s (as_started_at r).

Definition note_state (station : Z) (scan_id state : string) (db : ScanDb) : ScanDb :=
  if decide (state ∈ ["active"; "held"]) then
    match sdb_rows db !! station with
    | Some r =>
      if decide (as_scan_id r = scan_id) then mkScanDb (<[station := set_state state r]> (sdb_rows db)) (sdb_audit db)
      else db
    | None => db
    end
  else db.

Definition end_scan (station : Z) (reason : string) (scan_id : option string) (db : ScanDb) : ScanDb * option string :=
  match sdb_rows db !! station with
  | Some r =>
    if decide (scan_id = None ∨ scan_id = Some (as_scan_id r)) then
      (mkScanDb (delete station (sdb_rows db)) (Stopped (as_user r) (String.substring 0 32 reason) :: sdb_audit db),
       Some (as_scan_id r))
    else (db, None)
  | None => (db, None)
  end.

(** The stopped scan and the frame for the agent. *)
Definition stop_active_scan (station : Z) (reason : string) (unless_user : option Z) (db : ScanDb)
    : ScanDb * option (string * ScanFrame) :=
  match sdb_rows db !! station with
  | Some r =>
    if decide (unless_user = Some (as_user r)) then (db, None)
    else
      (mkScanDb (delete station (sdb_rows db)) (Stopped (as_user r) reason :: sdb_audit db),
       Some (as_scan_id r, Fr_control (as_scan_id r) "stop"))
  | None => (db, None)
  end.

(** ** Edits of scan lists *)

(** [push_scan_updates]: the frames by station. *)
Definition push_scan_updates (su : Z → Surroundings) (list_ids : list Z) (db : ScanDb) : list (Z * ScanFrame) :=
  omap (λ kr : Z * ScanRow,
    let '(station, r) := kr in
    if decide (Exists (λ i, i ∈ list_ids) (sp_lists (as_params r))) then
      Some (station, Fr_update (as_scan_id r) (wire_entries (default [] (build (su station) (as_user r) (as_params r)))))
    else None) (map_to_list (sdb_rows db)).

End scan.

(** The pending ids of a thread, and whether the flush is queued on the transaction. *)
Record PendingEdits := mkPending { pe_ids : list Z; pe_queued : bool }.

Inductive TxEvent := Tx_edit (list_id : Z) | Tx_commit | Tx_rollback.

(** [_list_changed] *)
Definition list_changed (list_id : Z) (p : PendingEdits) : PendingEdits :=
  if pe_queued p then mkPending (pe_ids p ++ [list_id]) true else mkPending [list_id] true.

(** A commit runs the queued [_flush_pending]; a rollback drops it.  The second result
    are the ids handed to [push_scan_updates]. *)
Definition tx_step (p : PendingEdits) (e : TxEvent) : PendingEdits * option (list Z) :=
  match e with
  | Tx_edit i => (list_changed i p, None)
  | Tx_commit => if pe_queued p then (mkPending [] false, Some (pe_ids p)) else (p, None)
  | Tx_rollback => (mkPending (pe_ids p) false, None)
  end.

Fixpoint run_tx (p : PendingEdits) (es : list TxEvent) : list (list Z) :=
  match es with
  | [] => []
  | e :: es' => let '(p', out) := tx_step p e in (match out with Some ids => [ids] | None => [] end) ++ run_tx p' es'
  end.

(** ** Properties *)

(** The ids a transaction edited, pushed when it commits. *)
Fixpoint committed_edits (edited : list Z) (es : list TxEvent) : list (list Z) :=
  match es with
  | [] => []
  | Tx_edit i :: es' => committed_edits (edited ++ [i]) es'
  | Tx_commit :: es' => (if decide (edited = []) then [] else [edited]) ++ committed_edits [] es'
  | Tx_rollback :: es' => committed_edits [] es'
  end.

(** One push per commit, of exactly its edits.  Whatever a thread edits, commits and
    rolls back, and whatever an earlier rolled-back transaction left in the pending
    set, every commit pushes once the lists edited in its own transaction and no
    others. *)
Lemma commit_pushes_own_edits leftover es :
  run_tx (mkPending leftover false) es = committed_edits [] es.
Proof.
  assert (∀ es leftover, run_tx (mkPending leftover false) es = committed_edits [] es ∧
    ∀ edited, edited ≠ [] → run_tx (mkPending edited true) es = committed_edits edited es) as Hgen.
  { clear es leftover. induction es as [|e es IH]; intros leftover; [done|].
    destruct e as [i| |]; simpl; (split; [|intros edited Hne]); simpl; try apply IH; try done.
    - by destruct edited.
    - rewrite decide_False by done. simpl. f_equal. apply IH. }
  apply Hgen.
Qed.

Lemma all_ok_true {A} (f : A → outcome PermError bool) l : all_ok f l = Ok true → Forall (λ x, f x = Ok true) l.
Proof.
  induction l as [|x l IH]; simpl; [constructor|]. destruct (f x) as [[]|] eqn:Hf; simpl; try done.
  constructor; auto.
Qed.

Lemma may_write_all_true user types :
  may_write_all user types = Ok true →
  ∀ cap t, cap ∈ SCAN_CAPABILITIES → t ∈ types → can_write (Some user) (JStr cap) t = Ok true.
Proof.
  intros Hm cap t Hc Ht. apply all_ok_true in Hm. rewrite list.Forall_forall in Hm.
  apply (Hm (cap, t)), list_elem_of_bind. exists cap. split; [|done]. apply list_elem_of_fmap. eauto.
Qed.

Lemma start_scan_spec km frequency_label su station user msg scan_id now db db' r :
  start_scan km frequency_label su station user msg scan_id now db = Ok (db', r) →
  match r with
  | inl _ => db' = db
  | inr frame => ∃ p es,
      parse_start msg = Ok (Some p) ∧ build km frequency_label su (u_pk user) p = Some es ∧ es ≠ [] ∧
      (∀ cap m, cap ∈ SCAN_CAPABILITIES → m ∈ su_modules su → rm_module m ∈ re_module <$> es →
         can_write (Some user) (JStr cap) (JStr (rm_type m)) = Ok true) ∧
      frame = Fr_start scan_id (wire_entries es) (sp_listen p) (sp_hang p) ∧
      (length (wire_entries es) ≤ MAX_ENTRIES)%nat ∧
      sdb_rows db' = <[station := mkScanRow (u_pk user) scan_id p "starting" now]> (sdb_rows db)
  end.
Proof.
  unfold start_scan. destruct (parse_start msg) as [[p|]|]; try done; [|by intros [= <- <-]].
  destruct (may_write_all user [JNull]) as [[]|] eqn:Hnull; simpl; try done; [|by intros [= <- <-]].
  destruct (build _ _ su (u_pk user) p) as [[|e es]|] eqn:Hb; try (by intros [= <- <-]).
  destruct (may_write_all user (entry_types su (e :: es))) as [[]|] eqn:Hw; simpl; try done; [|by intros [= <- <-]].
  intros [= <- <-]. exists p, (e :: es). split_and!; try done.
  - intros cap m Hc Hm Hin. eapply may_write_all_true; [exact Hw|done|]. unfold entry_types.
    assert (JStr (rm_type m) ∈ (λ m, JStr (rm_type m)) <$> filter (λ m, rm_module m ∈ re_module <$> e :: es) (su_modules su)) as H1.
    { apply list_elem_of_fmap. exists m. split; [done|]. by apply list_elem_of_filter. }
    destruct (_ <$> filter _ _) eqn:Hf; [by apply not_elem_of_nil in H1|done].
  - unfold wire_entries. rewrite length_fmap, length_take. lia.
Qed.

(** A scan that starts was allowed to.  When [start_scan] hands out a frame, the
    request was well formed, the list it was built into is not empty, and the user
    may write every capability a scan step writes, on the type of every module in
    the list; the station's row is this scan and no other row changed, the frame
    carries at most [MAX_ENTRIES] entries.  Otherwise nothing was stored. *)
Lemma scan_start_authorised km frequency_label su station user msg scan_id now db db' r :
  start_scan km frequency_label su station user msg scan_id now db = Ok (db', r) →
  match r with
  | inl _ => db' = db
  | inr frame => ∃ p es,
      parse_start msg = Ok (Some p) ∧ build km frequency_label su (u_pk user) p = Some es ∧ es ≠ [] ∧
      (∀ cap m, cap ∈ SCAN_CAPABILITIES → m ∈ su_modules su → rm_module m ∈ re_module <$> es →
         can_write (Some user) (JStr cap) (JStr (rm_type m)) = Ok true) ∧
      frame = Fr_start scan_id (wire_entries es) (sp_listen p) (sp_hang p) ∧
      (length (wire_entries es) ≤ MAX_ENTRIES)%nat ∧
      sdb_rows db' = <[station := mkScanRow (u_pk user) scan_id p "starting" now]> (sdb_rows db)
  end.
Proof. apply start_scan_spec. Qed.

(** A member starts a scan of one list. *)
Definition scan_user : User := mkUser 9 true true None "member".
Definition scan_surr : Surroundings := mkSurr half_bands false half_table half_lists.
Definition scan_msg : list (string * Json) := [("list_ids", JList [JInt 4; JInt 4])].

Lemma scan_start_authorised_witness :
  ∃ db' frame, start_scan (λ _, 0) pretty scan_surr 1 scan_user scan_msg "s1" 100 (mkScanDb ∅ []) = Ok (db', inr frame) ∧
    current_scan 1 db' = Some ("s1", "starting") ∧
    can_write (Some scan_user) (JStr "rx_frequency") (JStr "fm_transceiver") = Ok true.
Proof.
  eexists _, _. split; [reflexivity|].
  destruct (scan_start_authorised (λ _, 0) pretty scan_surr 1 scan_user scan_msg "s1" 100 (mkScanDb ∅ []) _ _ eq_refl)
    as (p & es & Hp & Hb & _ & Hw & _ & _ & Hr).
  split; [unfold current_scan; rewrite Hr, lookup_insert_eq; reflexivity|].
  apply (Hw "rx_frequency" (mkRadio "1" "low" "fm_transceiver" true REQUIRED_CAPS [("2m", 14400000, 14500000)])).
  - left.
  - left.
  - vm_compute in Hp. injection Hp as <-. vm_compute in Hb. injection Hb as <-. apply (bool_decide_eq_true_1 _). vm_compute. reflexivity.
Defined.

(** A late message of a replaced scan is harmless: neither its states nor its end
    touch the row of the scan that took its place; and the end of the current one
    removes exactly its row. *)
Lemma late_scan_messages station r id state reason db :
  sdb_rows db !! station = Some r →
  (as_scan_id r ≠ id → end_scan station reason (Some id) db = (db, None) ∧ note_state station id state db = db) ∧
  (as_scan_id r = id → (end_scan station reason (Some id) db).2 = Some id ∧
     sdb_rows (end_scan station reason (Some id) db).1 = delete station (sdb_rows db)).
Proof.
  intros Hr. unfold end_scan, note_state. rewrite Hr. split.
  - intros Hne. rewrite (decide_False (P := Some id = None ∨ _)) by naive_solver. split; [done|].
    case_decide; [|done]. by rewrite decide_False.
  - intros <-. rewrite decide_True by auto. done.
Qed.
