(* ===== verification/ControlConsumer.v ===== *)
(** * The browser's control connection

    Models [ControlConsumer] of [apps/control/consumers.py]: every frame a browser can
    send, the lock and PTT teardown, and the results the agent sends back, on top of
    the lock ([ControlLock]), the audio gate and write policy ([Audio]), permissions,
    the module registry with its persisted calibration, the scan rows and the
    telemetry demand.

    A handler is a coroutine: between two [await]s nothing else runs, at an [await]
    anything may happen.  It is a [Proc], a tree of atomic steps on the state of the
    server; a station has a pool of them ([pool_step]), one per frame in progress of
    any connection, interleaved at will with everything the handlers do not do (time,
    the sweep, other processes).  Every handler logs what it did under its own
    number, in the order it happened: the log is how the theorems speak about what a
    handler had checked before it sent a frame.

    Left out: the texts of messages, the audit rows' texts, and the timers of
    commands (a timer only reports to its browser). *)

From Stdlib Require Import ZArith Lia SpecFloat.
From stdpp Require Import base list gmap sets strings pretty.
From S2P Require Import Prelude Json Metrics Capabilities Permissions ControlLock Audio Registry Telemetry Repeaters ScanControl.

Local Open Scope Z_scope.

(** ** The server's state for one station *)

Notation Fields := (list (string * Json)).

(** Frames for the agent. *)
Inductive ToAgent :=
| A_command (msg : Fields)
| A_keepalive (msg : Fields)
| A_preset (request_id : Json) (plan : Plan)
| A_scan (frame : ScanFrame)
| A_telemetry (frame : Telemetry.Frame).

(** What is logged; [h] is the number of the handler, [u] the user it acts for. *)
Inductive Ev :=
| Ev_use (h u : Z)                               (* control.use confirmed *)
| Ev_touch (h u : Z)                             (* the lock was theirs *)
| Ev_write (h u : Z) (cap ty : Json)             (* the policy's verb confirmed *)
| Ev_override (h u : Z)                          (* may preempt *)
| Ev_relay (h : Z) (frame : ToAgent)
| Ev_stop_scan (h : Z) (scan_id : string)        (* sent by the scan module *)
| Ev_audit (h u : Z) (event : string)
| Ev_gate (g : AudioGate) (holder : option Z)    (* to the audio consumers *)
| Ev_lock (st : LockStatus)                      (* to the browsers *)
| Ev_requested (holder requester : Z)
| Ev_reply (h : Z) (code : string)               (* to this browser *)
| Ev_persist (h u : Z) (slot module cap value : Json)
| Ev_broadcast (h : Z) (kind : string)             (* another frame for all browsers *)
| Ev_crash (h : Z).                              (* an exception ended the handler *)

Record Conn := mkConn {
  cn_user : Z;
  cn_pending : list Json;                              (* request ids with a timer *)
  cn_persist : list (Json * (Json * Json * Json * Json));   (* request id -> slot, module, capability, value *)
  cn_frames : list Z                                   (* times of subscribe frames *)
}.

Record Server := mkServer {
  sv_now : Z;
  sv_users : list User;
  sv_assign : Z → Assignments;
  sv_region : option Z;
  sv_drain : bool;
  sv_lock : Lock;
  sv_gate : option AudioGate;
  sv_scan : ScanDb;
  sv_surr : Surroundings;
  sv_reg : RegDb;
  sv_tel : list TelSub;
  sv_presence : Presence;                              (* the current agent connections *)
  sv_conns : gmap Z Conn;
  sv_log : list Ev                                     (* newest first *)
}.

Definition put_lock (l : Lock) (s : Server) : Server :=
  mkServer (sv_now s) (sv_users s) (sv_assign s) (sv_region s) (sv_drain s) l (sv_gate s) (sv_scan s) (sv_surr s)
    (sv_reg s) (sv_tel s) (sv_presence s) (sv_conns s) (sv_log s).
Definition map_gate (f : AudioGate → AudioGate) (s : Server) : Server :=
  mkServer (sv_now s) (sv_users s) (sv_assign s) (sv_region s) (sv_drain s) (sv_lock s)
    (Some (f (default new_gate (sv_gate s)))) (sv_scan s) (sv_surr s) (sv_reg s) (sv_tel s) (sv_presence s) (sv_conns s) (sv_log s).
Definition set_scan (d : ScanDb) (s : Server) : Server :=
  mkServer (sv_now s) (sv_users s) (sv_assign s) (sv_region s) (sv_drain s) (sv_lock s) (sv_gate s) d (sv_surr s)
    (sv_reg s) (sv_tel s) (sv_presence s) (sv_conns s) (sv_log s).
Definition set_reg (r : RegDb) (s : Server) : Server :=
  mkServer (sv_now s) (sv_users s) (sv_assign s) (sv_region s) (sv_drain s) (sv_lock s) (sv_gate s) (sv_scan s) (sv_surr s)
    r (sv_tel s) (sv_presence s) (sv_conns s) (sv_log s).
Definition set_tel (t : list TelSub) (s : Server) : Server :=
  mkServer (sv_now s) (sv_users s) (sv_assign s) (sv_region s) (sv_drain s) (sv_lock s) (sv_gate s) (sv_scan s) (sv_surr s)
    (sv_reg s) t (sv_presence s) (sv_conns s) (sv_log s).
Definition set_conns (c : gmap Z Conn) (s : Server) : Server :=
  mkServer (sv_now s) (sv_users s) (sv_assign s) (sv_region s) (sv_drain s) (sv_lock s) (sv_gate s) (sv_scan s) (sv_surr s)
    (sv_reg s) (sv_tel s) (sv_presence s) c (sv_log s).
Definition log_ev (e : Ev) (s : Server) : Server :=
  mkServer (sv_now s) (sv_users s) (sv_assign s) (sv_region s) (sv_drain s) (sv_lock s) (sv_gate s) (sv_scan s) (sv_surr s)
    (sv_reg s) (sv_tel s) (sv_presence s) (sv_conns s) (e :: sv_log s).
Definition set_presence_map (p : Presence) (s : Server) : Server :=
  mkServer (sv_now s) (sv_users s) (sv_assign s) (sv_region s) (sv_drain s) (sv_lock s) (sv_gate s) (sv_scan s) (sv_surr s)
    (sv_reg s) (sv_tel s) p (sv_conns s) (sv_log s).

(** ** Coroutines *)

Inductive Proc :=
| Done
| Step (run : Server → Server * Proc).

(** A part of a handler that goes on with its result. *)
Definition Handler (A : Type) : Type := (A → Proc) → Proc.

#[export] Instance Handler_ret : MRet Handler := λ A a k, k a.
#[export] Instance Handler_bind : MBind Handler := λ A B f m k, m (λ a, f a k).

(** One stretch between two [await]s. *)
Definition atom {A} (f : Server → Server * A) : Handler A := λ k, Step (λ s, let '(s', a) := f s in (s', k a)).
Definition emit_ev (e : Ev) : Handler unit := atom (λ s, (log_ev e s, tt)).

(** An exception: the handler is over. *)
Definition crash {A} (h : Z) : Handler A := λ _, Step (λ s, (log_ev (Ev_crash h) s, Done)).

Fixpoint each {A} (f : A → Handler unit) (l : list A) : Handler unit :=
  match l with [] => mret tt | x :: l' => f x;; each f l' end.

(** ** Checks and helpers *)

Section consumer.
Variables (station ttl grace : Z).        (* microseconds; seconds of the reconnect grace *)
Variables (frame_window : Z) (frame_budget : nat).
Variable km : spec_float → Z.
Variable frequency_label : Z → string.
Variable text_of : Json → string.         (* [str(value)] *)

(** [_fresh_user]: the row as it is now, if the user is active. *)
Definition fresh_user (u : Z) (s : Server) : option User :=
  match list_find (λ x, u_pk x = u) (sv_users s) with
  | Some (_, x) => if is_active x then Some x else None
  | None => None
  end.

Definition can_now (u : Z) (verb : string) (s : Server) : bool :=
  match can AREAS (fresh_user u s) "control" verb with Ok b => b | Raise _ => false end.

(** [area_allows]: the denial is reported to the browser. *)
Definition area_allows (h u : Z) (verb : string) : Handler bool :=
  ok ← atom (λ s, if can_now u verb s then (if decide (verb = "use") then log_ev (Ev_use h u) s else s, true) else (s, false));
  if ok : bool then mret true else emit_ev (Ev_reply h "forbidden");; mret false.

Definition touch_if_holder (h u : Z) : Handler bool :=
  atom (λ s, let '(l, ok) := touch u (sv_now s) (sv_lock s) in
    (if ok : bool then log_ev (Ev_touch h u) (put_lock l s) else put_lock l s, ok)).

Definition relay (h : Z) (f : ToAgent) : Handler unit := emit_ev (Ev_relay h f).

Definition bridge_gate : Handler unit :=
  st ← atom (λ s, (s, get_wire_state (sv_gate s) (Some (sv_lock s))));
  emit_ev (Ev_gate st.1 st.2);; emit_ev (Ev_gate st.1 st.2).

Definition broadcast_lock : Handler unit :=
  st ← atom (λ s, (s, lock_status (sv_lock s)));
  emit_ev (Ev_lock st).

Definition audit_ev (h u : Z) (event : string) : Handler unit := emit_ev (Ev_audit h u event).

(** [_stop_scan]: the row and the agent's stop frame go together. *)
Definition stop_scan (h : Z) (reason : string) (unless_user : option Z) : Handler (option string) :=
  atom (λ s,
    let '(d, r) := stop_active_scan station reason unless_user (sv_scan s) in
    match r with
    | Some (id, _) => (log_ev (Ev_stop_scan h id) (set_scan d s), Some id)
    | None => (set_scan d s, None)
    end).

Definition gate_op (f : Z → AudioGate → AudioGate) : Handler unit := atom (λ s, (map_gate (f (sv_now s)) s, tt)).

Definition audio_clear_ptt : Handler unit := gate_op (λ _, clear_ptt).
Definition audio_clear_tx_route : Handler unit := gate_op (λ _, clear_tx_route).

Definition release_lock (u : Z) : Handler bool :=
  atom (λ s, let '(l, ok) := release u (sv_lock s) in (put_lock l s, ok)).

Definition revoke_if_holder (h u : Z) : Handler unit :=
  ok ← release_lock u;
  if negb ok then mret tt
  else
    audit_ev h u "control_lock_released";;
    stop_scan h "lock released" None;;
    audio_clear_ptt;; audio_clear_tx_route;; bridge_gate;; broadcast_lock.

(** ** Commands *)

Definition lookup_module_type (slot module : Json) (s : Server) : Json :=
  match slot_str slot, module with
  | Some sl, JStr m => match find_row station sl m (sv_reg s) with Some r => JStr (sm_type r) | None => JNull end
  | _, _ => JNull
  end.

(** [_may_write] *)
Definition may_write (h u : Z) (cap ty : Json) : Handler bool :=
  atom (λ s,
    match fresh_user u s with
    | None => (s, false)
    | Some x =>
      match can_write (Some x) cap ty with
      | Ok true => (log_ev (Ev_write h u cap ty) s, true)
      | _ => (s, false)
      end
    end).

(** [_authorize_command] *)
Definition authorize_command (h u : Z) (msg : Fields) : Handler (bool * Json) :=
  let cap := jget "capability" msg in
  if py_eq (jget "op" msg) (JStr "get") then mret (true, JNull)
  else
    ty ← atom (λ s, (s, lookup_module_type (jget "slot" msg) (jget "module" msg) s));
    ok ← may_write h u cap ty;
    if ok : bool then mret (true, ty)
    else
      audit_ev h u "control_command";;
      generic ← area_allows h u (verb_name (pol_verb (policy_for POLICY cap ty)));
      (if generic : bool then emit_ev (Ev_reply h "forbidden") else mret tt);;
      mret (false, ty).

(** A key of a Python dictionary: lists and objects are not hashable. *)
Definition hashable (v : Json) : bool := match v with JList _ | JObj _ => false | _ => true end.

(** [isinstance(rid, str) or type(rid) is int] *)
Definition is_request_id (v : Json) : bool := match v with JStr _ | JInt _ => true | _ => false end.

Definition drop_key {A} (k : Json) (l : list (Json * A)) : list (Json * A) := filter (λ p, py_eq p.1 k = false) l.
Definition drop_id (k : Json) (l : list Json) : list Json := filter (λ x, py_eq x k = false) l.

Definition map_conn (c : Z) (f : Conn → Conn) (s : Server) : Server := set_conns (alter f c (sv_conns s)) s.

(** [_remember_persist] *)
Definition remember_persist (c : Z) (msg : Fields) (ty : Json) (s : Server) : Server :=
  let rid := jget "request_id" msg in
  if negb (is_request_id rid) then s
  else
    let cap := jget "capability" msg in
    map_conn c (λ cn,
      let rest := drop_key rid (cn_persist cn) in
      mkConn (cn_user cn) (cn_pending cn)
        (if py_eq (jget "op" msg) (JStr "set") && pol_persist (policy_for POLICY cap ty)
         then (rid, (jget "slot" msg, jget "module" msg, cap, jget "value" msg)) :: rest else rest)
        (cn_frames cn)) s.

(** The timer of a request id replaces an older one. *)
Definition arm_timer (c : Z) (rid : Json) (s : Server) : Server :=
  map_conn c (λ cn, mkConn (cn_user cn) (rid :: drop_id rid (cn_pending cn)) (cn_persist cn) (cn_frames cn)) s.

(** [msg.get("module", "")], stored as text; [None]: a null the column refuses. *)
Definition gate_module (msg : Fields) : option string :=
  match list_find (λ p, p.1 = "module") msg with
  | None => Some ""
  | Some (_, (_, JNull)) => None
  | Some (_, (_, JStr s)) => Some s
  | Some (_, (_, v)) => Some (text_of v)
  end.

Definition set_ptt_gate (h : Z) (slot : Json) (msg : Fields) : Handler unit :=
  match gate_module msg with
  | None => crash h
  | Some m => gate_op (λ now, set_ptt slot m ttl now)
  end.

Definition handle_browser_command (h c u : Z) (msg : Fields) : Handler unit :=
  held ← touch_if_holder h u;
  if negb held then emit_ev (Ev_reply h "not_locked")
  else
    r ← authorize_command h u msg;
    let '(allowed, ty) := r in
    if negb allowed then mret tt
    else
      relay h (A_command msg);;
      atom (λ s, (remember_persist c msg ty s, tt));;
      let rid := jget "request_id" msg in
      (match rid with
       | JNull => mret tt
       | _ => if hashable rid then atom (λ s, (arm_timer c rid s, tt)) else crash h
       end);;
      let cap := jget "capability" msg in
      let value := jget "value" msg in
      audit_ev h u (if py_eq cap (JStr "ptt") then "control_ptt" else "control_command");;
      if py_eq cap (JStr "ptt") then
        (if truthy_json value then set_ptt_gate h (jget "slot" msg) msg else audio_clear_ptt);;
        bridge_gate
      else if py_eq cap (JStr "tx_route") then
        match value with
        | JObj v =>
          match gate_module v with
          | None => crash h
          | Some m => gate_op (λ _, set_tx_route (jget "slot" v) m);; bridge_gate
          end
        | JNull => audio_clear_tx_route;; bridge_gate
        | _ => mret tt
        end
      else mret tt.

(** ** Repeaters and scans *)

(** [_resolve_repeater] with its type checks. *)
Definition resolve_request (msg : Fields) (s : Server) : Resolved :=
  match jget "repeater_id" msg, jget "slot" msg, jget "module" msg with
  | JInt r, JStr slot, JNull => resolve_repeater (su_modules (sv_surr s)) (su_repeaters (sv_surr s)) r slot None
  | JInt r, JStr slot, JStr m => resolve_repeater (su_modules (sv_surr s)) (su_repeaters (sv_surr s)) r slot (Some m)
  | _, _, _ => NotApplicable
  end.

(** The capabilities of the plan the user may not write; each is its own check. *)
Fixpoint denied_caps (h u : Z) (caps : list string) (ty : Json) : Handler (list string) :=
  match caps with
  | [] => mret []
  | cap :: caps' =>
    ok ← may_write h u (JStr cap) ty;
    rest ← denied_caps h u caps' ty;
    mret (if ok : bool then rest else cap :: rest)
  end.

Definition handle_apply_repeater (h c u : Z) (msg : Fields) : Handler unit :=
  let rid := jget "request_id" msg in
  held ← touch_if_holder h u;
  if negb held then emit_ev (Ev_reply h "not_locked")
  else
    r ← atom (λ s, (s, resolve_request msg s));
    match r with
    | NotApplicable => emit_ev (Ev_reply h "not_applicable")
    | NotSupported => emit_ev (Ev_reply h "not_supported")
    | Resolved_ p =>
      denied ← denied_caps h u (pl_values p).*1 (JStr (pl_module_type p));
      if decide (denied = []) then
        relay h (A_preset rid p);;
        (if is_request_id rid then
           atom (λ s, (arm_timer c rid
             (map_conn c (λ cn, mkConn (cn_user cn) (cn_pending cn) (drop_key rid (cn_persist cn)) (cn_frames cn)) s), tt))
         else mret tt);;
        audit_ev h u "control_command"
      else
        audit_ev h u "control_command";; emit_ev (Ev_reply h "forbidden")
    end.

(** [_start_scan] and the scan module's [start_scan] in one database call. *)
Definition start_scan_now (h u : Z) (scan_id : string) (msg : Fields) : Handler (option ScanFrame) :=
  atom (λ s,
    match fresh_user u s with
    | None => (log_ev (Ev_reply h "forbidden") s, None)
    | Some x =>
      match start_scan km frequency_label (sv_surr s) station x msg scan_id (sv_now s) (sv_scan s) with
      | Ok (d, inr frame) =>
        (foldr (λ cap, log_ev (Ev_write h u (JStr cap) JNull)) (set_scan d s) SCAN_CAPABILITIES, Some frame)
      | Ok (d, inl _) => (log_ev (Ev_reply h "refused") (set_scan d s), None)
      | Raise _ => (log_ev (Ev_reply h "internal_error") s, None)
      end
    end).

Definition handle_scan_start (h u : Z) (scan_id : string) (msg : Fields) : Handler unit :=
  held ← touch_if_holder h u;
  if negb held then emit_ev (Ev_reply h "not_locked")
  else
    r ← start_scan_now h u scan_id msg;
    match r with Some f => relay h (A_scan f) | None => mret tt end.

Definition handle_scan_control (h u : Z) (msg : Fields) : Handler unit :=
  held ← touch_if_holder h u;
  if negb held then emit_ev (Ev_reply h "not_locked")
  else
    match jget "action" msg with
    | JStr action =>
      if decide (action ∉ SCAN_ACTIONS) then emit_ev (Ev_reply h "invalid_action")
      else
        id ← (if decide (action = "stop") then stop_scan h "operator" None
              else
                id ← atom (λ s, (s, current_scan_id station (sv_scan s)));
                match id with
                | Some i => relay h (A_scan (Fr_control i action));; mret id
                | None => mret id
                end);
        match id with Some _ => mret tt | None => emit_ev (Ev_reply h "no_active_scan") end
    | JList _ | JObj _ => crash h
    | _ => emit_ev (Ev_reply h "invalid_action")
    end.

(** ** The lock *)

Definition lock_acquire (h u : Z) : Handler unit :=
  g ← atom (λ s, let '(l, g) := acquire u (sv_drain s) (sv_now s) (sv_lock s) in (put_lock l s, g));
  (match g with
   | Granted => audit_ev h u "control_lock_acquired"
   | DRAIN_REFUSED => emit_ev (Ev_reply h "firmware_update_pending")
   | Refused => mret tt
   end);;
  broadcast_lock.

Definition lock_release (h u : Z) : Handler unit :=
  ok ← release_lock u;
  (if ok : bool then
     audit_ev h u "control_lock_released";; stop_scan h "lock released" None;; audio_clear_ptt;; bridge_gate
   else mret tt);;
  broadcast_lock.

Definition lock_request (h u : Z) : Handler unit :=
  r ← atom (λ s, (s, request_control u (sv_drain s) (sv_lock s)));
  match r with
  | RequestDrained => emit_ev (Ev_reply h "firmware_update_pending")
  | AskHolder hd => emit_ev (Ev_requested hd u)
  | NothingToAsk => mret tt
  end.

(** The key [int(value)] of an untrusted target; [None]: refused.  An infinite number
    raises past the handler. *)
Definition target_key (target : Json) : outcome unit (option Z) :=
  match target with
  | JInt t => Ok (Some t)
  | JBool b => Ok (Some (if b then 1 else 0))
  | JStr t => Ok (int_of_string t)
  | JFloat (S754_finite sign m e) => Ok (Some (if sign then - trunc_pos m e else trunc_pos m e))
  | JFloat (S754_zero _) => Ok (Some 0)
  | JFloat (S754_infinity _) => Raise tt
  | _ => Ok None
  end.

Definition lock_transfer (h u : Z) (target : Json) : Handler unit :=
  match target_key target with
  | Raise _ => crash h
  | Ok key =>
    g ← atom (λ s,
      let '(l, g) := match key with
                     | Some t => transfer (sv_users s) u t (sv_drain s) (sv_now s) (sv_lock s)
                     | None => (sv_lock s, Refused)
                     end in
      (put_lock l s, g));
    (match g with
     | Granted =>
       audit_ev h u "control_lock_transferred";; stop_scan h "lock transferred" None;; audio_clear_ptt;; bridge_gate
     | DRAIN_REFUSED => emit_ev (Ev_reply h "firmware_update_pending")
     | Refused => mret tt
     end);;
    broadcast_lock
  end.

Definition can_override_now (u : Z) (s : Server) : bool :=
  match fresh_user u s with
  | None => false
  | Some x =>
    match can_override_station (Some x) (sv_assign s u) station (sv_region s) with Ok b => b | Raise _ => false end
  end.

Definition lock_preempt (h u : Z) : Handler unit :=
  ok ← atom (λ s, if can_override_now u s then (log_ev (Ev_override h u) s, true) else (s, false));
  if negb ok then emit_ev (Ev_reply h "forbidden")
  else
    g ← atom (λ s, let '(l, g) := preempt u (sv_drain s) (sv_now s) (sv_lock s) in (put_lock l s, g));
    match g with
    | DRAIN_REFUSED => emit_ev (Ev_reply h "firmware_update_pending");; emit_ev (Ev_reply h "lock")
    | _ =>
      audit_ev h u "control_lock_preempted";;
      stop_scan h "lock preempted" (Some u);; audio_clear_ptt;; bridge_gate;; broadcast_lock
    end.

(** ** Telemetry *)

(** [_telemetry_budget_ok]: frames older than the window leave, the rest are counted. *)
Definition budget_ok (now : Z) (frames : list Z) : list Z * bool :=
  let live := (fix trim l := match l with t :: l' => if decide (frame_window < now - t) then trim l' else l | [] => [] end) frames in
  if decide (frame_budget ≤ length live)%nat then (live, false) else (live ++ [now], true).

Definition telemetry_budget (c : Z) : Handler bool :=
  atom (λ s,
    match sv_conns s !! c with
    | None => (s, false)
    | Some cn =>
      let '(fs, ok) := budget_ok (sv_now s) (cn_frames cn) in
      (map_conn c (λ cn, mkConn (cn_user cn) (cn_pending cn) (cn_persist cn) fs) s, ok)
    end).

(** The registered descriptor of a module. *)
Definition registered (s : Server) (addr : Z * string) : option Json :=
  (λ r, JList (JObj <$> sm_desc r)) <$> find_row station (pretty addr.1) addr.2 (sv_reg s).

Definition telemetry_change (h c : Z) (msg : Fields) (subscribing : bool) : Handler unit :=
  match parse_addr msg with
  | None => mret tt
  | Some (slot, module, caps) =>
    ok ← telemetry_budget c;
    if negb ok then mret tt
    else
      fs ← atom (λ s,
        let '(t, fs) :=
          if subscribing then
            telemetry_subscribe (registered s) (pretty c) (slot, module) caps (jget "interval_ms" msg) (sv_now s) (sv_tel s)
          else telemetry_unsubscribe (pretty c) (slot, module) caps (sv_now s) (sv_tel s) in
        (set_tel t s, fs));
      each (λ f, relay h (A_telemetry f)) fs
  end.

(** ** A frame *)

Definition USE_ACTIONS : list string :=
  ["lock_acquire"; "lock_request"; "lock_transfer"; "ptt_keepalive"; "apply_repeater"; "scan_start"; "scan_control"].

Definition handle_keepalive (h u : Z) (msg : Fields) : Handler unit :=
  held ← touch_if_holder h u;
  if negb held then emit_ev (Ev_reply h "not_locked")
  else relay h (A_keepalive msg);; gate_op (λ now, refresh_ptt ttl now);; bridge_gate.

Definition dispatch_frame (h c u : Z) (scan_id : string) (mtype : string) (msg : Fields) : Handler unit :=
  if decide (mtype = "command") then handle_browser_command h c u msg
  else if decide (mtype = "apply_repeater") then handle_apply_repeater h c u msg
  else if decide (mtype = "scan_start") then handle_scan_start h u scan_id msg
  else if decide (mtype = "scan_control") then handle_scan_control h u msg
  else if decide (mtype = "ptt_keepalive") then handle_keepalive h u msg
  else if decide (mtype = "subscribe") then telemetry_change h c msg true
  else if decide (mtype = "unsubscribe") then telemetry_change h c msg false
  else if decide (mtype = "lock_acquire") then lock_acquire h u
  else if decide (mtype = "lock_release") then lock_release h u
  else if decide (mtype = "lock_request") then lock_request h u
  else if decide (mtype = "lock_transfer") then lock_transfer h u (jget "to_user_id" msg)
  else if decide (mtype = "lock_preempt") then lock_preempt h u
  else mret tt.

(** [receive] of an object; [scan_id] is the random id a scan would get. *)
Definition browser_receive (h c u : Z) (scan_id : string) (msg : Fields) : Handler unit :=
  match jget "type" msg with
  | JStr mtype =>
    if decide (mtype ∈ USE_ACTIONS ∨ mtype = "command") then
      ok ← area_allows h u "use";
      if ok : bool then dispatch_frame h c u scan_id mtype msg else revoke_if_holder h u
    else dispatch_frame h c u scan_id mtype msg
  | JList _ | JObj _ => crash h
  | _ => mret tt
  end.

(** ** The connection's life *)

Definition browser_connect (h c u : Z) : Handler unit :=
  ok ← area_allows h u "view";
  if negb ok then mret tt
  else
    atom (λ s, (set_conns (<[c := mkConn u [] [] []]> (sv_conns s)) s, tt));;
    use ← atom (λ s, (s, can_now u "use" s));
    (if use : bool then atom (λ s, (put_lock (holder_reconnected u (sv_lock s)) s, tt)) else revoke_if_holder h u);;
    emit_ev (Ev_reply h "inventory");; emit_ev (Ev_reply h "lock").

Definition browser_disconnect (h c u : Z) : Handler unit :=
  atom (λ s, (map_conn c (λ cn, mkConn (cn_user cn) [] [] (cn_frames cn)) s, tt));;
  atom (λ s, (put_lock (holder_disconnected u grace (sv_now s) (sv_lock s)) s, tt));;
  fs ← atom (λ s, let '(t, fs) := telemetry_drop_channel (pretty c) (sv_now s) (sv_tel s) in (set_tel t s, fs));
  each (λ f, relay h (A_telemetry f)) fs;;
  atom (λ s, (set_conns (delete c (sv_conns s)) s, tt)).

(** [on_periodic_recheck] of a viewer that may still watch. *)
Definition periodic_recheck (h c u : Z) : Handler unit :=
  use ← atom (λ s, (s, can_now u "use" s));
  (if use : bool then mret tt else revoke_if_holder h u);;
  atom (λ s, (set_tel (touch_rows (pretty c) (sv_now s) (sv_tel s)) s, tt)).

(** [control_lock] *)
Definition on_lock_broadcast (c u : Z) (st : LockStatus) : Handler unit :=
  atom (λ s,
    (match st with
     | StatusHeld hd _ => if decide (hd = u) then s
       else map_conn c (λ cn, mkConn (cn_user cn) (cn_pending cn) [] (cn_frames cn)) s
     | StatusFree => map_conn c (λ cn, mkConn (cn_user cn) (cn_pending cn) [] (cn_frames cn)) s
     end, tt)).

(** [_persist]: the holder, then the user's rights, then the write. *)
Definition persist_result (h u : Z) (slot module cap value : Json) : Handler unit :=
  held ← atom (λ s, if decide (holder (sv_lock s) = Some u) then (log_ev (Ev_touch h u) s, true) else (s, false));
  if negb held then mret tt
  else
    ok ← may_write h u cap JNull;
    if negb ok then mret tt
    else
      stored ← atom (λ s,
        match slot_str slot with
        | None => (s, false)
        | Some sl =>
          let '(r, ok) := persist_if_valid station sl module cap value (Some u) (sv_reg s) in
          (if ok : bool then log_ev (Ev_persist h u slot module cap value) (set_reg r s) else s, ok)
        end);
      if stored : bool then audit_ev h u "control_command" else mret tt.

(** [control_result] *)
Definition on_result (h c u : Z) (msg : Fields) : Handler unit :=
  let rid := jget "request_id" msg in
  if negb (hashable rid) then crash h
  else
    entry ← atom (λ s,
      let entry :=
        if is_request_id rid then
          cn ← sv_conns s !! c; snd ∘ snd <$> list_find (λ p, py_eq p.1 rid = true) (cn_persist cn)
        else None in
      (map_conn c (λ cn, mkConn (cn_user cn) (drop_id rid (cn_pending cn))
         (if is_request_id rid then drop_key rid (cn_persist cn) else cn_persist cn) (cn_frames cn)) s, entry));
    emit_ev (Ev_reply h "result");;
    match entry, jget "ok" msg with
    | Some (slot, module, cap, value), JBool true => persist_result h u slot module cap value
    | _, _ => mret tt
    end.

End consumer.

(** ** Interleavings *)

Section pool.
Variables (station ttl grace frame_window : Z) (frame_budget : nat).
Variables (km : spec_float → Z) (frequency_label : Z → string) (text_of : Json → string).

(** What a station's consumers start: a frame of a browser, a connection that opens or
    ends, a periodic check, a lock broadcast, a result of the agent. *)
Inductive handler (h : Z) : Proc → Prop :=
| H_receive c u scan_id msg :
    handler h (browser_receive station ttl frame_window frame_budget km frequency_label text_of h c u scan_id msg (λ _, Done))
| H_connect c u : handler h (browser_connect station h c u (λ _, Done))
| H_disconnect c u : handler h (browser_disconnect grace h c u (λ _, Done))
| H_recheck c u : handler h (periodic_recheck station h c u (λ _, Done))
| H_lock c u st : handler h (on_lock_broadcast c u st (λ _, Done))
| H_result c u msg : handler h (on_result station h c u msg (λ _, Done)).

(** The states of the server, newest first, and the handlers by number. *)
Inductive execution : list Server → gmap Z Proc → Prop :=
| X_start s : sv_log s = [] → execution [s] ∅
| X_spawn hist pool h p : execution hist pool → pool !! h = None → handler h p → execution hist (<[h := p]> pool)
| X_run s hist pool h f : execution (s :: hist) pool → pool !! h = Some (Step f) →
    execution ((f s).1 :: s :: hist) (<[h := (f s).2]> pool)
| X_outside s s' hist pool : execution (s :: hist) pool → sv_log s' = sv_log s → execution (s' :: s :: hist) pool.

End pool.

(** ** What the log promises *)

Section rules.
Variable station : Z.

(** An entry was true when it was written. *)
Definition true_at (s : Server) (e : Ev) : Prop :=
  match e with
  | Ev_use _ u => can_now u "use" s = true
  | Ev_touch _ u => holder (sv_lock s) = Some u
  | Ev_write _ u cap ty => ∃ x, fresh_user u s = Some x ∧ can_write (Some x) cap ty = Ok true
  | Ev_override _ u => can_override_now station u s = true
  | _ => True
  end.

(** What a handler must have done before it sends a frame to the agent, or stores. *)
Definition justified (e : Ev) (before : list Ev) : Prop :=
  match e with
  | Ev_relay h (A_command msg) => ∃ u, Ev_use h u ∈ before ∧ Ev_touch h u ∈ before ∧
      (py_eq (jget "op" msg) (JStr "get") = true ∨ ∃ ty, Ev_write h u (jget "capability" msg) ty ∈ before)
  | Ev_relay h (A_keepalive _) => ∃ u, Ev_use h u ∈ before ∧ Ev_touch h u ∈ before
  | Ev_relay h (A_preset _ p) => ∃ u, Ev_use h u ∈ before ∧ Ev_touch h u ∈ before ∧
      ∀ cap, cap ∈ (pl_values p).*1 → Ev_write h u (JStr cap) (JStr (pl_module_type p)) ∈ before
  | Ev_relay h (A_scan (Fr_start _ _ _ _)) => ∃ u, Ev_use h u ∈ before ∧ Ev_touch h u ∈ before ∧
      ∀ cap, cap ∈ SCAN_CAPABILITIES → Ev_write h u (JStr cap) JNull ∈ before
  | Ev_relay h (A_scan (Fr_control _ _)) => ∃ u, Ev_use h u ∈ before ∧ Ev_touch h u ∈ before
  | Ev_relay _ (A_scan (Fr_update _ _)) => False
  | Ev_relay _ (A_telemetry _) => True
  | Ev_persist h u _ _ cap _ => Ev_touch h u ∈ before ∧ Ev_write h u cap JNull ∈ before
  | _ => True
  end.

Definition sends (e : Ev) : bool :=
  match e with Ev_relay _ _ | Ev_persist _ _ _ _ _ _ => true | _ => false end.

(** One step: everything it logs is true, and a frame or a write stands alone and is
    justified by the log before it. *)
Definition step_ok (s : Server) (new : list Ev) : Prop :=
  Forall (true_at s) new ∧ (Forall (λ e, sends e = false) new ∨ ∃ e, new = [e] ∧ justified e (sv_log s)).

Fixpoint safe (known : list Ev) (p : Proc) : Prop :=
  match p with
  | Done => True
  | Step f => ∀ s, known ⊆ sv_log s →
      let '(s', p') := f s in ∃ new, sv_log s' = new ++ sv_log s ∧ step_ok s new ∧ safe (sv_log s') p'
  end.

Lemma safe_mono known known' p : known ⊆ known' → safe known p → safe known' p.
Proof. destruct p as [|f]; [done|]. intros Hk Hs s Hsub. apply Hs. set_solver. Qed.

(** ** Proof rules *)

Lemma safe_atom {A} (f : Server → Server * A) k known :
  (∀ s, known ⊆ sv_log s → ∃ new, sv_log (f s).1 = new ++ sv_log s ∧ step_ok s new ∧ safe (sv_log (f s).1) (k (f s).2)) →
  safe known (atom f k).
Proof. intros Hf s Hs. specialize (Hf s Hs). by destruct (f s) as [s' a]. Qed.

(** A stretch that logs nothing. *)
Lemma safe_silent {A} (f : Server → Server * A) k known :
  (∀ s, sv_log (f s).1 = sv_log s) → (∀ a known', known ⊆ known' → safe known' (k a)) → safe known (atom f k).
Proof.
  intros Hf Hk. apply safe_atom. intros s Hs. exists []. rewrite Hf. split; [done|]. split; [split; [constructor|left; constructor]|].
  by apply Hk.
Qed.

Lemma safe_emit e k known :
  sends e = false → (∀ s, true_at s e) → (∀ known', known ⊆ known' → safe known' (k tt)) → safe known (emit_ev e k).
Proof.
  intros He Ht Hk. apply safe_atom. intros s Hs. exists [e]. simpl. split; [done|].
  split; [split; [by constructor|left; by constructor]|]. apply Hk. set_solver.
Qed.

Lemma safe_relay h f k known :
  (∀ L, known ⊆ L → justified (Ev_relay h f) L) →
  (∀ known', known ⊆ known' → safe known' (k tt)) → safe known (relay h f k).
Proof.
  intros Hj Hk. apply safe_atom. intros s Hs. exists [Ev_relay h f]. simpl. split; [done|].
  split; [split; [by constructor|right; eexists; split; [done|by apply Hj]]|]. apply Hk. set_solver.
Qed.

(** Handlers that check nothing and send nothing. *)
Definition plain {A} (m : Handler A) : Prop :=
  ∀ k known, (∀ a known', known ⊆ known' → safe known' (k a)) → safe known (m k).

Lemma plain_ret {A} (a : A) : plain (mret a).
Proof. intros k known Hk. by apply Hk. Qed.

Lemma plain_bind {A B} (m : Handler A) (f : A → Handler B) : plain m → (∀ a, plain (f a)) → plain (m ≫= f).
Proof.
  intros Hm Hf k known Hk. unfold mbind, Handler_bind. apply Hm. intros a known' Hs. apply Hf.
  intros b known'' Hs'. apply Hk. set_solver.
Qed.

Lemma plain_silent {A} (f : Server → Server * A) : (∀ s, sv_log (f s).1 = sv_log s) → plain (atom f).
Proof. intros Hf k known Hk. by apply safe_silent. Qed.

Lemma plain_emit e : sends e = false → (∀ s, true_at s e) → plain (emit_ev e).
Proof. intros He Ht k known Hk. apply safe_emit; auto. Qed.

Lemma plain_crash {A} h : plain (crash (A := A) h).
Proof.
  intros k known Hk s Hs. exists [Ev_crash h]. simpl. split; [done|]. split; [|done].
  split; [by constructor|left; by constructor].
Qed.
End rules.

Create HintDb plain.
#[export] Hint Resolve plain_ret plain_bind plain_crash : plain.
#[export] Hint Extern 1 (plain _ (emit_ev _)) => apply plain_emit; [done|done] : plain.

Section authority.
Variables (station ttl grace frame_window : Z) (frame_budget : nat).
Variables (km : spec_float → Z) (frequency_label : Z → string) (text_of : Json → string).

Notation safe := (safe station).
Notation plain := (plain station).

Lemma log_map_gate f s : sv_log (map_gate f s) = sv_log s. Proof. done. Qed.
Lemma log_map_conn c f s : sv_log (map_conn c f s) = sv_log s. Proof. done. Qed.

Lemma plain_gate_op f : plain (gate_op f).
Proof. by apply plain_silent. Qed.

Lemma plain_bridge : plain bridge_gate.
Proof. unfold bridge_gate. apply plain_bind; [by apply plain_silent|]. intros st. auto with plain. Qed.

Lemma plain_broadcast : plain broadcast_lock.
Proof. unfold broadcast_lock. apply plain_bind; [by apply plain_silent|]. auto with plain. Qed.

Lemma plain_audit h u ev : plain (audit_ev h u ev).
Proof. unfold audit_ev. auto with plain. Qed.

Lemma plain_stop_scan h reason unless : plain (stop_scan station h reason unless).
Proof.
  intros k known Hk. apply safe_atom. intros s Hs.
  destruct (stop_active_scan station reason unless (sv_scan s)) as [d [[id f]|]]; simpl.
  - exists [Ev_stop_scan h id]. split; [done|]. split; [split; [by constructor|left; by constructor]|].
    apply Hk. set_solver.
  - exists []. split; [done|]. split; [split; [constructor|left; constructor]|]. by apply Hk.
Qed.

Lemma plain_release u : plain (release_lock u).
Proof. apply plain_silent. intros s. by destruct (release u (sv_lock s)). Qed.

#[local] Hint Resolve plain_gate_op plain_bridge plain_broadcast plain_audit plain_stop_scan plain_release : plain.

(** Whatever [f] answers, keep going. *)
Ltac plain_auto :=
  repeat lazymatch goal with
  | |- ControlConsumer.plain _ (_ ≫= _) => apply plain_bind; [|intros ?]
  | |- ControlConsumer.plain _ (if ?b then _ else _) => destruct b
  | |- ControlConsumer.plain _ (match ?x with _ => _ end) => destruct x
  | |- _ => auto with plain
  end.

Lemma plain_revoke h u : plain (revoke_if_holder station h u).
Proof. unfold revoke_if_holder, audio_clear_ptt, audio_clear_tx_route. plain_auto. Qed.

Lemma plain_area h u verb : plain (area_allows h u verb).
Proof.
  unfold area_allows. apply plain_bind; [|intros []; plain_auto].
  intros k known Hk. apply safe_atom. intros s Hs. destruct (can_now u verb s) eqn:Hc; [case_decide as Hv|]; simpl.
  - exists [Ev_use h u]. split; [done|]. split; [|apply Hk; set_solver].
    split; [|left; by constructor]. constructor; [|done]. simpl. by subst.
  - exists []. split; [done|]. split; [split; [constructor|left; constructor]|]. by apply Hk.
  - exists []. split; [done|]. split; [split; [constructor|left; constructor]|]. by apply Hk.
Qed.

Lemma plain_may_write h u cap ty : plain (may_write h u cap ty).
Proof.
  intros k known Hk. apply safe_atom. intros s Hs.
  destruct (fresh_user u s) as [x|] eqn:Hu; [destruct (can_write (Some x) cap ty) as [[]|] eqn:Hw|]; simpl;
    try (exists []; split; [done|]; split; [split; [constructor|left; constructor]|]; by apply Hk).
  exists [Ev_write h u cap ty]. split; [done|]. split; [|apply Hk; set_solver].
  split; [|left; by constructor]. constructor; [|done]. simpl. eauto.
Qed.

#[local] Hint Resolve plain_revoke plain_area plain_may_write : plain.

(** A plain part inside a handler that still has facts to use. *)
Lemma safe_plain {A B} (m : Handler A) (f : A → Handler B) k known :
  plain m → (∀ a L, known ⊆ L → safe L (f a k)) → safe known ((m ≫= f) k).
Proof. intros Hm Hf. by apply Hm. Qed.

(** The checks that hand something on. *)
Lemma safe_area h u k known :
  (∀ L, known ⊆ L → Ev_use h u ∈ L → safe L (k true)) → (∀ L, known ⊆ L → safe L (k false)) →
  safe known (area_allows h u "use" k).
Proof.
  intros Ht Hf. apply safe_atom. intros s Hs. destruct (can_now u "use" s) eqn:Hc; cbn [fst snd].
  - exists [Ev_use h u]. split; [done|]. split; [|apply Ht; set_solver].
    split; [|left; by constructor]. by constructor.
  - exists []. split; [done|]. split; [split; [constructor|left; constructor]|].
    apply safe_plain; [auto with plain|]. intros _ L HL. apply Hf. set_solver.
Qed.

Lemma safe_touch h u k known :
  (∀ L, known ⊆ L → Ev_touch h u ∈ L → safe L (k true)) → (∀ L, known ⊆ L → safe L (k false)) →
  safe known (touch_if_holder h u k).
Proof.
  intros Ht Hf. apply safe_atom. intros s Hs. unfold touch. case_decide as Hh; simpl.
  - exists [Ev_touch h u]. split; [done|]. split; [|apply Ht; set_solver].
    split; [|left; by constructor]. by constructor.
  - exists []. split; [done|]. split; [split; [constructor|left; constructor]|]. by apply Hf.
Qed.

Lemma safe_may_write h u cap ty k known :
  (∀ L, known ⊆ L → Ev_write h u cap ty ∈ L → safe L (k true)) → (∀ L, known ⊆ L → safe L (k false)) →
  safe known (may_write h u cap ty k).
Proof.
  intros Ht Hf. apply safe_atom. intros s Hs.
  destruct (fresh_user u s) as [x|] eqn:Hu; [destruct (can_write (Some x) cap ty) as [[]|] eqn:Hw|]; simpl;
    try (exists []; split; [done|]; split; [split; [constructor|left; constructor]|]; by apply Hf).
  exists [Ev_write h u cap ty]. split; [done|]. split; [|apply Ht; set_solver].
  split; [|left; by constructor]. constructor; [|done]. simpl. eauto.
Qed.

Lemma safe_done {A} (m : Handler A) known : plain m → safe known (m (λ _, Done)).
Proof. intros Hm. by apply Hm. Qed.

Lemma safe_authorize h u msg k known :
  (∀ ty L, known ⊆ L → (py_eq (jget "op" msg) (JStr "get") = true ∨ Ev_write h u (jget "capability" msg) ty ∈ L) →
     safe L (k (true, ty))) →
  (∀ ty L, known ⊆ L → safe L (k (false, ty))) →
  safe known (authorize_command station h u msg k).
Proof.
  intros Ht Hf. unfold authorize_command. destruct (py_eq _ _); [apply Ht; [done|by left]|].
  apply safe_plain; [by apply plain_silent|]. intros ty L HL. apply safe_may_write; intros L' HL'.
  - intros Hw. apply Ht; [set_solver|by right].
  - apply safe_plain; [auto with plain|]. intros _ L2 H2. apply safe_plain; [auto with plain|]. intros g L3 H3.
    apply safe_plain; [plain_auto|]. intros _ L4 H4. apply Hf. set_solver.
Qed.

Lemma plain_set_ptt h slot msg : plain (set_ptt_gate ttl text_of h slot msg).
Proof. unfold set_ptt_gate. destruct (gate_module text_of msg); auto with plain. Qed.

#[local] Hint Resolve plain_set_ptt : plain.
#[local] Hint Extern 1 (ControlConsumer.plain _ (atom _)) => apply plain_silent; intros ?; done : plain.

Lemma plain_conn c f : plain (atom (λ s, (map_conn c f s, tt))).
Proof. by apply plain_silent. Qed.

Lemma safe_command h c u msg known :
  Ev_use h u ∈ known → safe known (handle_browser_command station ttl text_of h c u msg (λ _, Done)).
Proof.
  intros Hu. unfold handle_browser_command. apply safe_touch; intros L HL; [|cbn [negb]; apply safe_done; auto with plain].
  intros Htouch. cbn [negb]. apply safe_authorize; intros ty L1 H1; [|done]. intros Hw. cbn [negb].
  apply safe_relay.
  { intros L2 H2. exists u. split; [set_solver|]. split; [set_solver|].
    destruct Hw as [?|Hw]; [by left|right]. exists ty. set_solver. }
  intros L2 H2. apply safe_done. apply plain_bind.
  { apply plain_silent. intros s. unfold remember_persist. simpl. by destruct (negb _). }
  intros _. apply plain_bind.
  { destruct (jget "request_id" msg); simpl; auto with plain; by apply plain_silent. }
  intros _. apply plain_bind; [auto with plain|]. intros _.
  destruct (py_eq _ (JStr "ptt")).
  { apply plain_bind; [unfold audio_clear_ptt; plain_auto|auto with plain]. }
  destruct (py_eq _ (JStr "tx_route")); [|auto with plain].
  unfold audio_clear_tx_route. plain_auto.
Qed.

Lemma safe_denied h u ty caps k known :
  (∀ L denied, known ⊆ L → (denied = [] → ∀ cap, cap ∈ caps → Ev_write h u (JStr cap) ty ∈ L) → safe L (k denied)) →
  safe known (denied_caps h u caps ty k).
Proof.
  revert k known. induction caps as [|cap caps IH]; intros k known Hk; simpl.
  { apply Hk; [done|]. intros _ cap Hc. by apply not_elem_of_nil in Hc. }
  apply safe_may_write; intros L HL.
  - intros Hw. apply IH. intros L2 denied H2 Hall. apply Hk; [set_solver|]. intros Hd c Hc.
    apply elem_of_cons in Hc as [->|Hc]; [set_solver|]. by apply Hall.
  - apply IH. intros L2 denied H2 Hall. apply Hk; [set_solver|done].
Qed.

Lemma safe_apply_repeater h c u msg known :
  Ev_use h u ∈ known → safe known (handle_apply_repeater h c u msg (λ _, Done)).
Proof.
  intros Hu. unfold handle_apply_repeater. apply safe_touch; intros L HL; [|cbn [negb]; apply safe_done; auto with plain].
  intros Htouch. cbn [negb]. apply safe_plain; [by apply plain_silent|]. intros r L1 H1.
  destruct r as [| |p]; [apply safe_done; auto with plain..|].
  apply safe_denied. intros L2 denied H2 Hall. cbn beta. case_decide as Hd.
  - apply safe_relay.
    { intros L3 H3. exists u. split; [set_solver|]. split; [set_solver|]. intros cap Hc. apply H3, Hall; done. }
    intros L3 H3. apply safe_done. apply plain_bind; [destruct (is_request_id _); [by apply plain_silent|]|]; auto with plain.
  - apply safe_done. plain_auto.
Qed.

Lemma safe_scan_start h u id msg known :
  Ev_use h u ∈ known → safe known (handle_scan_start station km frequency_label h u id msg (λ _, Done)).
Proof.
  intros Hu. unfold handle_scan_start. apply safe_touch; intros L HL; [|cbn [negb]; apply safe_done; auto with plain].
  intros Htouch. cbn [negb]. apply safe_atom. intros s Hs.
  destruct (fresh_user u s) as [x|] eqn:Hx.
  2:{ exists [Ev_reply h "forbidden"]. simpl. split; [done|]. split; [|done]. split; [by constructor|left; by constructor]. }
  destruct (start_scan _ _ _ _ _ _ _ _ _) as [[d [code|frame]]|] eqn:Hstart.
  - exists [Ev_reply h "refused"]. simpl. split; [done|]. split; [|done]. split; [by constructor|left; by constructor].
  - pose proof Hstart as Hframe. apply start_scan_spec in Hframe as (p & es & _ & _ & _ & _ & -> & _).
    assert (∀ cap, cap ∈ SCAN_CAPABILITIES → can_write (Some x) (JStr cap) JNull = Ok true) as Hw.
    { intros cap Hc. unfold start_scan in Hstart. destruct (parse_start msg) as [[p'|]|]; try done.
      destruct (may_write_all x [JNull]) as [[]|] eqn:Hm; simpl in Hstart; try done.
      eapply may_write_all_true; [exact Hm|done|]. left. }
    exists ((λ cap, Ev_write h u (JStr cap) JNull) <$> SCAN_CAPABILITIES). split; [done|]. split.
    + split; [|left; by repeat constructor]. apply Forall_fmap, list.Forall_forall. intros cap Hc. simpl. eauto.
    + cbn [fst snd]. apply safe_relay; [|done]. intros L2 H2. exists u.
      change (sv_log _) with (((λ cap, Ev_write h u (JStr cap) JNull) <$> SCAN_CAPABILITIES) ++ sv_log s) in H2.
      split; [set_solver|]. split; [set_solver|]. intros cap Hc. apply H2, elem_of_app. left.
      apply list_elem_of_fmap. eauto.
  - exists [Ev_reply h "internal_error"]. simpl. split; [done|]. split; [|done]. split; [by constructor|left; by constructor].
Qed.

Lemma safe_assoc {A B C} (m : Handler A) (g : A → Handler B) (f : B → Handler C) k known :
  safe known ((m ≫= λ a, g a ≫= f) k) → safe known (((m ≫= g) ≫= f) k).
Proof. done. Qed.

Lemma safe_scan_control h u msg known :
  Ev_use h u ∈ known → safe known (handle_scan_control station h u msg (λ _, Done)).
Proof.
  intros Hu. unfold handle_scan_control. apply safe_touch; intros L HL; [|cbn [negb]; apply safe_done; auto with plain].
  intros Htouch. cbn [negb]. destruct (jget "action" msg) as [| | | |action| |]; try (apply safe_done; solve [auto with plain]).
  case_decide; [apply safe_done; auto with plain|]. case_decide.
  { apply safe_done. plain_auto. }
  apply safe_assoc, safe_plain; [by apply plain_silent|]. intros [i|] L1 H1; [|apply safe_done; plain_auto].
  apply safe_assoc, safe_relay; [|done]. intros L2 H2. exists u. set_solver.
Qed.

Lemma safe_keepalive h u msg known :
  Ev_use h u ∈ known → safe known (handle_keepalive ttl h u msg (λ _, Done)).
Proof.
  intros Hu. unfold handle_keepalive. apply safe_touch; intros L HL; [|cbn [negb]; apply safe_done; auto with plain].
  intros Htouch. cbn [negb]. apply safe_relay; [intros L2 H2; exists u; set_solver|].
  intros L2 H2. apply safe_done. plain_auto.
Qed.

Lemma plain_relay_telemetry h f : plain (relay h (A_telemetry f)).
Proof. intros k known Hk. apply safe_relay; [done|]. auto. Qed.

Lemma plain_each {A} (f : A → Handler unit) l : (∀ x, plain (f x)) → plain (each f l).
Proof. intros Hf. induction l as [|x l IH]; simpl; auto with plain. Qed.

Lemma plain_telemetry h c msg b : plain (telemetry_change station frame_window frame_budget h c msg b).
Proof.
  unfold telemetry_change. destruct (parse_addr msg) as [[[slot module] caps]|]; [|auto with plain].
  apply plain_bind.
  { apply plain_silent. intros s. destruct (sv_conns s !! c); [|done].
    by destruct (budget_ok frame_window frame_budget (sv_now s) (cn_frames c0)). }
  intros [|]; cbn [negb]; [|auto with plain]. apply plain_bind; [|intros fs; apply plain_each; apply plain_relay_telemetry].
  apply plain_silent. intros s. destruct b.
  - by destruct (telemetry_subscribe _ _ _ _ _ _ _).
  - by destruct (telemetry_unsubscribe _ _ _ _ _).
Qed.

Lemma plain_acquire h u : plain (lock_acquire h u).
Proof.
  unfold lock_acquire. apply plain_bind; [|intros g; plain_auto].
  apply plain_silent. intros s. by destruct (acquire u (sv_drain s) (sv_now s) (sv_lock s)).
Qed.

Lemma plain_lock_release h u : plain (lock_release station h u).
Proof. unfold lock_release, audio_clear_ptt. plain_auto. Qed.

Lemma plain_request h u : plain (lock_request h u).
Proof. unfold lock_request. apply plain_bind; [by apply plain_silent|intros g; plain_auto]. Qed.

Lemma plain_transfer h u target : plain (lock_transfer station h u target).
Proof.
  unfold lock_transfer, audio_clear_ptt. destruct (target_key target) as [key|]; [|auto with plain].
  apply plain_bind; [|intros g; plain_auto]. apply plain_silent. intros s.
  destruct key as [t|]; [|done]. by destruct (transfer (sv_users s) u t (sv_drain s) (sv_now s) (sv_lock s)).
Qed.

Lemma plain_preempt h u : plain (lock_preempt station h u).
Proof.
  unfold lock_preempt, audio_clear_ptt. apply plain_bind.
  { intros k known Hk. apply safe_atom. intros s Hs. destruct (can_override_now station u s) eqn:Hc; simpl.
    - exists [Ev_override h u]. split; [done|]. split; [|apply Hk; set_solver]. split; [by constructor|left; by constructor].
    - exists []. split; [done|]. split; [split; [constructor|left; constructor]|]. by apply Hk. }
  intros [|]; cbn [negb]; [|auto with plain]. apply plain_bind; [|intros g; plain_auto].
  apply plain_silent. intros s. by destruct (preempt u (sv_drain s) (sv_now s) (sv_lock s)).
Qed.

#[local] Hint Resolve plain_telemetry plain_acquire plain_lock_release plain_request plain_transfer plain_preempt : plain.

Notation receive := (browser_receive station ttl frame_window frame_budget km frequency_label text_of).

(** The actions that check nothing more are the ones any viewer may take. *)
Lemma safe_dispatch h c u id mtype msg known :
  (mtype ∈ USE_ACTIONS ∨ mtype = "command" → Ev_use h u ∈ known) →
  safe known (dispatch_frame station ttl frame_window frame_budget km frequency_label text_of h c u id mtype msg (λ _, Done)).
Proof.
  intros Hu. unfold dispatch_frame.
  case_decide; [subst; apply safe_command; auto|].
  case_decide; [subst; apply safe_apply_repeater, Hu; left; set_solver|].
  case_decide; [subst; apply safe_scan_start, Hu; left; set_solver|].
  case_decide; [subst; apply safe_scan_control, Hu; left; set_solver|].
  case_decide; [subst; apply safe_keepalive, Hu; left; set_solver|].
  apply safe_done. repeat case_decide; auto with plain.
Qed.

Lemma safe_receive h c u id msg : safe [] (receive h c u id msg (λ _, Done)).
Proof.
  unfold browser_receive. destruct (jget "type" msg) as [| | | |mtype| |]; try (apply safe_done; solve [auto with plain]).
  case_decide as Hm; [|by apply safe_dispatch]. apply safe_area; intros L HL.
  - intros Hu. by apply safe_dispatch.
  - cbn beta. apply safe_done. auto with plain.
Qed.

Lemma safe_persist h u slot module cap value known :
  safe known (persist_result station h u slot module cap value (λ _, Done)).
Proof.
  unfold persist_result. apply safe_atom. intros s Hs. case_decide as Hh; cbn [fst snd].
  2:{ exists []. split; [done|]. split; [split; [constructor|left; constructor]|done]. }
  exists [Ev_touch h u]. split; [done|]. split; [split; [by constructor|left; by constructor]|].
  cbn [negb]. apply safe_may_write; intros L HL; [intros Hw|by cbn [negb]]. cbn [negb].
  apply safe_atom. intros s2 H2. destruct (slot_str slot) as [sl|]; cbn [fst snd].
  2:{ exists []. split; [done|]. split; [split; [constructor|left; constructor]|done]. }
  destruct (persist_if_valid _ _ _ _ _ _ _) as [r [|]]; cbn [fst snd].
  - exists [Ev_persist h u slot module cap value]. split; [done|]. split.
    + split; [by constructor|]. right. eexists. split; [done|]. split; [|set_solver].
      apply H2, HL. left.
    + apply safe_done. auto with plain.
  - exists []. split; [done|]. split; [split; [constructor|left; constructor]|done].
Qed.

Lemma safe_result h c u msg : safe [] (on_result station h c u msg (λ _, Done)).
Proof.
  unfold on_result. destruct (negb (hashable _)); [apply safe_done; auto with plain|].
  apply safe_plain; [by apply plain_silent|]. intros entry L HL.
  apply safe_plain; [auto with plain|]. intros _ L2 H2.
  destruct entry as [[[[slot module] cap] value]|]; [|done].
  destruct (jget "ok" msg) as [|[]| | | | |]; try done. apply safe_persist.
Qed.

Lemma plain_connect h c u : plain (browser_connect station h c u).
Proof.
  unfold browser_connect. apply plain_bind; [auto with plain|]. intros [|]; cbn [negb]; [|auto with plain].
  apply plain_bind; [by apply plain_silent|]. intros _. apply plain_bind; [by apply plain_silent|].
  intros use. apply plain_bind; [destruct use; [by apply plain_silent|auto with plain]|]. auto with plain.
Qed.

Lemma plain_disconnect h c u : plain (browser_disconnect grace h c u).
Proof.
  unfold browser_disconnect. do 2 (apply plain_bind; [by apply plain_silent|intros _]).
  apply plain_bind; [apply plain_silent; intros s; by destruct (telemetry_drop_channel _ _ _)|]. intros fs.
  apply plain_bind; [apply plain_each, plain_relay_telemetry|]. intros _. by apply plain_silent.
Qed.

Lemma plain_recheck h c u : plain (periodic_recheck station h c u).
Proof.
  unfold periodic_recheck. apply plain_bind; [by apply plain_silent|]. intros use.
  apply plain_bind; [destruct use; auto with plain|]. intros _. by apply plain_silent.
Qed.

Lemma plain_on_lock c u st : plain (on_lock_broadcast c u st).
Proof. apply plain_silent. intros s. destruct st as [|hd since]; [done|]. simpl. by case_decide. Qed.

Notation handler := (handler station ttl grace frame_window frame_budget km frequency_label text_of).
Notation execution := (execution station ttl grace frame_window frame_budget km frequency_label text_of).

Lemma handler_safe h p : handler h p → safe [] p.
Proof.
  intros [c u id msg|c u|c u|c u|c u st|c u msg]; [apply safe_receive|..|apply safe_result]; apply safe_done.
  - apply plain_connect.
  - apply plain_disconnect.
  - apply plain_recheck.
  - apply plain_on_lock.
Qed.

(** ** Every execution *)

Definition ordered (log : list Ev) : Prop :=
  ∀ after e before, log = after ++ e :: before → sends e = true → justified e before.

Definition rooted (hist : list Server) (log : list Ev) : Prop :=
  ∀ e, e ∈ log → ∃ s, s ∈ hist ∧ true_at station s e.

Lemma ordered_step s new log : step_ok station s new → sv_log s = log → ordered log → ordered (new ++ log).
Proof.
  intros [_ Hsend] Hl Ho after e before Heq He. destruct Hsend as [Hquiet|(e' & -> & Hj)].
  - induction new as [|x new IH] in after, Heq, Hquiet |- *; [by eapply Ho|].
    inversion_clear Hquiet as [|? ? Hx Hq]. destruct after as [|y after]; simpl in Heq; injection Heq as -> Heq.
    + congruence.
    + by eapply IH.
  - simpl in Heq. destruct after as [|y after]; simpl in Heq; injection Heq as -> Heq.
    + by subst.
    + by eapply Ho.
Qed.

Lemma execution_inv hist pool :
  execution hist pool → ∃ s rest, hist = s :: rest ∧ ordered (sv_log s) ∧ rooted hist (sv_log s) ∧
    ∀ h p, pool !! h = Some p → safe (sv_log s) p.
Proof.
  induction 1 as [s Hlog|hist pool h p _ (s & rest & -> & Ho & Hr & Hp) Hn Hh
    |s hist pool h f _ (s' & rest & [= <- <-] & Ho & Hr & Hp) Hf
    |s s' hist pool _ (s0 & rest & [= <- <-] & Ho & Hr & Hp) Hlog].
  - exists s, []. rewrite Hlog. split_and!; [done| | |].
    + intros after e before Heq. by destruct after.
    + intros e He. by apply not_elem_of_nil in He.
    + intros h p Hp. by rewrite lookup_empty in Hp.
  - exists s, rest. split_and!; try done. intros h' p' [[<- <-]|[Hne Hl]]%lookup_insert_Some; [|by eapply Hp].
    eapply safe_mono; [|by eapply handler_safe]. set_solver.
  - pose proof (Hp h _ Hf) as Hs. simpl in Hs. specialize (Hs s ltac:(done)).
    destruct (f s) as [s1 p1]. destruct Hs as (new & Hlog & Hok & Hs1). simpl.
    exists s1, (s :: hist). split_and!; [done| | |].
    + rewrite Hlog. by eapply ordered_step.
    + rewrite Hlog. intros e [He|He]%elem_of_app.
      * destruct Hok as [Ht _]. exists s. split; [set_solver|]. by eapply list.Forall_forall in Ht.
      * destruct (Hr e He) as (s2 & Hin & ?). exists s2. split; [set_solver|done].
    + intros h' p' [[<- <-]|[Hne Hl]]%lookup_insert_Some; [done|].
      eapply safe_mono; [|by eapply Hp]. rewrite Hlog. set_solver.
  - exists s', (s :: hist). rewrite Hlog. split_and!; try done.
    + intros e He. destruct (Hr e He) as (s2 & Hin & ?). exists s2. split; [set_solver|done].
Qed.
End authority.


(** ** Runs *)

(** One step of the named handler, if it has one left. *)
Definition run_one (h : Z) (sp : Server * gmap Z Proc) : Server * gmap Z Proc :=
  match sp.2 !! h with
  | Some (Step f) => let '(s', p') := f sp.1 in (s', <[h := p']> sp.2)
  | _ => sp
  end.

Definition run_schedule (sched : list Z) (sp : Server * gmap Z Proc) : Server * gmap Z Proc :=
  foldl (λ sp h, run_one h sp) sp sched.

Lemma run_schedule_execution station ttl grace frame_window frame_budget km frequency_label text_of sched s hist pool :
  execution station ttl grace frame_window frame_budget km frequency_label text_of (s :: hist) pool →
  ∃ hist', execution station ttl grace frame_window frame_budget km frequency_label text_of
    ((run_schedule sched (s, pool)).1 :: hist') (run_schedule sched (s, pool)).2.
Proof.
  revert s hist pool. induction sched as [|h sched IH]; intros s hist pool Hx; [by exists hist|].
  simpl. assert (run_one h (s, pool) = (s, pool) ∨ ∃ s' p' f, pool !! h = Some (Step f) ∧ f s = (s', p') ∧
    run_one h (s, pool) = (s', <[h := p']> pool)) as [->|(s' & p' & f & Hh & Hf & ->)].
  { unfold run_one. simpl. destruct (pool !! h) as [[|f]|]; [by left| |by left]. right.
    destruct (f s) as [s' p'] eqn:Hf. by exists s', p', f. }
  - by eapply IH.
  - pose proof (X_run _ _ _ _ _ _ _ _ _ _ _ _ _ Hx Hh) as Hx'. rewrite Hf in Hx'. by eapply IH.
Qed.

(** A station with two operators: a member who holds the lock, and an admin. *)
Module Panel.

Definition server : Server :=
  mkServer 0 [mkUser 1 true true None "member"; mkUser 2 true true None "admin"] (λ _, mkAssignments [] []) None false
    (mkLock (Some 1) (Some 0) (Some 0) None) None (mkScanDb ∅ []) (mkSurr [] false [] [])
    (mkRegDb (FirmwareModel.mkFwDb [] [] [] [] [] [] [] []) [] [] []) [] ∅ {[ 10 := mkConn 1 [] [] [] ]} [].

Definition receive := browser_receive 1 3000000 60000000 60%nat (λ _, 0) pretty (λ _, "").

Definition ptt_on (request_id : Json) : Fields :=
  [("type", JStr "command"); ("op", JStr "set"); ("slot", JInt 1); ("module", JStr "fm");
   ("capability", JStr "ptt"); ("value", JBool true); ("request_id", request_id)].

Definition keepalive : Fields := [("type", JStr "ptt_keepalive")].
Definition preempt_frame : Fields := [("type", JStr "lock_preempt")].

Definition start (frames : list (Z * Z * Z * Fields)) : Server * gmap Z Proc :=
  (server, foldr (λ '(h, c, u, msg), <[h := receive h c u "s" msg (λ _, Done)]>) ∅ frames).

End Panel.


(** The lock is confirmed when the frame arrives, not when it is carried out.  A member
    keys up; before the handler sends the frame an admin takes the lock over, and the
    take-over clears the PTT; then the member's handler goes on.  In the end the
    admin holds the lock and the gate is keyed (by the member, for as long as the
    dead-man lets it): the admin's microphone is on the air. *)
Example take_over_during_key_up :
  let s := (run_schedule ([1; 1; 1; 1] ++ replicate 9 2 ++ replicate 8 1)
    (Panel.start [(1, 10, 1, Panel.ptt_on (JStr "r")); (2, 11, 2, Panel.preempt_frame)])).1 in
  holder (sv_lock s) = Some 2 ∧ mic_allowed 2 (sv_now s) (Some (sv_lock s)) (sv_gate s) = true ∧
  Ev_relay 1 (A_command (Panel.ptt_on (JStr "r"))) ∈ take 6 (sv_log s).
Proof. vm_compute. split_and!; [reflexivity..|]. repeat first [left | right; left | right]. Qed.

(** A command whose request id is a list reaches the agent's group; the exception that
    follows ends the handler before the command is audited. *)
Example unhashable_request_id :
  let s := (run_schedule (replicate 12 1) (Panel.start [(1, 10, 1, Panel.ptt_on (JList []))])).1 in
  sv_log s = [Ev_crash 1; Ev_relay 1 (A_command (Panel.ptt_on (JList []))); Ev_write 1 1 (JStr "ptt") JNull;
              Ev_touch 1 1; Ev_use 1 1].
Proof. by vm_compute. Qed.
