(* ===== verification/AgentConsumer.v ===== *)
(** * The agent's control connection on the server

    Models [AgentControlConsumer] of [apps/control/consumers.py]: connecting and
    disconnecting (with the teardown only the current connection may do), the frames
    of the agent, the lock sweep, and the re-apply of persisted calibration, which is
    deferred while the station is keyed.

    The handlers are coroutines over the server's state, as in [ControlConsumer].  The
    re-apply shares variables of the connection object between the receiving task and
    the sweep task, so it is a machine of its own: its tasks are at the [await]s of
    [_reapply_persisted], [_retry_pending_reapply] and [_send_reapply], and every
    transition is the code between two of them.  An inventory frame comes raw (for the
    re-apply) and read into slots and modules (for the registry).

    Left out: the banner refreshes about a firmware drain, the labels added to scan
    states and the verification of the agent's signature (cryptography). *)

From Stdlib Require Import ZArith Lia SpecFloat.
From stdpp Require Import base list gmap sets strings pretty.
From S2P Require Import Prelude Json Metrics Capabilities Permissions ControlLock Audio ModuleIngest Registry Telemetry Repeaters ScanControl ControlConsumer.

Local Open Scope Z_scope.

(** ** Handlers *)

Inductive AgentFrame :=
| AF_inventory (raw : Json) (entries : list SlotEntry)
| AF_state (slot module : string) (values : Settings)
| AF_result (msg : Fields)
| AF_scan_state (msg : Fields)
| AF_event (event : string) (slot module result : option string)
| AF_other.

(** [registry.FIRMWARE_UPDATING_EVENTS] *)
Definition firmware_updating (event : string) : option bool :=
  if decide (event = "firmware_update_started") then Some true
  else if decide (event = "firmware_update_finished") then Some false else None.

Section agent.
Variables (station idle stale_ttl : Z) (types : list ModuleType_).

Definition end_scan_now (h : Z) (reason : string) (scan_id : option string) : Handler unit :=
  removed ← atom (λ s, let '(d, r) := end_scan station reason scan_id (sv_scan s) in (set_scan d s, r));
  match removed, scan_id with
  | Some _, None => emit_ev (Ev_broadcast h "scan_state")
  | _, _ => mret tt
  end.

Definition agent_connect (h : Z) (channel : string) : Handler unit :=
  atom (λ s, (set_presence_map (claim station K_CONTROL channel (sv_presence s)).1 s, tt));;
  end_scan_now h "agent reconnect" None.

Definition agent_disconnect (h : Z) (channel : string) : Handler unit :=
  current ← atom (λ s,
    let '(p, ok) := presence_release station K_CONTROL channel (sv_presence s) in (set_presence_map p s, ok));
  if negb current then mret tt
  else
    atom (λ s, (set_reg (mark_station_offline station (sv_now s) (sv_reg s)) s, tt));;
    end_scan_now h "disconnect" None;;
    freed ← atom (λ s, let '(l, ok) := force_free (sv_lock s) in (put_lock l s, ok));
    (if freed : bool then audio_clear_ptt;; bridge_gate else mret tt);;
    emit_ev (Ev_broadcast h "agent_offline");;
    (if freed : bool then broadcast_lock else mret tt).

(** [_scan_set_tx_route]: the microphone follows the current scan, but never leaves a
    keyed module. *)
Definition scan_set_tx_route (scan_id : string) (slot : Json) (module : string) (s : Server) : Server * bool :=
  if decide (current_scan_id station (sv_scan s) ≠ Some scan_id) then (s, false)
  else
    let before := get_state (sv_gate s) in
    if ptt_keyed (sv_now s) (sv_gate s) &&
       negb (bool_decide ((pretty <$> ptt_slot before, ptt_module before) = (slot_str slot, module)))
    then (s, false)
    else
      let s' := map_gate (set_tx_route slot module) s in
      let after := get_state (sv_gate s') in
      (s', bool_decide ((tx_slot before, tx_module before) ≠ (tx_slot after, tx_module after))).

(** [_apply_scan_state]; [noted] is the pair stored last. *)
Definition apply_scan_state (h : Z) (noted : option (string * string)) (msg : Fields) : Handler (option (string * string)) :=
  match jget "scan_id" msg, jget "state" msg with
  | JStr scan_id, JStr state =>
    if decide (state = "stopped") then
      end_scan_now h (match jget "reason" msg with JStr r => if decide (r = "") then "stopped" else r | _ => "stopped" end)
        (Some scan_id);;
      mret noted
    else
      noted' ← (match coarse_state state with
                | Some coarse =>
                  if decide (noted = Some (scan_id, coarse)) then mret noted
                  else atom (λ s, (set_scan (note_state station scan_id coarse (sv_scan s)) s, Some (scan_id, coarse)))
                | None => mret noted
                end);
      (if decide (state = "active" ∨ state = "held") then
         match slot_str (jget "slot" msg), jget "module" msg with
         | Some _, JStr module =>
           moved ← atom (scan_set_tx_route scan_id (jget "slot" msg) module);
           if moved : bool then bridge_gate else mret tt
         | _, _ => mret tt
         end
       else mret tt);;
      mret noted'
  | _, _ => mret noted
  end.

(** [receive] without the re-apply, which has its own machine. *)
Definition agent_receive (h : Z) (noted : option (string * string)) (f : AgentFrame) : Handler (option (string * string)) :=
  match f with
  | AF_inventory raw entries =>
    atom (λ s,
      match apply_inventory types station (sv_now s) stale_ttl entries (sv_reg s) with
      | Ok r => (set_reg r s, true)
      | Raise _ => (s, false)
      end) ≫= λ ok,
    if negb ok then crash h
    else
      fs ← atom (λ s, let '(t, fs) := active_subscriptions (sv_now s) (sv_tel s) in (set_tel t s, fs));
      each (λ f, relay h (A_telemetry f)) fs;;
      emit_ev (Ev_broadcast h "inventory");; mret noted
  | AF_state slot module values =>
    atom (λ s, (set_reg (apply_state station slot module values (sv_now s) (sv_reg s)) s, tt));;
    emit_ev (Ev_broadcast h "state");; mret noted
  | AF_result msg => emit_ev (Ev_broadcast h "result");; mret noted
  | AF_scan_state msg =>
    noted' ← apply_scan_state h noted msg;
    emit_ev (Ev_broadcast h "scan_state");; mret noted'
  | AF_event event slot module result =>
    (match firmware_updating event with
     | Some b => atom (λ s, (set_reg (set_firmware_updating station slot module b result (sv_now s) (sv_reg s)) s, tt))
     | None => mret tt
     end);;
    emit_ev (Ev_broadcast h "event");;
    (match firmware_updating event with Some _ => broadcast_lock | None => mret tt end);;
    mret noted
  | AF_other => mret noted
  end.

(** The rows a sweep looks at. *)
Definition scan_rows (s : Server) : list ActiveScan :=
  match sdb_rows (sv_scan s) !! station with
  | Some r => [mkScan (as_state r) (as_started_at r)]
  | None => []
  end.

(** One round of [_sweep_loop], again without the re-apply. *)
Definition sweep_round (h : Z) : Handler unit :=
  freed ← atom (λ s, let '(l, ok) := sweep_lock (scan_rows s) (sv_now s) idle (sv_lock s) in (put_lock l s, ok));
  (if freed : bool then
     stop_scan station h "lock expired" None;; audio_clear_ptt;; bridge_gate;; broadcast_lock
   else mret tt);;
  fs ← atom (λ s, let '(t, fs) := purge_stale_locked (sv_now s) (sv_tel s) in (set_tel t s, fs));
  each (λ f, relay h (A_telemetry f)) fs.

End agent.

(** A handler without interruption. *)
Fixpoint run_alone (p : Proc) (s : Server) : Server :=
  match p with Done => s | Step f => let '(s', p') := f s in run_alone p' s' end.

(** ** The re-apply machine *)

Notation Key := (string * string * string)%type.

Definition frame_key (f : SetFrame) : option Key :=
  (λ s, (s, sf_module f, sf_capability f)) <$> slot_str (sf_slot f).

(** [_note_user_set] *)
Definition user_set_key (frame : Fields) : option Key :=
  if negb (py_eq (jget "op" frame) (JStr "set")) then None
  else
    match slot_str (jget "slot" frame), jget "module" frame, jget "capability" frame with
    | Some s, JStr m, JStr c => Some (s, m, c)
    | _, _, _ => None
    end.

(** [serializers.snapshot], reduced to the online modules. *)
Definition module_json (r : StationModule) : Json :=
  JObj [("module", JStr (sm_module_id r));
        ("identity", JObj [("type", JStr (sm_type r)); ("model", JStr (sm_model r)); ("version", JStr (sm_version r))]);
        ("capabilities", JList (JObj <$> sm_desc r)); ("state", JObj (map_to_list (sm_state r)));
        ("online", JBool (sm_online r)); ("updating", JBool (sm_updating r))].

Definition online_snapshot (station : Z) (db : RegDb) : Json :=
  let rows := filter (λ r, sm_station r = station) (rg_modules db) in
  let slots := reverse (remove_dups (reverse (sm_slot <$> rows))) in
  JList ((λ s, JObj [("slot", JStr s);
    ("modules", JList (module_json <$> filter (λ r, sm_slot r = s ∧ sm_online r = true) rows))]) <$> slots).

(** What a database call of the re-apply sees. *)
Record Snapshot := mkSnapshot { sn_now : Z; sn_gate : option AudioGate; sn_db : RegDb }.

Inductive Task :=
| T_check (gen : Z) (slots : Json)
| T_retry (gen : Z)
| T_send (gen : Z) (frames : list SetFrame).

Inductive ReEv :=
| R_inventory (gen : Z)
| R_user_set (key : Key)
| R_batch (gen : Z) (sn : Snapshot)
| R_sent (gen : Z) (f : SetFrame)
| R_superseded (gen : Z)
| R_failed (gen : Z).

Record Reapply := mkReapply {
  ra_gen : Z;
  ra_pending : option Z;
  ra_touched : list Key;
  ra_wire : list (string * Json);
  ra_tasks : list Task;
  ra_log : list ReEv               (* newest first *)
}.

Definition reapply_start : Reapply := mkReapply 0 None [] [] [] [].

Inductive ReLabel :=
| L_inventory (slots : Json)
| L_user_set (frame : Fields)
| L_trigger                          (* a sweep round or an agent frame *)
| L_answer (i : nat) (sn : Snapshot) (* the database call of task [i] returns *)
| L_send (i : nat)
| L_fail (i : nat).                  (* it raises *)

(** [{str(e["slot"]): e["slot"] ...}] *)
Definition wire_of (slots : Json) (old : list (string * Json)) : list (string * Json) :=
  match slots with
  | JList l => foldl (λ d e,
      match e with
      | JObj o => match slot_str (jget "slot" o) with Some s => (s, jget "slot" o) :: d | None => d end
      | _ => d
      end) [] l
  | _ => old
  end.

Definition to_wire (wire : list (string * Json)) (f : SetFrame) : SetFrame :=
  match sf_slot f with
  | JStr s =>
    mkSetFrame (sf_row f) (default (JStr s) (snd ∘ snd <$> list_find (λ p, p.1 = s) wire)) (sf_module f) (sf_capability f) (sf_value f)
  | _ => f
  end.

(** A new value of the marker; one that was still set is given up. *)
Definition set_marker (v : option Z) (a : Reapply) : Reapply :=
  mkReapply (ra_gen a) v (ra_touched a) (ra_wire a) (ra_tasks a)
    (match ra_pending a with Some g => R_superseded g :: ra_log a | None => ra_log a end).

Definition set_tasks (ts : list Task) (a : Reapply) : Reapply :=
  mkReapply (ra_gen a) (ra_pending a) (ra_touched a) (ra_wire a) ts (ra_log a).
Definition note (e : ReEv) (a : Reapply) : Reapply :=
  mkReapply (ra_gen a) (ra_pending a) (ra_touched a) (ra_wire a) (ra_tasks a) (e :: ra_log a).

Definition drop_task (i : nat) (a : Reapply) : Reapply := set_tasks (delete i (ra_tasks a)) a.
Definition put_task (i : nat) (t : Task) (a : Reapply) : Reapply := set_tasks (<[i := t]> (ra_tasks a)) a.

Section machine.
Variable station : Z.

(** The database call returns to its task. *)
Definition answer (i : nat) (t : Task) (sn : Snapshot) (a : Reapply) : Reapply :=
  let keyed := ptt_keyed (sn_now sn) (sn_gate sn) in
  match t with
  | T_check g slots =>
    if keyed then
      let a1 := if decide (ra_gen a = g) then set_marker (Some g) a else note (R_superseded g) a in
      drop_task i a1
    else
      let a1 := if decide (ra_gen a = g) then set_marker None a else a in
      put_task i (T_send g (reapply_frames station slots (sn_db sn))) (note (R_batch g sn) a1)
  | T_retry g =>
    if decide (ra_gen a ≠ g) then drop_task i (note (R_superseded g) a)
    else if keyed then drop_task i (set_marker (Some g) a)
    else
      put_task i (T_send g (to_wire (ra_wire a) <$> reapply_frames station (online_snapshot station (sn_db sn)) (sn_db sn)))
        (note (R_batch g sn) a)
  | T_send _ _ => a
  end.

Definition re_exec (l : ReLabel) (a : Reapply) : Reapply :=
  match l with
  | L_inventory slots =>
    let g := ra_gen a + 1 in
    mkReapply g (ra_pending a) [] (wire_of slots (ra_wire a)) (ra_tasks a ++ [T_check g slots]) (R_inventory g :: ra_log a)
  | L_user_set frame =>
    match user_set_key frame with
    | Some k => mkReapply (ra_gen a) (ra_pending a) (k :: ra_touched a) (ra_wire a) (ra_tasks a) (R_user_set k :: ra_log a)
    | None => a
    end
  | L_trigger =>
    match ra_pending a with
    | Some g => mkReapply (ra_gen a) None (ra_touched a) (ra_wire a) (ra_tasks a ++ [T_retry g]) (ra_log a)
    | None => a
    end
  | L_answer i sn => match ra_tasks a !! i with Some t => answer i t sn a | None => a end
  | L_send i =>
    match ra_tasks a !! i with
    | Some (T_send g (f :: fs)) =>
      put_task i (T_send g fs)
        (if decide (Exists (λ k, frame_key f = Some k) (ra_touched a)) then a else note (R_sent g f) a)
    | Some (T_send g []) => drop_task i a
    | _ => a
    end
  | L_fail i =>
    match ra_tasks a !! i with
    | Some (T_check g _ | T_retry g) => drop_task i (note (R_failed g) a)
    | Some (T_send g _) => drop_task i a
    | None => a
    end
  end.

Definition re_run (ls : list ReLabel) : Reapply := foldl (λ a l, re_exec l a) reapply_start ls.

End machine.

(** ** The teardown *)

(** Only the current agent connection tears the station down.  A connection that a
    reconnect has replaced ends without touching anything: its first step changes
    nothing and is its last.  The current one, left to itself, leaves no agent, no
    running scan, no module online, no lock holder, and if someone held the lock, no
    PTT. *)
Lemma disconnect_tears_down station h channel s :
  (sv_presence s !! (station, K_CONTROL) ≠ Some channel →
   run_alone (agent_disconnect station h channel (λ _, Done)) s = s ∧
   ∃ f, agent_disconnect station h channel (λ _, Done) = Step f ∧ f s = (s, Done)) ∧
  (sv_presence s !! (station, K_CONTROL) = Some channel →
   let s' := run_alone (agent_disconnect station h channel (λ _, Done)) s in
   sv_presence s' !! (station, K_CONTROL) = None ∧ current_scan_id station (sv_scan s') = None ∧
   sv_reg s' = mark_station_offline station (sv_now s) (sv_reg s) ∧ holder (sv_lock s') = None ∧
   (holder (sv_lock s) ≠ None → ptt_keyed (sv_now s') (sv_gate s') = false)).
Proof.
  split.
  - intros Hp. assert (∃ f, agent_disconnect station h channel (λ _, Done) = Step f ∧ f s = (s, Done)) as (f & Hf & Hs).
    { eexists. split; [reflexivity|]. unfold presence_release. rewrite decide_False by done.
      simpl. by destruct s. }
    split; [|eauto]. rewrite Hf. simpl. by rewrite Hs.
  - intros Hp. unfold agent_disconnect, presence_release. simpl. rewrite decide_True by done. simpl.
    unfold end_scan. destruct (sdb_rows (sv_scan s) !! station) as [row|] eqn:Hrow; simpl;
      unfold force_free; destruct (holder (sv_lock s)) eqn:Hh; simpl;
      unfold current_scan_id; simpl; rewrite ?lookup_delete_eq, ?Hrow, ?Hh; split_and!; try done.
Qed.

Lemma disconnect_tears_down_witness :
  let s := set_presence_map {[ (1, K_CONTROL) := "new" ]} Panel.server in
  run_alone (agent_disconnect 1 5 "old" (λ _, Done)) s = s ∧
  holder (sv_lock (run_alone (agent_disconnect 1 5 "new" (λ _, Done)) s)) = None.
Proof.
  cbv zeta. destruct (disconnect_tears_down 1 5 "old" (set_presence_map {[ (1, K_CONTROL) := "new" ]} Panel.server)) as [Hold _].
  destruct (disconnect_tears_down 1 5 "new" (set_presence_map {[ (1, K_CONTROL) := "new" ]} Panel.server)) as [_ Hnew].
  split; [apply Hold; vm_compute; discriminate|]. apply Hnew. vm_compute. reflexivity.
Defined.

(** The microphone follows the scan, not the other way round: the route is moved only
    for the scan that is running, never away from a module that is keyed, and the
    PTT itself is never touched. *)
Lemma scan_route_safe station scan_id slot module s :
  let '(s', moved) := scan_set_tx_route station scan_id slot module s in
  let before := get_state (sv_gate s) in
  let after := get_state (sv_gate s') in
  (current_scan_id station (sv_scan s) ≠ Some scan_id → s' = s) ∧
  (ptt_keyed (sv_now s) (sv_gate s) = true → (pretty <$> ptt_slot before, ptt_module before) ≠ (slot_str slot, module) → s' = s) ∧
  (ptt_active after, ptt_slot after, ptt_module after, ptt_expires_at after) =
    (ptt_active before, ptt_slot before, ptt_module before, ptt_expires_at before) ∧
  (moved = true ↔ (tx_slot after, tx_module after) ≠ (tx_slot before, tx_module before)) ∧
  sv_lock s' = sv_lock s ∧ sv_scan s' = sv_scan s.
Proof.
  unfold scan_set_tx_route. case_decide; [naive_solver|].
  destruct (ptt_keyed (sv_now s) (sv_gate s)) eqn:Hk; simpl.
  - case_bool_decide as Hm; simpl; [|naive_solver]. split_and!; try done. rewrite bool_decide_eq_true. naive_solver.
  - split_and!; try done. rewrite bool_decide_eq_true. naive_solver.
Qed.

(** ** One batch per inventory *)

Definition one_if (g g' : Z) : nat := if decide (g' = g) then 1%nat else 0%nat.

Definition task_token (g : Z) (t : Task) : nat :=
  match t with T_check g' _ | T_retry g' => one_if g g' | T_send _ _ => 0%nat end.
Definition ev_token (g : Z) (e : ReEv) : nat :=
  match e with R_batch g' _ | R_superseded g' | R_failed g' => one_if g g' | _ => 0%nat end.
Definition marker_token (g : Z) (p : option Z) : nat := match p with Some g' => one_if g g' | None => 0%nat end.

(** Where the re-apply of an inventory is: waiting for the PTT, in a task, or decided. *)
Definition tokens (g : Z) (a : Reapply) : nat :=
  (marker_token g (ra_pending a) + sum_list_with (task_token g) (ra_tasks a) + sum_list_with (ev_token g) (ra_log a))%nat.

Record re_inv (a : Reapply) : Prop := {
  ri_gen : 0 ≤ ra_gen a;
  ri_tokens g : tokens g a = if decide (1 ≤ g ≤ ra_gen a) then 1%nat else 0%nat;
  ri_superseded g : R_superseded g ∈ ra_log a → g < ra_gen a;
  ri_batch g sn : R_batch g sn ∈ ra_log a → ptt_keyed (sn_now sn) (sn_gate sn) = false
}.

Lemma sum_delete {A} (f : A → nat) l i x :
  l !! i = Some x → sum_list_with f l = (f x + sum_list_with f (delete i l))%nat.
Proof.
  revert i. induction l as [|y l IH]; intros [|i]; simpl; try done; [by intros [= ->]|].
  intros Hl. rewrite (IH i Hl). lia.
Qed.

Lemma sum_insert {A} (f : A → nat) l i x y :
  l !! i = Some x → (sum_list_with f (<[i := y]> l) + f x = sum_list_with f l + f y)%nat.
Proof.
  revert i. induction l as [|z l IH]; intros [|i]; simpl; try done; [intros [= ->]; lia|].
  intros Hl. specialize (IH i Hl). lia.
Qed.

Lemma one_if_eq g : one_if g g = 1%nat.
Proof. unfold one_if. by rewrite decide_True. Qed.

(** A token somewhere belongs to an inventory that was seen, and is the only one. *)
Lemma token_bound a g : re_inv a → (0 < tokens g a)%nat → 1 ≤ g ≤ ra_gen a.
Proof. intros [_ Ht _ _]. rewrite Ht. case_decide; [done|lia]. Qed.

Lemma task_tokens g a i t : ra_tasks a !! i = Some t → (task_token g t ≤ sum_list_with (task_token g) (ra_tasks a))%nat.
Proof. intros Hi. rewrite (sum_delete _ _ _ _ Hi). lia. Qed.

(** The marker of another inventory than the current one is older. *)
Lemma marker_older a i t g :
  re_inv a → ra_tasks a !! i = Some t → task_token g t = 1%nat → ra_gen a = g →
  match ra_pending a with Some g' => g' < ra_gen a | None => True end.
Proof.
  intros Hi Ht Hg Hgen. destruct (ra_pending a) as [g'|] eqn:Hp; [|done].
  assert (1 ≤ g' ≤ ra_gen a) as Hb.
  { apply token_bound; [done|]. unfold tokens. rewrite Hp. simpl. rewrite one_if_eq. lia. }
  destruct (decide (g' = g)) as [->|]; [|lia]. exfalso.
  pose proof (ri_tokens a Hi g) as Htok. pose proof (task_tokens g a i t Ht) as Hle.
  rewrite decide_True in Htok by lia. unfold tokens in Htok. rewrite Hp in Htok. simpl in Htok. rewrite one_if_eq in Htok. lia.
Qed.

(** The moves of a token keep the invariant. *)
Lemma move_inv a a' :
  re_inv a → ra_gen a' = ra_gen a → (∀ g, tokens g a' = tokens g a) →
  (∀ g, R_superseded g ∈ ra_log a' → R_superseded g ∈ ra_log a ∨ g < ra_gen a) →
  (∀ g sn, R_batch g sn ∈ ra_log a' → R_batch g sn ∈ ra_log a ∨ ptt_keyed (sn_now sn) (sn_gate sn) = false) →
  re_inv a'.
Proof.
  intros [Hg Ht Hs Hb] Hgen Htok Hsup Hbat. split.
  - by rewrite Hgen.
  - intros g. by rewrite Htok, Hgen.
  - intros g Hin. rewrite Hgen. destruct (Hsup g Hin); auto.
  - intros g sn Hin. destruct (Hbat g sn Hin); eauto.
Qed.

Section moves.
Context (a : Reapply) (i : nat) (t : Task) (g : Z).
Context (Hi : re_inv a) (Ht : ra_tasks a !! i = Some t) (Htok : ∀ g', task_token g' t = one_if g' g).

Lemma superseded_older : ra_gen a ≠ g → g < ra_gen a.
Proof.
  intros Hne. assert (1 ≤ g ≤ ra_gen a); [|lia]. apply token_bound; [done|]. unfold tokens.
  pose proof (task_tokens g a i t Ht) as Hle. rewrite Htok, one_if_eq in Hle. lia.
Qed.

Lemma rearm_inv : ra_gen a = g → re_inv (drop_task i (set_marker (Some g) a)).
Proof.
  intros Hgen. pose proof (marker_older a i t g Hi Ht ltac:(by rewrite Htok, one_if_eq) Hgen) as Hold.
  apply (move_inv a); [done|done|..].
  - intros g'. unfold tokens. simpl. rewrite (sum_delete _ _ _ _ Ht), Htok. destruct (ra_pending a); simpl; lia.
  - simpl. destruct (ra_pending a); [|by left]. intros g' [[= ->]|Hin]%elem_of_cons; [by right|by left].
  - simpl. destruct (ra_pending a); [|by left]. intros g' sn' [?|Hin]%elem_of_cons; [done|by left].
Qed.

Lemma reapply_drop_inv e :
  (∀ g', ev_token g' e = one_if g' g) → (∀ g', e = R_superseded g' → g' < ra_gen a) → (∀ g' sn, e ≠ R_batch g' sn) →
  re_inv (drop_task i (note e a)).
Proof.
  intros He Hs Hb. apply (move_inv a); [done|done|..].
  - intros g'. unfold tokens. simpl. rewrite (sum_delete _ _ _ _ Ht), Htok, He. lia.
  - simpl. intros g' [<-|Hin]%elem_of_cons; [right; by apply Hs|by left].
  - simpl. intros g' sn' [<-|Hin]%elem_of_cons; [by destruct (Hb g' sn')|by left].
Qed.

Lemma batch_inv fs sn :
  ptt_keyed (sn_now sn) (sn_gate sn) = false → re_inv (put_task i (T_send g fs) (note (R_batch g sn) a)).
Proof.
  intros Hk. apply (move_inv a); [done|done|..].
  - intros g'. unfold tokens. simpl. pose proof (sum_insert (task_token g') _ _ _ (T_send g fs) Ht) as Hsum.
    rewrite Htok in Hsum. simpl in Hsum. lia.
  - simpl. intros g' [?|Hin]%elem_of_cons; [done|by left].
  - simpl. intros g' sn' [[= -> ->]|Hin]%elem_of_cons; [by right|by left].
Qed.

(** Giving up an older marker. *)
Lemma clear_marker_inv : ra_gen a = g → re_inv (set_marker None a).
Proof.
  intros Hgen. pose proof (marker_older a i t g Hi Ht ltac:(by rewrite Htok, one_if_eq) Hgen) as Hold.
  apply (move_inv a); [done|done|..].
  - intros g'. unfold tokens. simpl. destruct (ra_pending a); simpl; lia.
  - simpl. destruct (ra_pending a); [|by left]. intros g' [[= ->]|Hin]%elem_of_cons; [by right|by left].
  - simpl. destruct (ra_pending a); [|by left]. intros g' sn' [?|Hin]%elem_of_cons; [done|by left].
Qed.
End moves.

Lemma answer_inv station a i t sn :
  re_inv a → ra_tasks a !! i = Some t → re_inv (answer station i t sn a).
Proof.
  intros Hi Ht. destruct t as [g slots|g|g fs]; simpl; [| |done].
  - destruct (ptt_keyed (sn_now sn) (sn_gate sn)) eqn:Hk; case_decide as Hgen.
    + by eapply rearm_inv.
    + eapply reapply_drop_inv; [done|exact Ht|done|done| |done]. intros g' [= <-]. by eapply superseded_older.
    + eapply (batch_inv _ _ (T_check g slots)); [|done|done|done]. by eapply clear_marker_inv.
    + by eapply batch_inv.
  - case_decide as Hgen.
    + eapply reapply_drop_inv; [done|exact Ht|done|done| |done]. intros g' [= <-]. by eapply superseded_older.
    + destruct (ptt_keyed (sn_now sn) (sn_gate sn)) eqn:Hk; [by eapply rearm_inv|by eapply batch_inv].
Qed.

Lemma reapply_exec_inv station a l : re_inv a → re_inv (re_exec station l a).
Proof.
  intros Hi. destruct l as [slots|frame| |i sn|i|i]; simpl.
  - destruct Hi as [Hg Ht Hs Hb]. split; simpl; [lia|..].
    + intros g. unfold tokens in *. simpl. rewrite sum_list_with_app. simpl. specialize (Ht g).
      unfold one_if. repeat case_decide; lia.
    + intros g [?|Hin]%elem_of_cons; [done|]. specialize (Hs g Hin). lia.
    + intros g sn [?|Hin]%elem_of_cons; [done|eauto].
  - destruct (user_set_key frame); [|done]. apply (move_inv a); [done|done|done|..]; simpl.
    + intros g [?|?]%elem_of_cons; [done|by left].
    + intros g sn [?|?]%elem_of_cons; [done|by left].
  - destruct (ra_pending a) as [g|] eqn:Hp; [|done]. apply (move_inv a); [done|done| |by left|by left].
    intros g'. unfold tokens. simpl. rewrite Hp, sum_list_with_app. simpl. lia.
  - destruct (ra_tasks a !! i) as [t|] eqn:Ht; [by apply answer_inv|done].
  - destruct (ra_tasks a !! i) as [[| |g [|f fs]]|] eqn:Ht; try done.
    + apply (move_inv a); [done|done| |by left|by left]. intros g'. unfold tokens. simpl.
      by rewrite (sum_delete _ _ _ _ Ht).
    + apply (move_inv a); [done|by case_decide|..].
      * intros g'. unfold tokens. simpl. pose proof (sum_insert (task_token g') _ _ _ (T_send g fs) Ht) as Hsum.
        simpl in Hsum. case_decide; simpl; lia.
      * simpl. case_decide; [by left|]. simpl. intros g' [?|?]%elem_of_cons; [done|by left].
      * simpl. case_decide; [by left|]. simpl. intros g' sn' [?|?]%elem_of_cons; [done|by left].
  - destruct (ra_tasks a !! i) as [[g slots|g|g fs]|] eqn:Ht; try done;
      [by eapply reapply_drop_inv; [|exact Ht|..]..|].
    apply (move_inv a); [done|done| |by left|by left]. intros g'. unfold tokens. simpl. by rewrite (sum_delete _ _ _ _ Ht).
Qed.

Lemma re_run_ind station (P : Reapply → Prop) ls :
  P reapply_start → (∀ a l, P a → P (re_exec station l a)) → P (re_run station ls).
Proof.
  intros H0 Hstep. unfold re_run. induction ls as [|l ls IH] using rev_ind; [done|]. rewrite foldl_app. by apply Hstep.
Qed.

Lemma run_inv station ls : re_inv (re_run station ls).
Proof.
  apply re_run_ind; [|intros; by apply reapply_exec_inv]. split; simpl; [done| |intros g Hg; by apply not_elem_of_nil in Hg
    |intros g sn Hg; by apply not_elem_of_nil in Hg]. intros g. rewrite decide_False by lia. done.
Qed.

Definition batch_token (g : Z) (e : ReEv) : nat := match e with R_batch g' _ => one_if g g' | _ => 0%nat end.
Definition failed_token (g : Z) (e : ReEv) : nat := match e with R_failed g' => one_if g g' | _ => 0%nat end.

Lemma log_tokens g log :
  (sum_list_with (batch_token g) log + sum_list_with (failed_token g) log ≤ sum_list_with (ev_token g) log)%nat ∧
  (R_superseded g ∉ log →
   sum_list_with (ev_token g) log = (sum_list_with (batch_token g) log + sum_list_with (failed_token g) log)%nat).
Proof.
  induction log as [|e log [IH1 IH2]]; simpl; [split; [lia|done]|]. split; [destruct e; simpl; lia|].
  intros [Hne Hn]%not_elem_of_cons. rewrite IH2 by done. destruct e as [| | | |g'|]; simpl; try lia.
  unfold one_if. rewrite decide_False; [lia|congruence].
Qed.

(** C13. Drift is re-applied once.  For every interleaving of inventories, user writes,
    retry triggers of both tasks, answers of the database and exceptions: no
    inventory is ever answered with two batches of [set] frames, a batch is only ever
    decided while the station is not keyed, and the re-apply of the last inventory is
    never lost: exactly one of these is the case: its batch went out, it waits for
    the end of the PTT, a task still works on it, or the database call failed. *)
Theorem reapply_exactly_once station ls :
  let a := re_run station ls in
  (∀ g, (sum_list_with (batch_token g) (ra_log a) ≤ 1)%nat) ∧
  (∀ g sn, R_batch g sn ∈ ra_log a → ptt_keyed (sn_now sn) (sn_gate sn) = false) ∧
  (1 ≤ ra_gen a →
   (marker_token (ra_gen a) (ra_pending a) + sum_list_with (task_token (ra_gen a)) (ra_tasks a) +
    sum_list_with (batch_token (ra_gen a)) (ra_log a) + sum_list_with (failed_token (ra_gen a)) (ra_log a) = 1)%nat).
Proof.
  cbv zeta. pose proof (run_inv station ls) as Hi. pose proof Hi as [Hg Ht Hs Hb]. split_and!; [|done|].
  - intros g. specialize (Ht g). destruct (log_tokens g (ra_log (re_run station ls))) as [Hle _].
    unfold tokens in Ht. case_decide; lia.
  - intros H1. specialize (Ht (ra_gen (re_run station ls))). rewrite decide_True in Ht by lia. unfold tokens in Ht.
    destruct (log_tokens (ra_gen (re_run station ls)) (ra_log (re_run station ls))) as [_ Heq].
    rewrite Heq in Ht; [lia|]. intros Hin. specialize (Hs _ Hin). lia.
Qed.

Lemma reapply_exactly_once_witness :
  let a := re_run 1 [L_inventory (JList []); L_answer 0 (mkSnapshot 5 (Some (mkGate true (Some 1) "fm" (Some 9) None "")) (sv_reg Panel.server));
    L_trigger; L_answer 0 (mkSnapshot 10 (Some (mkGate true (Some 1) "fm" (Some 9) None "")) (sv_reg Panel.server))] in
  1 ≤ ra_gen a ∧ sum_list_with (batch_token 1) (ra_log a) = 1%nat.
Proof.
  cbv zeta. split; [vm_compute; discriminate|].
  match goal with |- context [re_run 1 ?ls] => destruct (reapply_exactly_once 1 ls) as (_ & _ & Hone) end.
  specialize (Hone ltac:(vm_compute; discriminate)). vm_compute in Hone |- *. exact Hone.
Defined.

(** Between a user's write and a later re-apply of that capability there is an
    inventory. *)
Definition user_wins (log : list ReEv) : Prop :=
  ∀ after g f mid k before, log = after ++ R_sent g f :: mid ++ R_user_set k :: before → frame_key f = Some k →
    ∃ g', R_inventory g' ∈ mid.

(** The keys written since the last inventory. *)
Fixpoint touched_since (log : list ReEv) : list Key :=
  match log with
  | [] => []
  | R_inventory _ :: _ => []
  | R_user_set k :: log' => k :: touched_since log'
  | _ :: log' => touched_since log'
  end.

Lemma touched_since_elem mid k before :
  (∀ g, R_inventory g ∉ mid) → k ∈ touched_since (mid ++ R_user_set k :: before).
Proof.
  induction mid as [|e mid IH]; intros Hn; simpl; [left|].
  assert (k ∈ touched_since (mid ++ R_user_set k :: before)) as Hk.
  { apply IH. intros g Hin. apply (Hn g). by right. }
  destruct e as [g| | | | |]; try done; [|by right]. exfalso. apply (Hn g). left.
Qed.

Lemma user_wins_cons e log :
  user_wins log → (∀ g f k, e = R_sent g f → frame_key f = Some k → k ∉ touched_since log) → user_wins (e :: log).
Proof.
  intros Hw He after g f mid k before Heq Hk. destruct after as [|x after]; simpl in Heq; injection Heq as -> Heq.
  - assert ({Exists (λ e, ∃ g', e = R_inventory g') mid} + {~ Exists (λ e, ∃ g', e = R_inventory g') mid}) as [Hin|Hn].
    { apply Exists_dec. intros []; first [left; by eexists | right; by intros [? ?]]. }
    + apply Exists_exists in Hin as (e' & Hin & g' & ->). eauto.
    + exfalso. apply (He g f k eq_refl Hk). rewrite Heq. apply touched_since_elem. intros g' Hin. apply Hn.
      apply Exists_exists. eauto.
  - by eapply Hw.
Qed.

Definition quiet_ev (e : ReEv) : bool := match e with R_batch _ _ | R_superseded _ | R_failed _ | R_sent _ _ => true | _ => false end.

Lemma touched_quiet e log : quiet_ev e = true → touched_since (e :: log) = touched_since log.
Proof. by destruct e. Qed.

(** A user's own write is never raced: once a browser's [set] was relayed, no
    re-apply of that capability is sent until the agent has reported a new
    inventory, whatever was decided before. *)
Lemma user_write_wins station ls : user_wins (ra_log (re_run station ls)).
Proof.
  assert (user_wins (ra_log (re_run station ls)) ∧
    touched_since (ra_log (re_run station ls)) = ra_touched (re_run station ls)) as [H _]; [|exact H].
  apply re_run_ind.
  { split; [|done]. intros after g f mid k before Heq. by destruct after. }
  intros a l [Hw Ht].
  assert (∀ e, quiet_ev e = true → (∀ g f, e ≠ R_sent g f) →
    user_wins (e :: ra_log a) ∧ touched_since (e :: ra_log a) = ra_touched a) as Hq.
  { intros e He Hs. split; [|by rewrite touched_quiet]. apply user_wins_cons; [done|]. intros g f k ->. by destruct (Hs g f). }
  assert (∀ v, user_wins (ra_log (set_marker v a)) ∧ touched_since (ra_log (set_marker v a)) = ra_touched a) as Hm.
  { intros v. unfold set_marker. simpl. destruct (ra_pending a); [by apply Hq|done]. }
  destruct l as [slots|frame| |i sn|i|i]; simpl.
  - split; [|done]. by apply user_wins_cons.
  - destruct (user_set_key frame); [|done]. simpl. rewrite Ht. split; [|done]. by apply user_wins_cons.
  - by destruct (ra_pending a).
  - destruct (ra_tasks a !! i) as [t|]; [|done]. destruct t as [g slots|g|g fs]; simpl; [| |done].
    + destruct (ptt_keyed _ _); case_decide; [exact (Hm (Some g))|by apply Hq| |by apply Hq].
      destruct (Hm None) as [Hm1 Hm2]. split; [by apply user_wins_cons|exact Hm2].
    + case_decide; [by apply Hq|]. destruct (ptt_keyed _ _); [exact (Hm (Some g))|by apply Hq].
  - destruct (ra_tasks a !! i) as [[| |g [|f fs]]|]; try done. simpl. case_decide as Hf; simpl; [done|].
    split; [|done]. apply user_wins_cons; [done|]. intros g' f' k [= <- <-] Hk. rewrite Ht. intros Hin. apply Hf.
    apply Exists_exists. eauto.
  - destruct (ra_tasks a !! i) as [[g slots|g|g fs]|]; simpl; try done; by apply Hq.
Qed.
