(* ===== verification/History.v ===== *)
(** * Metric history: samples, hourly compaction, retention and queries

    [apps/history/]: one raw sample per accepted value of a heartbeat
    ([ingest.py]), the hourly aggregates a maintenance process computes from them
    ([maintenance.py]), the monthly partitions both tables live in
    ([partitions.py]), and the series the charts read ([query.py]).

    Times are microseconds since the epoch, UTC.  Stored values are finite
    numbers, kept as canonical rationals: [Min], [Max] and [Count] of the database
    are exact, [Avg] and [Sum] are modelled without the rounding of binary64.  A
    month is the number [12 * year + (month - 1)]; [month_begin] is the calendar of
    [datetime].  Both backends are modelled: the partitioned one (PostgreSQL), where
    a row of a missing partition is refused and retention drops partitions, and the
    plain one (SQLite), where retention deletes rows.  The heartbeats that commit
    between the transactions of a maintenance run are arguments of that run. *)

From Stdlib Require Import ZArith Lia QArith Qcanon.
From stdpp Require Import numbers.
From stdpp Require Import base sets sorting relations strings list.
From S2P Require Import Prelude.
Local Open Scope Z_scope.

(** ** The calendar *)

Definition HOUR : Z := 3600 * 1000000.
Definition DAY : Z := 24 * HOUR.

(** Days before the first of January of year [y] (of the proleptic Gregorian
    calendar, counted from year 1), and before a month of it. *)
Definition days_before_year (y : Z) : Z := 365 * (y - 1) + (y - 1) / 4 - (y - 1) / 100 + (y - 1) / 400.

Definition is_leap (y : Z) : bool :=
  bool_decide (y mod 4 = 0 ∧ (y mod 100 ≠ 0 ∨ y mod 400 = 0)).

Definition days_before_month (y m : Z) : Z :=
  let leap := if is_leap y then 1 else 0 in
  match m with
  | 0 => 0 | 1 => 31 | 2 => 59 + leap | 3 => 90 + leap | 4 => 120 + leap | 5 => 151 + leap
  | 6 => 181 + leap | 7 => 212 + leap | 8 => 243 + leap | 9 => 273 + leap | 10 => 304 + leap
  | _ => 334 + leap
  end.

(** The first instant of a month; 1970-01-01 is day 719162. *)
Definition month_begin (i : Z) : Z :=
  (days_before_year (i / 12) + days_before_month (i / 12) (i mod 12) - 719162) * DAY.

(** The month of an instant: an estimate from the mean length of a month that is
    never too late, and the months after it. *)
Fixpoint month_search (fuel : nat) (i t : Z) : Z :=
  match fuel with
  | O => i
  | S fuel' => if bool_decide (t < month_begin (i + 1)) then i else month_search fuel' (i + 1) t
  end.

Definition month_of (t : Z) : Z :=
  month_search 8 ((t / DAY + 719162) * 4800 / 146097 + 12 - 4) t.

(** [month_start], [add_months] *)
Definition month_start (t : Z) : Z := month_begin (month_of t).
Definition add_months (t n : Z) : Z := month_begin (month_of t + n).

(** [hour_floor], [_floor] *)
Definition floor_to (step t : Z) : Z := t / step * step.
Definition hour_floor (t : Z) : Z := floor_to HOUR t.

Definition COMPACT_GRACE : Z := 5 * 60 * 1000000.

(** [effective_retention_days], as a span. *)
Definition retention (days : Z) : Z := (if bool_decide (1 ≤ days) then days else 1) * DAY.

Example calendar_ok :
  (month_begin (12 * 1970), month_begin (12 * 1970 + 1), month_of 0, month_of (31 * DAY - 1), month_of (31 * DAY))
    = (0, 31 * DAY, 12 * 1970, 12 * 1970, 12 * 1970 + 1) ∧
  month_begin (12 * 2026 + 5) = 1780272000 * 1000000 ∧ month_of (1709208000 * 1000000) = 12 * 2024 + 1.
Proof. vm_compute. done. Qed.

Definition month_days (i : Z) : Z := days_before_year (i / 12) + days_before_month (i / 12) (i mod 12).

Lemma month_begin_days i : month_begin i = (month_days i - 719162) * DAY.
Proof. done. Qed.

(** The case analysis on the month of a year. *)
Ltac month_cases i :=
  let m := fresh "m" in let Hm := fresh "Hm" in
  assert (0 ≤ i mod 12 < 12) as Hm by (apply Z.mod_pos_bound; lia);
  remember (i mod 12) as m eqn:Hmeq;
  assert (m = 0 ∨ m = 1 ∨ m = 2 ∨ m = 3 ∨ m = 4 ∨ m = 5 ∨ m = 6 ∨ m = 7 ∨ m = 8 ∨ m = 9 ∨ m = 10 ∨ m = 11) as Hc by lia;
  clear Hm; destruct Hc as [->|[->|[->|[->|[->|[->|[->|[->|[->|[->|[->| ->]]]]]]]]]]].

Lemma leap_days y : let leap := if is_leap y then 1 else 0 in
  days_before_year (y + 1) = days_before_year y + 365 + leap.
Proof.
  unfold is_leap, days_before_year. simpl. replace (y + 1 - 1) with y by lia.
  case_bool_decide as H; Z.to_euclidean_division_equations; lia.
Qed.

Lemma month_days_step i : 28 ≤ month_days (i + 1) - month_days i ≤ 31.
Proof.
  unfold month_days. pose proof (leap_days (i / 12)) as Hl. simpl in Hl.
  destruct (decide (i mod 12 = 11)) as [H11|H11].
  - assert ((i + 1) / 12 = i / 12 + 1) as -> by (Z.to_euclidean_division_equations; lia).
    assert ((i + 1) mod 12 = 0) as -> by (Z.to_euclidean_division_equations; lia).
    rewrite H11, Hl. unfold days_before_month. destruct (is_leap _); lia.
  - assert ((i + 1) / 12 = i / 12) as -> by (Z.to_euclidean_division_equations; lia).
    assert ((i + 1) mod 12 = i mod 12 + 1) as -> by (Z.to_euclidean_division_equations; lia).
    month_cases i; try done; unfold days_before_month; simpl; destruct (is_leap _); lia.
Qed.

(** The months are within a few days of their mean length. *)
Lemma month_days_mean i : 146097 * (i - 12) - 4800 * 5 ≤ 4800 * month_days i ≤ 146097 * (i - 12) + 4800 * 3.
Proof.
  unfold month_days, days_before_year. 
  assert (i = 12 * (i / 12) + i mod 12) as Hi by (apply Z.div_mod; lia).
  set (y := i / 12) in *. assert (∀ b : bool, 0 ≤ (if b then 1 else 0) ≤ 1) as Hb by (intros []; lia).
  specialize (Hb (is_leap y)).
  month_cases i; unfold days_before_month;
    Z.to_euclidean_division_equations; lia.
Qed.

Lemma month_begin_step i : month_begin i + 28 * DAY ≤ month_begin (i + 1) ≤ month_begin i + 31 * DAY.
Proof. rewrite !month_begin_days. pose proof (month_days_step i). unfold DAY, HOUR. lia. Qed.

Lemma month_begin_mono i j : i ≤ j → month_begin i ≤ month_begin j.
Proof.
  intros Hij. replace j with (i + Z.of_nat (Z.to_nat (j - i))) by lia.
  induction (Z.to_nat (j - i)) as [|n IH]; [by rewrite Z.add_0_r|].
  pose proof (month_begin_step (i + Z.of_nat n)) as Hs. unfold DAY, HOUR in Hs.
  replace (i + Z.of_nat (S n)) with (i + Z.of_nat n + 1) by lia. lia.
Qed.

Lemma month_begin_lt i j : month_begin i < month_begin j ↔ i < j.
Proof.
  split.
  - intros H. destruct (decide (i < j)); [done|]. pose proof (month_begin_mono j i). lia.
  - intros H. pose proof (month_begin_mono (i + 1) j). pose proof (month_begin_step i) as Hs.
    unfold DAY, HOUR in Hs. lia.
Qed.

Lemma month_search_spec fuel i t :
  month_begin i ≤ t → t < month_begin (i + Z.of_nat fuel) →
  month_begin (month_search fuel i t) ≤ t < month_begin (month_search fuel i t + 1).
Proof.
  revert i. induction fuel as [|fuel IH]; intros i Hlo Hhi; cbn [month_search].
  - rewrite Z.add_0_r in Hhi. lia.
  - case_bool_decide; [done|]. apply IH; [lia|].
    by replace (i + 1 + Z.of_nat fuel) with (i + Z.of_nat (S fuel)) by lia.
Qed.

(** The month of an instant is the one that contains it. *)
Lemma month_of_spec t : month_begin (month_of t) ≤ t < month_begin (month_of t + 1).
Proof.
  unfold month_of. set (d := t / DAY + 719162). set (i := d * 4800 / 146097 + 12 - 4).
  assert (month_days i ≤ d) as Hlo.
  { pose proof (month_days_mean i). subst i. clearbody d. clear -H. Z.to_euclidean_division_equations. lia. }
  assert (d + 1 ≤ month_days (i + 8)) as Hhi.
  { pose proof (month_days_mean (i + 8)). subst i. clearbody d. clear -H. Z.to_euclidean_division_equations. lia. }
  change DAY with 86400000000 in d. clearbody i.
  apply month_search_spec; rewrite month_begin_days; change DAY with 86400000000; change (Z.of_nat 8) with 8; subst d;
    Z.to_euclidean_division_equations; lia.
Qed.

Lemma month_of_unique t i : month_begin i ≤ t < month_begin (i + 1) → month_of t = i.
Proof.
  intros [Hlo Hhi]. pose proof (month_of_spec t) as [Hlo' Hhi'].
  assert (i < month_of t + 1) by (apply month_begin_lt; lia).
  assert (month_of t < i + 1) by (apply month_begin_lt; lia). lia.
Qed.

Lemma month_begin_aligned i : (DAY | month_begin i).
Proof. apply Z.divide_factor_r. Qed.

(** ** Tables *)

Record Sample := mkSample {
  sm_station : Z; sm_key : string; sm_ts : Z; sm_min : Qc; sm_max : Qc; sm_avg : Qc
}.

Record HourRow := mkHour {
  hw_station : Z; hw_key : string; hw_ts : Z; hw_min : Qc; hw_max : Qc; hw_avg : Qc; hw_count : Z
}.

(** [h_log] is a ghost: every sample ever stored. *)
Record Hist := mkHist {
  h_raw : list Sample;
  h_hourly : list HourRow;
  h_raw_parts : list Z;       (* the months with a partition *)
  h_hourly_parts : list Z;
  h_until : option Z;         (* HistoryState.compacted_until *)
  h_log : list Sample
}.

Definition set_hourly (rows : list HourRow) (until : option Z) (h : Hist) : Hist :=
  mkHist (h_raw h) rows (h_raw_parts h) (h_hourly_parts h) until (h_log h).

Notation SeriesKey := (Z * string * Z)%type.

Definition sample_pk (s : Sample) : SeriesKey := (sm_station s, sm_key s, sm_ts s).
Definition hour_pk (r : HourRow) : SeriesKey := (hw_station r, hw_key r, hw_ts r).
(** [values("station_id", "metric_key", "hour")] with [TruncHour] in UTC. *)
Definition hour_key (s : Sample) : SeriesKey := (sm_station s, sm_key s, hour_floor (sm_ts s)).

(** ** Aggregates *)

Definition qmin (a b : Qc) : Qc := if decide (a ≤ b)%Qc then a else b.
Definition qmax (a b : Qc) : Qc := if decide (a ≤ b)%Qc then b else a.
Definition of_Z (n : Z) : Qc := Qc_of_Z n.
Definition qsum (l : list Qc) : Qc := foldr Qcplus (0 : Qc) l.

(** [Min], [Max], [Avg]: null on no rows, here a value nobody reads. *)
Definition Min (l : list Qc) : Qc := match l with [] => 0 | x :: l' => foldr qmin x l' end%Qc.
Definition Max (l : list Qc) : Qc := match l with [] => 0 | x :: l' => foldr qmax x l' end%Qc.
Definition Avg (l : list Qc) : Qc := (qsum l / of_Z (Z.of_nat (length l)))%Qc.

(** ** Recording *)

(** [value["min"]] as a number; [P_none]: absent or not a number. *)
Inductive Part := P_none | P_nonfinite | P_num (q : Qc).
Record HistValue := mkHistValue { v_min : Part; v_max : Part; v_avg : Part }.

Definition HISTORY_MAX_ABS : Qc := of_Z (10 ^ 15).

Definition in_bounds (q : Qc) : bool := bool_decide (- HISTORY_MAX_ABS ≤ q ∧ q ≤ HISTORY_MAX_ABS)%Qc.

Definition recordable (v : HistValue) : bool :=
  match v_min v, v_max v, v_avg v with
  | P_num a, P_num b, P_num c => in_bounds a && in_bounds b && in_bounds c
  | _, _, _ => false
  end.

Definition sample_of (station ts : Z) (kv : string * HistValue) : option Sample :=
  if recordable kv.2 then
    match v_min kv.2, v_max kv.2, v_avg kv.2 with
    | P_num a, P_num b, P_num c => Some (mkSample station kv.1 ts a b c)
    | _, _, _ => None
    end
  else None.

(** [bulk_create(..., ignore_conflicts=True)] row by row. *)
Definition insert_sample (h : Hist) (s : Sample) : Hist :=
  if decide (sample_pk s ∈ sample_pk <$> h_raw h) then h
  else mkHist (h_raw h ++ [s]) (h_hourly h) (h_raw_parts h) (h_hourly_parts h) (h_until h) (h_log h ++ [s]).

Section backend.

(** The backend and the two settings. *)
Context (partitioned : bool) (raw_days hourly_days : Z).

(** A heartbeat: [bt_ok] is false when the database fails. *)
Record Beat := mkBeat { bt_station : Z; bt_ts : Z; bt_values : list (string * HistValue); bt_ok : bool }.

Definition record_samples (b : Beat) (h : Hist) : Hist * Z :=
  let rows := omap (sample_of (bt_station b) (bt_ts b)) (bt_values b) in
  if decide (rows = []) then (h, 0)
  else if bt_ok b && (negb partitioned || bool_decide (month_of (bt_ts b) ∈ h_raw_parts h))
  then (foldl insert_sample h rows, Z.of_nat (length rows))
  else (h, 0).

Definition beats (bs : list Beat) (h : Hist) : Hist := foldl (λ h b, (record_samples b h).1) h bs.

(** ** Compaction *)

Definition hour_row (samples : list Sample) (g : SeriesKey) : HourRow :=
  let members := filter (λ s, hour_key s = g) samples in
  mkHour g.1.1 g.1.2 g.2 (Min (sm_min <$> members)) (Max (sm_max <$> members)) (Avg (sm_avg <$> members))
    (Z.of_nat (length members)).

(** [bulk_create(..., update_conflicts=True)] of one row. *)
Definition upsert (rows : list HourRow) (r : HourRow) : list HourRow :=
  if decide (hour_pk r ∈ hour_pk <$> rows)
  then update_where (λ r', hour_pk r' = hour_pk r) (λ _, r) rows
  else rows ++ [r].

(** [objs]: one row per group of the samples of the chunk. *)
Definition chunk_objs (start finish : Z) (h : Hist) : list HourRow :=
  let samples := filter (λ s, start ≤ sm_ts s < finish) (h_raw h) in
  hour_row samples <$> remove_dups (hour_key <$> samples).

(** [_compact_chunk]; [None]: an hour has no partition to go to. *)
Definition compact_chunk (start finish : Z) (h : Hist) : option (Hist * Z) :=
  let objs := chunk_objs start finish h in
  if negb partitioned || bool_decide (Forall (λ r, month_of (hw_ts r) ∈ h_hourly_parts h) objs)
  then Some (set_hourly (foldl upsert (h_hourly h) objs) (h_until h) h, Z.of_nat (length objs))
  else None.

(** What happens before a chunk's transaction, and whether it commits. *)
Record Gap := mkGap { gap_beats : list Beat; gap_ok : bool }.

(** The loop of [compact]: every chunk with its watermark is one transaction. *)
Fixpoint compact_loop (fuel n : nat) (gaps : nat → Gap) (step start finish : Z) (h : Hist) (total : Z)
    : Hist * Z * bool :=
  match fuel with
  | O => (h, total, true)
  | S fuel' =>
    if bool_decide (start < finish) then
      let chunk_end := Z.min (start + step) finish in
      let h1 := beats (gap_beats (gaps n)) h in
      if gap_ok (gaps n) then
        match compact_chunk start chunk_end h1 with
        | Some (h2, k) =>
          compact_loop fuel' (S n) gaps step chunk_end finish (set_hourly (h_hourly h2) (Some chunk_end) h2) (total + k)
        | None => (h1, total, false)
        end
      else (h1, total, false)
    else (h, total, true)
  end.

(** Each chunk covers at least an hour, or the rest. *)
Definition compact_fuel (start finish : Z) : nat := Z.to_nat ((finish - start) / HOUR + 1).

Definition compact (now chunk_hours : Z) (gaps : nat → Gap) (h : Hist) : Hist * Z * bool :=
  if bool_decide (chunk_hours ≤ 0) then (h, 0, false)
  else
    let finish := hour_floor (now - COMPACT_GRACE) in
    let start :=
      match h_until h with
      | Some w => Some (hour_floor w)
      | None => hour_floor ∘ sm_ts <$> head (sort_by sm_ts (h_raw h))
      end in
    match start with
    | None => (h, 0, true)
    | Some start => compact_loop (compact_fuel start finish) 0 gaps (chunk_hours * HOUR) start finish h 0
    end.

(** ** Partitions and retention *)

(** [ensure_partitions] of one table. *)
Definition ensure_partitions (parts : list Z) (first : Z) (count : nat) : list Z :=
  if partitioned then parts ++ filter (λ i, i ∉ parts) ((λ n, first + Z.of_nat n) <$> seq 0 count) else parts.

Definition ensure_future_partitions (now : Z) (h : Hist) : Hist :=
  let first := month_of now in
  mkHist (h_raw h) (h_hourly h) (ensure_partitions (h_raw_parts h) first 2)
    (ensure_partitions (h_hourly_parts h) first 2) (h_until h) (h_log h).

Definition in_month (i ts : Z) : Prop := month_begin i ≤ ts < month_begin (i + 1).

(** [drop_partition] / the row delete of a month. *)
Definition drop_raw (i : Z) (h : Hist) : Hist :=
  mkHist (delete_where (λ s, in_month i (sm_ts s)) (h_raw h)) (h_hourly h) (delete_where (λ j, j = i) (h_raw_parts h))
    (h_hourly_parts h) (h_until h) (h_log h).

Definition drop_hourly (i : Z) (h : Hist) : Hist :=
  mkHist (h_raw h) (delete_where (λ r, in_month i (hw_ts r)) (h_hourly h)) (h_raw_parts h)
    (delete_where (λ j, j = i) (h_hourly_parts h)) (h_until h) (h_log h).

Definition raw_partition_safe (i : Z) (h : Hist) : bool :=
  match h_until h with
  | Some w => bool_decide (month_begin (i + 1) ≤ w)
  | None => bool_decide (Forall (λ s, ¬ in_month i (sm_ts s)) (h_raw h))
  end.

Definition drop_expired_partitioned (now : Z) (h : Hist) : Hist :=
  let raw_cutoff := now - retention raw_days in
  let hourly_cutoff := now - retention hourly_days in
  let h1 := foldl (λ h i,
    if bool_decide (raw_cutoff < month_begin (i + 1) ∨ now < month_begin (i + 1)) then h
    else if raw_partition_safe i h then drop_raw i h else h) h (sort_by id (h_raw_parts h)) in
  foldl (λ h i,
    if bool_decide (month_begin (i + 1) ≤ hourly_cutoff ∧ month_begin (i + 1) ≤ now) then drop_hourly i h else h)
    h1 (sort_by id (h_hourly_parts h1)).

(** The [while] of [_months_with_rows]: a month has at least one day. *)
Fixpoint months_loop (fuel : nat) (i before : Z) (stamps : list Z) : list Z :=
  match fuel with
  | O => []
  | S fuel' =>
    if bool_decide (month_begin i < before) then
      (if bool_decide (Exists (in_month i) stamps) then [i] else []) ++ months_loop fuel' (i + 1) before stamps
    else []
  end.

Definition months_with_rows (stamps : list Z) (before : Z) : list Z :=
  match head (sort_by id (filter (λ t, t < before) stamps)) with
  | None => []
  | Some oldest =>
    months_loop (Z.to_nat ((before - month_start oldest) / DAY + 1)) (month_of oldest) before stamps
  end.

(** The deletion loop ends at the first month that is not compacted. *)
Fixpoint drop_raw_months (months : list Z) (h : Hist) : Hist :=
  match months with
  | [] => h
  | i :: months' => if raw_partition_safe i h then drop_raw_months months' (drop_raw i h) else h
  end.

Definition drop_expired_rows (now : Z) (h : Hist) : Hist :=
  let limit days := Z.min (month_start now) (month_start (now - retention days)) in
  let h1 := drop_raw_months (months_with_rows (sm_ts <$> h_raw h) (limit raw_days)) h in
  foldl (λ h i, drop_hourly i h) h1 (months_with_rows (hw_ts <$> h_hourly h1) (limit hourly_days)).

Definition drop_expired (now : Z) (h : Hist) : Hist :=
  if partitioned then drop_expired_partitioned now h else drop_expired_rows now h.

(** [run_maintenance]: each step is isolated from the errors of the others. *)
Record MaintRun := mkMaintRun {
  rn_gaps : nat → Gap;
  rn_before_parts : Gap;
  rn_before_drop : Gap
}.

Definition run_maintenance (now : Z) (r : MaintRun) (h : Hist) : Hist :=
  let h1 := (compact now 24 (rn_gaps r) h).1.1 in
  let h2 := beats (gap_beats (rn_before_parts r)) h1 in
  let h3 := if gap_ok (rn_before_parts r) then ensure_future_partitions now h2 else h2 in
  let h4 := beats (gap_beats (rn_before_drop r)) h3 in
  if gap_ok (rn_before_drop r) then drop_expired now h4 else h4.

End backend.

(** ** Queries *)

Inductive Resolution := R_raw | R_5m | R_1h | R_1d.
Inductive Source := From_raw | From_hourly.
#[export] Instance resolution_eq_dec : EqDecision Resolution.
Proof. solve_decision. Defined.

(** [RESOLUTIONS], in microseconds. *)
Definition resolution_step (r : Resolution) : Z :=
  1000000 * match r with R_raw => 6 | R_5m => 300 | R_1h => 3600 | R_1d => 86400 end.
Definition RESOLUTIONS : list Resolution := [R_raw; R_5m; R_1h; R_1d].
Definition MAX_POINTS : Z := 1000.
Definition HARD_MAX_POINTS : Z := 5000.
Definition HARD_MAX_POINTS_RAW : Z := 2016.

Definition max_points_for (s : Source) : Z :=
  match s with From_raw => HARD_MAX_POINTS_RAW | From_hourly => HARD_MAX_POINTS end.

Definition expected_points (r : Resolution) (since until : Z) : Z := (until - since) / resolution_step r.

(** [next((r for r in RESOLUTIONS if ...), "1d")] *)
Definition auto_resolution (since until : Z) : Resolution :=
  match head (filter (λ r, expected_points r since until ≤ MAX_POINTS) RESOLUTIONS) with
  | Some r => r
  | None => R_1d
  end.

Definition resolution_named (name : string) : option Resolution :=
  if decide (name = "raw"%string) then Some R_raw
  else if decide (name = "5m"%string) then Some R_5m
  else if decide (name = "1h"%string) then Some R_1h
  else if decide (name = "1d"%string) then Some R_1d
  else None.

(** [Raise ()]: the [ValueError] of an unknown resolution. *)
Definition choose_resolution (raw_days : Z) (requested : string) (since until now : Z)
    : outcome unit (Resolution * Source) :=
  let chosen r :=
    match r with
    | R_1h | R_1d => (r, From_hourly)
    | _ => if bool_decide (since < now - retention raw_days) then (R_1h, From_hourly) else (r, From_raw)
    end in
  if decide (requested = "auto"%string) then Ok (chosen (auto_resolution since until))
  else match resolution_named requested with Some r => Ok (chosen r) | None => Raise () end.

(** [[epoch_seconds, min, avg, max]] *)
Record Point := mkPoint { pt_epoch : Z; pt_min : Qc; pt_avg : Qc; pt_max : Qc }.

Definition epoch (t : Z) : Z := Z.quot t 1000000.

(** [int(dt.timestamp())] floored to the step. *)
Definition floor_since (r : Resolution) (since : Z) : Z :=
  floor_to (resolution_step r) (1000000 * epoch since).

Definition series_samples (h : Hist) (station : Z) (key : string) (lower until : Z) : list Sample :=
  sort_by sm_ts (filter (λ s, sm_station s = station ∧ sm_key s = key ∧ lower ≤ sm_ts s ∧ sm_ts s ≤ until) (h_raw h)).

Definition series_hours (h : Hist) (station : Z) (key : string) (lower until : Z) : list HourRow :=
  sort_by hw_ts (filter (λ r, hw_station r = station ∧ hw_key r = key ∧ lower ≤ hw_ts r ∧ hw_ts r ≤ until) (h_hourly h)).

Definition sample_point (s : Sample) : Point := mkPoint (epoch (sm_ts s)) (sm_min s) (sm_avg s) (sm_max s).
Definition hour_point (r : HourRow) : Point := mkPoint (epoch (hw_ts r)) (hw_min r) (hw_avg r) (hw_max r).

(** One group of the [5m] query. *)
Definition bucket_point (samples : list Sample) (b : Z) : Point :=
  let members := filter (λ s, floor_to (resolution_step R_5m) (sm_ts s) = b) samples in
  mkPoint (epoch b) (Min (sm_min <$> members)) (Avg (sm_avg <$> members)) (Max (sm_max <$> members)).

(** One group of the [1d] query; no point for a day whose counts add up to zero. *)
Definition day_points (rows : list HourRow) (d : Z) : list Point :=
  let members := filter (λ r, floor_to DAY (hw_ts r) = d) rows in
  let wsum := qsum ((λ r, hw_avg r * of_Z (hw_count r))%Qc <$> members) in
  let count := foldr Z.add 0 (hw_count <$> members) in
  if bool_decide (count = 0) then []
  else [mkPoint (epoch d) (Min (hw_min <$> members)) (wsum / of_Z count)%Qc (Max (hw_max <$> members))].

(** The series of one requested key; [Raise ()]: an unsupported combination. *)
Definition fetch_series (h : Hist) (station : Z) (key : string) (since until : Z) (r : Resolution) (s : Source)
    : outcome unit (list Point) :=
  match s, r with
  | From_raw, R_raw => Ok (sample_point <$> series_samples h station key since until)
  | From_raw, R_5m =>
    let samples := series_samples h station key (floor_since R_5m since) until in
    Ok (bucket_point samples <$> remove_dups ((λ s, floor_to (resolution_step R_5m) (sm_ts s)) <$> samples))
  | From_hourly, R_1h => Ok (hour_point <$> series_hours h station key (floor_since R_1h since) until)
  | From_hourly, R_1d =>
    let rows := series_hours h station key (floor_since R_1d since) until in
    Ok (remove_dups ((λ r, floor_to DAY (hw_ts r)) <$> rows) ≫= day_points rows)
  | _, _ => Raise ()
  end.

(** ** Lemmas: hours, months *)

Lemma floor_to_spec step t : 0 < step → floor_to step t ≤ t < floor_to step t + step.
Proof. intros Hs. unfold floor_to. pose proof (Z.div_mod t step). pose proof (Z.mod_pos_bound t step). lia. Qed.

Lemma floor_to_aligned step t : (step | floor_to step t).
Proof. apply Z.divide_factor_r. Qed.

(** An aligned instant does not fall inside a bucket. *)
Lemma floor_to_le step w t : 0 < step → (step | w) → w ≤ t → w ≤ floor_to step t.
Proof. intros Hs [k ->] Hle. unfold floor_to. apply Z.mul_le_mono_nonneg_r; [lia|]. apply Z.div_le_lower_bound; lia. Qed.

Lemma floor_to_lt step w t : 0 < step → (step | w) → t < w → floor_to step t + step ≤ w.
Proof.
  intros Hs [k ->] Hlt. unfold floor_to. assert (t / step < k) by (apply Z.div_lt_upper_bound; lia). nia.
Qed.

Lemma floor_to_id step w : 0 < step → (step | w) → floor_to step w = w.
Proof. intros Hs [k ->]. unfold floor_to. rewrite Z.div_mul; lia. Qed.

Lemma hour_pos : 0 < HOUR. Proof. done. Qed.
Lemma day_pos : 0 < DAY. Proof. done. Qed.
#[local] Hint Resolve hour_pos day_pos floor_to_aligned : core.

Lemma month_begin_hour i : (HOUR | month_begin i).
Proof. etrans; [|apply month_begin_aligned]. by exists 24. Qed.

Lemma in_month_iff i t : in_month i t ↔ month_of t = i.
Proof.
  split; [apply month_of_unique|]. intros <-. apply month_of_spec.
Qed.

Lemma month_of_hour t : month_of (hour_floor t) = month_of t.
Proof.
  apply month_of_unique. pose proof (month_of_spec t) as [Hlo Hhi].
  pose proof (floor_to_spec HOUR t hour_pos) as Hf. fold (hour_floor t) in Hf.
  split; [|lia]. by apply floor_to_le; [| apply month_begin_hour |].
Qed.

Lemma hour_floor_le t : hour_floor t ≤ t.
Proof. pose proof (floor_to_spec HOUR t hour_pos). unfold hour_floor. lia. Qed.

Lemma retention_pos days : DAY ≤ retention days.
Proof. unfold retention. pose proof day_pos. case_bool_decide; nia. Qed.

(** ** The invariant of maintenance *)

Lemma filter_Forall_id {A} (P : A → Prop) `{∀ x, Decision (P x)} (l : list A) : Forall P l → filter P l = l.
Proof. induction 1 as [|x l Hx _ IH]; [done|]. by rewrite filter_cons_True, IH. Qed.

Lemma list_filter_none {A} (P : A → Prop) `{∀ x, Decision (P x)} (l : list A) : (∀ x, x ∈ l → ¬ P x) → filter P l = [].
Proof. intros Hno. induction l as [|x l IH]; [done|]. rewrite filter_cons_False by set_solver. apply IH. set_solver. Qed.

Section invariant.
Context (partitioned : bool) (raw_days hourly_days : Z).

(** At time [c]: [D] are the months whose raw rows were dropped. *)
Record hist_inv (c : Z) (D : list Z) (h : Hist) : Prop := {
  hi_raw : h_raw h = filter (λ s, month_of (sm_ts s) ∉ D) (h_log h);
  hi_dropped d : d ∈ D → month_begin (d + 1) ≤ c - retention raw_days ∧
    ∃ w, h_until h = Some w ∧ month_begin (d + 1) ≤ w;
  hi_until w : h_until h = Some w → (HOUR | w) ∧ w ≤ c - COMPACT_GRACE;
  hi_rows r : r ∈ h_hourly h → r = hour_row (h_log h) (hour_pk r) ∧ hour_pk r ∈ hour_key <$> h_log h ∧
    ∃ w, h_until h = Some w ∧ hw_ts r < w;
  hi_hourly_unique : NoDup (hour_pk <$> h_hourly h);
  hi_compacted s w : s ∈ h_log h → h_until h = Some w → sm_ts s < w →
    hour_key s ∈ hour_pk <$> h_hourly h ∨ month_begin (month_of (sm_ts s) + 1) ≤ c - retention hourly_days;
  hi_log_unique : NoDup (sample_pk <$> h_log h)
}.

Definition timely (c : Z) (b : Beat) : Prop := c - COMPACT_GRACE ≤ bt_ts b.

Lemma hist_inv_later c c' D h : c ≤ c' → hist_inv c D h → hist_inv c' D h.
Proof.
  intros Hc []. split; try done.
  - intros d Hd. destruct (hi_dropped0 d Hd) as [H1 H2]. split; [lia|done].
  - intros w Hw. destruct (hi_until0 w Hw). split; [done|lia].
  - intros s w Hs Hw Hlt. destruct (hi_compacted0 s w Hs Hw Hlt); [by left|right; lia].
Qed.

(** A month dropped from the raw table ended before every timely sample. *)
Lemma timely_not_dropped c D h t : hist_inv c D h → c - COMPACT_GRACE ≤ t → month_of t ∉ D.
Proof.
  intros Hi Ht Hd. destruct (hi_dropped _ _ _ Hi _ Hd) as (_ & w & Hw & Hle).
  destruct (hi_until _ _ _ Hi _ Hw). pose proof (month_of_spec t). lia.
Qed.

(** A sample after the watermark is not of a compacted hour. *)
Lemma hour_row_snoc l s g w :
  (HOUR | w) → g.2 < w → w ≤ sm_ts s → hour_row (l ++ [s]) g = hour_row l g.
Proof.
  intros Ha Hg Hs. unfold hour_row. rewrite filter_app, filter_cons_False, filter_nil, app_nil_r; [done|].
  intros <-. simpl in Hg. pose proof (floor_to_le HOUR w (sm_ts s) hour_pos Ha Hs). unfold hour_floor in Hg. lia.
Qed.

Lemma insert_sample_inv c D h s :
  hist_inv c D h → c - COMPACT_GRACE ≤ sm_ts s → hist_inv c D (insert_sample h s).
Proof.
  intros Hi Ht. unfold insert_sample. case_decide as Hnew; [done|].
  pose proof (timely_not_dropped _ _ _ _ Hi Ht) as HD.
  assert (∀ w, h_until h = Some w → w ≤ sm_ts s) as Hw.
  { intros w Hw. destruct (hi_until _ _ _ Hi _ Hw). lia. }
  split; simpl.
  - rewrite filter_app, (hi_raw _ _ _ Hi), filter_cons_True, filter_nil; done.
  - apply (hi_dropped _ _ _ Hi).
  - apply (hi_until _ _ _ Hi).
  - intros r Hr. destruct (hi_rows _ _ _ Hi _ Hr) as (Heq & Hin & w & Hu & Hlt).
    destruct (hi_until _ _ _ Hi _ Hu) as [Ha _].
    split; [by rewrite (hour_row_snoc _ _ _ w) by eauto|]. split; [rewrite fmap_app; set_solver|eauto].
  - apply (hi_hourly_unique _ _ _ Hi).
  - intros s' w Hs' Hu Hlt. apply elem_of_app in Hs' as [Hs'|Hs'%list_elem_of_singleton].
    + by eapply (hi_compacted _ _ _ Hi).
    + subst. specialize (Hw _ Hu). lia.
  - rewrite fmap_app. apply NoDup_app. split; [apply (hi_log_unique _ _ _ Hi)|].
    split; [|apply NoDup_singleton]. intros pk Hpk Hin. apply list_elem_of_singleton in Hin as ->.
    apply Hnew. apply list_elem_of_fmap in Hpk as (s' & Heq & Hs').
    apply list_elem_of_fmap. exists s'. split; [done|]. rewrite (hi_raw _ _ _ Hi). apply list_elem_of_filter.
    split; [|done]. injection Heq as _ _ Hts. by rewrite <-Hts.
Qed.

(** What every timely sample keeps, heartbeats keep. *)
Lemma beats_ind (P : Hist → Prop) c bs h :
  (∀ h s, P h → c - COMPACT_GRACE ≤ sm_ts s → P (insert_sample h s)) →
  P h → Forall (timely c) bs → P (beats partitioned bs h).
Proof.
  intros Hins HP Hb. revert h HP. induction Hb as [|b bs Hb _ IH]; intros h HP; [done|].
  apply IH. clear IH bs. unfold record_samples. case_decide; [done|]. destruct (bt_ok b && _); [|done]. cbn [fst].
  assert (∀ s, s ∈ omap (sample_of (bt_station b) (bt_ts b)) (bt_values b) → c - COMPACT_GRACE ≤ sm_ts s) as Hall.
  { intros s Hs. apply list_elem_of_omap in Hs as (kv & _ & Hs).
    unfold sample_of in Hs. destruct (recordable kv.2); [|done]. repeat case_match; by simplify_eq. }
  revert h HP Hall. generalize (omap (sample_of (bt_station b) (bt_ts b)) (bt_values b)).
  intros rows. induction rows as [|s rows IH]; intros h HP Hall; [done|].
  apply IH; [apply Hins; [done|]|]; set_solver.
Qed.

Lemma beats_inv c D bs h : hist_inv c D h → Forall (timely c) bs → hist_inv c D (beats partitioned bs h).
Proof. apply beats_ind. intros. by apply insert_sample_inv. Qed.

Lemma foldl_upsert_fresh rows objs :
  NoDup (hour_pk <$> objs) → (∀ r, r ∈ objs → hour_pk r ∉ hour_pk <$> rows) →
  foldl upsert rows objs = rows ++ objs.
Proof.
  revert rows. induction objs as [|r objs IH]; intros rows Hnd Hfresh; simpl; [by rewrite app_nil_r|].
  rewrite fmap_cons, list.NoDup_cons in Hnd. destruct Hnd as [Hr Hnd].
  assert (upsert rows r = rows ++ [r]) as ->.
  { unfold upsert. rewrite decide_False; [done|]. apply Hfresh. set_solver. }
  rewrite IH, <-app_assoc; [done|done|]. intros r' Hr'. rewrite fmap_app. intros [H|H]%elem_of_app.
  - by apply (Hfresh r' ltac:(set_solver)).
  - simpl in H. apply list_elem_of_singleton in H. apply Hr. rewrite <-H. by apply list_elem_of_fmap_2.
Qed.

Lemma hour_pk_row l g : hour_pk (hour_row l g) = g.
Proof. by destruct g as [[??]?]. Qed.

(** Where compaction resumes: at the watermark, or before every sample. *)
Definition resumes (start : Z) (h : Hist) : Prop :=
  (HOUR | start) ∧
  match h_until h with Some w => w = start | None => ∀ s, s ∈ h_log h → start ≤ sm_ts s end.

(** The hours of a chunk are whole in the raw table. *)
Lemma chunk_group c D h start finish g :
  hist_inv c D h → resumes start h → (HOUR | finish) → start ≤ g.2 → g.2 < finish →
  hour_row (filter (λ s, start ≤ sm_ts s < finish) (h_raw h)) g = hour_row (h_log h) g.
Proof.
  intros Hi [Ha Hres] Hf Hlo Hhi. unfold hour_row.
  assert (filter (λ s, hour_key s = g) (filter (λ s, start ≤ sm_ts s < finish) (h_raw h))
    = filter (λ s, hour_key s = g) (h_log h)) as ->; [|done].
  rewrite (list_filter_filter_l (λ s, hour_key s = g)).
  - rewrite (hi_raw _ _ _ Hi). destruct (h_until h) as [w|] eqn:Hu.
    + apply list_filter_filter_l. intros s <-. simpl in *. intros Hd.
      destruct (hi_dropped _ _ _ Hi _ Hd) as (_ & w' & Hw' & Hle). simplify_eq.
      pose proof (month_of_spec (sm_ts s)). pose proof (hour_floor_le (sm_ts s)). lia.
    + rewrite (list_filter_iff (λ s, month_of (sm_ts s) ∉ D) (λ _, True)).
      * by rewrite list_filter_filter_l.
      * intros s. split; [done|]. intros _ Hd.
        destruct (hi_dropped _ _ _ Hi _ Hd) as (_ & w' & Hw' & _). congruence.
  - intros s <-. simpl in *. pose proof (floor_to_spec HOUR (sm_ts s) hour_pos). unfold hour_floor in *.
    split; [lia|]. destruct (decide (sm_ts s < finish)); [done|].
    pose proof (floor_to_le HOUR finish (sm_ts s) hour_pos Hf). lia.
Qed.

Lemma chunk_objs_unique start finish h : NoDup (hour_pk <$> chunk_objs start finish h).
Proof.
  unfold chunk_objs. rewrite <-list_fmap_compose.
  rewrite (list_fmap_ext (hour_pk ∘ hour_row _) id) by (intros i g _; apply hour_pk_row).
  rewrite list_fmap_id. apply NoDup_remove_dups.
Qed.

Lemma chunk_objs_sound c D h start finish r :
  hist_inv c D h → resumes start h → (HOUR | finish) → r ∈ chunk_objs start finish h →
  r = hour_row (h_log h) (hour_pk r) ∧ hour_pk r ∈ hour_key <$> h_log h ∧ start ≤ hw_ts r < finish.
Proof.
  intros Hi Hres Hf (g & -> & Hg)%list_elem_of_fmap. rewrite hour_pk_row.
  apply elem_of_remove_dups, list_elem_of_fmap in Hg as (s & -> & Hs).
  apply list_elem_of_filter in Hs as [Hr Hs].
  assert (start ≤ (hour_key s).2 < finish) as Hk.
  { pose proof (floor_to_le HOUR start (sm_ts s) hour_pos (proj1 Hres)). pose proof (hour_floor_le (sm_ts s)).
    simpl. unfold hour_floor in *. lia. }
  split_and!; [|by apply list_elem_of_fmap_2; rewrite (hi_raw _ _ _ Hi) in Hs; apply list_elem_of_filter in Hs as [_ ?]|..].
  - by apply (chunk_group c D); try apply Hk.
  - apply Hk.
  - apply Hk.
Qed.

Lemma chunk_objs_complete c D h start finish s :
  hist_inv c D h → resumes start h → s ∈ h_log h → start ≤ sm_ts s < finish →
  hour_key s ∈ hour_pk <$> chunk_objs start finish h.
Proof.
  intros Hi [_ Hres] Hs Hts. unfold chunk_objs. rewrite <-list_fmap_compose.
  rewrite (list_fmap_ext (hour_pk ∘ hour_row _) id) by (intros i g _; apply hour_pk_row).
  rewrite list_fmap_id. apply elem_of_remove_dups, list_elem_of_fmap_2, list_elem_of_filter. split; [done|].
  rewrite (hi_raw _ _ _ Hi). apply list_elem_of_filter. split; [|done]. intros Hd.
  destruct (hi_dropped _ _ _ Hi _ Hd) as (_ & w & Hu & Hle). rewrite Hu in Hres. subst w.
  pose proof (month_of_spec (sm_ts s)). lia.
Qed.

(** The rows already there are of earlier hours. *)
Lemma resumes_old c D h start r : hist_inv c D h → resumes start h → r ∈ h_hourly h → hw_ts r < start.
Proof.
  intros Hi [_ Hres] Hr. destruct (hi_rows _ _ _ Hi _ Hr) as (_ & _ & w & Hu & Hw). rewrite Hu in Hres. by subst.
Qed.

Lemma compact_chunk_inv c D h h' k start finish :
  hist_inv c D h → resumes start h → (HOUR | finish) → start < finish → finish ≤ c - COMPACT_GRACE →
  compact_chunk partitioned start finish h = Some (h', k) →
  let h'' := set_hourly (h_hourly h') (Some finish) h' in hist_inv c D h'' ∧ resumes finish h''.
Proof.
  intros Hi Hres Hf Hlt Hfin Hc. unfold compact_chunk in Hc. case_match; [|done]. injection Hc as <- <-.
  assert (∀ r, r ∈ h_hourly h → hw_ts r < start) as Hold by (intros r; by apply (resumes_old c D)).
  assert (∀ r, r ∈ chunk_objs start finish h → start ≤ hw_ts r < finish) as Hnew.
  { intros r Hr. by apply (chunk_objs_sound c D h start finish r) in Hr as (_ & _ & ?). }
  cbn zeta. rewrite foldl_upsert_fresh; [|apply chunk_objs_unique|].
  2: { intros r Hr%Hnew (r' & Heq & Hr'%Hold)%list_elem_of_fmap. apply (f_equal snd) in Heq. simpl in *. lia. }
  unfold set_hourly; simpl. split; [|by split]. split; simpl.
  - apply (hi_raw _ _ _ Hi).
  - intros d Hd. destruct (hi_dropped _ _ _ Hi _ Hd) as (H1 & w & Hu & H2). split; [done|].
    exists finish. destruct Hres as [_ Hres]. rewrite Hu in Hres. split; [done|]. lia.
  - by intros w [= <-].
  - intros r [Hr|Hr]%elem_of_app.
    + destruct (hi_rows _ _ _ Hi _ Hr) as (H1 & H2 & _). split_and!; [done|done|]. exists finish. split; [done|].
      apply Hold in Hr. lia.
    + destruct (chunk_objs_sound c D h start finish r) as (H1 & H2 & H3); [done..|]. split_and!; [done|done|].
      exists finish. split; [done|]. lia.
  - rewrite fmap_app. apply NoDup_app. split_and!; [apply (hi_hourly_unique _ _ _ Hi)| |apply chunk_objs_unique].
    intros pk (r & -> & Hr%Hold)%list_elem_of_fmap (r' & Heq & Hr'%Hnew)%list_elem_of_fmap.
    apply (f_equal snd) in Heq. simpl in *. lia.
  - intros s w Hs [= <-] Hts. rewrite fmap_app, elem_of_app. destruct (decide (sm_ts s < start)) as [Hb|Hb].
    + destruct Hres as [_ Hres]. destruct (h_until h) as [w|] eqn:Hu; [|specialize (Hres _ Hs); lia]. subst w.
      destruct (hi_compacted _ _ _ Hi s start Hs Hu Hb); tauto.
    + left. right. apply (chunk_objs_complete c D); [done..|lia].
  - apply (hi_log_unique _ _ _ Hi).
Qed.

Lemma beats_resumes c bs start h :
  start ≤ c - COMPACT_GRACE → resumes start h → Forall (timely c) bs → resumes start (beats partitioned bs h).
Proof.
  intros Hc. apply beats_ind. clear h. intros h s [Ha Hr] Hs. unfold insert_sample. case_decide; [done|].
  split; [done|]. simpl. case_match; [done|]. intros s' [H'|H'%list_elem_of_singleton]%elem_of_app; [by apply Hr|].
  subst. lia.
Qed.

(** The loop keeps the invariant, whatever commits or fails between its chunks. *)
Lemma compact_loop_inv c D fuel n gaps step start finish h total :
  0 < step → (HOUR | step) → (HOUR | finish) → finish ≤ c - COMPACT_GRACE →
  (∀ n, Forall (timely c) (gap_beats (gaps n))) →
  hist_inv c D h → resumes start h →
  hist_inv c D (compact_loop partitioned fuel n gaps step start finish h total).1.1.
Proof.
  intros Hstep Hastep Hf Hfin Hgaps. revert n start h total.
  induction fuel as [|fuel IH]; intros n start h total Hi Hres; cbn [compact_loop]; [done|].
  case_bool_decide as Hlt; [|done].
  assert (hist_inv c D (beats partitioned (gap_beats (gaps n)) h)) as Hi1 by by apply beats_inv.
  destruct (gap_ok (gaps n)); [|done].
  destruct (compact_chunk _ _ _ _) as [[h2 k]|] eqn:Hc; [|done].
  apply (compact_chunk_inv c D) in Hc as [Hi2 Hres2]; try done.
  - by apply IH.
  - apply (beats_resumes c); [lia|done..].
  - destruct (Z.min_spec (start + step) finish) as [[_ ->]|[_ ->]]; [|done].
    apply Z.divide_add_r; [apply Hres|done].
  - lia.
  - lia.
Qed.

Lemma compact_inv c D hours gaps h :
  (∀ n, Forall (timely c) (gap_beats (gaps n))) → hist_inv c D h →
  hist_inv c D (compact partitioned c hours gaps h).1.1.
Proof.
  intros Hgaps Hi. unfold compact. case_bool_decide; [done|].
  set (start := match h_until h with Some _ => _ | None => _ end).
  destruct start as [st|] eqn:Hst; [|done]. subst start. apply compact_loop_inv; try done.
  - pose proof hour_pos. nia.
  - apply Z.divide_factor_r.
  - apply hour_floor_le.
  - split; destruct (h_until h) as [w|] eqn:Hu.
    + injection Hst as <-. apply floor_to_aligned.
    + apply fmap_Some in Hst as (s & _ & ->). apply floor_to_aligned.
    + injection Hst as <-. symmetry. apply floor_to_id; [done|]. by apply (hi_until _ _ _ Hi).
    + apply fmap_Some in Hst as (s & Hh & ->). intros s' Hs'. simpl. etrans; [apply hour_floor_le|].
      apply (head_sort_by sm_ts _ _ s' Hh). rewrite (hi_raw _ _ _ Hi). apply list_elem_of_filter. split; [|done].
      intros Hd. destruct (hi_dropped _ _ _ Hi _ Hd) as (_ & w & Hw & _). congruence.
Qed.

Lemma drop_raw_inv c D h i :
  hist_inv c D h → month_begin (i + 1) ≤ c - retention raw_days → raw_partition_safe i h = true →
  ∃ D', hist_inv c D' (drop_raw i h).
Proof.
  intros Hi Hexp Hsafe. unfold raw_partition_safe in Hsafe. destruct (h_until h) as [w|] eqn:Hu.
  - apply bool_decide_eq_true in Hsafe. exists (i :: D). destruct Hi. split; simpl; try done; try by rewrite Hu.
    + unfold delete_where. rewrite hi_raw0, list_filter_filter. apply list_filter_iff. intros s.
      rewrite in_month_iff, elem_of_cons. tauto.
    + intros d [->|Hd]%elem_of_cons; [by eauto|]. rewrite Hu in *. eauto.
  - apply bool_decide_eq_true in Hsafe. exists D.
    assert (delete_where (λ s, in_month i (sm_ts s)) (h_raw h) = h_raw h) as Hid.
    { by apply filter_Forall_id. }
    destruct Hi. split; simpl; rewrite ?Hu in *; try done. by rewrite Hid.
Qed.

Lemma drop_hourly_inv c D h i :
  hist_inv c D h → month_begin (i + 1) ≤ c - retention hourly_days → hist_inv c D (drop_hourly i h).
Proof.
  intros [] Hexp. split; simpl; try done.
  - intros r [_ Hr]%elem_of_delete_where. by apply hi_rows0.
  - eapply sublist_NoDup; [|apply fmap_sublist, sublist_filter]. done.
  - intros s w Hs Hu Hlt. destruct (hi_compacted0 s w Hs Hu Hlt) as [Hin|]; [|by right].
    apply list_elem_of_fmap in Hin as (r & Hk & Hr). destruct (decide (in_month i (hw_ts r))) as [Hm|Hm].
    + right. apply in_month_iff in Hm. apply (f_equal snd) in Hk. simpl in Hk. rewrite <-Hk, month_of_hour in Hm.
      by rewrite Hm.
    + left. rewrite Hk. apply list_elem_of_fmap_2. by apply elem_of_delete_where.
Qed.

(** A fold of drops keeps the invariant when every drop does. *)
Lemma foldl_inv c (f : Hist → Z → Hist) h l :
  (∀ h i, i ∈ l → (∃ D, hist_inv c D h) → ∃ D, hist_inv c D (f h i)) →
  (∃ D, hist_inv c D h) → ∃ D, hist_inv c D (foldl f h l).
Proof.
  revert h. induction l as [|i l IH]; intros h Hf Hi; [done|]. simpl.
  apply IH; [|apply Hf; set_solver]. intros. apply Hf; set_solver.
Qed.

(** The months of the row delete lie before the limit. *)
Lemma months_loop_before fuel i before stamps j :
  j ∈ months_loop fuel i before stamps → month_begin j < before.
Proof.
  revert i. induction fuel as [|fuel IH]; intros i; cbn [months_loop]; [intros H; by apply not_elem_of_nil in H|].
  case_bool_decide; [|intros H'; by apply not_elem_of_nil in H'].
  intros [Hj|Hj]%elem_of_app; [|by eapply IH]. case_bool_decide; [|by apply not_elem_of_nil in Hj].
  by apply list_elem_of_singleton in Hj as ->.
Qed.

Lemma months_with_rows_before stamps now days j :
  j ∈ months_with_rows stamps (Z.min (month_start now) (month_start (now - retention days))) →
  month_begin (j + 1) ≤ now - retention days.
Proof.
  unfold months_with_rows. case_match; [|intros H'; by apply not_elem_of_nil in H'].
  intros Hj%months_loop_before. pose proof (month_of_spec (now - retention days)) as [Hlo _].
  unfold month_start in *. assert (j < month_of (now - retention days)) as Hlt by (apply month_begin_lt; lia).
  pose proof (month_begin_mono (j + 1) (month_of (now - retention days))). lia.
Qed.

Lemma drop_raw_months_inv c months h :
  (∀ i, i ∈ months → month_begin (i + 1) ≤ c - retention raw_days) →
  (∃ D, hist_inv c D h) → ∃ D, hist_inv c D (drop_raw_months months h).
Proof.
  revert h. induction months as [|i months IH]; intros h Hm [D Hi]; [by eauto|]. cbn [drop_raw_months].
  destruct (raw_partition_safe i h) eqn:Hs; [|by eauto]. apply IH; [set_solver|].
  apply (drop_raw_inv c D); [done|set_solver|done].
Qed.

Lemma drop_expired_inv c h :
  (∃ D, hist_inv c D h) → ∃ D, hist_inv c D (drop_expired partitioned raw_days hourly_days c h).
Proof.
  intros Hi. unfold drop_expired. destruct partitioned.
  - apply foldl_inv; [|apply foldl_inv; [|done]].
    + intros h' i _ [D Hi']. case_bool_decide as Hb; [|by eauto]. exists D. apply drop_hourly_inv; [done|lia].
    + intros h' i _ [D Hi']. case_bool_decide as Hb; [by eauto|].
      destruct (raw_partition_safe i h') eqn:Hs; [|by eauto]. apply (drop_raw_inv c D); [done|lia|done].
  - apply foldl_inv; [|apply drop_raw_months_inv; [|done]].
    + intros h' i Hin [D Hi']. exists D. apply drop_hourly_inv; [done|]. by eapply months_with_rows_before.
    + intros i Hin. by eapply months_with_rows_before.
Qed.

Definition timely_run (c : Z) (r : MaintRun) : Prop :=
  (∀ n, Forall (timely c) (gap_beats (rn_gaps r n))) ∧
  Forall (timely c) (gap_beats (rn_before_parts r)) ∧ Forall (timely c) (gap_beats (rn_before_drop r)).

Lemma run_maintenance_inv c r h :
  timely_run c r → (∃ D, hist_inv c D h) →
  ∃ D, hist_inv c D (run_maintenance partitioned raw_days hourly_days c r h).
Proof.
  intros (Hg & Hp & Hd) [D Hi]. unfold run_maintenance.
  set (h1 := (compact partitioned c 24 (rn_gaps r) h).1.1).
  assert (hist_inv c D h1) as Hi1 by by apply compact_inv.
  set (h2 := beats partitioned _ h1). assert (hist_inv c D h2) as Hi2 by by apply beats_inv.
  set (h3 := if gap_ok (rn_before_parts r) then _ else h2).
  assert (hist_inv c D h3) as Hi3 by (subst h3; destruct (gap_ok _); [destruct Hi2; by split|done]).
  assert (hist_inv c D (beats partitioned (gap_beats (rn_before_drop r)) h3)) as Hi4 by by apply beats_inv.
  destruct (gap_ok (rn_before_drop r)); [|by eauto]. apply drop_expired_inv. eauto.
Qed.

(** Heartbeats, time, and maintenance runs that the next clock reading ends. *)
Inductive hist_step : Z * Hist → Z * Hist → Prop :=
| hs_beat c b h : timely c b → hist_step (c, h) (c, (record_samples partitioned b h).1)
| hs_time c c' h : c ≤ c' → hist_step (c, h) (c', h)
| hs_run c c' r h : c ≤ c' → timely_run c r →
    hist_step (c, h) (c', run_maintenance partitioned raw_days hourly_days c r h).

Definition hist_start (raw_parts hourly_parts : list Z) : Hist := mkHist [] [] raw_parts hourly_parts None [].

Lemma history_reachable_inv c0 rp hp c h :
  rtc hist_step (c0, hist_start rp hp) (c, h) → ∃ D, hist_inv c D h.
Proof.
  intros Hr. change (∃ D, hist_inv (c, h).1 D (c, h).2). revert Hr. generalize (c, h). clear c h.
  apply (rtc_ind_r (R := hist_step) (λ x, ∃ D, hist_inv x.1 D x.2) (c0, hist_start rp hp)).
  - exists []. split; simpl; try done; try constructor; intros; by exfalso; eapply not_elem_of_nil.
  - intros [c h] [c' h'] _ Hs [D Hi]. simpl in *. inversion Hs; subst; clear Hs.
    + exists D. apply (beats_inv c' D [b] h); [done|by constructor].
    + exists D. by apply (hist_inv_later c).
    + destruct (run_maintenance_inv c r h) as [D' Hi']; [done|by eauto|]. exists D'. by apply (hist_inv_later c).
Qed.

End invariant.

(** ** Lemmas: aggregates *)

Lemma qmin_cases a b : (qmin a b = a ∧ (a ≤ b)%Qc) ∨ (qmin a b = b ∧ (b ≤ a)%Qc).
Proof. unfold qmin. case_decide; [by left|right; split; [done|]]. by apply Qclt_le_weak, Qcnot_le_lt. Qed.

Lemma qmax_cases a b : (qmax a b = b ∧ (a ≤ b)%Qc) ∨ (qmax a b = a ∧ (b ≤ a)%Qc).
Proof. unfold qmax. case_decide; [by left|right; split; [done|]]. by apply Qclt_le_weak, Qcnot_le_lt. Qed.

Lemma Min_spec l : l ≠ [] → Min l ∈ l ∧ ∀ x, x ∈ l → (Min l ≤ x)%Qc.
Proof.
  destruct l as [|x l]; [done|]. intros _. cbn [Min]. induction l as [|y l IH]; simpl.
  - split; [set_solver|]. intros z ->%list_elem_of_singleton. apply Qcle_refl.
  - destruct IH as [Hin Hle]. destruct (qmin_cases y (foldr qmin x l)) as [[-> Hc]|[-> Hc]]; (split; [set_solver|]);
      intros z; rewrite !elem_of_cons; intros [->|[->|Hz]]; try apply Qcle_refl; try done; try (apply Hle; set_solver).
    + eapply Qcle_trans; [exact Hc|]. apply Hle. set_solver.
    + eapply Qcle_trans; [exact Hc|]. apply Hle. set_solver.
Qed.

Lemma Max_spec l : l ≠ [] → Max l ∈ l ∧ ∀ x, x ∈ l → (x ≤ Max l)%Qc.
Proof.
  destruct l as [|x l]; [done|]. intros _. cbn [Max]. induction l as [|y l IH]; simpl.
  - split; [set_solver|]. intros z ->%list_elem_of_singleton. apply Qcle_refl.
  - destruct IH as [Hin Hle]. destruct (qmax_cases y (foldr qmax x l)) as [[-> Hc]|[-> Hc]]; (split; [set_solver|]);
      intros z; rewrite !elem_of_cons; intros [->|[->|Hz]]; try apply Qcle_refl; try done; try (apply Hle; set_solver).
    + eapply Qcle_trans; [|exact Hc]. apply Hle. set_solver.
    + eapply Qcle_trans; [|exact Hc]. apply Hle. set_solver.
Qed.

Lemma Min_unique l m : m ∈ l → (∀ x, x ∈ l → (m ≤ x)%Qc) → Min l = m.
Proof.
  intros Hm Hle. destruct (Min_spec l) as [Hin Hle']; [by intros ->; apply not_elem_of_nil in Hm|].
  apply Qcle_antisym; auto.
Qed.

Lemma Max_unique l m : m ∈ l → (∀ x, x ∈ l → (x ≤ m)%Qc) → Max l = m.
Proof.
  intros Hm Hle. destruct (Max_spec l) as [Hin Hle']; [by intros ->; apply not_elem_of_nil in Hm|].
  apply Qcle_antisym; auto.
Qed.

Lemma qsum_app l k : qsum (l ++ k) = (qsum l + qsum k)%Qc.
Proof. induction l as [|x l IH]; simpl; [ring|]. rewrite IH. ring. Qed.

#[export] Instance qsum_perm : Proper ((≡ₚ) ==> (=)) qsum.
Proof. intros l k H. induction H; simpl; [done|by rewrite IHPermutation|ring|congruence]. Qed.

(** An average weighs as much as the values it stands for. *)
Lemma Avg_weight l : l ≠ [] → (Avg l * of_Z (Z.of_nat (length l)) = qsum l)%Qc.
Proof.
  intros Hl. unfold Avg. field. intros H. rewrite <-Z2Qc_inj_0 in H. apply Z2Qc_inj in H.
  destruct l; [done|]. simpl in H. lia.
Qed.

(** A list is the concatenation of its groups. *)
Lemma group_perm {A K} `{EqDecision K} (f : A → K) (l : list A) (ks : list K) :
  NoDup ks → (∀ x, x ∈ l → f x ∈ ks) → mjoin ((λ k, filter (λ x, f x = k) l) <$> ks) ≡ₚ l.
Proof.
  intros Hnd. revert l. induction Hnd as [|k ks Hk Hnd IH]; intros l Hl.
  - destruct l as [|x l]; [done|]. specialize (Hl x ltac:(set_solver)). by apply not_elem_of_nil in Hl.
  - rewrite fmap_cons. cbn [mjoin list_join]. etrans; [|apply (filter_app_complement (λ x, f x = k) l)].
    apply Permutation_app_head. rewrite <-(IH (filter (λ x, f x ≠ k) l)).
    + apply reflexive_eq. f_equal. apply list_fmap_ext. intros i k' Hk'.
      symmetry. apply list_filter_filter_l. intros x Hx Hxk. apply Hk. rewrite <-Hxk, Hx.
      by eapply list_elem_of_lookup_2.
    + intros x [Hx Hin]%list_elem_of_filter. specialize (Hl _ Hin). set_solver.
Qed.

Section groups.
Context (S : list Sample) (ks : list SeriesKey) (f : Sample → Qc).
Hypothesis (Hks : ∀ g, g ∈ ks ↔ g ∈ hour_key <$> S) (HS : S ≠ []).

Let F (g : SeriesKey) : list Sample := filter (λ s, hour_key s = g) S.

Lemma group_nonempty g : g ∈ ks → F g ≠ [].
Proof. intros (s & -> & Hs)%Hks%list_elem_of_fmap. apply filter_not_nil. by exists s. Qed.

Lemma group_fmap_nonempty g : g ∈ ks → f <$> F g ≠ [].
Proof. intros Hg%group_nonempty. by destruct (F g). Qed.

Lemma group_subset g x : x ∈ f <$> F g → x ∈ f <$> S.
Proof. intros (s & -> & Hs)%list_elem_of_fmap. apply list_elem_of_filter in Hs as [_ Hs]. by apply list_elem_of_fmap_2. Qed.

(** The group of the sample that is extreme among all. *)
Lemma group_of x : x ∈ f <$> S → ∃ g, g ∈ ks ∧ x ∈ f <$> F g.
Proof.
  intros (s & -> & Hs)%list_elem_of_fmap. exists (hour_key s). split; [apply Hks; by apply list_elem_of_fmap_2|].
  apply list_elem_of_fmap_2. by apply list_elem_of_filter.
Qed.

Lemma group_min : Min ((λ g, Min (f <$> F g)) <$> ks) = Min (f <$> S).
Proof.
  destruct (Min_spec (f <$> S)) as [Hin Hle]; [by destruct S|]. apply Min_unique.
  - destruct (group_of _ Hin) as (g & Hg & Hx). apply list_elem_of_fmap. exists g. split; [|done].
    symmetry. apply Min_unique; [done|]. intros x Hx'%group_subset. by apply Hle.
  - intros x (g & -> & Hg)%list_elem_of_fmap. apply Hle, (group_subset g), Min_spec. by apply group_fmap_nonempty.
Qed.

Lemma group_max : Max ((λ g, Max (f <$> F g)) <$> ks) = Max (f <$> S).
Proof.
  destruct (Max_spec (f <$> S)) as [Hin Hle]; [by destruct S|]. apply Max_unique.
  - destruct (group_of _ Hin) as (g & Hg & Hx). apply list_elem_of_fmap. exists g. split; [|done].
    symmetry. apply Max_unique; [done|]. intros x Hx'%group_subset. by apply Hle.
  - intros x (g & -> & Hg)%list_elem_of_fmap. apply Hle, (group_subset g), Max_spec. by apply group_fmap_nonempty.
Qed.

Lemma group_sum : NoDup ks →
  qsum ((λ g, Avg (f <$> F g) * of_Z (Z.of_nat (length (F g))))%Qc <$> ks) = qsum (f <$> S).
Proof.
  intros Hnd. rewrite <-(group_perm hour_key S ks Hnd) at 1 by (intros s Hs; apply Hks; by apply list_elem_of_fmap_2).
  fold F. pose proof group_nonempty as Hne. clear Hks Hnd HS. induction ks as [|g ks' IH]; [done|].
  rewrite !fmap_cons. cbn [mjoin list_join qsum foldr]. rewrite fmap_app, qsum_app. f_equal.
  - rewrite <-(Avg_weight (f <$> F g)), length_fmap; [done|]. specialize (Hne g ltac:(set_solver)). by destruct (F g).
  - apply IH. intros g' Hg'. apply Hne. set_solver.
Qed.

Lemma group_count : NoDup ks → foldr Z.add 0 ((λ g, Z.of_nat (length (F g))) <$> ks) = Z.of_nat (length S).
Proof.
  intros Hnd. rewrite <-(group_perm hour_key S ks Hnd) at 1 by (intros s Hs; apply Hks; by apply list_elem_of_fmap_2).
  fold F. clear Hks Hnd HS. induction ks as [|g ks' IH]; [done|].
  rewrite !fmap_cons. cbn [mjoin list_join foldr]. rewrite length_app. 
  rewrite IH, Nat2Z.inj_add. done.
Qed.

End groups.

(** ** Exactness *)

Definition hour_expired (hourly_days c t : Z) : Prop := month_begin (month_of t + 1) ≤ c - retention hourly_days.

(** The samples of one series on one UTC day. *)
Definition day_samples (h : Hist) (station : Z) (key : string) (d : Z) : list Sample :=
  filter (λ s, sm_station s = station ∧ sm_key s = key ∧ floor_to DAY (sm_ts s) = d) (h_log h).

(** The point of a day: minimum, mean and maximum of its samples. *)
Definition day_summary (d : Z) (samples : list Sample) : list Point :=
  if decide (length samples = 0%nat) then []
  else [mkPoint (epoch d) (Min (sm_min <$> samples)) (Avg (sm_avg <$> samples)) (Max (sm_max <$> samples))].

(** Minimum, mean and maximum of samples, not by how they are computed: the least
    of the minima and the greatest of the maxima, both attained, and a mean that
    weighs as much as all of them. *)
Definition summary_of (samples : list Sample) (mn av mx : Qc) : Prop :=
  mn ∈ sm_min <$> samples ∧ (∀ s, s ∈ samples → (mn ≤ sm_min s)%Qc) ∧
  mx ∈ sm_max <$> samples ∧ (∀ s, s ∈ samples → (sm_max s ≤ mx)%Qc) ∧
  (av * of_Z (Z.of_nat (length samples)) = qsum (sm_avg <$> samples))%Qc.

Lemma summary_intro samples :
  samples ≠ [] →
  summary_of samples (Min (sm_min <$> samples)) (Avg (sm_avg <$> samples)) (Max (sm_max <$> samples)).
Proof.
  intros Hne. assert (∀ {A} (f : Sample → A), f <$> samples ≠ []) as Hf by (intros A f; by destruct samples).
  destruct (Min_spec (sm_min <$> samples)) as [Hm1 Hm2]; [apply Hf|].
  destruct (Max_spec (sm_max <$> samples)) as [Hx1 Hx2]; [apply Hf|].
  unfold summary_of. split_and!; [done| |done| |].
  - intros s Hs. apply Hm2. by apply list_elem_of_fmap_2.
  - intros s Hs. apply Hx2. by apply list_elem_of_fmap_2.
  - rewrite <-(Avg_weight (sm_avg <$> samples)) by apply Hf. by rewrite length_fmap.
Qed.

(** The samples of one series in one hour. *)
Definition hour_samples (h : Hist) (station : Z) (key : string) (t : Z) : list Sample :=
  filter (λ s, sm_station s = station ∧ sm_key s = key ∧ t ≤ sm_ts s < t + HOUR) (h_log h).

Lemma hour_samples_key h station key t :
  (HOUR | t) → hour_samples h station key t = filter (λ s, hour_key s = (station, key, t)) (h_log h).
Proof.
  intros Ht. apply list_filter_iff. intros s. unfold hour_key, hour_floor.
  pose proof (floor_to_spec HOUR (sm_ts s) hour_pos) as Hf. split.
  - intros (<- & <- & Hr). do 2 f_equal. destruct Ht as [a ->]. unfold floor_to in *.
    assert (sm_ts s / HOUR = a) as ->; [|done]. symmetry. apply (Z.div_unique_pos _ _ _ (sm_ts s - a * HOUR)); lia.
  - intros [= <- <- <-]. by split_and!; try lia.
Qed.

(** The raw table as if nothing had ever been dropped. *)
Definition unpruned (h : Hist) : Hist :=
  mkHist (h_log h) (h_hourly h) (h_raw_parts h) (h_hourly_parts h) (h_until h) (h_log h).

Section exact.
Context (raw_days hourly_days c : Z) (D : list Z) (h : Hist).
Hypothesis Hi : hist_inv raw_days hourly_days c D h.

(** No dropped month reaches into the raw window. *)
Lemma window_kept t : c - retention raw_days ≤ t → month_of t ∉ D.
Proof.
  intros Ht Hd. destruct (hi_dropped _ _ _ _ _ Hi _ Hd) as [Hle _]. pose proof (month_of_spec t). lia.
Qed.

Lemma hour_rows_of g :
  filter (λ r, hour_pk r = g) (h_hourly h) = [] ∨
  filter (λ r, hour_pk r = g) (h_hourly h) = [hour_row (h_log h) g] ∧ g ∈ hour_key <$> h_log h.
Proof.
  pose proof (hi_hourly_unique _ _ _ _ _ Hi) as Hnd.
  destruct (filter (λ r, hour_pk r = g) (h_hourly h)) as [|r l] eqn:Hf; [by left|right].
  assert (∀ r', r' ∈ r :: l → hour_pk r' = g ∧ r' ∈ h_hourly h) as Hall by (intros r'; rewrite <-Hf, list_elem_of_filter; done).
  destruct (Hall r ltac:(set_solver)) as [Hg Hr]. destruct (hi_rows _ _ _ _ _ Hi _ Hr) as (Heq & Hin & _).
  rewrite Hg in Heq, Hin. split; [|done]. rewrite <-Heq. f_equal.
  destruct l as [|r' l]; [done|]. exfalso. destruct (Hall r' ltac:(set_solver)) as [Hg' Hr'].
  assert (NoDup (hour_pk <$> r :: r' :: l)) as Hnd'.
  { rewrite <-Hf. eapply sublist_NoDup; [|apply fmap_sublist, sublist_filter]. done. }
  rewrite !fmap_cons in Hnd'. apply list.NoDup_cons in Hnd' as [Hno _]. apply Hno. rewrite Hg, Hg'. set_solver.
Qed.

Lemma day_of_hour t : floor_to DAY (hour_floor t) = floor_to DAY t.
Proof.
  pose proof (floor_to_spec DAY t day_pos) as H1. pose proof (floor_to_spec DAY (hour_floor t) day_pos) as H2.
  pose proof (hour_floor_le t). destruct (floor_to_aligned DAY t) as [a Ha], (floor_to_aligned DAY (hour_floor t)) as [b Hb].
  assert (floor_to DAY t ≤ hour_floor t).
  { apply floor_to_le; [done| |lia]. etrans; [|apply floor_to_aligned]. by exists 24. }
  rewrite Ha, Hb in *. pose proof day_pos. f_equal. nia.
Qed.

Lemma month_of_day d t : (DAY | d) → floor_to DAY t = d → month_of t = month_of d.
Proof.
  intros Hd Ht. apply month_of_unique. pose proof (month_of_spec d) as [H1 H2].
  pose proof (floor_to_spec DAY t day_pos). rewrite Ht in *. split; [lia|].
  assert (d + DAY ≤ month_begin (month_of d + 1)); [|lia].
  rewrite <-(floor_to_id DAY d day_pos Hd) at 1. by apply floor_to_lt; [|apply month_begin_aligned|].
Qed.

Section day.
Context (station : Z) (key : string) (lower until w d : Z).
Hypothesis (Hd : (DAY | d)) (Hlo : lower ≤ d) (Hhi : d + DAY - HOUR ≤ until).
Hypothesis (Hu : h_until h = Some w) (Hw : d + DAY ≤ w) (Hlive : ¬ hour_expired hourly_days c d).

Let S := day_samples h station key d.
Let members := filter (λ r, floor_to DAY (hw_ts r) = d) (series_hours h station key lower until).

Lemma elem_of_day_samples s :
  s ∈ S ↔ (sm_station s = station ∧ sm_key s = key ∧ floor_to DAY (sm_ts s) = d) ∧ s ∈ h_log h.
Proof. unfold S, day_samples. by rewrite list_elem_of_filter. Qed.

Lemma elem_of_members r :
  r ∈ members ↔ r ∈ h_hourly h ∧ hw_station r = station ∧ hw_key r = key ∧ floor_to DAY (hw_ts r) = d ∧
    lower ≤ hw_ts r ≤ until.
Proof. subst members. unfold series_hours. rewrite list_elem_of_filter, elem_of_sort_by, list_elem_of_filter. naive_solver. Qed.

(** The hours of the day are those with a sample. *)
Lemma members_hours g : g ∈ hour_pk <$> members ↔ g ∈ hour_key <$> S.
Proof.
  rewrite !list_elem_of_fmap. split.
  - intros (r & -> & Hr). apply elem_of_members in Hr as (Hr & Hst & Hk & Hday & _).
    destruct (hi_rows _ _ _ _ _ Hi _ Hr) as (_ & Hin & _). apply list_elem_of_fmap in Hin as (s & Hs & Hlog).
    exists s. split; [done|]. apply elem_of_day_samples. unfold hour_pk, hour_key in Hs. injection Hs as Hs1 Hs2 Hs3.
    split_and!; [congruence..| |done]. by rewrite <-day_of_hour, <-Hs3.
  - intros (s & -> & Hs). apply elem_of_day_samples in Hs as ((Hst & Hk & Hday) & Hs).
    pose proof (floor_to_spec DAY (sm_ts s) day_pos) as Hf. rewrite Hday in Hf.
    destruct (hi_compacted _ _ _ _ _ Hi s w Hs Hu ltac:(lia)) as [Hin|Hexp].
    + apply list_elem_of_fmap in Hin as (r & Heq & Hr). exists r. split; [done|]. apply elem_of_members.
      unfold hour_pk, hour_key in Heq. injection Heq as H1 H2 H3. split_and!; [done|congruence|congruence|..].
      * by rewrite <-H3, day_of_hour.
      * rewrite <-H3. etrans; [exact Hlo|]. apply floor_to_le; [done| |lia]. etrans; [|exact Hd]. by exists 24.
      * rewrite <-H3. assert (hour_floor (sm_ts s) + HOUR ≤ d + DAY); [|lia].
        apply floor_to_lt; [done| |lia]. apply Z.divide_add_r; [|by exists 24]. etrans; [|exact Hd]. by exists 24.
    + destruct Hlive. unfold hour_expired. by rewrite <-(month_of_day d (sm_ts s) Hd Hday).
Qed.

Lemma members_unique : NoDup (hour_pk <$> members).
Proof.
  assert (∃ l, members ≡ₚ l ∧ l `sublist_of` h_hourly h) as (l & Hp & Hs).
  { exists (filter (λ r, floor_to DAY (hw_ts r) = d)
      (filter (λ r, hw_station r = station ∧ hw_key r = key ∧ lower ≤ hw_ts r ∧ hw_ts r ≤ until) (h_hourly h))).
    split; [apply filter_Permutation, sort_by_Permutation|]. etrans; apply sublist_filter. }
  rewrite Hp. eapply sublist_NoDup; [apply (hi_hourly_unique _ _ _ _ _ Hi)|by apply fmap_sublist].
Qed.

(** Each row aggregates the samples of its hour, all of them of the day. *)
Lemma members_rows : members = hour_row S <$> (hour_pk <$> members).
Proof.
  rewrite <-list_fmap_compose. rewrite <-(list_fmap_id members) at 1. apply list_fmap_ext. intros i r Hr.
  apply list_elem_of_lookup_2, elem_of_members in Hr as (Hr & Hst & Hk & Hday & _). simpl.
  destruct (hi_rows _ _ _ _ _ Hi _ Hr) as (Heq & _). rewrite Heq at 1. unfold hour_row. subst S. unfold day_samples.
  rewrite (list_filter_filter_l (λ s, hour_key s = hour_pk r)); [done|].
  intros s Hs. unfold hour_pk, hour_key in Hs. injection Hs as H1 H2 H3. split_and!; [congruence..|].
  by rewrite <-day_of_hour, H3.
Qed.

Lemma day_points_exact :
  day_points (series_hours h station key lower until) d =
    day_summary d S.
Proof.
  unfold day_points. fold members. rewrite members_rows. set (ks := hour_pk <$> members).
  pose proof members_hours as Hks. pose proof members_unique as Hnd. fold ks in Hks, Hnd. clearbody ks.
  destruct (decide (S = [])) as [HS|HS].
  - rewrite HS in *. destruct ks as [|g ks]; [done|]. specialize (Hks g). set_solver.
  - rewrite <-!list_fmap_compose.
    assert (foldr Z.add 0 (hw_count ∘ hour_row S <$> ks) = Z.of_nat (length S)) as Hc by exact (group_count S ks Hks Hnd).
    rewrite Hc. rewrite bool_decide_eq_false_2 by (destruct S; simpl; [done|lia]).
    change (hw_min ∘ hour_row S) with (λ g, Min (sm_min <$> filter (λ s, hour_key s = g) S)).
    change (hw_max ∘ hour_row S) with (λ g, Max (sm_max <$> filter (λ s, hour_key s = g) S)).
    rewrite group_min, group_max by done.
    assert (qsum ((λ r, hw_avg r * of_Z (hw_count r))%Qc ∘ hour_row S <$> ks) = qsum (sm_avg <$> S)) as ->
      by exact (group_sum S ks sm_avg Hks Hnd).
    unfold day_summary, Avg. rewrite length_fmap, decide_False; [done|]. by destruct S.
Qed.

End day.

End exact.

Lemma epoch_day k : epoch (k * DAY) = k * 86400.
Proof. unfold epoch. change DAY with (86400 * 1000000). rewrite Z.mul_assoc. by rewrite Z.quot_mul. Qed.

Lemma day_points_epoch rows d : Forall (λ p, pt_epoch p = epoch d) (day_points rows d).
Proof. unfold day_points. case_bool_decide; by repeat constructor. Qed.

(** The points of a series that carry the time of day [d]. *)
Lemma filter_day_points rows d ds :
  NoDup ds → (DAY | d) → Forall (λ d', (DAY | d')) ds →
  filter (λ p, pt_epoch p = epoch d) (ds ≫= day_points rows) = if decide (d ∈ ds) then day_points rows d else [].
Proof.
  intros Hnd Hd Hall. induction Hnd as [|d' ds Hno Hnd IH]; [done|].
  apply list.Forall_cons in Hall as [Hd' Hall]. cbn [mbind list_bind]. rewrite filter_app, IH by done.
  pose proof (day_points_epoch rows d') as Hp. destruct (decide (d' = d)) as [->|Hne].
  - rewrite (decide_False (P := d ∈ ds)), app_nil_r, decide_True by set_solver.
    by apply filter_Forall_id.
  - assert (filter (λ p, pt_epoch p = epoch d) (day_points rows d') = []) as ->.
    { apply list_filter_none. intros p Hin. rewrite list.Forall_forall in Hp. rewrite (Hp p Hin).
      destruct Hd as [a ->], Hd' as [b ->]. rewrite !epoch_day. intros ?. apply Hne. f_equal. lia. }
    simpl. destruct (decide (d ∈ ds)); [rewrite decide_True by set_solver|rewrite decide_False by set_solver]; done.
Qed.

Lemma day_points_absent rows d : d ∉ ((λ r, floor_to DAY (hw_ts r)) <$> rows) → day_points rows d = [].
Proof.
  intros Hno. unfold day_points. rewrite list_filter_none; [done|]. intros r Hr <-. apply Hno.
  by apply (list_elem_of_fmap_2 (λ r, floor_to DAY (hw_ts r))).
Qed.

(** The window of a query that starts inside the raw window. *)
Lemma floor_since_le since m : (DAY | m) → m ≤ since → m ≤ floor_since R_5m since.
Proof.
  intros Hm Hle. unfold floor_since. apply floor_to_le; [done| |].
  - etrans; [|exact Hm]. by exists 288.
  - destruct Hm as [k ->]. unfold epoch. change DAY with (86400 * 1000000) in *.
    destruct (decide (0 ≤ since)).
    + rewrite Z.quot_div_nonneg by lia. pose proof (Z.div_le_lower_bound since 1000000 (k * 86400)). lia.
    + pose proof (Z.quot_rem' since 1000000). pose proof (Z.rem_nonpos since 1000000). lia.
Qed.

Lemma raw_series_unpruned raw_days hourly_days c D h station key lower until :
  hist_inv raw_days hourly_days c D h → (∀ t, lower ≤ t → month_of t ∉ D) →
  series_samples h station key lower until = series_samples (unpruned h) station key lower until.
Proof.
  intros Hi Hk. unfold series_samples. f_equal. simpl. rewrite (hi_raw _ _ _ _ _ Hi).
  apply list_filter_filter_l. intros s (_ & _ & Hlo & _). by apply Hk.
Qed.

(** ** Progress: the fuel of the loops is enough *)

(** Without failing transactions a run compacts everything up to its end. *)
Lemma compact_loop_done gaps step finish fuel n start h total :
  (∀ n, gap_ok (gaps n) = true) → HOUR ≤ step → finish - start ≤ Z.of_nat fuel * HOUR →
  let r := compact_loop false fuel n gaps step start finish h total in
  r.2 = true ∧ (start < finish → h_until r.1.1 = Some finish).
Proof.
  intros Hok Hstep. revert n start h total. induction fuel as [|fuel IH]; intros n start h total Hf; cbn [compact_loop].
  - split; [done|]. change (Z.of_nat 0) with 0 in Hf. lia.
  - case_bool_decide as Hlt; [|done]. rewrite Hok. unfold compact_chunk. cbn [negb orb].
    set (h2 := set_hourly _ (Some _) _). specialize (IH (S n) (Z.min (start + step) finish) h2).
    set (k := Z.of_nat (length _)). specialize (IH (total + k)). pose proof hour_pos.
    destruct IH as [H1 H2]; [rewrite Nat2Z.inj_succ in Hf; destruct (Z.min_spec (start + step) finish) as [[_ ->]|[_ ->]]; nia|].
    split; [done|]. intros _.
    destruct (decide (start + step < finish)); [apply H2; lia|].
    assert (h_until h2 = Some finish) as Hu by (subst h2; simpl; by rewrite Z.min_r by lia).
    destruct fuel; cbn [compact_loop]; [done|]. by rewrite bool_decide_eq_false_2 by lia.
Qed.

Lemma compact_catches_up now hours gaps h :
  0 < hours → (∀ n, gap_ok (gaps n) = true) → h_until h ≠ None ∨ h_raw h ≠ [] →
  let r := compact false now hours gaps h in
  r.2 = true ∧ (h_until r.1.1 = Some (hour_floor (now - COMPACT_GRACE)) ∨ r.1.1 = h).
Proof.
  intros Hh Hok Hne. unfold compact. rewrite bool_decide_eq_false_2 by lia.
  set (start := match h_until h with Some _ => _ | None => _ end). destruct start as [st|] eqn:Hst; [|by auto].
  set (finish := hour_floor (now - COMPACT_GRACE)). cbn zeta.
  destruct (compact_loop_done gaps (hours * HOUR) finish (compact_fuel st finish) 0 st h 0) as [H1 H2]; [done| | |].
  - pose proof hour_pos. nia.
  - unfold compact_fuel. pose proof (floor_to_spec HOUR (finish - st) hour_pos) as Hfl. unfold floor_to in Hfl.
    pose proof hour_pos. nia.
  - split; [done|]. destruct (decide (st < finish)); [by left; apply H2|right].
    unfold compact_fuel. destruct (Z.to_nat _); cbn [compact_loop]; [done|]. by rewrite bool_decide_eq_false_2.
Qed.

(** Every month with rows before the limit is found. *)
Lemma months_loop_complete fuel i before stamps t :
  month_begin i ≤ t → month_begin (month_of t) < before → t ∈ stamps → before - month_begin i < Z.of_nat fuel * DAY →
  month_of t ∈ months_loop fuel i before stamps.
Proof.
  revert i. induction fuel as [|fuel IH]; intros i Hi Hb Ht Hf; cbn [months_loop].
  - pose proof (month_of_spec t). assert (i < month_of t + 1) by (apply month_begin_lt; lia).
    pose proof (month_begin_mono i (month_of t)). change (Z.of_nat 0) with 0 in Hf. lia.
  - pose proof (month_of_spec t) as Hs. assert (i < month_of t + 1) as Hlt by (apply month_begin_lt; lia).
    pose proof (month_begin_mono i (month_of t)). rewrite bool_decide_eq_true_2 by lia. apply elem_of_app.
    destruct (decide (month_of t = i)) as [Heq|Hne].
    + left. rewrite bool_decide_eq_true_2; [by rewrite Heq; apply list_elem_of_singleton|].
      apply Exists_exists. exists t. split; [done|]. by apply in_month_iff.
    + right. pose proof (month_begin_mono (i + 1) (month_of t)). pose proof (month_begin_step i). pose proof day_pos.
      apply IH; [lia|done|done|lia].
Qed.

Lemma months_with_rows_complete stamps before t :
  t ∈ stamps → t < before → month_of t ∈ months_with_rows stamps before.
Proof.
  intros Ht Hb. unfold months_with_rows.
  assert (t ∈ filter (λ t, t < before) stamps) as Hin by by apply list_elem_of_filter.
  destruct (head (sort_by id _)) as [o|] eqn:Ho.
  - pose proof (head_sort_by id _ _ _ Ho Hin) as Hle. simpl in Hle. pose proof (month_of_spec o). pose proof (month_of_spec t).
    apply months_loop_complete; [lia|lia|done|]. unfold month_start.
    pose proof (floor_to_spec DAY (before - month_begin (month_of o)) day_pos) as Hfl. unfold floor_to in Hfl.
    pose proof day_pos. nia.
  - exfalso. apply (elem_of_sort_by id) in Hin. destruct (sort_by id _); [by apply not_elem_of_nil in Hin|done].
Qed.

(** What the hourly table holds for one series and hour. *)
Definition hour_rows (h : Hist) (station : Z) (key : string) (t : Z) : list HourRow :=
  filter (λ r, hw_station r = station ∧ hw_key r = key ∧ hw_ts r = t) (h_hourly h).

Lemma hour_rows_exact raw_days hourly_days c D h station key t w :
  hist_inv raw_days hourly_days c D h → h_until h = Some w → (HOUR | t) → t < w → ¬ hour_expired hourly_days c t →
  let samples := hour_samples h station key t in
  (samples = [] → hour_rows h station key t = []) ∧
  (samples ≠ [] → ∃ r, hour_rows h station key t = [r] ∧ hw_count r = Z.of_nat (length samples) ∧
     summary_of samples (hw_min r) (hw_avg r) (hw_max r)).
Proof.
  intros Hi Hu Ht Hlt Hlive. cbv zeta. set (g := (station, key, t) : SeriesKey).
  rewrite (hour_samples_key h station key t Ht).
  assert (hour_rows h station key t = filter (λ r, hour_pk r = g) (h_hourly h)) as ->.
  { apply list_filter_iff. intros r. unfold hour_pk, g. naive_solver. }
  destruct (hour_rows_of _ _ _ _ _ Hi g) as [Hnil|[Hone Hin]].
  - split; [done|]. intros (s & Hs & Hk)%filter_not_nil. exfalso.
    destruct (hi_until _ _ _ _ _ Hi _ Hu) as [Ha _]. pose proof (floor_to_spec HOUR (sm_ts s) hour_pos) as Hf.
    assert (hour_floor (sm_ts s) = t) as Hfl by (unfold hour_key, g in Hk; congruence). unfold hour_floor in Hfl.
    assert (t + HOUR ≤ w) as Hle.
    { clear -Ht Ha Hlt. destruct Ht as [x ->], Ha as [y ->]. pose proof hour_pos.
      assert (x < y) by (apply (Z.mul_lt_mono_pos_r HOUR); lia). nia. }
    destruct (hi_compacted _ _ _ _ _ Hi s w Hs Hu ltac:(lia)) as [Hc|Hexp].
    + apply list_elem_of_fmap in Hc as (r & Heq & Hr).
      assert (r ∈ filter (λ r, hour_pk r = g) (h_hourly h)) as Hr' by (apply list_elem_of_filter; split; [by rewrite <-Heq|done]).
      rewrite Hnil in Hr'. by apply not_elem_of_nil in Hr'.
    + apply Hlive. unfold hour_expired. rewrite <-Hfl. by rewrite month_of_hour.
  - rewrite Hone. assert (filter (λ s, hour_key s = g) (h_log h) ≠ []) as Hne.
    { apply list_elem_of_fmap in Hin as (s & Hg & Hs). apply filter_not_nil. by exists s. }
    split; [done|]. intros _. exists (hour_row (h_log h) g). split; [done|]. simpl. split; [done|].
    by apply summary_intro.
Qed.

(** C8. Nothing recorded is lost before its time.  Whatever heartbeats commit (each
    within the grace period of its time stamp), also between the transactions of a
    maintenance run, and whatever fails or is killed in the runs: every sample of
    the raw window is in the raw table; a sample that is not was compacted first;
    and every hour before the watermark that has not passed the hourly retention has
    exactly one row per series that recorded in it, which is minimum, mean, maximum
    and number of exactly the samples ever recorded in that hour (and no row
    otherwise). *)
Theorem history_lossless partitioned raw_days hourly_days c0 rp hp c h :
  rtc (hist_step partitioned raw_days hourly_days) (c0, hist_start rp hp) (c, h) →
  (∀ s, s ∈ h_log h → c - retention raw_days ≤ sm_ts s → s ∈ h_raw h) ∧
  (∀ s, s ∈ h_log h → s ∉ h_raw h → ∃ w, h_until h = Some w ∧ sm_ts s < w) ∧
  (∀ station key t w, h_until h = Some w → (HOUR | t) → t < w → ¬ hour_expired hourly_days c t →
    let samples := hour_samples h station key t in
    (samples = [] → hour_rows h station key t = []) ∧
    (samples ≠ [] → ∃ r, hour_rows h station key t = [r] ∧ hw_count r = Z.of_nat (length samples) ∧
       summary_of samples (hw_min r) (hw_avg r) (hw_max r))).
Proof.
  intros [D Hi]%history_reachable_inv. split_and!.
  - intros s Hs Hts. rewrite (hi_raw _ _ _ _ _ Hi). apply list_elem_of_filter. split; [|done].
    by apply (window_kept _ _ _ _ _ Hi).
  - intros s Hs Hno. destruct (decide (month_of (sm_ts s) ∈ D)) as [Hd|Hd].
    + destruct (hi_dropped _ _ _ _ _ Hi _ Hd) as (_ & w & Hw & Hle). exists w. split; [done|].
      pose proof (month_of_spec (sm_ts s)). lia.
    + destruct Hno. rewrite (hi_raw _ _ _ _ _ Hi). by apply list_elem_of_filter.
  - intros station key t w Hu Ht Hlt Hlive. by eapply hour_rows_exact.
Qed.

(** C26. What the charts show is what was recorded.  A request answered from the raw
    table gets the answer an unpruned table would give; and the point of a day in the
    daily series, computed from the hourly rows, is the minimum, the mean and the
    maximum of exactly the samples ever recorded that day (no point if there are
    none), for every day of the range that is compacted and has not passed the
    hourly retention. *)
Theorem charts_exact partitioned raw_days hourly_days c0 rp hp c h :
  rtc (hist_step partitioned raw_days hourly_days) (c0, hist_start rp hp) (c, h) →
  (∀ requested station key since until r,
    choose_resolution raw_days requested since until c = Ok (r, From_raw) →
    fetch_series h station key since until r From_raw = fetch_series (unpruned h) station key since until r From_raw) ∧
  (∀ station key since until w d,
    h_until h = Some w → (DAY | d) → floor_since R_1d since ≤ d → d + DAY - HOUR ≤ until → d + DAY ≤ w →
    ¬ hour_expired hourly_days c d →
    ∃ pts, fetch_series h station key since until R_1d From_hourly = Ok pts ∧
      let point := filter (λ p, pt_epoch p = epoch d) pts in
      let samples := day_samples h station key d in
      (samples = [] → point = []) ∧
      (samples ≠ [] → ∃ mn av mx, point = [mkPoint (epoch d) mn av mx] ∧ summary_of samples mn av mx)).
Proof.
  intros [D Hi]%history_reachable_inv. split.
  - intros requested station key since until r Hr.
    assert (c - retention raw_days ≤ since) as Hs.
    { unfold choose_resolution in Hr. repeat case_match; simplify_eq; by case_bool_decide; simplify_eq; lia. }
    assert (∀ t, since ≤ t ∨ floor_since R_5m since ≤ t → month_of t ∉ D) as Hk.
    { intros t Ht Hd. destruct (hi_dropped _ _ _ _ _ Hi _ Hd) as [Hle _]. pose proof (month_of_spec t).
      pose proof (floor_since_le since _ (month_begin_aligned (month_of t + 1))). lia. }
    destruct r; simpl; try done; rewrite (raw_series_unpruned raw_days hourly_days c D h) by naive_solver; done.
  - intros station key since until w d Hu Hd Hlo Hhi Hw Hlive. eexists. split; [done|].
    cbv zeta. rewrite filter_day_points; [|apply NoDup_remove_dups|done|].
    + match goal with |- (_ → ?l = []) ∧ _ => assert (l = day_summary d (day_samples h station key d)) as -> end.
      2:{ unfold day_summary. case_decide as Hl.
          - apply nil_length_inv in Hl. rewrite Hl. done.
          - split; [intros Hn; by rewrite Hn in Hl|]. intros Hne. eexists _, _, _. split; [done|]. by apply summary_intro. }
      rewrite <-(day_points_exact raw_days hourly_days c D h Hi station key (floor_since R_1d since) until w d) by done.
      case_decide as Hin; [done|]. rewrite elem_of_remove_dups in Hin. by rewrite day_points_absent.
    + apply list.Forall_forall. intros d' Hd'. apply elem_of_remove_dups, list_elem_of_fmap in Hd' as (r & -> & _).
      apply floor_to_aligned.
Qed.

(** ** Bounds *)

(** Distinct aligned stamps of an interval. *)
Lemma aligned_count step lo hi (l : list Z) :
  0 < step → NoDup l → Forall (λ b, (step | b) ∧ lo ≤ b ≤ hi) l → Z.of_nat (length l) ≤ Z.max 0 ((hi - lo) / step + 1).
Proof.
  intros Hs Hnd Hall. set (f := λ b, b / step).
  assert (NoDup (f <$> l)) as Hnd'.
  { apply (NoDup_fmap_2_strong f); [|done]. intros x y Hx Hy Hxy. rewrite list.Forall_forall in Hall.
    destruct (Hall _ Hx) as [[a ->] _], (Hall _ Hy) as [[b ->] _]. unfold f in Hxy.
    rewrite !Z.div_mul in Hxy by lia. congruence. }
  set (first := (lo + step - 1) / step). set (n := hi / step - first + 1).
  assert (f <$> l ⊆ seqZ first (Z.max 0 n)) as Hsub.
  { intros k Hk. apply list_elem_of_fmap in Hk as (b & -> & Hb). rewrite list.Forall_forall in Hall.
    destruct (Hall _ Hb) as [[a ->] Hr]. unfold f. rewrite Z.div_mul by lia. apply elem_of_seqZ.
    assert (first ≤ a) by (apply Z.lt_succ_r, Z.div_lt_upper_bound; lia).
    assert (a ≤ hi / step) by (apply Z.div_le_lower_bound; lia). lia. }
  apply (NoDup_submseteq _ _ Hnd'), submseteq_length in Hsub. rewrite length_fmap, length_seqZ in Hsub.
  assert (n ≤ (hi - lo) / step + 1); [|lia]. unfold n, first.
  enough (hi / step - (lo + step - 1) / step ≤ (hi - lo) / step) by lia.
  apply Z.div_le_lower_bound; [lia|].
  pose proof (Z.div_mod hi step). pose proof (Z.mod_pos_bound hi step).
  pose proof (Z.div_mod (lo + step - 1) step). pose proof (Z.mod_pos_bound (lo + step - 1) step). nia.
Qed.

Lemma floor_since_floor r since : 0 ≤ since → floor_since r since = floor_to (resolution_step r) since.
Proof.
  intros Hs. unfold floor_since, floor_to, epoch. f_equal. rewrite Z.quot_div_nonneg by lia.
  unfold resolution_step. rewrite <-!Z.div_div by (destruct r; lia). f_equal.
  rewrite Z.mul_comm, Z.div_mul by lia. done.
Qed.

(** The buckets a bucketed query may answer with. *)
Lemma buckets_bounded r since until (l : list Z) :
  0 ≤ since ≤ until → NoDup l →
  Forall (λ b, (resolution_step r | b) ∧ floor_since r since ≤ b ≤ until) l →
  Z.of_nat (length l) ≤ expected_points r since until + 2.
Proof.
  intros Hs Hnd Hall. assert (0 < resolution_step r) as Hpos by (by destruct r).
  pose proof (aligned_count _ _ _ _ Hpos Hnd Hall) as Hc. rewrite floor_since_floor in Hc by lia.
  pose proof (floor_to_spec (resolution_step r) since Hpos) as Hf. unfold expected_points.
  assert ((until - floor_to (resolution_step r) since) / resolution_step r ≤ (until - since) / resolution_step r + 1) as H1.
  { rewrite <-(Z.div_add (until - since) 1) by lia. apply Z.div_le_mono; lia. }
  assert (0 ≤ (until - since) / resolution_step r) by (apply Z.div_pos; lia). lia.
Qed.

Lemma bind_length_le {A B} (f : A → list B) (l : list A) :
  (∀ x, (length (f x) ≤ 1)%nat) → (length (l ≫= f) ≤ length l)%nat.
Proof.
  intros Hf. induction l as [|x l IH]; [done|]. rewrite bind_cons, length_app. specialize (Hf x). simpl. lia.
Qed.

Lemma series_length raw_days hourly_days c D h station key since until r s pts :
  hist_inv raw_days hourly_days c D h → 0 ≤ since ≤ until → r ≠ R_raw →
  fetch_series h station key since until r s = Ok pts →
  Z.of_nat (length pts) ≤ expected_points r since until + 2.
Proof.
  intros Hi Hs Hr Hf. destruct s, r; try done; simpl in Hf; injection Hf as <-.
  - rewrite length_fmap. apply buckets_bounded; [done|apply NoDup_remove_dups|]. apply list.Forall_forall.
    intros b Hb. apply elem_of_remove_dups, list_elem_of_fmap in Hb as (x & -> & Hx).
    apply elem_of_sort_by, list_elem_of_filter in Hx as [(_ & _ & Hlo & Hhi) _]. split; [apply floor_to_aligned|].
    pose proof (floor_to_spec (resolution_step R_5m) (sm_ts x) ltac:(done)). split; [|lia].
    apply floor_to_le; [done|apply floor_to_aligned|done].
  - rewrite length_fmap. set (rows := series_hours _ _ _ _ _).
    assert (∀ x, x ∈ rows → (x ∈ h_hourly h ∧ hw_station x = station ∧ hw_key x = key) ∧
      floor_since R_1h since ≤ hw_ts x ≤ until) as Hrows.
    { intros x Hx. apply elem_of_sort_by, list_elem_of_filter in Hx. naive_solver. }
    rewrite <-(length_fmap hw_ts). apply buckets_bounded; [done| |].
    + apply NoDup_fmap_2_strong.
      * intros x y (Hx & _)%Hrows (Hy & _)%Hrows Heq. destruct Hx as (Hx & Hx1 & Hx2), Hy as (Hy & Hy1 & Hy2).
        apply (NoDup_fmap_elem_inj hour_pk (h_hourly h)); [apply (hi_hourly_unique _ _ _ _ _ Hi)|done|done|].
        unfold hour_pk. congruence.
      * unfold rows, series_hours. rewrite sort_by_Permutation. apply NoDup_filter.
        apply (NoDup_fmap_1 hour_pk), (hi_hourly_unique _ _ _ _ _ Hi).
    + apply list.Forall_forall. intros b (x & -> & Hx)%list_elem_of_fmap. apply Hrows in Hx as [(Hx & _) Hb]. split; [|done].
      destruct (hi_rows _ _ _ _ _ Hi _ Hx) as (_ & Hk & _). apply list_elem_of_fmap in Hk as (s & Hk & _).
      apply (f_equal snd) in Hk. simpl in Hk. rewrite Hk. apply (floor_to_aligned HOUR).
  - etrans; [|apply (buckets_bounded R_1d since until
      (remove_dups ((λ r, floor_to DAY (hw_ts r)) <$> series_hours h station key (floor_since R_1d since) until)))];
      [|done|apply NoDup_remove_dups|].
    + apply inj_le, bind_length_le. intros d. unfold day_points. case_bool_decide; simpl; lia.
    + apply list.Forall_forall. intros b Hb. apply elem_of_remove_dups, list_elem_of_fmap in Hb as (x & -> & Hx).
      apply elem_of_sort_by, list_elem_of_filter in Hx as [(_ & _ & Hlo & Hhi) _]. split; [apply (floor_to_aligned DAY)|].
      pose proof (floor_to_spec DAY (hw_ts x) day_pos). split; [|lia].
      apply floor_to_le; [done|apply (floor_to_aligned DAY)|done].
Qed.

Lemma auto_fits since until :
  expected_points (auto_resolution since until) since until ≤ MAX_POINTS ∨ auto_resolution since until = R_1d.
Proof.
  unfold auto_resolution. destruct (head (filter _ RESOLUTIONS)) as [r|] eqn:Hh; [|by right].
  left. by apply head_filter_Some in Hh as [Hh _].
Qed.

(** The automatic resolution bounds the answer: a bucketed series of an automatic
    request has at most [MAX_POINTS] points and the two partial buckets at its ends,
    unless it is already daily; and an answer from the raw table starts inside the
    raw window. *)
Lemma points_bounded partitioned raw_days hourly_days c0 rp hp c h station key since until r s pts :
  rtc (hist_step partitioned raw_days hourly_days) (c0, hist_start rp hp) (c, h) →
  0 ≤ since ≤ until →
  choose_resolution raw_days "auto" since until c = Ok (r, s) →
  fetch_series h station key since until r s = Ok pts →
  (r ≠ R_raw → Z.of_nat (length pts) ≤ expected_points r since until + 2) ∧
  (r ≠ R_raw → r ≠ R_1d → Z.of_nat (length pts) ≤ MAX_POINTS + 2) ∧
  (s = From_raw → c - retention raw_days ≤ since).
Proof.
  intros [D Hi]%history_reachable_inv Hs Hc Hf. split_and!.
  - intros Hr. by eapply series_length.
  - intros Hr Hd. pose proof (series_length _ _ _ _ _ _ _ _ _ _ _ _ Hi Hs Hr Hf) as Hl.
    assert (expected_points r since until ≤ MAX_POINTS); [|lia].
    unfold choose_resolution in Hc. cbn in Hc. injection Hc as Hc.
    assert (expected_points R_1h since until ≤ expected_points R_5m since until ≤ expected_points R_raw since until) as Hm.
    { unfold expected_points, resolution_step. Z.to_euclidean_division_equations. lia. }
    destruct (auto_fits since until) as [Ha|Ha]; destruct (auto_resolution since until); try done;
      repeat case_bool_decide; simplify_eq; lia.
  - intros ->. unfold choose_resolution in Hc. cbn in Hc. injection Hc as Hc.
    destruct (auto_resolution since until); try done; case_bool_decide; simplify_eq; lia.
Qed.

(** ** A history: two samples of one morning, read back 40 days later *)

Module Morning.
Definition jan1 : Z := month_begin (12 * 2026).
Definition minute : Z := 60 * 1000000.
Definition value (n : Z) : HistValue := mkHistValue (P_num (of_Z n)) (P_num (of_Z n)) (P_num (of_Z n)).
Definition beat (m n : Z) : Beat := mkBeat 7 (jan1 + m * minute) [("cpu.load"%string, value n)] true.
Definition fine : Gap := mkGap [] true.
Definition run : MaintRun := mkMaintRun (λ _, fine) fine fine.
Definition later : Z := jan1 + 40 * DAY.
Definition h0 : Hist := hist_start [12 * 2026] [12 * 2026].
Definition h1 : Hist := (record_samples true (beat 10 2) h0).1.
Definition h2 : Hist := (record_samples true (beat 70 4) h1).1.
Definition h3 : Hist := run_maintenance true 1 730 later run h2.

Lemma reached : rtc (hist_step true 1 730) (jan1 + 10 * minute, h0) (later, h3).
Proof.
  eapply rtc_l; [apply (hs_beat _ _ _ _ (beat 10 2)); by vm_compute|].
  eapply rtc_l; [apply (hs_time _ _ _ _ (jan1 + 70 * minute)); by vm_compute|].
  eapply rtc_l; [apply (hs_beat _ _ _ _ (beat 70 4)); by vm_compute|].
  eapply rtc_l; [apply (hs_time _ _ _ _ later); by vm_compute|].
  apply rtc_once. apply (hs_run _ _ _ later later run); [done|]. by repeat split.
Qed.
End Morning.

(** The raw partition of January is gone; its samples were compacted. *)
Lemma history_lossless_witness :
  h_raw Morning.h3 = [] ∧ length (h_hourly Morning.h3) = 2%nat ∧
  ∃ s w, s ∈ h_log Morning.h3 ∧ h_until Morning.h3 = Some w ∧ sm_ts s < w.
Proof.
  destruct (history_lossless true 1 730 _ _ _ _ _ Morning.reached) as (_ & Hgone & _).
  assert (h_raw Morning.h3 = []) as Hraw by (vm_compute; reflexivity). split; [exact Hraw|].
  split; [vm_compute; reflexivity|].
  assert (∃ s, s ∈ h_log Morning.h3) as [s Hs].
  { assert (length (h_log Morning.h3) = 2%nat) as Hl by (vm_compute; reflexivity). revert Hl.
    generalize (h_log Morning.h3). intros [|s l] Hl; [discriminate|]. exists s. apply elem_of_cons. by left. }
  destruct (Hgone s Hs) as (w & Hw & Hlt); [rewrite Hraw; apply not_elem_of_nil|].
  exists s, w. split; [exact Hs|]. split; [exact Hw|exact Hlt].
Defined.

(** The day has one point, which summarises the samples 2 and 4. *)
Lemma charts_exact_witness :
  ∃ pts mn av mx, fetch_series Morning.h3 7 "cpu.load" Morning.jan1 (Morning.jan1 + DAY) R_1d From_hourly = Ok pts ∧
    filter (λ p, pt_epoch p = epoch Morning.jan1) pts = [mkPoint (epoch Morning.jan1) mn av mx] ∧
    (av * of_Z 2 = of_Z 2 + (of_Z 4 + of_Z 0))%Qc.
Proof.
  destruct (charts_exact true 1 730 _ _ _ _ _ Morning.reached) as [_ Hday].
  destruct (Hday 7 "cpu.load"%string Morning.jan1 (Morning.jan1 + DAY) (Morning.later - HOUR) Morning.jan1)
    as (pts & Hf & _ & Hp).
  1: vm_compute; reflexivity.
  1: apply month_begin_aligned.
  1-3: vm_compute; discriminate.
  1: apply Z.lt_nge; vm_compute; reflexivity.
  destruct Hp as (mn & av & mx & Hpt & _ & _ & _ & _ & Hav); [vm_compute; discriminate|].
  exists pts, mn, av, mx. split; [exact Hf|]. split; [exact Hpt|].
  etrans; [|etrans; [exact Hav|]]; [f_equal; apply Qc_is_canon; vm_compute; reflexivity|].
  apply Qc_is_canon. vm_compute. reflexivity.
Defined.

Lemma points_bounded_witness :
  ∃ pts, fetch_series Morning.h3 7 "cpu.load" Morning.jan1 Morning.later R_1h From_hourly = Ok pts ∧
    Z.of_nat (length pts) ≤ 1002.
Proof.
  eexists. split; [reflexivity|].
  apply (points_bounded true 1 730 _ _ _ _ _ 7 "cpu.load" Morning.jan1 Morning.later R_1h From_hourly _ Morning.reached).
  - vm_compute. split; discriminate.
  - vm_compute. reflexivity.
  - reflexivity.
  - discriminate.
  - discriminate.
Defined.
