(* ===== verification/Jobs.v ===== *)
(** * Background jobs: image import and provisioning

    [apps/provisioning/] and the import worker
    ([management/commands/run_background_jobs.py], [apps/images/storage.py]).  Jobs
    are rows that workers claim with a conditional update; an import job fetches,
    verifies and stores a release, a provisioning job builds a disk image with a
    fresh device key for one station, which an operator downloads within the hour.

    The object store is a map from keys to bytes; the columns of an image release
    that [Images] does not have (the keys of the disk image and of its bundle) are
    the map [w_pointers].  Everything outside the process may fail: the environment
    records ([PEnv], [IEnv]) say what the forge, the signature check, bz2, the guest
    file-system tools, the store and the database do.  The steps of one job touch
    only its own row and objects (and the station's key, or the release's row), so a
    run is one step; the claim, the downloads and the clean-up interleave. *)

From Stdlib Require Import ZArith Lia Ascii.
From stdpp Require Import base gmap list sorting relations strings pretty.
From S2P Require Import Prelude Images.
Local Open Scope Z_scope.

Notation Bytes := string.

(** ** Rows and objects *)

Inductive PStatus := P_PENDING | P_RUNNING | P_READY | P_DOWNLOADED | P_EXPIRED | P_FAILED.
#[export] Instance PStatus_eq_dec : EqDecision PStatus.
Proof. solve_decision. Defined.

Record ProvisioningJob := mkPJob {
  pj_pk : string;              (* a UUID *)
  pj_station : Z;
  pj_release : Z;
  pj_status : PStatus;
  pj_error : string;
  pj_key : string;             (* output_s3_key *)
  pj_size : option Z;
  pj_created : Z;
  pj_ready : option Z;
  pj_downloaded : option Z;
  pj_expires : option Z
}.

Record DeviceKey := mkDeviceKey { dk_current : string; dk_next : option string; dk_is_active : bool }.

Record JobWorld := mkJobWorld {
  w_jobs : list ProvisioningJob;
  w_store : gmap string Bytes;
  w_keys : gmap Z DeviceKey;              (* by station *)
  w_current : gmap Z Z;                   (* current_image_release of a station *)
  w_images : list ImageRelease;
  w_pointers : gmap Z (string * string)   (* s3_key, cosign_bundle_s3_key *)
}.

Definition set_jobs j w := mkJobWorld j (w_store w) (w_keys w) (w_current w) (w_images w) (w_pointers w).
Definition set_store s w := mkJobWorld (w_jobs w) s (w_keys w) (w_current w) (w_images w) (w_pointers w).
Definition set_keys k w := mkJobWorld (w_jobs w) (w_store w) k (w_current w) (w_images w) (w_pointers w).
Definition set_current c w := mkJobWorld (w_jobs w) (w_store w) (w_keys w) c (w_images w) (w_pointers w).
Definition set_images i p w := mkJobWorld (w_jobs w) (w_store w) (w_keys w) (w_current w) i p.

(** ** Object storage ([storage.py]) *)

Definition release_image_key (tag machine channel : string) : string :=
  "images/" +:+ tag +:+ "/" +:+ channel +:+ "/" +:+ machine +:+ ".wic.bz2".
Definition release_bundle_key (tag machine channel : string) : string := release_image_key tag machine channel +:+ ".bundle".
Definition release_rootfs_key (tag machine channel : string) : string :=
  "images/" +:+ tag +:+ "/" +:+ channel +:+ "/" +:+ machine +:+ ".rootfs.bz2".

(** [upload_bytes] deletes an existing object before it saves the new one. *)
Inductive Upload := Up_ok | Up_fails_first | Up_fails_deleted.

Definition upload_bytes (key : string) (data : Bytes) (u : Upload) (s : gmap string Bytes) : gmap string Bytes * bool :=
  match u with
  | Up_ok => (<[key := data]> s, true)
  | Up_fails_first => (s, false)
  | Up_fails_deleted => (delete key s, false)
  end.

(** ** Claiming a job *)

(** The rows a worker sees: [(pk, created_at, pending)]. *)
Definition oldest_pending (rows : list (Z * Z * bool)) : option Z :=
  (λ r, r.1.1) <$> head (sort_by (λ r, r.1.2) (filter (λ r, r.2 = true) rows)).

(** The gating UPDATE: the rows and how many it changed. *)
Definition claim_update (pk : Z) (rows : list (Z * Z * bool)) : list (Z * Z * bool) * bool :=
  (update_where (λ r, r.1.1 = pk ∧ r.2 = true) (λ r, (r.1, false)) rows,
   bool_decide (Exists (λ r, r.1.1 = pk ∧ r.2 = true) rows)).

(** ** Provisioning *)

Record PEnv := mkPEnv {
  pe_server_url : string;
  pe_keypair : string * string;                     (* private PEM, public key *)
  pe_open : bool;                                   (* the base image can be read *)
  pe_upload : Upload;
  pe_key_ok : bool;                                 (* DeviceKey.update_or_create *)
  pe_save_ok : bool;                                (* the save of the READY row *)
  pe_delete_ok : bool;                              (* the clean-up of the bundle *)
  pe_error : string
}.

Definition PROVISIONING_EXPIRY : Z := 3600.

Section worker.

(** [bz2] and the guest file-system tool; [None]: an exception. *)
Context (decompress : Bytes → option Bytes) (compress : Bytes → Bytes).
Context (inject : Bytes → string → Z → string → option Bytes).   (* image, server URL, station, private key *)

Definition job_release (pk : Z) (w : JobWorld) : option ImageRelease :=
  head (filter (λ r, rel_pk r = pk) (w_images w)).

Definition provisioning_output_key (j : ProvisioningJob) (r : ImageRelease) : string :=
  "provisioning/" +:+ pj_pk j +:+ "/oe5xrx-station-" +:+ pretty (pj_station j) +:+ "-" +:+ machine r +:+ "-" +:+
  tag r +:+ ".wic.bz2".

(** The image with the configuration and the private key, compressed again. *)
Definition build_bundle (e : PEnv) (j : ProvisioningJob) (w : JobWorld) : option (string * Bytes) :=
  if bool_decide (pe_server_url e = "") then None
  else
    r ← job_release (pj_release j) w;
    p ← w_pointers w !! pj_release j;
    src ← (if pe_open e then w_store w !! p.1 else None);
    wic ← decompress src;
    wic' ← inject wic (pe_server_url e) (pj_station j) (pe_keypair e).1;
    mret (provisioning_output_key j r, compress wic').

Definition put_job (j : ProvisioningJob) (w : JobWorld) : JobWorld :=
  set_jobs (update_where (λ x, pj_pk x = pj_pk j) (λ _, j) (w_jobs w)) w.

Definition failed_job (e : PEnv) (j : ProvisioningJob) : ProvisioningJob :=
  mkPJob (pj_pk j) (pj_station j) (pj_release j) P_FAILED (pe_error e) (pj_key j) (pj_size j) (pj_created j)
    (pj_ready j) (pj_downloaded j) (pj_expires j).

Definition ready_job (now : Z) (out_key : string) (out : Bytes) (j : ProvisioningJob) : ProvisioningJob :=
  mkPJob (pj_pk j) (pj_station j) (pj_release j) P_READY (pj_error j) out_key (Some (Z.of_nat (String.length out)))
    (pj_created j) (Some now) (pj_downloaded j) (Some (now + PROVISIONING_EXPIRY)).

(** [DeviceKey.objects.update_or_create] *)
Definition rotate_key (station : Z) (public : string) (w : JobWorld) : JobWorld :=
  set_keys (<[station := mkDeviceKey public None true]> (w_keys w)) w.

(** [_run_provisioning_job]; when the key was written and the row was not, the
    bundle goes and the key stays. *)
Definition run_provisioning_job (now : Z) (e : PEnv) (j : ProvisioningJob) (w : JobWorld) : JobWorld :=
  match build_bundle e j w with
  | None => put_job (failed_job e j) w
  | Some (out_key, out) =>
    let '(s, ok) := upload_bytes out_key out (pe_upload e) (w_store w) in
    let w1 := set_store s w in
    if negb ok then put_job (failed_job e j) w1
    else
      let drop w := if pe_delete_ok e then set_store (delete out_key (w_store w)) w else w in
      if negb (pe_key_ok e) then put_job (failed_job e j) (drop w1)
      else
        let w2 := rotate_key (pj_station j) (pe_keypair e).2 w1 in
        if pe_save_ok e then put_job (ready_job now out_key out j) w2
        else put_job (failed_job e j) (drop w2)
  end.

(** ** Downloads and clean-up *)

Inductive DownloadAnswer := D_conflict | D_gone | D_stream (key : string).

(** [ProvisioningJobDownloadView.get] *)
Definition download_start (now : Z) (j : ProvisioningJob) : DownloadAnswer :=
  if bool_decide (pj_status j ≠ P_READY) then D_conflict
  else match pj_expires j with
       | Some t => if bool_decide (t < now) then D_gone else D_stream (pj_key j)
       | None => D_stream (pj_key j)
       end.

Definition downloaded_job (now : Z) (j : ProvisioningJob) : ProvisioningJob :=
  mkPJob (pj_pk j) (pj_station j) (pj_release j) P_DOWNLOADED (pj_error j) (pj_key j) (pj_size j) (pj_created j)
    (pj_ready j) (Some now) (pj_expires j).

(** The end of the stream: a conditional update, and the station's pointer only
    when it hit. *)
Definition download_finish (now : Z) (pk : string) (w : JobWorld) : JobWorld :=
  let hit j := pj_pk j = pk ∧ pj_status j = P_READY in
  let w1 := set_jobs (update_where hit (downloaded_job now) (w_jobs w)) w in
  match head (filter hit (w_jobs w)) with
  | Some j => set_current (<[pj_station j := pj_release j]> (w_current w1)) w1
  | None => w1
  end.

Definition without_key (j : ProvisioningJob) : ProvisioningJob :=
  mkPJob (pj_pk j) (pj_station j) (pj_release j) (pj_status j) (pj_error j) "" (pj_size j) (pj_created j)
    (pj_ready j) (pj_downloaded j) (pj_expires j).

Definition expired_job (j : ProvisioningJob) : ProvisioningJob :=
  mkPJob (pj_pk j) (pj_station j) (pj_release j) P_EXPIRED (pj_error j) "" (pj_size j) (pj_created j)
    (pj_ready j) (pj_downloaded j) (pj_expires j).

Definition store_delete (key : string) (w : JobWorld) : JobWorld := set_store (delete key (w_store w)) w.

(** One downloaded row: [delete] may fail, and so may the update behind it. *)
Definition clean_downloaded (del_ok db_ok : bool) (w : JobWorld) (j : ProvisioningJob) : JobWorld :=
  if del_ok then
    let w1 := store_delete (pj_key j) w in
    if db_ok then set_jobs (update_where (λ x, pj_pk x = pj_pk j) without_key (w_jobs w1)) w1 else w1
  else w.

(** One stale row as it was loaded; its status and key columns are written back. *)
Definition clean_stale (del_ok db_ok : bool) (w : JobWorld) (j : ProvisioningJob) : JobWorld :=
  if bool_decide (pj_key j = "") || del_ok then
    let w1 := if bool_decide (pj_key j = "") then w else store_delete (pj_key j) w in
    if db_ok then set_jobs (update_where (λ x, pj_pk x = pj_pk j) expired_job (w_jobs w1)) w1 else w1
  else w.

Definition stale (now : Z) (j : ProvisioningJob) : bool :=
  bool_decide (pj_status j = P_READY) && match pj_expires j with Some t => bool_decide (t < now) | None => false end.

(** [cleanup_expired_provisioning_outputs]; [oks] is what the store and the database
    do for a row. *)
Definition cleanup_expired_provisioning_outputs (now : Z) (oks : string → bool * bool) (w : JobWorld) : JobWorld :=
  let w1 := foldl (λ w j, clean_downloaded (oks (pj_pk j)).1 (oks (pj_pk j)).2 w j) w
    (filter (λ j, pj_status j = P_DOWNLOADED ∧ pj_key j ≠ "") (w_jobs w)) in
  foldl (λ w j, clean_stale (oks (pj_pk j)).1 (oks (pj_pk j)).2 w j) w1 (filter (λ j, stale now j = true) (w_jobs w1)).

(** ** Imports *)

Record Asset := mkAsset { as_wic : Bytes; as_bundle : Bytes; as_sha256 : string }.

Record ImportJob := mkIJob { ij_tag : string; ij_machine : string; ij_channel : string; ij_latest : bool }.

Record IEnv := mkIEnv {
  ie_asset : option Asset;                         (* fetch_release_asset *)
  ie_verified : bool;                              (* cosign.verify_blob *)
  ie_up_wic : Upload; ie_up_bundle : Upload; ie_up_rootfs : Upload;
  ie_extract : option (Z * string * Bytes);        (* size, sha and bytes of the root file system *)
  ie_db : bool;                                    (* the transaction commits *)
  ie_new_pk : Z; ie_now : Z;
  ie_delete : string → bool
}.

(** [image_storage.upload_bytes(key, ...)], then [uploaded_keys.append(key)]. *)
Definition upload_tracked (key : string) (data : Bytes) (u : Upload) (st : gmap string Bytes * list string)
    : gmap string Bytes * list string * bool :=
  let '(s, ok) := upload_bytes key data u st.1 in (s, if ok then st.2 ++ [key] else st.2, ok).

(** [ImageRelease.all_objects.filter(tag, machine, channel).first()] *)
Definition find_import (j : ImportJob) (w : JobWorld) : option ImageRelease :=
  head (filter (λ r, tag r = ij_tag j ∧ machine r = ij_machine j ∧ channel r = ij_channel j) (w_images w)).

(** The transaction: [update_or_create] through [ImageRelease.save]. *)
Definition record_release (e : IEnv) (j : ImportJob) (size : Z) (sha : string) (w : JobWorld) : option JobWorld :=
  let wic_key := release_image_key (ij_tag j) (ij_machine j) (ij_channel j) in
  let bundle_key := release_bundle_key (ij_tag j) (ij_machine j) (ij_channel j) in
  let rootfs_key := release_rootfs_key (ij_tag j) (ij_machine j) (ij_channel j) in
  let '(pk, at_) := match find_import j w with Some r => (rel_pk r, imported_at r) | None => (ie_new_pk e, ie_now e) end in
  if negb (ie_db e) then None
  else
    match image_save (mkRelease pk (ij_tag j) (ij_machine j) (ij_channel j) rootfs_key sha (Some size) (ij_latest j)
                        at_ None) (w_images w) with
    | Ok tbl => Some (set_images tbl (<[pk := (wic_key, bundle_key)]> (w_pointers w)) w)
    | Raise _ => None
    end.

(** The body of the [try]: the uploads and, when all went well, the new rows. *)
Definition import_attempt (e : IEnv) (j : ImportJob) (w : JobWorld) : JobWorld * list string * bool :=
  let wic_key := release_image_key (ij_tag j) (ij_machine j) (ij_channel j) in
  let bundle_key := release_bundle_key (ij_tag j) (ij_machine j) (ij_channel j) in
  let rootfs_key := release_rootfs_key (ij_tag j) (ij_machine j) (ij_channel j) in
  match ie_asset e with
  | None => (w, [], false)
  | Some a =>
    if negb (ie_verified e) then (w, [], false)
    else
      let '(s1, up1, ok1) := upload_tracked wic_key (as_wic a) (ie_up_wic e) (w_store w, []) in
      if negb ok1 then (set_store s1 w, up1, false)
      else
        let '(s2, up2, ok2) := upload_tracked bundle_key (as_bundle a) (ie_up_bundle e) (s1, up1) in
        if negb ok2 then (set_store s2 w, up2, false)
        else
          match ie_extract e with
          | None => (set_store s2 w, up2, false)
          | Some (size, sha, rootfs) =>
            let '(s3, up3, ok3) := upload_tracked rootfs_key rootfs (ie_up_rootfs e) (s2, up2) in
            let w3 := set_store s3 w in
            if negb ok3 then (w3, up3, false)
            else match record_release e j size sha w3 with
                 | Some w' => (w', up3, true)
                 | None => (w3, up3, false)
                 end
          end
  end.

(** The keys the release row still points to. *)
Definition in_use (j : ImportJob) (w : JobWorld) : list string :=
  match find_import j w with
  | None => []
  | Some r =>
    let '(wic, bundle) := default ("", "") (w_pointers w !! rel_pk r) in
    filter (λ k, k ≠ "") [wic; bundle; rootfs_s3_key r]
  end.

(** The clean-up of a failed attempt. *)
Definition import_deletes (e : IEnv) (used : list string) (s : gmap string Bytes) (up : list string) : gmap string Bytes :=
  foldl (λ s key, if bool_decide (key ∈ used) then s else if ie_delete e key then delete key s else s) s up.

(** [_run_import_job]: the world and whether the job is READY (else FAILED). *)
Definition run_import_job (e : IEnv) (j : ImportJob) (w : JobWorld) : JobWorld * bool :=
  let '(w1, uploaded, ok) := import_attempt e j w in
  if ok then (w1, true)
  else
    (set_store (import_deletes e (in_use j w1) (w_store w1) uploaded) w1, false).

End worker.

(** ** Claims never collide *)

Record Pool := mkPool {
  po_rows : list (Z * Z * bool);
  po_candidates : gmap Z Z;          (* what each worker has read and not yet tried *)
  po_claims : list (Z * Z)           (* (worker, job), newest first *)
}.

(** [_claim_one_pending] of any number of workers, statement by statement, and new
    jobs meanwhile.  A worker that loses the race reads again. *)
Inductive claim_step : Pool → Pool → Prop :=
| cs_read worker pk p : oldest_pending (po_rows p) = Some pk →
    claim_step p (mkPool (po_rows p) (<[worker := pk]> (po_candidates p)) (po_claims p))
| cs_gate worker pk p : po_candidates p !! worker = Some pk →
    claim_step p
      (mkPool (claim_update pk (po_rows p)).1 (delete worker (po_candidates p))
         (if (claim_update pk (po_rows p)).2 then (worker, pk) :: po_claims p else po_claims p))
| cs_new pk t p : pk ∉ (λ r, r.1.1) <$> po_rows p →
    claim_step p (mkPool (po_rows p ++ [(pk, t, true)]) (po_candidates p) (po_claims p)).

Definition pool_inv (p : Pool) : Prop :=
  NoDup ((λ r, r.1.1) <$> po_rows p) ∧ NoDup (po_claims p).*2 ∧
  ∀ pk, pk ∈ (po_claims p).*2 → pk ∈ (λ r, r.1.1) <$> po_rows p ∧ ∀ r, r ∈ po_rows p → r.1.1 = pk → r.2 = false.

Lemma pool_inv_step p p' : claim_step p p' → pool_inv p → pool_inv p'.
Proof.
  intros Hs (Hpk & Hnd & Hc). destruct Hs as [worker pk p Ho|worker pk p Hcand|pk t p Hnew]; [done| |].
  - assert ((λ r, r.1.1) <$> (claim_update pk (po_rows p)).1 = (λ r, r.1.1) <$> po_rows p) as Hpks
      by (apply fmap_update_where; done).
    assert (∀ q, (∀ r, r ∈ po_rows p → r.1.1 = q → r.2 = false) ∨ q = pk →
      ∀ r, r ∈ (claim_update pk (po_rows p)).1 → r.1.1 = q → r.2 = false) as Hdone.
    { intros q Hq r (x & Hx & [[Hp ->]|[Hp ->]])%elem_of_update_where Hr; [done|].
      destruct Hq as [Hq|Hq]; [by apply Hq|]. subst q. destruct (x.2) eqn:Hx2; [|done]. by destruct Hp. }
    unfold pool_inv; cbn [po_rows po_claims]. rewrite Hpks. split; [done|].
    destruct (claim_update pk (po_rows p)).2 eqn:Hhit.
    + simpl in Hhit. apply bool_decide_eq_true, Exists_exists in Hhit as (r & Hr & Hr1 & Hr2).
      assert (pk ∉ (po_claims p).*2) as Hfresh.
      { intros Hin. destruct (Hc _ Hin) as [_ Hf]. specialize (Hf r Hr Hr1). congruence. }
      split; [rewrite fmap_cons; by constructor|]. intros q. rewrite fmap_cons, elem_of_cons. intros [->|Hq].
      * split; [|apply Hdone; by right]. simpl. rewrite <-Hr1. by apply (list_elem_of_fmap_2 (λ r, r.1.1)).
      * destruct (Hc _ Hq) as [H1 H2]. split; [done|]. apply Hdone. by left.
    + split; [done|]. intros q Hq. destruct (Hc _ Hq) as [H1 H2]. split; [done|]. apply Hdone. by left.
  - unfold pool_inv; cbn [po_rows po_claims]. rewrite fmap_app. split_and!; [|done|].
    + apply NoDup_app. split_and!; [done| |apply NoDup_singleton]. intros x Hx ->%list_elem_of_singleton. done.
    + intros q Hq. destruct (Hc _ Hq) as [H1 H2]. split; [set_solver|].
      intros r [Hr| ->%list_elem_of_singleton]%elem_of_app; [by apply H2|]. simpl. intros ->. by destruct Hnew.
Qed.

(** Whatever workers run and however their statements interleave with each other
    and with new jobs, no job is claimed twice. *)
Lemma claimed_once p p' :
  pool_inv p → rtc claim_step p p' → NoDup (po_claims p').*2.
Proof.
  intros Hi Hr. assert (pool_inv p') as (_ & Hnd & _); [|done].
  revert Hi. induction Hr as [|p1 p2 p3 Hs _ IH]; [done|]. intros Hi. apply IH. by eapply pool_inv_step.
Qed.

(** Two workers read the same job; one runs it. *)
Lemma claimed_once_witness :
  let p := mkPool [(7, 100, true); (8, 90, true)] ∅ [] in
  let q := mkPool [(7, 100, true); (8, 90, false)] ∅ [(1, 8)] in
  rtc claim_step p q ∧ NoDup (po_claims q).*2.
Proof.
  set (p := mkPool [(7, 100, true); (8, 90, true)] ∅ []). set (q := mkPool [(7, 100, true); (8, 90, false)] ∅ [(1, 8)]).
  assert (rtc claim_step p q) as Hr.
  { eapply rtc_l; [apply (cs_read 1 8); reflexivity|]. eapply rtc_l; [apply (cs_read 2 8); reflexivity|].
    eapply rtc_l; [apply (cs_gate 1 8); reflexivity|]. eapply rtc_l; [apply (cs_gate 2 8); reflexivity|]. apply rtc_refl. }
  split; [exact Hr|]. apply (claimed_once p q); [|exact Hr].
  split_and!; [by vm_compute; repeat constructor; set_solver|constructor|]. intros pk Hpk. by apply not_elem_of_nil in Hpk.
Defined.

(** ** What an import leaves behind *)

Definition import_keys (j : ImportJob) : list string :=
  [release_image_key (ij_tag j) (ij_machine j) (ij_channel j); release_bundle_key (ij_tag j) (ij_machine j) (ij_channel j);
   release_rootfs_key (ij_tag j) (ij_machine j) (ij_channel j)].

Lemma string_length_app a b : String.length (a +:+ b) = (String.length a + String.length b)%nat.
Proof. induction a as [|x a IH]; [done|]. simpl. by f_equal. Qed.

(** The three objects of a release have different keys. *)
Lemma import_keys_distinct t m c :
  release_bundle_key t m c ≠ release_image_key t m c ∧ release_rootfs_key t m c ≠ release_image_key t m c ∧
  release_rootfs_key t m c ≠ release_bundle_key t m c.
Proof.
  unfold release_bundle_key, release_image_key, release_rootfs_key.
  split_and!; intros H%(f_equal String.length); rewrite !string_length_app in H; simpl in H; lia.
Qed.

Lemma image_save_elem r tbl tbl' : image_save r tbl = Ok tbl' → r ∈ tbl'.
Proof.
  unfold image_save. assert (∀ t, base_save r t = Ok tbl' → r ∈ tbl') as Hb; [|by destruct (is_latest r); apply Hb].
  intros t. unfold base_save. case_decide; [done|]. case_decide as Hin; intros [= <-]; [|set_solver].
  apply list_elem_of_fmap in Hin as (x & Hpk & Hx). apply elem_of_update_where. exists x. split; [done|]. left. by split.
Qed.

(** The store effect of one upload. *)
Lemma upload_tracked_spec key data u s up s' up' ok :
  upload_tracked key data u (s, up) = (s', up', ok) →
  (∀ k, k ≠ key → s' !! k = s !! k) ∧
  (if ok then s' !! key = Some data ∧ up' = up ++ [key]
   else up' = up ∧ (s' !! key = s !! key ∨ u = Up_fails_deleted ∧ s' !! key = None)).
Proof. unfold upload_tracked, upload_bytes. destruct u; intros [= <- <- <-]; simpl; split; intros; by simplify_map_eq; auto. Qed.

Definition uploads (e : IEnv) : list Upload := [ie_up_wic e; ie_up_bundle e; ie_up_rootfs e].

(** A key the attempt did not finish writing: as before, or lost by an upload that
    failed after its delete. *)
Definition lost_or_kept (e : IEnv) (s s' : gmap string Bytes) (k : string) : Prop :=
  s' !! k = s !! k ∨ Up_fails_deleted ∈ uploads e ∧ s' !! k = None.

Record attempt_spec (e : IEnv) (j : ImportJob) (w w1 : JobWorld) (up : list string) (ok : bool) : Prop := {
  at_jobs : w_jobs w1 = w_jobs w ∧ w_keys w1 = w_keys w;
  at_others k : k ∉ import_keys j → w_store w1 !! k = w_store w !! k;
  at_up k : k ∈ up → k ∈ import_keys j;
  at_keys k : k ∈ import_keys j → k ∈ up ∧ is_Some (w_store w1 !! k) ∨ k ∉ up ∧ lost_or_kept e (w_store w) (w_store w1) k;
  at_failed : ok = false → w_images w1 = w_images w ∧ w_pointers w1 = w_pointers w;
  at_done : ok = true → ie_verified e = true ∧
    ∃ a size sha rootfs r, ie_asset e = Some a ∧ ie_extract e = Some (size, sha, rootfs) ∧ r ∈ w_images w1 ∧
      (tag r = ij_tag j ∧ machine r = ij_machine j ∧ channel r = ij_channel j ∧ archived_at r = None ∧
       is_latest r = ij_latest j ∧ rootfs_sha256 r = sha ∧ rootfs_size_bytes r = Some size) ∧
      w_store w1 !! release_image_key (ij_tag j) (ij_machine j) (ij_channel j) = Some (as_wic a) ∧
      w_store w1 !! release_bundle_key (ij_tag j) (ij_machine j) (ij_channel j) = Some (as_bundle a) ∧
      w_store w1 !! rootfs_s3_key r = Some rootfs ∧
      w_pointers w1 !! rel_pk r = Some (release_image_key (ij_tag j) (ij_machine j) (ij_channel j),
                                         release_bundle_key (ij_tag j) (ij_machine j) (ij_channel j))
}.

(** The uploads so far. *)
Definition tracked (e : IEnv) (keys : list string) (s0 s : gmap string Bytes) (up : list string) : Prop :=
  (∀ k, k ∉ keys → s !! k = s0 !! k) ∧ (∀ k, k ∈ up → k ∈ keys) ∧
  (∀ k, k ∈ keys → k ∈ up ∧ is_Some (s !! k) ∨ k ∉ up ∧ lost_or_kept e s0 s k).

Lemma tracked_step e keys s0 s up key data u s' up' ok :
  tracked e keys s0 s up → key ∈ keys → key ∉ up → u ∈ uploads e →
  upload_tracked key data u (s, up) = (s', up', ok) → tracked e keys s0 s' up'.
Proof.
  intros (Ho & Hu & Hk) Hin Hno Hup [Hne Hkey]%upload_tracked_spec. split_and!.
  - intros k Hk'. rewrite Hne; [by apply Ho|]. by intros ->.
  - intros k. destruct ok; destruct Hkey as [Hs Heq]; [rewrite Heq|rewrite Hs]; [|by apply Hu].
    intros [?| ->%list_elem_of_singleton]%elem_of_app; [by apply Hu|done].
  - intros k Hk'. destruct (decide (k = key)) as [->|Hd].
    + destruct ok; destruct Hkey as [H1 H2].
      * left. rewrite H2. split; [set_solver|by eexists].
      * right. rewrite H1. split; [done|]. unfold lost_or_kept in *. destruct H2 as [->|[-> ->]]; [|by right].
        destruct (Hk key Hin) as [[? _]|[_ Hl]]; [done|exact Hl].
    + unfold lost_or_kept in *. rewrite (Hne k Hd). destruct (Hk k Hk') as [[? ?]|[? ?]]; [left|right]; (split; [|done]);
        destruct ok; destruct Hkey as [H1 H2]; try (rewrite H2); try (rewrite H1); set_solver.
Qed.

Lemma attempt_failed e j w s up : tracked e (import_keys j) (w_store w) s up → attempt_spec e j w (set_store s w) up false.
Proof. intros (Ho & Hu & Hk). split; done. Qed.

Lemma import_attempt_spec e j w w1 up ok :
  import_attempt e j w = (w1, up, ok) → attempt_spec e j w w1 up ok.
Proof.
  unfold import_attempt. destruct (import_keys_distinct (ij_tag j) (ij_machine j) (ij_channel j)) as (D1 & D2 & D3).
  set (k1 := release_image_key _ _ _) in *. set (k2 := release_bundle_key _ _ _) in *. set (k3 := release_rootfs_key _ _ _) in *.
  assert (import_keys j = [k1; k2; k3]) as Hkeys by done.
  assert (tracked e (import_keys j) (w_store w) (w_store w) []) as T0.
  { split_and!; [done|intros k Hk; by apply not_elem_of_nil in Hk|]. intros k Hk. right. split; [apply not_elem_of_nil|by left]. }
  assert (set_store (w_store w) w = w) as Hw by by destruct w.
  assert (∀ u, u = [] → attempt_spec e j w w u false) as Hnone by (intros u ->; rewrite <-Hw at 2; by apply attempt_failed).
  destruct (ie_asset e) as [a|] eqn:Ha; [|intros [= <- <- <-]; by apply Hnone].
  destruct (ie_verified e) eqn:Hv; cbn [negb]; [|intros [= <- <- <-]; by apply Hnone].
  destruct (upload_tracked k1 _ _ _) as [[s1 up1] ok1] eqn:H1.
  assert (tracked e (import_keys j) (w_store w) s1 up1) as T1 
    by (refine (tracked_step _ _ _ _ _ _ _ _ _ _ _ T0 _ _ _ H1); rewrite ?Hkeys; unfold uploads; set_solver).
  apply upload_tracked_spec in H1 as [_ H1].
  destruct ok1; cbn [negb]; [|intros [= <- <- <-]; by apply attempt_failed]. destruct H1 as [H1 ->].
  destruct (upload_tracked k2 _ _ _) as [[s2 up2] ok2] eqn:H2.
  assert (tracked e (import_keys j) (w_store w) s2 up2) as T2 
    by (refine (tracked_step _ _ _ _ _ _ _ _ _ _ _ T1 _ _ _ H2); rewrite ?Hkeys; unfold uploads; set_solver).
  apply upload_tracked_spec in H2 as [H2o H2].
  destruct ok2; cbn [negb]; [|intros [= <- <- <-]; by apply attempt_failed]. destruct H2 as [H2 ->].
  destruct (ie_extract e) as [[[size sha] rootfs]|] eqn:He; [|intros [= <- <- <-]; by apply attempt_failed].
  destruct (upload_tracked k3 _ _ _) as [[s3 up3] ok3] eqn:H3.
  assert (tracked e (import_keys j) (w_store w) s3 up3) as T3 
    by (refine (tracked_step _ _ _ _ _ _ _ _ _ _ _ T2 _ _ _ H3); rewrite ?Hkeys; unfold uploads; set_solver).
  apply upload_tracked_spec in H3 as [H3o H3].
  destruct ok3; cbn [negb]; [|intros [= <- <- <-]; by apply attempt_failed]. destruct H3 as [H3 ->].
  destruct (record_release e j size sha (set_store s3 w)) as [w'|] eqn:Hr; [|intros [= <- <- <-]; by apply attempt_failed].
  intros [= <- <- <-]. destruct T3 as (Ho & Hu & Hk).
  unfold record_release in Hr. destruct (match find_import j _ with Some _ => _ | None => _ end) as [pk at_].
  destruct (negb (ie_db e)); [done|]. destruct (image_save _ _) as [tbl|] eqn:Hs; [|done]. injection Hr as <-.
  apply image_save_elem in Hs. split; try done. intros _. split; [done|].
  eexists a, size, sha, rootfs, _. split; [done|]. split; [done|]. split; [exact Hs|]. split; [done|].
  cbn [rootfs_s3_key w_store set_images set_store].
  split_and!; [change (s3 !! k1 = Some (as_wic a)); rewrite (H3o k1), (H2o k1) by auto using not_eq_sym; done|
    change (s3 !! k2 = Some (as_bundle a)); rewrite (H3o k2) by auto using not_eq_sym; done|done|].
  simpl. by rewrite lookup_insert_eq.
Qed.

Lemma import_deletes_others e used s up k : k ∉ up → import_deletes e used s up !! k = s !! k.
Proof.
  revert s. induction up as [|x up IH]; intros s Hk; [done|]. unfold import_deletes in *; simpl. rewrite IH by set_solver.
  case_bool_decide; [done|]. destruct (ie_delete e x); [|done]. rewrite lookup_delete_ne; set_solver.
Qed.

Lemma import_deletes_used e used s up k : k ∈ used → import_deletes e used s up !! k = s !! k.
Proof.
  revert s. induction up as [|x up IH]; intros s Hk; [done|]. unfold import_deletes in *; simpl. rewrite IH by done.
  case_bool_decide; [done|]. destruct (ie_delete e x); [|done]. rewrite lookup_delete_ne; [done|]. by intros ->.
Qed.

Lemma import_deletes_up e used s up k :
  k ∉ used → (∀ k, ie_delete e k = true) → k ∈ up → import_deletes e used s up !! k = None.
Proof.
  intros Hused Hdel. revert s. induction up as [|x up IH]; intros s Hk; [by apply not_elem_of_nil in Hk|].
  destruct (decide (k ∈ up)) as [Hin|Hin]; [by apply IH|]. assert (k = x) as -> by set_solver.
  unfold import_deletes; simpl. fold (import_deletes e used). rewrite bool_decide_eq_false_2, Hdel by done.
  change (import_deletes e used (delete x s) up !! x = None). rewrite import_deletes_others by done. apply lookup_delete_eq.
Qed.

(** Whatever happens, only the three objects of the release are touched. *)
Lemma import_frame e j w w' ok :
  run_import_job e j w = (w', ok) →
  w_jobs w' = w_jobs w ∧ w_keys w' = w_keys w ∧ (∀ k, k ∉ import_keys j → w_store w' !! k = w_store w !! k).
Proof.
  unfold run_import_job. destruct (import_attempt e j w) as [[w1 up] ok1] eqn:Ha. apply import_attempt_spec in Ha.
  destruct ok1; intros [= <- <-]; cbn [w_jobs w_keys w_store set_store]; (split_and!; [apply (at_jobs _ _ _ _ _ _ Ha)..|]).
  - apply (at_others _ _ _ _ _ _ Ha).
  - intros k Hk. rewrite import_deletes_others; [by apply (at_others _ _ _ _ _ _ Ha)|].
    intros Hin. by apply Hk, (at_up _ _ _ _ _ _ Ha).
Qed.

(** What an import leaves behind.  READY: the signature was verified, the release
    has a row that is not archived and points to three objects of exactly the
    verified bytes.  FAILED: the tables are unchanged, and an object the existing
    release points to is still there (unless the store lost it while overwriting it);
    for a new release no object of this attempt stays behind when the deletes work.
    In both cases no other object, provisioning job or device key is touched. *)
Lemma import_outcome e j w w' ok :
  run_import_job e j w = (w', ok) →
  w_jobs w' = w_jobs w ∧ w_keys w' = w_keys w ∧
  (∀ k, k ∉ import_keys j → w_store w' !! k = w_store w !! k) ∧
  (ok = true → ie_verified e = true ∧ ∃ a size sha rootfs r,
    ie_asset e = Some a ∧ ie_extract e = Some (size, sha, rootfs) ∧ r ∈ w_images w' ∧
    (tag r = ij_tag j ∧ machine r = ij_machine j ∧ channel r = ij_channel j ∧ archived_at r = None ∧
     is_latest r = ij_latest j ∧ rootfs_sha256 r = sha ∧ rootfs_size_bytes r = Some size) ∧
    w_pointers w' !! rel_pk r = Some (release_image_key (ij_tag j) (ij_machine j) (ij_channel j),
                                      release_bundle_key (ij_tag j) (ij_machine j) (ij_channel j)) ∧
    w_store w' !! release_image_key (ij_tag j) (ij_machine j) (ij_channel j) = Some (as_wic a) ∧
    w_store w' !! release_bundle_key (ij_tag j) (ij_machine j) (ij_channel j) = Some (as_bundle a) ∧
    w_store w' !! rootfs_s3_key r = Some rootfs) ∧
  (ok = false → w_images w' = w_images w ∧ w_pointers w' = w_pointers w ∧
    (∀ k, k ∈ in_use j w → is_Some (w_store w !! k) → is_Some (w_store w' !! k) ∨
      k ∈ import_keys j ∧ Up_fails_deleted ∈ uploads e) ∧
    (in_use j w = [] → (∀ k, ie_delete e k = true) →
      ∀ k, k ∈ import_keys j → w_store w' !! k = None ∨ w_store w' !! k = w_store w !! k)).
Proof.
  intros Hrun. destruct (import_frame _ _ _ _ _ Hrun) as (Hj & Hk & Ho). split_and!; [done..| |]; clear Hj Hk Ho; revert Hrun;
    unfold run_import_job; destruct (import_attempt e j w) as [[w1 up] ok1] eqn:Ha; apply import_attempt_spec in Ha;
    (destruct ok1; intros [= <- <-]; [|]); cbn [w_images w_pointers w_store set_store]; try done.
  - intros _. destruct (at_done _ _ _ _ _ _ Ha eq_refl) as [Hv Hdone]. naive_solver.
  - intros _. destruct (at_failed _ _ _ _ _ _ Ha eq_refl) as [Hi Hp].
    assert (in_use j w1 = in_use j w) as -> by (unfold in_use, find_import; by rewrite Hi, Hp).
    split_and!; [done|done| |].
    + intros k Hin Hs. rewrite import_deletes_used by done.
      destruct (decide (k ∈ import_keys j)) as [Hk|Hk]; [|left; by rewrite (at_others _ _ _ _ _ _ Ha)].
      destruct (at_keys _ _ _ _ _ _ Ha k Hk) as [[_ H']|[_ [H'|[H' _]]]]; [by left|left; by rewrite H'|by right].
    + intros Hnil Hdel k Hk. destruct (at_keys _ _ _ _ _ _ Ha k Hk) as [[Hup _]|[Hup Hl]].
      * left. by apply import_deletes_up; [rewrite Hnil; apply not_elem_of_nil|..].
      * rewrite import_deletes_others by done. destruct Hl as [Hl|[_ Hl]]; auto.
Qed.

(** ** Bundles stay available *)

Lemma string_app_inj a b c d :
  String.length a = String.length c → a +:+ b = c +:+ d → a = c ∧ b = d.
Proof.
  revert c. induction a as [|x a IH]; intros [|y c] Hl Heq; try done.
  injection Hl as Hl. injection Heq as -> Heq. destruct (IH c Hl Heq) as [-> ->]. done.
Qed.

Section bundles.
Context (decompress : Bytes → option Bytes) (compress : Bytes → Bytes).
Context (inject : Bytes → string → Z → string → option Bytes).
Notation build_bundle := (build_bundle decompress compress inject).
Notation run_provisioning_job := (run_provisioning_job decompress compress inject).

(** The object was built for this job: its station, its release. *)
Definition bundle_of (j : ProvisioningJob) (out : Bytes) : Prop :=
  ∃ e w0 j0, pj_pk j0 = pj_pk j ∧ pj_station j0 = pj_station j ∧ pj_release j0 = pj_release j ∧
    build_bundle e j0 w0 = Some (pj_key j, out).

Definition own_key (j : ProvisioningJob) (key : string) : Prop := ∃ rest, key = "provisioning/" +:+ pj_pk j +:+ rest.

Record bundles_inv (now : Z) (w : JobWorld) : Prop := {
  bi_unique : NoDup (pj_pk <$> w_jobs w);
  bi_uuid j : j ∈ w_jobs w → String.length (pj_pk j) = 36%nat;
  bi_key j : j ∈ w_jobs w → pj_key j = "" ∨ own_key j (pj_key j);
  bi_ready j : j ∈ w_jobs w → pj_status j = P_READY →
    ∃ t, pj_expires j = Some t ∧ (now ≤ t → own_key j (pj_key j) ∧ ∃ out, w_store w !! pj_key j = Some out ∧ bundle_of j out)
}.

Lemma own_key_pk j j' key :
  String.length (pj_pk j) = 36%nat → String.length (pj_pk j') = 36%nat → own_key j key → own_key j' key → pj_pk j = pj_pk j'.
Proof.
  intros H1 H2 [r ->] [r' Heq].
  apply string_app_inj in Heq as [_ Heq]; [|done]. apply string_app_inj in Heq as [Heq _]; [done|congruence].
Qed.

Lemma build_bundle_key e j w key out : build_bundle e j w = Some (key, out) → own_key j key.
Proof.
  unfold Jobs.build_bundle. case_bool_decide; [done|]. intros Hb.
  apply bind_Some in Hb as (r & _ & Hb). apply bind_Some in Hb as (p & _ & Hb). apply bind_Some in Hb as (src & _ & Hb).
  apply bind_Some in Hb as (wic & _ & Hb). apply bind_Some in Hb as (wic' & _ & Hb). injection Hb as <- _.
  unfold provisioning_output_key. by eexists.
Qed.

(** The store loses or overwrites nothing a live bundle needs. *)
Lemma bundles_inv_store now w s :
  bundles_inv now w →
  (∀ j t, j ∈ w_jobs w → pj_status j = P_READY → pj_expires j = Some t → now ≤ t → s !! pj_key j = w_store w !! pj_key j) →
  bundles_inv now (set_store s w).
Proof.
  intros [] Hs. split; [done..|]. intros j Hj Hst. destruct (bi_ready0 j Hj Hst) as (t & Ht & Hr).
  exists t. split; [done|]. intros Hle. destruct (Hr Hle) as (Hk & out & Hout & Hb). split; [done|]. exists out.
  split; [|done]. simpl. by rewrite (Hs j t).
Qed.

(** A row is rewritten: what its new version must satisfy. *)
Lemma bundles_inv_update now w (P : ProvisioningJob → Prop) `{∀ x, Decision (P x)} f :
  bundles_inv now w →
  (∀ j, P j → pj_pk (f j) = pj_pk j) →
  (∀ j, j ∈ w_jobs w → P j → (pj_key (f j) = "" ∨ own_key (f j) (pj_key (f j))) ∧
    (pj_status (f j) = P_READY → ∃ t, pj_expires (f j) = Some t ∧
      (now ≤ t → own_key (f j) (pj_key (f j)) ∧ ∃ out, w_store w !! pj_key (f j) = Some out ∧ bundle_of (f j) out))) →
  bundles_inv now (set_jobs (update_where P f (w_jobs w)) w).
Proof.
  intros [] Hpk Hnew. split; simpl.
  - by rewrite (fmap_update_where pj_pk).
  - intros j (x & Hx & [[HP ->]|[_ ->]])%elem_of_update_where; [rewrite Hpk by done|]; by apply bi_uuid0.
  - intros j (x & Hx & [[HP ->]|[_ ->]])%elem_of_update_where; [by apply (Hnew x)|by apply bi_key0].
  - intros j (x & Hx & [[HP ->]|[_ ->]])%elem_of_update_where Hst; [by apply (Hnew x)|by apply bi_ready0].
Qed.

(** Deleting or overwriting an object of a row that is not a live bundle. *)
Lemma other_bundle now w j key j' t :
  bundles_inv now w → j ∈ w_jobs w → own_key j key → j' ∈ w_jobs w → pj_status j' = P_READY →
  pj_expires j' = Some t → now ≤ t → pj_pk j' ≠ pj_pk j → pj_key j' ≠ key.
Proof.
  intros Hi Hj Hk Hj' Hst Ht Hle Hne Heq. destruct (bi_ready _ _ Hi j' Hj' Hst) as (t' & Ht' & Hr). simplify_eq.
  destruct (Hr Hle) as [Hk' _]. apply Hne. apply (own_key_pk j' j (pj_key j')); [by apply (bi_uuid _ _ Hi)..|done|done].
Qed.
Definition claimed_job (j : ProvisioningJob) : ProvisioningJob :=
  mkPJob (pj_pk j) (pj_station j) (pj_release j) P_RUNNING (pj_error j) (pj_key j) (pj_size j) (pj_created j)
    (pj_ready j) (pj_downloaded j) (pj_expires j).

(** The server as seen by provisioning.  [ws_late]: the clean-up writes back a row it
    loaded as stale, whatever happened to the row since; [ws_keys]: operators
    generate and revoke device keys. *)
Inductive wstep : Z * JobWorld → Z * JobWorld → Prop :=
| ws_time now now' w : now ≤ now' → wstep (now, w) (now', w)
| ws_create now j w : pj_status j = P_PENDING → pj_key j = "" → String.length (pj_pk j) = 36%nat →
    pj_pk j ∉ pj_pk <$> w_jobs w → wstep (now, w) (now, set_jobs (w_jobs w ++ [j]) w)
| ws_claim now pk w :
    wstep (now, w) (now, set_jobs (update_where (λ j, pj_pk j = pk ∧ pj_status j = P_PENDING) claimed_job (w_jobs w)) w)
| ws_run now e j w : j ∈ w_jobs w → pj_status j = P_RUNNING → wstep (now, w) (now, run_provisioning_job now e j w)
| ws_finish now pk w : wstep (now, w) (now, download_finish now pk w)
| ws_cleanup now oks w : wstep (now, w) (now, cleanup_expired_provisioning_outputs now oks w)
| ws_late now x j del_ok db_ok w : x ∈ w_jobs w → stale now j = true → pj_pk x = pj_pk j → pj_key x = pj_key j →
    pj_expires x = pj_expires j → wstep (now, w) (now, clean_stale del_ok db_ok w j)
| ws_import now e j w : wstep (now, w) (now, (run_import_job e j w).1)
| ws_keys now k w : wstep (now, w) (now, set_keys k w).

Lemma put_failed_inv now e j w :
  bundles_inv now w → j ∈ w_jobs w → bundles_inv now (put_job (failed_job e j) w).
Proof.
  intros Hi Hj. apply bundles_inv_update; [done|by intros x ->|]. intros x Hx Hpk. split; [|done].
  exact (bi_key _ _ Hi j Hj).
Qed.

(** No row of this key is a live bundle. *)
Definition spent (now : Z) (w : JobWorld) (j : ProvisioningJob) : Prop :=
  ∀ x, x ∈ w_jobs w → pj_pk x = pj_pk j → pj_status x = P_READY → ∃ t, pj_expires x = Some t ∧ t < now.

(** Only its own object: the live bundles keep theirs. *)
Lemma own_store_inv now j key s w :
  bundles_inv now w → String.length (pj_pk j) = 36%nat → spent now w j → own_key j key →
  (∀ k, k ≠ key → s !! k = w_store w !! k) → bundles_inv now (set_store s w).
Proof.
  intros Hi Hlen Hdead Hk Hs. apply bundles_inv_store; [done|]. intros x t Hx Hst Ht Hle. apply Hs. intros Heq.
  destruct (bi_ready _ _ Hi x Hx Hst) as (t' & Ht' & Hr). simplify_eq. destruct (Hr Hle) as [Hkx _].
  assert (pj_pk x = pj_pk j) as Hpk by (apply (own_key_pk x j (pj_key x)); [by apply (bi_uuid _ _ Hi)|done..]).
  destruct (Hdead x Hx Hpk Hst) as (t'' & ? & ?). simplify_eq. lia.
Qed.

Lemma run_provisioning_inv now e j w :
  bundles_inv now w → j ∈ w_jobs w → pj_status j = P_RUNNING → bundles_inv now (run_provisioning_job now e j w).
Proof.
  intros Hi Hj Hst. unfold Jobs.run_provisioning_job.
  destruct (build_bundle e j w) as [[key out]|] eqn:Hb; [|by apply put_failed_inv].
  pose proof (build_bundle_key _ _ _ _ _ Hb) as Hk. pose proof (bi_uuid _ _ Hi j Hj) as Hlen.
  assert (spent now w j) as Hdead.
  { intros x Hx Hpk Hr. rewrite (NoDup_fmap_elem_inj pj_pk _ _ _ (bi_unique _ _ Hi) Hx Hj Hpk) in Hr. congruence. }
  destruct (upload_bytes key out (pe_upload e) (w_store w)) as [s ok] eqn:Hu.
  assert (∀ k, k ≠ key → s !! k = w_store w !! k) as Hs.
  { intros k Hne. unfold upload_bytes in Hu. destruct (pe_upload e); injection Hu as <- _; by simplify_map_eq. }
  pose proof (own_store_inv _ _ _ _ _ Hi Hlen Hdead Hk Hs) as Hi1.
  assert (∀ w', bundles_inv now w' → w_jobs w' = w_jobs w →
    bundles_inv now (put_job (failed_job e j) (if pe_delete_ok e then set_store (delete key (w_store w')) w' else w'))) as Hdrop.
  { intros w' Hi' Hj'. rewrite <-Hj' in Hj. destruct (pe_delete_ok e); [|by apply put_failed_inv].
    apply put_failed_inv; [|done]. apply (own_store_inv _ j key); [done|done|by unfold spent; rewrite Hj'|done|].
    intros k Hne. by simplify_map_eq. }
  destruct ok; cbn [negb]; [|by apply put_failed_inv].
  destruct (pe_key_ok e); cbn [negb]; [|by apply Hdrop].
  assert (bundles_inv now (rotate_key (pj_station j) (pe_keypair e).2 (set_store s w))) as Hi2 by (destruct Hi1; by split).
  destruct (pe_save_ok e); [|by apply Hdrop].
  apply bundles_inv_update; [done|by intros x ->|]. intros x Hx Hpk. split; [by right|]. intros _.
  exists (now + PROVISIONING_EXPIRY). split; [done|]. intros _. split; [done|]. exists out. split.
  - simpl. unfold upload_bytes in Hu. destruct (pe_upload e); simplify_eq. by simplify_map_eq.
  - by exists e, w, j.
Qed.

(** What a row of the clean-up may do: delete its object, blank its key, expire it. *)
Lemma clean_inv now j (f : ProvisioningJob → ProvisioningJob) w w1 (b : bool) :
  bundles_inv now w → String.length (pj_pk j) = 36%nat → spent now w j →
  w1 = w ∨ own_key j (pj_key j) ∧ w1 = store_delete (pj_key j) w →
  (∀ x, pj_pk (f x) = pj_pk x ∧ pj_key (f x) = "" ∧ pj_expires (f x) = pj_expires x ∧
    (pj_status (f x) = P_READY → pj_status x = P_READY)) →
  bundles_inv now (if b then set_jobs (update_where (λ x, pj_pk x = pj_pk j) f (w_jobs w1)) w1 else w1).
Proof.
  intros Hi Hlen Hdead Hw1 Hf.
  assert (bundles_inv now w1 ∧ w_jobs w1 = w_jobs w) as [Hi1 Hj1].
  { destruct Hw1 as [->|[Hk ->]]; [done|]. split; [|done]. apply (own_store_inv _ j (pj_key j)); try done.
    intros k Hne. by simplify_map_eq. }
  destruct b; [|done]. apply bundles_inv_update; [done|by intros x _; apply Hf|]. intros x Hx Hpk.
  destruct (Hf x) as (_ & Hk & Hexp & Hst). split; [by left|]. intros Hr%Hst. rewrite Hj1 in Hx.
  destruct (Hdead x Hx Hpk Hr) as (t & Ht & Hlt). exists t. rewrite Hexp. split; [done|]. lia.
Qed.

Lemma dead_update now w w1 j (P : ProvisioningJob → Prop) `{∀ x, Decision (P x)} f :
  spent now w j → w_jobs w1 = w_jobs w →
  (∀ x, pj_pk (f x) = pj_pk x ∧ pj_expires (f x) = pj_expires x ∧ (pj_status (f x) = P_READY → pj_status x = P_READY)) →
  spent now (set_jobs (update_where P f (w_jobs w1)) w1) j.
Proof.
  intros Hd Hj Hf y (x & Hx & [[_ ->]|[_ ->]])%elem_of_update_where Hpk Hst; rewrite Hj in Hx.
  - destruct (Hf x) as (Hp & He & Hs). rewrite He. apply (Hd x); [done|congruence|by apply Hs].
  - by apply (Hd x).
Qed.

Lemma clean_downloaded_inv now j a b w :
  bundles_inv now w → String.length (pj_pk j) = 36%nat → spent now w j → own_key j (pj_key j) →
  bundles_inv now (clean_downloaded a b w j) ∧ ∀ j', spent now w j' → spent now (clean_downloaded a b w j) j'.
Proof.
  intros Hi Hlen Hdead Hk. unfold clean_downloaded. destruct a; [|done]. split.
  - apply (clean_inv now j without_key w); auto.
  - intros j' Hd. destruct b; [|done]. by apply (dead_update now w).
Qed.

Lemma clean_stale_inv now j a b w :
  bundles_inv now w → String.length (pj_pk j) = 36%nat → spent now w j → pj_key j = "" ∨ own_key j (pj_key j) →
  bundles_inv now (clean_stale a b w j) ∧ ∀ j', spent now w j' → spent now (clean_stale a b w j) j'.
Proof.
  intros Hi Hlen Hdead Hk. unfold clean_stale. destruct (bool_decide (pj_key j = "") || a); [|done]. split.
  - apply (clean_inv now j expired_job w); [done..| |by repeat split]. case_bool_decide; [by left|right; naive_solver].
  - intros j' Hd. case_bool_decide; destruct b; try done; by apply (dead_update now w).
Qed.

Lemma clean_loop_inv now (clean : JobWorld → ProvisioningJob → JobWorld) l w :
  (∀ w j, bundles_inv now w → j ∈ l → spent now w j →
    bundles_inv now (clean w j) ∧ ∀ j', spent now w j' → spent now (clean w j) j') →
  bundles_inv now w → (∀ j, j ∈ l → spent now w j) → bundles_inv now (foldl clean w l).
Proof.
  revert w. induction l as [|j l IH]; intros w Hc Hi Hd; [done|]. simpl.
  destruct (Hc w j Hi ltac:(set_solver) (Hd j ltac:(set_solver))) as [Hi1 Hd1].
  apply IH; [|done|]; [intros w' j' ? Hj'; apply Hc; [done|set_solver]|]. intros j' Hj'. apply Hd1, Hd. set_solver.
Qed.

Lemma cleanup_inv now oks w : bundles_inv now w → bundles_inv now (cleanup_expired_provisioning_outputs now oks w).
Proof.
  intros Hi. unfold cleanup_expired_provisioning_outputs.
  set (w1 := foldl _ w _). assert (bundles_inv now w1) as Hi1.
  { apply clean_loop_inv; [|done|].
    - intros w' j Hi' Hj Hd. apply list_elem_of_filter in Hj as [[Hst Hne] Hj].
      apply clean_downloaded_inv; [done|by apply (bi_uuid _ _ Hi)|done|]. by destruct (bi_key _ _ Hi j Hj).
    - intros j [[Hst _] Hj]%list_elem_of_filter x Hx Hpk Hr.
      rewrite (NoDup_fmap_elem_inj pj_pk _ _ _ (bi_unique _ _ Hi) Hx Hj Hpk) in Hr. congruence. }
  clearbody w1. apply clean_loop_inv; [|done|].
  - intros w' j Hi' [_ Hj]%list_elem_of_filter Hd.
    apply clean_stale_inv; [done|by apply (bi_uuid _ _ Hi1)|done|]. by apply (bi_key _ _ Hi1).
  - intros j [Hst Hj]%list_elem_of_filter x Hx Hpk Hr.
    rewrite (NoDup_fmap_elem_inj pj_pk _ _ _ (bi_unique _ _ Hi1) Hx Hj Hpk). unfold stale in Hst.
    apply andb_true_iff in Hst as [_ Hst]. destruct (pj_expires j) as [t|]; [|done].
    exists t. split; [done|]. by apply bool_decide_eq_true in Hst.
Qed.
(** The objects of releases and of bundles have different keys. *)
Lemma import_keys_foreign ij j key : own_key j key → key ∉ import_keys ij.
Proof.
  intros [rest ->] Hin. unfold import_keys, release_bundle_key, release_image_key, release_rootfs_key in Hin.
  rewrite !elem_of_cons in Hin. destruct Hin as [H|[H|[H|H]]]; [discriminate H..|by apply not_elem_of_nil in H].
Qed.

Lemma wstep_inv now w now' w' : wstep (now, w) (now', w') → bundles_inv now w → bundles_inv now' w'.
Proof.
  intros Hs Hi. inversion Hs; subst; clear Hs.
  - destruct Hi. split; try done. intros j Hj Hst. destruct (bi_ready0 j Hj Hst) as (t & Ht & Hr). exists t.
    split; [done|]. intros Hle. apply Hr. lia.
  - destruct Hi. split; simpl.
    + rewrite fmap_app. apply NoDup_app. split_and!; [done| |apply NoDup_singleton].
      intros x Hx ->%list_elem_of_singleton. done.
    + intros x [Hx| ->%list_elem_of_singleton]%elem_of_app; [by apply bi_uuid0|done].
    + intros x [Hx| ->%list_elem_of_singleton]%elem_of_app; [by apply bi_key0|by left].
    + intros x [Hx| ->%list_elem_of_singleton]%elem_of_app Hst; [by apply bi_ready0|congruence].
  - apply bundles_inv_update; [done|done|]. intros j Hj _. split; [exact (bi_key _ _ Hi j Hj)|done].
  - by apply run_provisioning_inv.
  - assert (bundles_inv now' (set_jobs (update_where (λ j, pj_pk j = pk ∧ pj_status j = P_READY) (downloaded_job now') (w_jobs w)) w))
      as Hi1.
    { apply bundles_inv_update; [done|done|]. intros j Hj _. split; [exact (bi_key _ _ Hi j Hj)|done]. }
    unfold download_finish. case_match; [|done]. destruct Hi1; by split.
  - by apply cleanup_inv.
  - match goal with H : stale _ j = true |- _ => unfold stale in H; apply andb_true_iff in H as [_ Hst] end.
    destruct (pj_expires j) as [t|] eqn:Ht; [|done]. apply bool_decide_eq_true in Hst.
    apply clean_stale_inv; [done|..].
    + match goal with H : pj_pk x = _ |- _ => rewrite <-H end. by apply (bi_uuid _ _ Hi).
    + intros y Hy Hpk _. exists t. split; [|done].
      match goal with H : pj_pk x = _ |- _ => rewrite <-H in Hpk end.
      by rewrite (NoDup_fmap_elem_inj pj_pk _ y x (bi_unique _ _ Hi) Hy).
    + destruct (bi_key _ _ Hi x) as [Hk|[rest Hk]]; [done|left; congruence|right]. exists rest. congruence.
  - destruct (run_import_job e j w) as [w' ok] eqn:Hr. apply import_frame in Hr as (Hj & _ & Ho).
    assert (bundles_inv now' (set_store (w_store w') w)) as Hi1.
    { apply bundles_inv_store; [done|]. intros x t Hx Hst Ht Hle. apply Ho.
      destruct (bi_ready _ _ Hi x Hx Hst) as (t' & Ht' & Hrd). simplify_eq. destruct (Hrd Hle) as [Hk _].
      by apply (import_keys_foreign j x). }
    destruct Hi1 as [H1 H2 H3 H4]. split; simpl; rewrite ?Hj; done.
  - destruct Hi; by split.
Qed.

End bundles.

(** ** One station *)

Module Bench.
Definition uuid : string := "0a1b2c3d-4e5f-6071-8293-a4b5c6d7e8f9".
Definition image : ImageRelease := mkRelease 3 "v1" "qemux86-64" "release" "" "" None true 0 None.
Definition decompress (b : Bytes) : option Bytes := Some b.
Definition compress (b : Bytes) : Bytes := b.
Definition inject (b url : string) (station : Z) (priv : string) : option Bytes := Some (b +:+ priv).
Definition env (save_ok : bool) : PEnv := mkPEnv "https://server" ("priv", "pub") true Up_ok true save_ok true "db gone".
Definition job : ProvisioningJob := mkPJob uuid 5 3 P_PENDING "" "" None 100 None None None.
Definition world : JobWorld :=
  mkJobWorld [] {[ "images/base" := "wic" ]} {[ 5 := mkDeviceKey "old" None true ]} ∅ [image] {[ 3 := ("images/base", "") ]}.
Definition queued : JobWorld := set_jobs [job] world.
Definition running : JobWorld := set_jobs [claimed_job job] world.
Definition run (save_ok : bool) : JobWorld :=
  run_provisioning_job decompress compress inject 200 (env save_ok) (claimed_job job) running.
Definition done_job : ProvisioningJob :=
  ready_job 200 (provisioning_output_key job image) "wicpriv" (claimed_job job).

Lemma bundle_reached : rtc (wstep decompress compress inject) (100, world) (200, run true).
Proof.
  eapply rtc_l; [apply (ws_create _ _ _ _ job); by vm_compute; set_solver|].
  eapply rtc_l; [apply (ws_claim _ _ _ _ uuid)|].
  eapply rtc_l; [apply (ws_time _ _ _ _ 200); by vm_compute|].
  apply rtc_once. apply (ws_run _ _ _ 200 (env true) (claimed_job job) running); [|reflexivity].
  apply elem_of_cons. by left.
Qed.
End Bench.


(** When the row cannot be saved after the key was rotated, the job fails, its bundle
    is deleted, and the station's live key is no longer accepted. *)
Example rotation_without_bundle :
  let w := Bench.run false in
  pj_status <$> w_jobs w = [P_FAILED] ∧ w_keys w !! 5 = Some (mkDeviceKey "pub" None true) ∧
  w_store w !! provisioning_output_key Bench.job Bench.image = None.
Proof. vm_compute. done. Qed.

(** A download that ends while the clean-up holds the row: the row it loaded is
    written back, and the completed download ends as expired. *)
Example clean_up_overwrites_download :
  let w := download_finish 4000 Bench.uuid (Bench.run true) in
  pj_status <$> w_jobs w = [P_DOWNLOADED] ∧
  pj_status <$> w_jobs (clean_stale true true w Bench.done_job) = [P_EXPIRED] ∧ stale 4000 Bench.done_job = true.
Proof. vm_compute. done. Qed.

Module Forge.
Definition asset : Asset := mkAsset "wic2" "bundle2" "sha2".
Definition job : ImportJob := mkIJob "v2" "qemux86-64" "release" true.
Definition env (db : bool) : IEnv :=
  mkIEnv (Some asset) true Up_ok Up_ok Up_ok (Some (4, "rsha", "root")) db 9 50 (λ _, true).
End Forge.

Lemma import_outcome_witness :
  let r := run_import_job (Forge.env true) Forge.job Bench.world in
  r.2 = true ∧ w_store r.1 !! "images/v2/release/qemux86-64.rootfs.bz2" = Some "root" ∧ w_jobs r.1 = w_jobs Bench.world.
Proof.
  destruct (import_outcome (Forge.env true) Forge.job Bench.world
    (run_import_job (Forge.env true) Forge.job Bench.world).1
    (run_import_job (Forge.env true) Forge.job Bench.world).2) as (Hj & _ & _ & Hok & _).
  { vm_compute. reflexivity. }
  assert ((run_import_job (Forge.env true) Forge.job Bench.world).2 = true) as H2 by (vm_compute; reflexivity).
  destruct (Hok H2) as (_ & a & size & sha & rootfs & r & _ & He & _).
  split; [exact H2|]. split; [vm_compute; reflexivity|exact Hj].
Defined.
