(* ===== verification/Auth.v ===== *)
(** * Who is calling: device signatures, API tokens, one-time tokens

    The authenticators of the server: stations sign their HTTP requests and their
    WebSocket handshakes with an Ed25519 key ([apps/api/authentication.py] and the
    [_verify_agent] of the control, audio and tunnel consumers, against
    [station_agent/signing.py] and [control_client.py]), scripts send a personal
    access token, and people redeem the one-time tokens of a mailed link
    ([apps/accounts/tokens.py]).

    SHA-256, base64, Ed25519 and the parsing and printing of floats are parameters;
    what the round trip needs of them is the class [DeviceCrypto]. *)

From Stdlib Require Import ZArith Lia Ascii SpecFloat.
From stdpp Require Import base gmap list relations strings pretty.
From S2P Require Import Prelude Json Images Targeting Deployments Download AgentDownload Permissions Jobs.
Local Open Scope Z_scope.

(** ** Device signatures *)

(** [str.split()] *)
Fixpoint words (cur l : list ascii) : list (list ascii) :=
  match l with
  | [] => match cur with [] => [] | _ => [reverse cur] end
  | c :: l' =>
    if is_space c then (match cur with [] => words [] l' | _ => reverse cur :: words [] l' end)
    else words (c :: cur) l'
  end.

Definition split_words (s : string) : list string :=
  String.string_of_list_ascii <$> words [] (String.list_ascii_of_string s).

Record Request := mkRequest {
  rq_authorization : string;       (* "" when the header is absent *)
  rq_signature : string;
  rq_timestamp : string;
  rq_body : string
}.

Inductive AuthError := E_missing | E_timestamp | E_future | E_expired | E_no_key | E_signature.
Inductive AuthResult := NotMine | AuthFailed (e : AuthError) | Authenticated (station : Z) (used_next : bool).

Class Crypto := {
  sha256 : string → string;                            (* hexdigest *)
  b64decode : string → option string;                  (* [None]: binascii.Error *)
  ed25519_verify : string → string → string → bool;    (* key bytes, signature, data *)
  py_float : string → option spec_float;               (* float(str) *)
  b64encode : string → string;
  ed25519_sign : string → string → string;             (* private key, data *)
  public_key : string → string;                        (* raw bytes *)
  float_repr : spec_float → string
}.

Section device.
Context `{Crypto}.

(** [DeviceKey.verify_signature] *)
Definition verify_signature (public_key_b64 signature_b64 data : string) : bool :=
  match b64decode public_key_b64, b64decode signature_b64 with
  | Some pub, Some signature => ed25519_verify pub signature data
  | _, _ => false
  end.

Definition float_lt (a b : spec_float) : bool := SFltb a b.
Definition float_sub (a b : spec_float) : spec_float := SFsub 53 1024 a b.
Definition float_add (a b : spec_float) : spec_float := SFadd 53 1024 a b.

Definition TIMESTAMP_TOLERANCE : spec_float := float_of_Z 60.
Definition SKEW : spec_float := float_of_Z 5.

Definition signed_data (timestamp body : string) : string := timestamp +:+ ":" +:+ sha256 body.

(** The active key of a station ([OneToOneField]). *)
Definition active_key (station : Z) (keys : gmap Z DeviceKey) : option DeviceKey :=
  k ← keys !! station; if dk_is_active k then Some k else None.

(** Which of the two keys verifies: [Some false] the current, [Some true] the next. *)
Definition verify_keys (k : DeviceKey) (signature data : string) : option bool :=
  if verify_signature (dk_current k) signature data then Some false
  else
    match dk_next k with
    | Some next => if bool_decide (next ≠ "") && verify_signature next signature data then Some true else None
    | None => None
    end.

(** [DeviceKeyAuthentication.authenticate] *)
Definition authenticate (now : spec_float) (keys : gmap Z DeviceKey) (r : Request) : AuthResult :=
  if bool_decide (rq_authorization r = "") then NotMine
  else
    match split_words (rq_authorization r) with
    | [keyword; id] =>
      if bool_decide (keyword ≠ "DeviceKey") then NotMine
      else
        match int_of_string id with
        | None => NotMine
        | Some station =>
          if bool_decide (rq_signature r = "") || bool_decide (rq_timestamp r = "") then AuthFailed E_missing
          else
            match py_float (rq_timestamp r) with
            | None => AuthFailed E_timestamp
            | Some ts =>
              if float_lt (float_add now SKEW) ts then AuthFailed E_future
              else if float_lt TIMESTAMP_TOLERANCE (float_sub now ts) then AuthFailed E_expired
              else
                match active_key station keys with
                | None => AuthFailed E_no_key
                | Some k =>
                  match verify_keys k (rq_signature r) (signed_data (rq_timestamp r) (rq_body r)) with
                  | Some next => Authenticated station next
                  | None => AuthFailed E_signature
                  end
                end
            end
        end
    | _ => NotMine
    end.

(** [_verify_agent] of the three agent consumers: the same decision on query
    parameters, for an empty body. *)
Definition verify_agent (now : spec_float) (keys : gmap Z DeviceKey) (station : Z) (signature timestamp : string) : bool :=
  if bool_decide (signature = "") || bool_decide (timestamp = "") then false
  else
    match active_key station keys with
    | None => false
    | Some k =>
      match py_float timestamp with
      | None => false
      | Some ts =>
        if float_lt TIMESTAMP_TOLERANCE (float_sub now ts) || float_lt (float_add now SKEW) ts then false
        else match verify_keys k signature (signed_data timestamp "") with Some _ => true | None => false end
      end
    end.

(** ** The agent's side *)

(** [sign_request] *)
Definition sign_request (private : string) (station : Z) (at_ : spec_float) (body : string) : Request :=
  let timestamp := float_repr at_ in
  mkRequest ("DeviceKey " +:+ pretty station) (b64encode (ed25519_sign private (signed_data timestamp body)))
    timestamp body.

(** The query of [_build_ws_url]: signature and timestamp. *)
Definition sign_handshake (private : string) (at_ : spec_float) : string * string :=
  let timestamp := float_repr at_ in
  (b64encode (ed25519_sign private (signed_data timestamp "")), timestamp).

End device.

(** What the round trip relies on: base64, Ed25519 and [float(repr(x)) == x]. *)
Class DeviceCrypto `{Crypto} : Prop := {
  b64_roundtrip s : b64decode (b64encode s) = Some s;
  b64encode_nonempty s : s ≠ "" → b64encode s ≠ "";
  ed25519_correct k m : ed25519_verify (public_key k) (ed25519_sign k m) m = true;
  ed25519_nonempty k m : ed25519_sign k m ≠ "";
  repr_roundtrip x : is_finite x = true → py_float (float_repr x) = Some x;
  repr_nonempty x : float_repr x ≠ ""
}.

(** ** Personal access tokens *)

Record AccessToken := mkAccess {
  tk_pk : Z; tk_user : Z; tk_hash : string; tk_expires : option Z; tk_revoked : option Z; tk_last_used : option Z
}.

Definition token_is_active (now : Z) (t : AccessToken) : bool :=
  match tk_revoked t with
  | Some _ => false
  | None => match tk_expires t with Some e => negb (bool_decide (e ≤ now)) | None => true end
  end.

Inductive TokenResult := T_not_mine | T_failed | T_user (u : User) (t : AccessToken) | T_server_error.

Definition lower_char (c : ascii) : ascii :=
  if bool_decide (65 ≤ ascii_code c ≤ 90) then ascii_of_nat (nat_of_ascii c + 32) else c.

Definition is_ascii (s : string) : bool := forallb (λ c, bool_decide (ascii_code c < 128)) (String.list_ascii_of_string s).

Section tokens.
Context `{Crypto}.

(** [PersonalAccessTokenAuthentication.authenticate]; [get] on a hash that two rows
    share raises. *)
Definition authenticate_token (now : Z) (users : list User) (tokens : list AccessToken) (header : string) : TokenResult :=
  match split_words header with
  | [] => T_not_mine
  | scheme :: rest =>
    if negb (is_ascii scheme) then T_failed
    else if bool_decide (lower_char <$> String.list_ascii_of_string scheme ≠ String.list_ascii_of_string "bearer")
    then T_not_mine
    else
      match rest with
      | [raw] =>
        if negb (is_ascii raw) then T_failed
        else
          match filter (λ t, tk_hash t = sha256 raw) tokens with
          | [] => T_failed
          | [t] =>
            if negb (token_is_active now t) then T_failed
            else
              match head (filter (λ u, u_pk u = tk_user t) users) with
              | None => T_server_error
              | Some u =>
                if negb (is_active u) then T_failed
                else match can AREAS (Some u) "api_tokens" "use" with
                     | Ok true => T_user u t
                     | Ok false => T_failed
                     | Raise _ => T_server_error
                     end
              end
          | _ => T_server_error
          end
      | _ => T_failed
      end
  end.

(** ** One-time tokens *)

Inductive TokenType := WELCOME | RESET | VERIFY.
#[export] Instance TokenType_eq_dec : EqDecision TokenType.
Proof. solve_decision. Defined.

(** [EXPIRY], in seconds. *)
Definition EXPIRY (t : TokenType) : Z := match t with WELCOME => 7 * 86400 | RESET => 86400 | VERIFY => 86400 end.

Record AccountToken := mkAccountToken {
  at_pk : Z; at_user : Z; at_type : TokenType; at_hash : string; at_expires : Z; at_used : option Z
}.

(** [issue_token] with the raw token it generated. *)
Definition issue_token (now pk user : Z) (ty : TokenType) (raw : string) (rows : list AccountToken) : list AccountToken :=
  rows ++ [mkAccountToken pk user ty (sha256 raw) (now + EXPIRY ty) None].

Definition use_token (now : Z) (t : AccountToken) : AccountToken :=
  mkAccountToken (at_pk t) (at_user t) (at_type t) (at_hash t) (at_expires t) (Some now).

(** [consume_token] in its transaction; [Raise ()]: two rows match. *)
Definition consume_token (now : Z) (active : Z → bool) (raw : string) (ty : TokenType) (rows : list AccountToken)
    : outcome unit (list AccountToken * option AccountToken) :=
  match filter (λ t, at_hash t = sha256 raw ∧ at_type t = ty ∧ active (at_user t) = true) rows with
  | [] => Ok (rows, None)
  | [t] =>
    if bool_decide (at_used t = None) && bool_decide (now < at_expires t)
    then Ok (update_where (λ x, at_pk x = at_pk t) (use_token now) rows, Some t)
    else Ok (rows, None)
  | _ => Raise ()
  end.

Definition invalidate_pending_tokens (now user : Z) (ty : TokenType) (rows : list AccountToken) : list AccountToken :=
  update_where (λ t, at_user t = user ∧ at_type t = ty ∧ at_used t = None) (use_token now) rows.

End tokens.

(** ** Lemmas: the header the agent sends *)

Lemma words_token cur l : Forall (λ c, is_space c = false) l → words cur l = words (reverse l ++ cur) [].
Proof.
  revert cur. induction l as [|c l IH]; intros cur Hl; [done|].
  apply list.Forall_cons in Hl as [Hc Hl]. cbn [words]. rewrite Hc, IH by done. f_equal.
  by rewrite reverse_cons, <-app_assoc.
Qed.

Lemma words_step cur l rest :
  Forall (λ c, is_space c = false) l → words cur (l ++ " "%char :: rest) =
    match reverse l ++ cur with [] => words [] rest | t => reverse t :: words [] rest end.
Proof.
  revert cur. induction l as [|c l IH]; intros cur Hl; [by destruct cur|].
  apply list.Forall_cons in Hl as [Hc Hl]. cbn [words app]. rewrite Hc, IH by done.
  by rewrite reverse_cons, <-app_assoc.
Qed.

Lemma is_digit_code c : is_digit c → 48 ≤ ascii_code c ≤ 57 ∧ decimal c = digit_value c.
Proof.
  unfold is_digit, decimal. destruct c as [[] [] [] [] [] [] [] []]; vm_compute; intros [x Hx]; try discriminate;
    (split; [split; discriminate|reflexivity]).
Qed.

Lemma pretty_text n : 0 ≤ n → String.string_of_list_ascii (digits_of (pretty n)) = pretty n.
Proof. intros _. apply String.string_of_list_ascii_of_string. Qed.

Lemma split_header n : 0 ≤ n → split_words ("DeviceKey " +:+ pretty n) = ["DeviceKey"; pretty n].
Proof.
  intros Hn. destruct (pretty_digits n Hn) as (d & Hd & Hall & Hne & _). unfold split_words.
  change (String.list_ascii_of_string ("DeviceKey " +:+ pretty n)) with (digits_of ("DeviceKey " +:+ pretty n)).
  rewrite digits_of_app. change (digits_of "DeviceKey ") with (digits_of "DeviceKey" ++ [" "%char]).
  rewrite <-app_assoc. cbn [app]. rewrite (words_step [] (digits_of "DeviceKey")) by (by repeat constructor).
  rewrite Hd, words_token; [|eapply Forall_impl; [exact Hall|]; intros c; apply space_digit].
  rewrite !app_nil_r. cbn [words]. destruct (reverse d) as [|c t] eqn:Hr.
  - exfalso. apply Hne. apply (f_equal reverse) in Hr. by rewrite reverse_involutive in Hr.
  - rewrite <-Hr, reverse_involutive, <-Hd.
    change (match reverse (digits_of "DeviceKey") with [] => _ | _ => _ end)
      with [digits_of "DeviceKey"; digits_of (pretty n)].
    rewrite !fmap_cons, pretty_text by done. done.
Qed.

Lemma digits_underscore_value d acc after :
  Forall is_digit d → d ≠ [] ∨ after = true →
  digits_underscore acc after d = Some (foldl (λ acc c, 10 * acc + default 0 (digit_value c)) acc d).
Proof.
  intros Hall. revert acc after. induction Hall as [|c d Hc _ IH]; intros acc after Hne; cbn [digits_underscore foldl].
  - by destruct Hne as [?| ->].
  - destruct (is_digit_code c Hc) as [_ Hdec]. rewrite Hdec. destruct Hc as [v Hv]. rewrite Hv. apply IH. by right.
Qed.

Lemma int_of_pretty n : 0 ≤ n < 10 ^ 4300 → int_of_string (pretty n) = Some n.
Proof.
  intros Hn. destruct (pretty_digits n (proj1 Hn)) as (d & Hd & Hall & Hne & Hv & Hpy). unfold int_of_string.
  change (String.list_ascii_of_string (pretty n)) with (digits_of (pretty n)). rewrite Hd.
  assert (∀ t, Forall is_digit t → t ≠ [] → lstrip t = t) as Hl.
  { intros [|c t] Ht Hn'; [done|]. apply list.Forall_cons in Ht as [Hc _]. cbn [lstrip]. by rewrite space_digit. }
  unfold strip. rewrite (Hl d), (Hl (reverse d)), reverse_involutive; [|by apply Forall_reverse| |done|done].
  2: { intros Hr. apply Hne. apply (f_equal reverse) in Hr. by rewrite reverse_involutive in Hr. }
  destruct d as [|c t] eqn:Hdt; [done|]. rewrite <-Hdt in *.
  assert (48 ≤ ascii_code c ≤ 57) as Hc by (rewrite Hdt in Hall; apply list.Forall_cons in Hall as [Hc _]; by apply is_digit_code).
  rewrite !bool_decide_eq_false_2 by lia. 
  rewrite decide_False.
  - rewrite digits_underscore_value by auto. simpl. by rewrite <-Hv.
  - specialize (Hpy (proj2 Hn)). unfold py_int in Hpy. case_decide; [|done].
    pose proof (length_filter (λ c, is_Some (decimal c)) d). lia.
Qed.

(** ** Device authentication *)

Section device_theorem.
Context `{DeviceCrypto}.

Definition within_window (now ts : spec_float) : Prop :=
  float_lt (float_add now SKEW) ts = false ∧ float_lt TIMESTAMP_TOLERANCE (float_sub now ts) = false.

Lemma verify_own private m : verify_signature (b64encode (public_key private)) (b64encode (ed25519_sign private m)) m = true.
Proof. unfold verify_signature. rewrite !b64_roundtrip. apply ed25519_correct. Qed.

(** The device's key is the current or the next one. *)
Definition enrolled (private : string) (k : DeviceKey) : Prop :=
  dk_current k = b64encode (public_key private) ∨
  dk_next k = Some (b64encode (public_key private)) ∧ b64encode (public_key private) ≠ "".

Lemma verify_keys_enrolled private k m :
  enrolled private k → is_Some (verify_keys k (b64encode (ed25519_sign private m)) m).
Proof.
  unfold verify_keys. intros [Hk|[Hk Hne]].
  - rewrite Hk, verify_own. eauto.
  - rewrite Hk. case_match; [eauto|]. rewrite bool_decide_eq_true_2, verify_own by done. eauto.
Qed.

Definition key_used (k : DeviceKey) (next : bool) : string := if next then default "" (dk_next k) else dk_current k.

Lemma verify_keys_Some k signature data next :
  verify_keys k signature data = Some next → verify_signature (key_used k next) signature data = true.
Proof.
  unfold verify_keys, key_used. destruct (verify_signature (dk_current k) signature data) eqn:Hc; [by intros [= <-]|].
  destruct (dk_next k) as [n|]; [|done]. destruct (bool_decide (n ≠ "") && _) eqn:Hn; [|done]. intros [= <-].
  by apply andb_true_iff in Hn as [_ ?].
Qed.

(** A header of the agent's form names its station. *)
Lemma authenticate_header now keys station signature timestamp body :
  0 ≤ station < 10 ^ 4300 →
  authenticate now keys (mkRequest ("DeviceKey " +:+ pretty station) signature timestamp body) =
    if bool_decide (signature = "") || bool_decide (timestamp = "") then AuthFailed E_missing
    else match py_float timestamp with
         | None => AuthFailed E_timestamp
         | Some ts =>
           if float_lt (float_add now SKEW) ts then AuthFailed E_future
           else if float_lt TIMESTAMP_TOLERANCE (float_sub now ts) then AuthFailed E_expired
           else match active_key station keys with
                | None => AuthFailed E_no_key
                | Some k =>
                  match verify_keys k signature (signed_data timestamp body) with
                  | Some next => Authenticated station next
                  | None => AuthFailed E_signature
                  end
                end
         end.
Proof.
  intros Hs. unfold authenticate. cbn [rq_authorization rq_signature rq_timestamp rq_body].
  rewrite bool_decide_eq_false_2 by discriminate. rewrite split_header by lia.
  rewrite bool_decide_eq_false_2 by tauto. by rewrite int_of_pretty.
Qed.

(** C10. Device authentication.  A request the agent signs is accepted as coming from
    its station, over HTTP and as a WebSocket handshake, as long as the station has an
    active key record with the device's key as current or next one and the time
    stamp is within the window; the handshake verifier of the consumers accepts
    exactly what the HTTP authenticator accepts for an empty body; and whatever is
    accepted carries a signature that verifies under an active key of that station
    over the time stamp and the hash of exactly this body. *)
Theorem device_auth now keys station :
  0 ≤ station < 10 ^ 4300 →
  (∀ private k at_ body, active_key station keys = Some k → enrolled private k → is_finite at_ = true →
    within_window now at_ →
    (∃ next, authenticate now keys (sign_request private station at_ body) = Authenticated station next) ∧
    verify_agent now keys station (sign_handshake private at_).1 (sign_handshake private at_).2 = true) ∧
  (∀ signature timestamp,
    verify_agent now keys station signature timestamp = true ↔
    ∃ next, authenticate now keys (mkRequest ("DeviceKey " +:+ pretty station) signature timestamp "")
      = Authenticated station next) ∧
  (∀ r s next, authenticate now keys r = Authenticated s next →
    ∃ k ts, active_key s keys = Some k ∧ py_float (rq_timestamp r) = Some ts ∧ within_window now ts ∧
      verify_signature (key_used k next) (rq_signature r)
        (signed_data (rq_timestamp r) (rq_body r)) = true).
Proof.
  intros Hs.
  assert (∀ signature timestamp, verify_agent now keys station signature timestamp = true ↔
    ∃ next, authenticate now keys (mkRequest ("DeviceKey " +:+ pretty station) signature timestamp "")
      = Authenticated station next) as Hequiv.
  { intros signature timestamp. rewrite authenticate_header by done. unfold verify_agent.
    destruct (bool_decide (signature = "") || bool_decide (timestamp = "")); [naive_solver|].
    destruct (active_key station keys) as [k|], (py_float timestamp) as [ts|]; try naive_solver;
      destruct (float_lt (float_add now SKEW) ts), (float_lt TIMESTAMP_TOLERANCE (float_sub now ts)); simpl; try naive_solver.
    destruct (verify_keys k signature _); naive_solver. }
  assert (∀ private k at_ body, active_key station keys = Some k → enrolled private k → is_finite at_ = true →
    within_window now at_ →
    ∃ next, authenticate now keys (sign_request private station at_ body) = Authenticated station next) as Hreq.
  { intros private k at_ body Hk Hen Hfin [Hf He]. unfold sign_request. rewrite authenticate_header by done.
    rewrite !bool_decide_eq_false_2 by (apply repr_nonempty || apply b64encode_nonempty, ed25519_nonempty). simpl.
    rewrite repr_roundtrip, Hf, He, Hk by done.
    destruct (verify_keys_enrolled private k (signed_data (float_repr at_) body) Hen) as [next ->]. eauto. }
  split_and!; [|done|].
  - intros private k at_ body Hk Hen Hfin Hw. split; [by eapply Hreq|]. apply Hequiv.
    apply (Hreq private k at_ "" Hk Hen Hfin Hw).
  - intros r s next Ha. unfold authenticate in Ha. repeat case_match; simplify_eq.
    eexists _, _. split_and!; [done|done|by split|by apply verify_keys_Some].
Qed.
End device_theorem.

(** ** One-time tokens are redeemed once *)

Section one_time.
Context `{Crypto}.

(** The table and the log of redemptions, newest first: [(pk, type, time)]. *)
Record Redeemed := mkRedeemed { rd_rows : list AccountToken; rd_log : list (Z * TokenType * Z) }.

(** Requests of any users, in any order; [active] is who is active at that moment. *)
Inductive token_step : Redeemed → Redeemed → Prop :=
| ts_issue now pk user ty raw s : pk ∉ at_pk <$> rd_rows s →
    token_step s (mkRedeemed (issue_token now pk user ty raw (rd_rows s)) (rd_log s))
| ts_consume now active raw ty rows' t s :
    consume_token now active raw ty (rd_rows s) = Ok (rows', Some t) →
    token_step s (mkRedeemed rows' ((at_pk t, ty, now) :: rd_log s))
| ts_refused now active raw ty rows' s :
    consume_token now active raw ty (rd_rows s) = Ok (rows', None) → token_step s (mkRedeemed rows' (rd_log s))
| ts_invalidate now user ty s :
    token_step s (mkRedeemed (invalidate_pending_tokens now user ty (rd_rows s)) (rd_log s)).

(** A redeemed row is used and was of that type and in time. *)
Definition redeemed_inv (s : Redeemed) : Prop :=
  NoDup (at_pk <$> rd_rows s) ∧ NoDup (rd_log s).*1.*1 ∧
  ∀ pk ty now, (pk, ty, now) ∈ rd_log s →
    ∃ t, t ∈ rd_rows s ∧ at_pk t = pk ∧ at_used t ≠ None ∧ at_type t = ty ∧ now < at_expires t.

(** Rows are only ever marked used. *)
Lemma mark_used_inv now (P : AccountToken → Prop) `{∀ x, Decision (P x)} s log :
  redeemed_inv s → NoDup log.*1.*1 →
  (∀ pk ty n, (pk, ty, n) ∈ log → (pk, ty, n) ∈ rd_log s ∨
    ∃ t, t ∈ rd_rows s ∧ P t ∧ at_pk t = pk ∧ at_type t = ty ∧ n < at_expires t) →
  redeemed_inv (mkRedeemed (update_where P (use_token now) (rd_rows s)) log).
Proof.
  intros (Hpk & _ & Hlog) Hnd Hnew. unfold redeemed_inv; simpl.
  split_and!; [by rewrite (fmap_update_where at_pk)|done|]. intros pk ty n Hin.
  destruct (Hnew _ _ _ Hin) as [Hold|(t & Ht & HP & Heq & Hty & Hn)].
  - destruct (Hlog _ _ _ Hold) as (t & Ht & H1 & H2 & H3 & H4). destruct (decide (P t)).
    + exists (use_token now t). split; [apply elem_of_update_where; eauto|done].
    + exists t. split; [apply elem_of_update_where; eauto|done].
  - exists (use_token now t). split; [apply elem_of_update_where; eauto|done].
Qed.

Lemma consume_token_Some now active raw ty rows rows' t :
  consume_token now active raw ty rows = Ok (rows', Some t) →
  t ∈ rows ∧ at_hash t = sha256 raw ∧ at_type t = ty ∧ active (at_user t) = true ∧ at_used t = None ∧ now < at_expires t ∧
  rows' = update_where (λ x, at_pk x = at_pk t) (use_token now) rows.
Proof.
  unfold consume_token. destruct (filter _ rows) as [|x [|y l]] eqn:Hf; [done| |done].
  destruct (bool_decide (at_used x = None) && bool_decide (now < at_expires x)) eqn:Hb; [|done]. intros [= <- <-].
  apply andb_true_iff in Hb as [H1%bool_decide_eq_true H2%bool_decide_eq_true].
  assert (x ∈ filter (λ t, at_hash t = sha256 raw ∧ at_type t = ty ∧ active (at_user t) = true) rows) as Hx
    by (rewrite Hf; set_solver).
  apply list_elem_of_filter in Hx. naive_solver.
Qed.

Lemma token_step_inv s s' : token_step s s' → redeemed_inv s → redeemed_inv s'.
Proof.
  intros Hs Hi. pose proof Hi as (Hpk & Hnd & Hlog). destruct Hs as [now pk user ty raw s Hnew|now active raw ty rows' t s Hc|
    now active raw ty rows' s Hc|now user ty s].
  - unfold redeemed_inv, issue_token; simpl. rewrite fmap_app. split_and!; [|done|].
    + apply NoDup_app. split_and!; [done| |apply NoDup_singleton]. intros x Hx ->%list_elem_of_singleton. done.
    + intros pk' ty' n Hin. destruct (Hlog _ _ _ Hin) as (t & Ht & Hrest). exists t. split; [set_solver|done].
  - destruct (consume_token_Some _ _ _ _ _ _ _ Hc) as (Ht & _ & Hty & _ & Hu & Hexp & ->). apply mark_used_inv; [done| |].
    + rewrite !fmap_cons. constructor; [|done]. simpl. intros Hin.
      apply list_elem_of_fmap in Hin as ([pk' ty'] & Heq & Hin). apply list_elem_of_fmap in Hin as ([[pk'' ty''] n] & Heq' & Hin).
      simplify_eq/=. destruct (Hlog _ _ _ Hin) as (t' & Ht' & Hpk' & Hused & _).
      rewrite (NoDup_fmap_elem_inj at_pk _ _ _ Hpk Ht' Ht Hpk') in Hused. done.
    + intros pk ty' n [Heq|Hin]%elem_of_cons; [|by left]. simplify_eq. right. by exists t.
  - unfold consume_token in Hc. repeat case_match; simplify_eq; by destruct s.
  - apply mark_used_inv; [done|done|]. intros pk ty' n Hin. by left.
Qed.

Definition used_up (pk : Z) (s : Redeemed) : Prop := ∃ t, t ∈ rd_rows s ∧ at_pk t = pk ∧ at_used t ≠ None.

(** A used row stays used, and is not redeemed. *)
Lemma used_up_step pk s s' :
  token_step s s' → redeemed_inv s → used_up pk s → used_up pk s' ∧ (pk ∈ (rd_log s').*1.*1 → pk ∈ (rd_log s).*1.*1).
Proof.
  intros Hs (Hpk & _) (u & Hu & Hp & Hne). destruct Hs as [now pk' user ty raw s Hnew|now active raw ty rows' t s Hc|
    now active raw ty rows' s Hc|now user ty s]; simpl.
  - split; [|done]. exists u. split; [unfold issue_token; set_solver|done].
  - destruct (consume_token_Some _ _ _ _ _ _ _ Hc) as (Ht & _ & _ & _ & Hun & _ & ->). split.
    + destruct (decide (at_pk u = at_pk t)); [exists (use_token now u)|exists u];
        (split; [apply elem_of_update_where; exists u; naive_solver|done]).
    + rewrite elem_of_cons. intros [->|?]; [|done]. rewrite (NoDup_fmap_elem_inj at_pk _ _ _ Hpk Hu Ht) in Hne; done.
  - split; [|done]. exists u. unfold consume_token in Hc. by repeat case_match; simplify_eq.
  - split; [|done]. destruct (decide (at_user u = user ∧ at_type u = ty ∧ at_used u = None)); [exists (use_token now u)|exists u];
      (split; [apply elem_of_update_where; exists u; naive_solver|done]).
Qed.

Lemma used_up_rtc pk s s' :
  rtc token_step s s' → redeemed_inv s → used_up pk s →
  redeemed_inv s' ∧ used_up pk s' ∧ (pk ∈ (rd_log s').*1.*1 → pk ∈ (rd_log s).*1.*1).
Proof.
  intros Hr. induction Hr as [|x y z Hs _ IH]; [done|]. intros Hi Hu.
  destruct (used_up_step _ _ _ Hs Hi Hu) as [Hu' Hl].
  destruct IH as (H1 & H2 & H3); [by eapply token_step_inv|done|]. auto.
Qed.

(** A mailed token is redeemed at most once, whatever requests race for it, and
    only as the type it was issued for and before it expires; once the pending tokens
    of a user and type are invalidated, none of them is redeemed any more. *)
Lemma token_redeemed_once s0 s :
  rd_rows s0 = [] → rd_log s0 = [] → rtc token_step s0 s →
  NoDup (rd_log s).*1.*1 ∧
  (∀ pk ty now, (pk, ty, now) ∈ rd_log s → ∃ t, t ∈ rd_rows s ∧ at_pk t = pk ∧ at_type t = ty ∧ now < at_expires t) ∧
  (∀ now user ty pk t, t ∈ rd_rows s → at_user t = user → at_type t = ty → at_pk t = pk →
    ∀ s', rtc token_step (mkRedeemed (invalidate_pending_tokens now user ty (rd_rows s)) (rd_log s)) s' →
    pk ∈ (rd_log s').*1.*1 → pk ∈ (rd_log s).*1.*1).
Proof.
  intros H1 H2 Hr. assert (redeemed_inv s) as Hi.
  { assert (redeemed_inv s0) as H0.
    { unfold redeemed_inv. rewrite H1, H2. split_and!; [constructor|constructor|].
      intros ??? Hin. by apply not_elem_of_nil in Hin. }
    clear H1 H2. revert H0. induction Hr as [|x y z Hs _ IH]; [done|]. intros Hi. apply IH. by eapply token_step_inv. }
  pose proof Hi as (Hpk & Hnd & Hlog). split_and!; [done| |].
  - intros pk ty now Hin. destruct (Hlog _ _ _ Hin) as (t & ? & ? & _ & ? & ?). eauto 6.
  - intros now user ty pk t Ht Hu Hty Hp s' Hr'.
    apply (used_up_rtc pk) in Hr' as (_ & _ & Hl); [done|by eapply token_step_inv; [apply ts_invalidate|]|].
    destruct (decide (at_used t = None)) as [Hn|Hn]; [exists (use_token now t)|exists t];
      (split; [apply elem_of_update_where; exists t; naive_solver|done]).
Qed.
End one_time.

(** ** A toy key scheme: the interface can be implemented *)

Module Toy.
Fixpoint bits (p : positive) : string :=
  match p with xH => "e" | xO p => String "0" (bits p) | xI p => String "1" (bits p) end.
Fixpoint read_bits (s : string) : option (positive * string) :=
  match s with
  | EmptyString => None
  | String c s' =>
    if decide (c = "e"%char) then Some (xH, s')
    else p ← read_bits s'; Some (if decide (c = "0"%char) then (xO p.1, p.2) else (xI p.1, p.2))
  end.
Lemma read_bits_app p rest : read_bits (bits p +:+ rest) = Some (p, rest).
Proof. induction p as [p IH|p IH|]; simpl; [by rewrite IH..|done]. Qed.

Lemma read_bits_self p : read_bits (bits p) = Some (p, "").
Proof. induction p as [p IH|p IH|]; simpl; [by rewrite IH..|done]. Qed.

Definition z_text (z : Z) : string :=
  match z with Z0 => "z" | Zpos p => String "+" (bits p) | Zneg p => String "-" (bits p) end.
Definition read_z (s : string) : option Z :=
  match s with
  | String c s' =>
    if decide (c = "z"%char) then Some 0
    else p ← read_bits s'; Some (if decide (c = "+"%char) then Zpos p.1 else Zneg p.1)
  | EmptyString => None
  end.
Lemma read_z_text z : read_z (z_text z) = Some z.
Proof.
  destruct z as [|p|p]; simpl; [done|..]; by rewrite read_bits_self.
Qed.

Definition repr (f : spec_float) : string :=
  match f with
  | S754_zero false => "a" | S754_zero true => "b"
  | S754_finite false m e => String "c" (bits m +:+ z_text e)
  | S754_finite true m e => String "d" (bits m +:+ z_text e)
  | _ => "x"
  end.
Definition read_float (s : string) : option spec_float :=
  match s with
  | String c s' =>
    if decide (c = "a"%char) then Some (S754_zero false)
    else if decide (c = "b"%char) then Some (S754_zero true)
    else if decide (c = "x"%char) then Some S754_nan
    else p ← read_bits s'; e ← read_z p.2; Some (S754_finite (bool_decide (c = "d"%char)) p.1 e)
  | EmptyString => None
  end.
Lemma read_repr f : is_finite f = true → read_float (repr f) = Some f.
Proof.
  destruct f as [[]| | |[] m e]; try done; intros _; simpl; by rewrite read_bits_app; simpl; rewrite read_z_text.
Qed.

#[export] Instance crypto : Crypto := {|
  sha256 := id; b64decode := Some; b64encode := id; public_key := id;
  ed25519_sign k m := "s" +:+ k +:+ ":" +:+ m;
  ed25519_verify k s m := bool_decide (s = "s" +:+ k +:+ ":" +:+ m);
  py_float := read_float; float_repr := repr
|}.
#[export] Instance device_crypto : DeviceCrypto.
Proof.
  split; simpl; try done.
  - intros k m. by apply bool_decide_eq_true_2.
  - apply read_repr.
  - by intros [[]| | |[] m e].
Qed.

Definition keys : gmap Z DeviceKey := {[ 7 := mkDeviceKey "old" (Some "new") true ]}.
Definition sent : spec_float := float_of_Z 1000.
End Toy.

#[local] Existing Instance Toy.crypto.
#[local] Existing Instance Toy.device_crypto.

(** A request signed with the next key, received 30 seconds later; a signed time
    stamp that is not a number is never too old. *)
Lemma device_auth_witness :
  (∃ next, authenticate (float_of_Z 1030) Toy.keys (sign_request "new" 7 Toy.sent "body") = Authenticated 7 next) ∧
  verify_agent (float_of_Z 1030) Toy.keys 7 (sign_handshake "new" Toy.sent).1 (sign_handshake "new" Toy.sent).2 = true.
Proof.
  destruct (device_auth (float_of_Z 1030) Toy.keys 7) as [Hreq _]; [lia|].
  apply (Hreq "new" (mkDeviceKey "old" (Some "new") true)).
  - reflexivity.
  - right. split; [reflexivity|discriminate].
  - reflexivity.
  - split; vm_compute; reflexivity.
Defined.

Example nan_never_expires :
  authenticate (float_of_Z 999999999) Toy.keys
    (mkRequest "DeviceKey 7" "sold:x:" "x" "") = Authenticated 7 false.
Proof. vm_compute. reflexivity. Qed.

Lemma token_redeemed_once_witness :
  let s := mkRedeemed [mkAccountToken 1 5 RESET "raw" 86500 (Some 200)] [(1, RESET, 200)] in
  NoDup (rd_log s).*1.*1 ∧ ∃ t, t ∈ rd_rows s ∧ at_pk t = 1 ∧ at_type t = RESET ∧ 200 < at_expires t.
Proof.
  set (s := mkRedeemed [mkAccountToken 1 5 RESET "raw" 86500 (Some 200)] [(1, RESET, 200)]).
  assert (rtc token_step (mkRedeemed [] []) s) as Hr.
  { eapply rtc_l; [apply (ts_issue 100 1 5 RESET "raw"); apply not_elem_of_nil|].
    eapply rtc_l; [eapply (ts_consume 200 (λ _, true) "raw" RESET); reflexivity|].
    eapply rtc_l; [eapply (ts_refused 201 (λ _, true) "raw" RESET); reflexivity|]. apply rtc_refl. }
  destruct (token_redeemed_once (mkRedeemed [] []) s eq_refl eq_refl Hr) as (H1 & H2 & _). split; [exact H1|].
  apply H2. apply elem_of_cons. by left.
Defined.

(** A request that authenticates with a bearer token carries the raw form of a
    stored hash of a token that is neither revoked nor expired, and its owner is
    active, not deleted and still of a level that may use API tokens. *)
Lemma token_auth_sound `{Crypto} now users tokens header u t :
  authenticate_token now users tokens header = T_user u t →
  t ∈ tokens ∧ (∃ scheme raw, split_words header = [scheme; raw] ∧ tk_hash t = sha256 raw) ∧
  tk_revoked t = None ∧ (∀ e, tk_expires t = Some e → now < e) ∧
  u ∈ users ∧ u_pk u = tk_user t ∧ is_active u = true ∧
  can AREAS (Some u) "api_tokens" "use" = Ok true ∧ level_of (Some u) ≠ None.
Proof.
  unfold authenticate_token. destruct (split_words header) as [|scheme rest]; [done|].
  destruct (negb (is_ascii scheme)); [done|]. case_bool_decide; [done|]. destruct rest as [|raw [|? ?]]; try done.
  destruct (negb (is_ascii raw)); [done|].
  destruct (filter _ tokens) as [|x [|? ?]] eqn:Hf; try done.
  destruct (token_is_active now x) eqn:Hx; [|done]. cbn [negb].
  destruct (head _) as [v|] eqn:Hh; [|done]. destruct (is_active v) eqn:Hv; [|done]. cbn [negb].
  destruct (can AREAS (Some v) "api_tokens" "use") as [[]|] eqn:Hc; try done. intros [= <- <-].
  assert (x ∈ filter (λ t, tk_hash t = sha256 raw) tokens) as Hin by (rewrite Hf; set_solver).
  apply list_elem_of_filter in Hin as [Hhash Hin]. apply head_filter_Some in Hh as [Hpk Hu].
  unfold token_is_active in Hx. destruct (tk_revoked x) eqn:Hr; [done|]. split_and!; try done.
  - eauto.
  - intros e He. rewrite He in Hx. case_bool_decide; [done|lia].
  - intros Hl. unfold can in Hc. rewrite Hl in Hc. apply obind_Ok in Hc as (n & _ & Hc). by destruct n.
Qed.

Lemma token_auth_sound_witness :
  let u := mkUser 5 true true None "admin" in
  let t := mkAccess 1 5 "raw" (Some 900) None None in
  authenticate_token 800 [u] [t] "Bearer raw" = T_user u t ∧ tk_revoked t = None.
Proof.
  set (u := mkUser 5 true true None "admin"). set (t := mkAccess 1 5 "raw" (Some 900) None None). cbv zeta.
  assert (authenticate_token 800 [u] [t] "Bearer raw" = T_user u t) as H by (vm_compute; reflexivity).
  split; [exact H|]. destruct (token_auth_sound 800 [u] [t] "Bearer raw" u t H) as (_ & _ & Hr & _). exact Hr.
Defined.
