(* ===== verification/Directory.v ===== *)
(** * Who sees whom, and who is told

    [apps/accounts/visibility.py]: what a viewer sees of another user, in the list and
    on the detail page; [apps/monitoring/recipients.py] and [notifications.py]: who
    receives a station's alert and over which channel; the per-application access
    policy of the sign-in server ([apps/sso/permissions.py], [models.py]).  All of it
    rests on the levels and areas of [Permissions]. *)

From Stdlib Require Import ZArith Lia.
From stdpp Require Import base sets list strings.
From S2P Require Import Prelude Permissions.
Local Open Scope Z_scope.

Inductive NotifyChannel := EMAIL | PUSH | BOTH.
#[export] Instance NotifyChannel_eq_dec : EqDecision NotifyChannel.
Proof. solve_decision. Defined.

(** A row of the users table with the columns this file reads. *)
Record Person := mkPerson {
  ps_user : User;
  ps_directory_visible : bool;
  ps_email : string;
  ps_channel : NotifyChannel;
  ps_devices : list Z;               (* push_subscriptions *)
  ps_assignments : Assignments
}.

(** ** Visibility *)

Inductive Audience := AUD_ADMIN | AUD_SELF | AUD_MEMBER | AUD_APPLICANT.
#[export] Instance Audience_eq_dec : EqDecision Audience.
Proof. solve_decision. Defined.

Definition audience_for (viewer : User) (target : User) : outcome PermError (option Audience) :=
  if negb (is_authenticated viewer) then Ok None
  else obind (can AREAS (Some viewer) "users" "manage") (λ manages,
    if manages then Ok (Some AUD_ADMIN)
    else if bool_decide (u_pk viewer = u_pk target) then
      Ok (Some (if bool_decide (level_of (Some viewer) = Some APPLICANT) then AUD_APPLICANT else AUD_SELF))
    else if bool_decide (level_of (Some viewer) = Some APPLICANT) then Ok None
    else if bool_decide (from_slug (membership_level target) = Some APPLICANT) then Ok None
    else if negb (is_active target) || bool_decide (deleted_at target ≠ None) then Ok None
    else Ok (Some AUD_MEMBER)).

Definition PUBLIC_PROFILE_FIELDS : list string :=
  ["username"; "first_name"; "last_name"; "email"; "membership_level"; "avatar"; "bio"; "qth_name"; "locator";
   "qrz_url"; "date_joined_year"; "region_assignments"; "station_assignments"].
Definition PRIVATE_PROFILE_FIELDS : list string :=
  ["address"; "phone"; "latitude"; "longitude"; "language"; "last_login"; "is_active"; "is_directory_visible"].
Definition ADMIN_ONLY_FIELDS : list string := ["sso_grants"; "sso_sessions"; "tag_memberships"; "global_audit_actions"].
Definition MINIMAL_DIRECTORY_FIELDS : list string := ["username"; "membership_level"; "avatar"].

Definition directory_visible_fields (viewer : User) (target : Person) : outcome PermError (list string) :=
  obind (audience_for viewer (ps_user target)) (λ aud,
    Ok (match aud with
        | None => []
        | Some AUD_ADMIN => PUBLIC_PROFILE_FIELDS ++ PRIVATE_PROFILE_FIELDS ++ ADMIN_ONLY_FIELDS
        | Some AUD_SELF | Some AUD_APPLICANT => PUBLIC_PROFILE_FIELDS ++ PRIVATE_PROFILE_FIELDS ++ ["sso_sessions_self"]
        | Some AUD_MEMBER => if ps_directory_visible target then PUBLIC_PROFILE_FIELDS else MINIMAL_DIRECTORY_FIELDS
        end)).

Definition user_can_view_directory (viewer : User) : outcome PermError bool := can AREAS (Some viewer) "users" "view".

(** [User.objects.active()] *)
Definition active_users (users : list User) : list User := filter (λ u, deleted_at u = None) users.

Definition directory_queryset (viewer : User) (users : list User) : outcome PermError (list User) :=
  obind (can AREAS (Some viewer) "users" "manage") (λ manages,
    Ok (if manages then active_users users
        else filter (λ u, is_active u = true ∧ membership_level u ≠ "applicant") (active_users users))).

(** ** Alert recipients *)

Record StationInfo := mkStationInfo { si_pk : Z; si_region : option Z }.

(** The four clauses of [_topology_q]. *)
Definition topology_q (st : StationInfo) (managers : list User) (p : Person) : bool :=
  bool_decide (u_pk (ps_user p) ∈ u_pk <$> managers) ||
  match si_region st with
  | Some r => bool_decide ((r, "manager") ∈ region_assignments (ps_assignments p))
  | None => false
  end ||
  bool_decide (Exists (λ a, a.1 = si_pk st ∧ (a.2 = "admin" ∨ a.2 = "maintainer")) (station_assignments (ps_assignments p))).

Definition base_topology_recipients (st : StationInfo) (people : list Person) : outcome PermError (list Person) :=
  obind (users_with AREAS "alert_rules" "manage" (ps_user <$> people)) (λ managers,
    Ok (filter (λ p, deleted_at (ps_user p) = None ∧ topology_q st managers p = true ∧ is_active (ps_user p) = true ∧
                     membership_level (ps_user p) ≠ "applicant") people)).

Definition wants_email (p : Person) : bool :=
  match ps_channel p with
  | EMAIL | BOTH => true
  | PUSH => bool_decide (ps_devices p = [])
  end.

Definition email_recipients_for_station_alert (st : StationInfo) (people : list Person) : outcome PermError (list Person) :=
  obind (base_topology_recipients st people) (λ base,
    Ok (filter (λ p, wants_email p = true ∧ ps_email p ≠ "") base)).

Definition push_recipients_for_station_alert (st : StationInfo) (people : list Person) : outcome PermError (list Person) :=
  obind (base_topology_recipients st people) (λ base,
    Ok (filter (λ p, ps_channel p ≠ EMAIL ∧ ps_devices p ≠ []) base)).

(** The recipient list of the one mail; an empty list sends none. *)
Definition send_email_notification (st : StationInfo) (people : list Person) : outcome PermError (list string) :=
  obind (email_recipients_for_station_alert st people) (λ mails, Ok (ps_email <$> mails)).

(** The devices a push is attempted to, each in isolation. *)
Definition send_webpush_notification (st : StationInfo) (people : list Person) : outcome PermError (list Z) :=
  obind (push_recipients_for_station_alert st people) (λ pushes, Ok (pushes ≫= ps_devices)).

(** [send_alert_notifications] with the mail and push channels; the flags are the
    settings [ALERT_EMAIL_ENABLED] and [ALERT_WEBPUSH_ENABLED]. *)
Definition send_alert_notifications (st : StationInfo) (email_on push_on : bool) (people : list Person)
    : outcome PermError (list string * list Z) :=
  obind (if email_on then send_email_notification st people else Ok []) (λ mails,
  obind (if push_on then send_webpush_notification st people else Ok []) (λ devices, Ok (mails, devices))).

(** ** Sign-in policy of an application *)

Inductive AccessPolicy := GRANT_REQUIRED | OPEN_TO_ALL | OPEN_TO_MEMBERS | OPEN_TO_INTERNAL | OPEN_TO_ADMINS.

Record AppGrant := mkGrant { gr_user : Z; gr_app : Z; gr_revoked : option Z }.

(** [(level_of(user) or 0) >= level] *)
Definition at_least (u : User) (l : Level) : bool :=
  match level_of (Some u) with Some h => level_ge h l | None => false end.

(** [user_can_access]; no policy row means [GRANT_REQUIRED]. *)
Definition user_can_access (u : User) (app : Z) (policy : option AccessPolicy) (grants : list AppGrant) : bool :=
  if negb (is_active u) then false
  else
    match default GRANT_REQUIRED policy with
    | OPEN_TO_ALL => true
    | OPEN_TO_MEMBERS => at_least u MEMBER
    | OPEN_TO_INTERNAL => at_least u STAFF
    | OPEN_TO_ADMINS => bool_decide (level_of (Some u) = Some ADMIN)
    | GRANT_REQUIRED => bool_decide (Exists (λ g, gr_user g = u_pk u ∧ gr_app g = app ∧ gr_revoked g = None) grants)
    end.

(** ** Theorems *)

Lemma from_slug_applicant s : from_slug s = Some APPLICANT ↔ s = "applicant".
Proof.
  unfold from_slug, all_levels. simpl. repeat case_decide; simpl; subst; try naive_solver.
Qed.

Lemma can_Ok u : ∃ b, can AREAS (Some u) "users" "manage" = Ok b.
Proof. unfold can. simpl. eauto. Qed.

(** The directory and the detail page agree.  For a viewer who may see the
    directory and does not manage users, another user is in the list exactly when his
    page may be opened; a manager's list is every user who is not soft-deleted, each
    of which he may open; and no viewer who neither manages users nor is the user
    himself sees a private or administrative field. *)
Lemma directory_consistent viewer users target :
  is_authenticated viewer = true →
  user_can_view_directory viewer = Ok true →
  ps_user target ∈ users → u_pk viewer ≠ u_pk (ps_user target) →
  ∃ listed aud fields manages,
    directory_queryset viewer users = Ok listed ∧ audience_for viewer (ps_user target) = Ok aud ∧
    directory_visible_fields viewer target = Ok fields ∧ can AREAS (Some viewer) "users" "manage" = Ok manages ∧
    (manages = false → ps_user target ∈ listed ↔ aud ≠ None) ∧
    (manages = true → (ps_user target ∈ listed ↔ deleted_at (ps_user target) = None) ∧ aud = Some AUD_ADMIN) ∧
    (manages = false → ∀ f, f ∈ fields → f ∈ PUBLIC_PROFILE_FIELDS).
Proof.
  intros Hauth Hview Hin Hne. destruct (can_Ok viewer) as [manages Hm].
  assert (level_of (Some viewer) ≠ Some APPLICANT) as Hlevel.
  { intros Hl. unfold user_can_view_directory, can in Hview. rewrite Hl in Hview. by vm_compute in Hview. }
  unfold directory_visible_fields, directory_queryset, audience_for. rewrite Hauth, Hm. cbn [negb obind].
  destruct manages; cbn [negb obind].
  - do 4 eexists. split_and!; [done..| |done]. intros _. split; [|done]. unfold active_users.
    rewrite list_elem_of_filter. naive_solver.
  - rewrite (bool_decide_eq_false_2 _ Hne), (bool_decide_eq_false_2 _ Hlevel).
    assert (∀ u, u ∈ filter (λ u, is_active u = true ∧ membership_level u ≠ "applicant") (active_users users) ↔
      (is_active u = true ∧ membership_level u ≠ "applicant") ∧ deleted_at u = None ∧ u ∈ users) as Hlist.
    { intros u. unfold active_users. rewrite !list_elem_of_filter. tauto. }
    destruct (bool_decide (from_slug _ = Some APPLICANT)) eqn:Hs.
    { apply bool_decide_eq_true, from_slug_applicant in Hs. do 4 eexists. split_and!; [done..| |done|by intros _ f Hf; apply not_elem_of_nil in Hf].
      intros _. rewrite Hlist. naive_solver. }
    apply bool_decide_eq_false in Hs. rewrite from_slug_applicant in Hs.
    destruct (negb (is_active (ps_user target)) || bool_decide (deleted_at (ps_user target) ≠ None)) eqn:Hg.
    + do 4 eexists. split_and!; [done..| |done|by intros _ f Hf; apply not_elem_of_nil in Hf]. intros _. rewrite Hlist.
      apply orb_true_iff in Hg as [Hg|Hg%bool_decide_eq_true]; [|naive_solver]. destruct (is_active _); naive_solver.
    + apply orb_false_iff in Hg as [Hg1 Hg2%bool_decide_eq_false]. do 4 eexists. split_and!; [done..| |done|].
      * intros _. rewrite Hlist. apply negb_false_iff in Hg1. apply dec_stable in Hg2. naive_solver.
      * intros _ f Hf. destruct (ps_directory_visible target); [done|]. unfold MINIMAL_DIRECTORY_FIELDS, PUBLIC_PROFILE_FIELDS in *. set_solver.
Qed.

(** A manager, a member with a hidden profile and an applicant. *)
Definition ex_people : list Person :=
  [mkPerson (mkUser 1 true true None "admin") true "a@oe5xrx" EMAIL [] (mkAssignments [] []);
   mkPerson (mkUser 2 true true None "member") false "m@oe5xrx" PUSH [20; 21] (mkAssignments [(7, "maintainer")] []);
   mkPerson (mkUser 3 true true None "applicant") true "x@oe5xrx" BOTH [] (mkAssignments [] [(4, "manager")]);
   mkPerson (mkUser 4 true true None "staff") true "s@oe5xrx" PUSH [] (mkAssignments [] [(4, "manager")])].

Lemma directory_consistent_witness : ∃ viewer target listed aud,
  directory_queryset viewer (ps_user <$> ex_people) = Ok listed ∧ audience_for viewer (ps_user target) = Ok aud ∧
  ps_user target ∈ listed ∧ aud ≠ None.
Proof.
  pose (v := mkUser 2 true true None "member"). pose (t := mkPerson (mkUser 4 true true None "staff") true "s@oe5xrx" PUSH [] (mkAssignments [] [(4, "manager")])).
  assert (is_authenticated v = true) as H1 by reflexivity.
  assert (user_can_view_directory v = Ok true) as H2 by (vm_compute; reflexivity).
  assert (ps_user t ∈ ps_user <$> ex_people) as H3 by (simpl; do 3 right; left).
  assert (u_pk v ≠ u_pk (ps_user t)) as H4 by (simpl; lia).
  destruct (directory_consistent v (ps_user <$> ex_people) t H1 H2 H3 H4) as (l & a & f & m & Hl & Ha & _ & Hm & Hno & _).
  assert (m = false) as Hmf by (vm_compute in Hm; congruence).
  assert (a ≠ None) as Hna by (vm_compute in Ha; congruence).
  exists v, t, l, a. split; [exact Hl|]. split; [exact Ha|]. split; [apply (Hno Hmf); exact Hna|exact Hna].
Defined.

(** *** Sign-in policies *)

Definition policy_rank (p : AccessPolicy) : option nat :=
  match p with OPEN_TO_ALL => Some 0%nat | OPEN_TO_MEMBERS => Some 1%nat | OPEN_TO_INTERNAL => Some 2%nat
             | OPEN_TO_ADMINS => Some 3%nat | GRANT_REQUIRED => None end.

(** The open policies are nested, whatever the grants; a deactivated account gets in
    nowhere; and without a policy row, or under [GRANT_REQUIRED], only an unrevoked
    grant of the user for that application opens it, his level notwithstanding. *)
Lemma sign_in_policies u app grants :
  (∀ p q i j, policy_rank p = Some i → policy_rank q = Some j → (i ≤ j)%nat →
     user_can_access u app (Some q) grants = true → user_can_access u app (Some p) grants = true) ∧
  (∀ p, is_active u = false → user_can_access u app p grants = false) ∧
  (∀ p, p = None ∨ p = Some GRANT_REQUIRED →
     user_can_access u app p grants = true ↔
     is_active u = true ∧ ∃ g, g ∈ grants ∧ gr_user g = u_pk u ∧ gr_app g = app ∧ gr_revoked g = None).
Proof.
  split_and!.
  - intros p q i j Hp Hq Hij. unfold user_can_access, at_least.
    generalize (level_of (Some u)). intros held. destruct (is_active u); [simpl|done].
    destruct p, q; simplify_eq/=; try lia; try done; by destruct held as [[]|].
  - intros p Hf. unfold user_can_access. by rewrite Hf.
  - intros p Hp. unfold user_can_access. replace (default GRANT_REQUIRED p) with GRANT_REQUIRED by (by destruct Hp; subst).
    destruct (is_active u); simpl; [|naive_solver]. rewrite bool_decide_eq_true, Exists_exists. naive_solver.
Qed.

(** *** Recipients *)

(** Who the routing contract of [recipients.py] says is told of the station. *)
Definition entitled (st : StationInfo) (p : Person) : Prop :=
  deleted_at (ps_user p) = None ∧ is_active (ps_user p) = true ∧ membership_level (ps_user p) ≠ "applicant" ∧
  (membership_level (ps_user p) = "admin" ∨
   (∃ r, si_region st = Some r ∧ (r, "manager") ∈ region_assignments (ps_assignments p)) ∨
   (si_pk st, "admin") ∈ station_assignments (ps_assignments p) ∨
   (si_pk st, "maintainer") ∈ station_assignments (ps_assignments p)).

Lemma station_clause st l :
  Exists (λ a : Z * string, a.1 = st ∧ (a.2 = "admin" ∨ a.2 = "maintainer")) l ↔ (st, "admin") ∈ l ∨ (st, "maintainer") ∈ l.
Proof.
  rewrite Exists_exists. split.
  - intros ([x y] & Hin & Hx & [Hy|Hy]); simpl in *; subst; auto.
  - intros [H|H]; eexists; (split; [exact H|]); simpl; auto.
Qed.

Definition person_pk (p : Person) : Z := u_pk (ps_user p).

Lemma same_pk_same_person (people : list Person) p q :
  NoDup (person_pk <$> people) → p ∈ people → q ∈ people → person_pk p = person_pk q → p = q.
Proof.
  intros Hnd (i & Hi)%list_elem_of_lookup (j & Hj)%list_elem_of_lookup Heq.
  assert (i = j) as ->; [|congruence].
  eapply (NoDup_lookup _ _ _ (person_pk p) Hnd); rewrite list_lookup_fmap.
  - by rewrite Hi.
  - by rewrite Hj, Heq.
Qed.

Lemma alert_managers people :
  users_with AREAS "alert_rules" "manage" (ps_user <$> people) =
  Ok (filter (λ u, is_active u ∧ deleted_at u = None ∧ membership_level u ∈ ["admin"]) (ps_user <$> people)).
Proof. reflexivity. Qed.

Lemma base_recipients_entitled st people :
  NoDup (person_pk <$> people) →
  ∃ base, base_topology_recipients st people = Ok base ∧ (∀ p, p ∈ base ↔ p ∈ people ∧ entitled st p).
Proof.
  intros Hnd. unfold base_topology_recipients. rewrite alert_managers. eexists. split; [reflexivity|].
  intros p. rewrite list_elem_of_filter. unfold topology_q, entitled.
  assert (∀ l, p ∈ people → deleted_at (ps_user p) = None → is_active (ps_user p) = true →
    l = filter (λ u, is_active u ∧ deleted_at u = None ∧ membership_level u ∈ ["admin"]) (ps_user <$> people) →
    u_pk (ps_user p) ∈ u_pk <$> l ↔ membership_level (ps_user p) = "admin") as Hman.
  { intros l Hp Hd Ha ->. rewrite list_elem_of_fmap. split.
    - intros (u & Hpk & Hu). apply list_elem_of_filter in Hu as [(_ & _ & Hlvl) Hu].
      apply list_elem_of_fmap in Hu as (q & -> & Hq). apply list_elem_of_singleton in Hlvl.
      by rewrite (same_pk_same_person people p q Hnd Hp Hq Hpk).
    - intros Hlvl. exists (ps_user p). split; [done|]. apply list_elem_of_filter. rewrite Hlvl, Ha, Hd.
      split; [split_and!; [done|done|by left]|]. by apply list_elem_of_fmap_2. }
  rewrite !orb_true_iff, !bool_decide_eq_true, station_clause.
  assert (match si_region st with
    | Some r => bool_decide ((r, "manager") ∈ region_assignments (ps_assignments p))
    | None => false
    end = true ↔ ∃ r, si_region st = Some r ∧ (r, "manager") ∈ region_assignments (ps_assignments p)) as ->.
  { destruct (si_region st) as [r|]; [rewrite bool_decide_eq_true|]; naive_solver. }
  split.
  - intros [(Hd & Ht & Ha & Hl) Hp]. rewrite (Hman _ Hp Hd Ha eq_refl) in Ht. tauto.
  - intros (Hp & Hd & Ha & Hl & Ht). rewrite (Hman _ Hp Hd Ha eq_refl). tauto.
Qed.

(** Alerts reach exactly the people entitled to them.  Mail goes to the addresses
    of the entitled users who want mail or wanted a push and have no device; pushes go
    to the devices of the entitled users who did not choose mail alone; and an entitled
    user is told over one of the two unless he has neither an address nor a device he
    accepts pushes on. *)
Lemma alerts_reach_the_entitled st people :
  NoDup (person_pk <$> people) →
  ∃ mails devices, send_alert_notifications st true true people = Ok (mails, devices) ∧
    (∀ e, e ∈ mails ↔ ∃ p, p ∈ people ∧ entitled st p ∧ ps_email p = e ∧ e ≠ "" ∧
            (ps_channel p ≠ PUSH ∨ ps_devices p = [])) ∧
    (∀ d, d ∈ devices ↔ ∃ p, p ∈ people ∧ entitled st p ∧ d ∈ ps_devices p ∧ ps_channel p ≠ EMAIL) ∧
    (∀ p, p ∈ people → entitled st p → ps_email p ≠ "" ∨ (ps_channel p ≠ EMAIL ∧ ps_devices p ≠ []) →
       ps_email p ∈ mails ∨ (∃ d, d ∈ ps_devices p ∧ d ∈ devices)).
Proof.
  intros Hnd. destruct (base_recipients_entitled st people Hnd) as (base & Hb & Hbase).
  unfold send_alert_notifications, send_email_notification, send_webpush_notification,
    email_recipients_for_station_alert, push_recipients_for_station_alert. rewrite Hb. cbn [obind].
  do 2 eexists. split; [reflexivity|].
  assert (∀ p, wants_email p = true ↔ ps_channel p ≠ PUSH ∨ ps_devices p = []) as Hw.
  { intros p. unfold wants_email. destruct (ps_channel p); [|rewrite bool_decide_eq_true|]; naive_solver. }
  match goal with |- (∀ e, e ∈ ?M ↔ _) ∧ (∀ d, d ∈ ?D ↔ _) ∧ _ =>
    assert (∀ e, e ∈ M ↔ ∃ p, p ∈ people ∧ entitled st p ∧ ps_email p = e ∧ e ≠ "" ∧
            (ps_channel p ≠ PUSH ∨ ps_devices p = [])) as Hmail;
    [|assert (∀ d, d ∈ D ↔ ∃ p, p ∈ people ∧ entitled st p ∧ d ∈ ps_devices p ∧ ps_channel p ≠ EMAIL) as Hpush] end.
  - intros e. rewrite list_elem_of_fmap. setoid_rewrite list_elem_of_filter. setoid_rewrite Hbase.
    setoid_rewrite Hw. naive_solver.
  - intros d. rewrite list_elem_of_bind. setoid_rewrite list_elem_of_filter. setoid_rewrite Hbase. split.
    + naive_solver.
    + intros (p & Hp & He & Hd & Hc). exists p. split_and!; try done. intros Hnil. rewrite Hnil in Hd. by apply not_elem_of_nil in Hd.
  - split_and!; [done|done|]. intros p Hp He Hreach. rewrite Hmail. setoid_rewrite Hpush.
    destruct (ps_devices p) as [|d ds] eqn:Hds; [left; naive_solver|].
    destruct (decide (ps_channel p = EMAIL)) as [Hc|Hc].
    + left. exists p. rewrite Hc. naive_solver.
    + right. exists d. split; [left|]. exists p. split_and!; try done. rewrite Hds. left.
Qed.

Lemma alerts_reach_the_entitled_witness : ∃ mails devices,
  send_alert_notifications (mkStationInfo 7 (Some 4)) true true ex_people = Ok (mails, devices) ∧
  "s@oe5xrx" ∈ mails ∧ 21 ∈ devices.
Proof.
  assert (NoDup (person_pk <$> ex_people)) as Hnd by (apply (bool_decide_unpack _); vm_compute; exact I).
  destruct (alerts_reach_the_entitled (mkStationInfo 7 (Some 4)) ex_people Hnd) as (m & d & H & Hm & Hd & _).
  exists m, d. split; [exact H|]. vm_compute in H. injection H as <- <-. split.
  - right. left.
  - right. left.
Defined.
