(* ===== verification/AudioUplink.v ===== *)
(** * The microphone uplink of the browser's audio socket

    Models the uplink of [AudioConsumer] in [apps/audio/consumers.py]: the gate
    cache ([_cache_mic_allowed], [audio_gate]), [_handle_mic_open] with [mic_close],
    and [_handle_uplink].  The decision about a frame reads only the cache, a
    snapshot of the lock holder and the gate row that another process took with
    [get_wire_state] of [apps/audio/gate.py] and broadcast.

    One station and one socket.  Whoever takes a snapshot reads the lock and the
    gate in two queries with other transactions in between; snapshots reach the
    socket in any order, late, more than once or never.  Times are microseconds of
    one clock. *)

From Stdlib Require Import ZArith Lia.
From stdpp Require Import base gmap list strings.
From S2P Require Import Prelude Json Permissions ControlLock Audio.

Local Open Scope Z_scope.

(** ** The consumer *)

(** What [get_wire_state] returns: the gate row and the lock holder. *)
Notation WireState := (AudioGate * option Z)%type.

(** [_cache_mic_allowed]; [None] is the empty cache before the first snapshot. *)
Definition cache_mic_allowed (user : Z) (now : Z) (cache : option WireState) : bool :=
  match cache with
  | None => false
  | Some (g, holder_id) =>
    if negb (ptt_active g) then false
    else if negb (bool_decide (holder_id = Some user)) then false
    else match ptt_expires_at g with None => false | Some t => bool_decide (now < t) end
  end.

(** The socket: cache, [_mic_open], [_not_locked_error_sent], and what it has sent:
    frames relayed to the agent and errors to the browser, newest first. *)
Record Socket := mkSocket {
  so_cache : option WireState;
  so_mic_open : bool;
  so_error_sent : bool;
  so_relayed : list (Z * list Byte.byte);
  so_errors : nat
}.

Definition with_error (s : Socket) : Socket :=
  mkSocket (so_cache s) (so_mic_open s) true (so_relayed s) (S (so_errors s)).

(** [_handle_mic_open]; [use] is [area_allows("use")]. *)
Definition handle_mic_open (user now : Z) (use : bool) (s : Socket) : Socket :=
  if negb use then mkSocket (so_cache s) false (so_error_sent s) (so_relayed s) (so_errors s)
  else
    let s1 := mkSocket (so_cache s) true false (so_relayed s) (so_errors s) in
    if cache_mic_allowed user now (so_cache s) then s1 else with_error s1.

Definition handle_mic_close (s : Socket) : Socket :=
  mkSocket (so_cache s) false false (so_relayed s) (so_errors s).

(** [_handle_uplink] *)
Definition handle_uplink (user now : Z) (data : list Byte.byte) (s : Socket) : Socket :=
  if cache_mic_allowed user now (so_cache s)
  then mkSocket (so_cache s) (so_mic_open s) (so_error_sent s) ((now, data) :: so_relayed s) (so_errors s)
  else if so_error_sent s then s else with_error s.

(** [audio_gate]: a snapshot arrives (also the one read at connect). *)
Definition on_gate (user now : Z) (state : WireState) (s : Socket) : Socket :=
  mkSocket (Some state) (so_mic_open s)
    (if cache_mic_allowed user now (Some state) then so_error_sent s else false)
    (so_relayed s) (so_errors s).

(** ** The station around it *)

Inductive UplinkEvent :=
| U_gate (e : GateEvent)                (* a gate operation commits *)
| U_lock (l : Lock)                     (* the lock row changes *)
| U_read_holder                         (* a snapshot starts: the holder is read *)
| U_read_gate (i : nat)                 (* the [i]th snapshot begun reads the gate *)
| U_deliver (i : nat)                   (* the [i]th finished snapshot reaches the socket *)
| U_mic_open (use : bool)
| U_mic_close
| U_frame (data : list Byte.byte).

Record Uplink := mkUplink {
  ul_gate : AudioGate;
  ul_lock : Lock;
  ul_begun : list (option Z);
  ul_taken : list WireState;
  ul_socket : Socket
}.

Definition with_socket (s : Socket) (u : Uplink) : Uplink :=
  mkUplink (ul_gate u) (ul_lock u) (ul_begun u) (ul_taken u) s.

Definition uplink_step (user : Z) (u : Uplink) (et : UplinkEvent * Z) : Uplink :=
  let now := et.2 in
  match et.1 with
  | U_gate e => mkUplink (gate_event e now (ul_gate u)) (ul_lock u) (ul_begun u) (ul_taken u) (ul_socket u)
  | U_lock l => mkUplink (ul_gate u) l (ul_begun u) (ul_taken u) (ul_socket u)
  | U_read_holder =>
    mkUplink (ul_gate u) (ul_lock u) (ul_begun u ++ [holder (ul_lock u)]) (ul_taken u) (ul_socket u)
  | U_read_gate i =>
    match ul_begun u !! i with
    | Some h => mkUplink (ul_gate u) (ul_lock u) (ul_begun u) (ul_taken u ++ [(ul_gate u, h)]) (ul_socket u)
    | None => u
    end
  | U_deliver i =>
    match ul_taken u !! i with
    | Some state => with_socket (on_gate user now state (ul_socket u)) u
    | None => u
    end
  | U_mic_open use => with_socket (handle_mic_open user now use (ul_socket u)) u
  | U_mic_close => with_socket (handle_mic_close (ul_socket u)) u
  | U_frame data => with_socket (handle_uplink user now data (ul_socket u)) u
  end.

Definition new_socket : Socket := mkSocket None false false [] 0.
Definition uplink_start : Uplink := mkUplink new_gate free_lock [] [] new_socket.

Definition run_uplink (user : Z) (trace : list (UplinkEvent * Z)) : Uplink :=
  foldl (uplink_step user) uplink_start trace.

(** ** Where the cache comes from *)

(** The gate operations of a trace. *)
Definition gate_history (trace : list (UplinkEvent * Z)) : list (GateEvent * Z) :=
  omap (λ et, match et.1 with U_gate e => Some (e, et.2) | _ => None end) trace.

(** A snapshot is honest: its gate is the row after some prefix of the trace, and
    its holder was the holder after some prefix. *)
Definition honest_gate (trace : list (UplinkEvent * Z)) (g : AudioGate) : Prop :=
  ∃ pre, pre `prefix_of` trace ∧ g = run_gate (gate_history pre).
Definition honest_holder (trace : list (UplinkEvent * Z)) (h : option Z) : Prop :=
  h = None ∨ ∃ l t, (U_lock l, t) ∈ trace ∧ holder l = h.

Record uplink_inv (trace : list (UplinkEvent * Z)) (u : Uplink) : Prop := mkUplinkInv {
  ui_gate : ul_gate u = run_gate (gate_history trace);
  ui_lock : honest_holder trace (holder (ul_lock u));
  ui_begun : Forall (honest_holder trace) (ul_begun u);
  ui_taken : Forall (λ ws, honest_gate trace ws.1 ∧ honest_holder trace ws.2) (ul_taken u);
  ui_cache : ∀ ws, so_cache (ul_socket u) = Some ws → honest_gate trace ws.1 ∧ honest_holder trace ws.2
}.

Lemma gate_history_app l1 l2 : gate_history (l1 ++ l2) = gate_history l1 ++ gate_history l2.
Proof. apply omap_app. Qed.

Lemma honest_gate_mono trace x g : honest_gate trace g → honest_gate (trace ++ [x]) g.
Proof. intros (pre & Hpre & ->). exists pre. split; [|done]. etrans; [done|]. by exists [x]. Qed.

Lemma honest_holder_mono trace x h : honest_holder trace h → honest_holder (trace ++ [x]) h.
Proof.
  intros [?|(l & t & Hin & ?)]; [by left|]. right. exists l, t. split; [|done]. apply elem_of_app. by left.
Qed.

#[local] Hint Resolve honest_gate_mono honest_holder_mono : core.

Lemma socket_keeps_cache user u e now :
  match e with U_deliver _ => True | _ =>
    so_cache (ul_socket (uplink_step user u (e, now))) = so_cache (ul_socket u) end.
Proof.
  destruct e; try done; unfold uplink_step; simpl.
  - by destruct (ul_begun u !! i).
  - unfold handle_mic_open. by repeat case_match.
  - unfold handle_uplink. by repeat case_match.
Qed.

Lemma run_uplink_inv user trace : uplink_inv trace (run_uplink user trace).
Proof.
  induction trace as [|[e now] trace [Hg Hl Hb Ht Hc]] using rev_ind.
  { constructor; try done; try constructor. done. }
  unfold run_uplink in *. rewrite foldl_snoc. set (u := foldl _ _ _) in *.
  assert (honest_gate (trace ++ [(e, now)]) (ul_gate u)) as Hgate.
  { exists trace. split; [by exists [(e, now)]|done]. }
  assert (∀ ws, so_cache (ul_socket u) = Some ws →
    honest_gate (trace ++ [(e, now)]) ws.1 ∧ honest_holder (trace ++ [(e, now)]) ws.2) as Hc'.
  { intros ws Hws. destruct (Hc ws Hws). auto. }
  assert (Forall (honest_holder (trace ++ [(e, now)])) (ul_begun u)) as Hb'
    by (eapply Forall_impl; [exact Hb|]; auto).
  assert (Forall (λ ws, honest_gate (trace ++ [(e, now)]) ws.1 ∧ honest_holder (trace ++ [(e, now)]) ws.2)
    (ul_taken u)) as Ht' by (eapply Forall_impl; [exact Ht|]; intros ws [? ?]; auto).
  pose proof (socket_keeps_cache user u e now) as Hk.
  assert (gate_history (trace ++ [(e, now)]) = gate_history trace ++ gate_history [(e, now)]) as Hgh
    by apply gate_history_app.
  destruct e; simpl in Hgh |- *; rewrite ?app_nil_r in Hgh;
    (constructor; [rewrite Hgh| | | |intros ws Hws; try (rewrite Hk in Hws); try by apply Hc']); try (unfold uplink_step; simpl; auto; fail).
  - unfold run_gate, uplink_step. rewrite foldl_snoc. simpl. by rewrite Hg.
  - right. exists l, now. split; [apply elem_of_app; right; apply list_elem_of_here|done].
  - apply Forall_app. split; [done|]. by constructor; [auto|].
  - unfold uplink_step. simpl. by destruct (ul_begun u !! i).
  - unfold uplink_step. simpl. destruct (ul_begun u !! i); simpl; auto.
  - unfold uplink_step. simpl. destruct (ul_begun u !! i); simpl; auto.
  - unfold uplink_step. simpl. destruct (ul_begun u !! i) as [h|] eqn:Hi; simpl; [|done].
    apply Forall_app. split; [done|]. constructor; [|constructor]. split; [done|].
    rewrite Forall_lookup in Hb'. eauto.
  - unfold uplink_step. simpl. by destruct (ul_taken u !! i).
  - unfold uplink_step. simpl. destruct (ul_taken u !! i); simpl; auto.
  - unfold uplink_step. simpl. destruct (ul_taken u !! i); simpl; auto.
  - unfold uplink_step. simpl. destruct (ul_taken u !! i); simpl; auto.
  - clear Hk. unfold uplink_step in Hws. simpl in Hws.
    destruct (ul_taken u !! i) as [state|] eqn:Hi; [|by apply Hc'].
    simpl in Hws. injection Hws as <-. rewrite Forall_lookup in Ht'. by eapply Ht'.
Qed.

(** A frame is relayed by a step that found the cache open. *)
Lemma relayed_origin user trace t data :
  (t, data) ∈ so_relayed (ul_socket (run_uplink user trace)) →
  ∃ pre post, trace = pre ++ (U_frame data, t) :: post ∧
    cache_mic_allowed user t (so_cache (ul_socket (run_uplink user pre))) = true.
Proof.
  induction trace as [|[e now] trace IH] using rev_ind; [intros Hin; by apply not_elem_of_nil in Hin|].
  unfold run_uplink in *. rewrite foldl_snoc. set (u := foldl _ _ trace) in *. intros Hin.
  assert ((t, data) ∈ so_relayed (ul_socket u) ∨
    (e = U_frame data ∧ now = t ∧ cache_mic_allowed user now (so_cache (ul_socket u)) = true)) as [Hold|Hnew].
  { destruct e; unfold uplink_step in Hin; simpl in Hin; auto.
    - left. by destruct (ul_begun u !! i).
    - left. by destruct (ul_taken u !! i).
    - left. unfold handle_mic_open in Hin. by repeat case_match.
    - unfold handle_uplink in Hin. destruct (cache_mic_allowed user now (so_cache (ul_socket u))) eqn:Hc.
      + simpl in Hin. apply elem_of_cons in Hin as [[= -> ->]|Hin]; auto.
      + left. by destruct (so_error_sent (ul_socket u)). }
  - destruct (IH Hold) as (pre & post & -> & Hc). exists pre, (post ++ [(e, now)]).
    split; [by rewrite <-app_assoc|done].
  - destruct Hnew as (-> & -> & Hc). by exists trace, [].
Qed.

(** ** Properties *)

(** C16. The dead-man of the uplink: whatever the order of gate operations, lock changes
    and snapshots, and however late or torn the snapshots are, a frame is relayed
    to the transmitter only after the user held the lock at some moment, after a PTT
    was set, and less than one time to live after a set or keepalive; and a decision
    on a cache that is up to date is that of [mic_allowed] on the tables. *)
Theorem uplink_dead_man user trace t data :
  let u := run_uplink user trace in
  ((t, data) ∈ so_relayed (ul_socket u) →
   ∃ pre post, trace = pre ++ (U_frame data, t) :: post ∧
     (∃ l t1, (U_lock l, t1) ∈ pre ∧ holder l = Some user) ∧
     ∃ e t0 ttl, (U_gate e, t0) ∈ pre ∧ t < t0 + ttl ∧
       (e = G_refresh ttl ∨ ∃ slot module, e = G_set slot module ttl) ∧
       ∃ slot module ttl' t1, (U_gate (G_set slot module ttl'), t1) ∈ pre) ∧
  (so_cache (ul_socket u) = Some (get_wire_state (Some (ul_gate u)) (Some (ul_lock u))) →
   so_relayed (ul_socket (run_uplink user (trace ++ [(U_frame data, t)]))) =
     (if mic_allowed user t (Some (ul_lock u)) (Some (ul_gate u)) then [(t, data)] else []) ++
     so_relayed (ul_socket u)).
Proof.
  intros u. split.
  - intros (pre & post & -> & Hc)%relayed_origin. exists pre, post. split; [done|].
    destruct (run_uplink_inv user pre) as [_ _ _ _ Hcache]. unfold cache_mic_allowed in Hc.
    destruct (so_cache _) as [[g h]|]; [|done]. destruct (Hcache _ eq_refl) as [(p & [q ->] & Hg) Hh].
    simpl in Hg, Hh. subst g. set (hist := gate_history p) in *.
    destruct (ptt_active (run_gate hist)) eqn:Hact; [|done]. simpl in Hc.
    destruct (bool_decide (h = Some user)) eqn:Hhu; [|done]. apply bool_decide_eq_true in Hhu as ->. simpl in Hc.
    destruct (ptt_expires_at _) as [x|] eqn:Hx; [|done]. apply bool_decide_eq_true in Hc.
    split. { destruct Hh as [?|(l & t1 & ? & ?)]; [done|]. by exists l, t1. }
    assert (∀ e t0, (e, t0) ∈ hist → (U_gate e, t0) ∈ p ++ q) as Hin.
    { intros e t0 ((e1, t1) & Hin & He)%list_elem_of_omap. destruct e1; simplify_eq/=.
      apply elem_of_app. by left. }
    destruct (run_gate_expiry hist) as [Ha He]. rewrite Hact in Ha.
    destruct (He x Hx) as (e & t0 & ttl & Hin0 & -> & Hor).
    exists e, t0, ttl. split_and!; [by apply Hin|done|naive_solver|].
    destruct (Ha I) as (b & s & m & ttl' & t1 & after & Hh' & _). exists s, m, ttl', t1.
    apply Hin. rewrite Hh'. apply elem_of_app. right. apply list_elem_of_here.
  - intros Hc. unfold run_uplink in *. rewrite foldl_snoc. fold u.
    change (ul_socket (uplink_step user u (U_frame data, t))) with (handle_uplink user t data (ul_socket u)).
    unfold handle_uplink.
    assert (cache_mic_allowed user t (so_cache (ul_socket u)) =
      mic_allowed user t (Some (ul_lock u)) (Some (ul_gate u))) as ->.
    { rewrite Hc. unfold cache_mic_allowed, mic_allowed, keyed. simpl.
      destruct (ptt_active (ul_gate u)), (bool_decide (holder (ul_lock u) = Some user)); done. }
    destruct (mic_allowed _ _ _ _); [done|]. by destruct (so_error_sent _).
Qed.

(** Operator 1 keys and speaks; the frame after the time to live is dropped. *)
Definition demo_uplink : list (UplinkEvent * Z) :=
  [(U_lock (mkLock (Some 1) (Some 0) (Some 0) None), 0); (U_gate (G_set (JStr "slot0") "fm" 3000000), 10);
   (U_read_holder, 11); (U_read_gate 0, 12); (U_deliver 0, 13); (U_frame [], 20); (U_frame [], 3000010)].

Lemma uplink_dead_man_witness :
  so_relayed (ul_socket (run_uplink 1 demo_uplink)) = [(20, [])] ∧
  ∃ e t0 ttl, (U_gate e, t0) ∈ demo_uplink ∧ 20 < t0 + ttl.
Proof.
  split; [vm_compute; reflexivity|].
  destruct (uplink_dead_man 1 demo_uplink 20 []) as [Hd _].
  destruct Hd as (pre & post & Heq & _ & e & t0 & ttl & Hin & Hlt & _); [vm_compute; apply list_elem_of_here|].
  exists e, t0, ttl. split; [rewrite Heq; apply elem_of_app; by left|exact Hlt].
Defined.

(** A torn snapshot: the holder is read before operator 1 gives the lock to operator 2,
    the gate after operator 2 has keyed.  Until the next snapshot frames of operator 1
    go out under the PTT of operator 2. *)
Example torn_snapshot_admits_former_holder :
  so_relayed (ul_socket (run_uplink 1
    [(U_lock (mkLock (Some 1) (Some 0) (Some 0) None), 0); (U_read_holder, 1);
     (U_lock (mkLock (Some 2) (Some 2) (Some 2) None), 2); (U_gate (G_set (JStr "slot0") "fm" 3000000), 3);
     (U_read_gate 0, 4); (U_deliver 0, 5); (U_frame [], 6)])) = [(6, [])].
Proof. vm_compute. reflexivity. Qed.

(** [mic_open], where [control.use] is checked, is not needed for a frame to pass. *)
Example frame_without_mic_open :
  so_mic_open (ul_socket (run_uplink 1 demo_uplink)) = false ∧
  so_relayed (ul_socket (run_uplink 1 demo_uplink)) = [(20, [])].
Proof. vm_compute. auto. Qed.
